(* ===== verification/_CoqProject ===== *)
-Q . S2P
Prelude.v
StdStrings.v
Futures.v
Scheduler.v
Monitoring.v
PriorityQueue.v
Storage.v
Posix.v
PosixHelper.v
WriteBuffer.v
ReadCache.v
BufferAgent.v
FlatOpScheduler.v
PosixHandle.v
BufferedPosix.v
Protocol.v
Sequencer.v
Streams.v
Layers.v
Communicator.v
CommunicatorStreams.v
Codec.v
Logging.v
Messages.v
ProxyHelper.v
Bootstrap.v
Certificates.v
FuseOperations.v
ConnectionPool.v
CommunicatorPool.v
KeyValueHelper.v
KeyValueAdapter.v
KeyValueSpec.v
S3Helper.v
BufferedBlocks.v
CephRados.v
CephHelper.v
SwiftHelper.v
NullDevice.v
GlusterFS.v
DHuS.v
WebDAVSessions.v
WebDAV.v
WebDAVFiles.v
WebDAVProps.v
HelperCreator.v
