(* ===== verification/Prelude.v ===== *)
(** * Verification of the storage helpers

    The program (directories src/src and src/include) gives a data access
    client one interface to many storages.  Files are read and written through
    _helpers_; a helper may be wrapped in a _buffer agent_ that delays writes
    and prefetches reads; helpers of object storages keep a file as blocks
    under keys; and a _communicator_ carries messages to a server over a pool
    of connections, with ordered streams on top.  This library models these
    parts as executable definitions and proves what each promises.

    ** Parts, files and sources

    Shared:
    - Prelude.v (this file): machine integers with their wrap-around, error
      codes and exceptions, [Try] (what a future holds) and [ST] (code that
      reads and writes a state and may throw), byte buffers, file contents
      with [pread] and [pwrite], tactics and hint databases.
    - StdStrings.v: [std::to_string], [std::stoull], [std::stol],
      [folly::split], trimming.
    - Futures.v: [folly::collect] of tasks that an executor runs in any order.
    - Scheduler.v: scheduler.h, scheduler.cc and asioExecutor.h: tasks, timers
      and worker threads as steps of one system.
    - Monitoring.v: the directories monitoring and [configureMonitoring]: the
      configuration, the one collector of a process, the counters and timers.
    - Logging.v: logging.h and packetLogger.h: the texts of the log, stack
      traces and the log of a connection's packets.
    - PriorityQueue.v: the concurrent priority queue of the message layers.

    Helpers:
    - Storage.v: storageHelper.h and storageHelper.cc: open flags,
      parameters, [retry], the interface of file handles as the class
      [FileHandle] with its laws [FileHandleLaws], [multiwrite], the record
      [StorageHelper] of a helper's methods.
    - WriteBuffer.v, ReadCache.v, BufferAgent.v: src/src/buffering.  A write
      buffer with its chain of batches and confirmation promises; a read cache
      with blocks on a heap that the cache, the fetches and the readers share;
      the buffered handle that joins both over one storage handle, the guard
      of the memory limits and the agent that wraps a helper.
    - BufferedBlocks.v, BufferedPosix.v: the buffered handle on the handles of
      the key-value adapter and of the POSIX helper, which discharge the laws
      of the interface.  A law holds up to a number of bytes that the handle
      moves in one call ([max_read], [max_write]), as Linux limits it.
    - KeyValueHelper.v, KeyValueAdapter.v, KeyValueSpec.v: keyValueHelper.h,
      keyValueAdapter.h and keyValueAdapter.cc.  The interface of object
      storages is the class [KeyValueHelper] with the laws [KeyValueLaws]; the
      adapter splits files into blocks against that interface; the last file
      relates the blocks to the contents of a file.
    - Posix.v, PosixHelper.v, PosixHandle.v: posixHelper.cc and posixHelper.h.
      The system calls as a type indexed by their results, the kernel as the
      class [Posix] with laws for identities, files, directories and extended
      attributes; the scope that acts as a user and all operations of the
      helper; open handles, whose operations the scheduler runs.
    - ProxyHelper.v: proxyHelper.cc, files behind a provider: requests through
      the messages, the inbox and the translator as one system of steps.
    - S3Helper.v: s3Helper.cc over an abstract AWS client.  Its instance of
      [KeyValueLaws] makes the theorems of KeyValueSpec.v theorems about S3.
    - CephRados.v: cephRadosHelper.cc over an abstract librados, the instance
      of the interface with random access, for operations in any threads.
    - CephHelper.v: cephHelper.cc, files as striped objects, over an abstract
      librados and libradosstriper.
    - SwiftHelper.v: swiftHelper.cc over an abstract Swift SDK, the third
      instance of the interface.
    - FlatOpScheduler.v: flatOpScheduler.h, the queue that runs the operations
      of one handle, as steps that interleave with its callers.
    - NullDevice.v: nullDeviceHelper.h and nullDeviceHelper.cc: simulated
      latency, timeouts and file tree, and handles that use the scheduler.
    - GlusterFS.v: glusterfsHelper.cc over an abstract libgfapi: the table of
      shared connections with reference-counted contexts, every operation of
      the helper and its handles.
    - DHuS.v: dhusodataHelper.cc, the read-only catalogue of satellite data.
    - WebDAVSessions.v, WebDAV.v, WebDAVFiles.v, WebDAVProps.v: webDAVHelper.cc
      and webDAVHelper.h.  The pool of sessions as steps of interleaved
      operations; requests, responses, all operations and the factory over an
      abstract server and XML library; files; extended attributes.
    - HelperCreator.v: storageHelperCreator.cc and the factories.
    - FuseOperations.v: fuseOperations.cc, the flag of threads that serve FUSE.

    Communication (src/src/communication):
    - Protocol.v: the fields of messages that the layers read or write.
    - Codec.v: packet frames, protocol upgrade and handshake handlers.
    - Messages.v: src/src/messages and src/src/errors, the domain messages and
      their translation to and from the fields of protocol buffers.
    - Bootstrap.v: the pipeline of a connection and the stages in which a
      client opens it, with its reconnection delays.
    - ConnectionPool.v: the pool as steps of sending threads, executors and
      network over the queue of idle connections.
    - Certificates.v: the directory cert, the certificate data of a TLS context.
    - Layers.v: Retrier, BinaryTranslator, AsyncResponder, Inbox, Replier and
      what Translator gives to its promises.
    - Sequencer.v: the layer that puts received stream messages in order.
    - Communicator.v: the layers stacked as communicator.h stacks them, with
      the user, the pool and the executor taking steps in any order.
    - CommunicatorPool.v: the same layers on the pool of ConnectionPool.v.
    - CommunicatorStreams.v: the streams of Streams.v on the same layers.
    - Streams.v: outgoing streams with their stores of sent messages, and the
      stream manager.

    ** What the theorems show

    - Block-stored files: a read returns the bytes of the file, a write and a
      truncation change exactly the bytes they should, an unlink removes the
      objects, locks are released on every path; for every block size, range
      and order of the block tasks ([kv_read_bytes], [kv_write_bytes],
      [kv_truncate_bytes], [kv_unlink_objects], [kv_locks_released]).  A storage
      with random access keeps the tail of the last block that a truncation
      leaves, and the theorem says so.  Block
      numbers are recovered from keys ([getObjectId_getKey]).  On S3, RADOS and
      Swift this holds also when requests fail, as long as the failures pass
      within the retries ([s3_file_write_read], [ceph_file_write_read], where
      the operations run in any threads, and [swift_file_write_read]).
    - Buffering: the storage and the outstanding writes together always are the
      file as its user wrote it ([write_buffer_refines]), an fsync makes it
      durable, every write is confirmed once; a cached read is a beginning of
      the requested range; and, for the agent as a whole, a read after any
      history of writes, prefetches and completions sees all writes
      ([agent_read_your_writes]), as long as no caller still waits for the
      confirmation of an earlier operation (a read made meanwhile need not,
      [agent_second_read_stale]).  This is proved against the interface of
      file handles and so holds of files in blocks on an object storage and of
      POSIX files ([buffered_blocks_read_your_writes],
      [buffered_posix_read_your_writes]), down to the objects of the bucket and
      the system calls.  The memory limits hold.
    - Messages: frames survive any cutting of the stream ([codec_roundtrip]);
      the sequencer delivers every life of a stream in order, completely, and
      asks for what is missing ([sequencer_in_order], [sequencer_complete]);
      through all the layers of a communicator every request is answered at most
      once, by a message that was received with its id or by an error of its
      own send ([communicator_matches]; message ids repeat after 65536
      requests, [message_id_repeats]), a reply that arrives completes its request,
      retrying ends, and stream messages reach the inbox once and, with an
      executor of one thread, in order ([communicator_in_order]; with several
      threads they need not, [communicator_reorders]).  On the pool as it is,
      every callback belongs to a send without an answer, and the sends that
      never get one are those whose write failed ([communicator_on_pool]).
      Outgoing streams resend what is asked for, the stream manager keeps its
      streams in order, and through the layers what is on the wire for a stream
      are its messages under their numbers, of which the stream keeps those
      that are not acknowledged ([streams_on_wire]).  Statuses survive being
      received and sent again ([status_roundtrip]).
    - Connections: with a server that answers in turn the framing and the two
      handlers together open a connection however the stream is cut
      ([connection_established]); in the pool no
      connection is in two places ([pool_connections_exclusive]) and no send is
      answered twice ([pool_answers_once]).
    - Files on striped objects are files, also when a client left locks on them:
      truncations and unlinks remove the locks, and an exclusive one keeps reads
      and writes out until then ([ceph_files_refine]).
    - GlusterFS: an operation that waits finds a context that is initialised
      and not finalised, however helpers that share it come and go
      ([gluster_contexts_live]), handles are files, errors included
      ([gluster_handle_refines]), and translator options are parsed as they
      are printed.  The catalogue of DHuS is listed completely
      ([dhus_walk_complete]).
    - WebDAV: no session is used by two operations
      ([webdav_sessions_exclusive]); sequences of operations are those on a map
      from URLs to contents, also when the server closes connections
      ([webdav_files_refine]), where growing a file and an empty write by PUT
      empty it; extended attributes are read back and listed
      ([webdav_xattr_roundtrip]).
    - Scheduled tasks are called at most once, in time, not after being
      cancelled and not on objects that are gone ([scheduler_calls_once]); in
      every run the work between two calls ends, and then all of them have been
      served ([scheduler_serves_all]).  The queue and the timers of asio are
      modelled from its documentation, and tasks do not throw.
    - Files behind a provider are linearizable ([proxy_linearizable]): with
      many requests under way, served and answered in any order, the results
      are those of one order of the operations, up to 65536 of them.
    - POSIX files: the results of a handle are those of a file that its
      operations use in the order of the calls, where a write of more than
      IOV_MAX buffers is one of several parts ([posix_handle_refines]); a
      write in pieces is one positioned write ([posix_write_equals_pwrite]);
      calls are made as the configured user, and afterwards the identity is
      what it was ([posix_user_context]); listings are exact pages and
      attributes are read back.
    - The simulated tree of the null device is consistent: its listings are
      exact and agree with the attributes ([null_tree_consistent]).
    - The chain of tests that creates helpers is a table lookup
      ([creator_is_table]).
    - Logs can be read back: byte strings, numbers and the packets of a
      connection ([packet_log_roundtrip]); a line of a stack trace names
      module, function and offset ([frame_line_parts]).  A timed operation is
      recorded once ([timer_records_once]).
    - Handle operations that do not throw run in order, one at a time, and none
      is left behind ([flat_scheduler_in_order], [flat_scheduler_drains]).
    - Behaviour that its authors would not expect is stated too: the WebDAV
      session that is never connected again ([webdav_closed_session_is_final]),
      and in lemmas the keys that [deleteObjects] never deletes, the pool that
      starves, the keys that a retried deletion has lost, the unknown error of S3
      that is read as zeros, the HTTP session that is dropped after it was
      destroyed, the request for messages that throws, the attribute that
      [setxattr] overwrites or that [removexattr] keeps, the truncation that
      empties a file or keeps its tail, the handshake error and the connection
      error that are never reported, the handle that stops after a timeout, the
      stream reset that blocks, the read error that stays in the cache or loses
      its number, the short write that leaves a gap, the status of another
      category that is sent as an errno, the collector without a reporter, the
      brace that the text of an empty map lacks.

    ** Conventions

    Integers are [Z]; [u16], [u32], [u64], [i32] and [i64] are written where
    the code's arithmetic happens at that width, and theorems carry the bounds
    under which nothing wraps.  Doubles are [spec_float].  Exceptions are
    values of [Try]; an access that the language leaves undefined is the
    exception [undefined_behaviour] or [None].  Concurrency is an arbitrary
    order: tasks run by a permutation, histories are lists of operations or
    the reflexive transitive closure of a step relation.  Times, latencies and
    random draws are arguments.  Code that is not in the repository is a
    parameter or a class with its documented behaviour as laws, and each class
    has an instance in memory for the witnesses.

    Loops with fuel have as fuel a bound that the code's own progress gives:
    the length of the queue for the loops that pop it, the number of blocks in
    a range, the bytes of a buffer for the decoder (each frame has four), the
    number of retries, the steps in which an idle scheduler runs one operation
    ([drain_fuel]).  The theorems about them state a result, not only the
    correctness of a result if there is one.

    ** What is not modelled

    The initialisation of libraries at start-up, the severities of the log,
    sockets and TLS, of which the pools and the bootstrap see only events; event
    bases and the assignment of sessions and operations to threads, beyond the
    interleavings that the steps allow; the construction of executors.  The
    headers that declare classes and exceptions have no behaviour of their own.
    The project manifest lists each with the reason. *)

From stdpp Require Import base numbers list gmap strings.
From Stdlib Require Import ZArith Lia Strings.Byte.

Declare Scope helpers_scope.
Delimit Scope helpers_scope with helpers.
Local Open Scope Z_scope.

(** ** Machine integers

    The code uses [size_t]/[uint64_t], [off_t]/[int64_t], [uint32_t] and
    [uint16_t].  A machine integer is a [Z]; the conversions below write out
    the wrap-around, and every definition applies them where the code's
    arithmetic happens at that width. *)

Definition u16 (z : Z) : Z := z mod 65536.
Definition u32 (z : Z) : Z := z mod 4294967296.
Definition u64 (z : Z) : Z := z mod 18446744073709551616.
Definition i64 (z : Z) : Z :=
  (z + 9223372036854775808) mod 18446744073709551616 - 9223372036854775808.
Definition i32 (z : Z) : Z :=
  (z + 2147483648) mod 4294967296 - 2147483648.

Definition UINT64_MAX : Z := 18446744073709551615.
Definition OFF_MAX : Z := 9223372036854775807.

(** Linear arithmetic with division and remainder by constants. *)
Ltac zlia := Z.to_euclidean_division_equations; lia.

(** Splits conjunctions and removes existentials from the context. *)
Ltac destruct_conj :=
  repeat match goal with
         | H : _ ∧ _ |- _ => destruct H
         | H : ∃ _, _ |- _ => destruct H
         end.

(** Reflects the boolean comparisons of the code into propositions. *)
Ltac reflect_bools :=
  repeat match goal with
         | H : (_ && _)%bool = true |- _ => apply andb_true_iff in H; destruct H
         | H : (_ && _)%bool = false |- _ => apply andb_false_iff in H
         | H : (_ || _)%bool = true |- _ => apply orb_true_iff in H
         | H : (_ || _)%bool = false |- _ => apply orb_false_iff in H; destruct H
         | H : negb _ = true |- _ => apply negb_true_iff in H
         | H : negb _ = false |- _ => apply negb_false_iff in H
         | H : (_ <? _) = true |- _ => apply Z.ltb_lt in H
         | H : (_ <? _) = false |- _ => apply Z.ltb_ge in H
         | H : (_ <=? _) = true |- _ => apply Z.leb_le in H
         | H : (_ <=? _) = false |- _ => apply Z.leb_gt in H
         | H : (_ =? _) = true |- _ => apply Z.eqb_eq in H
         | H : (_ =? _) = false |- _ => apply Z.eqb_neq in H
         end.

(** Case split on the test of every [if] of the goal. *)
Ltac case_ifs :=
  repeat match goal with
         | |- context [if ?b then _ else _] =>
             let E := fresh "Eif" in destruct b eqn:E
         end.

Create HintDb helpers discriminated.
Create Rewrite HintDb helpers_len.

Lemma u64_small (z : Z) : 0 <= z < 18446744073709551616 → u64 z = z.
Proof. intros. unfold u64. by apply Z.mod_small. Qed.

Lemma u64_range (z : Z) : 0 <= u64 z < 18446744073709551616.
Proof. unfold u64. by apply Z.mod_pos_bound. Qed.

Lemma i64_small (z : Z) :
  -9223372036854775808 <= z < 9223372036854775808 → i64 z = z.
Proof. intros. unfold i64. rewrite Z.mod_small; lia. Qed.

Lemma i32_small (z : Z) : -2147483648 <= z < 2147483648 → i32 z = z.
Proof. intros. unfold i32. rewrite Z.mod_small; lia. Qed.

Lemma i64_le (z : Z) : -9223372036854775808 <= z → i64 z <= z.
Proof.
  intros. unfold i64.
  pose proof (Z.mod_le (z + 9223372036854775808) 18446744073709551616). lia.
Qed.

Lemma u32_small (z : Z) : 0 <= z < 4294967296 → u32 z = z.
Proof. intros. unfold u32. by apply Z.mod_small. Qed.

Lemma u32_range (z : Z) : 0 <= u32 z < 4294967296.
Proof. unfold u32. by apply Z.mod_pos_bound. Qed.

Lemma u16_range (z : Z) : 0 <= u16 z < 65536.
Proof. unfold u16. by apply Z.mod_pos_bound. Qed.

(** An unsigned subtraction that wrapped can be undone. *)
Lemma u64_sub_sub (m x : Z) : 0 <= x < 18446744073709551616 → u64 (m - u64 (m - x)) = x.
Proof.
  intros Hx. unfold u64. rewrite Zminus_mod_idemp_r.
  replace (m - (m - x)) with x by lia. by apply Z.mod_small.
Qed.

#[export] Hint Resolve u64_range u32_range u16_range : helpers.

(** ** Error codes and exceptions *)

(** The category of a [std::error_code]. *)
Inductive error_category : Set :=
| system_category
| generic_category
| handshake_category.

Record error_code : Set := mk_error_code { ec_value : Z; ec_category : error_category }.

#[export] Instance error_category_eq_dec : EqDecision error_category.
Proof. solve_decision. Defined.

#[export] Instance error_code_eq_dec : EqDecision error_code.
Proof. solve_decision. Defined.

(** The exceptions the modelled code throws or lets pass;
    [undefined_behaviour] marks an access that the language leaves undefined,
    [no_return] a loop that does not end or a future that is never ready. *)
Inductive exc : Set :=
| system_error (ec : error_code)
| out_of_range
| invalid_argument
| underflow_error
| length_error
| runtime_error
| missing_parameter (key : string)
| bad_parameter (key value : string)
| promise_already_satisfied
| user_abort
| broken_promise
| http_exception
| bad_format
| undefined_behaviour
| no_return.

#[export] Instance exc_eq_dec : EqDecision exc.
Proof. solve_decision. Defined.

(** errno values (Linux). *)
Definition EPERM : Z := 1.
Definition ENOENT : Z := 2.
Definition EIO : Z := 5.
Definition EAGAIN : Z := 11.
Definition EACCES : Z := 13.
Definition EBUSY : Z := 16.
Definition EINVAL : Z := 22.
Definition EDOM : Z := 33.
Definition ERANGE : Z := 34.
Definition ENOSYS : Z := 38.
Definition EPROTO : Z := 71.
Definition ECONNABORTED : Z := 103.
Definition ECANCELED : Z := 125.
Definition EOWNERDEAD : Z := 130.

(** [std::make_error_code(std::errc)]. *)
Definition make_error_code (errc : Z) : error_code := mk_error_code errc generic_category.

(** ** Results

    [Try A] is what a [folly::Future<A>] holds once it is ready, and what a
    call of throwing code returns. *)
Inductive Try (A : Type) : Type :=
| Value (a : A)
| Exception (e : exc).
Arguments Value {A} _.
Arguments Exception {A} _.

#[export] Instance Try_ret : MRet Try := λ A a, Value a.
#[export] Instance Try_bind : MBind Try :=
  λ A B f m, match m with Value a => f a | Exception e => Exception e end.
#[export] Instance Try_fmap : FMap Try :=
  λ A B f m, match m with Value a => Value (f a) | Exception e => Exception e end.

#[export] Instance Try_eq_dec {A} `{EqDecision A} : EqDecision (Try A).
Proof. solve_decision. Defined.

Definition hasException {A} (t : Try A) : bool :=
  match t with Value _ => false | Exception _ => true end.

(** A computation that reads and writes a state and may throw. *)
Definition ST (S A : Type) : Type := S → S * Try A.

#[export] Instance ST_ret S : MRet (ST S) := λ A a s, (s, Value a).
#[export] Instance ST_bind S : MBind (ST S) :=
  λ A B f m s, match m s with
               | (s', Value a) => f a s'
               | (s', Exception e) => (s', Exception e)
               end.

Definition st_throw {S A} (e : exc) : ST S A := λ s, (s, Exception e).
Definition st_lift {S A} (t : Try A) : ST S A := λ s, (s, t).

Lemma st_bind_value {S A B} (m : ST S A) (f : A → ST S B) (s s' : S) (a : A) :
  m s = (s', Value a) → (m ≫= f) s = f a s'.
Proof. intros Hm. unfold mbind, ST_bind. by rewrite Hm. Qed.

Lemma st_bind_exception {S A B} (m : ST S A) (f : A → ST S B) (s s' : S) (e : exc) :
  m s = (s', Exception e) → (m ≫= f) s = (s', Exception e).
Proof. intros Hm. unfold mbind, ST_bind. by rewrite Hm. Qed.

(** A computation that keeps a property of the state, however it ends. *)
Definition st_keeps {S A} (P : S → Prop) (m : ST S A) : Prop := ∀ s, P s → P (m s).1.

Lemma st_keeps_ret {S A} (P : S → Prop) (a : A) : st_keeps P (mret a).
Proof. by intros s. Qed.

Lemma st_keeps_throw {S A} (P : S → Prop) (e : exc) : st_keeps P (st_throw (A := A) e).
Proof. by intros s. Qed.

Lemma st_keeps_lift {S A} (P : S → Prop) (t : Try A) : st_keeps P (st_lift t).
Proof. by intros s. Qed.

Lemma st_keeps_bind {S A B} (P : S → Prop) (m : ST S A) (f : A → ST S B) :
  st_keeps P m → (∀ a, st_keeps P (f a)) → st_keeps P (m ≫= f).
Proof.
  intros Hm Hf s Hs. specialize (Hm s Hs). unfold mbind, ST_bind.
  destruct (m s) as [s' [a|e]]; [by apply Hf|done].
Qed.

Create HintDb keeps discriminated.
#[export] Hint Resolve st_keeps_ret st_keeps_throw st_keeps_lift : keeps.

(** Walks through a computation, leaving what its calls keep. *)
Ltac st_keeps_steps :=
  repeat match goal with
         | |- st_keeps _ (_ ≫= _) => apply st_keeps_bind
         | |- ∀ _, _ => intro
         | |- st_keeps _ (let _ := _ in _) => cbv zeta
         | |- st_keeps _ (let '_ := ?x in _) => destruct x
         | |- st_keeps _ (if ?b then _ else _) => destruct b
         | |- st_keeps _ (match ?x with _ => _ end) => destruct x
         | |- st_keeps _ _ => solve [auto with keeps]
         end.

(** ** Byte buffers

    A [folly::IOBufQueue] is the list of the bytes of its chain. *)
Abbreviation bytes := (list byte).

#[export] Instance byte_eq_decision : EqDecision byte := Byte.byte_eq_dec.

Definition chainLength (b : bytes) : Z := Z.of_nat (length b).

(** [IOBufQueue::trimStart] and [trimEnd] throw when asked for more bytes than
    there are; [split] does too. *)
Definition trimStart (n : Z) (b : bytes) : Try bytes :=
  if n <=? chainLength b then Value (drop (Z.to_nat n) b) else Exception underflow_error.
Definition trimEnd (n : Z) (b : bytes) : Try bytes :=
  if n <=? chainLength b
  then Value (take (Z.to_nat (chainLength b - n)) b) else Exception underflow_error.
Definition split (n : Z) (b : bytes) : Try (bytes * bytes) :=
  if n <=? chainLength b
  then Value (take (Z.to_nat n) b, drop (Z.to_nat n) b) else Exception underflow_error.

Definition zeros (n : Z) : bytes := replicate (Z.to_nat n) x00.

Lemma chainLength_nonneg (b : bytes) : 0 <= chainLength b.
Proof. unfold chainLength. lia. Qed.

Lemma chainLength_app (a b : bytes) : chainLength (a ++ b) = chainLength a + chainLength b.
Proof. unfold chainLength. rewrite length_app. lia. Qed.

Lemma chainLength_zeros (n : Z) : 0 <= n → chainLength (zeros n) = n.
Proof. unfold chainLength, zeros. rewrite length_replicate. lia. Qed.

Lemma chainLength_nil : chainLength [] = 0.
Proof. done. Qed.

Lemma chainLength_take (n : Z) (b : bytes) :
  0 <= n → chainLength (take (Z.to_nat n) b) = Z.min n (chainLength b).
Proof. unfold chainLength. rewrite length_take. lia. Qed.

Lemma chainLength_drop (n : Z) (b : bytes) :
  0 <= n → chainLength (drop (Z.to_nat n) b) = Z.max 0 (chainLength b - n).
Proof. unfold chainLength. rewrite length_drop. lia. Qed.

#[export] Hint Rewrite chainLength_app chainLength_nil : helpers_len.
#[export] Hint Rewrite chainLength_zeros chainLength_take chainLength_drop using lia : helpers_len.
#[export] Hint Resolve chainLength_nonneg : helpers.

(** ** Files

    The contents of a file are a byte list.  [byte_at] reads one byte and is
    zero past the end; [pread] is POSIX pread (short at the end of the file),
    [pwrite] POSIX pwrite (a hole reads as zeros, an empty write does nothing). *)
Definition byte_at (f : bytes) (p : Z) : byte :=
  default x00 (if p <? 0 then None else f !! Z.to_nat p).

Definition pread (f : bytes) (off size : Z) : bytes :=
  take (Z.to_nat size) (drop (Z.to_nat off) f).

Definition pwrite (f : bytes) (off : Z) (data : bytes) : bytes :=
  match data with
  | [] => f
  | _ =>
      take (Z.to_nat off) (f ++ zeros (off - chainLength f)) ++ data
        ++ drop (Z.to_nat (off + chainLength data)) f
  end.

(** A sequence of positioned writes, oldest first. *)
Definition write_op : Type := Z * bytes.
Definition apply_writes (f : bytes) (ws : list write_op) : bytes :=
  foldl (λ g w, pwrite g w.1 w.2) f ws.

Lemma length_pwrite (f : bytes) (off : Z) (data : bytes) :
  0 <= off → data ≠ [] →
  length (pwrite f off data) = Nat.max (length f) (Z.to_nat off + length data).
Proof.
  intros Hoff Hne. destruct data as [|x data]; [done|]. unfold pwrite.
  rewrite !length_app, length_take, length_drop, length_app.
  unfold zeros, chainLength. rewrite length_replicate. lia.
Qed.

Lemma lookup_pwrite (f : bytes) (off : Z) (data : bytes) (i : nat) :
  0 <= off → (i < length (pwrite f off data))%nat →
  pwrite f off data !! i =
    Some (if decide (Z.to_nat off ≤ i < Z.to_nat off + length data)%nat
          then default x00 (data !! (i - Z.to_nat off)%nat)
          else default x00 (f !! i)).
Proof.
  intros Hoff Hi. destruct data as [|x data].
  { simpl in *. rewrite decide_False by lia.
    by destruct (lookup_lt_is_Some_2 f i) as [b ->]; [lia|]. }
  rewrite length_pwrite in Hi by done.
  unfold pwrite, zeros, chainLength.
  assert (length (take (Z.to_nat off) (f ++ replicate (Z.to_nat (off - Z.of_nat (length f))) x00))
          = Z.to_nat off) as Hlen.
  { rewrite length_take, length_app, length_replicate. lia. }
  destruct (decide (i < Z.to_nat off)%nat) as [Hlt|Hge].
  - rewrite decide_False by lia.
    rewrite lookup_app_l by lia. rewrite lookup_take_lt by lia.
    destruct (decide (i < length f)%nat).
    + rewrite lookup_app_l by lia.
      by destruct (lookup_lt_is_Some_2 f i) as [b ->].
    + rewrite lookup_app_r by lia. rewrite lookup_replicate_2 by lia.
      by rewrite lookup_ge_None_2 by lia.
  - rewrite lookup_app_r by lia. rewrite Hlen.
    destruct (decide (i < Z.to_nat off + length (x :: data))%nat).
    + rewrite decide_True by lia. rewrite lookup_app_l by lia.
      destruct (lookup_lt_is_Some_2 (x :: data) (i - Z.to_nat off)) as [b ->]; [lia|done].
    + rewrite decide_False by lia. rewrite lookup_app_r by lia.
      rewrite lookup_drop.
      destruct (lookup_lt_is_Some_2 f i) as [b Hb]; [lia|]. rewrite Hb.
      etransitivity; [|exact Hb]. f_equal. simpl in *. lia.
Qed.

(** Writing the same twice is writing it once. *)
Lemma pwrite_idemp (f : bytes) (off : Z) (data : bytes) :
  0 <= off → pwrite (pwrite f off data) off data = pwrite f off data.
Proof.
  intros Hoff. destruct (decide (data = [])) as [->|Hne]; [done|].
  assert (length (pwrite (pwrite f off data) off data) = length (pwrite f off data)) as Hlen
    by (rewrite !length_pwrite by done; lia).
  apply list_eq. intros i. destruct (decide (i < length (pwrite f off data))%nat) as [Hi|Hi].
  - rewrite (lookup_pwrite (pwrite f off data)) by (done || lia).
    rewrite (lookup_pwrite f) by done. f_equal. by destruct (decide _).
  - by rewrite !lookup_ge_None_2 by lia.
Qed.

Lemma byte_at_nil (p : Z) : byte_at [] p = x00.
Proof. unfold byte_at. by destruct (p <? 0). Qed.

(** A write at an offset is seen byte by byte. *)
Lemma byte_at_pwrite (f : bytes) (off : Z) (data : bytes) (p : Z) :
  0 <= off → 0 <= p →
  byte_at (pwrite f off data) p =
    if decide (off <= p < off + chainLength data)
    then byte_at data (p - off) else byte_at f p.
Proof.
  intros Hoff Hp. unfold byte_at, chainLength.
  rewrite (proj2 (Z.ltb_ge p 0)) by lia.
  destruct (decide (Z.to_nat p < length (pwrite f off data))%nat) as [Hlt|Hge].
  - rewrite lookup_pwrite by done. simpl.
    case_decide; case_decide; try lia; [|done].
    rewrite (proj2 (Z.ltb_ge (p - off) 0)) by lia. do 2 f_equal. lia.
  - rewrite lookup_ge_None_2 by lia. simpl.
    destruct (decide (data = [])) as [->|Hne].
    + simpl in *. rewrite decide_False by lia. by rewrite lookup_ge_None_2 by lia.
    + rewrite length_pwrite in Hge by done.
      rewrite decide_False by lia. by rewrite lookup_ge_None_2 by lia.
Qed.

(** Two adjacent writes are one write of the joined data: the coalescing step
    of the write buffer. *)
Lemma pwrite_app (f : bytes) (off : Z) (a b : bytes) :
  0 <= off →
  pwrite (pwrite f off a) (off + chainLength a) b = pwrite f off (a ++ b).
Proof.
  intros Hoff. destruct (decide (a = [])) as [->|Ha].
  { simpl. by rewrite Z.add_0_r. }
  destruct (decide (b = [])) as [->|Hb]; [by rewrite app_nil_r|].
  pose proof (chainLength_nonneg a).
  assert (a ++ b ≠ []) by (by destruct a).
  apply list_eq_same_length with
    (n := Nat.max (length f) (Z.to_nat off + length (a ++ b))); [by apply length_pwrite| |].
  - rewrite !length_pwrite by (done || lia). rewrite length_app. unfold chainLength. lia.
  - intros i x y Hi Hx Hy.
    rewrite lookup_pwrite in Hx by (done || apply lookup_lt_Some in Hx; lia).
    rewrite lookup_pwrite in Hy by (done || apply lookup_lt_Some in Hy; lia).
    injection Hx as <-. injection Hy as <-.
    unfold chainLength in *. rewrite length_app.
    case_decide; case_decide; try lia.
    + rewrite lookup_app_r by lia. do 2 f_equal. lia.
    + destruct (decide (i < length (pwrite f off a))%nat).
      * rewrite lookup_pwrite by lia. simpl. rewrite decide_True by lia.
        by rewrite lookup_app_l by lia.
      * rewrite length_pwrite in * by done. lia.
    + destruct (decide (i < length (pwrite f off a))%nat).
      * rewrite lookup_pwrite by lia. simpl. by rewrite decide_False by lia.
      * rewrite (lookup_ge_None_2 (pwrite f off a)) by lia.
        rewrite length_pwrite in * by done. by rewrite lookup_ge_None_2 by lia.
Qed.
