(* ===== verification/StdStrings.v ===== *)
(** * Strings of the C++ library

    The conversions between numbers and decimal text that the helpers use
    ([std::to_string], [std::setw] with a fill character, [std::stoull],
    [std::stol], [std::stoi]), [folly::split] on one character, trimming and lower case. *)

From stdpp Require Import base numbers list strings.
From Stdlib Require Import ZArith Lia Ascii.
From S2P Require Import Prelude.
Local Open Scope Z_scope.

(** ** Decimal rendering and parsing (iostreams, [std::to_string], [std::stoull], [std::stol]) *)

Definition digit_char (d : Z) : ascii := ascii_of_N (48 + Z.to_N d).

(** Most significant digit first; twenty digits are enough for 64 bits. *)
Fixpoint dec_digits (fuel : nat) (n : Z) : string :=
  match fuel with
  | O => EmptyString
  | S k =>
      if n <? 10 then String (digit_char n) EmptyString
      else (dec_digits k (n / 10) ++ String (digit_char (n mod 10)) EmptyString)%string
  end.

Definition to_string (n : Z) : string :=
  if n <? 0 then String "-" (dec_digits 20 (- n)) else dec_digits 20 n.

Fixpoint fill (n : nat) (c : ascii) : string :=
  match n with O => EmptyString | S k => String c (fill k c) end.

(** [std::setfill(c) << std::setw(w) << s]. *)
Definition set_width (w : nat) (c : ascii) (s : string) : string :=
  (fill (w - String.length s) c ++ s)%string.

Definition is_digit (c : ascii) : bool :=
  (48 <=? Z.of_N (N_of_ascii c)) && (Z.of_N (N_of_ascii c) <=? 57).
Definition is_space (c : ascii) : bool :=
  let n := Z.of_N (N_of_ascii c) in ((9 <=? n) && (n <=? 13)) || (n =? 32).
Definition digit_value (c : ascii) : Z := Z.of_N (N_of_ascii c) - 48.

(** The value of the leading digits of [s] after the digits read so far. *)
Fixpoint parse_digits (acc : Z) (s : string) : Z :=
  match s with
  | EmptyString => acc
  | String c s' =>
      if is_digit c then parse_digits (acc * 10 + digit_value c) s' else acc
  end.

Fixpoint skip_spaces (s : string) : string :=
  match s with
  | String c s' => if is_space c then skip_spaces s' else s
  | EmptyString => s
  end.

(** The sign, and the text after it. *)
Definition parse_sign (s : string) : bool * string :=
  match s with
  | String "-" s' => (true, s')
  | String "+" s' => (false, s')
  | _ => (false, s)
  end.

Definition stoull (s : string) : Try Z :=
  let '(neg, s) := parse_sign (skip_spaces s) in
  match s with
  | String c _ =>
      if is_digit c then
        let v := parse_digits 0 s in
        if UINT64_MAX <? v then Exception out_of_range
        else Value (if (neg : bool) then u64 (- v) else v)
      else Exception invalid_argument
  | EmptyString => Exception invalid_argument
  end.

Definition stol (s : string) : Try Z :=
  let '(neg, s) := parse_sign (skip_spaces s) in
  match s with
  | String c _ =>
      if is_digit c then
        let v := if (neg : bool) then - parse_digits 0 s else parse_digits 0 s in
        if (v <? - OFF_MAX - 1) || (OFF_MAX <? v) then Exception out_of_range else Value v
      else Exception invalid_argument
  | EmptyString => Exception invalid_argument
  end.

Definition stoi (s : string) : Try Z :=
  v ← stol s;
  if (v <? -2147483648) || (2147483647 <? v) then Exception out_of_range else Value v.

(** ** [folly::split] with [ignoreEmpty] *)

(** [word] is the token read so far. *)
Fixpoint split_tokens (delim : ascii) (word : string) (s : string) : list string :=
  match s with
  | EmptyString => if String.eqb word EmptyString then [] else [word]
  | String c s' =>
      if Ascii.eqb c delim
      then (if String.eqb word EmptyString then [] else [word]) ++ split_tokens delim EmptyString s'
      else split_tokens delim (word ++ String c EmptyString)%string s'
  end.
Definition split_string (delim : ascii) (s : string) : list string := split_tokens delim EmptyString s.

(** [folly::split] that keeps empty tokens. *)
Fixpoint split_keep (delim : ascii) (s : string) : list string :=
  match s with
  | EmptyString => [EmptyString]
  | String c s' =>
      if Ascii.eqb c delim then EmptyString :: split_keep delim s'
      else match split_keep delim s' with
           | w :: ws => String c w :: ws
           | [] => [String c EmptyString]
           end
  end.

(** ** [boost::algorithm::trim] and [to_lower] *)

Fixpoint trim_right (s : string) : string :=
  match s with
  | EmptyString => EmptyString
  | String c s' =>
      match trim_right s' with
      | EmptyString => if is_space c then EmptyString else String c EmptyString
      | t => String c t
      end
  end.
Definition trim (s : string) : string := trim_right (skip_spaces s).

Definition lower_char (c : ascii) : ascii :=
  let n := N_of_ascii c in if (65 <=? n)%N && (n <=? 90)%N then ascii_of_N (n + 32) else c.
Fixpoint to_lower (s : string) : string :=
  match s with EmptyString => EmptyString | String c s' => String (lower_char c) (to_lower s') end.

(** ** Decimal strings *)

#[local] Arguments String.append : simpl nomatch.
Arguments digit_char : simpl never.
Arguments is_digit : simpl never.
Arguments is_space : simpl never.
Arguments digit_value : simpl never.

Fixpoint all_digits (s : string) : bool :=
  match s with EmptyString => true | String c s' => is_digit c && all_digits s' end.

Lemma digit_char_spec (d : Z) :
  0 <= d < 10 → is_digit (digit_char d) = true ∧ digit_value (digit_char d) = d.
Proof.
  intros Hd. unfold is_digit, digit_value, digit_char.
  rewrite N_ascii_embedding by lia.
  rewrite N2Z.inj_add, Z2N.id by lia. split; [|lia].
  rewrite (proj2 (Z.leb_le _ _)), (proj2 (Z.leb_le _ _)) by lia. done.
Qed.

Lemma all_digits_app (s t : string) :
  all_digits (s ++ t)%string = all_digits s && all_digits t.
Proof. induction s as [|c s IH]; simpl; [done|]. by rewrite IH, andb_assoc. Qed.

Lemma parse_digits_app (acc : Z) (s t : string) :
  all_digits s = true →
  parse_digits acc (s ++ t)%string = parse_digits (parse_digits acc s) t.
Proof.
  revert acc. induction s as [|c s IH]; intros acc Hs; simpl in *; [done|].
  apply andb_true_iff in Hs as [Hc Hs]. rewrite Hc. by apply IH.
Qed.

Lemma all_digits_fill (n : nat) : all_digits (fill n "0") = true.
Proof. induction n; simpl; auto. Qed.

Lemma parse_digits_fill (n : nat) : parse_digits 0 (fill n "0") = 0.
Proof. induction n; simpl; auto. Qed.

Lemma all_digits_dec_digits (fuel : nat) (n : Z) :
  0 <= n → all_digits (dec_digits fuel n) = true.
Proof.
  revert n. induction fuel as [|k IH]; intros n Hn; simpl; [done|].
  destruct (Z.ltb_spec n 10); simpl.
  - by rewrite (proj1 (digit_char_spec n ltac:(lia))).
  - rewrite all_digits_app, IH by (apply Z.div_pos; lia). simpl.
    by rewrite (proj1 (digit_char_spec (n mod 10) (Z.mod_pos_bound n 10 eq_refl))).
Qed.

Lemma parse_dec_digits (fuel : nat) (n : Z) :
  0 <= n < 10 ^ Z.of_nat fuel → parse_digits 0 (dec_digits fuel n) = n.
Proof.
  revert n. induction fuel as [|k IH]; intros n Hn.
  { change (10 ^ Z.of_nat 0) with 1 in Hn. simpl. lia. }
  rewrite Nat2Z.inj_succ, Z.pow_succ_r in Hn by lia. simpl.
  destruct (Z.ltb_spec n 10); simpl.
  - destruct (digit_char_spec n) as [-> ->]; lia.
  - rewrite parse_digits_app by (apply all_digits_dec_digits, Z.div_pos; lia).
    rewrite IH by (split; [apply Z.div_pos|apply Z.div_lt_upper_bound]; lia).
    simpl. destruct (digit_char_spec (n mod 10)) as [-> ->]; [by apply Z.mod_pos_bound|].
    rewrite (Z.div_mod n 10) at 3; lia.
Qed.

Lemma dec_digits_nonempty (fuel : nat) (n : Z) :
  dec_digits (S fuel) n ≠ EmptyString.
Proof.
  simpl. destruct (n <? 10); [done|].
  by destruct (dec_digits fuel (n / 10)).
Qed.

Lemma set_width_digits (w : nat) (n : Z) :
  0 <= n < 10 ^ 20 →
  let s := set_width w "0" (to_string n) in
  all_digits s = true ∧ parse_digits 0 s = n ∧ s ≠ EmptyString.
Proof.
  intros Hn s. unfold s, set_width, to_string.
  rewrite (proj2 (Z.ltb_ge n 0)) by lia.
  rewrite all_digits_app, all_digits_fill, all_digits_dec_digits by lia.
  rewrite parse_digits_app, parse_digits_fill by apply all_digits_fill.
  rewrite parse_dec_digits by done. split_and!; [done..|].
  pose proof (dec_digits_nonempty 19 n).
  by destruct (w - _)%nat.
Qed.

Lemma digit_not_sign (c : ascii) :
  is_digit c = true → is_space c = false ∧ c ≠ "-"%char ∧ c ≠ "+"%char.
Proof.
  intros Hc. split_and!; [|by intros ->..].
  unfold is_digit, is_space in *. reflect_bools.
  rewrite (proj2 (Z.leb_gt (Z.of_N (N_of_ascii c)) 13)) by lia.
  rewrite (proj2 (Z.eqb_neq (Z.of_N (N_of_ascii c)) 32)) by lia.
  by rewrite andb_false_r.
Qed.

Lemma parse_sign_digits (s : string) :
  all_digits s = true → parse_sign (skip_spaces s) = (false, s).
Proof.
  destruct s as [|c s]; intros Hs; [done|]. simpl in Hs. apply andb_true_iff in Hs as [Hc _].
  destruct (digit_not_sign c Hc) as (Hsp & Hm & Hp). simpl. rewrite Hsp.
  destruct c as [[] [] [] [] [] [] [] []]; done.
Qed.

Lemma stoull_digits (s : string) :
  all_digits s = true → s ≠ EmptyString → parse_digits 0 s <= UINT64_MAX →
  stoull s = Value (parse_digits 0 s).
Proof.
  intros Hs Hne Hmax. unfold stoull. rewrite parse_sign_digits by done. destruct s as [|c s]; [done|].
  pose proof Hs as Hs'. simpl in Hs'. apply andb_true_iff in Hs' as [Hc _].
  rewrite Hc. by rewrite (proj2 (Z.ltb_ge _ _) Hmax).
Qed.

Lemma parse_digits_nonneg (acc : Z) (s : string) : 0 <= acc → 0 <= parse_digits acc s.
Proof.
  revert acc. induction s as [|c s IH]; intros acc Hacc; simpl; [done|].
  destruct (is_digit c) eqn:Hc; [|done]. apply IH. unfold is_digit, digit_value in *. lia.
Qed.

Lemma stol_digits (s : string) :
  all_digits s = true → s ≠ EmptyString → parse_digits 0 s <= OFF_MAX →
  stol s = Value (parse_digits 0 s).
Proof.
  intros Hs Hne Hmax. unfold stol. rewrite parse_sign_digits by done. destruct s as [|c s]; [done|].
  pose proof Hs as Hs'. simpl in Hs'. apply andb_true_iff in Hs' as [Hc _]. rewrite Hc.
  pose proof (parse_digits_nonneg 0 (String c s) ltac:(lia)).
  rewrite (proj2 (Z.ltb_ge (parse_digits 0 (String c s)) (- OFF_MAX - 1))) by (unfold OFF_MAX in *; lia).
  by rewrite (proj2 (Z.ltb_ge OFF_MAX (parse_digits 0 (String c s))) Hmax).
Qed.

Lemma to_string_digits (n : Z) :
  0 <= n < 10 ^ 20 →
  all_digits (to_string n) = true ∧ parse_digits 0 (to_string n) = n ∧ to_string n ≠ EmptyString.
Proof.
  intros Hn. unfold to_string. rewrite (proj2 (Z.ltb_ge n 0)) by lia. split_and!.
  - apply all_digits_dec_digits. lia.
  - by apply parse_dec_digits.
  - apply dec_digits_nonempty.
Qed.

(** [std::stol] reads back what [std::to_string] prints. *)
Lemma stol_to_string (n : Z) : 0 <= n <= OFF_MAX → stol (to_string n) = Value n.
Proof.
  intros Hn. destruct (to_string_digits n) as (Hd & Hp & Hne); [unfold OFF_MAX in *; lia|].
  rewrite stol_digits; rewrite ?Hp; done || lia.
Qed.

Lemma string_app_assoc' (s t u : string) : ((s ++ t) ++ u)%string = (s ++ (t ++ u))%string.
Proof. induction s as [|c s IH]; simpl; [done|by rewrite IH]. Qed.

Lemma string_app_nil (s : string) : (s ++ EmptyString)%string = s.
Proof. induction s as [|c s IH]; simpl; [done|by rewrite IH]. Qed.

Lemma substring_all (s : string) (n : nat) : (String.length s ≤ n)%nat → String.substring 0 n s = s.
Proof.
  revert n. induction s as [|c s IH]; intros n Hn; [by destruct n|].
  destruct n as [|n]; simpl in *; [lia|]. by rewrite IH by lia.
Qed.

(** A word without the delimiter is added to the token that is being read. *)
Lemma split_tokens_word (delim : ascii) (word w : string) :
  (∀ c, is_digit c = true → c ≠ delim) → all_digits w = true → w ≠ EmptyString →
  split_tokens delim word w = [(word ++ w)%string].
Proof.
  intros Hdel. revert word. induction w as [|c w IH]; intros word Hw Hne; [done|].
  simpl in *. apply andb_true_iff in Hw as [Hc Hw].
  destruct (Ascii.eqb_spec c delim) as [->|_]; [by destruct (Hdel delim Hc)|].
  destruct w as [|c' w].
  - simpl. by destruct word.
  - rewrite IH by done. by rewrite string_app_assoc'.
Qed.

Lemma split_tokens_snoc (delim : ascii) (word s w : string) :
  (∀ c, is_digit c = true → c ≠ delim) → all_digits w = true → w ≠ EmptyString →
  split_tokens delim word (s ++ String delim w)%string = split_tokens delim word s ++ [w].
Proof.
  intros Hdel Hw Hne. revert word. induction s as [|c s IH]; intros word; simpl.
  - by rewrite Ascii.eqb_refl, (split_tokens_word delim EmptyString w).
  - destruct (Ascii.eqb c delim); [by rewrite IH, app_assoc|apply IH].
Qed.

(** ** Splitting with empty tokens *)

Fixpoint free_of (c : ascii) (s : string) : bool :=
  match s with EmptyString => true | String a s' => negb (Ascii.eqb a c) && free_of c s' end.

Lemma free_of_app (d : ascii) (s t : string) : free_of d (s ++ t)%string = free_of d s && free_of d t.
Proof. induction s as [|a s IH]; simpl; [done|]. by rewrite IH, andb_assoc. Qed.

Lemma split_keep_free (delim : ascii) (s : string) : free_of delim s = true → split_keep delim s = [s].
Proof.
  induction s as [|c s IH]; simpl; [done|]. intros [Hc Hs]%andb_true_iff.
  apply negb_true_iff in Hc. by rewrite Hc, IH.
Qed.

Lemma split_keep_app (delim : ascii) (w s : string) :
  free_of delim w = true → split_keep delim (w ++ String delim s)%string = w :: split_keep delim s.
Proof.
  induction w as [|c w IH]; simpl; [by rewrite Ascii.eqb_refl|]. intros [Hc Hw]%andb_true_iff.
  apply negb_true_iff in Hc. by rewrite Hc, IH.
Qed.

Lemma split_keep_nonempty (delim : ascii) (s : string) : split_keep delim s ≠ [].
Proof.
  destruct s as [|c s]; simpl; [done|]. destruct (Ascii.eqb c delim); [done|]. by destruct (split_keep delim s).
Qed.

Lemma split_keep_delim (delim : ascii) (s t : string) :
  split_keep delim (s ++ String delim t)%string = split_keep delim s ++ split_keep delim t.
Proof.
  induction s as [|c s IH]; simpl; [by rewrite Ascii.eqb_refl|]. rewrite IH.
  destruct (Ascii.eqb c delim); [done|]. pose proof (split_keep_nonempty delim s).
  by destruct (split_keep delim s).
Qed.

(** No token has the delimiter, nor a character that the text does not have. *)
Lemma split_keep_tokens (delim : ascii) (s : string) :
  Forall (λ w, free_of delim w = true) (split_keep delim s).
Proof.
  induction s as [|c s IH]; simpl; [by constructor|].
  destruct (Ascii.eqb c delim) eqn:Hc; [by constructor|].
  destruct (split_keep delim s) as [|w ws]; [by repeat constructor; simpl; rewrite Hc|].
  apply Forall_cons in IH as [Hw IH]. constructor; [|done]. simpl. by rewrite Hc.
Qed.

Lemma split_keep_free_of (delim d : ascii) (s : string) :
  free_of d s = true → Forall (λ w, free_of d w = true) (split_keep delim s).
Proof.
  induction s as [|c s IH]; simpl; [by constructor|]. intros [Hc Hs]%andb_true_iff. specialize (IH Hs).
  destruct (Ascii.eqb c delim); [by constructor|].
  destruct (split_keep delim s) as [|w ws]; [by repeat constructor; simpl; rewrite Hc|].
  apply Forall_cons in IH as [Hw IH]. constructor; [|done]. simpl. by rewrite Hc.
Qed.
