(* ===== verification/Futures.v ===== *)
(** * Tasks on an executor

    [folly::via(executor, f)] queues [f]; [folly::collect] waits for all the
    queued tasks and gives their values in the order of the futures, or the
    exception of the task that failed first.  The executor decides the order
    in which the tasks run: an [order] is a permutation of the tasks' indices,
    and the theorems that use this file hold for every order. *)

From stdpp Require Import base numbers list gmap.
From Stdlib Require Import ZArith Lia.
From S2P Require Import Prelude.

Section tasks.
Context {S A : Type}.

(** What has been collected so far: the state, the values by task index, the
    first exception. *)
Definition run_task (tasks : list (ST S A)) (acc : S * gmap nat A * option exc) (i : nat)
  : S * gmap nat A * option exc :=
  let '(s, vals, err) := acc in
  match tasks !! i with
  | None => acc
  | Some t =>
      match t s with
      | (s', Value a) => (s', <[i := a]> vals, err)
      | (s', Exception e) =>
          (s', vals, match err with Some e0 => Some e0 | None => Some e end)
      end
  end.

Definition run_all (tasks : list (ST S A)) (order : list nat) (s : S)
  : S * gmap nat A * option exc :=
  foldl (run_task tasks) (s, ∅, None) order.

(** [folly::collect] over the futures of [tasks]. *)
Definition collect (tasks : list (ST S A)) (order : list nat) : ST S (list A) := λ s,
  let '(s', vals, err) := run_all tasks order s in
  (s', match err with
       | Some e => Exception e
       | None => Value (omap (λ i, vals !! i) (seq 0 (length tasks)))
       end).

Implicit Types (tasks : list (ST S A)) (s : S).

(** Rule for an invariant of the tasks that have run. *)
Lemma run_all_ind tasks (P : list nat → S → gmap nat A → option exc → Prop) (order : list nat) s :
  NoDup order →
  P [] s ∅ None →
  (∀ done i t s1 vals err,
      i ∈ order → i ∉ done → tasks !! i = Some t → P done s1 vals err →
      match t s1 with
      | (s2, Value a) => P (done ++ [i]) s2 (<[i := a]> vals) err
      | (s2, Exception e) =>
          P (done ++ [i]) s2 vals (match err with Some e0 => Some e0 | None => Some e end)
      end) →
  (∀ done i s1 vals err, i ∈ order → tasks !! i = None → P done s1 vals err →
      P (done ++ [i]) s1 vals err) →
  let '(s', vals, err) := run_all tasks order s in P order s' vals err.
Proof.
  intros Hnd Hinit Hstep Hskip. unfold run_all.
  assert (∀ todo done s1 vals err,
             (∀ i, i ∈ todo → i ∈ order) → NoDup (done ++ todo) → P done s1 vals err →
             let '(s', vals', err') := foldl (run_task tasks) (s1, vals, err) todo in
             P (done ++ todo) s' vals' err') as Hgen.
  { intros todo. induction todo as [|i todo IH]; intros done s1 vals err Hin Hnd' HP; simpl.
    { by rewrite app_nil_r. }
    assert (i ∉ done) as Hi.
    { apply NoDup_app in Hnd' as (_ & Hd & _). intros Hx. apply (Hd i Hx). left. }
    replace (done ++ i :: todo) with ((done ++ [i]) ++ todo) in * by by rewrite <-app_assoc.
    destruct (tasks !! i) as [t|] eqn:Ht.
    - specialize (Hstep done i t s1 vals err (Hin i ltac:(left)) Hi Ht HP).
      destruct (t s1) as [s2 [a|e]]; apply IH; try done; intros j Hj; apply Hin; by right.
    - apply IH; [|done|apply Hskip; auto; apply Hin; left].
      intros j Hj; apply Hin; by right. }
  apply (Hgen order [] s ∅ None); auto.
Qed.

(** When every task returns a value from every state it can meet, [collect]
    returns, and gives the tasks' values in order. *)
Lemma collect_values tasks (order : list nat) (I : list nat → S → Prop) (R : nat → A → Prop) s :
  order ≡ₚ seq 0 (length tasks) →
  I [] s →
  (∀ done i t s1, i ∉ done → tasks !! i = Some t → I done s1 →
      ∃ s2 a, t s1 = (s2, Value a) ∧ I (done ++ [i]) s2 ∧ R i a) →
  ∃ s' l, collect tasks order s = (s', Value l) ∧ I order s' ∧
    length l = length tasks ∧ ∀ i a, l !! i = Some a → R i a.
Proof.
  intros Hperm Hinit Hstep.
  assert (NoDup order) as Hnd by (rewrite Hperm; apply NoDup_seq).
  assert (∀ i, i ∈ order → (i < length tasks)%nat) as Hbound.
  { intros i Hi. rewrite Hperm, elem_of_seq in Hi. lia. }
  pose proof (run_all_ind tasks
    (λ done s1 vals err, I done s1 ∧ err = None ∧
       ∀ i, (i ∈ done → ∃ a, vals !! i = Some a ∧ R i a)) order s Hnd) as Hrun.
  ospecialize (Hrun _ _ _).
  { split_and!; [done..|]. intros i Hi. by apply elem_of_nil in Hi. }
  { intros done i t s1 vals err Hi Hid Ht (HI & -> & Hvals).
    destruct (Hstep done i t s1 Hid Ht HI) as (s2 & a & -> & HI2 & Ha).
    split_and!; [done..|]. intros j. rewrite elem_of_app, list_elem_of_singleton.
    destruct (decide (i = j)) as [->|Hne].
    - intros _. exists a. by rewrite lookup_insert_eq.
    - rewrite lookup_insert_ne by done. intros [Hj| ->]; [auto|done]. }
  { intros done i s1 vals err Hi Hnone. apply lookup_ge_None in Hnone.
    specialize (Hbound i Hi). lia. }
  unfold collect. destruct (run_all tasks order s) as [[s' vals] err].
  destruct Hrun as (HI & -> & Hvals).
  assert (∀ j n, (∀ i, (j ≤ i < j + n)%nat → is_Some (vals !! i)) →
             length (omap (λ i, vals !! i) (seq j n)) = n ∧
             ∀ k, (k < n)%nat → omap (λ i, vals !! i) (seq j n) !! k = vals !! (j + k)%nat) as Homap.
  { intros j n. revert j. induction n as [|n IH]; intros j Hj; csimpl; [split; [done|lia]|].
    destruct (Hj j) as [a Ha]; [lia|]. rewrite Ha. csimpl.
    destruct (IH (Datatypes.S j)) as [HL HK]; [intros; apply Hj; lia|].
    split; [by rewrite HL|]. intros [|k] Hk; simpl; [by rewrite Nat.add_0_r|].
    rewrite HK by lia. f_equal. lia. }
  destruct (Homap 0%nat (length tasks)) as [HL HK].
  { intros i Hi. destruct (Hvals i) as (a & Ha & _); [|eauto].
    rewrite Hperm, elem_of_seq. lia. }
  eexists s', _. split_and!; [done..|]. intros i a Hi.
  assert (i < length tasks)%nat as Hlt.
  { apply lookup_lt_Some in Hi. by rewrite HL in Hi. }
  rewrite HK in Hi by done. simpl in Hi.
  destruct (Hvals i) as (a' & Ha' & HR); [rewrite Hperm, elem_of_seq; lia|].
  congruence.
Qed.

(** An invariant that every task keeps, whether it returns or throws, holds
    after the collection. *)
Lemma collect_inv tasks (order : list nat) (I : S → Prop) s :
  I s → (∀ i t s1, tasks !! i = Some t → I s1 → I (t s1).1) → I (collect tasks order s).1.
Proof.
  intros Hs Hstep. unfold collect, run_all.
  assert (∀ acc, I acc.1.1 → I (foldl (run_task tasks) acc order).1.1) as Hgen.
  { induction order as [|i order IH]; intros [[s1 vals] err] HI; simpl in *; [done|].
    apply IH. destruct (tasks !! i) as [t|] eqn:Ht; [|done].
    specialize (Hstep i t s1 Ht HI). by destruct (t s1) as [s2 [a|e]]. }
  specialize (Hgen (s, ∅, None) Hs).
  by destruct (foldl _ _ _) as [[s' vals] err].
Qed.

End tasks.
