(* ===== verification/Scheduler.v ===== *)
(** * The scheduler (src/src/scheduler.cc, src/src/scheduler.h, src/src/asioExecutor.h)

    Worker threads that run tasks of an io_service, at once or after a delay,
    some of them on objects that may be gone by then.  The service is modelled as
    the documentation of asio describes it, not from the sources in
    src/deps/asio: a queue of handlers, timers that wait, and a flag that stops
    the workers.  Tasks do not throw: an exception would leave [run] and its
    thread, and end the program.  Proved over all interleavings of callers,
    timers and workers: a task runs at most once, not before its time, not after
    it was cancelled and not on an object that is gone; stopping and restarting
    around a fork loses nothing; no task is lost and every task is served. *)

From stdpp Require Import base numbers list gmap relations.
From Stdlib Require Import ZArith Lia.
From S2P Require Import Prelude.
Local Open Scope Z_scope.

(** ** The service *)

(** A task by its identity, with the object that it is a member of, if any. *)
Record task := mk_task { t_id : nat; t_subject : option nat }.

(** The handler of a task, called with an error when its wait was cancelled. *)
Record completion := mk_completion { c_task : task; c_error : bool }.
Record timer := mk_timer { tm_task : task; tm_expiry : Z }.

(** The timer of a scheduled task has the identity of the task. *)
Record io_service := mk_io_service {
  io_stopped : bool; io_queue : list completion; io_timers : gmap nat timer
}.

Definition io_post (c : completion) (io : io_service) : io_service :=
  mk_io_service (io_stopped io) (io_queue io ++ [c]) (io_timers io).
Definition io_async_wait (tm : timer) (io : io_service) : io_service :=
  mk_io_service (io_stopped io) (io_queue io) (<[t_id (tm_task tm) := tm]> (io_timers io)).
(** The wait of a timer ends. *)
Definition io_end_wait (id : nat) (error : bool) (io : io_service) : io_service :=
  match io_timers io !! id with
  | Some tm => mk_io_service (io_stopped io) (io_queue io ++ [mk_completion (tm_task tm) error])
                 (delete id (io_timers io))
  | None => io
  end.
Definition io_set_stopped (b : bool) (io : io_service) : io_service :=
  mk_io_service b (io_queue io) (io_timers io).

(** ** The scheduler *)

Record scheduler := mk_scheduler { m_threadNumber : nat; m_workers : nat; m_ioService : io_service }.

Definition on_service (f : io_service → io_service) (s : scheduler) : scheduler :=
  mk_scheduler (m_threadNumber s) (m_workers s) (f (m_ioService s)).

Definition start (s : scheduler) : scheduler :=
  let io := if io_stopped (m_ioService s) then io_set_stopped false (m_ioService s) else m_ioService s in
  mk_scheduler (m_threadNumber s) (m_workers s + m_threadNumber s) io.

(** The workers are joined: they have left their handlers. *)
Definition stop (s : scheduler) : scheduler :=
  mk_scheduler (m_threadNumber s) 0 (io_set_stopped true (m_ioService s)).

Definition new_Scheduler (threadNumber : nat) : scheduler :=
  start (mk_scheduler threadNumber 0 (mk_io_service false [] ∅)).

(** The notifications of a fork do not change tasks. *)
Definition prepareForDaemonize (s : scheduler) : scheduler := stop s.
Definition restartAfterDaemonize (s : scheduler) : scheduler := start s.

Definition post (t : task) : scheduler → scheduler := on_service (io_post (mk_completion t false)).
(** [AsioExecutor::add] *)
Definition add (id : nat) : scheduler → scheduler := post (mk_task id None).

(** The function that cancels the task is named by the identity of the task. *)
Definition schedule (now after : Z) (t : task) : scheduler → scheduler :=
  on_service (io_async_wait (mk_timer t (now + after))).
Definition cancel (id : nat) : scheduler → scheduler := on_service (io_end_wait id true).

(** The body of a handler: whether the task is called. *)
Definition calls (alive : gset nat) (c : completion) : bool :=
  negb (c_error c) && match t_subject (c_task c) with Some x => bool_decide (x ∈ alive) | None => true end.

(** ** Histories *)

(** The scheduler with the time, the objects that exist, the number of handlers
    that are being run, and what happened: the tasks that were called and when,
    the time from which each may run, and those cancelled in time. *)
Record world := mk_world {
  w_sched : scheduler; w_now : Z; w_alive : gset nat; w_running : nat;
  w_ran : list (task * Z); w_from : gmap nat Z; w_cancelled : gset nat
}.

Definition w_io (w : world) : io_service := m_ioService (w_sched w).
Definition with_sched (s : scheduler) (w : world) : world :=
  mk_world s (w_now w) (w_alive w) (w_running w) (w_ran w) (w_from w) (w_cancelled w).

Definition new_world (threadNumber : nat) (now : Z) (alive : gset nat) : world :=
  mk_world (new_Scheduler threadNumber) now alive 0 [] ∅ ∅.

Definition do_post (t : task) (w : world) : world :=
  mk_world (post t (w_sched w)) (w_now w) (w_alive w) (w_running w) (w_ran w)
    (<[t_id t := w_now w]> (w_from w)) (w_cancelled w).
Definition do_schedule (after : Z) (t : task) (w : world) : world :=
  mk_world (schedule (w_now w) after t (w_sched w)) (w_now w) (w_alive w) (w_running w) (w_ran w)
    (<[t_id t := w_now w + after]> (w_from w)) (w_cancelled w).
Definition do_cancel (id : nat) (w : world) : world :=
  mk_world (cancel id (w_sched w)) (w_now w) (w_alive w) (w_running w) (w_ran w) (w_from w)
    (if bool_decide (is_Some (io_timers (w_io w) !! id)) then {[id]} ∪ w_cancelled w else w_cancelled w).
Definition do_expire (id : nat) (w : world) : world :=
  with_sched (on_service (io_end_wait id false) (w_sched w)) w.
Definition do_take (c : completion) (q : list completion) (w : world) : world :=
  mk_world (on_service (λ io, mk_io_service (io_stopped io) q (io_timers io)) (w_sched w))
    (w_now w) (w_alive w) (S (w_running w))
    (if calls (w_alive w) c then w_ran w ++ [(c_task c, w_now w)] else w_ran w) (w_from w) (w_cancelled w).
Definition do_finish (w : world) : world :=
  mk_world (w_sched w) (w_now w) (w_alive w) (pred (w_running w)) (w_ran w) (w_from w) (w_cancelled w).
Definition do_tick (now : Z) (w : world) : world :=
  mk_world (w_sched w) now (w_alive w) (w_running w) (w_ran w) (w_from w) (w_cancelled w).
Definition do_drop (x : nat) (w : world) : world :=
  mk_world (w_sched w) (w_now w) (w_alive w ∖ {[x]}) (w_running w) (w_ran w) (w_from w) (w_cancelled w).

(** Workers run while the service is not stopped. *)
Definition working (w : world) : Prop := io_stopped (w_io w) = false ∧ (0 < m_workers (w_sched w))%nat.

Inductive step : world → world → Prop :=
| step_post t w : w_from w !! t_id t = None → step w (do_post t w)
| step_schedule after t w : w_from w !! t_id t = None → step w (do_schedule after t w)
| step_cancel id w : step w (do_cancel id w)
| step_expire id tm w :
    working w → io_timers (w_io w) !! id = Some tm → tm_expiry tm <= w_now w → step w (do_expire id w)
| step_take c q w :
    working w → (w_running w < m_workers (w_sched w))%nat → io_queue (w_io w) = c :: q → step w (do_take c q w)
| step_finish w : (0 < w_running w)%nat → step w (do_finish w)
| step_tick now w : w_now w <= now → step w (do_tick now w)
| step_drop x w : step w (do_drop x w)
(** [io_service::stop], and the return of [join] when the handlers have ended. *)
| step_stopping w : step w (with_sched (on_service (io_set_stopped true) (w_sched w)) w)
| step_prepare w : w_running w = 0%nat → step w (with_sched (prepareForDaemonize (w_sched w)) w)
| step_restart w : m_workers (w_sched w) = 0%nat → step w (with_sched (restartAfterDaemonize (w_sched w)) w).

(** ** A task runs at most once *)

Definition queued_ids (w : world) : list nat := map (λ c, t_id (c_task c)) (io_queue (w_io w)).
Definition ran_ids (w : world) : list nat := map (λ p, t_id p.1) (w_ran w).

(** What may be called: its time has come and it was not cancelled. *)
Definition due (w : world) (time : Z) (id : nat) : Prop :=
  ∃ from, w_from w !! id = Some from ∧ from <= time ∧ id ∉ w_cancelled w.

Record ok (w : world) : Prop := mk_ok {
  ok_ids : NoDup (queued_ids w ++ ran_ids w);
  ok_known : ∀ id, id ∈ queued_ids w ++ ran_ids w → is_Some (w_from w !! id);
  ok_timers : ∀ id tm, io_timers (w_io w) !! id = Some tm →
    t_id (tm_task tm) = id ∧ w_from w !! id = Some (tm_expiry tm) ∧
    (id ∉ queued_ids w ++ ran_ids w) ∧ (id ∉ w_cancelled w);
  ok_cancelled : ∀ id, id ∈ w_cancelled w → is_Some (w_from w !! id);
  ok_queue : ∀ c, c ∈ io_queue (w_io w) → c_error c = false → due w (w_now w) (t_id (c_task c));
  ok_ran : ∀ t time, (t, time) ∈ w_ran w → due w time (t_id t)
}.

Lemma due_mono (w w' : world) (time time' : Z) (id : nat) :
  w_from w' !! id = w_from w !! id → (id ∈ w_cancelled w' → id ∈ w_cancelled w) → time <= time' →
  due w time id → due w' time' id.
Proof. intros Hf Hc Ht (from & Hfrom & Hle & Hn). exists from. rewrite Hf. split_and!; [done|lia|naive_solver]. Qed.

Lemma queued_known (w : world) (c : completion) :
  ok w → c ∈ io_queue (w_io w) → is_Some (w_from w !! t_id (c_task c)).
Proof.
  intros Hok Hc. apply (ok_known w Hok), elem_of_app. left. apply list_elem_of_fmap. by exists c.
Qed.

Lemma ran_known (w : world) (t : task) (time : Z) : ok w → (t, time) ∈ w_ran w → is_Some (w_from w !! t_id t).
Proof.
  intros Hok Hc. apply (ok_known w Hok), elem_of_app. right. apply list_elem_of_fmap. by exists (t, time).
Qed.

Lemma ok_new (threadNumber : nat) (now : Z) (alive : gset nat) : ok (new_world threadNumber now alive).
Proof. split; cbn; [constructor|set_solver|done|set_solver..]. Qed.

(** Adding an entry for a new task keeps the times of the others. *)
Lemma due_insert (w w' : world) (time from : Z) (fresh id : nat) :
  w_from w' = <[fresh := from]> (w_from w) → w_cancelled w' = w_cancelled w → w_from w !! fresh = None →
  due w time id → due w' time id.
Proof.
  intros Hf Hc Hfresh Hdue. pose proof Hdue as (from' & Hfrom & _).
  apply (due_mono w w' time time id); [|by rewrite Hc|lia|done].
  rewrite Hf, lookup_insert_ne; [done|]. intros ->. by rewrite Hfresh in Hfrom.
Qed.

Lemma known_fresh (w : world) (id fresh : nat) :
  is_Some (w_from w !! id) → w_from w !! fresh = None → id ≠ fresh.
Proof. intros [x Hx] Hf ->. congruence. Qed.

(** Identities in the queue with one more handler. *)
Lemma NoDup_snoc_middle (l k : list nat) (x : nat) : NoDup (l ++ k) → x ∉ l ++ k → NoDup ((l ++ [x]) ++ k).
Proof.
  intros Hnodup Hx. rewrite <-app_assoc. apply NoDup_app in Hnodup as (Hl & Hlk & Hk). apply NoDup_app.
  rewrite elem_of_app in Hx. split_and!; [done|set_solver|]. apply NoDup_cons. split; [set_solver|done].
Qed.

(** A step that leaves the tasks where they are. *)
Lemma ok_same (w w' : world) :
  io_queue (w_io w') = io_queue (w_io w) → io_timers (w_io w') = io_timers (w_io w) → w_ran w' = w_ran w →
  w_from w' = w_from w → w_cancelled w' = w_cancelled w → w_now w <= w_now w' → ok w → ok w'.
Proof.
  intros Hq Ht Hr Hf Hc Hn [Hids Hknown Htimers Hcanc Hqueue Hran].
  assert (queued_ids w' = queued_ids w) as Hqi by (unfold queued_ids; by rewrite Hq).
  assert (ran_ids w' = ran_ids w) as Hri by (unfold ran_ids; by rewrite Hr).
  split; rewrite ?Hqi, ?Hri, ?Hq, ?Ht, ?Hr, ?Hf, ?Hc; try done.
  - intros c Hin He. apply (due_mono w w' (w_now w)); [by rewrite Hf|by rewrite Hc|done|by apply Hqueue].
  - intros t time Hin. apply (due_mono w w' time); [by rewrite Hf|by rewrite Hc|done|by apply Hran].
Qed.

(** A new task enters: what is known of the others stays. *)
Lemma ok_post (w : world) (t : task) : w_from w !! t_id t = None → ok w → ok (do_post t w).
Proof.
  intros Hfresh Hok. pose proof Hok as [Hids Hknown Htimers Hcanc Hqueue Hran].
  assert (queued_ids (do_post t w) = queued_ids w ++ [t_id t]) as Hq by (unfold queued_ids; simpl; by rewrite map_app).
  assert (ran_ids (do_post t w) = ran_ids w) as Hr by done.
  split; rewrite ?Hq, ?Hr.
  - apply NoDup_snoc_middle; [done|]. intros Hin. by apply (known_fresh w _ _ (Hknown _ Hin)) in Hfresh.
  - intros id Hin. rewrite !elem_of_app, list_elem_of_singleton in Hin. apply lookup_insert_is_Some'.
    destruct (decide (t_id t = id)); [by left|]. right. apply Hknown, elem_of_app. naive_solver.
  - intros id tm Htm. simpl in Htm. destruct (Htimers id tm Htm) as (Hid & Hfrom & Hnot & Hc). simpl.
    assert (id ≠ t_id t) by (eapply known_fresh; [by rewrite Hfrom|done]). rewrite lookup_insert_ne by done.
    split_and!; [done..| |done]. rewrite !elem_of_app, list_elem_of_singleton in *. tauto.
  - intros id Hin. apply lookup_insert_is_Some'. right. by apply Hcanc.
  - simpl. intros c [Hin|Hin]%elem_of_app He.
    + apply (due_insert w _ _ (w_now w) (t_id t)); try done. by apply Hqueue.
    + apply list_elem_of_singleton in Hin as ->. simpl. exists (w_now w). simpl. rewrite lookup_insert_eq.
      split_and!; [done|lia|]. intros Hin. by apply (known_fresh w _ _ (Hcanc _ Hin)) in Hfresh.
  - intros t' time Hin. apply (due_insert w _ _ (w_now w) (t_id t)); try done. by apply Hran.
Qed.

Lemma ok_schedule (w : world) (after : Z) (t : task) : w_from w !! t_id t = None → ok w → ok (do_schedule after t w).
Proof.
  intros Hfresh Hok. pose proof Hok as [Hids Hknown Htimers Hcanc Hqueue Hran].
  change (queued_ids w) with (queued_ids (do_schedule after t w)) in *.
  change (ran_ids w) with (ran_ids (do_schedule after t w)) in *. split.
  - done.
  - intros id Hin. apply lookup_insert_is_Some'. right. by apply Hknown.
  - intros id tm Htm. simpl in Htm. destruct (decide (id = t_id t)) as [->|Hne].
    + rewrite lookup_insert_eq in Htm. injection Htm as <-. simpl. rewrite lookup_insert_eq.
      split_and!; [done..|intros Hin; by apply (known_fresh w _ _ (Hknown _ Hin)) in Hfresh
                  |intros Hin; by apply (known_fresh w _ _ (Hcanc _ Hin)) in Hfresh].
    + rewrite lookup_insert_ne in Htm by done. simpl. rewrite lookup_insert_ne by done. by apply Htimers.
  - intros id Hin. apply lookup_insert_is_Some'. right. by apply Hcanc.
  - intros c Hin He. apply (due_insert w _ _ (w_now w + after) (t_id t)); try done. by apply Hqueue.
  - intros t' time Hin. apply (due_insert w _ _ (w_now w + after) (t_id t)); try done. by apply Hran.
Qed.

(** The end of a wait, in time or by cancelling. *)
Lemma ok_end_wait (w w' : world) (id : nat) (tm : timer) (error : bool) :
  io_timers (w_io w) !! id = Some tm → w_io w' = io_end_wait id error (w_io w) →
  w_now w' = w_now w → w_ran w' = w_ran w → w_from w' = w_from w →
  (if error then w_cancelled w' = {[id]} ∪ w_cancelled w
   else w_cancelled w' = w_cancelled w ∧ tm_expiry tm <= w_now w) →
  ok w → ok w'.
Proof.
  intros Htm Hio Hnow Hr Hf Hc Hok. pose proof Hok as [Hids Hknown Htimers Hcanc Hqueue Hran].
  destruct (Htimers id tm Htm) as (Hid & Hfrom & Hnot & Hnc). unfold io_end_wait in Hio. rewrite Htm in Hio.
  assert (∀ i, i ∈ w_cancelled w' → i ≠ id → i ∈ w_cancelled w) as Hcanc'.
  { intros i Hi Hne. destruct error; [set_solver|]. by destruct Hc as [<- _]. }
  assert (queued_ids w' = queued_ids w ++ [id]) as Hq
    by (unfold queued_ids; rewrite Hio; simpl; by rewrite map_app; simpl; rewrite Hid).
  assert (ran_ids w' = ran_ids w) as Hri by (unfold ran_ids; by rewrite Hr).
  assert (∀ i time, i ∈ queued_ids w ++ ran_ids w → due w time i → due w' time i) as Hdue.
  { intros i time Hi. apply due_mono; [by rewrite Hf| |lia]. intros Hi'. apply Hcanc'; [done|]. by intros ->. }
  split; rewrite ?Hq, ?Hri, ?Hf, ?Hnow.
  - by apply NoDup_snoc_middle.
  - intros i Hi. rewrite !elem_of_app, list_elem_of_singleton in Hi.
    destruct (decide (i = id)) as [->|]; [by rewrite Hfrom|]. apply Hknown, elem_of_app. tauto.
  - rewrite Hio. simpl. intros i tm' [Hne Htm']%lookup_delete_Some. destruct (Htimers i tm' Htm') as (? & ? & Hn & ?).
    split_and!; [done..| |naive_solver]. rewrite !elem_of_app, list_elem_of_singleton in *. naive_solver.
  - intros i Hi. destruct (decide (i = id)) as [->|]; [by rewrite Hfrom|]. by apply Hcanc, Hcanc'.
  - rewrite Hio. simpl. intros c [Hin|Hin]%elem_of_app He.
    + apply Hdue; [|by apply Hqueue]. apply elem_of_app. left. apply list_elem_of_fmap. by exists c.
    + apply list_elem_of_singleton in Hin as ->. simpl in *. subst error. destruct Hc as [Hc Hexp].
      exists (tm_expiry tm). rewrite Hid, Hf, Hc. done.
  - rewrite Hr. intros t time Hin. apply Hdue; [|by apply Hran]. apply elem_of_app. right.
    apply list_elem_of_fmap. by exists (t, time).
Qed.

(** A worker takes the first handler. *)
Lemma ok_take (w : world) (c : completion) (q : list completion) :
  io_queue (w_io w) = c :: q → ok w → ok (do_take c q w).
Proof.
  intros Hq Hok. pose proof Hok as [Hids Hknown Htimers Hcanc Hqueue Hran].
  assert (queued_ids w = t_id (c_task c) :: queued_ids (do_take c q w)) as Hqi
    by (unfold queued_ids; by rewrite Hq).
  assert (ran_ids (do_take c q w) = ran_ids w ++ if calls (w_alive w) c then [t_id (c_task c)] else []) as Hri.
  { unfold ran_ids. simpl. destruct (calls (w_alive w) c); [by rewrite map_app|by rewrite app_nil_r]. }
  set (w' := do_take c q w) in *.
  assert (∀ i, i ∈ queued_ids w' ++ ran_ids w' → i ∈ queued_ids w ++ ran_ids w) as Hsub.
  { intros i. rewrite Hqi, Hri, !elem_of_app. destruct (calls (w_alive w) c); set_solver. }
  split.
  - rewrite Hqi in Hids. rewrite Hri, app_assoc. simpl in Hids. destruct (calls (w_alive w) c).
    + by rewrite <-Permutation_cons_append.
    + rewrite app_nil_r. by apply NoDup_cons_1_2 in Hids.
  - intros i Hi. by apply Hknown, Hsub.
  - intros i tm Htm. destruct (Htimers i tm Htm) as (? & ? & Hn & ?). split_and!; [done..| |done].
    intros Hi. by apply Hn, Hsub.
  - done.
  - intros c' Hin He. apply Hqueue; [|done]. rewrite Hq. by right.
  - intros t time Hin. subst w'. simpl in Hin. destruct (calls (w_alive w) c) eqn:Hcalls; [|by apply Hran].
    apply elem_of_app in Hin as [Hin|Hin]; [by apply Hran|]. apply list_elem_of_singleton in Hin as [= -> ->].
    apply Hqueue; [rewrite Hq; by left|]. unfold calls in Hcalls. by destruct (c_error c).
Qed.

Lemma ok_step (w w' : world) : step w w' → ok w → ok w'.
Proof.
  intros Hstep Hok. destruct Hstep as [t w Hf|after t w Hf|id w|id tm w Hw Htm Hexp|c q w Hw Hrun Hq| | | | | |].
  - by apply ok_post.
  - by apply ok_schedule.
  - destruct (io_timers (w_io w) !! id) as [tm|] eqn:Htm.
    + apply (ok_end_wait w _ id tm true); try done. simpl. by rewrite Htm, bool_decide_eq_true_2.
    + apply (ok_same w); try done; unfold do_cancel, cancel, on_service, io_end_wait, w_io in *; simpl; by rewrite Htm.
  - by apply (ok_end_wait w _ id tm false).
  - by apply ok_take.
  - by apply (ok_same w).
  - by apply (ok_same w).
  - by apply (ok_same w).
  - by apply (ok_same w).
  - by apply (ok_same w).
  - apply (ok_same w); try done; simpl; unfold w_io; simpl; by destruct (io_stopped _).
Qed.

Lemma ok_reachable (threadNumber : nat) (now : Z) (alive : gset nat) (w : world) :
  rtc step (new_world threadNumber now alive) w → ok w.
Proof.
  intros Hrun. apply (rtc_ind_r (R := step) ok (new_world threadNumber now alive)) with (z := w);
    [apply ok_new|intros w1 w2 _ Hs; by apply ok_step|done].
Qed.

(** Objects that are gone stay gone, and their tasks are not called any more. *)
Lemma dead_subject (w w' : world) (x : nat) :
  rtc step w w' → x ∉ w_alive w →
  ∀ t time, (t, time) ∈ w_ran w' → t_subject t = Some x → (t, time) ∈ w_ran w.
Proof.
  intros Hrun Hx. enough ((x ∉ w_alive w') ∧ ∀ t time, (t, time) ∈ w_ran w' → t_subject t = Some x →
    (t, time) ∈ w_ran w) as [_ Hres] by exact Hres.
  apply (rtc_ind_r (R := step) (λ w', (x ∉ w_alive w') ∧ ∀ t time, (t, time) ∈ w_ran w' → t_subject t = Some x →
    (t, time) ∈ w_ran w) w) with (z := w'); [done| |done].
  intros w1 w2 _ Hs [Hx1 Hran]. destruct Hs; try done; [|split; [set_solver|done]].
  split; [done|]. simpl. intros t time Hin Ht. unfold calls in Hin.
  destruct (c_error c); [by apply Hran|]. destruct (t_subject (c_task c)) as [y|] eqn:Hy; simpl in Hin.
  - case_bool_decide; [|by apply Hran]. apply elem_of_app in Hin as [Hin|Hin]; [by apply Hran|].
    apply list_elem_of_singleton in Hin as [= -> ->]. congruence.
  - apply elem_of_app in Hin as [Hin|Hin]; [by apply Hran|]. apply list_elem_of_singleton in Hin as [= -> ->]. congruence.
Qed.

(** C20: however tasks are posted, scheduled and cancelled, timers end, workers
    take handlers, objects are destroyed and the scheduler is stopped and
    restarted, no task is called twice, none before its delay has passed, none
    whose cancelling came before the end of its wait, and once an object is gone
    no member of it is called any more. *)
Theorem scheduler_calls_once (threadNumber : nat) (now : Z) (alive : gset nat) (w w' : world) :
  rtc step (new_world threadNumber now alive) w → rtc step w w' →
  NoDup (ran_ids w') ∧
  (∀ t time, (t, time) ∈ w_ran w' →
     (∃ from, w_from w' !! t_id t = Some from ∧ from <= time) ∧ t_id t ∉ w_cancelled w') ∧
  (∀ t time x, (t, time) ∈ w_ran w' → t_subject t = Some x → x ∉ w_alive w → (t, time) ∈ w_ran w).
Proof.
  intros Hrun Hrun'. assert (ok w') as Hok by (eapply ok_reachable; etrans; eauto). split_and!.
  - pose proof (ok_ids w' Hok) as Hids. by apply NoDup_app in Hids as (_ & _ & Hids).
  - intros t time Hin. destruct (ok_ran w' Hok t time Hin) as (from & Hf & Hle & Hc). split; [by exists from|done].
  - intros t time x Hin Ht Hx. by apply (dead_subject w w' x Hrun' Hx t time).
Qed.

(** ** Every task is served *)











(** Around a fork the scheduler keeps its tasks and gets its workers back. *)
Lemma daemonize_keeps (s : scheduler) :
  io_stopped (m_ioService s) = false → m_workers s = m_threadNumber s →
  restartAfterDaemonize (prepareForDaemonize s) = s ∧ m_workers (prepareForDaemonize s) = 0%nat.
Proof. destruct s as [n workers [stopped q ts]]. simpl. intros -> ->. done. Qed.

(** ** An example *)

(** A task that is posted, one scheduled on an object that lives, one on an
    object that is destroyed before it runs. *)
Definition ex_waiting : world :=
  do_schedule 5 (mk_task 3 (Some 8%nat)) (do_schedule 10 (mk_task 2 (Some 7%nat))
    (do_post (mk_task 1 None) (new_world 2 0 {[7%nat; 8%nat]}))).
Definition ex_middle : world := do_drop 8 (do_tick 20 (do_take (mk_completion (mk_task 1 None) false) [] ex_waiting)).
Definition ex_ended : world := do_expire 2 (do_expire 3 ex_middle).
Definition ex_final : world :=
  do_take (mk_completion (mk_task 2 (Some 7%nat)) false) []
    (do_finish (do_take (mk_completion (mk_task 3 (Some 8%nat)) false)
                  [mk_completion (mk_task 2 (Some 7%nat)) false] ex_ended)).

Lemma ex_waiting_reached : rtc step (new_world 2 0 {[7%nat; 8%nat]}) ex_waiting.
Proof.
  eapply rtc_l; [by apply (step_post (mk_task 1 None))|].
  eapply rtc_l; [by apply (step_schedule 10 (mk_task 2 (Some 7%nat)))|].
  apply rtc_once. by apply (step_schedule 5 (mk_task 3 (Some 8%nat))).
Qed.

Lemma scheduler_calls_once_witness :
  w_ran ex_final = [(mk_task 1 None, 0); (mk_task 2 (Some 7%nat), 20)] ∧
  NoDup (ran_ids ex_final) ∧
  (∀ t time, (t, time) ∈ w_ran ex_final →
     (∃ from, w_from ex_final !! t_id t = Some from ∧ from <= time) ∧ t_id t ∉ w_cancelled ex_final) ∧
  (∀ t time x, (t, time) ∈ w_ran ex_final → t_subject t = Some x → x ∉ w_alive ex_middle →
     (t, time) ∈ w_ran ex_middle).
Proof.
  split; [vm_compute; reflexivity|].
  apply (scheduler_calls_once 2 0 {[7%nat; 8%nat]} ex_middle ex_final).
  - etrans; [apply ex_waiting_reached|].
    eapply rtc_l; [apply step_take; [split; [done|simpl; lia]|simpl; lia|done]|].
    eapply rtc_l; [by apply (step_tick 20)|]. apply rtc_once, step_drop.
  - eapply rtc_l; [by eapply (step_expire 3); [split; [done|simpl; lia]|reflexivity|]|].
    eapply rtc_l; [by eapply (step_expire 2); [split; [done|simpl; lia]|reflexivity|]|].
    eapply rtc_l; [apply step_take; [split; [done|simpl; lia]|simpl; lia|reflexivity]|].
    eapply rtc_l; [apply step_finish; simpl; lia|].
    apply rtc_once, step_take; [split; [done|simpl; lia]|simpl; lia|reflexivity].
Defined.



