(* ===== verification/Monitoring.v ===== *)
(** * Monitoring (src/include/monitoring, src/src/monitoring, configureMonitoring of src/src/init.cc)

    The configuration of the reports to Graphite, the one collector of a process,
    which is made by the first call that asks for it, the counters and the timers.  Parsing
    of URLs is a parameter; a reporter is what it was made with and whether it
    runs.  Proved: after a successful configuration the one reporter that runs is
    that of the configuration; a collector that was made without one is never
    replaced, and starting it dereferences a null pointer; a timed operation is
    recorded once. *)

From stdpp Require Import base numbers list gmap strings.
From Stdlib Require Import ZArith Lia.
From S2P Require Import Prelude.
Local Open Scope Z_scope.

(** ** Configuration *)

Definition REPORTING_PERIOD : Z := 30.
Definition GRAPHITE_PORT : Z := 2003.
Definition GRAPHITE_NAMESPACE_SEPARATOR : string := ".".

Inductive ReportingLevel := Basic | Full.
Inductive GraphiteProtocol := UDP | TCP.

Record graphite := mk_graphite { graphiteProtocol : GraphiteProtocol; graphiteHostname : string; graphitePort : Z }.
Definition new_graphite : graphite := mk_graphite TCP "" GRAPHITE_PORT.

(** [conf_graphite] is the part of the derived class, if the object is one. *)
Record MonitoringConfiguration := mk_conf {
  reportingPeriod : Z; reportingLevel : ReportingLevel; namespacePrefix : string;
  conf_graphite : option graphite
}.
Definition new_MonitoringConfiguration : MonitoringConfiguration := mk_conf REPORTING_PERIOD Basic "" None.

(** [folly::Uri]: the scheme, the host and the port or 0; bad text throws. *)
Record folly_uri := mk_folly_uri { fu_scheme : string; fu_host : string; fu_port : Z }.

Definition fromGraphiteURL (parse : string → option folly_uri) (url : string) (g : graphite) : Try graphite :=
  match parse url with
  | None => Exception invalid_argument
  | Some u =>
      protocol ← (if String.eqb (fu_scheme u) "" || String.eqb (fu_scheme u) "tcp" then Value TCP
                  else if String.eqb (fu_scheme u) "udp" then Value UDP
                  else Exception invalid_argument);
      Value (mk_graphite protocol (fu_host u) (if fu_port u =? 0 then graphitePort g else fu_port u))
  end.

(** ** The collector *)

(** The sender with its address, the prefix and the level; the period when the
    reports run. *)
Record reporter := mk_reporter {
  rp_protocol : GraphiteProtocol; rp_host : string; rp_port : Z;
  rp_prefix : string; rp_level : ReportingLevel; rp_running : option Z
}.

Record MetricsCollector := mk_collector {
  is_GraphiteMetricsCollector : bool;
  m_conf : option MonitoringConfiguration;
  m_reporter : option reporter
}.

(** The static members, and the counters of the registry. *)
Record metrics := mk_metrics {
  m_singleton : option MetricsCollector; m_isEnabled : bool; counters : gmap string Z
}.
Definition no_metrics : metrics := mk_metrics None false ∅.

Definition getInstance (graphite_class : bool) (s : metrics) : metrics :=
  match m_singleton s with
  | Some _ => s
  | None => mk_metrics (Some (mk_collector graphite_class None None)) true (counters s)
  end.

(** The virtual method of either class. *)
Definition initialize : ST MetricsCollector unit := λ c,
  if is_GraphiteMetricsCollector c then
    match m_conf c with
    | Some (mk_conf _ level prefix (Some g)) =>
        (mk_collector true (m_conf c)
           (Some (mk_reporter (graphiteProtocol g) (graphiteHostname g) (graphitePort g) prefix level None)), Value tt)
    | _ => (c, Exception runtime_error)
    end
  else (c, Value tt).

Definition setConfiguration (conf : MonitoringConfiguration) : ST MetricsCollector unit := λ c,
  initialize (mk_collector (is_GraphiteMetricsCollector c) (Some conf) (m_reporter c)).

Definition run_reporter (running : option Z) : ST MetricsCollector unit := λ c,
  match m_reporter c with
  | Some (mk_reporter p h n prefix level _) =>
      (mk_collector (is_GraphiteMetricsCollector c) (m_conf c) (Some (mk_reporter p h n prefix level running)), Value tt)
  | None => (c, Exception undefined_behaviour)
  end.
Definition start : ST MetricsCollector unit := λ c,
  match m_conf c with
  | Some conf => run_reporter (Some (reportingPeriod conf)) c
  | None => (c, Exception undefined_behaviour)
  end.
Definition stop : ST MetricsCollector unit := run_reporter None.

(** A method of the collector that [getInstance] returned. *)
Definition on_singleton {A} (m : ST MetricsCollector A) : ST metrics A := λ s,
  match m_singleton s with
  | Some c => let '(c, r) := m c in (mk_metrics (Some c) (m_isEnabled s) (counters s), r)
  | None => (s, Exception undefined_behaviour)
  end.

Definition configureMonitoring (conf : MonitoringConfiguration) (start_now : bool) : ST metrics unit :=
  match conf_graphite conf with
  | Some _ =>
      _ ← (λ s, (getInstance true s, Value tt));
      _ ← on_singleton (setConfiguration conf);
      if start_now then on_singleton start else mret tt
  | None => st_throw runtime_error
  end.

(** ** Counters *)

Definition counter_update (f : Z → Z) (name : string) (s : metrics) : metrics :=
  if m_isEnabled s
  then mk_metrics (m_singleton s) (m_isEnabled s) (<[name := f (default 0 (counters s !! name))]> (counters s))
  else s.
Definition ONE_METRIC_COUNTER_INC : string → metrics → metrics := counter_update (λ n, n + 1).
Definition ONE_METRIC_COUNTER_ADD (name : string) (value : Z) : metrics → metrics := counter_update (λ n, n + value) name.
Definition ONE_METRIC_COUNTER_DEC : string → metrics → metrics := counter_update (λ n, n - 1).
Definition ONE_METRIC_COUNTER_SUB (name : string) (value : Z) : metrics → metrics := counter_update (λ n, n - value) name.
Definition ONE_METRIC_COUNTER_SET (name : string) (value : Z) : metrics → metrics := counter_update (λ _, value) name.

(** ** Timers

    A context belongs to a timer of the registry and measures once: the first
    [stop] records the time since it was made.  What was recorded is a list of
    timers with durations and counts. *)
Record TimerContext := mk_TimerContext { timer_ : string; start_time_ : Z; active_ : bool }.
Record timing := mk_timing { tm_timer : string; tm_duration : Z; tm_count : Z }.

Definition ONE_METRIC_TIMERCTX_CREATE (name : string) (now : Z) (s : metrics) : option TimerContext :=
  if m_isEnabled s then Some (mk_TimerContext name now true) else None.

Definition stop_context (now count : Z) (ctx : TimerContext) (recorded : list timing)
  : TimerContext * list timing :=
  if active_ ctx
  then (mk_TimerContext (timer_ ctx) (start_time_ ctx) false,
        recorded ++ [mk_timing (timer_ ctx) (now - start_time_ ctx) count])
  else (ctx, recorded).

Definition ONE_METRIC_TIMERCTX_STOP (timerctxptr : option TimerContext) (now count : Z) (recorded : list timing)
  : option TimerContext * list timing :=
  match timerctxptr with
  | Some ctx => let '(ctx', recorded') := stop_context now count ctx recorded in (Some ctx', recorded')
  | None => (None, recorded)
  end.

(** Dropping the last reference destroys the context, which stops it. *)
Definition ONE_METRIC_TIMERCTX_DESTROY (timerctxptr : option TimerContext) (now : Z) (recorded : list timing)
  : list timing :=
  match timerctxptr with Some ctx => (stop_context now 1 ctx recorded).2 | None => recorded end.

(** [STOP]s at times with counts, then the end of the context. *)
Fixpoint timed (timerctxptr : option TimerContext) (stops : list (Z * Z)) (last : Z) (recorded : list timing)
  : list timing :=
  match stops with
  | [] => ONE_METRIC_TIMERCTX_DESTROY timerctxptr last recorded
  | (now, count) :: stops' =>
      let '(ctx, recorded') := ONE_METRIC_TIMERCTX_STOP timerctxptr now count recorded in
      timed ctx stops' last recorded'
  end.

(** ** What is configured runs *)

(** A process whose collector, if there is one, is of the derived class. *)
Definition graphite_only (s : metrics) : Prop :=
  ∀ c, m_singleton s = Some c → is_GraphiteMetricsCollector c = true.

(** The reporter of a configuration. *)
Definition reporter_of (conf : MonitoringConfiguration) (g : graphite) (running : bool) : reporter :=
  mk_reporter (graphiteProtocol g) (graphiteHostname g) (graphitePort g) (namespacePrefix conf) (reportingLevel conf)
    (if running then Some (reportingPeriod conf) else None).

(** Each configuration replaces the reporter of the former one. *)
Lemma monitoring_configured (conf : MonitoringConfiguration) (g : graphite) (start_now : bool) (s : metrics) :
  graphite_only s → conf_graphite conf = Some g →
  ∃ c, (configureMonitoring conf start_now s).2 = Value tt ∧
    m_singleton (configureMonitoring conf start_now s).1 = Some c ∧
    m_reporter c = Some (reporter_of conf g start_now) ∧ m_conf c = Some conf ∧
    graphite_only (configureMonitoring conf start_now s).1.
Proof.
  intros Hs Hg. destruct conf as [period level prefix og]. simpl in Hg. subst og.
  unfold configureMonitoring, on_singleton, getInstance, mbind, ST_bind. simpl.
  destruct (m_singleton s) as [[cls oconf orep]|] eqn:Hc; simpl; rewrite ?Hc.
  - pose proof (Hs _ Hc) as Hcls. simpl in Hcls. subst cls.
    destruct start_now; simpl; eexists; split_and!; try done; by intros c' [= <-].
  - destruct start_now; simpl; eexists; split_and!; try done; by intros c' [= <-].
Qed.

(** Asking for the collector first, as the macro does, makes one of the base
    class; a configuration leaves it without a reporter, and starting fails. *)
Lemma monitoring_base_collector (conf : MonitoringConfiguration) (g : graphite) :
  conf_graphite conf = Some g →
  (configureMonitoring conf true (getInstance false no_metrics)).2 = Exception undefined_behaviour ∧
  (configureMonitoring conf false (getInstance false no_metrics)).2 = Value tt.
Proof. intros Hg. unfold configureMonitoring. rewrite Hg. done. Qed.

(** A port that the URL does not name stays as it was. *)
Lemma graphite_url_port (parse : string → option folly_uri) (url : string) (g g' : graphite) :
  fromGraphiteURL parse url g = Value g' → graphitePort g ≠ 0 → graphitePort g' ≠ 0.
Proof.
  unfold fromGraphiteURL. destruct (parse url) as [u|]; [|done].
  destruct (String.eqb (fu_scheme u) "" || String.eqb (fu_scheme u) "tcp");
    [|destruct (String.eqb (fu_scheme u) "udp"); [|done]]; simpl; intros [= <-] Hg; simpl;
    by destruct (Z.eqb_spec (fu_port u) 0).
Qed.

Lemma timed_inactive (name : string) (start_time : Z) (stops : list (Z * Z)) (last : Z) (recorded : list timing) :
  timed (Some (mk_TimerContext name start_time false)) stops last recorded = recorded.
Proof. induction stops as [|[now count] stops IH]; [done|]. exact IH. Qed.

(** A timed operation is recorded exactly once when monitoring is on, with the
    count of its first [STOP], or with one and the time of the end if an error
    skips it; with monitoring off nothing is recorded. *)
Lemma timer_records_once (name : string) (made last : Z) (stops : list (Z * Z)) (s : metrics)
    (recorded : list timing) :
  timed (ONE_METRIC_TIMERCTX_CREATE name made s) stops last recorded =
  recorded ++ (if m_isEnabled s
               then let '(now, count) := default (last, 1) (head stops) in [mk_timing name (now - made) count]
               else []).
Proof.
  unfold ONE_METRIC_TIMERCTX_CREATE. destruct (m_isEnabled s).
  - destruct stops as [|[now count] stops]; [done|]. apply timed_inactive.
  - rewrite app_nil_r. induction stops as [|[now count] stops IH]; [done|]. exact IH.
Qed.
