(* ===== verification/PriorityQueue.v ===== *)
(** * tbb::concurrent_priority_queue

    The queue that the sequencer and the outgoing streams keep their messages
    in: [emplace] adds an element, [try_pop] takes one that no other element
    exceeds in the comparison [lt] the queue is declared with. *)

From stdpp Require Import base numbers list.
From Stdlib Require Import ZArith Lia.
From S2P Require Import Prelude.
Local Open Scope Z_scope.

Section queue.
Context {A : Type} (lt : A → A → bool).

Definition emplace (x : A) (q : list A) : list A := x :: q.

(** The first element that no other exceeds, and the rest. *)
Fixpoint best (x : A) (l : list A) : A * list A :=
  match l with
  | [] => (x, [])
  | y :: l' =>
      let '(keep, drop) := if lt x y then (y, x) else (x, y) in
      let '(b, rest) := best keep l' in (b, drop :: rest)
  end.

Definition try_pop (q : list A) : option (A * list A) :=
  match q with
  | [] => None
  | x :: l => Some (best x l)
  end.

Context (key : A → Z) (Hlt : ∀ x y, lt x y = (key x <? key y)).

Lemma best_spec (l : list A) (x b : A) (rest : list A) :
  best x l = (b, rest) →
  b :: rest ≡ₚ x :: l ∧ Forall (λ y, key y <= key b) rest ∧ key x <= key b.
Proof.
  revert x b rest. induction l as [|y l IH]; intros x b rest Hb; simpl in Hb.
  { injection Hb as <- <-. split_and!; [done|constructor|lia]. }
  rewrite Hlt in Hb. destruct (Z.ltb_spec (key x) (key y)) as [Hxy|Hxy];
    simpl in Hb; destruct (best _ l) as [b' r] eqn:Hbest; injection Hb as <- <-;
    destruct (IH _ _ _ Hbest) as (Hp & Hall & Hk).
  - split_and!; [|constructor; [lia|done]|lia].
    by rewrite (Permutation_swap x b' r), Hp.
  - split_and!; [|constructor; [lia|done]|lia].
    rewrite (Permutation_swap y b' r), Hp. apply Permutation_swap.
Qed.

Lemma try_pop_Some (q rest : list A) (b : A) :
  try_pop q = Some (b, rest) → b :: rest ≡ₚ q ∧ Forall (λ y, key y <= key b) rest.
Proof.
  destruct q as [|x l]; simpl; [done|]. intros [= Hb].
  apply best_spec in Hb as (? & ? & _). done.
Qed.

Lemma try_pop_None (q : list A) : try_pop q = None → q = [].
Proof. by destruct q. Qed.

Lemma try_pop_length (q rest : list A) (b : A) :
  try_pop q = Some (b, rest) → length q = S (length rest).
Proof. intros Hp. apply try_pop_Some in Hp as [Hp _]. by rewrite <-Hp. Qed.

End queue.
