(* ===== verification/Storage.v ===== *)
(** * The helper interface (src/include/helpers/storageHelper.h, src/src/storageHelper.cc)

    Open flags and their masks, helper parameters, the retry wrapper, error
    values, and the two interfaces every storage implements: [FileHandle], with
    its default [multiwrite], and [StorageHelper], with its default methods. *)

From stdpp Require Import base numbers list gmap strings finite.
From Stdlib Require Import ZArith Lia Strings.Byte.
From S2P Require Import Prelude.
Local Open Scope Z_scope.

Definition IO_RETRY_COUNT : Z := 4.

(** ** Retrying *)

Section retry.
Context {St A : Type} (op : ST St A) (condition : A → bool).

(** The loop of [retry] after the first call; the delays between the calls
    have no effect on the result.  [retryCount - retryIt] rounds are left. *)
Fixpoint retry_loop (rounds : nat) (ret : A) : ST St A :=
  match rounds with
  | O => mret ret
  | S rounds' =>
      if negb (condition ret)
      then ret' ← op; retry_loop rounds' ret'
      else mret ret
  end.

Definition retry (retryCount : Z) : ST St A :=
  ret ← op; retry_loop (Z.to_nat retryCount) ret.

(** [attempts n s s' a]: [n] calls of [op] in a row, all but the last one with
    a value that does not satisfy the condition, end in [s'] with [a]. *)
Inductive attempts : nat → St → St → A → Prop :=
| attempts_one s s' a : op s = (s', Value a) → attempts 1 s s' a
| attempts_more n s s1 s' a1 a :
    op s = (s1, Value a1) → condition a1 = false → attempts n s1 s' a →
    attempts (1 + n) s s' a.

End retry.

(** ** Errors *)

Definition makePosixError (posixCode : Z) : error_code :=
  mk_error_code (Z.abs posixCode) system_category.
Definition makePosixException (posixCode : Z) : exc := system_error (makePosixError posixCode).
Definition makeFuturePosixException {A} (posixCode : Z) : Try A :=
  Exception (makePosixException posixCode).

(** ** Flags *)

Inductive Flag :=
| NONBLOCK | APPEND | ASYNC | FSYNC | NOFOLLOW | CREAT | TRUNC | EXCL
| RDONLY | WRONLY | RDWR | IFREG | IFCHR | IFBLK | IFIFO | IFSOCK.

#[export] Instance Flag_eq_dec : EqDecision Flag.
Proof. solve_decision. Defined.

Definition all_flags : list Flag :=
  [NONBLOCK; APPEND; ASYNC; FSYNC; NOFOLLOW; CREAT; TRUNC; EXCL;
   RDONLY; WRONLY; RDWR; IFREG; IFCHR; IFBLK; IFIFO; IFSOCK].

#[export] Program Instance Flag_finite : Finite Flag := {| enum := all_flags |}.
Next Obligation. by apply (bool_decide_unpack _). Qed.
Next Obligation. intros f. apply (bool_decide_unpack _). by destruct f. Qed.

Abbreviation FlagsSet := (gset Flag).

(** The masks of <fcntl.h> and <sys/stat.h> (Linux). *)
Definition O_RDONLY : Z := 0.
Definition O_WRONLY : Z := 1.
Definition O_RDWR : Z := 2.
Definition O_ACCMODE : Z := 3.
Definition O_CREAT : Z := 64.
Definition O_EXCL : Z := 128.
Definition O_TRUNC : Z := 512.
Definition O_APPEND : Z := 1024.
Definition O_NONBLOCK : Z := 2048.
Definition O_ASYNC : Z := 8192.
Definition O_NOFOLLOW : Z := 131072.
Definition O_FSYNC : Z := 1052672.
Definition S_IFIFO : Z := 4096.
Definition S_IFCHR : Z := 8192.
Definition S_IFDIR : Z := 16384.
Definition S_IFBLK : Z := 24576.
Definition S_IFREG : Z := 32768.
Definition S_IFSOCK : Z := 49152.

Definition g_flagTranslation (f : Flag) : Z :=
  match f with
  | NONBLOCK => O_NONBLOCK | APPEND => O_APPEND | ASYNC => O_ASYNC | FSYNC => O_FSYNC
  | NOFOLLOW => O_NOFOLLOW | CREAT => O_CREAT | TRUNC => O_TRUNC | EXCL => O_EXCL
  | RDONLY => O_RDONLY | WRONLY => O_WRONLY | RDWR => O_RDWR | IFREG => S_IFREG
  | IFCHR => S_IFCHR | IFBLK => S_IFBLK | IFIFO => S_IFIFO | IFSOCK => S_IFSOCK
  end.

(** The initializer list of [g_maskTranslation]; of two entries with one key
    the map keeps the first. *)
Definition mask_entries : list (Z * Flag) :=
  [(O_NONBLOCK, NONBLOCK); (O_APPEND, APPEND); (O_ASYNC, ASYNC); (O_FSYNC, FSYNC);
   (O_NOFOLLOW, NOFOLLOW); (O_CREAT, CREAT); (O_TRUNC, TRUNC); (O_EXCL, EXCL);
   (O_RDONLY, RDONLY); (O_WRONLY, WRONLY); (O_RDWR, RDWR); (S_IFREG, IFREG);
   (S_IFCHR, IFCHR); (S_IFBLK, IFBLK); (S_IFIFO, IFIFO); (S_IFSOCK, IFSOCK)].

Definition g_maskTranslation : gmap Z Flag :=
  foldl (λ m e, match m !! e.1 with Some _ => m | None => <[e.1 := e.2]> m end) ∅ mask_entries.

Definition flagsToMask (flags : FlagsSet) : Z :=
  foldl (λ value flag, Z.lor value (g_flagTranslation flag)) 0 (elements flags).

Definition maskToFlags (mask : Z) : Try FlagsSet :=
  match g_maskTranslation !! Z.land mask O_ACCMODE with
  | None => Exception out_of_range
  | Some access =>
      Value (foldl (λ flags entry,
               if negb (bool_decide (entry.2 = RDONLY)) && negb (bool_decide (entry.2 = WRONLY))
                  && negb (bool_decide (entry.2 = RDWR)) && (Z.land entry.1 mask =? entry.1)
               then {[entry.2]} ∪ flags else flags)
             {[access]} (map_to_list g_maskTranslation))
  end.

(** ** Parameters *)

Abbreviation Params := (gmap string string).

Section params.
Context {Ret : Type} (lexical_cast : string → option Ret).

Definition getParam (params : Params) (key : string) : Try Ret :=
  match params !! key with
  | None => Exception (missing_parameter key)
  | Some v => match lexical_cast v with
              | Some r => Value r
              | None => Exception (bad_parameter key v)
              end
  end.

Definition getParam_def (params : Params) (key : string) (def : Ret) : Try Ret :=
  match params !! key with
  | None => Value def
  | Some v => match lexical_cast v with
              | Some r => Value r
              | None => Exception (bad_parameter key v)
              end
  end.
End params.

(** The specialisations for strings. *)
Definition getParam_string (params : Params) (key : string) : Try string :=
  match params !! key with Some v => Value v | None => Exception (missing_parameter key) end.
Definition getParam_string_def (params : Params) (key def : string) : string :=
  default def (params !! key).

(** ** FileHandle *)

(** The virtual methods of a handle on files of state [H]. *)
Class FileHandle (H : Type) := {
  fh_read : Z → Z → ST H bytes;
  fh_write : Z → bytes → ST H Z;
  fh_release : ST H unit;
  fh_flush : ST H unit;
  fh_fsync : bool → ST H unit
}.

(** A handle that inherits the defaults of the base class. *)
Definition default_FileHandle {H} (rd : Z → Z → ST H bytes) (wr : Z → bytes → ST H Z)
  : FileHandle H := {|
  fh_read := rd;
  fh_write := wr;
  fh_release := mret tt;
  fh_flush := mret tt;
  fh_fsync := λ isDataSync, mret tt
|}.

(** The loop of [multiwrite]: [soFar] is [shouldHaveWrittenSoFar], the future
    carries [wroteSoFar]. *)
Fixpoint multiwrite_loop {H} `{!FileHandle H} (buffs : list write_op) (soFar wroteSoFar : Z)
  : ST H Z :=
  match buffs with
  | [] => mret wroteSoFar
  | buf :: buffs' =>
      let shouldHaveWrittenAfter := u64 (soFar + chainLength buf.2) in
      wroteSoFar' ← (if soFar <? wroteSoFar then mret wroteSoFar
                     else wrote ← fh_write buf.1 buf.2; mret (u64 (wroteSoFar + wrote)));
      multiwrite_loop buffs' shouldHaveWrittenAfter wroteSoFar'
  end.

Definition multiwrite {H} `{!FileHandle H} (buffs : list write_op) : ST H Z :=
  multiwrite_loop buffs 0 0.

(** What the buffering layer relies on, for a handle in order: reads of at most
    [max_read] bytes return the bytes of the file, writes of at most
    [max_write] bytes land in it as a whole, and an fsync or a flush leaves
    it. *)
Class FileHandleLaws (H : Type) `{FileHandle H} := {
  contents : H → bytes;
  handle_ok : H → Prop;
  max_read : Z;
  max_write : Z;
  fh_read_value : ∀ h off n, handle_ok h → 0 <= off → 0 <= n <= max_read → off + n <= OFF_MAX →
    ∃ h', fh_read off n h = (h', Value (pread (contents h) off n)) ∧
          contents h' = contents h ∧ handle_ok h';
  fh_write_value : ∀ h off b, handle_ok h → 0 <= off → off + chainLength b <= OFF_MAX →
    chainLength b <= max_write →
    ∃ h', fh_write off b h = (h', Value (chainLength b)) ∧
          contents h' = pwrite (contents h) off b ∧ handle_ok h';
  fh_fsync_keeps : ∀ h isDataSync, handle_ok h →
    contents (fh_fsync isDataSync h).1 = contents h ∧ handle_ok (fh_fsync isDataSync h).1;
  fh_flush_keeps : ∀ h, handle_ok h →
    contents (fh_flush h).1 = contents h ∧ handle_ok (fh_flush h).1
}.

(** A write that such a handle takes when [m] is the most it writes at once. *)
Definition fits (m : Z) (w : write_op) : Prop :=
  0 <= w.1 ∧ w.1 + chainLength w.2 <= OFF_MAX ∧ chainLength w.2 <= m.

(** ** StorageHelper *)

Record stat := mk_stat {
  st_ino : Z; st_mode : Z; st_uid : Z; st_gid : Z; st_size : Z;
  st_ctim : Z; st_mtim : Z
}.

Record StorageHelper (S H : Type) := mk_StorageHelper {
  sh_getattr : string → ST S stat;
  sh_access : string → Z → ST S unit;
  sh_readlink : string → ST S string;
  sh_readdir : string → Z → Z → ST S (list string);
  sh_mknod : string → Z → FlagsSet → Z → ST S unit;
  sh_mkdir : string → Z → ST S unit;
  sh_unlink : string → Z → ST S unit;
  sh_rmdir : string → ST S unit;
  sh_symlink : string → string → ST S unit;
  sh_rename : string → string → ST S unit;
  sh_link : string → string → ST S unit;
  sh_chmod : string → Z → ST S unit;
  sh_chown : string → Z → Z → ST S unit;
  sh_truncate : string → Z → Z → ST S unit;
  sh_open : string → Z → Params → ST S H;
  sh_getxattr : string → string → ST S string;
  sh_setxattr : string → string → string → bool → bool → ST S unit;
  sh_removexattr : string → string → ST S unit;
  sh_listxattr : string → ST S (list string)
}.
Arguments sh_getattr {S H} _. Arguments sh_access {S H} _. Arguments sh_readlink {S H} _.
Arguments sh_readdir {S H} _. Arguments sh_mknod {S H} _. Arguments sh_mkdir {S H} _.
Arguments sh_unlink {S H} _. Arguments sh_rmdir {S H} _. Arguments sh_symlink {S H} _.
Arguments sh_rename {S H} _. Arguments sh_link {S H} _. Arguments sh_chmod {S H} _.
Arguments sh_chown {S H} _. Arguments sh_truncate {S H} _. Arguments sh_open {S H} _.
Arguments sh_getxattr {S H} _. Arguments sh_setxattr {S H} _. Arguments sh_removexattr {S H} _.
Arguments sh_listxattr {S H} _.

Definition function_not_supported {S A} : ST S A := st_throw (system_error (make_error_code ENOSYS)).

(** The methods of the base class, for a helper that only defines [open]. *)
Definition default_StorageHelper {S H} (open : string → Z → Params → ST S H)
  : StorageHelper S H := {|
  sh_getattr := λ fileId, function_not_supported;
  sh_access := λ fileId mask, mret tt;
  sh_readlink := λ fileId, function_not_supported;
  sh_readdir := λ fileId offset count, function_not_supported;
  sh_mknod := λ fileId mode flags rdev, function_not_supported;
  sh_mkdir := λ fileId mode, function_not_supported;
  sh_unlink := λ fileId currentSize, function_not_supported;
  sh_rmdir := λ fileId, function_not_supported;
  sh_symlink := λ from to, function_not_supported;
  sh_rename := λ from to, function_not_supported;
  sh_link := λ from to, function_not_supported;
  sh_chmod := λ fileId mode, function_not_supported;
  sh_chown := λ fileId uid gid, function_not_supported;
  sh_truncate := λ fileId size currentSize, function_not_supported;
  sh_open := open;
  sh_getxattr := λ uuid name, function_not_supported;
  sh_setxattr := λ uuid name value create replace, function_not_supported;
  sh_removexattr := λ uuid name, function_not_supported;
  sh_listxattr := λ uuid, function_not_supported
|}.

(** A call of a method, by the type it returns. *)
Inductive helper_call (H : Type) : Type → Type :=
| call_getattr (fileId : string) : helper_call H stat
| call_access (fileId : string) (mask : Z) : helper_call H unit
| call_readlink (fileId : string) : helper_call H string
| call_readdir (fileId : string) (offset count : Z) : helper_call H (list string)
| call_mknod (fileId : string) (mode : Z) (flags : FlagsSet) (rdev : Z) : helper_call H unit
| call_mkdir (fileId : string) (mode : Z) : helper_call H unit
| call_unlink (fileId : string) (currentSize : Z) : helper_call H unit
| call_rmdir (fileId : string) : helper_call H unit
| call_symlink (from to : string) : helper_call H unit
| call_rename (from to : string) : helper_call H unit
| call_link (from to : string) : helper_call H unit
| call_chmod (fileId : string) (mode : Z) : helper_call H unit
| call_chown (fileId : string) (uid gid : Z) : helper_call H unit
| call_truncate (fileId : string) (size currentSize : Z) : helper_call H unit
| call_open (fileId : string) (flags : Z) (openParams : Params) : helper_call H H
| call_getxattr (uuid name : string) : helper_call H string
| call_setxattr (uuid name value : string) (create replace : bool) : helper_call H unit
| call_removexattr (uuid name : string) : helper_call H unit
| call_listxattr (uuid : string) : helper_call H (list string).
Arguments call_getattr {H}. Arguments call_access {H}. Arguments call_readlink {H}.
Arguments call_readdir {H}. Arguments call_mknod {H}. Arguments call_mkdir {H}.
Arguments call_unlink {H}. Arguments call_rmdir {H}. Arguments call_symlink {H}.
Arguments call_rename {H}. Arguments call_link {H}. Arguments call_chmod {H}.
Arguments call_chown {H}. Arguments call_truncate {H}. Arguments call_open {H}.
Arguments call_getxattr {H}. Arguments call_setxattr {H}. Arguments call_removexattr {H}.
Arguments call_listxattr {H}.

Definition perform {S H A} (h : StorageHelper S H) (c : helper_call H A) : ST S A :=
  match c with
  | call_getattr f => sh_getattr h f
  | call_access f mask => sh_access h f mask
  | call_readlink f => sh_readlink h f
  | call_readdir f offset count => sh_readdir h f offset count
  | call_mknod f mode flags rdev => sh_mknod h f mode flags rdev
  | call_mkdir f mode => sh_mkdir h f mode
  | call_unlink f size => sh_unlink h f size
  | call_rmdir f => sh_rmdir h f
  | call_symlink from to => sh_symlink h from to
  | call_rename from to => sh_rename h from to
  | call_link from to => sh_link h from to
  | call_chmod f mode => sh_chmod h f mode
  | call_chown f uid gid => sh_chown h f uid gid
  | call_truncate f size current => sh_truncate h f size current
  | call_open f flags params => sh_open h f flags params
  | call_getxattr f name => sh_getxattr h f name
  | call_setxattr f name value create replace => sh_setxattr h f name value create replace
  | call_removexattr f name => sh_removexattr h f name
  | call_listxattr f => sh_listxattr h f
  end.

(** [open] with a set of flags. *)
Definition open_flags {S H} (h : StorageHelper S H) (fileId : string) (flags : FlagsSet)
    (openParams : Params) : ST S H :=
  sh_open h fileId (flagsToMask flags) openParams.

(** ** Retrying: the number of calls *)

Lemma retry_loop_spec {St A} (op : ST St A) (condition : A → bool) (rounds : nat) (ret : A)
    (s s' : St) (a : A) :
  retry_loop op condition rounds ret s = (s', Value a) →
  (s' = s ∧ a = ret ∧ (condition ret = true ∨ rounds = O)) ∨
  ∃ n, (1 ≤ n ≤ rounds)%nat ∧ condition ret = false ∧ attempts op condition n s s' a ∧
       (condition a = true ∨ n = rounds).
Proof.
  revert ret s. induction rounds as [|rounds IH]; intros ret s Hrun; simpl in Hrun.
  { injection Hrun as <- <-. auto. }
  destruct (condition ret) eqn:Hc; simpl in Hrun; [injection Hrun as <- <-; auto|].
  unfold mbind, ST_bind in Hrun. destruct (op s) as [s1 [a1|e]] eqn:Hop; [|done].
  right. destruct (IH a1 s1 Hrun) as [(-> & -> & Hend)|(n & Hn & Hc1 & Hat & Hend)].
  - exists 1%nat. split_and!; [lia..|done|by constructor|]. destruct Hend as [|Hr]; [by left|].
    destruct rounds; [by right|done].
  - exists (S n). split_and!; [lia..|done|by eapply (attempts_more op condition n)|].
    destruct Hend; [by left|right; lia].
Qed.

Lemma retry_spec_aux {St A} (op : ST St A) (condition : A → bool) (retryCount : Z)
    (s s' : St) (a : A) :
  0 <= retryCount → retry op condition retryCount s = (s', Value a) →
  ∃ n, (1 ≤ n ≤ S (Z.to_nat retryCount))%nat ∧ attempts op condition n s s' a ∧
       (condition a = true ∨ Z.of_nat n = retryCount + 1).
Proof.
  intros Hcount Hrun. unfold retry, mbind, ST_bind in Hrun.
  destruct (op s) as [s1 [a1|e]] eqn:Hop; [|done].
  destruct (retry_loop_spec op condition _ _ _ _ _ Hrun)
    as [(-> & -> & Hend)|(n & Hn & Hc & Hat & Hend)].
  - exists 1%nat. split_and!; [lia..|by constructor|]. destruct Hend; [by left|right; lia].
  - exists (S n). split_and!; [lia..|by eapply (attempts_more op condition n)|].
    destruct Hend; [by left|right; lia].
Qed.

(** A first call that satisfies the condition is the only one. *)
Lemma retry_done {St A} (op : ST St A) (condition : A → bool) (retryCount : Z) (s s' : St) (a : A) :
  op s = (s', Value a) → condition a = true → retry op condition retryCount s = (s', Value a).
Proof.
  intros Hop Hc. unfold retry. rewrite (st_bind_value _ _ _ _ _ Hop).
  destruct (Z.to_nat retryCount); simpl; [done|]. by rewrite Hc.
Qed.

(** What every call keeps and what every result satisfies holds for the retried
    call, which always returns. *)
Lemma retry_ind {St A} (op : ST St A) (condition : A → bool) (retryCount : Z)
    (P : St → Prop) (R : St → A → Prop) (s : St) :
  (∀ s, P s → ∃ s' a, op s = (s', Value a) ∧ P s' ∧ R s' a) → P s →
  ∃ s' a, retry op condition retryCount s = (s', Value a) ∧ P s' ∧ R s' a.
Proof.
  intros Hop HP. unfold retry. destruct (Hop s HP) as (s1 & a1 & Hs1 & HP1 & HR1).
  rewrite (st_bind_value _ _ _ _ _ Hs1). clear Hs1 HP s. revert s1 a1 HP1 HR1.
  induction (Z.to_nat retryCount) as [|rounds IH]; intros s1 a1 HP1 HR1; simpl; [by exists s1, a1|].
  destruct (negb (condition a1)); [|by exists s1, a1].
  destruct (Hop s1 HP1) as (s2 & a2 & Hs2 & HP2 & HR2).
  rewrite (st_bind_value _ _ _ _ _ Hs2). by apply IH.
Qed.

(** As long as calls fail the condition they keep [P]; a call that satisfies it
    ends the retrying. *)
Lemma retry_until {St A} (op : ST St A) (condition : A → bool) (retryCount : Z)
    (P : St → Prop) (R F : St → A → Prop) (s : St) :
  (∀ s, P s → ∃ s' a, op s = (s', Value a) ∧ if condition a then R s' a else P s' ∧ F s' a) → P s →
  ∃ s' a, retry op condition retryCount s = (s', Value a) ∧
    if condition a then R s' a else P s' ∧ F s' a.
Proof.
  intros Hop HP. unfold retry. destruct (Hop s HP) as (s1 & a1 & Hs1 & H1).
  rewrite (st_bind_value _ _ _ _ _ Hs1). clear Hs1 HP s. revert s1 a1 H1.
  induction (Z.to_nat retryCount) as [|rounds IH]; intros s1 a1 H1; simpl; [by exists s1, a1|].
  destruct (condition a1) eqn:Hc; simpl; [exists s1, a1; by rewrite Hc|].
  destruct H1 as [HP1 _]. destruct (Hop s1 HP1) as (s2 & a2 & Hs2 & H2).
  rewrite (st_bind_value _ _ _ _ _ Hs2). by apply IH.
Qed.

(** A call settles when, after at most [n] attempts whose results are retried,
    one gives a good result. *)
Fixpoint settles {W A} (call : W → W * A) (condition : A → bool) (good : A → Prop) (n : nat) (w : W) : Prop :=
  (condition (call w).2 = true ∧ good (call w).2) ∨
  match n with
  | O => False
  | S n' => condition (call w).2 = false ∧ settles call condition good n' (call w).1
  end.

(** An operation that is the call on a part of its state. *)
Lemma retry_settles {St W A} (view : St → W) (op : ST St A) (call : W → W * A) (condition : A → bool)
    (good : A → Prop) (retryCount : Z) (s : St) :
  (∀ s, ∃ s', op s = (s', Value (call (view s)).2) ∧ view s' = (call (view s)).1) →
  settles call condition good (Z.to_nat retryCount) (view s) →
  ∃ s' a, retry op condition retryCount s = (s', Value a) ∧ good a.
Proof.
  intros Hop. unfold retry. generalize (Z.to_nat retryCount) as n. intros n. revert s.
  induction n as [|n IH]; intros s Hs; simpl in Hs; destruct (Hop s) as (s1 & Hs1 & Hv);
    rewrite (st_bind_value _ _ _ _ _ Hs1).
  - destruct Hs as [[_ Hg]|[]]. by eexists s1, _.
  - destruct Hs as [[Hc Hg]|[Hc Hs]]; simpl; rewrite Hc; simpl; [by eexists s1, _|].
    apply IH. by rewrite Hv.
Qed.

(** A retried call keeps what the call keeps. *)
Lemma st_keeps_retry {St A} (P : St → Prop) (op : ST St A) (condition : A → bool) (retryCount : Z) :
  st_keeps P op → st_keeps P (retry op condition retryCount).
Proof.
  intros Hop. apply st_keeps_bind; [done|]. intros a. revert a.
  induction (Z.to_nat retryCount) as [|rounds IH]; intros a; simpl; [apply st_keeps_ret|].
  destruct (negb (condition a)); [|apply st_keeps_ret]. by apply st_keeps_bind.
Qed.
#[export] Hint Resolve st_keeps_retry : keeps.

(** ** multiwrite *)

Definition total_size (ws : list write_op) : Z :=
  foldr (λ w n, chainLength w.2 + n) 0 ws.

Lemma total_size_nonneg (ws : list write_op) : 0 <= total_size ws.
Proof.
  induction ws as [|w ws IH]; simpl; [lia|]. pose proof (chainLength_nonneg w.2). lia.
Qed.

Lemma total_size_app (ws1 ws2 : list write_op) :
  total_size (ws1 ++ ws2) = total_size ws1 + total_size ws2.
Proof. induction ws1 as [|w ws1 IH]; simpl; lia. Qed.

Section laws.
Context {H : Type} `{FL : FileHandleLaws H}.

Lemma multiwrite_loop_spec (ws : list write_op) (h : H) (n : Z) :
  handle_ok h → Forall (fits max_write) ws → 0 <= n → n + total_size ws <= UINT64_MAX →
  ∃ h', multiwrite_loop ws n n h = (h', Value (n + total_size ws)) ∧
        contents h' = apply_writes (contents h) ws ∧ handle_ok h'.
Proof.
  revert h n. induction ws as [|w ws IH]; intros h n Hh Hoff Hn Hmax; simpl in *.
  { exists h. unfold mret, ST_ret. by rewrite Z.add_0_r. }
  apply Forall_cons in Hoff as [(Hw1 & Hw2 & Hw3) Hoff]. pose proof (total_size_nonneg ws).
  pose proof (chainLength_nonneg w.2). rewrite Z.ltb_irrefl. unfold UINT64_MAX in *.
  destruct (fh_write_value h w.1 w.2 Hh Hw1 Hw2 Hw3) as (h1 & Hwrite & Hc & Hh1).
  erewrite st_bind_value; [|by erewrite st_bind_value by exact Hwrite].
  rewrite u64_small by lia.
  destruct (IH h1 (n + chainLength w.2)) as (h' & Hrun & Hc' & Hh'); [done|done|lia..|].
  exists h'. rewrite Hrun. split; [do 2 f_equal; lia|]. by rewrite Hc', Hc.
Qed.

Lemma multiwrite_spec_aux (ws : list write_op) (h : H) :
  handle_ok h → Forall (fits max_write) ws → total_size ws <= UINT64_MAX →
  ∃ h', multiwrite ws h = (h', Value (total_size ws)) ∧
        contents h' = apply_writes (contents h) ws ∧ handle_ok h'.
Proof. intros Hh Hoff Hmax. by apply (multiwrite_loop_spec ws h 0). Qed.
End laws.

(** ** A file in memory

    The smallest handle that keeps the promises of [FileHandleLaws]: the
    contents themselves. *)
Definition memory_handle : FileHandle bytes :=
  default_FileHandle (λ off n f, (f, Value (pread f off n)))
                     (λ off b f, (pwrite f off b, Value (chainLength b))).

Lemma memory_handle_laws : @FileHandleLaws bytes memory_handle.
Proof.
  refine {| contents := λ f : bytes, f; handle_ok := λ _, True; max_read := OFF_MAX; max_write := OFF_MAX |};
    simpl; eauto.
Defined.

(** One whose writes store at most one byte, as a full device may. *)
Definition short_handle : FileHandle bytes :=
  default_FileHandle (λ off n f, (f, Value (pread f off n)))
                     (λ off b f, (pwrite f off (take 1 b), Value (chainLength (take 1 b)))).

(** ** The properties *)

(** C39: [retry] returns the value of the last of [n] calls, all earlier ones
    having failed the condition; there is at least one call and there are at
    most [retryCount + 1], and when the returned value fails the condition all
    of them were made. *)
Theorem retry_attempts {St A} (op : ST St A) (condition : A → bool) (retryCount : Z)
    (s s' : St) (a : A) :
  0 <= retryCount → retry op condition retryCount s = (s', Value a) →
  ∃ n, (1 ≤ n ≤ S (Z.to_nat retryCount))%nat ∧ attempts op condition n s s' a ∧
       (condition a = true ∨ Z.of_nat n = retryCount + 1).
Proof. apply retry_spec_aux. Qed.

Lemma retry_attempts_witness :
  let op : ST Z Z := λ s, (s + 1, Value s) in
  ∃ n, (1 ≤ n ≤ 5)%nat ∧ attempts op (λ a, 2 <? a) n 1 4 3 ∧
       ((2 <? 3) = true ∨ Z.of_nat n = IO_RETRY_COUNT + 1).
Proof.
  apply (retry_attempts (λ s, (s + 1, Value s)) (λ a, 2 <? a) IO_RETRY_COUNT 1 4 3).
  - vm_compute. congruence.
  - reflexivity.
Defined.

(** On a handle whose writes are complete, [multiwrite] applies all the
    buffers in order and returns their total size. *)
Lemma multiwrite_in_order {H} `{FL : FileHandleLaws H} (ws : list write_op) (h : H) :
  handle_ok h → Forall (fits max_write) ws → total_size ws <= UINT64_MAX →
  ∃ h', multiwrite ws h = (h', Value (total_size ws)) ∧
        contents h' = apply_writes (contents h) ws ∧ handle_ok h'.
Proof. apply multiwrite_spec_aux. Qed.

(** After a short write [multiwrite] goes on with the next buffers: the
    test that should stop it compares the wrong way round.  Two buffers of two
    bytes at 0 and 2, each written short, leave a hole at byte 1. *)
Lemma multiwrite_continues_after_short_write :
  @multiwrite _ short_handle [(0, [x61; x62]); (2, [x63; x64])] []
  = ([x61; x00; x63], Value 2).
Proof. reflexivity. Qed.

(** ** Flag masks *)

(** The flags whose mask is a bit that no other flag uses. *)
Definition plain_flags : list Flag :=
  [NONBLOCK; APPEND; ASYNC; NOFOLLOW; CREAT; TRUNC; EXCL; IFREG; IFIFO].

Fixpoint sublists {A} (l : list A) : list (list A) :=
  match l with
  | [] => [[]]
  | x :: l' => map (cons x) (sublists l') ++ sublists l'
  end.

Lemma filter_sublists {A} (P : A → Prop) `{∀ x, Decision (P x)} (l : list A) :
  filter P l ∈ sublists l.
Proof.
  induction l as [|x l IH]; cbn [sublists]; [left|]. apply elem_of_app.
  destruct (decide (P x)).
  - left. apply list_elem_of_fmap. rewrite filter_cons_True by done. eauto.
  - right. by rewrite filter_cons_False.
Qed.

Definition mask_roundtrip (flags : list Flag) : bool :=
  bool_decide (maskToFlags (flagsToMask (list_to_set flags)) = Value (list_to_set flags)).

Lemma mask_roundtrips :
  forallb (λ access, forallb (λ l, mask_roundtrip (access :: l)) (sublists plain_flags))
    [RDONLY; WRONLY; RDWR] = true.
Proof. vm_compute. reflexivity. Qed.

Lemma mask_roundtrip_plain (access : Flag) (l : list Flag) :
  access ∈ [RDONLY; WRONLY; RDWR] → l ∈ sublists plain_flags → mask_roundtrip (access :: l) = true.
Proof.
  intros Hacc Hl. pose proof mask_roundtrips as Hall.
  eapply forallb_forall in Hall; [|by apply list_elem_of_In].
  eapply forallb_forall in Hall; [exact Hall|by apply list_elem_of_In].
Qed.

Lemma mask_roundtrip_spec (access : Flag) (l : list Flag) :
  mask_roundtrip (access :: l) = true →
  maskToFlags (flagsToMask ({[access]} ∪ list_to_set l)) = Value ({[access]} ∪ list_to_set l).
Proof.
  unfold mask_roundtrip. rewrite list_to_set_cons. apply bool_decide_eq_true_1.
Qed.

(** A set of one access mode and any flags with a bit of their own comes
    back from [maskToFlags] after [flagsToMask]. *)
Lemma flags_roundtrip (access : Flag) (flags : FlagsSet) :
  access ∈ [RDONLY; WRONLY; RDWR] → flags ⊆ list_to_set plain_flags →
  maskToFlags (flagsToMask ({[access]} ∪ flags)) = Value ({[access]} ∪ flags).
Proof.
  intros Hacc Hsub.
  assert (flags = list_to_set (filter (λ f, f ∈ flags) plain_flags)) as Hf.
  { apply set_eq. intros f. rewrite elem_of_list_to_set, list_elem_of_filter.
    split; [|by intros []]. intros Hin. split; [done|].
    apply Hsub in Hin. by apply elem_of_list_to_set in Hin. }
  pose proof (filter_sublists (λ f, f ∈ flags) plain_flags) as Hl.
  rewrite Hf. apply mask_roundtrip_spec. by apply mask_roundtrip_plain.
Qed.

(** The other flags do not come back: a character device turns into
    ASYNC, a synchronous open also reads as a pipe, and the access mode 3
    throws. *)
Lemma flags_not_recovered :
  maskToFlags (flagsToMask {[RDONLY; IFCHR]}) = Value {[RDONLY; ASYNC]} ∧
  maskToFlags (flagsToMask {[RDONLY; FSYNC]}) = Value {[RDONLY; FSYNC; IFIFO]} ∧
  maskToFlags (flagsToMask {[WRONLY; RDWR]}) = Exception out_of_range.
Proof. split_and!; apply (bool_decide_unpack _); vm_compute; exact I. Qed.
