(* ===== verification/Posix.v ===== *)
(** * The operating system under the POSIX helper

    The calls that src/src/posixHelper.cc makes, as one type of calls indexed by
    what they return, and the kernel as a class that runs them.  The laws are
    those of the manual pages: [setfsuid] returns the previous identity and
    changes it only if permitted, a positioned read returns a beginning of the
    range, a write at the file position stores a beginning of its buffers, a
    directory stream gives its names one by one, extended attributes are read
    back.  A kernel in memory keeps all of them. *)

From stdpp Require Import base numbers list gmap strings.
From Stdlib Require Import ZArith Lia Strings.Byte Strings.Ascii.
From S2P Require Import Prelude Storage.
Local Open Scope Z_scope.

(** ** Calls *)

(** A call returns its result, and what it stores through its pointers. *)
Inductive syscall : Type → Type :=
| sys_setfsuid (uid : Z) : syscall Z
| sys_setfsgid (gid : Z) : syscall Z
| sys_pread (fd size offset : Z) : syscall (Z * bytes)
| sys_lseek (fd offset : Z) : syscall Z
| sys_writev (fd : Z) (iov : list bytes) : syscall Z
| sys_close (fd : Z) : syscall Z
| sys_fsync (fd : Z) : syscall Z
| sys_lstat (path : string) : syscall (Z * stat)
| sys_access (path : string) (mask : Z) : syscall Z
| sys_opendir (path : string) : syscall (option Z)
| sys_readdir (dir : Z) : syscall (option string)
| sys_closedir (dir : Z) : syscall Z
| sys_readlink (path : string) (size : Z) : syscall (Z * string)
| sys_open (path : string) (flags mode : Z) : syscall Z
| sys_mkfifo (path : string) (mode : Z) : syscall Z
| sys_mknod (path : string) (mode rdev : Z) : syscall Z
| sys_mkdir (path : string) (mode : Z) : syscall Z
| sys_unlink (path : string) : syscall Z
| sys_rmdir (path : string) : syscall Z
| sys_symlink (from to : string) : syscall Z
| sys_rename (from to : string) : syscall Z
| sys_link (from to : string) : syscall Z
| sys_chmod (path : string) (mode : Z) : syscall Z
| sys_chown (path : string) (uid gid : Z) : syscall Z
| sys_truncate (path : string) (size : Z) : syscall Z
| sys_getxattr (path name : string) (size : Z) : syscall (Z * string)
| sys_setxattr (path name value : string) (flags : Z) : syscall Z
| sys_removexattr (path name : string) : syscall Z
| sys_listxattr (path : string) (size : Z) : syscall (Z * string).

(** Calls that change the identity of the thread. *)
Definition is_setid {A} (c : syscall A) : bool :=
  match c with sys_setfsuid _ | sys_setfsgid _ => true | _ => false end.

Class Posix (K : Type) := {
  run_call : ∀ A, syscall A → K → K * A;
  errno : K → Z;
  (** A bound on the names a directory stream still has. *)
  dir_bound : K → Z → nat
}.
Arguments run_call {K _ A} _ _.

(** [(uid_t)-1] and [(gid_t)-1], which no call accepts as an identity. *)
Definition NO_ID : Z := 4294967295.

(** ** Laws *)

(** The identity of a thread: file system user and group. *)
Definition identity : Type := Z * Z.

Class PosixIdLaws (K : Type) `{Posix K} := {
  creds : K → identity;
  may_setfsuid : K → Z → bool;
  may_setfsgid : K → Z → bool;
  setfsuid_value : ∀ k uid, ∃ k', run_call (sys_setfsuid uid) k = (k', (creds k).1) ∧
    creds k' = ((if may_setfsuid k uid then uid else (creds k).1), (creds k).2) ∧
    may_setfsuid k' = may_setfsuid k ∧ may_setfsgid k' = may_setfsgid k;
  setfsgid_value : ∀ k gid, ∃ k', run_call (sys_setfsgid gid) k = (k', (creds k).2) ∧
    creds k' = ((creds k).1, (if may_setfsgid k gid then gid else (creds k).2)) ∧
    may_setfsuid k' = may_setfsuid k ∧ may_setfsgid k' = may_setfsgid k;
  may_setfsuid_none : ∀ k, may_setfsuid k NO_ID = false;
  may_setfsgid_none : ∀ k, may_setfsgid k NO_ID = false;
  call_keeps_creds : ∀ A (c : syscall A) k, is_setid c = false →
    let k' := (run_call c k).1 in
    creds k' = creds k ∧ may_setfsuid k' = may_setfsuid k ∧ may_setfsgid k' = may_setfsgid k
}.

(** Regular files behind descriptors: their bytes and the position. *)
Class PosixFileLaws (K : Type) `{Posix K} := {
  fd_file : K → Z → option (bytes * Z);
  setfsuid_file : ∀ k uid, fd_file (run_call (sys_setfsuid uid) k).1 = fd_file k;
  setfsgid_file : ∀ k gid, fd_file (run_call (sys_setfsgid gid) k).1 = fd_file k;
  lseek_file : ∀ k fd f pos off, fd_file k fd = Some (f, pos) → 0 <= off <= OFF_MAX →
    ∃ k' r, run_call (sys_lseek fd off) k = (k', r) ∧
      (r = off ∧ fd_file k' fd = Some (f, off) ∨ r = -1 ∧ fd_file k' fd = Some (f, pos));
  pread_file : ∀ k fd f pos size off, fd_file k fd = Some (f, pos) → 0 <= off <= OFF_MAX → 0 <= size →
    ∃ k' r b, run_call (sys_pread fd size off) k = (k', (r, b)) ∧ fd_file k' fd = Some (f, pos) ∧
      (r = -1 ∨ b `prefix_of` pread f off size ∧ r = chainLength b);
  writev_file : ∀ k fd f pos iov, fd_file k fd = Some (f, pos) →
    ∃ k' r, run_call (sys_writev fd iov) k = (k', r) ∧
      (r = -1 ∧ fd_file k' fd = Some (f, pos) ∨
       0 <= r <= chainLength (concat iov) ∧
       fd_file k' fd = Some (pwrite f pos (take (Z.to_nat r) (concat iov)), pos + r));
  fsync_file : ∀ k fd f pos, fd_file k fd = Some (f, pos) →
    ∃ k' r, run_call (sys_fsync fd) k = (k', r) ∧ fd_file k' fd = Some (f, pos)
}.

(** Writes of up to [room] bytes store everything or fail. *)
Class PosixWritesAll (K : Type) `{PosixFileLaws K} := {
  room : K → Z;
  lseek_room : ∀ k fd off, room (run_call (sys_lseek fd off) k).1 = room k;
  writev_all : ∀ k fd f pos iov, fd_file k fd = Some (f, pos) → chainLength (concat iov) <= room k →
    ∃ k' r, run_call (sys_writev fd iov) k = (k', r) ∧ room k' = room k ∧
      (r = -1 ∨ r = chainLength (concat iov))
}.

(** Directories.  A stream that has no names left keeps none. *)
Class PosixDirLaws (K : Type) `{Posix K} := {
  dir_names : K → string → option (list string);
  stream_names : K → Z → option (list string);
  setfsuid_dir : ∀ k uid, dir_names (run_call (sys_setfsuid uid) k).1 = dir_names k;
  setfsgid_dir : ∀ k gid, dir_names (run_call (sys_setfsgid gid) k).1 = dir_names k;
  opendir_value : ∀ k path l, dir_names k path = Some l →
    ∃ k' d, run_call (sys_opendir path) k = (k', Some d) ∧ stream_names k' d = Some l ∧
      dir_names k' = dir_names k;
  readdir_value : ∀ k d l, stream_names k d = Some l →
    ∃ k', run_call (sys_readdir d) k = (k', head l) ∧ stream_names k' d = Some (tail l) ∧
      dir_names k' = dir_names k;
  dir_bound_names : ∀ k d l, stream_names k d = Some l → (length l ≤ dir_bound k d)%nat
}.

(** Extended attributes of a file. *)
Definition slength (s : string) : Z := Z.of_nat (String.length s).

Class PosixXattrLaws (K : Type) `{Posix K} := {
  xattr : K → string → string → option string;
  setfsuid_xattr : ∀ k uid, xattr (run_call (sys_setfsuid uid) k).1 = xattr k;
  setfsgid_xattr : ∀ k gid, xattr (run_call (sys_setfsgid gid) k).1 = xattr k;
  getxattr_value : ∀ k path name v size, xattr k path name = Some v → 0 <= size →
    ∃ k' r, run_call (sys_getxattr path name size) k = (k', r) ∧ xattr k' = xattr k ∧
      if slength v <=? size then r = (slength v, v) else r.1 = -1 ∧ errno k' = ERANGE;
  setxattr_value : ∀ k path name value flags k' r,
    run_call (sys_setxattr path name value flags) k = (k', r) → 0 <= r → xattr k' path name = Some value
}.

(** ** A kernel in memory *)

Record memory_kernel := mk_memory_kernel {
  mk_errno : Z;
  mk_creds : identity;
  mk_users : gset Z;
  mk_groups : gset Z;
  mk_open : gmap Z (bytes * Z);
  mk_dirs : gmap string (list string);
  mk_streams : gmap Z (list string);
  mk_xattrs : gmap (string * string) string;
  (** The bytes that one write stores at most. *)
  mk_room : Z
}.

Definition set_creds (c : identity) (k : memory_kernel) : memory_kernel :=
  mk_memory_kernel (mk_errno k) c (mk_users k) (mk_groups k) (mk_open k) (mk_dirs k) (mk_streams k)
    (mk_xattrs k) (mk_room k).
Definition set_errno (e : Z) (k : memory_kernel) : memory_kernel :=
  mk_memory_kernel e (mk_creds k) (mk_users k) (mk_groups k) (mk_open k) (mk_dirs k) (mk_streams k)
    (mk_xattrs k) (mk_room k).
Definition set_open (m : gmap Z (bytes * Z)) (k : memory_kernel) : memory_kernel :=
  mk_memory_kernel (mk_errno k) (mk_creds k) (mk_users k) (mk_groups k) m (mk_dirs k) (mk_streams k)
    (mk_xattrs k) (mk_room k).
Definition set_streams (m : gmap Z (list string)) (k : memory_kernel) : memory_kernel :=
  mk_memory_kernel (mk_errno k) (mk_creds k) (mk_users k) (mk_groups k) (mk_open k) (mk_dirs k) m
    (mk_xattrs k) (mk_room k).
Definition set_xattrs (m : gmap (string * string) string) (k : memory_kernel) : memory_kernel :=
  mk_memory_kernel (mk_errno k) (mk_creds k) (mk_users k) (mk_groups k) (mk_open k) (mk_dirs k)
    (mk_streams k) m (mk_room k).

Definition may_take (allowed : gset Z) (id : Z) : bool :=
  negb (id =? NO_ID) && bool_decide (id ∈ allowed).

(** EBADF. *)
Definition bad_descriptor : Z := 9.

Definition fail (e : Z) (k : memory_kernel) : memory_kernel * Z := (set_errno e k, -1).

Definition memory_writev (fd : Z) (iov : list bytes) (k : memory_kernel) : memory_kernel * Z :=
  match mk_open k !! fd with
  | Some (f, pos) =>
      let b := take (Z.to_nat (mk_room k)) (concat iov) in
      (set_open (<[fd := (pwrite f pos b, pos + chainLength b)]> (mk_open k)) k, chainLength b)
  | None => fail bad_descriptor k
  end.

(** Calls on what the kernel does not have fail with ENOENT. *)
Definition memory_run A (c : syscall A) (k : memory_kernel) : memory_kernel * A :=
  match c in syscall A return memory_kernel * A with
  | sys_setfsuid u =>
      (if may_take (mk_users k) u then set_creds (u, (mk_creds k).2) k else k, (mk_creds k).1)
  | sys_setfsgid g =>
      (if may_take (mk_groups k) g then set_creds ((mk_creds k).1, g) k else k, (mk_creds k).2)
  | sys_pread fd size off =>
      match mk_open k !! fd with
      | Some (f, _) => (k, (chainLength (pread f off size), pread f off size))
      | None => (set_errno bad_descriptor k, (-1, []))
      end
  | sys_lseek fd off =>
      match mk_open k !! fd with
      | Some (f, _) => (set_open (<[fd := (f, off)]> (mk_open k)) k, off)
      | None => fail bad_descriptor k
      end
  | sys_writev fd iov => memory_writev fd iov k
  | sys_close fd => (set_open (delete fd (mk_open k)) k, 0)
  | sys_fsync fd => (k, 0)
  | sys_lstat _ => (set_errno ENOENT k, (-1, mk_stat 0 0 0 0 0 0 0))
  | sys_opendir path =>
      match mk_dirs k !! path with
      | Some l => (set_streams (<[1 := l]> (mk_streams k)) k, Some 1)
      | None => (set_errno ENOENT k, None)
      end
  | sys_readdir d =>
      match mk_streams k !! d with
      | Some l => (set_streams (<[d := tail l]> (mk_streams k)) k, head l)
      | None => (set_errno bad_descriptor k, None)
      end
  | sys_closedir d => (set_streams (delete d (mk_streams k)) k, 0)
  | sys_readlink _ _ => (set_errno ENOENT k, (-1, EmptyString))
  | sys_getxattr path name size =>
      match mk_xattrs k !! (path, name) with
      | Some v => if slength v <=? size then (k, (slength v, v)) else (set_errno ERANGE k, (-1, EmptyString))
      | None => (set_errno ENOENT k, (-1, EmptyString))
      end
  | sys_setxattr path name value _ => (set_xattrs (<[(path, name) := value]> (mk_xattrs k)) k, 0)
  | sys_listxattr _ _ => (set_errno ENOENT k, (-1, EmptyString))
  | sys_access _ _ | sys_open _ _ _ | sys_mkfifo _ _ | sys_mknod _ _ _ | sys_mkdir _ _ | sys_unlink _
  | sys_rmdir _ | sys_symlink _ _ | sys_rename _ _ | sys_link _ _ | sys_chmod _ _ | sys_chown _ _ _
  | sys_truncate _ _ | sys_removexattr _ _ => fail ENOENT k
  end.

#[export] Instance memory_Posix : Posix memory_kernel := {|
  run_call := memory_run;
  errno := mk_errno;
  dir_bound k d := length (default [] (mk_streams k !! d))
|}.

#[export] Instance memory_IdLaws : PosixIdLaws memory_kernel.
Proof.
  refine {| creds := mk_creds; may_setfsuid k := may_take (mk_users k);
            may_setfsgid k := may_take (mk_groups k) |}.
  - intros k uid. eexists. split; [done|]. destruct (may_take (mk_users k) uid); [done|].
    by destruct k as [? []].
  - intros k gid. eexists. split; [done|]. destruct (may_take (mk_groups k) gid); [done|].
    by destruct k as [? []].
  - done.
  - done.
  - intros A c k Hc. destruct c; simpl in *; unfold memory_writev, fail; try done;
      repeat case_match; done.
Defined.

#[export] Instance memory_FileLaws : PosixFileLaws memory_kernel.
Proof.
  refine {| fd_file k fd := mk_open k !! fd |}; simpl.
  - intros k uid. by destruct (may_take _ _).
  - intros k gid. by destruct (may_take _ _).
  - intros k fd f pos off -> Hoff. eexists _, _. split; [done|]. left. simpl. by rewrite lookup_insert_eq.
  - intros k fd f pos size off Hfd Hoff Hsize. rewrite Hfd. eexists _, _, _. split; [done|]. split; [done|]. by right.
  - intros k fd f pos iov Hfd. unfold memory_writev. rewrite Hfd. eexists _, _. split; [done|]. right.
    split; [unfold chainLength; rewrite length_take; lia|]. simpl. rewrite lookup_insert_eq.
    unfold chainLength. rewrite Nat2Z.id. do 3 f_equal. rewrite length_take.
    destruct (decide (Z.to_nat (mk_room k) ≤ length (concat iov))%nat).
    + by rewrite Nat.min_l.
    + rewrite Nat.min_r by lia. by rewrite !take_ge by lia.
  - intros k fd f pos Hfd. by eexists _, _.
Defined.

#[export] Instance memory_WritesAll : PosixWritesAll memory_kernel.
Proof.
  refine {| room := mk_room |}; simpl.
  { intros k fd off. by destruct (mk_open k !! fd) as [[]|]. }
  intros k fd f pos iov Hfd Hroom. unfold memory_writev.
  rewrite Hfd. eexists _, _. split; [done|]. split; [done|]. right.
  unfold chainLength in *. rewrite length_take. lia.
Defined.

#[export] Instance memory_DirLaws : PosixDirLaws memory_kernel.
Proof.
  refine {| dir_names k path := mk_dirs k !! path; stream_names k d := mk_streams k !! d |}; simpl.
  - intros k uid. by destruct (may_take _ _).
  - intros k gid. by destruct (may_take _ _).
  - intros k path l ->. eexists _, _. split; [done|]. simpl. by rewrite lookup_insert_eq.
  - intros k d l ->. eexists. split; [done|]. simpl. by rewrite lookup_insert_eq.
  - intros k d l ->. done.
Defined.

#[export] Instance memory_XattrLaws : PosixXattrLaws memory_kernel.
Proof.
  refine {| xattr k path name := mk_xattrs k !! (path, name) |}; simpl.
  - intros k uid. by destruct (may_take _ _).
  - intros k gid. by destruct (may_take _ _).
  - intros k path name v size -> Hsize. destruct (slength v <=? size); by eexists _, _.
  - intros k path name value flags k' r [= <- <-] _. simpl. by rewrite lookup_insert_eq.
Defined.
