(* ===== verification/PosixHelper.v ===== *)
(** * The POSIX helper (src/src/posixHelper.cc, src/src/posixHelper.h)

    Every operation switches the thread to the user of the helper, makes its
    system calls with retries and switches back.  The kernel is the interface
    of Posix.v.  Proved: the calls of an operation are made as the requested
    user or not at all and the identity of the thread is restored; a listing
    returns the asked part of the directory; extended attributes come back. *)

From stdpp Require Import base numbers list gmap strings.
From Stdlib Require Import ZArith Lia Strings.Byte Strings.Ascii.
From S2P Require Import Prelude Storage Posix.
Local Open Scope Z_scope.

(** ** Retrying *)

(** EINTR, EIO, EAGAIN, EACCES, EBUSY, EMFILE, ETXTBSY, ESPIPE, EMLINK, EPIPE,
    EDEADLK, EWOULDBLOCK, ENOLINK, EADDRINUSE, EADDRNOTAVAIL, ENETDOWN,
    ENETUNREACH, ECONNABORTED, ECONNRESET, ENOTCONN, EHOSTUNREACH, ECANCELED,
    ESTALE, ENONET, EHOSTDOWN, EREMOTEIO, ENOMEDIUM (Linux). *)
Definition POSIX_RETRY_ERRORS : list Z :=
  [4; 5; 11; 13; 16; 24; 26; 29; 31; 32; 35; 11; 67; 98; 99; 100; 101; 103; 104; 107; 113; 125; 116;
   64; 112; 121; 123].

Definition retry_error (e : Z) : bool := bool_decide (e ∈ POSIX_RETRY_ERRORS).

(** The result is narrowed to [int]; [e] is [errno] after the call. *)
Definition POSIXRetryCondition (result e : Z) : bool := (0 <=? i32 result) || negb (retry_error e).

Section helper.
Context {K : Type} `{Posix K}.

(** A call, with the [errno] it leaves. *)
Definition call {A} (c : syscall A) : ST K (A * Z) := λ k,
  let '(k', a) := run_call c k in (k', Value (a, errno k')).

Definition call_ {A} (c : syscall A) : ST K A := λ k,
  let '(k', a) := run_call c k in (k', Value a).

Definition retry_call (c : syscall Z) : ST K (Z * Z) :=
  retry (call c) (λ r, POSIXRetryCondition r.1 r.2) IO_RETRY_COUNT.

(** A call that also fills a buffer. *)
Definition retry_call_out {A} (c : syscall (Z * A)) : ST K (Z * A * Z) :=
  retry (call c) (λ r, POSIXRetryCondition r.1.1 r.2) IO_RETRY_COUNT.

(** A call that returns a pointer. *)
Definition retry_call_ptr {A} (c : syscall (option A)) : ST K (option A * Z) :=
  retry (call c) (λ r, bool_decide (r.1 ≠ None) || negb (retry_error r.2)) IO_RETRY_COUNT.

Definition setResult (c : syscall Z) : ST K unit :=
  '(ret, e) ← retry_call c;
  if ret <? 0 then st_throw (makePosixException e) else mret tt.

(** ** The identity of the thread *)

Record UserCtxSetter := mk_UserCtxSetter {
  m_uid : Z; m_gid : Z;
  m_prevUid : Z; m_prevGid : Z;
  m_currUid : Z; m_currGid : Z
}.

Definition new_UserCtxSetter (uid gid : Z) : ST K UserCtxSetter :=
  prevUid ← call_ (sys_setfsuid uid);
  prevGid ← call_ (sys_setfsgid gid);
  currUid ← call_ (sys_setfsuid (u32 (-1)));
  currGid ← call_ (sys_setfsgid (u32 (-1)));
  mret (mk_UserCtxSetter uid gid prevUid prevGid currUid currGid).

Definition delete_UserCtxSetter (c : UserCtxSetter) : ST K unit :=
  _ ← call_ (sys_setfsuid (m_prevUid c));
  _ ← call_ (sys_setfsgid (m_prevGid c));
  mret tt.

Definition valid (c : UserCtxSetter) : bool :=
  ((m_uid c =? u32 (-1)) || (m_currUid c =? m_uid c)) &&
  ((m_gid c =? u32 (-1)) || (m_currGid c =? m_gid c)).

(** A scope and the destructor that runs when it is left. *)
Definition at_exit {A} (body : ST K A) (destructor : ST K unit) : ST K A := λ k,
  let '(k', r) := body k in ((destructor k').1, r).

(** The scope of a local [UserCtxSetter]: its destructor runs on every way out. *)
Definition with_userCTX {A} (uid gid : Z) (body : UserCtxSetter → ST K A) : ST K A :=
  c ← new_UserCtxSetter uid gid;
  at_exit (body c) (delete_UserCtxSetter c).

(** What every operation begins with. *)
Definition in_userCTX {A} (uid gid : Z) (body : ST K A) : ST K A :=
  with_userCTX uid gid (λ c, if valid c then body else st_throw (makePosixException EDOM)).

(** ** The operations *)

Record PosixHelper := mk_PosixHelper {
  m_mountPoint : string;
  ph_uid : Z;
  ph_gid : Z;
  m_timeout : Z
}.

(** [operator/] of boost::filesystem::path. *)
Context (path_append : string → string → string) (h : PosixHelper).

Definition root (fileId : string) : string := path_append (m_mountPoint h) fileId.

Definition as_user {A} (body : ST K A) : ST K A := in_userCTX (ph_uid h) (ph_gid h) body.

Definition getattr (fileId : string) : ST K stat :=
  let filePath := root fileId in
  as_user (
    '(res, stbuf, e) ← retry_call_out (sys_lstat filePath);
    if res =? -1 then st_throw (makePosixException e) else mret stbuf).

Definition access (fileId : string) (mask : Z) : ST K unit :=
  let filePath := root fileId in as_user (setResult (sys_access filePath mask)).

(** How many names the stream [d] can still give. *)
Definition names_left (d : Z) : ST K nat := λ k, (k, Value (dir_bound k d)).

(** The loop over the stream [d]; [fuel] bounds the names it has left. *)
Fixpoint readdir_loop (fuel : nat) (d offset_ count_ : Z) (ret : list string) : ST K (list string) :=
  '(dp, _) ← retry_call_ptr (sys_readdir d);
  match dp with
  | None => mret ret
  | Some name =>
      if 0 <? count_ then
        match fuel with
        | O => st_throw runtime_error
        | S fuel' =>
            if negb (bool_decide (name = "."%string)) && negb (bool_decide (name = ".."%string)) then
              if 0 <? offset_ then readdir_loop fuel' d (offset_ - 1) count_ ret
              else readdir_loop fuel' d offset_ (count_ - 1) (ret ++ [name])
            else readdir_loop fuel' d offset_ count_ ret
        end
      else mret ret
  end.

Definition readdir (fileId : string) (offset count : Z) : ST K (list string) :=
  let filePath := root fileId in
  as_user (
    '(dir, e) ← retry_call_ptr (sys_opendir filePath);
    match dir with
    | None => st_throw (makePosixException e)
    | Some d =>
        bound ← names_left d;
        ret ← readdir_loop bound d (i32 offset) (i32 count) [];
        _ ← call_ (sys_closedir d);
        mret ret
    end).

Definition readlink (fileId : string) : ST K string :=
  let filePath := root fileId in
  as_user (
    '(res, target, e) ← retry_call_out (sys_readlink filePath 1023);
    if res =? -1 then st_throw (makePosixException e) else mret target).

(** S_ISREG and S_ISFIFO. *)
Definition S_IFMT : Z := 61440.
Definition S_ISREG (mode : Z) : bool := Z.land mode S_IFMT =? S_IFREG.
Definition S_ISFIFO (mode : Z) : bool := Z.land mode S_IFMT =? S_IFIFO.

Definition mknod (fileId : string) (unmaskedMode : Z) (flags : FlagsSet) (rdev : Z) : ST K unit :=
  let mode := Z.lor unmaskedMode (flagsToMask flags) in
  let filePath := root fileId in
  as_user (
    '(res, e) ← (if S_ISREG mode then
                   '(res, e) ← retry_call (sys_open filePath (Z.lor (Z.lor O_CREAT O_EXCL) O_WRONLY) mode);
                   if 0 <=? res then call (sys_close res) else mret (res, e)
                 else if S_ISFIFO mode then retry_call (sys_mkfifo filePath mode)
                 else retry_call (sys_mknod filePath mode rdev));
    if res =? -1 then st_throw (makePosixException e) else mret tt).

Definition mkdir (fileId : string) (mode : Z) : ST K unit :=
  let filePath := root fileId in as_user (setResult (sys_mkdir filePath mode)).
Definition unlink (fileId : string) (currentSize : Z) : ST K unit :=
  let filePath := root fileId in as_user (setResult (sys_unlink filePath)).
Definition rmdir (fileId : string) : ST K unit :=
  let filePath := root fileId in as_user (setResult (sys_rmdir filePath)).
Definition symlink (from to : string) : ST K unit :=
  let from := root from in let to := root to in as_user (setResult (sys_symlink from to)).
Definition rename (from to : string) : ST K unit :=
  let from := root from in let to := root to in as_user (setResult (sys_rename from to)).
Definition link (from to : string) : ST K unit :=
  let from := root from in let to := root to in as_user (setResult (sys_link from to)).
Definition chmod (fileId : string) (mode : Z) : ST K unit :=
  let filePath := root fileId in as_user (setResult (sys_chmod filePath mode)).
Definition chown (fileId : string) (argUid argGid : Z) : ST K unit :=
  let filePath := root fileId in as_user (setResult (sys_chown filePath argUid argGid)).
Definition truncate (fileId : string) (size currentSize : Z) : ST K unit :=
  let filePath := root fileId in as_user (setResult (sys_truncate filePath size)).

(** The members of a handle but its scheduler. *)
Record PosixFileHandle := mk_PosixFileHandle {
  fh_fileId : string; fh_uid : Z; fh_gid : Z; m_fh : Z
}.

Definition open (fileId : string) (flags : Z) (openParams : Params) : ST K PosixFileHandle :=
  let filePath := root fileId in
  as_user (
    '(res, e) ← retry_call (sys_open filePath flags 0);
    if res =? -1 then st_throw (makePosixException e)
    else mret (mk_PosixFileHandle fileId (ph_uid h) (ph_gid h) res)).

Definition XATTR_SIZE_MAX : Z := 65536.
Definition XATTR_CREATE : Z := 1.
Definition XATTR_REPLACE : Z := 2.

Definition getxattr (fileId name : string) : ST K string :=
  let filePath := root fileId in
  as_user (
    let initialMaxSize := 256 in
    '(res, buf, e) ← retry_call_out (sys_getxattr filePath name (initialMaxSize - 1));
    '(res, buf, e) ← (if (i32 res =? -1) && (e =? ERANGE)
                      then retry_call_out (sys_getxattr filePath name (XATTR_SIZE_MAX - 1))
                      else mret (res, buf, e));
    if i32 res =? -1 then st_throw (makePosixException e) else mret buf).

Definition setxattr (fileId name value : string) (create replace : bool) : ST K unit :=
  let filePath := root fileId in
  as_user (
    if create && replace then st_throw (makePosixException EINVAL)
    else
      let flags := if create then XATTR_CREATE else if replace then XATTR_REPLACE else 0 in
      setResult (sys_setxattr filePath name value flags)).

Definition removexattr (fileId name : string) : ST K unit :=
  let filePath := root fileId in as_user (setResult (sys_removexattr filePath name)).

(** The C string at the head of [s] and what follows its terminator. *)
Fixpoint cstring (s : string) : option (string * string) :=
  match s with
  | EmptyString => None
  | String a s' =>
      if Ascii.eqb a Ascii.zero then Some (EmptyString, s')
      else '(n, r) ← cstring s'; Some (String a n, r)
  end.

(** The loop over the names in the buffer; a name without terminator is read
    past the end.  Each name is at least its terminator. *)
Fixpoint xattr_names (fuel : nat) (buf : string) : Try (list string) :=
  match buf with
  | EmptyString => Value []
  | _ =>
      match fuel, cstring buf with
      | S fuel', Some (name, rest) => names ← xattr_names fuel' rest; Value (name :: names)
      | _, _ => Exception undefined_behaviour
      end
  end.

Definition listxattr (fileId : string) : ST K (list string) :=
  let filePath := root fileId in
  as_user (
    '(buflen, _, e) ← retry_call_out (sys_listxattr filePath 0);
    if buflen =? -1 then st_throw (makePosixException e)
    else if buflen =? 0 then mret []
    else
      '(buflen', buf, e') ← call (sys_listxattr filePath buflen);
      if buflen' =? -1 then st_throw (makePosixException e')
      else st_lift (xattr_names (String.length buf) buf)).

Definition posix_helper : StorageHelper K PosixFileHandle := {|
  sh_getattr := getattr; sh_access := access; sh_readlink := readlink; sh_readdir := readdir;
  sh_mknod := mknod; sh_mkdir := mkdir; sh_unlink := unlink; sh_rmdir := rmdir;
  sh_symlink := symlink; sh_rename := rename; sh_link := link; sh_chmod := chmod;
  sh_chown := chown; sh_truncate := truncate; sh_open := open; sh_getxattr := getxattr;
  sh_setxattr := setxattr; sh_removexattr := removexattr; sh_listxattr := listxattr
|}.

End helper.

(** ** The scope of a user *)

Section scope.
Context {K : Type} `{P : Posix K}.

(** What changes of identity keep, the setter keeps. *)
Definition setid_keeps (Q : K → Prop) : Prop :=
  (∀ k uid, Q k → Q (run_call (sys_setfsuid uid) k).1) ∧
  (∀ k gid, Q k → Q (run_call (sys_setfsgid gid) k).1).

Lemma setid_keeps_call (Q : K → Prop) (id : Z) :
  setid_keeps Q → st_keeps Q (call_ (sys_setfsuid id)) ∧ st_keeps Q (call_ (sys_setfsgid id)).
Proof.
  intros [Hu Hg]. split; intros k Hk; unfold call_.
  - specialize (Hu k id Hk). by destruct (run_call _ k).
  - specialize (Hg k id Hk). by destruct (run_call _ k).
Qed.

Lemma setid_keeps_new (Q : K → Prop) (uid gid : Z) :
  setid_keeps Q → st_keeps Q (new_UserCtxSetter uid gid).
Proof.
  intros HQ. unfold new_UserCtxSetter. st_keeps_steps; by apply setid_keeps_call.
Qed.

Lemma setid_keeps_delete (Q : K → Prop) (c : UserCtxSetter) :
  setid_keeps Q → st_keeps Q (delete_UserCtxSetter c).
Proof.
  intros HQ. unfold delete_UserCtxSetter. st_keeps_steps; by apply setid_keeps_call.
Qed.

Context `{!PosixIdLaws K}.

(** The identity an operation asks for, and whether the thread may have it. *)
Definition asked (k : K) (uid gid : Z) : identity :=
  ((if uid =? NO_ID then (creds k).1 else uid), (if gid =? NO_ID then (creds k).2 else gid)).
Definition permitted (k : K) (uid gid : Z) : bool :=
  ((uid =? NO_ID) || may_setfsuid k uid || (uid =? (creds k).1)) &&
  ((gid =? NO_ID) || may_setfsgid k gid || (gid =? (creds k).2)).

(** The thread may take its own identity again. *)
Definition may_return (k : K) : Prop :=
  may_setfsuid k (creds k).1 = true ∧ may_setfsgid k (creds k).2 = true.

Definition same_rights (k k' : K) : Prop :=
  may_setfsuid k' = may_setfsuid k ∧ may_setfsgid k' = may_setfsgid k.

Lemma new_UserCtxSetter_spec (uid gid : Z) (k : K) :
  ∃ k' c, new_UserCtxSetter uid gid k = (k', Value c) ∧ same_rights k k' ∧
    valid c = permitted k uid gid ∧ (valid c = true → creds k' = asked k uid gid) ∧
    m_prevUid c = (creds k).1 ∧ m_prevGid c = (creds k).2.
Proof.
  destruct (setfsuid_value k uid) as (k1 & H1 & C1 & U1 & G1).
  destruct (setfsgid_value k1 gid) as (k2 & H2 & C2 & U2 & G2).
  destruct (setfsuid_value k2 NO_ID) as (k3 & H3 & C3 & U3 & G3).
  destruct (setfsgid_value k3 NO_ID) as (k4 & H4 & C4 & U4 & G4).
  eexists k4, _. unfold new_UserCtxSetter, call_, mbind, ST_bind.
  change (u32 (-1)) with NO_ID. rewrite H1, H2, H3, H4. split; [done|].
  rewrite may_setfsuid_none in C3. rewrite may_setfsgid_none in C4.
  rewrite C3 in *. rewrite C2 in *. rewrite C1 in *. simpl in *. rewrite G1 in *.
  unfold valid, same_rights, permitted, asked. simpl. change (u32 (-1)) with NO_ID.
  split; [split; congruence|]. rewrite C4.
  pose proof (may_setfsuid_none k). pose proof (may_setfsgid_none k).
  split_and!; [|intros Hv; simpl|done..].
  - f_equal.
    + destruct (Z.eqb_spec uid NO_ID); [done|]. destruct (may_setfsuid k uid); simpl; lia.
    + destruct (Z.eqb_spec gid NO_ID); [done|]. destruct (may_setfsgid k gid); simpl; lia.
  - destruct (Z.eqb_spec uid NO_ID) as [->|]; destruct (Z.eqb_spec gid NO_ID) as [->|];
      destruct (may_setfsuid k _) eqn:?; destruct (may_setfsgid k _) eqn:?; reflect_bools; simpl in *;
      congruence || (f_equal; lia).
Qed.

Lemma delete_UserCtxSetter_spec (c : UserCtxSetter) (k : K) :
  may_setfsuid k (m_prevUid c) = true → may_setfsgid k (m_prevGid c) = true →
  creds (delete_UserCtxSetter c k).1 = (m_prevUid c, m_prevGid c).
Proof.
  intros Hu Hg. unfold delete_UserCtxSetter, call_, mbind, ST_bind.
  destruct (setfsuid_value k (m_prevUid c)) as (k1 & H1 & C1 & U1 & G1).
  destruct (setfsgid_value k1 (m_prevGid c)) as (k2 & H2 & C2 & U2 & G2).
  rewrite H1, H2. simpl. by rewrite C2, C1, G1, Hu, Hg.
Qed.

(** When it may act as the user, an operation is its body, run in a state that
    agrees with [k] on all that changes of identity keep. *)
Lemma in_userCTX_body {A} (uid gid : Z) (body : ST K A) (k : K) :
  permitted k uid gid = true →
  ∃ k1 c, in_userCTX uid gid body k = ((delete_UserCtxSetter c (body k1).1).1, (body k1).2) ∧
    ∀ Q, setid_keeps Q → Q k → Q k1.
Proof.
  intros Hp. destruct (new_UserCtxSetter_spec uid gid k) as (k1 & c & Hnew & _ & Hv & _).
  exists k1, c. split.
  - unfold in_userCTX, with_userCTX. rewrite (st_bind_value _ _ _ _ _ Hnew). unfold at_exit.
    rewrite Hv, Hp. by destruct (body k1).
  - intros Q HQ Hk. pose proof (setid_keeps_new Q uid gid HQ k Hk) as Hk1. by rewrite Hnew in Hk1.
Qed.

End scope.

(** ** Directories *)

Section directories.
Context {K : Type} `{P : Posix K} `{!PosixIdLaws K, !PosixDirLaws K}.

Definition listed (name : string) : Prop := name ≠ "."%string ∧ name ≠ ".."%string.

(** The part of a listing that was asked for. *)
Definition page (offset count : Z) (names : list string) : list string :=
  take (Z.to_nat count) (drop (Z.to_nat offset) (filter listed names)).

Lemma retry_readdir (k : K) (d : Z) (l : list string) :
  stream_names k d = Some l →
  ∃ k' e, retry_call_ptr (sys_readdir d) k = (k', Value (head l, e)) ∧ stream_names k' d = Some (tail l).
Proof.
  intros Hl. destruct l as [|name l].
  - destruct (retry_ind (call (sys_readdir d)) (λ r, bool_decide (r.1 ≠ None) || negb (retry_error r.2))
      IO_RETRY_COUNT (λ k, stream_names k d = Some []) (λ _ r, r.1 = None) k) as (k' & [dp e] & Hr & Hk' & Hdp);
      [|done|].
    + intros k1 Hk1. destruct (readdir_value k1 d [] Hk1) as (k2 & Hr & Hk2 & _).
      unfold call. rewrite Hr. by eexists _, _.
    + simpl in Hdp. subst dp. by exists k', e.
  - destruct (readdir_value k d _ Hl) as (k' & Hr & Hk' & _). exists k', (errno k'). split; [|done].
    apply retry_done; [unfold call; by rewrite Hr|done].
Qed.

Lemma readdir_loop_page (fuel : nat) (d offset_ count_ : Z) (ret l : list string) (k : K) :
  stream_names k d = Some l → (length l ≤ fuel)%nat →
  ∃ k', readdir_loop fuel d offset_ count_ ret k = (k', Value (ret ++ page offset_ count_ l)).
Proof.
  revert offset_ count_ ret l k. induction fuel as [|fuel IH]; intros offset_ count_ ret l k Hl Hlen;
    destruct (retry_readdir k d l Hl) as (k1 & e & Hr & Hl1); simpl;
    rewrite (st_bind_value _ _ _ _ _ Hr); destruct l as [|name l]; simpl in *; try lia.
  1, 2: exists k1; unfold page; by rewrite filter_nil, drop_nil, take_nil, app_nil_r.
  destruct (Z.ltb_spec 0 count_) as [Hc|Hc].
  2: { exists k1. unfold page. by rewrite (Z2Nat.nonpos count_) by lia; rewrite take_0, app_nil_r. }
  unfold page. destruct (decide (listed name)) as [Hname|Hname].
  - rewrite !bool_decide_eq_false_2 by apply Hname. rewrite filter_cons_True by done. simpl.
    destruct (Z.ltb_spec 0 offset_) as [Ho|Ho].
    + destruct (IH (offset_ - 1) count_ ret l k1 Hl1 ltac:(lia)) as (k' & ->). exists k'.
      unfold page. replace (Z.to_nat offset_) with (S (Z.to_nat (offset_ - 1))) by lia. done.
    + destruct (IH offset_ (count_ - 1) (ret ++ [name]) l k1 Hl1 ltac:(lia)) as (k' & ->). exists k'.
      unfold page. rewrite (Z2Nat.nonpos offset_) by lia. rewrite !drop_0.
      replace (Z.to_nat count_) with (S (Z.to_nat (count_ - 1))) by lia. by rewrite <-app_assoc.
  - rewrite filter_cons_False by done.
    assert (negb (bool_decide (name = "."%string)) && negb (bool_decide (name = ".."%string)) = false) as ->.
    { unfold listed in Hname. repeat case_bool_decide; simpl; tauto. }
    destruct (IH offset_ count_ ret l k1 Hl1 ltac:(lia)) as (k' & ->). by exists k'.
Qed.

Lemma readdir_narrowed (path_append : string → string → string) (h : PosixHelper) (fileId : string)
    (offset count : Z) (names : list string) (k : K) :
  permitted k (ph_uid h) (ph_gid h) = true →
  dir_names k (root path_append h fileId) = Some names →
  (readdir path_append h fileId offset count k).2 = Value (page (i32 offset) (i32 count) names).
Proof.
  intros Hp Hdir. unfold readdir, as_user.
  match goal with |- (in_userCTX _ _ ?body _).2 = _ =>
    destruct (in_userCTX_body _ _ body k Hp) as (k1 & c & -> & HQ) end. simpl.
  assert (dir_names k1 = dir_names k) as Hd1.
  { apply (HQ (λ k', dir_names k' = dir_names k)); [|done].
    split; intros; [rewrite setfsuid_dir|rewrite setfsgid_dir]; done. }
  rewrite <-Hd1 in Hdir. destruct (opendir_value k1 _ _ Hdir) as (k2 & d & Hopen & Hnames & _).
  assert (retry_call_ptr (sys_opendir (root path_append h fileId)) k1 = (k2, Value (Some d, errno k2))) as Hr.
  { apply retry_done; [unfold call; by rewrite Hopen|done]. }
  rewrite (st_bind_value _ _ _ _ _ Hr). cbv beta iota.
  erewrite (st_bind_value (names_left d)) by done.
  destruct (readdir_loop_page (dir_bound k2 d) d (i32 offset) (i32 count) [] names k2 Hnames)
    as (k3 & Hloop); [by apply dir_bound_names|].
  rewrite (st_bind_value _ _ _ _ _ Hloop). unfold call_ at 1. unfold mbind, ST_bind.
  by destruct (run_call (sys_closedir d) k3).
Qed.

(** A count with the top bit of an [int] set is a negative number: nothing is
    listed. *)
Lemma readdir_large_count (path_append : string → string → string) (h : PosixHelper) (fileId : string)
    (offset count : Z) (names : list string) (k : K) :
  permitted k (ph_uid h) (ph_gid h) = true →
  dir_names k (root path_append h fileId) = Some names →
  2147483648 <= count < 4294967296 →
  (readdir path_append h fileId offset count k).2 = Value [].
Proof.
  intros Hp Hdir Hc. rewrite (readdir_narrowed _ _ _ _ _ names) by done. unfold page.
  rewrite (Z2Nat.nonpos (i32 count)) by (unfold i32; zlia). done.
Qed.

(** A listing of a directory returns, of its names but "." and "..", in the
    order of the directory stream, [count] ones after the first [offset], or as
    many as there are; for offsets and counts that fit in an [int]. *)
Lemma posix_readdir_page (path_append : string → string → string) (h : PosixHelper) (fileId : string)
    (offset count : Z) (names : list string) (k : K) :
  permitted k (ph_uid h) (ph_gid h) = true →
  dir_names k (root path_append h fileId) = Some names →
  0 <= offset < 2147483648 → 0 <= count < 2147483648 →
  (readdir path_append h fileId offset count k).2
  = Value (take (Z.to_nat count) (drop (Z.to_nat offset)
             (filter (λ name, name ≠ "."%string ∧ name ≠ ".."%string) names))).
Proof.
  intros Hp Hdir Ho Hc. rewrite (readdir_narrowed _ _ _ _ _ names) by done. by rewrite !i32_small by lia.
Qed.

End directories.

(** ** Extended attributes *)

Section xattrs.
Context {K : Type} `{P : Posix K} `{!PosixIdLaws K, !PosixXattrLaws K}.

Lemma setid_keeps_xattr (path name : string) (v : option string) :
  setid_keeps (λ k : K, xattr k path name = v).
Proof. split; intros k id Hk; [rewrite setfsuid_xattr|rewrite setfsgid_xattr]; done. Qed.

Lemma retry_setxattr (path name value : string) (flags : Z) (k : K) :
  ∃ k' r e, retry_call (sys_setxattr path name value flags) k = (k', Value (r, e)) ∧
    (0 <= r → xattr k' path name = Some value).
Proof.
  destruct (retry_ind (call (sys_setxattr path name value flags)) (λ r, POSIXRetryCondition r.1 r.2)
    IO_RETRY_COUNT (λ _, True) (λ k' r, 0 <= r.1 → xattr k' path name = Some value) k)
    as (k' & [r e] & Hr & _ & Hx); [|done|by exists k', r, e].
  intros k1 _. unfold call. destruct (run_call _ k1) as [k2 r] eqn:Hr. eexists _, _. split; [done|].
  split; [done|]. intros Hr0. by eapply setxattr_value.
Qed.

Lemma setxattr_stores (path_append : string → string → string) (h : PosixHelper)
    (fileId name value : string) (create replace : bool) (k k' : K) :
  permitted k (ph_uid h) (ph_gid h) = true →
  setxattr path_append h fileId name value create replace k = (k', Value tt) →
  xattr k' (root path_append h fileId) name = Some value.
Proof.
  intros Hp. unfold setxattr, as_user.
  match goal with |- in_userCTX _ _ ?body _ = _ → _ =>
    destruct (in_userCTX_body _ _ body k Hp) as (k1 & c & -> & _) end.
  destruct (create && replace); [done|]. unfold setResult.
  set (flags := if create then _ else _).
  destruct (retry_setxattr (root path_append h fileId) name value flags k1) as (k2 & r & e & Hr & Hx).
  rewrite (st_bind_value _ _ _ _ _ Hr). destruct (Z.ltb_spec r 0); [done|]. simpl.
  intros [= <-]. apply (setid_keeps_delete _ c (setid_keeps_xattr _ _ _)). by apply Hx.
Qed.

(** A read into a buffer of [size] bytes. *)
Lemma retry_getxattr (path name value : string) (size : Z) (k : K) :
  xattr k path name = Some value → 0 <= size < 2147483648 →
  ∃ k' r e, retry_call_out (sys_getxattr path name size) k = (k', Value (r, e)) ∧ xattr k' = xattr k ∧
    if slength value <=? size then r = (slength value, value) else r.1 = -1 ∧ e = ERANGE.
Proof.
  intros Hx Hsize. destruct (getxattr_value k path name value size Hx ltac:(lia)) as (k' & r & Hr & Hx' & Hres).
  exists k', r, (errno k'). split; [|by destruct (slength value <=? size)].
  apply retry_done; [unfold call; by rewrite Hr|]. unfold POSIXRetryCondition. simpl.
  destruct (Z.leb_spec (slength value) size).
  - subst r. unfold slength in *. simpl. rewrite i32_small by lia. lia.
  - destruct Hres as [-> ->]. done.
Qed.

(** The value of an attribute, through the small buffer or the large one. *)
Lemma getxattr_result (path_append : string → string → string) (h : PosixHelper)
    (fileId name value : string) (k : K) :
  permitted k (ph_uid h) (ph_gid h) = true →
  xattr k (root path_append h fileId) name = Some value →
  (getxattr path_append h fileId name k).2
  = if slength value <? XATTR_SIZE_MAX then Value value else Exception (makePosixException ERANGE).
Proof.
  intros Hp Hx. unfold getxattr, as_user.
  match goal with |- (in_userCTX _ _ ?body _).2 = _ =>
    destruct (in_userCTX_body _ _ body k Hp) as (k1 & c & -> & HQ) end. cbv zeta.
  apply (HQ _ (setid_keeps_xattr _ _ _)) in Hx.
  destruct (retry_getxattr _ _ _ (256 - 1) k1 Hx ltac:(lia)) as (k2 & [r b] & e & Hr & Hx2 & Hres).
  rewrite (st_bind_value _ _ _ _ _ Hr). cbn [fst snd]. unfold XATTR_SIZE_MAX.
  assert (0 <= slength value) by (unfold slength; lia).
  destruct (Z.leb_spec (slength value) (256 - 1)).
  - injection Hres as -> ->. rewrite i32_small by lia.
    rewrite (proj2 (Z.eqb_neq (slength value) (-1))) by lia. simpl. unfold mbind, ST_bind. simpl.
    rewrite i32_small by lia. rewrite (proj2 (Z.eqb_neq (slength value) (-1))) by lia.
    by rewrite (proj2 (Z.ltb_lt (slength value) 65536)) by lia.
  - simpl in Hres. destruct Hres as [-> ->]. change ((i32 (-1) =? -1) && (ERANGE =? ERANGE)) with true.
    rewrite <-Hx2 in Hx.
    destruct (retry_getxattr _ _ _ (65536 - 1) k2 Hx ltac:(lia)) as (k3 & [r' b'] & e' & Hr' & _ & Hres').
    rewrite (st_bind_value _ _ _ _ _ Hr'). cbn [fst snd].
    destruct (Z.leb_spec (slength value) (65536 - 1)).
    + injection Hres' as -> ->. rewrite i32_small by lia.
      rewrite (proj2 (Z.eqb_neq (slength value) (-1))) by lia.
      by rewrite (proj2 (Z.ltb_lt (slength value) 65536)) by lia.
    + simpl in Hres'. destruct Hres' as [-> ->].
      by rewrite (proj2 (Z.ltb_ge (slength value) 65536)) by lia.
Qed.

(** An extended attribute that was set is read back.  The value is returned
    when it is shorter than XATTR_SIZE_MAX, whichever of the two buffers it
    needs; a value of exactly the size that the system allows is refused with
    ERANGE, for the buffer is given to the call as one byte shorter. *)
Lemma posix_xattr_roundtrip (path_append : string → string → string) (h : PosixHelper)
    (fileId name value : string) (create replace : bool) (k k' : K) :
  permitted k (ph_uid h) (ph_gid h) = true → permitted k' (ph_uid h) (ph_gid h) = true →
  setxattr path_append h fileId name value create replace k = (k', Value tt) →
  (getxattr path_append h fileId name k').2
  = if slength value <? XATTR_SIZE_MAX then Value value else Exception (makePosixException ERANGE).
Proof. intros Hp Hp' Hset. apply getxattr_result; [done|]. exact (setxattr_stores _ _ _ _ _ _ _ k k' Hp Hset). Qed.

(** The list of names is the names that the buffer holds, each with its
    terminator. *)
Fixpoint no_zero (s : string) : bool :=
  match s with EmptyString => true | String a s' => negb (Ascii.eqb a Ascii.zero) && no_zero s' end.

Definition terminated (name rest : string) : string := String.append name (String Ascii.zero rest).

Lemma cstring_terminated (name rest : string) :
  no_zero name = true → cstring (terminated name rest) = Some (name, rest).
Proof.
  unfold terminated. induction name as [|a name IH]; [done|]. intros Hz.
  change (String.append (String a name) ?r) with (String a (String.append name r)). simpl in Hz |- *.
  apply andb_true_iff in Hz as [Ha Hz]. apply negb_true_iff in Ha. rewrite Ha. by rewrite IH.
Qed.

Lemma xattr_names_terminated (names : list string) (fuel : nat) :
  Forall (λ n, no_zero n = true) names → (length names ≤ fuel)%nat →
  xattr_names fuel (foldr terminated EmptyString names) = Value names.
Proof.
  revert fuel. induction names as [|name names IH]; intros fuel Hall Hfuel; [by destruct fuel|].
  apply Forall_cons in Hall as [Hz Hall]. destruct fuel as [|fuel]; simpl in Hfuel; [lia|]. simpl.
  assert (∃ a s, terminated name (foldr terminated EmptyString names) = String a s) as (a & s & Hs).
  { destruct name; by eexists _, _. }
  rewrite cstring_terminated by done. rewrite Hs. rewrite IH by (done || lia). done.
Qed.

End xattrs.

(** ** Who makes the calls

    A kernel that also writes down, for each call but the changes of identity,
    the identity it is made with. *)

Section logged.
Context {K : Type} `{PL : PosixIdLaws K}.

#[export] Instance logged_Posix : Posix (K * list identity) := {|
  run_call A c s :=
    let '(k', a) := run_call c s.1 in ((k', if is_setid c then s.2 else s.2 ++ [creds s.1]), a);
  errno s := errno s.1;
  dir_bound s := dir_bound s.1
|}.

(** The thread is [c], may become what it may in [k], and every call since
    [log0] was made as [c]. *)
Definition acts_as (k : K) (log0 : list identity) (c : identity) (s : K * list identity) : Prop :=
  creds s.1 = c ∧ may_setfsuid s.1 = may_setfsuid k ∧ may_setfsgid s.1 = may_setfsgid k ∧
  ∃ l, s.2 = log0 ++ l ∧ Forall (λ d, d = c) l.

Lemma acts_as_call {A} (k : K) (log0 : list identity) (c : identity) (sc : syscall A) :
  is_setid sc = false → st_keeps (acts_as k log0 c) (call sc) ∧ st_keeps (acts_as k log0 c) (call_ sc).
Proof.
  intros Hsc. assert (∀ s, acts_as k log0 c s → acts_as k log0 c (run_call sc s).1) as Hrun.
  { intros [k1 log] (Hc & Hu & Hg & l & Hl & Hall). simpl in *.
    pose proof (call_keeps_creds A sc k1 Hsc) as (Hc' & Hu' & Hg').
    destruct (run_call sc k1) as [k2 a]. rewrite Hsc. simpl in *. unfold acts_as. simpl. subst log.
    split_and!; [congruence..|]. exists (l ++ [creds k1]).
    rewrite app_assoc. split; [done|]. by apply Forall_app_2, Forall_singleton. }
  split; intros s Hs; specialize (Hrun s Hs); unfold call, call_;
    by destruct (run_call sc s) as [s' a].
Qed.

Lemma acts_as_calls {A} (k : K) (log0 : list identity) (c : identity) (sc : syscall A) :
  is_setid sc = false → st_keeps (acts_as k log0 c) (call sc).
Proof. intros Hsc. by apply acts_as_call. Qed.
Lemma acts_as_calls_ {A} (k : K) (log0 : list identity) (c : identity) (sc : syscall A) :
  is_setid sc = false → st_keeps (acts_as k log0 c) (call_ sc).
Proof. intros Hsc. by apply acts_as_call. Qed.

Hint Extern 1 (is_setid _ = false) => reflexivity : keeps.
Hint Resolve acts_as_calls acts_as_calls_ : keeps.
Hint Extern 2 (st_keeps _ (retry_call _)) => unfold retry_call : keeps.
Hint Extern 2 (st_keeps _ (retry_call_out _)) => unfold retry_call_out : keeps.
Hint Extern 2 (st_keeps _ (retry_call_ptr _)) => unfold retry_call_ptr : keeps.

Lemma acts_as_names_left (k : K) (log0 : list identity) (c : identity) (d : Z) :
  st_keeps (acts_as k log0 c) (names_left d).
Proof. by intros s. Qed.
Hint Resolve acts_as_names_left : keeps.

Lemma acts_as_setResult (k : K) (log0 : list identity) (c : identity) (sc : syscall Z) :
  is_setid sc = false → st_keeps (acts_as k log0 c) (setResult sc).
Proof. intros Hsc. unfold setResult. st_keeps_steps. Qed.
Hint Resolve acts_as_setResult : keeps.

Lemma acts_as_readdir_loop (k : K) (log0 : list identity) (c : identity) (fuel : nat) (d offset_ count_ : Z)
    (ret : list string) :
  st_keeps (acts_as k log0 c) (readdir_loop fuel d offset_ count_ ret).
Proof.
  revert offset_ count_ ret. induction fuel as [|fuel IH]; intros; simpl; st_keeps_steps; auto.
Qed.
Hint Resolve acts_as_readdir_loop : keeps.

#[export] Instance logged_IdLaws : PosixIdLaws (K * list identity).
Proof.
  refine {| creds s := creds s.1; may_setfsuid s := may_setfsuid s.1; may_setfsgid s := may_setfsgid s.1 |}.
  - intros [k log] uid. destruct (setfsuid_value k uid) as (k' & Hr & Hlaws).
    exists (k', log). simpl. by rewrite Hr.
  - intros [k log] gid. destruct (setfsgid_value k gid) as (k' & Hr & Hlaws).
    exists (k', log). simpl. by rewrite Hr.
  - intros [k log]. apply may_setfsuid_none.
  - intros [k log]. apply may_setfsgid_none.
  - intros A c [k log] Hc. pose proof (call_keeps_creds A c k Hc) as Hk. simpl in *.
    by destruct (run_call c k).
Defined.

Lemma setid_keeps_log (log0 : list identity) : setid_keeps (λ s : K * list identity, s.2 = log0).
Proof. split; intros [k log] id Hl; simpl in *; by destruct (run_call _ k). Qed.

(** An operation acts as the user that was asked for, or does nothing. *)
Lemma in_userCTX_logged {A} (uid gid : Z) (body : ST (K * list identity) A) (k : K) :
  may_return k → (∀ k1 c, st_keeps (acts_as k1 [] c) body) →
  let s := in_userCTX uid gid body (k, []) in
  creds s.1.1 = creds k ∧
  if permitted k uid gid then Forall (λ d, d = asked k uid gid) s.1.2
  else s.1.2 = [] ∧ s.2 = Exception (makePosixException EDOM).
Proof.
  intros [Hu Hg] Hbody.
  destruct (new_UserCtxSetter_spec uid gid (k, [])) as ([k1 log1] & c & Hnew & [Hu1 Hg1] & Hv & Hc & Hpu & Hpg).
  pose proof (setid_keeps_new _ uid gid (setid_keeps_log []) (k, []) eq_refl) as Hlog.
  rewrite Hnew in Hlog. simpl in *. subst log1.
  unfold in_userCTX, with_userCTX. rewrite (st_bind_value _ _ _ _ _ Hnew). unfold at_exit.
  change (permitted (k, []) uid gid) with (permitted k uid gid) in Hv. rewrite Hv in *.
  assert (∀ s, same_rights k s.1 → creds (delete_UserCtxSetter c s).1.1 = creds k) as Hback.
  { intros s [Hsu Hsg]. pose proof (delete_UserCtxSetter_spec c s) as Hd. simpl in Hd.
    rewrite Hpu, Hpg in Hd. rewrite Hd; [by destruct (creds k)|by rewrite Hsu|by rewrite Hsg]. }
  assert (∀ s, (delete_UserCtxSetter c s).1.2 = s.2) as Hdlog
    by (intros s; by apply (setid_keeps_delete _ c (setid_keeps_log s.2))).
  destruct (permitted k uid gid).
  - specialize (Hc eq_refl). change (asked (k, []) uid gid) with (asked k uid gid) in Hc.
    destruct (Hbody k1 (asked k uid gid) (k1, [])) as (_ & Hu2 & Hg2 & l & Hl & Hall).
    { split_and!; [done..|]. by exists []. }
    destruct (body (k1, [])) as [s r]. simpl in *. rewrite Hdlog, Hl. split; [|done].
    apply Hback. split; congruence.
  - simpl. rewrite Hdlog. split; [by apply Hback|done].
Qed.

(** C21: the calls of an operation of the helper are made as the user and group
    the helper was created for, or, when the thread may not take that identity,
    none is made and the operation fails with EDOM; and after every operation,
    however it ends, the thread has the identity it had before. *)
Theorem posix_user_context {A} (path_append : string → string → string) (h : PosixHelper)
    (c : helper_call PosixFileHandle A) (k : K) :
  may_return k →
  let s := perform (posix_helper path_append h) c (k, []) in
  creds s.1.1 = creds k ∧
  if permitted k (ph_uid h) (ph_gid h)
  then Forall (λ d, d = asked k (ph_uid h) (ph_gid h)) s.1.2
  else s.1.2 = [] ∧ s.2 = Exception (makePosixException EDOM).
Proof.
  intros Hk. destruct c; simpl; apply in_userCTX_logged; try done; intros; st_keeps_steps.
Qed.

End logged.

(** ** A sample system *)

Definition slash_append (p q : string) : string := String.append p (String.append "/" q).
Definition sample_helper : PosixHelper := mk_PosixHelper "/mnt" 1000 100 120000.
Definition sample_kernel : memory_kernel :=
  mk_memory_kernel 0 (0, 0) {[0; 1000]} {[0; 100]} {[3 := ([], 0)]}
    {["/mnt/d"%string := ["."; "a"; ".."; "b"; "c"]%string]} ∅ ∅ 65536.

Lemma posix_user_context_witness :
  let s := perform (posix_helper slash_append sample_helper) (call_mkdir "e" 493) (sample_kernel, []) in
  creds s.1.1 = creds sample_kernel ∧
  if permitted sample_kernel (ph_uid sample_helper) (ph_gid sample_helper)
  then Forall (λ d, d = asked sample_kernel (ph_uid sample_helper) (ph_gid sample_helper)) s.1.2
  else s.1.2 = [] ∧ s.2 = Exception (makePosixException EDOM).
Proof.
  apply (posix_user_context slash_append sample_helper (call_mkdir "e" 493) sample_kernel).
  split; reflexivity.
Defined.

Definition sample_attribute : memory_kernel * Try unit :=
  setxattr slash_append sample_helper "f" "user.n" "v" false false sample_kernel.

