(* ===== verification/WriteBuffer.v ===== *)
(** * Write buffering (src/src/buffering/writeBuffer.h)

    Writes are collected, adjacent ones joined, and pushed as one batch when
    they exceed a threshold, on a timer, or on [fsync].  The batches form the
    chain [m_writeFuture]: they run one after the other, at any time after
    they were pushed.  A batch's promise is kept by its number; a future that
    [write] and [fsync] return is the list of the promises it waits for.  The
    specification is the file that applies every write at once. *)

From stdpp Require Import base numbers list gmap.
From Stdlib Require Import ZArith Lia Strings.Byte.
From S2P Require Import Prelude Storage.
Local Open Scope Z_scope.

(** A pushed batch: its promise, its buffers and their size. *)
Record batch := mk_batch {
  batch_promise : nat;
  batch_buffers : list write_op;
  batch_sentSize : Z
}.

Record WriteBuffer := mk_WriteBuffer {
  m_bufferedSize : Z;
  m_nextOffset : Z;
  m_buffers : list write_op;
  m_bps : Z;
  m_pendingConfirmation : Z;
  m_confirmationFutures : list (Z * nat);
  m_writeFuture : list batch;
  wb_promises : gmap nat (Try unit);
  wb_nextPromise : nat
}.

Definition new_WriteBuffer : WriteBuffer := mk_WriteBuffer 0 0 [] 0 0 [] [] ∅ 0.

Section buffer.
Context (m_writeBufferMinSize m_writeBufferMaxSize : Z).

Definition calculateFlushThreshold (wb : WriteBuffer) : Z :=
  Z.min m_writeBufferMaxSize (Z.max m_writeBufferMinSize (u64 (2 * m_bps wb))).
Definition calculateConfirmThreshold (wb : WriteBuffer) : Z :=
  u64 (6 * calculateFlushThreshold wb).

(** Adding a buffer: to the last one when it continues it. *)
Definition add_buffer (wb : WriteBuffer) (offset : Z) (buf : bytes) : list write_op :=
  match last (m_buffers wb) with
  | None => [(offset, buf)]
  | Some (o, b) =>
      if negb (m_nextOffset wb =? offset) then m_buffers wb ++ [(offset, buf)]
      else removelast (m_buffers wb) ++ [(o, b ++ buf)]
  end.

Definition pushBuffer (wb : WriteBuffer) : WriteBuffer :=
  if m_bufferedSize wb =? 0 then wb
  else
    let sentSize := m_bufferedSize wb in
    let p := wb_nextPromise wb in
    mk_WriteBuffer 0 (m_nextOffset wb) [] (m_bps wb)
      (u64 (m_pendingConfirmation wb + sentSize))
      (m_confirmationFutures wb ++ [(sentSize, p)])
      (m_writeFuture wb ++ [mk_batch p (m_buffers wb) sentSize])
      (wb_promises wb) (S p).

(** The loop of [confirm]; [None] is [front()] of an empty queue.  Every
    iteration pops one entry. *)
Fixpoint confirm_loop (threshold pending : Z) (futures : list (Z * nat))
  : option (list nat * Z * list (Z * nat)) :=
  if threshold <? pending then
    match futures with
    | [] => None
    | (size, p) :: futures' =>
        '(ids, pending', rest) ← confirm_loop threshold (u64 (pending - size)) futures';
        Some (p :: ids, pending', rest)
    end
  else Some ([], pending, futures).

Definition confirm (threshold : Z) (wb : WriteBuffer) : option (WriteBuffer * list nat) :=
  '(ids, pending, futures) ← confirm_loop threshold (m_pendingConfirmation wb)
                               (m_confirmationFutures wb);
  Some (mk_WriteBuffer (m_bufferedSize wb) (m_nextOffset wb) (m_buffers wb) (m_bps wb)
          pending futures (m_writeFuture wb) (wb_promises wb) (wb_nextPromise wb), ids).

Definition confirmOverThreshold (wb : WriteBuffer) : option (WriteBuffer * list nat) :=
  confirm (calculateConfirmThreshold wb) wb.
Definition confirmAll (wb : WriteBuffer) : option (WriteBuffer * list nat) := confirm 0 wb.

(** [write]: the size it will return, and what its future waits for. *)
Definition write (offset : Z) (buf : bytes) (wb : WriteBuffer)
  : option (WriteBuffer * (Z * list nat)) :=
  let size := chainLength buf in
  let wb := mk_WriteBuffer (u64 (m_bufferedSize wb + size)) (i64 (offset + size))
              (add_buffer wb offset buf) (m_bps wb) (m_pendingConfirmation wb)
              (m_confirmationFutures wb) (m_writeFuture wb) (wb_promises wb)
              (wb_nextPromise wb) in
  if calculateFlushThreshold wb <? m_bufferedSize wb then
    '(wb, ids) ← confirmOverThreshold (pushBuffer wb); Some (wb, (size, ids))
  else Some (wb, (size, [])).

Definition fsync (wb : WriteBuffer) : option (WriteBuffer * list nat) :=
  confirmAll (pushBuffer wb).

(** The callback of [scheduleFlush]. *)
Definition timerFlush (wb : WriteBuffer) : WriteBuffer := pushBuffer wb.

(** [collectAll] of a list of promises, then the first exception. *)
Fixpoint await (promises : gmap nat (Try unit)) (ids : list nat) : option (Try unit) :=
  match ids with
  | [] => Some (Value tt)
  | p :: ids' =>
      t ← promises !! p;
      r ← await promises ids';
      Some (match t with Value _ => r | Exception e => Exception e end)
  end.

(** ** The chain of batches *)

Definition bandwidth (sentSize duration : Z) : Z := u64 (sentSize * 1000000000) / duration.
Definition adjust_bps (bps sentSize duration : Z) : Z :=
  if 0 <? duration then u64 (bps * 1 + bandwidth sentSize duration * 2) / 3 else bps.

(** The continuations of the first batch of the chain, when it took
    [duration] nanoseconds: the batch is written, the average bandwidth
    adjusted, the read cache told to clear (the result's flag) and the promise
    fulfilled. *)
Definition runBatch {H} `{!FileHandle H} (duration : Z) (wb : WriteBuffer) (h : H)
  : WriteBuffer * H * bool :=
  match m_writeFuture wb with
  | [] => (wb, h, false)
  | b :: chain =>
      let '(h', r) := multiwrite (batch_buffers b) h in
      match r with
      | Value _ =>
          (mk_WriteBuffer (m_bufferedSize wb) (m_nextOffset wb) (m_buffers wb)
             (adjust_bps (m_bps wb) (batch_sentSize b) duration)
             (m_pendingConfirmation wb) (m_confirmationFutures wb) chain
             (<[batch_promise b := Value tt]> (wb_promises wb)) (wb_nextPromise wb), h', true)
      | Exception e =>
          (mk_WriteBuffer (m_bufferedSize wb) (m_nextOffset wb) (m_buffers wb) (m_bps wb)
             (m_pendingConfirmation wb) (m_confirmationFutures wb) chain
             (<[batch_promise b := Exception e]> (wb_promises wb)) (wb_nextPromise wb), h', false)
      end
  end.

(** The batches that are left when the buffer is gone fail with owner_dead. *)
Fixpoint abandon (chain : list batch) (promises : gmap nat (Try unit)) : gmap nat (Try unit) :=
  match chain with
  | [] => promises
  | b :: chain' =>
      abandon chain' (<[batch_promise b := Exception (system_error (make_error_code EOWNERDEAD))]> promises)
  end.

(** ** Histories *)

Inductive wb_op :=
| OpWrite (offset : Z) (buf : bytes)
| OpFsync
| OpTimer
| OpRun (duration : Z).

(** One step: the state, and the promises that the caller's future waits for. *)
Definition exec {H} `{!FileHandle H} (op : wb_op) (wb : WriteBuffer) (h : H)
  : option (WriteBuffer * H * list nat) :=
  match op with
  | OpWrite offset buf => '(wb', (_, ids)) ← write offset buf wb; Some (wb', h, ids)
  | OpFsync => '(wb', ids) ← fsync wb; Some (wb', h, ids)
  | OpTimer => Some (timerFlush wb, h, [])
  | OpRun duration => let '(wb', h', _) := runBatch duration wb h in Some (wb', h', [])
  end.

Fixpoint exec_all {H} `{!FileHandle H} (ops : list wb_op) (wb : WriteBuffer) (h : H)
  : option (WriteBuffer * H * list nat) :=
  match ops with
  | [] => Some (wb, h, [])
  | op :: ops' =>
      '(wb1, h1, ids1) ← exec op wb h;
      '(wb2, h2, ids2) ← exec_all ops' wb1 h1;
      Some (wb2, h2, ids1 ++ ids2)
  end.

(** ** The specification: a file that is written at once *)

Definition spec_op (f : bytes) (op : wb_op) : bytes :=
  match op with OpWrite offset buf => pwrite f offset buf | _ => f end.

(** The writes that have not reached the storage, oldest first. *)
Definition outstanding (wb : WriteBuffer) : list write_op :=
  concat (map batch_buffers (m_writeFuture wb)) ++ m_buffers wb.

(** The history asks for offsets of a file and for at most [most] bytes at once. *)
Definition op_bytes (op : wb_op) : Z :=
  match op with OpWrite _ buf => chainLength buf | _ => 0 end.
Definition op_ok (most : Z) (op : wb_op) : Prop :=
  match op with OpWrite offset buf => fits most (offset, buf) | _ => True end.
Definition total_bytes (ops : list wb_op) : Z := foldr (λ op n, op_bytes op + n) 0 ops.

End buffer.

(** ** The state of a buffer after a history of [n] bytes

    At most [X] bytes are buffered and no write to the storage has more than
    [M] bytes. *)

Definition confirm_size (futures : list (Z * nat)) : Z := foldr (λ e n, e.1 + n) 0 futures.

Lemma confirm_size_app (f1 f2 : list (Z * nat)) :
  confirm_size (f1 ++ f2) = confirm_size f1 + confirm_size f2.
Proof. induction f1 as [|e f1 IH]; simpl; lia. Qed.

Lemma confirm_size_nonneg (futures : list (Z * nat)) :
  Forall (λ e, 0 < e.1) futures → 0 <= confirm_size futures.
Proof. induction 1; simpl; lia. Qed.

Record wb_ok (X M n : Z) (wb : WriteBuffer) : Prop := {
  ok_size : m_bufferedSize wb = total_size (m_buffers wb);
  ok_buffered : m_bufferedSize wb <= X;
  ok_pending : m_pendingConfirmation wb = confirm_size (m_confirmationFutures wb);
  ok_futures : Forall (λ e, 0 < e.1) (m_confirmationFutures wb);
  ok_total : m_bufferedSize wb + m_pendingConfirmation wb <= n;
  ok_next : ∀ o b, last (m_buffers wb) = Some (o, b) → m_nextOffset wb = o + chainLength b;
  ok_fits : Forall (fits M) (outstanding wb);
  ok_batches : Forall (λ b, total_size (batch_buffers b) <= n) (m_writeFuture wb)
}.

Lemma wb_ok_new (X M : Z) : 0 <= X → wb_ok X M 0 new_WriteBuffer.
Proof. intros. split; simpl; try done; try constructor; lia. Qed.

Lemma add_buffer_spec (M : Z) (wb : WriteBuffer) (offset : Z) (buf : bytes) :
  (∀ o b, last (m_buffers wb) = Some (o, b) → m_nextOffset wb = o + chainLength b) →
  Forall (fits M) (m_buffers wb) → 0 <= offset → offset + chainLength buf <= OFF_MAX →
  total_size (m_buffers wb) + chainLength buf <= M →
  (∀ f, apply_writes f (add_buffer wb offset buf)
        = pwrite (apply_writes f (m_buffers wb)) offset buf) ∧
  total_size (add_buffer wb offset buf) = total_size (m_buffers wb) + chainLength buf ∧
  Forall (fits M) (add_buffer wb offset buf) ∧
  ∃ o b, last (add_buffer wb offset buf) = Some (o, b) ∧ offset + chainLength buf = o + chainLength b.
Proof.
  intros Hnext Hfits Hoff Hend Hmax. unfold add_buffer.
  destruct (last (m_buffers wb)) as [[o b]|] eqn:Hlast.
  2:{ apply last_None in Hlast. rewrite Hlast in *. simpl in Hmax. split_and!; simpl; [done|lia| |eauto].
      apply Forall_singleton. split_and!; simpl; lia. }
  specialize (Hnext o b eq_refl). apply last_Some in Hlast as [l Hl]. rewrite Hl in *.
  apply Forall_app in Hfits as [Hl0 Ho]. apply Forall_inv in Ho as (Ho & Ho' & _). simpl in Ho, Ho'.
  rewrite total_size_app in Hmax. simpl in Hmax. pose proof (total_size_nonneg l).
  pose proof (chainLength_nonneg b). pose proof (chainLength_nonneg buf).
  destruct (Z.eqb_spec (m_nextOffset wb) offset) as [Heq|Hne]; simpl.
  - rewrite removelast_last. split_and!.
    + intros f. unfold apply_writes. rewrite !foldl_app. simpl.
      rewrite <-Heq, Hnext. by rewrite pwrite_app.
    + rewrite !total_size_app. simpl. rewrite chainLength_app. lia.
    + apply Forall_app. split; [done|]. apply Forall_singleton.
      unfold fits. simpl. rewrite chainLength_app. lia.
    + exists o, (b ++ buf). rewrite last_snoc, chainLength_app. split; [done|lia].
  - split_and!.
    + intros f. unfold apply_writes. by rewrite !foldl_app.
    + rewrite !total_size_app. simpl. lia.
    + rewrite <-app_assoc. apply Forall_app. split; [done|].
      apply Forall_cons. split; [unfold fits; simpl; lia|]. apply Forall_singleton. unfold fits. simpl. lia.
    + exists offset, buf. by rewrite last_snoc.
Qed.

Lemma confirm_loop_spec (threshold pending : Z) (futures : list (Z * nat)) :
  0 <= threshold → pending = confirm_size futures → pending <= UINT64_MAX →
  Forall (λ e, 0 < e.1) futures →
  ∃ pre rest, futures = pre ++ rest ∧ confirm_size rest <= threshold ∧
    confirm_loop threshold pending futures = Some (map snd pre, confirm_size rest, rest).
Proof.
  intros Ht. revert pending. induction futures as [|[size p] futures IH];
    intros pending -> Hmax Hpos; simpl.
  { exists [], []. rewrite (proj2 (Z.ltb_ge _ _)) by lia. done. }
  apply Forall_cons in Hpos as [Hsz Hpos]. pose proof (confirm_size_nonneg _ Hpos).
  unfold UINT64_MAX in *. simpl in *. destruct (Z.ltb_spec threshold (size + confirm_size futures)).
  - rewrite u64_small by lia.
    destruct (IH (size + confirm_size futures - size)) as (pre & rest & -> & Hle & Hrun);
      [lia|lia|done|].
    exists ((size, p) :: pre), rest. by rewrite Hrun.
  - by exists [], ((size, p) :: futures).
Qed.

Lemma outstanding_push (wb : WriteBuffer) :
  m_bufferedSize wb ≠ 0 → outstanding (pushBuffer wb) = outstanding wb.
Proof.
  intros Hne. unfold pushBuffer. rewrite (proj2 (Z.eqb_neq _ _)) by done.
  unfold outstanding. simpl. rewrite map_app, concat_app. simpl. by rewrite !app_nil_r.
Qed.

Lemma pushBuffer_spec (X Y M n : Z) (wb : WriteBuffer) :
  wb_ok Y M n wb → 0 <= X → n <= UINT64_MAX →
  wb_ok X M n (pushBuffer wb) ∧ outstanding (pushBuffer wb) = outstanding wb ∧
  m_bufferedSize (pushBuffer wb) = 0.
Proof.
  intros Hok HX Hn. destruct (decide (m_bufferedSize wb = 0)) as [Hz|Hnz].
  { unfold pushBuffer. rewrite (proj2 (Z.eqb_eq _ _)) by done. split_and!; [|done..].
    destruct Hok. split; try done. lia. }
  pose proof (outstanding_push wb Hnz) as Hout. split_and!; [|done|].
  2:{ unfold pushBuffer. by rewrite (proj2 (Z.eqb_neq _ _)). }
  destruct Hok as [Hsz Hbuf Hp Hf Ht Hnx Ho Hb]. rewrite <-Hout in Ho.
  pose proof (total_size_nonneg (m_buffers wb)). pose proof (confirm_size_nonneg _ Hf).
  unfold pushBuffer in *. rewrite (proj2 (Z.eqb_neq _ _)) in * by done. unfold UINT64_MAX in *.
  split; simpl in *; try done.
  - rewrite u64_small by lia. rewrite confirm_size_app. simpl. lia.
  - apply Forall_app. split; [done|]. apply Forall_singleton. simpl. lia.
  - rewrite u64_small by lia. lia.
  - apply Forall_app. split; [done|]. apply Forall_singleton. simpl. lia.
Qed.

(** The promises of a buffer: those of the queue and of [returned] futures are
    all of them, once each and in order, and the pending ones are those of the
    chain. *)
Record ids_ok (returned : list nat) (wb : WriteBuffer) : Prop := {
  ids_once : returned ++ map snd (m_confirmationFutures wb) = seq 0 (wb_nextPromise wb);
  ids_chain : (length (m_writeFuture wb) ≤ wb_nextPromise wb)%nat ∧
    map batch_promise (m_writeFuture wb)
    = seq (wb_nextPromise wb - length (m_writeFuture wb)) (length (m_writeFuture wb));
  ids_done : ∀ p, is_Some (wb_promises wb !! p)
                  ↔ (p < wb_nextPromise wb - length (m_writeFuture wb))%nat
}.

Lemma ids_ok_new : ids_ok [] new_WriteBuffer.
Proof.
  split; simpl; [done|done|]. intros p. rewrite lookup_empty. split; [by intros []|lia].
Qed.

Lemma ids_ok_push (returned : list nat) (wb : WriteBuffer) :
  ids_ok returned wb → ids_ok returned (pushBuffer wb).
Proof.
  intros [Honce [Hle Hchain] Hdone]. unfold pushBuffer.
  destruct (Z.eqb_spec (m_bufferedSize wb) 0); [done|]. split; cbn -[seq Nat.sub].
  - rewrite map_app, app_assoc, Honce. by rewrite seq_S.
  - rewrite length_app. simpl. split; [lia|]. rewrite map_app, Hchain. simpl.
    replace (S (wb_nextPromise wb) - (length (m_writeFuture wb) + 1))%nat
      with (wb_nextPromise wb - length (m_writeFuture wb))%nat by lia.
    rewrite Nat.add_1_r, seq_S. do 2 f_equal. lia.
  - intros p. rewrite Hdone, length_app. simpl. lia.
Qed.

Lemma confirm_ok (X M n threshold : Z) (returned : list nat) (wb : WriteBuffer) :
  wb_ok X M n wb → ids_ok returned wb → n <= UINT64_MAX → 0 <= threshold →
  ∃ wb' ids, confirm threshold wb = Some (wb', ids) ∧
    wb_ok X M n wb' ∧ ids_ok (returned ++ ids) wb' ∧
    m_pendingConfirmation wb' <= threshold ∧
    m_buffers wb' = m_buffers wb ∧ m_writeFuture wb' = m_writeFuture wb ∧
    wb_promises wb' = wb_promises wb.
Proof.
  intros [Hsz Hbuf Hp Hf Ht Hnx Ho Hb] [Honce Hchain Hdone] Hn Hthr.
  pose proof (total_size_nonneg (m_buffers wb)).
  destruct (confirm_loop_spec threshold (m_pendingConfirmation wb) (m_confirmationFutures wb))
    as (pre & rest & Hsplit & Hle & Hrun); [done|done|lia|done|].
  eexists _, _. unfold confirm. rewrite Hrun. simpl. split; [done|].
  rewrite Hsplit in Hf. apply Forall_app in Hf as [Hpre Hrest].
  pose proof (confirm_size_nonneg _ Hpre).
  rewrite Hsplit, confirm_size_app in Hp. split_and!; try done.
  - split; simpl; try done. lia.
  - split; simpl; try done. by rewrite <-Honce, Hsplit, map_app, app_assoc.
Qed.

(** A confirmation of everything leaves nothing to confirm. *)
Lemma confirmed_all (X M n : Z) (wb : WriteBuffer) :
  wb_ok X M n wb → m_pendingConfirmation wb <= 0 → m_confirmationFutures wb = [].
Proof.
  intros [_ _ Hp Hf _ _ _ _] Hle. destruct (m_confirmationFutures wb) as [|e fs]; [done|].
  apply Forall_cons in Hf as [He Hf]. pose proof (confirm_size_nonneg _ Hf). simpl in Hp. lia.
Qed.

Section histories.
Context (minSize maxSize M : Z).
Hypothesis Hmax_size : 0 <= maxSize.

Lemma write_ok (n offset : Z) (buf : bytes) (returned : list nat) (wb : WriteBuffer) :
  wb_ok maxSize M n wb → ids_ok returned wb → fits (M - maxSize) (offset, buf) →
  n + chainLength buf <= UINT64_MAX →
  ∃ wb' ids, write minSize maxSize offset buf wb = Some (wb', (chainLength buf, ids)) ∧
    wb_ok maxSize M (n + chainLength buf) wb' ∧ ids_ok (returned ++ ids) wb' ∧
    ∀ f, apply_writes f (outstanding wb') = pwrite (apply_writes f (outstanding wb)) offset buf.
Proof.
  intros Hok Hids (Hoff & Hend & Hmost) Hn. simpl in Hoff, Hend, Hmost. pose proof (chainLength_nonneg buf).
  pose proof Hok as [Hsz Hbuf Hp Hf Ht Hnx Ho Hb]. pose proof (total_size_nonneg (m_buffers wb)).
  pose proof (confirm_size_nonneg _ Hf). apply Forall_app in Ho as [Hoc Hom].
  destruct (add_buffer_spec M wb offset buf Hnx Hom Hoff Hend)
    as (Hview & Hsize & Hfits & o & b & Hlast & Hnext); [lia|].
  set (wb1 := mk_WriteBuffer (u64 (m_bufferedSize wb + chainLength buf)) (i64 (offset + chainLength buf))
              (add_buffer wb offset buf) (m_bps wb) (m_pendingConfirmation wb)
              (m_confirmationFutures wb) (m_writeFuture wb) (wb_promises wb)
              (wb_nextPromise wb)).
  unfold OFF_MAX, UINT64_MAX in *.
  assert (∀ X, m_bufferedSize wb + chainLength buf <= X → wb_ok X M (n + chainLength buf) wb1) as Hok1.
  { intros X HX. split; simpl; rewrite ?u64_small by lia; try done; try lia.
    - intros o' b' Hl'. rewrite i64_small by lia. rewrite Hlast in Hl'. by simplify_eq.
    - by apply Forall_app.
    - eapply Forall_impl; [exact Hb|]. simpl. lia. }
  assert (∀ f, apply_writes f (outstanding wb1) = pwrite (apply_writes f (outstanding wb)) offset buf)
    as Hview1.
  { intros f. unfold outstanding, apply_writes. simpl. rewrite !foldl_app. apply Hview. }
  assert (ids_ok returned wb1) as Hids1 by (by destruct Hids; split).
  unfold write. fold wb1. destruct (Z.ltb_spec (calculateFlushThreshold minSize maxSize wb1) (m_bufferedSize wb1)) as [|Hle].
  2:{ exists wb1, []. rewrite app_nil_r. split_and!; [done| |done..]. apply Hok1.
      unfold calculateFlushThreshold in Hle. simpl in Hle. rewrite u64_small in Hle by lia. lia. }
  destruct (pushBuffer_spec maxSize _ M _ wb1 (Hok1 _ (Z.le_refl _))) as (Hok2 & Hout2 & _);
    [lia|unfold UINT64_MAX; lia|].
  destruct (confirm_ok maxSize M (n + chainLength buf) (calculateConfirmThreshold minSize maxSize (pushBuffer wb1))
              returned (pushBuffer wb1)) as (wb' & ids & Hc & Hok' & Hids' & _ & HB & HW & HP);
    [done|by apply ids_ok_push|unfold UINT64_MAX; lia|apply u64_range|].
  exists wb', ids. unfold confirmOverThreshold. rewrite Hc. split_and!; [done..|].
  intros f. rewrite <-Hview1, <-Hout2. unfold outstanding. by rewrite HB, HW.
Qed.

Lemma fsync_ok (n : Z) (returned : list nat) (wb : WriteBuffer) :
  wb_ok maxSize M n wb → ids_ok returned wb → n <= UINT64_MAX →
  ∃ wb' ids, fsync wb = Some (wb', ids) ∧ wb_ok maxSize M n wb' ∧ ids_ok (returned ++ ids) wb' ∧
    outstanding wb' = outstanding wb ∧ m_confirmationFutures wb' = [] ∧
    total_size (m_buffers wb') = 0 ∧ wb_promises wb' = wb_promises wb ∧
    m_writeFuture wb' = m_writeFuture (pushBuffer wb).
Proof.
  intros Hok Hids Hn. destruct (pushBuffer_spec maxSize _ M n wb Hok Hmax_size Hn) as (Hok1 & Hout & Hz).
  destruct (confirm_ok maxSize M n 0 returned (pushBuffer wb)) as (wb' & ids & Hc & Hok' & Hids' & Hle & HB & HW & HP);
    [done|by apply ids_ok_push|done|done|].
  exists wb', ids. unfold fsync, confirmAll. split_and!; try done.
  - rewrite <-Hout. unfold outstanding. by rewrite HB, HW.
  - by eapply confirmed_all.
  - destruct Hok1 as [Hsz _ _ _ _ _ _ _]. rewrite HB. lia.
  - rewrite HP. unfold pushBuffer. by case_ifs.
Qed.
End histories.

(** Running a batch, whatever the handle does. *)
Lemma runBatch_ok {H} `{!FileHandle H} (X M n duration : Z) (returned : list nat) (wb : WriteBuffer) (h : H) :
  wb_ok X M n wb → ids_ok returned wb →
  let '(wb', h', _) := runBatch duration wb h in wb_ok X M n wb' ∧ ids_ok returned wb'.
Proof.
  intros Hok Hids. unfold runBatch. destruct (m_writeFuture wb) as [|b chain] eqn:Hw; [done|].
  assert (∀ bps t, wb_ok X M n (mk_WriteBuffer (m_bufferedSize wb) (m_nextOffset wb) (m_buffers wb) bps
             (m_pendingConfirmation wb) (m_confirmationFutures wb) chain
             (<[batch_promise b := t]> (wb_promises wb)) (wb_nextPromise wb)) ∧
    ids_ok returned (mk_WriteBuffer (m_bufferedSize wb) (m_nextOffset wb) (m_buffers wb) bps
             (m_pendingConfirmation wb) (m_confirmationFutures wb) chain
             (<[batch_promise b := t]> (wb_promises wb)) (wb_nextPromise wb))) as Hgen.
  { intros bps t. split.
    - destruct Hok as [Hsz Hbuf Hp Hf Ht Hnx Ho Hb]. unfold outstanding in Ho. rewrite Hw in *.
      simpl in Ho. rewrite <-app_assoc in Ho. apply Forall_app in Ho as [_ Ho].
      apply Forall_cons in Hb as [_ Hb]. by split.
    - destruct Hids as [Honce [Hle Hchain] Hdone]. rewrite Hw in *. cbn -[seq Nat.sub] in *.
      rewrite <-cons_seq in Hchain. injection Hchain as Hbp Hchain.
      split; cbn -[seq Nat.sub]; [done|split; [lia|]|].
      + rewrite Hchain. f_equal. lia.
      + intros p. destruct (decide (p = batch_promise b)) as [->|Hne].
        * rewrite lookup_insert_eq. split; [lia|by eauto].
        * rewrite lookup_insert_ne by done. rewrite Hdone. lia. }
  destruct (multiwrite (batch_buffers b) h) as [h' [v|e]]; apply Hgen.
Qed.

(** Running a batch on a handle that keeps its promises. *)
Lemma runBatch_view {H} `{FL : FileHandleLaws H} (X n duration : Z) (wb : WriteBuffer) (h : H) :
  wb_ok X max_write n wb → handle_ok h → n <= UINT64_MAX →
  let '(wb', h', _) := runBatch duration wb h in
  apply_writes (contents h') (outstanding wb') = apply_writes (contents h) (outstanding wb) ∧
  handle_ok h' ∧
  (∀ b chain, m_writeFuture wb = b :: chain →
     m_writeFuture wb' = chain ∧ m_buffers wb' = m_buffers wb ∧
     wb_promises wb' = <[batch_promise b := Value tt]> (wb_promises wb)).
Proof.
  intros Hok Hh Hn. unfold runBatch. destruct (m_writeFuture wb) as [|b chain] eqn:Hw; [done|].
  destruct Hok as [Hsz Hbuf Hp Hf Ht Hnx Ho Hb]. unfold outstanding in Ho. rewrite Hw in *.
  simpl in Ho. rewrite <-app_assoc in Ho. apply Forall_app in Ho as [Hob Ho].
  apply Forall_cons in Hb as [Hb _].
  destruct (multiwrite_spec_aux (batch_buffers b) h Hh Hob) as (h' & Hrun & Hc & Hh'); [lia|].
  rewrite Hrun. split_and!; [|done|].
  - unfold outstanding. rewrite Hw. simpl. unfold apply_writes.
    rewrite <-app_assoc, (foldl_app _ (batch_buffers b)).
    by rewrite Hc.
  - intros b' chain' [= <- <-]. done.
Qed.

Section refinement.
Context (minSize maxSize : Z).
Hypothesis Hmax_size : 0 <= maxSize.

Lemma exec_ok {H} `{!FileHandle H} (M : Z) (op : wb_op) (n : Z) (returned : list nat) (wb : WriteBuffer) (h : H) :
  wb_ok maxSize M n wb → ids_ok returned wb → op_ok (M - maxSize) op → n + op_bytes op <= UINT64_MAX →
  ∃ wb' h' ids, exec minSize maxSize op wb h = Some (wb', h', ids) ∧
    wb_ok maxSize M (n + op_bytes op) wb' ∧ ids_ok (returned ++ ids) wb'.
Proof.
  intros Hok Hids Hop Hn. destruct op as [offset buf| | |duration]; simpl in *.
  - destruct (write_ok minSize maxSize M Hmax_size n offset buf returned wb) as (wb' & ids & Hrun & ? & ? & _);
      [done..|]. rewrite Hrun. simpl. eauto 10.
  - rewrite Z.add_0_r in *.
    destruct (fsync_ok maxSize M Hmax_size n returned wb) as (wb' & ids & Hrun & ? & ? & _);
      [done..|]. rewrite Hrun. simpl. eauto 10.
  - rewrite Z.add_0_r in *. destruct (pushBuffer_spec maxSize _ M n wb Hok Hmax_size Hn) as [Hok' _].
    eexists _, _, _. split; [done|]. rewrite app_nil_r. split; [done|by apply ids_ok_push].
  - rewrite Z.add_0_r in *. pose proof (runBatch_ok maxSize M n duration returned wb h Hok Hids) as Hr.
    destruct (runBatch duration wb h) as [[wb' h'] c].
    eexists _, _, _. split; [done|]. by rewrite app_nil_r.
Qed.

Lemma exec_view {H} `{FL : FileHandleLaws H} (op : wb_op) (n : Z) (returned : list nat)
    (wb wb' : WriteBuffer) (h h' : H) (ids : list nat) :
  wb_ok maxSize max_write n wb → ids_ok returned wb → handle_ok h → op_ok (max_write - maxSize) op →
  n + op_bytes op <= UINT64_MAX →
  exec minSize maxSize op wb h = Some (wb', h', ids) →
  apply_writes (contents h') (outstanding wb')
  = spec_op (apply_writes (contents h) (outstanding wb)) op ∧ handle_ok h'.
Proof.
  intros Hok Hids Hh Hop Hn Hrun. destruct op as [offset buf| | |duration]; simpl in *.
  - destruct (write_ok minSize maxSize max_write Hmax_size n offset buf returned wb)
      as (wb1 & ids1 & Hw & _ & _ & Hview); [done..|]. rewrite Hw in Hrun. simplify_eq/=. by split.
  - rewrite Z.add_0_r in *.
    destruct (fsync_ok maxSize max_write Hmax_size n returned wb) as (wb1 & ids1 & Hw & _ & _ & Hout & _);
      [done..|]. rewrite Hw in Hrun. simplify_eq/=. by rewrite Hout.
  - rewrite Z.add_0_r in *. simplify_eq.
    destruct (pushBuffer_spec maxSize _ _ n wb Hok Hmax_size Hn) as (_ & Hout & _).
    unfold timerFlush. by rewrite Hout.
  - rewrite Z.add_0_r in *. pose proof (runBatch_view maxSize n duration wb h Hok Hh Hn) as Hr.
    destruct (runBatch duration wb h) as [[wb1 h1] c]. simplify_eq. by destruct Hr as (? & ? & _).
Qed.

Lemma op_bytes_nonneg (op : wb_op) : 0 <= op_bytes op.
Proof. destruct op; simpl; try lia. apply chainLength_nonneg. Qed.

Lemma total_bytes_nonneg (ops : list wb_op) : 0 <= total_bytes ops.
Proof. induction ops as [|op ops IH]; simpl; [lia|]. pose proof (op_bytes_nonneg op). lia. Qed.

Lemma exec_all_ok {H} `{!FileHandle H} (M : Z) (ops : list wb_op) (n : Z) (returned : list nat)
    (wb : WriteBuffer) (h : H) :
  wb_ok maxSize M n wb → ids_ok returned wb → Forall (op_ok (M - maxSize)) ops →
  n + total_bytes ops <= UINT64_MAX →
  ∃ wb' h' ids, exec_all minSize maxSize ops wb h = Some (wb', h', ids) ∧
    wb_ok maxSize M (n + total_bytes ops) wb' ∧ ids_ok (returned ++ ids) wb'.
Proof.
  revert n returned wb h. induction ops as [|op ops IH]; intros n returned wb h Hok Hids Hops Hn; simpl in *.
  { eexists _, _, _. split; [done|]. by rewrite Z.add_0_r, app_nil_r. }
  apply Forall_cons in Hops as [Hop Hops].
  pose proof (total_bytes_nonneg ops). pose proof (op_bytes_nonneg op).
  destruct (exec_ok M op n returned wb h) as (wb1 & h1 & ids1 & Hrun & Hok1 & Hids1); [done..|lia|].
  destruct (IH (n + op_bytes op) (returned ++ ids1) wb1 h1) as (wb2 & h2 & ids2 & Hrun2 & Hok2 & Hids2);
    [done..|lia|].
  exists wb2, h2, (ids1 ++ ids2). rewrite Hrun. simpl. rewrite Hrun2. simpl.
  split_and!; [done|by rewrite Z.add_assoc|by rewrite app_assoc].
Qed.

Lemma exec_all_view {H} `{FL : FileHandleLaws H} (ops : list wb_op) (n : Z) (returned : list nat)
    (wb wb' : WriteBuffer) (h h' : H) (ids : list nat) :
  wb_ok maxSize max_write n wb → ids_ok returned wb → handle_ok h →
  Forall (op_ok (max_write - maxSize)) ops → n + total_bytes ops <= UINT64_MAX →
  exec_all minSize maxSize ops wb h = Some (wb', h', ids) →
  apply_writes (contents h') (outstanding wb')
  = foldl spec_op (apply_writes (contents h) (outstanding wb)) ops ∧ handle_ok h'.
Proof.
  revert n returned wb h ids. induction ops as [|op ops IH];
    intros n returned wb h ids Hok Hids Hh Hops Hn Hrun; simpl in *; [by simplify_eq|].
  apply Forall_cons in Hops as [Hop Hops].
  pose proof (total_bytes_nonneg ops). pose proof (op_bytes_nonneg op).
  destruct (exec_ok max_write op n returned wb h) as (wb1 & h1 & ids1 & Hrun1 & Hok1 & Hids1); [done..|lia|].
  rewrite Hrun1 in Hrun. simpl in Hrun.
  destruct (exec_all minSize maxSize ops wb1 h1) as [[[wb2 h2] ids2]|] eqn:Hrun2; [|done].
  simplify_eq/=.
  destruct (exec_view op n returned wb wb1 h h1 ids1) as [<- Hh1]; [done..|lia|done|].
  by eapply (IH (n + op_bytes op) (returned ++ ids1)); [..|lia|].
Qed.
End refinement.

(** ** Durability *)

Lemma apply_writes_empty (f : bytes) (ws : list write_op) : total_size ws = 0 → apply_writes f ws = f.
Proof.
  unfold apply_writes. revert f. induction ws as [|[o b] ws IH]; intros f Hz; simpl in *; [done|].
  pose proof (total_size_nonneg ws). pose proof (chainLength_nonneg b).
  destruct b as [|x b]; [apply IH; simpl in Hz; lia|]. unfold chainLength in Hz. simpl in Hz. lia.
Qed.

Lemma await_values (promises : gmap nat (Try unit)) (ids : list nat) :
  Forall (λ p, promises !! p = Some (Value tt)) ids → await promises ids = Some (Value tt).
Proof. induction 1 as [|p ids Hp _ IH]; simpl; [done|]. by rewrite Hp; simpl; rewrite IH. Qed.

Definition all_values (wb : WriteBuffer) : Prop :=
  ∀ p t, wb_promises wb !! p = Some t → t = Value tt.

Lemma confirm_promises (threshold : Z) (wb wb' : WriteBuffer) (ids : list nat) :
  confirm threshold wb = Some (wb', ids) → wb_promises wb' = wb_promises wb.
Proof.
  unfold confirm. destruct (confirm_loop _ _ _) as [[[ids' p] fs]|]; simpl; [|done].
  by intros [= <- <-].
Qed.

Lemma push_promises (wb : WriteBuffer) : wb_promises (pushBuffer wb) = wb_promises wb.
Proof. unfold pushBuffer. by case_ifs. Qed.

Lemma all_values_exec {H} `{FL : FileHandleLaws H} (minSize maxSize X n : Z) (op : wb_op)
    (wb wb' : WriteBuffer) (h h' : H) (ids : list nat) :
  wb_ok X max_write n wb → handle_ok h → n <= UINT64_MAX → all_values wb →
  exec minSize maxSize op wb h = Some (wb', h', ids) → all_values wb'.
Proof.
  intros Hok Hh Hn Hall Hrun. destruct op as [offset buf| | |duration]; simpl in *.
  - destruct (write minSize maxSize offset buf wb) as [[wb1 [sz ids1]]|] eqn:Hw; [|done].
    simplify_eq/=. unfold write in Hw. destruct (_ <? _) in Hw; [|by simplify_eq].
    unfold confirmOverThreshold in Hw.
    destruct (confirm _ _) as [[wb2 ids2]|] eqn:Hc in Hw; [|done]. simplify_eq/=.
    unfold all_values. by rewrite (confirm_promises _ _ _ _ Hc), push_promises.
  - destruct (fsync wb) as [[wb1 ids1]|] eqn:Hw; [|done]. simplify_eq/=.
    unfold all_values. by rewrite (confirm_promises _ _ _ _ Hw), push_promises.
  - simplify_eq. unfold all_values, timerFlush. by rewrite push_promises.
  - pose proof (runBatch_view X n duration wb h Hok Hh Hn) as Hr.
    destruct (runBatch duration wb h) as [[wb1 h1] c] eqn:Hrb. simplify_eq. destruct Hr as (_ & _ & Hr).
    destruct (m_writeFuture wb) as [|b chain] eqn:Hch.
    { unfold runBatch in Hrb. rewrite Hch in Hrb. by simplify_eq. }
    destruct (Hr b chain eq_refl) as (_ & _ & Hp). intros p t. rewrite Hp, lookup_insert_Some.
    intros [[_ <-]|[_ Ht]]; [done|by eapply Hall].
Qed.

(** Running the whole chain. *)
Lemma run_all_batches {H} `{FL : FileHandleLaws H} (minSize maxSize X n : Z) (durations : list Z)
    (returned : list nat) (wb : WriteBuffer) (h : H) :
  wb_ok X max_write n wb → ids_ok returned wb → handle_ok h → n <= UINT64_MAX → all_values wb →
  (length (m_writeFuture wb) ≤ length durations)%nat →
  ∃ wb' h', exec_all minSize maxSize (map OpRun durations) wb h = Some (wb', h', []) ∧
    m_writeFuture wb' = [] ∧ m_buffers wb' = m_buffers wb ∧
    wb_ok X max_write n wb' ∧ ids_ok returned wb' ∧ all_values wb' ∧ handle_ok h' ∧
    apply_writes (contents h') (outstanding wb') = apply_writes (contents h) (outstanding wb).
Proof.
  revert wb h. induction durations as [|d ds IH]; intros wb h Hok Hids Hh Hn Hall Hlen; simpl in *.
  { exists wb, h. split_and!; try done. destruct (m_writeFuture wb); [done|simpl in *; lia]. }
  pose proof (runBatch_ok X max_write n d returned wb h Hok Hids) as Hr.
  pose proof (runBatch_view X n d wb h Hok Hh Hn) as Hv.
  pose proof (all_values_exec minSize maxSize X n (OpRun d) wb) as Hav. simpl in Hav.
  destruct (runBatch d wb h) as [[wb1 h1] c] eqn:Hrb. destruct Hr as [Hok1 Hids1].
  destruct Hv as (Hview & Hh1 & Hstep). specialize (Hav wb1 h h1 []). rewrite Hrb in Hav.
  destruct (IH wb1 h1) as (wb2 & h2 & Hrun & Hch & HB & Hok2 & Hids2 & Hall2 & Hh2 & Hview2);
    [done..|by apply Hav| |].
  { destruct (m_writeFuture wb) as [|b chain] eqn:Hch.
    - unfold runBatch in Hrb. rewrite Hch in Hrb. simplify_eq. rewrite Hch. simpl. lia.
    - destruct (Hstep b chain eq_refl) as [-> _]. simpl in Hlen. lia. }
  exists wb2, h2. simpl. rewrite Hrun. split_and!; try done.
  - rewrite HB. destruct (m_writeFuture wb) as [|b chain] eqn:Hch'.
    + unfold runBatch in Hrb. rewrite Hch' in Hrb. by simplify_eq.
    + by destruct (Hstep b chain eq_refl) as (_ & ? & _).
  - by rewrite Hview2.
Qed.

Lemma all_values_exec_all {H} `{FL : FileHandleLaws H} (minSize maxSize : Z) (ops : list wb_op) (n : Z)
    (returned : list nat) (wb wb' : WriteBuffer) (h h' : H) (ids : list nat) :
  0 <= maxSize → wb_ok maxSize max_write n wb → ids_ok returned wb → handle_ok h →
  Forall (op_ok (max_write - maxSize)) ops → n + total_bytes ops <= UINT64_MAX →
  all_values wb → exec_all minSize maxSize ops wb h = Some (wb', h', ids) → all_values wb'.
Proof.
  intros Hmax. revert n returned wb h ids. induction ops as [|op ops IH];
    intros n returned wb h ids Hok Hids Hh Hops Hn Hall Hrun; simpl in *; [by simplify_eq|].
  apply Forall_cons in Hops as [Hop Hops].
  pose proof (total_bytes_nonneg ops). pose proof (op_bytes_nonneg op).
  destruct (exec_ok minSize maxSize Hmax max_write op n returned wb h)
    as (wb1 & h1 & ids1 & Hrun1 & Hok1 & Hids1); [done..|lia|].
  destruct (exec_view minSize maxSize Hmax op n returned wb wb1 h h1 ids1) as [_ Hh1]; [done..|lia|done|].
  rewrite Hrun1 in Hrun. simpl in Hrun.
  destruct (exec_all minSize maxSize ops wb1 h1) as [[[wb2 h2] ids2]|] eqn:Hrun2; [|done].
  simplify_eq/=. eapply (IH (n + op_bytes op) (returned ++ ids1)); [done..|lia| |done].
  eapply (all_values_exec minSize maxSize maxSize n); [exact Hok|exact Hh|lia|exact Hall|exact Hrun1].
Qed.

(** ** The properties *)

(** C8: buffering refines direct writing.  After any interleaving of writes,
    [fsync] calls, timer flushes and executions of pushed batches, applying
    the outstanding writes to what the storage holds gives the file that
    writing everything at once would have given; joining adjacent buffers and
    delaying batches loses, reorders and duplicates nothing. *)
Theorem write_buffer_refines {H} `{FL : FileHandleLaws H} (minSize maxSize : Z)
    (ops : list wb_op) (h : H) :
  0 <= maxSize → handle_ok h → Forall (op_ok (max_write - maxSize)) ops → total_bytes ops <= UINT64_MAX →
  ∃ wb h' ids, exec_all minSize maxSize ops new_WriteBuffer h = Some (wb, h', ids) ∧
    apply_writes (contents h') (outstanding wb) = foldl spec_op (contents h) ops.
Proof.
  intros Hmax Hh Hops Hn. pose proof (wb_ok_new maxSize max_write Hmax) as Hnew.
  destruct (exec_all_ok minSize maxSize Hmax max_write ops 0 [] new_WriteBuffer h Hnew ids_ok_new)
    as (wb & h' & ids & Hrun & _); [done..|].
  exists wb, h', ids. split; [done|].
  by apply (exec_all_view minSize maxSize Hmax ops 0 [] _ wb h h' ids Hnew ids_ok_new Hh).
Qed.

Definition sample_ops : list wb_op :=
  [OpWrite 0 [x61; x62]; OpWrite 2 [x63]; OpTimer; OpWrite 1 [x64]; OpRun 5; OpFsync].

Lemma write_buffer_refines_witness :
  ∃ wb h' ids, @exec_all 10 100 _ memory_handle sample_ops new_WriteBuffer [] = Some (wb, h', ids) ∧
    apply_writes h' (outstanding wb) = [x61; x64; x63].
Proof.
  apply (@write_buffer_refines _ _ memory_handle_laws 10 100 sample_ops []).
  - vm_compute. congruence.
  - done.
  - repeat constructor; vm_compute; congruence.
  - vm_compute. congruence.
Defined.

(** C10: [fsync] is durable: once the batches that were in the chain when it
    returned have run, its future is ready without error and the storage holds
    every byte written before it. *)
Theorem write_buffer_fsync_durable {H} `{FL : FileHandleLaws H} (minSize maxSize : Z)
    (ops : list wb_op) (durations : list Z) (h h1 : H) (wb1 : WriteBuffer) (ids1 : list nat) :
  0 <= maxSize → handle_ok h → Forall (op_ok (max_write - maxSize)) ops → total_bytes ops <= UINT64_MAX →
  exec_all minSize maxSize ops new_WriteBuffer h = Some (wb1, h1, ids1) →
  ∃ wb2 ids2, fsync wb1 = Some (wb2, ids2) ∧
    ((length (m_writeFuture wb2) ≤ length durations)%nat →
     ∃ wb3 h3, exec_all minSize maxSize (map OpRun durations) wb2 h1 = Some (wb3, h3, []) ∧
       contents h3 = foldl spec_op (contents h) ops ∧
       await (wb_promises wb3) ids2 = Some (Value tt)).
Proof.
  intros Hmax Hh Hops Hn Hrun. pose proof (wb_ok_new maxSize max_write Hmax) as Hnew.
  destruct (exec_all_ok minSize maxSize Hmax max_write ops 0 [] new_WriteBuffer h Hnew ids_ok_new)
    as (wb & h' & ids & Hrun' & Hok & Hids); [done..|]. rewrite Hrun in Hrun'. simplify_eq. simpl in *.
  destruct (exec_all_view minSize maxSize Hmax ops 0 [] _ _ _ _ _ Hnew ids_ok_new Hh Hops Hn Hrun)
    as [Hview Hh'].
  assert (all_values wb) as Hall.
  { refine (all_values_exec_all minSize maxSize ops 0 [] _ _ _ _ _ Hmax Hnew ids_ok_new Hh Hops Hn _ Hrun).
    intros p t. simpl. by rewrite lookup_empty. }
  rewrite Z.add_0_l in Hok. destruct (fsync_ok maxSize max_write Hmax _ _ _ Hok Hids Hn)
    as (wb2 & ids2 & Hf & Hok2 & Hids2 & Hout & Hq & Hz & Hp & _).
  exists wb2, ids2. split; [done|]. intros Hlen.
  destruct (run_all_batches minSize maxSize _ _ durations (ids ++ ids2) wb2 h' Hok2 Hids2 Hh' Hn)
    as (wb3 & h3 & Hr3 & Hch & HB & Hok3 & Hids3 & Hall3 & _ & Hview3);
    [by unfold all_values; rewrite Hp|done|].
  exists wb3, h3. split_and!; [done| |].
  - rewrite Hout, Hview in Hview3. unfold outstanding in Hview3. rewrite Hch in Hview3.
    simpl in Hview3. by rewrite apply_writes_empty in Hview3 by (by rewrite HB).
  - apply await_values. apply Forall_forall. intros p Hpin.
    destruct Hids3 as [Honce _ Hdone]. rewrite Hch in Hdone. simpl in Hdone.
    destruct (proj2 (Hdone p)) as [t Ht].
    + assert (p ∈ seq 0 (wb_nextPromise wb3)) as Hin.
      { rewrite <-Honce. apply elem_of_app. left. apply elem_of_app. by right. }
      apply elem_of_seq in Hin. lia.
    + rewrite Ht. f_equal. by eapply Hall3.
Qed.

Lemma write_buffer_fsync_durable_witness :
  ∃ wb2 ids2, fsync (mk_WriteBuffer 2 2 [(0, [x61; x62])] 0 0 [] [] ∅ 0) = Some (wb2, ids2) ∧
    ((length (m_writeFuture wb2) ≤ 1)%nat →
     ∃ wb3 h3, @exec_all 10 100 _ memory_handle [OpRun 5] wb2 [] = Some (wb3, h3, []) ∧
       h3 = [x61; x62] ∧ await (wb_promises wb3) ids2 = Some (Value tt)).
Proof.
  apply (@write_buffer_fsync_durable _ _ memory_handle_laws 10 100 [OpWrite 0 [x61; x62]] [5] [] []
           (mk_WriteBuffer 2 2 [(0, [x61; x62])] 0 0 [] [] ∅ 0) []).
  - vm_compute. congruence.
  - done.
  - repeat constructor; vm_compute; congruence.
  - vm_compute. congruence.
  - reflexivity.
Defined.

(** C22: whatever the storage does, also when writes fail, the counters of the
    buffer are exact and no confirmation is taken from an empty queue; every
    batch is waited for by exactly one returned future or still queued, so no
    error of a batch is lost or reported twice. *)
Theorem write_buffer_confirms_once {H} `{!FileHandle H} (minSize maxSize : Z)
    (ops : list wb_op) (h : H) :
  0 <= maxSize → Forall (op_ok OFF_MAX) ops → total_bytes ops <= UINT64_MAX →
  ∃ wb h' ids, exec_all minSize maxSize ops new_WriteBuffer h = Some (wb, h', ids) ∧
    m_bufferedSize wb = total_size (m_buffers wb) ∧
    m_pendingConfirmation wb = confirm_size (m_confirmationFutures wb) ∧
    ids ++ map snd (m_confirmationFutures wb) = seq 0 (wb_nextPromise wb).
Proof.
  intros Hmax Hops Hn.
  destruct (exec_all_ok minSize maxSize Hmax (OFF_MAX + maxSize) ops 0 [] new_WriteBuffer h)
    as (wb & h' & ids & Hrun & [] & []);
    [by apply wb_ok_new|apply ids_ok_new|by rewrite Z.add_simpl_r|done|].
  exists wb, h', ids. done.
Qed.

Lemma write_buffer_confirms_once_witness :
  ∃ wb h' ids, @exec_all 1 1 _ short_handle sample_ops new_WriteBuffer [] = Some (wb, h', ids) ∧
    m_bufferedSize wb = total_size (m_buffers wb) ∧
    m_pendingConfirmation wb = confirm_size (m_confirmationFutures wb) ∧
    ids ++ map snd (m_confirmationFutures wb) = seq 0 (wb_nextPromise wb).
Proof.
  apply (@write_buffer_confirms_once _ short_handle 1 1 sample_ops []).
  - vm_compute. congruence.
  - repeat constructor; vm_compute; congruence.
  - vm_compute. congruence.
Defined.
