(* ===== verification/ReadCache.v ===== *)
(** * Read cache (src/src/buffering/readCache.h)

    The cache holds at most two blocks: the one being read and a prefetched
    one.  A block ([ReadData]) is shared between the cache, the fetch that
    fills it and the reads that wait for it, so blocks live on a heap and are
    named by their index; a fetch completes at any time after it was issued. *)

From stdpp Require Import base numbers list relations.
From Stdlib Require Import ZArith Lia Strings.Byte Floats.SpecFloat.
From S2P Require Import Prelude.
Local Open Scope Z_scope.

(** ** Doubles: the two operations the cache needs *)

(** Multiplication of IEEE doubles, and the conversion to [size_t], which
    drops the fraction. *)
Definition double_mul (x y : spec_float) : spec_float := SFmul 53 1024 x y.
Definition double_to_size (x : spec_float) : Z :=
  match x with
  | S754_finite false m e =>
      u64 (if 0 <=? e then Z.pos m * 2 ^ e else Z.pos m / 2 ^ (- e))
  | _ => 0
  end.
Definition double_one : spec_float := S754_finite false 4503599627370496 (-52).

(** ** ReadData *)
Record ReadData := mk_ReadData {
  rd_offset : Z;
  rd_size : Z;
  rd_t : option Z;                 (* [None] is the greatest time point *)
  rd_latencyMeasured : bool;
  rd_buf : bytes;
  rd_promise : option (Try unit)
}.

Definition new_ReadData (offset size : Z) (isPrefetch : bool) : ReadData :=
  mk_ReadData offset size None (negb isPrefetch) [] None.

Record ReadCache := mk_ReadCache {
  m_prefetchCoeff : spec_float;
  m_blockSize : Z;
  m_latency : Z;
  m_cache : list nat;
  m_clear : bool;
  rc_heap : list ReadData;
  rc_inflight : list (nat * Z * Z)   (* issued reads of the handle: block, offset, size *)
}.

Section cache.
Context (m_readBufferMinSize m_readBufferMaxSize m_cacheDuration m_targetLatency : Z)
        (m_prefetchPowerBase : spec_float).

Definition new_ReadCache : ReadCache :=
  mk_ReadCache double_one 0 (u64 (m_targetLatency * 2)) [] false [] [].

Definition with_cache (c : list nat) (rc : ReadCache) : ReadCache :=
  mk_ReadCache (m_prefetchCoeff rc) (m_blockSize rc) (m_latency rc) c (m_clear rc)
    (rc_heap rc) (rc_inflight rc).

Definition clear (rc : ReadCache) : ReadCache :=
  mk_ReadCache (m_prefetchCoeff rc) (m_blockSize rc) (m_latency rc) (m_cache rc) true
    (rc_heap rc) (rc_inflight rc).

(** [t() < now - m_cacheDuration]. *)
Definition stale (now : Z) (rd : ReadData) : bool :=
  match rd_t rd with Some t => t <? now - m_cacheDuration | None => false end.

Fixpoint drop_stale (now : Z) (heap : list ReadData) (c : list nat) : list nat :=
  match c with
  | [] => []
  | i :: c' =>
      match heap !! i with
      | Some rd => if stale now rd then drop_stale now heap c' else c
      | None => c
      end
  end.

Definition clearStaleEntries (now : Z) (rc : ReadCache) : ReadCache :=
  with_cache (drop_stale now (rc_heap rc) (m_cache rc)) rc.

(** The half-open range of a block, [off_t] arithmetic. *)
Definition rd_end (rd : ReadData) : Z := i64 (rd_offset rd + rd_size rd).
Definition in_block (offset : Z) (rd : ReadData) : bool :=
  (rd_offset rd <=? offset) && (offset <? rd_end rd).

Definition isSequential (rc : ReadCache) (offset : Z) : bool :=
  match m_cache rc with
  | [] => false
  | [i] => match rc_heap rc !! i with Some rd => offset =? rd_end rd | None => false end
  | _ => match last (m_cache rc) ≫= λ i, rc_heap rc !! i with
         | Some rd => in_block offset rd
         | None => false
         end
  end.

Definition front_current (heap : list ReadData) (c : list nat) (offset : Z) : bool :=
  match c with
  | [] => false
  | i :: _ => match heap !! i with Some rd => in_block offset rd | None => false end
  end.
Definition isCurrentRead (rc : ReadCache) (offset : Z) : bool :=
  front_current (rc_heap rc) (m_cache rc) offset.

Definition resetBlockSize : Z * spec_float := (0, double_one).

Definition increaseBlockSize (rc : ReadCache) : Z * spec_float :=
  if (m_blockSize rc <? m_readBufferMaxSize) && (m_targetLatency <? m_latency rc)
  then (Z.min m_readBufferMaxSize (u64 (m_readBufferMinSize * double_to_size (m_prefetchCoeff rc))),
        double_mul (m_prefetchCoeff rc) m_prefetchPowerBase)
  else (m_blockSize rc, m_prefetchCoeff rc).

Definition fetch (offset size : Z) (isPrefetch : bool) (rc : ReadCache) : ReadCache :=
  let i := length (rc_heap rc) in
  mk_ReadCache (m_prefetchCoeff rc) (m_blockSize rc) (m_latency rc) (m_cache rc ++ [i])
    (m_clear rc) (rc_heap rc ++ [new_ReadData offset size isPrefetch])
    (rc_inflight rc ++ [(i, offset, size)]).

(** [boost::icl::size] of the intersection of two half-open intervals. *)
Definition intersection_size (lo1 up1 lo2 up2 : Z) : Z :=
  Z.max 0 (Z.min up1 up2 - Z.max lo1 lo2).

Definition prefetchIfNeeded (offset continuousSize : Z) (rc : ReadCache) : ReadCache :=
  match last (m_cache rc) ≫= λ i, rc_heap rc !! i with
  | None => rc
  | Some back =>
      let nextOffset := rd_end back in
      let n := intersection_size nextOffset (i64 (nextOffset + m_blockSize rc))
                 offset (i64 (offset + continuousSize)) in
      if (length (m_cache rc) <? 2)%nat && (0 <? n) then fetch nextOffset n true rc else rc
  end.

Fixpoint drop_until_current (heap : list ReadData) (offset : Z) (c : list nat) : list nat :=
  match c with
  | [] => []
  | i :: c' => if front_current heap c offset then c else drop_until_current heap offset c'
  end.

(** [read]: the new state; the block the returned future waits for is the
    front of the cache. *)
Definition read (now offset size continuousSize : Z) (rc : ReadCache) : ReadCache * option nat :=
  let rc := if m_clear rc
            then mk_ReadCache (m_prefetchCoeff rc) (m_blockSize rc) (m_latency rc) [] false
                   (rc_heap rc) (rc_inflight rc)
            else rc in
  let rc := clearStaleEntries now rc in
  if isCurrentRead rc offset then (rc, head (m_cache rc))
  else
    let '(blockSize, prefetchCoeff) :=
      if isSequential rc offset then increaseBlockSize rc else resetBlockSize in
    let rc := mk_ReadCache prefetchCoeff blockSize (m_latency rc)
                (drop_until_current (rc_heap rc) offset (m_cache rc)) (m_clear rc)
                (rc_heap rc) (rc_inflight rc) in
    let rc := match m_cache rc with [] => fetch offset size false rc | _ => rc end in
    let rc := prefetchIfNeeded offset continuousSize rc in
    (rc, head (m_cache rc)).

Definition wouldPrefetch (offset size : Z) (rc : ReadCache) : Z :=
  if negb (isCurrentRead rc offset) && (length (m_cache rc) <? 2)%nat
  then (if isSequential rc offset then increaseBlockSize rc else resetBlockSize).1
  else 0.

(** The continuation of [readFromCache] on a block whose promise is fulfilled:
    the part of the block that was asked for. *)
Definition block_part (rd : ReadData) (offset size : Z) : Try bytes :=
  if bool_decide (rd_buf rd = []) || (i64 (rd_offset rd + chainLength (rd_buf rd)) <? offset)
  then Value []
  else
    buf ← (if rd_offset rd <? offset then trimStart (offset - rd_offset rd) (rd_buf rd)
           else Value (rd_buf rd));
    if size <? chainLength buf then trimEnd (chainLength buf - size) buf else Value buf.

Definition adjust_latency (old latency : Z) : Z := u64 (old + 2 * latency) / 3.

(** The same with its effect on the latency; [None] while the block is being
    fetched, the fetch's exception when it failed. *)
Definition readFromCache (latency : Z) (i : nat) (offset size : Z) (rc : ReadCache)
  : option (ReadCache * Try bytes) :=
  rd ← rc_heap rc !! i;
  p ← rd_promise rd;
  match p with
  | Exception e => Some (rc, Exception e)
  | Value _ =>
      let rd' := mk_ReadData (rd_offset rd) (rd_size rd) (rd_t rd) true (rd_buf rd) (rd_promise rd) in
      Some (mk_ReadCache (m_prefetchCoeff rc) (m_blockSize rc)
              (if rd_latencyMeasured rd then m_latency rc else adjust_latency (m_latency rc) latency)
              (m_cache rc) (m_clear rc) (<[i := rd']> (rc_heap rc)) (rc_inflight rc),
            block_part rd offset size)
  end.

(** The continuations of [m_handle.read]: the block at [k] in the list of
    issued reads is filled, or its promise fails. *)
Definition complete (now : Z) (k : nat) (result : Try bytes) (rc : ReadCache) : ReadCache :=
  match rc_inflight rc !! k with
  | None => rc
  | Some (i, o, n) =>
      match rc_heap rc !! i with
      | None => rc
      | Some rd =>
          let rd' := match result with
            | Value buf => mk_ReadData (rd_offset rd) (chainLength buf) (Some now)
                             (rd_latencyMeasured rd) buf (Some (Value tt))
            | Exception e => mk_ReadData (rd_offset rd) (rd_size rd) (rd_t rd)
                             (rd_latencyMeasured rd) (rd_buf rd) (Some (Exception e))
            end in
          mk_ReadCache (m_prefetchCoeff rc) (m_blockSize rc) (m_latency rc) (m_cache rc)
            (m_clear rc) (<[i := rd']> (rc_heap rc)) (delete k (rc_inflight rc))
      end
  end.

(** ** Histories *)

Inductive rc_step (f : bytes) : ReadCache → ReadCache → Prop :=
| step_read now offset size continuousSize rc :
    0 <= offset → 0 <= size → size <= continuousSize → offset + continuousSize <= OFF_MAX →
    rc_step f rc (read now offset size continuousSize rc).1
| step_result latency i offset size rc rc' r :
    readFromCache latency i offset size rc = Some (rc', r) → rc_step f rc rc'
| step_complete now k i o n rc :
    rc_inflight rc !! k = Some (i, o, n) →
    rc_step f rc (complete now k (Value (pread f o n)) rc)
| step_fail now k e rc : rc_step f rc (complete now k (Exception e) rc)
| step_clear rc : rc_step f rc (clear rc).

End cache.

(** ** The part of a block that a read gets *)

Lemma block_part_spec (f : bytes) (rd : ReadData) (n offset size : Z) :
  rd_buf rd = pread f (rd_offset rd) n → 0 <= rd_offset rd <= offset → 0 <= n → 0 <= size →
  rd_offset rd + n <= OFF_MAX →
  block_part rd offset size = Value (pread f offset (Z.min size (rd_offset rd + n - offset))).
Proof.
  intros Hbuf Hoff Hn Hsize Hmax. unfold block_part. rewrite Hbuf. unfold pread.
  set (o := rd_offset rd) in *. set (b := take (Z.to_nat n) (drop (Z.to_nat o) f)).
  assert (chainLength b <= n) as Hlen.
  { unfold b, chainLength. rewrite length_take. lia. }
  assert (drop (Z.to_nat (offset - o)) b
          = take (Z.to_nat (o + n - offset)) (drop (Z.to_nat offset) f)) as Hdrop.
  { unfold b. rewrite skipn_firstn_comm, drop_drop. f_equal; [lia|]. f_equal. lia. }
  assert (take (Z.to_nat (Z.min size (o + n - offset))) (drop (Z.to_nat offset) f)
          = take (Z.to_nat size) (drop (Z.to_nat (offset - o)) b)) as ->.
  { rewrite Hdrop, take_take. f_equal. lia. }
  pose proof (chainLength_nonneg b). unfold OFF_MAX in *. rewrite i64_small by lia.
  case_bool_decide as Hnil; simpl; [by rewrite Hnil, drop_nil, take_nil|].
  destruct (Z.ltb_spec (o + chainLength b) offset).
  { rewrite drop_ge by (unfold chainLength in *; lia). by rewrite take_nil. }
  assert ((if o <? offset then trimStart (offset - o) b else Value b)
          = Value (drop (Z.to_nat (offset - o)) b)) as ->.
  { destruct (Z.ltb_spec o offset).
    - unfold trimStart. by rewrite (proj2 (Z.leb_le _ _)) by lia.
    - by replace (Z.to_nat (offset - o)) with 0%nat by lia. }
  simpl. set (d := drop (Z.to_nat (offset - o)) b). destruct (Z.ltb_spec size (chainLength d)).
  - unfold trimEnd. rewrite (proj2 (Z.leb_le _ _)) by lia. do 2 f_equal. lia.
  - rewrite take_ge; [done|]. unfold chainLength in *. lia.
Qed.

(** What a read returns is the beginning of the range, and some of it when the
    file has any. *)
Definition good_answer (f : bytes) (offset size : Z) (b : bytes) : Prop :=
  b `prefix_of` pread f offset size ∧ (pread f offset size ≠ [] → b ≠ []).

Lemma good_answer_pread (f : bytes) (offset size n : Z) :
  0 <= offset → (0 < n ∨ size <= n) → good_answer f offset size (pread f offset (Z.min size n)).
Proof.
  intros Hoff Hn. unfold good_answer, pread. split.
  - exists (drop (Z.to_nat (Z.min size n)) (take (Z.to_nat size) (drop (Z.to_nat offset) f))).
    rewrite <-(take_drop (Z.to_nat (Z.min size n)) (take (Z.to_nat size) (drop (Z.to_nat offset) f))) at 1.
    rewrite take_take. do 2 f_equal. lia.
  - intros Hne Hnil. apply Hne. destruct (drop (Z.to_nat offset) f) as [|x d]; [by rewrite take_nil|].
    apply (f_equal length) in Hnil. rewrite length_take in Hnil. simpl in Hnil.
    destruct (Z.to_nat size) eqn:Hsz; [done|]. lia.
Qed.

(** ** The invariant *)

Record data_ok (f : bytes) (n : Z) (rd : ReadData) : Prop := {
  data_range : 0 <= rd_offset rd ∧ 0 <= n ∧ rd_offset rd + n <= OFF_MAX;
  data_size : 0 <= rd_size rd <= n;
  data_buf : match rd_promise rd with
             | Some (Value _) => rd_buf rd = pread f (rd_offset rd) n ∧
                                 rd_size rd = chainLength (rd_buf rd)
             | _ => rd_size rd = n
             end
}.

(** [reqs] is the size that was asked for each block, [F i] the contents of
    the file that block [i] was or will be read from. *)
Record rc_ok (F : nat → bytes) (maxSize : Z) (reqs : list Z) (rc : ReadCache) : Prop := {
  ok_reqs : length reqs = length (rc_heap rc);
  ok_heap : ∀ i n rd, reqs !! i = Some n → rc_heap rc !! i = Some rd → data_ok (F i) n rd;
  ok_inflight : Forall (λ e, ∃ rd, rc_heap rc !! e.1.1 = Some rd ∧ rd_offset rd = e.1.2 ∧
                               reqs !! e.1.1 = Some e.2 ∧ rd_promise rd = None) (rc_inflight rc);
  ok_nodup : NoDup (map (λ e, e.1.1) (rc_inflight rc));
  ok_cache : Forall (λ i, (i < length (rc_heap rc))%nat) (m_cache rc);
  ok_length : (length (m_cache rc) ≤ 2)%nat;
  ok_block : 0 <= m_blockSize rc <= maxSize
}.

(** Blocks stay where they are. *)
Definition heap_ext (h1 h2 : list ReadData) : Prop :=
  ∀ i rd, h1 !! i = Some rd → ∃ rd', h2 !! i = Some rd' ∧ rd_offset rd' = rd_offset rd.

Lemma heap_ext_refl (h : list ReadData) : heap_ext h h.
Proof. intros i rd Hi. eauto. Qed.

Lemma heap_ext_trans (h1 h2 h3 : list ReadData) : heap_ext h1 h2 → heap_ext h2 h3 → heap_ext h1 h3.
Proof.
  intros H12 H23 i rd Hi. destruct (H12 i rd Hi) as (rd2 & Hi2 & <-).
  by apply H23.
Qed.

Lemma heap_ext_app (h : list ReadData) (rd : ReadData) : heap_ext h (h ++ [rd]).
Proof. intros i rd' Hi. exists rd'. split; [|done]. by apply lookup_app_l_Some. Qed.

Lemma heap_ext_insert (h : list ReadData) (i : nat) (rd rd' : ReadData) :
  h !! i = Some rd → rd_offset rd' = rd_offset rd → heap_ext h (<[i := rd']> h).
Proof.
  intros Hi Ho j rdj Hj. destruct (decide (i = j)) as [<-|Hne].
  - exists rd'. rewrite list_lookup_insert_eq by (by eapply lookup_lt_Some). split; [done|congruence].
  - exists rdj. by rewrite list_lookup_insert_ne.
Qed.

Lemma length_heap (F : nat → bytes) (maxSize : Z) (reqs : list Z) (rc : ReadCache) :
  rc_ok F maxSize reqs rc → length reqs = length (rc_heap rc).
Proof. by intros []. Qed.

Lemma data_of (F : nat → bytes) (maxSize : Z) (reqs : list Z) (rc : ReadCache) (i : nat) (rd : ReadData) :
  rc_ok F maxSize reqs rc → rc_heap rc !! i = Some rd → ∃ n, reqs !! i = Some n ∧ data_ok (F i) n rd.
Proof.
  intros [Hlen Hh _ _ _ _ _] Hi. destruct (lookup_lt_is_Some_2 reqs i) as [n Hn].
  { rewrite Hlen. by eapply lookup_lt_Some. }
  eauto.
Qed.

(** Filling in a block that is not being fetched any more. *)
Lemma rc_ok_insert (F : nat → bytes) (maxSize : Z) (reqs : list Z) (rc : ReadCache) (i : nat)
    (rd rd' : ReadData) (n latency : Z) (inflight : list (nat * Z * Z)) :
  rc_ok F maxSize reqs rc → rc_heap rc !! i = Some rd → reqs !! i = Some n →
  data_ok (F i) n rd' → sublist inflight (rc_inflight rc) → Forall (λ e, e.1.1 ≠ i) inflight →
  rc_ok F maxSize reqs
    (mk_ReadCache (m_prefetchCoeff rc) (m_blockSize rc) latency (m_cache rc) (m_clear rc)
       (<[i := rd']> (rc_heap rc)) inflight).
Proof.
  intros [Hlen Hh Hin Hnd Hc Hl Hb] Hi Hn Hd Hsub Hne. split; simpl; try done.
  - by rewrite length_insert.
  - intros j m rdj Hj. rewrite list_lookup_insert_Some. intros [(<- & <- & _)|[_ Hrd]]; [|eauto].
    congruence.
  - apply Forall_forall. intros e He. rewrite Forall_forall in Hin, Hne.
    destruct (Hin e) as (rde & ? & ?); [by eapply sublist_subseteq|].
    exists rde. rewrite list_lookup_insert_ne by (specialize (Hne e He); congruence). done.
  - eapply sublist_NoDup; [exact Hnd|]. by apply fmap_sublist.
  - eapply Forall_impl; [exact Hc|]. simpl. intros x. by rewrite length_insert.
Qed.

Lemma delete_ne (l : list (nat * Z * Z)) (k : nat) (e : nat * Z * Z) :
  NoDup (map (λ e, e.1.1) l) → l !! k = Some e → Forall (λ e', e'.1.1 ≠ e.1.1) (delete k l).
Proof.
  revert k. induction l as [|x l IH]; intros k Hnd Hk; [done|].
  simpl in Hnd. apply NoDup_cons in Hnd as [Hx Hnd]. destruct k as [|k]; simpl in *.
  - simplify_eq. apply Forall_forall. intros e' He' Heq. apply Hx. rewrite <-Heq.
    apply list_elem_of_fmap. eauto.
  - constructor; [|by apply IH]. intros Heq. apply Hx. rewrite Heq.
    apply list_elem_of_fmap. exists e. split; [done|]. by eapply list_elem_of_lookup_2.
Qed.

Lemma rc_ok_complete (F : nat → bytes) (maxSize : Z) (reqs : list Z) (rc : ReadCache) (now : Z) (k i : nat)
    (o n : Z) (result : Try bytes) :
  rc_ok F maxSize reqs rc → rc_inflight rc !! k = Some (i, o, n) →
  (∀ b, result = Value b → b = pread (F i) o n) →
  rc_ok F maxSize reqs (complete now k result rc) ∧
  heap_ext (rc_heap rc) (rc_heap (complete now k result rc)).
Proof.
  intros Hok Hk Hres. pose proof Hok as [_ _ Hin Hnd _ _ _].
  pose proof (Forall_lookup_1 _ _ _ _ Hin Hk) as (rd & Hi & Ho & Hn & Hp). simpl in *.
  unfold complete. rewrite Hk, Hi. destruct (data_of F maxSize reqs rc i rd Hok Hi) as (n' & Hn' & [Hr Hs Hb]).
  simplify_eq. split; [|by destruct result; simpl; eapply heap_ext_insert].
  rewrite Hp in Hb.
  destruct result as [b|e]; eapply rc_ok_insert; try done;
    try apply sublist_delete; try (by apply (delete_ne _ _ _ Hnd Hk)); split; simpl; try done.
  - rewrite (Hres b eq_refl). split; [apply chainLength_nonneg|].
    unfold pread, chainLength. rewrite length_take. lia.
  - by rewrite (Hres b eq_refl).
Qed.

Lemma rc_ok_weaken (F : nat → bytes) (maxSize : Z) (reqs : list Z) (rc : ReadCache) (coeff : spec_float)
    (bs latency : Z) (c : list nat) (clr : bool) :
  rc_ok F maxSize reqs rc → c `suffix_of` m_cache rc → 0 <= bs <= maxSize →
  rc_ok F maxSize reqs (mk_ReadCache coeff bs latency c clr (rc_heap rc) (rc_inflight rc)).
Proof.
  intros [Hlen Hh Hin Hnd Hc Hl Hb] [pre Hsuf] Hbs. rewrite Hsuf in *.
  apply Forall_app in Hc as [_ Hc]. rewrite length_app in Hl. split; simpl; try done. lia.
Qed.

Lemma rc_ok_fetch (F : nat → bytes) (maxSize : Z) (reqs : list Z) (rc : ReadCache) (offset size : Z)
    (isPrefetch : bool) :
  rc_ok F maxSize reqs rc → (length (m_cache rc) < 2)%nat → 0 <= offset → 0 <= size →
  offset + size <= OFF_MAX →
  rc_ok F maxSize (reqs ++ [size]) (fetch offset size isPrefetch rc).
Proof.
  intros Hok Hlen Hoff Hsize Hmax. pose proof (length_heap _ _ _ _ Hok) as Hlh.
  destruct Hok as [_ Hh Hin Hnd Hc Hl Hb]. split; simpl; try done.
  - rewrite !length_app. simpl. lia.
  - intros j m rd Hj Hrd. apply lookup_app_Some in Hj as [Hj|[Hge Hj]].
    + apply lookup_lt_Some in Hj as Hlt. rewrite lookup_app_l in Hrd by lia. eauto.
    + rewrite lookup_app_r in Hrd by lia. rewrite Hlh in Hj.
      destruct (j - length (rc_heap rc))%nat as [|j']; [|by destruct j'].
      simpl in *. simplify_eq. split; simpl; lia.
  - apply Forall_app. split.
    + eapply Forall_impl; [exact Hin|]. intros e (rd & He1 & He2 & He3 & He4). exists rd.
      split_and!; [by apply lookup_app_l_Some|done|by apply lookup_app_l_Some|done].
    + apply Forall_singleton. exists (new_ReadData offset size isPrefetch). simpl.
      rewrite <-Hlh at 2. by rewrite !list_lookup_middle.
  - rewrite map_app. apply NoDup_app. split_and!; [done| |apply NoDup_singleton].
    intros x Hx Hx'. apply list_elem_of_singleton in Hx' as ->. simpl in *.
    apply list_elem_of_fmap in Hx as (e & He & Hein). rewrite Forall_forall in Hin.
    destruct (Hin e Hein) as (rd & Hrd & _). rewrite <-He in Hrd.
    apply lookup_lt_Some in Hrd. lia.
  - apply Forall_app. split; [|apply Forall_singleton; rewrite length_app; simpl; lia].
    eapply Forall_impl; [exact Hc|]. simpl. intros x Hx. rewrite length_app. lia.
  - rewrite length_app. simpl. lia.
Qed.

Lemma drop_stale_suffix (d now : Z) (heap : list ReadData) (c : list nat) :
  drop_stale d now heap c `suffix_of` c.
Proof.
  induction c as [|i c IH]; simpl; [done|]. destruct (heap !! i); [|done].
  destruct (stale _ _ _); [|done]. by apply suffix_cons_r.
Qed.

Lemma drop_until_current_spec (heap : list ReadData) (offset : Z) (c : list nat) :
  drop_until_current heap offset c `suffix_of` c ∧
  (drop_until_current heap offset c = [] ∨
   front_current heap (drop_until_current heap offset c) offset = true).
Proof.
  induction c as [|i c [IH1 IH2]]; [by split; [|left]|]. cbn [drop_until_current].
  destruct (front_current heap (i :: c) offset) eqn:Hf; [by split; [|right]|].
  split; [by apply suffix_cons_r|done].
Qed.

Section reading.
Context (minSize maxSize cacheDuration targetLatency : Z) (powerBase : spec_float).
Hypothesis Hmax : 0 <= maxSize.

Lemma increaseBlockSize_bound (rc : ReadCache) :
  0 <= m_blockSize rc <= maxSize →
  0 <= (increaseBlockSize minSize maxSize targetLatency powerBase rc).1 <= maxSize.
Proof.
  intros Hb. unfold increaseBlockSize. case_ifs; simpl; [|done].
  pose proof (u64_range (minSize * double_to_size (m_prefetchCoeff rc))). lia.
Qed.

(** The prefetch stays inside the range the caller announced. *)
Lemma prefetch_spec (F : nat → bytes) (reqs : list Z) (rc : ReadCache) (offset continuousSize : Z) :
  rc_ok F maxSize reqs rc → 0 <= offset → 0 <= continuousSize → offset + continuousSize <= OFF_MAX →
  (∀ i back, m_cache rc = [i] → rc_heap rc !! i = Some back → offset <= rd_end back) →
  prefetchIfNeeded offset continuousSize rc = rc ∨
  ∃ o n, prefetchIfNeeded offset continuousSize rc = fetch o n true rc ∧
    (length (m_cache rc) < 2)%nat ∧ offset <= o ∧ 0 < n <= m_blockSize rc ∧
    o + n <= offset + continuousSize.
Proof.
  intros Hok Hoff Hcont Hend Hafter. unfold prefetchIfNeeded.
  destruct (last (m_cache rc) ≫= _) as [back|] eqn:Hback; [|by left].
  destruct (last (m_cache rc)) as [i|] eqn:Hlast; simpl in Hback; [|done].
  destruct (data_of _ _ _ _ _ _ Hok Hback) as (nb & _ & [Hr Hs _]).
  destruct Hok as [_ _ _ _ _ _ Hb].
  assert (rd_end back = rd_offset back + rd_size back) as Hre.
  { unfold rd_end, OFF_MAX in *. rewrite i64_small; lia. }
  destruct (Nat.ltb_spec (length (m_cache rc)) 2); simpl; [|by left].
  set (n := intersection_size _ _ _ _). destruct (Z.ltb_spec 0 n) as [Hn|]; [|by left].
  assert (m_cache rc = [i]) as Hci.
  { destruct (m_cache rc) as [|j [|j' c]]; simplify_eq/=; [done|lia]. }
  specialize (Hafter i back Hci Hback).
  right. exists (rd_end back), n. split_and!; try done;
    unfold n, intersection_size in *; unfold OFF_MAX in *;
    rewrite (i64_small (offset + continuousSize)) in * by lia.
  - pose proof (i64_le (rd_end back + m_blockSize rc)). lia.
  - lia.
Qed.

(** The state of [read] before it looks for the block. *)
Definition refreshed (now : Z) (rc : ReadCache) : ReadCache :=
  clearStaleEntries cacheDuration now
    (if m_clear rc
     then mk_ReadCache (m_prefetchCoeff rc) (m_blockSize rc) (m_latency rc) [] false
            (rc_heap rc) (rc_inflight rc)
     else rc).

Lemma refreshed_ok (F : nat → bytes) (reqs : list Z) (now : Z) (rc : ReadCache) :
  rc_ok F maxSize reqs rc →
  rc_ok F maxSize reqs (refreshed now rc) ∧ rc_heap (refreshed now rc) = rc_heap rc ∧
  rc_inflight (refreshed now rc) = rc_inflight rc ∧
  m_cache (refreshed now rc) `suffix_of` m_cache rc ∧
  (m_clear rc = true → m_cache (refreshed now rc) = []).
Proof.
  intros Hok. unfold refreshed, clearStaleEntries, with_cache.
  pose proof Hok as [_ _ _ _ _ _ Hb]. destruct (m_clear rc); simpl.
  - split_and!; try done; [|by apply suffix_nil].
    apply rc_ok_weaken; [done|apply suffix_nil|done].
  - split_and!; try done; [|apply drop_stale_suffix].
    apply rc_ok_weaken; [done|apply drop_stale_suffix|done].
Qed.

Lemma front_current_Some (F : nat → bytes) (reqs : list Z) (rc : ReadCache) (offset : Z) :
  rc_ok F maxSize reqs rc → front_current (rc_heap rc) (m_cache rc) offset = true →
  ∃ i c rd n, m_cache rc = i :: c ∧ rc_heap rc !! i = Some rd ∧ reqs !! i = Some n ∧
    rd_offset rd <= offset < rd_offset rd + n.
Proof.
  intros Hok Hf. unfold front_current in Hf. destruct (m_cache rc) as [|i c]; [done|].
  destruct (rc_heap rc !! i) as [rd|] eqn:Hi; [|done].
  destruct (data_of _ _ _ _ _ _ Hok Hi) as (n & Hn & [Hr Hs _]).
  unfold in_block, rd_end, OFF_MAX in *. rewrite i64_small in Hf by lia.
  exists i, c, rd, n. split_and!; try done; lia.
Qed.

(** What a fetch may ask the handle for: the range of the read, or a prefetch
    inside the range that the caller announced. *)
Definition fetch_ok (offset size continuousSize : Z) (e : nat * Z * Z) : Prop :=
  (e.1.2 = offset ∧ e.2 = size) ∨
  (offset <= e.1.2 ∧ 0 < e.2 <= maxSize ∧ e.1.2 + e.2 <= offset + continuousSize).
Definition fetches_ok (offset size continuousSize : Z) (extra : list (nat * Z * Z)) : Prop :=
  (length extra ≤ 2)%nat ∧ Forall (fetch_ok offset size continuousSize) extra.

(** The front of the cache is block [i], which covers [offset] or was fetched
    for it. *)
Definition serves (reqs : list Z) (rc : ReadCache) (offset size : Z) (i : nat) : Prop :=
  head (m_cache rc) = Some i ∧
  ∃ rd n, rc_heap rc !! i = Some rd ∧ reqs !! i = Some n ∧ rd_offset rd <= offset ∧
          (offset < rd_offset rd + n ∨ (rd_offset rd = offset ∧ n = size)).

Lemma serves_current (F : nat → bytes) (reqs : list Z) (rc : ReadCache) (offset size : Z) :
  rc_ok F maxSize reqs rc → front_current (rc_heap rc) (m_cache rc) offset = true →
  ∃ i, serves reqs rc offset size i.
Proof.
  intros Hok Hf. destruct (front_current_Some F reqs rc offset Hok Hf) as (i & c & rd & n & Hc & Hi & Hn & Hr).
  exists i. split; [by rewrite Hc|]. exists rd, n. split_and!; try done; [lia|left; lia].
Qed.

Lemma serves_fetched (F : nat → bytes) (reqs : list Z) (rc : ReadCache) (offset size : Z) (p : bool) :
  rc_ok F maxSize reqs rc → m_cache rc = [] →
  serves (reqs ++ [size]) (fetch offset size p rc) offset size (length (rc_heap rc)).
Proof.
  intros Hok Hc. pose proof (length_heap _ _ _ _ Hok) as Hlh. split; [simpl; by rewrite Hc|].
  exists (new_ReadData offset size p), size. simpl. rewrite <-Hlh at 2.
  rewrite !list_lookup_middle by done. split_and!; try done. by right.
Qed.

Lemma serves_fetch (reqs : list Z) (rc : ReadCache) (offset size o n : Z) (i : nat) (p : bool) :
  serves reqs rc offset size i → serves (reqs ++ [n]) (fetch o n p rc) offset size i.
Proof.
  intros [Hh (rd & n' & Hi & Hn & Hr)]. split.
  - simpl. destruct (m_cache rc); [done|]. done.
  - exists rd, n'. simpl. split_and!; [by apply lookup_app_l_Some|by apply lookup_app_l_Some|tauto..].
Qed.

(** The only block of the cache ends after the offset that is read. *)
Lemma block_ends_after (rc : ReadCache) (offset size : Z) :
  0 <= offset → 0 <= size → offset + size <= OFF_MAX →
  (m_cache rc = [] ∨ front_current (rc_heap rc) (m_cache rc) offset = true) →
  let rc3 := match m_cache rc with [] => fetch offset size false rc | _ => rc end in
  ∀ i back, m_cache rc3 = [i] → rc_heap rc3 !! i = Some back → offset <= rd_end back.
Proof.
  intros Hoff Hsize Hend Hcase rc3 i back Hc Hi. unfold rc3 in *. clear rc3.
  destruct (m_cache rc) as [|j c] eqn:Hm.
  - simpl in Hc, Hi. rewrite Hm in Hc. simplify_eq/=. rewrite list_lookup_middle in Hi by done.
    simplify_eq/=. unfold rd_end, OFF_MAX in *. simpl. rewrite i64_small by lia. lia.
  - destruct Hcase as [|Hf]; [done|]. rewrite Hm in Hc. simplify_eq. simpl in Hf. rewrite Hi in Hf.
    unfold in_block in Hf. lia.
Qed.

Lemma read_miss (F : nat → bytes) (reqs : list Z) (rc : ReadCache) (offset size continuousSize : Z) :
  rc_ok F maxSize reqs rc → 0 <= offset → 0 <= size → size <= continuousSize →
  offset + continuousSize <= OFF_MAX →
  (m_cache rc = [] ∨ front_current (rc_heap rc) (m_cache rc) offset = true) →
  let rc3 := match m_cache rc with [] => fetch offset size false rc | _ => rc end in
  let rc4 := prefetchIfNeeded offset continuousSize rc3 in
  ∃ reqs' i extra, rc_ok F maxSize (reqs ++ reqs') rc4 ∧ heap_ext (rc_heap rc) (rc_heap rc4) ∧
    serves (reqs ++ reqs') rc4 offset size i ∧
    rc_inflight rc4 = rc_inflight rc ++ extra ∧ fetches_ok offset size continuousSize extra ∧
    (m_cache rc = [] → i = length (rc_heap rc)).
Proof.
  intros Hok Hoff Hsize Hcont Hend Hcase rc3 rc4.
  assert (∃ reqs3 i extra, rc_ok F maxSize (reqs ++ reqs3) rc3 ∧ heap_ext (rc_heap rc) (rc_heap rc3) ∧
    serves (reqs ++ reqs3) rc3 offset size i ∧
    rc_inflight rc3 = rc_inflight rc ++ extra ∧ (length extra ≤ 1)%nat ∧
    Forall (fetch_ok offset size continuousSize) extra ∧ (m_cache rc = [] → i = length (rc_heap rc)))
    as (reqs3 & i & extra & Hok3 & Hext3 & Hs3 & Hin3 & Hl3 & He3 & Hi3).
  { unfold rc3. destruct (m_cache rc) as [|j c] eqn:Hc.
    - exists [size], (length (rc_heap rc)), [(length (rc_heap rc), offset, size)].
      split_and!; try done.
      + apply rc_ok_fetch; try done; [rewrite Hc; simpl; lia|lia].
      + apply heap_ext_app.
      + by eapply serves_fetched.
      + apply Forall_singleton. by left.
    - destruct Hcase as [|Hf]; [done|].
      rewrite <-Hc in Hf. destruct (serves_current F reqs rc offset size Hok Hf) as [i Hi].
      exists [], i, []. rewrite !app_nil_r. split_and!; try done; [apply heap_ext_refl|simpl; lia]. }
  unfold rc4. destruct (prefetch_spec F (reqs ++ reqs3) rc3 offset continuousSize Hok3)
    as [->|(o & n & -> & Hlen & Ho & Hn & Hon)]; [lia..|apply (block_ends_after rc offset size); auto; lia| |].
  - exists reqs3, i, extra. split_and!; try done. split; [lia|done].
  - exists (reqs3 ++ [n]), i, (extra ++ [(length (rc_heap rc3), o, n)]).
    pose proof Hok3 as [_ _ _ _ _ _ Hb]. rewrite !app_assoc. split_and!; try done.
    + apply rc_ok_fetch; try done; lia.
    + eapply heap_ext_trans; [exact Hext3|apply heap_ext_app].
    + by apply serves_fetch.
    + simpl. by rewrite Hin3.
    + split; [rewrite length_app; simpl; lia|].
      apply Forall_app. split; [done|]. apply Forall_singleton. right. simpl. lia.
Qed.

Lemma read_spec (F : nat → bytes) (reqs : list Z) (rc : ReadCache) (now offset size continuousSize : Z) :
  rc_ok F maxSize reqs rc → 0 <= offset → 0 <= size → size <= continuousSize →
  offset + continuousSize <= OFF_MAX →
  ∃ rc' reqs' i extra,
    read minSize maxSize cacheDuration targetLatency powerBase now offset size continuousSize rc
    = (rc', Some i) ∧
    rc_ok F maxSize (reqs ++ reqs') rc' ∧ heap_ext (rc_heap rc) (rc_heap rc') ∧
    serves (reqs ++ reqs') rc' offset size i ∧
    rc_inflight rc' = rc_inflight rc ++ extra ∧ fetches_ok offset size continuousSize extra ∧
    (m_clear rc = true → i = length (rc_heap rc)).
Proof.
  intros Hok Hoff Hsize Hcont Hend. unfold read. fold (refreshed now rc).
  destruct (refreshed_ok F reqs now rc Hok) as (Hok1 & Hheap & Hinf & Hsuf & Hclr).
  set (rc1 := refreshed now rc) in *. destruct (isCurrentRead rc1 offset) eqn:Hcur.
  { destruct (serves_current F reqs rc1 offset size Hok1 Hcur) as [i Hi].
    exists rc1, [], i, []. rewrite !app_nil_r. pose proof Hi as [Hhd _]. rewrite Hhd, Hheap.
    split_and!; try done; [apply heap_ext_refl|by split; [simpl; lia|]|].
    intros Hc. rewrite (Hclr Hc) in Hhd. done. }
  pose proof Hok1 as [_ _ _ _ _ _ Hb]. pose proof (increaseBlockSize_bound rc1 Hb) as Hinc.
  set (bc := if isSequential rc1 offset then _ else _).
  assert (0 <= bc.1 <= maxSize) as Hbc by (unfold bc; case_ifs; [done|simpl; lia]).
  destruct bc as [bs coeff]. simpl in Hbc.
  destruct (drop_until_current_spec (rc_heap rc1) offset (m_cache rc1)) as [Hdsuf Hdcase].
  set (rc2 := mk_ReadCache coeff bs (m_latency rc1)
                (drop_until_current (rc_heap rc1) offset (m_cache rc1)) (m_clear rc1)
                (rc_heap rc1) (rc_inflight rc1)).
  assert (rc_ok F maxSize reqs rc2) as Hok2 by (by apply rc_ok_weaken).
  destruct (read_miss F reqs rc2 offset size continuousSize) as (reqs' & i & extra & Hok4 & Hext & Hs & Hin & He & Hi);
    [done..|].
  eexists _, reqs', i, extra. pose proof Hs as [Hhd _]. rewrite <-Hhd. split; [done|].
  rewrite <-Hheap, <-Hinf. split_and!; try done.
  intros Hc. apply Hi. unfold rc2. cbn [m_cache]. by rewrite (Hclr Hc).
Qed.
End reading.

(** ** Histories *)

Section histories.
Context (minSize maxSize cacheDuration targetLatency : Z) (powerBase : spec_float).
Hypothesis Hmax : 0 <= maxSize.

Abbreviation step := (rc_step minSize maxSize cacheDuration targetLatency powerBase).
Abbreviation read_op := (read minSize maxSize cacheDuration targetLatency powerBase).

Lemma rc_ok_new (F : nat → bytes) : rc_ok F maxSize [] (new_ReadCache targetLatency).
Proof. split; simpl; try done; try constructor; lia. Qed.

Lemma rc_ok_result (F : nat → bytes) (reqs : list Z) (rc rc' : ReadCache) (latency : Z) (i : nat)
    (offset size : Z) (r : Try bytes) :
  rc_ok F maxSize reqs rc → readFromCache latency i offset size rc = Some (rc', r) →
  rc_ok F maxSize reqs rc' ∧ heap_ext (rc_heap rc) (rc_heap rc').
Proof.
  intros Hok Hr. unfold readFromCache in Hr.
  destruct (rc_heap rc !! i) as [rd|] eqn:Hi; simpl in Hr; [|done].
  destruct (rd_promise rd) as [[u|e]|] eqn:Hp; simpl in Hr; simplify_eq; [|by split; [|apply heap_ext_refl]].
  destruct (data_of _ _ _ _ _ _ Hok Hi) as (n & Hn & [Hd1 Hd2 Hd3]). rewrite Hp in Hd3.
  split; [|by simpl; eapply heap_ext_insert].
  eapply rc_ok_insert; [done|done|done|by split; simpl; rewrite ?Hp|done|].
  destruct Hok as [_ _ Hin _ _ _ _]. eapply Forall_impl; [exact Hin|].
  intros e (rde & He & _ & _ & Hpe) Heq. congruence.
Qed.

(** A block that serves a read answers it, when its fetch succeeded. *)
Lemma serves_answer (F : nat → bytes) (reqs : list Z) (rc : ReadCache) (offset size latency : Z) (i : nat)
    (rc' : ReadCache) (b : bytes) (rd : ReadData) (n : Z) :
  rc_ok F maxSize reqs rc → 0 <= offset → 0 <= size →
  rc_heap rc !! i = Some rd → reqs !! i = Some n → rd_offset rd <= offset →
  (offset < rd_offset rd + n ∨ (rd_offset rd = offset ∧ n = size)) →
  readFromCache latency i offset size rc = Some (rc', Value b) → good_answer (F i) offset size b.
Proof.
  intros Hok Hoff Hsize Hi Hn Ho Hcover Hr. unfold readFromCache in Hr. rewrite Hi in Hr. simpl in Hr.
  destruct (data_of _ _ _ _ _ _ Hok Hi) as (n' & Hn' & [Hd1 Hd2 Hd3]). simplify_eq.
  destruct (rd_promise rd) as [[u|e]|]; simpl in Hr; [|done..]. destruct Hd3 as [Hb _].
  rewrite (block_part_spec (F i) rd n) in Hr by (done || lia). injection Hr as _ <-.
  apply good_answer_pread; lia.
Qed.

Lemma step_ok (f : bytes) (reqs : list Z) (rc rc' : ReadCache) :
  rc_ok (λ _, f) maxSize reqs rc → step f rc rc' →
  ∃ reqs', rc_ok (λ _, f) maxSize (reqs ++ reqs') rc' ∧ heap_ext (rc_heap rc) (rc_heap rc').
Proof.
  intros Hok Hstep. revert Hok.
  destruct Hstep as [now offset size cont rc Ho Hs Hsc Hend|latency i offset size rc rc' r Hr
                    |now k i o n rc Hk|now k e rc|rc]; intros Hok.
  - destruct (read_spec minSize maxSize cacheDuration targetLatency powerBase Hmax (λ _, f) reqs rc now offset
                size cont Hok Ho Hs Hsc Hend) as (rc' & reqs' & i & extra & Hread & Hok' & Hext & _).
    exists reqs'. by rewrite Hread.
  - exists []. rewrite app_nil_r. by eapply rc_ok_result.
  - exists []. rewrite app_nil_r. eapply rc_ok_complete; try done. by intros b [= <-].
  - exists []. rewrite app_nil_r. destruct (rc_inflight rc !! k) as [[[i o] n]|] eqn:Hk.
    + by eapply rc_ok_complete.
    + unfold complete. rewrite Hk. by split; [|apply heap_ext_refl].
  - exists []. rewrite app_nil_r. split; [|apply heap_ext_refl].
    destruct Hok as [Hlen Hh Hin Hnd Hc Hl Hb]. by split.
Qed.

Lemma steps_ok (f : bytes) (reqs : list Z) (rc rc' : ReadCache) :
  rtc (step f) rc rc' → rc_ok (λ _, f) maxSize reqs rc →
  ∃ reqs', rc_ok (λ _, f) maxSize (reqs ++ reqs') rc' ∧ heap_ext (rc_heap rc) (rc_heap rc').
Proof.
  intros Hrtc. revert reqs. induction Hrtc as [rc|rc1 rc2 rc3 H12 _ IH]; intros reqs Hok.
  { exists []. rewrite app_nil_r. by split; [|apply heap_ext_refl]. }
  destruct (step_ok f reqs rc1 rc2 Hok H12) as (r1 & Hok2 & Hext).
  destruct (IH _ Hok2) as (r2 & Hok3 & Hext3). exists (r1 ++ r2). rewrite app_assoc.
  split; [done|by eapply heap_ext_trans].
Qed.

(** ** The properties *)

(** C11: while the file has the contents [f], whatever the order in which
    fetches complete or fail and other reads are issued: when a read gets an
    answer, it is a beginning of the requested range of [f], and it is not
    empty unless the range is.  The cache never returns bytes from elsewhere
    and never reports an end of file that is not there. *)
Theorem read_cache_answers (f : bytes) (rc1 rc2 rc3 rc4 : ReadCache)
    (now offset size continuousSize latency : Z) (i : nat) (b : bytes) :
  rtc (step f) (new_ReadCache targetLatency) rc1 →
  0 <= offset → 0 <= size → size <= continuousSize → offset + continuousSize <= OFF_MAX →
  read_op now offset size continuousSize rc1 = (rc2, Some i) → rtc (step f) rc2 rc3 →
  readFromCache latency i offset size rc3 = Some (rc4, Value b) →
  good_answer f offset size b.
Proof.
  intros Hr1 Hoff Hsize Hcont Hend Hread Hr3 Hres.
  destruct (steps_ok f [] _ _ Hr1 (rc_ok_new (λ _, f))) as (reqs & Hok1 & _).
  destruct (read_spec minSize maxSize cacheDuration targetLatency powerBase Hmax (λ _, f) reqs rc1 now offset size
              continuousSize Hok1 Hoff Hsize Hcont Hend)
    as (rc2' & reqs' & i' & extra & Hread' & Hok2 & _ & (Hhd & rd & n & Hi & Hn & Ho & Hcover) & _).
  simpl in Hread'. rewrite Hread in Hread'. simplify_eq.
  destruct (steps_ok f _ _ _ Hr3 Hok2) as (reqs3 & Hok3 & Hext).
  destruct (Hext i' rd Hi) as (rd3 & Hi3 & Ho3).
  eapply (serves_answer (λ _, f) _ rc3 offset size latency i' rc4 b rd3 n); try done; [|by rewrite Ho3..].
  by apply lookup_app_l_Some.
Qed.
(** C25: in every state the cache holds at most two blocks and its block size
    is at most the configured maximum; a read asks the storage at most twice,
    for the requested range and for a prefetch of at most that size that begins
    at or after the requested offset and lies inside the range the caller
    announced, nothing else. *)
Theorem read_cache_bounds (f : bytes) (rc : ReadCache) (now offset size continuousSize : Z) :
  rtc (step f) (new_ReadCache targetLatency) rc →
  0 <= offset → 0 <= size → size <= continuousSize → offset + continuousSize <= OFF_MAX →
  (length (m_cache rc) ≤ 2)%nat ∧ 0 <= m_blockSize rc <= maxSize ∧
  ∃ extra, rc_inflight (read_op now offset size continuousSize rc).1 = rc_inflight rc ++ extra ∧
    fetches_ok maxSize offset size continuousSize extra.
Proof.
  intros Hr Hoff Hsize Hcont Hend.
  destruct (steps_ok f [] _ _ Hr (rc_ok_new (λ _, f))) as (reqs & Hok & _). pose proof Hok as [_ _ _ _ _ Hl Hb].
  destruct (read_spec minSize maxSize cacheDuration targetLatency powerBase Hmax (λ _, f) _ rc now offset size
              continuousSize Hok Hoff Hsize Hcont Hend)
    as (rc' & reqs' & i & extra & Hread & _ & _ & _ & Hin & He & _).
  split_and!; try done; [lia..|]. exists extra. by rewrite Hread.
Qed.

(** After [clear] the next read is answered by a fetch that this read
    issues: no block from before the clear is served again, also not one that
    was still being fetched. *)
Lemma read_cache_fresh (f : bytes) (rc : ReadCache) (now offset size continuousSize : Z) :
  rtc (step f) (new_ReadCache targetLatency) rc →
  0 <= offset → 0 <= size → size <= continuousSize → offset + continuousSize <= OFF_MAX →
  ∃ rc', read_op now offset size continuousSize (clear rc) = (rc', Some (length (rc_heap rc))).
Proof.
  intros Hr Hoff Hsize Hcont Hend.
  assert (rtc (step f) (new_ReadCache targetLatency) (clear rc)) as Hr'.
  { eapply rtc_r; [exact Hr|constructor]. }
  destruct (steps_ok f [] _ _ Hr' (rc_ok_new (λ _, f))) as (reqs & Hok & _).
  destruct (read_spec minSize maxSize cacheDuration targetLatency powerBase Hmax (λ _, f) _ (clear rc) now offset
              size continuousSize Hok Hoff Hsize Hcont Hend)
    as (rc' & reqs' & i & extra & Hread & _ & _ & _ & _ & _ & Hi).
  exists rc'. rewrite Hread. by rewrite (Hi eq_refl).
Qed.

(** A failed fetch stays in the cache: its time stamp is the greatest time
    point, so it never gets stale, and it covers the whole range that was
    asked for; every later read in this range fails with the same error, at
    any time, until the cache is cleared. *)
Lemma read_cache_error_sticky (now now1 now2 o n cont o2 n2 cont2 latency : Z) (e : exc) :
  0 <= o → 0 < n → o + n <= OFF_MAX → o <= o2 < o + n →
  let rc1 := (read_op now o n cont (new_ReadCache targetLatency)).1 in
  let rc2 := complete now1 0 (Exception e) rc1 in
  read_op now2 o2 n2 cont2 rc2 = (rc2, Some 0%nat) ∧
  readFromCache latency 0 o2 n2 rc2 = Some (rc2, Exception e).
Proof.
  intros Ho Hn Hend Ho2 rc1 rc2.
  assert (rc1 = fetch o n false (new_ReadCache targetLatency)) as Hrc1.
  { unfold rc1, read. simpl. unfold prefetchIfNeeded. simpl.
    unfold intersection_size, rd_end, OFF_MAX in *. simpl. rewrite (i64_small (o + n)) by lia.
    rewrite Z.add_0_r, (i64_small (o + n)) by lia.
    rewrite (proj2 (Z.ltb_ge 0 _)) by lia. done. }
  unfold rc2. rewrite Hrc1. split; [|done].
  unfold read, complete, clearStaleEntries. simpl. unfold isCurrentRead, front_current, in_block, rd_end.
  simpl. unfold OFF_MAX in *. rewrite i64_small by lia.
  rewrite (proj2 (Z.leb_le _ _)), (proj2 (Z.ltb_lt _ _)) by lia. done.
Qed.
End histories.

(** ** Witnesses *)

Definition sample_bytes : bytes := [x61; x62; x63; x64; x65].
Abbreviation sample_read := (read 2 8 10 1 double_one).
Abbreviation sample_new := (new_ReadCache 1).

Lemma read_cache_answers_witness :
  let rc2 := (sample_read 1 1 3 4 sample_new).1 in
  let rc3 := complete 2 0 (Value [x62; x63; x64]) rc2 in
  ∃ rc4, readFromCache 5 0 1 3 rc3 = Some (rc4, Value [x62; x63; x64]) ∧
    good_answer sample_bytes 1 3 [x62; x63; x64].
Proof.
  eexists. split; [reflexivity|].
  eapply (read_cache_answers 2 8 10 1 double_one ltac:(lia) sample_bytes sample_new
            (sample_read 1 1 3 4 sample_new).1
            (complete 2 0 (Value [x62; x63; x64]) (sample_read 1 1 3 4 sample_new).1) _ 1 1 3 4 5 0);
    [apply rtc_refl|vm_compute; congruence..|reflexivity| |reflexivity].
  apply rtc_once. apply (step_complete 2 8 10 1 double_one sample_bytes 2 0 0 1 3). reflexivity.
Defined.

(** The second of two sequential reads: its range is fetched, and a block is
    prefetched after it. *)
Definition sample_once : ReadCache :=
  complete 2 0 (Value [x61]) (sample_read 1 0 1 1 sample_new).1.

Lemma read_cache_bounds_witness :
  rc_inflight (sample_read 3 1 1 4 sample_once).1 = [(1%nat, 1, 1); (2%nat, 2, 2)] ∧
  (length (m_cache sample_once) ≤ 2)%nat ∧ 0 <= m_blockSize sample_once <= 8 ∧
  ∃ extra, rc_inflight (sample_read 3 1 1 4 sample_once).1 = rc_inflight sample_once ++ extra ∧
    fetches_ok 8 1 1 4 extra.
Proof.
  split; [vm_compute; reflexivity|].
  apply (read_cache_bounds 2 8 10 1 double_one ltac:(lia) sample_bytes sample_once 3 1 1 4);
    [|vm_compute; congruence..].
  eapply rtc_l; [apply (step_read 2 8 10 1 double_one sample_bytes 1 0 1 1 sample_new); vm_compute; congruence|].
  apply rtc_once. apply (step_complete 2 8 10 1 double_one sample_bytes 2 0 0 0 1). reflexivity.
Defined.
