(* ===== verification/BufferAgent.v ===== *)
(** * Buffered files (src/src/buffering/bufferAgent.h)

    [BufferAgentsMemoryLimitGuard] counts the memory that open buffered files
    may use.  [BufferedFileHandle] joins a write buffer and a read cache over
    one handle: a read first pushes all writes and waits for them, so it sees
    what was written before.  [BufferAgent] wraps the other methods of a
    helper. *)

From stdpp Require Import base numbers list gmap strings relations.
From Stdlib Require Import ZArith Lia Strings.Byte Floats.SpecFloat.
From S2P Require Import Prelude Storage WriteBuffer ReadCache.
Local Open Scope Z_scope.

Record BufferLimits := mk_BufferLimits {
  readBufferMinSize : Z;
  readBufferMaxSize : Z;
  readBuffersTotalSize : Z;
  prefetchPowerBase : spec_float;
  targetLatency : Z;
  readBufferPrefetchDuration : Z;
  writeBufferMinSize : Z;
  writeBufferMaxSize : Z;
  writeBuffersTotalSize : Z;
  writeBufferFlushDelay : Z
}.

(** The arguments' defaults, times in nanoseconds; 1.3 is the nearest double. *)
Definition default_BufferLimits : BufferLimits :=
  mk_BufferLimits (5 * 1024 * 1024) (10 * 1024 * 1024) 0
    (S754_finite false 5854679515581645 (-52)) 1000 1000000000
    (20 * 1024 * 1024) (50 * 1024 * 1024) 0 5000000000.

(** ** BufferAgentsMemoryLimitGuard *)

Record guard := mk_guard {
  m_readBuffersReservedSize : Z;
  m_writeBuffersReservedSize : Z
}.

Definition new_guard : guard := mk_guard 0 0.

Definition reserveBuffers (bl : BufferLimits) (readSize writeSize : Z) (g : guard) : guard * bool :=
  if ((readBuffersTotalSize bl =? 0)
      || (u64 (m_readBuffersReservedSize g + readSize) <=? readBuffersTotalSize bl))
     && ((writeBuffersTotalSize bl =? 0)
         || (u64 (m_writeBuffersReservedSize g + writeSize) <=? writeBuffersTotalSize bl))
  then (mk_guard (u64 (m_readBuffersReservedSize g + readSize))
                 (u64 (m_writeBuffersReservedSize g + writeSize)), true)
  else (g, false).

(** The differences are unsigned. *)
Definition releaseBuffers (readSize writeSize : Z) (g : guard) : guard * bool :=
  if (0 <=? u64 (m_readBuffersReservedSize g - readSize))
     && (0 <=? u64 (m_writeBuffersReservedSize g - writeSize))
  then (mk_guard (u64 (m_readBuffersReservedSize g - readSize))
                 (u64 (m_writeBuffersReservedSize g - writeSize)), true)
  else (g, false).

(** ** BufferedFileHandle *)

Record BufferedFileHandle (H : Type) := mk_BufferedFileHandle {
  m_writeBuffer : WriteBuffer;
  m_readCache : ReadCache;
  m_wrappedHandle : H
}.
Arguments mk_BufferedFileHandle {H} _ _ _.
Arguments m_writeBuffer {H} _.
Arguments m_readCache {H} _.
Arguments m_wrappedHandle {H} _.

Section handle.
Context {H : Type} `{!FileHandle H} (bl : BufferLimits).

Definition new_BufferedFileHandle (h : H) : BufferedFileHandle H :=
  mk_BufferedFileHandle new_WriteBuffer (new_ReadCache (targetLatency bl)) h.

(** The read cache of the handle: [m_cacheDuration] is twice the prefetch
    duration. *)
Definition cache_read (now offset size continuousSize : Z) (rc : ReadCache) : ReadCache * option nat :=
  ReadCache.read (readBufferMinSize bl) (readBufferMaxSize bl) (2 * readBufferPrefetchDuration bl)
    (targetLatency bl) (prefetchPowerBase bl) now offset size continuousSize rc.

(** A pushed batch runs; on success it tells the cache to clear. *)
Definition run_batch (duration : Z) (bh : BufferedFileHandle H) : BufferedFileHandle H :=
  let '(wb, h, cleared) := runBatch duration (m_writeBuffer bh) (m_wrappedHandle bh) in
  mk_BufferedFileHandle wb (if cleared then ReadCache.clear (m_readCache bh) else m_readCache bh) h.

Definition run_batches (durations : list Z) (bh : BufferedFileHandle H) : BufferedFileHandle H :=
  foldl (λ bh d, run_batch d bh) bh durations.

(** The wrapped handle serves one of the issued reads. *)
Definition serve_fetch (now : Z) (k : nat) (bh : BufferedFileHandle H) : BufferedFileHandle H :=
  match rc_inflight (m_readCache bh) !! k with
  | None => bh
  | Some (_, o, n) =>
      let '(h, r) := fh_read o n (m_wrappedHandle bh) in
      mk_BufferedFileHandle (m_writeBuffer bh) (complete now k r (m_readCache bh)) h
  end.

Fixpoint serve_all (fuel : nat) (now : Z) (bh : BufferedFileHandle H) : BufferedFileHandle H :=
  match fuel with
  | O => bh
  | S fuel' => serve_all fuel' now (serve_fetch now 0 bh)
  end.

Definition write (offset : Z) (buf : bytes) (bh : BufferedFileHandle H)
  : option (BufferedFileHandle H * (Z * list nat)) :=
  '(wb, r) ← WriteBuffer.write (writeBufferMinSize bl) (writeBufferMaxSize bl) offset buf (m_writeBuffer bh);
  Some (mk_BufferedFileHandle wb (m_readCache bh) (m_wrappedHandle bh), r).

(** The first part of [read], [fsync], [flush] and [release]: everything is
    pushed, the confirmations in the queue are taken and waited for.
    [durations] are those of the batches that run in the meantime; [None] is a
    future that is not ready after them. *)
Definition sync (durations : list Z) (bh : BufferedFileHandle H)
  : option (BufferedFileHandle H * Try unit) :=
  '(wb, ids) ← WriteBuffer.fsync (m_writeBuffer bh);
  let bh := run_batches durations (mk_BufferedFileHandle wb (m_readCache bh) (m_wrappedHandle bh)) in
  r ← await (wb_promises (m_writeBuffer bh)) ids;
  Some (bh, r).

(** [read] with the range that will be read, run to its end: [None] is a
    future that is not ready, or a block that does not exist. *)
Definition read (durations : list Z) (now latency offset size continuousSize : Z)
    (bh : BufferedFileHandle H) : option (BufferedFileHandle H * Try bytes) :=
  '(bh, r) ← sync durations bh;
  match r with
  | Exception e => Some (bh, Exception e)
  | Value _ =>
      let '(rc, front) := cache_read now offset size continuousSize (m_readCache bh) in
      i ← front;
      let bh := mk_BufferedFileHandle (m_writeBuffer bh) rc (m_wrappedHandle bh) in
      let bh := serve_all (length (rc_inflight rc)) now bh in
      '(rc, b) ← readFromCache latency i offset size (m_readCache bh);
      Some (mk_BufferedFileHandle (m_writeBuffer bh) rc (m_wrappedHandle bh), b)
  end.

(** [read] without the range: up to the greatest offset. *)
Definition read_any (durations : list Z) (now latency offset size : Z) (bh : BufferedFileHandle H)
  : option (BufferedFileHandle H * Try bytes) :=
  read durations now latency offset size (OFF_MAX - offset) bh.

Definition fsync (durations : list Z) (isDataSync : bool) (bh : BufferedFileHandle H)
  : option (BufferedFileHandle H * Try unit) :=
  '(bh, r) ← sync durations bh;
  match r with
  | Exception e => Some (bh, Exception e)
  | Value _ =>
      let '(h, r) := fh_fsync isDataSync (m_wrappedHandle bh) in
      Some (mk_BufferedFileHandle (m_writeBuffer bh) (ReadCache.clear (m_readCache bh)) h, r)
  end.

Definition flush (durations : list Z) (bh : BufferedFileHandle H)
  : option (BufferedFileHandle H * Try unit) :=
  '(bh, r) ← sync durations bh;
  match r with
  | Exception e => Some (bh, Exception e)
  | Value _ =>
      let '(h, r) := fh_flush (m_wrappedHandle bh) in
      Some (mk_BufferedFileHandle (m_writeBuffer bh) (ReadCache.clear (m_readCache bh)) h, r)
  end.

(** The future of the wrapped [release] is dropped. *)
Definition release (durations : list Z) (bh : BufferedFileHandle H)
  : option (BufferedFileHandle H * Try unit) :=
  '(bh, r) ← sync durations bh;
  match r with
  | Exception e => Some (bh, Exception e)
  | Value _ =>
      let '(h, _) := fh_release (m_wrappedHandle bh) in
      Some (mk_BufferedFileHandle (m_writeBuffer bh) (m_readCache bh) h, Value tt)
  end.

Definition flushUnderlying (bh : BufferedFileHandle H) : BufferedFileHandle H * Try unit :=
  let '(h, r) := fh_flush (m_wrappedHandle bh) in
  (mk_BufferedFileHandle (m_writeBuffer bh) (m_readCache bh) h, r).

End handle.

(** ** BufferAgent *)

Section agent.
Context {S H : Type} (bl : BufferLimits) (m_helper : StorageHelper S H).

(** An open file: buffered when the guard had room for it. *)
Inductive file_handle :=
| Buffered (bh : BufferedFileHandle H)
| Plain (h : H).

Definition lift_helper {A} (m : ST S A) : ST (S * guard) A := λ s,
  let '(s', r) := m s.1 in ((s', s.2), r).

Definition open (fileId : string) (flags : Z) (params : Params) : ST (S * guard) file_handle := λ s,
  match sh_open m_helper fileId flags params s.1 with
  | (s', Exception e) => ((s', s.2), Exception e)
  | (s', Value h) =>
      let '(g, ok) := reserveBuffers bl (readBufferMaxSize bl) (writeBufferMaxSize bl) s.2 in
      ((s', g), Value (if ok then Buffered (new_BufferedFileHandle bl h) else Plain h))
  end.

(** [~BufferedFileHandle] gives the reservation back. *)
Definition destroy_handle (fh : file_handle) (g : guard) : guard :=
  match fh with
  | Buffered _ => (releaseBuffers (readBufferMaxSize bl) (writeBufferMaxSize bl) g).1
  | Plain _ => g
  end.

(** All other methods are those of the wrapped helper. *)
Definition buffer_agent : StorageHelper (S * guard) file_handle := {|
  sh_getattr := λ fileId, lift_helper (sh_getattr m_helper fileId);
  sh_access := λ fileId mask, lift_helper (sh_access m_helper fileId mask);
  sh_readlink := λ fileId, lift_helper (sh_readlink m_helper fileId);
  sh_readdir := λ fileId offset count, lift_helper (sh_readdir m_helper fileId offset count);
  sh_mknod := λ fileId mode flags rdev, lift_helper (sh_mknod m_helper fileId mode flags rdev);
  sh_mkdir := λ fileId mode, lift_helper (sh_mkdir m_helper fileId mode);
  sh_unlink := λ fileId currentSize, lift_helper (sh_unlink m_helper fileId currentSize);
  sh_rmdir := λ fileId, lift_helper (sh_rmdir m_helper fileId);
  sh_symlink := λ from to, lift_helper (sh_symlink m_helper from to);
  sh_rename := λ from to, lift_helper (sh_rename m_helper from to);
  sh_link := λ from to, lift_helper (sh_link m_helper from to);
  sh_chmod := λ fileId mode, lift_helper (sh_chmod m_helper fileId mode);
  sh_chown := λ fileId uid gid, lift_helper (sh_chown m_helper fileId uid gid);
  sh_truncate := λ fileId size currentSize, lift_helper (sh_truncate m_helper fileId size currentSize);
  sh_open := open;
  sh_getxattr := λ uuid name, lift_helper (sh_getxattr m_helper uuid name);
  sh_setxattr := λ uuid name value create replace,
    lift_helper (sh_setxattr m_helper uuid name value create replace);
  sh_removexattr := λ uuid name, lift_helper (sh_removexattr m_helper uuid name);
  sh_listxattr := λ uuid, lift_helper (sh_listxattr m_helper uuid)
|}.
End agent.

(** ** The guard *)

Definition reserved (live : list (Z * Z)) : Z * Z :=
  foldr (λ r t, (r.1 + t.1, r.2 + t.2)) (0, 0) live.

(** Files are opened and closed: [live] are the reservations held. *)
Inductive guard_step (bl : BufferLimits) : guard * list (Z * Z) → guard * list (Z * Z) → Prop :=
| guard_reserve g g' live r w :
    0 <= r → 0 <= w → r + readBuffersTotalSize bl <= UINT64_MAX →
    w + writeBuffersTotalSize bl <= UINT64_MAX →
    reserveBuffers bl r w g = (g', true) → guard_step bl (g, live) (g', (r, w) :: live)
| guard_refuse g g' live r w :
    reserveBuffers bl r w g = (g', false) → guard_step bl (g, live) (g', live)
| guard_release g g' live live' r w b :
    live ≡ₚ (r, w) :: live' → releaseBuffers r w g = (g', b) → guard_step bl (g, live) (g', live').

Record guard_ok (bl : BufferLimits) (g : guard) (live : list (Z * Z)) : Prop := {
  guard_read : m_readBuffersReservedSize g = u64 (reserved live).1;
  guard_write : m_writeBuffersReservedSize g = u64 (reserved live).2;
  guard_nonneg : Forall (λ r, 0 <= r.1 ∧ 0 <= r.2) live;
  guard_read_limit : readBuffersTotalSize bl ≠ 0 → (reserved live).1 <= readBuffersTotalSize bl;
  guard_write_limit : writeBuffersTotalSize bl ≠ 0 → (reserved live).2 <= writeBuffersTotalSize bl
}.

Lemma reserved_nonneg (live : list (Z * Z)) :
  Forall (λ r, 0 <= r.1 ∧ 0 <= r.2) live → 0 <= (reserved live).1 ∧ 0 <= (reserved live).2.
Proof. induction 1; simpl in *; lia. Qed.

#[export] Instance reserved_Permutation : Proper ((≡ₚ) ==> eq) reserved.
Proof.
  intros l1 l2 Hp. induction Hp as [|x l1 l2 _ IH|x y l|l1 l2 l3 _ IH1 _ IH2]; simpl;
    [done|by rewrite IH|f_equal; lia|congruence].
Qed.

Lemma u64_add_u64 (a b : Z) : u64 (u64 a + b) = u64 (a + b).
Proof. unfold u64. by rewrite Zplus_mod_idemp_l. Qed.

Lemma u64_sub_u64 (a b : Z) : u64 (u64 a - b) = u64 (a - b).
Proof. unfold u64. by rewrite Zminus_mod_idemp_l. Qed.

Lemma limit_kept (total sum r : Z) :
  0 <= sum → 0 <= r → r + total <= UINT64_MAX → (total ≠ 0 → sum <= total) →
  (total =? 0) || (u64 (u64 sum + r) <=? total) = true → total ≠ 0 → sum + r <= total.
Proof.
  intros Hs Hr Hmax Hlim Hok Hne. specialize (Hlim Hne).
  rewrite (proj2 (Z.eqb_neq total 0)) in Hok by done. simpl in Hok.
  rewrite u64_add_u64 in Hok. unfold UINT64_MAX in *. rewrite u64_small in Hok by lia. lia.
Qed.

Lemma guard_step_ok (bl : BufferLimits) (g g' : guard) (live live' : list (Z * Z)) :
  guard_ok bl g live → guard_step bl (g, live) (g', live') → guard_ok bl g' live'.
Proof.
  intros [Hr Hw Hnn Hrl Hwl] Hstep. pose proof (reserved_nonneg _ Hnn) as [Hr0 Hw0].
  inversion Hstep as [? ? ? r w H1 H2 H3 H4 Hres| ? ? ? r w Hres | ? ? ? ? r w b Hp Hrel]; subst; clear Hstep.
  - unfold reserveBuffers in Hres. destruct (_ && _) eqn:Hcond; [|done]. injection Hres as <-.
    apply andb_true_iff in Hcond as [Hc1 Hc2]. rewrite Hr in *. rewrite Hw in *.
    split; simpl; rewrite ?u64_add_u64.
    + f_equal. lia.
    + f_equal. lia.
    + by constructor.
    + intros Hne. pose proof (limit_kept _ _ _ Hr0 H1 H3 Hrl Hc1 Hne). lia.
    + intros Hne. pose proof (limit_kept _ _ _ Hw0 H2 H4 Hwl Hc2 Hne). lia.
  - unfold reserveBuffers in Hres. destruct (_ && _); [done|]. injection Hres as <-. by split.
  - unfold releaseBuffers in Hrel.
    rewrite (proj2 (Z.leb_le 0 (u64 (m_readBuffersReservedSize g - r)))) in Hrel by apply u64_range.
    rewrite (proj2 (Z.leb_le 0 (u64 (m_writeBuffersReservedSize g - w)))) in Hrel by apply u64_range.
    injection Hrel as <- <-. rewrite Hr, Hw in *. rewrite Hp in *. simpl in *.
    apply Forall_cons in Hnn as [Hrw Hnn]. simpl in Hrw.
    split; simpl; rewrite ?u64_sub_u64; [f_equal; lia|f_equal; lia|done|..]; intros Hne;
      [specialize (Hrl Hne)|specialize (Hwl Hne)]; lia.
Qed.

Lemma guard_ok_new (bl : BufferLimits) :
  0 <= readBuffersTotalSize bl → 0 <= writeBuffersTotalSize bl → guard_ok bl new_guard [].
Proof. intros Hr Hw. split; simpl; done || constructor. Qed.

(** As long as every reservation is released at most once, the guard's
    counters are the reservations of the open files and the limits are never
    exceeded. *)
Lemma guard_keeps_limits (bl : BufferLimits) (g : guard) (live : list (Z * Z)) :
  0 <= readBuffersTotalSize bl → 0 <= writeBuffersTotalSize bl →
  rtc (guard_step bl) (new_guard, []) (g, live) →
  m_readBuffersReservedSize g = u64 (reserved live).1 ∧
  m_writeBuffersReservedSize g = u64 (reserved live).2 ∧
  (readBuffersTotalSize bl ≠ 0 → (reserved live).1 <= readBuffersTotalSize bl) ∧
  (writeBuffersTotalSize bl ≠ 0 → (reserved live).2 <= writeBuffersTotalSize bl).
Proof.
  intros Hr Hw Hrtc. pose proof (guard_ok_new bl Hr Hw) as Hok.
  assert (∀ s1 s2 : guard * list (Z * Z), rtc (guard_step bl) s1 s2 →
    guard_ok bl s1.1 s1.2 → guard_ok bl s2.1 s2.2) as Hgen.
  { intros s1 s2 Hs. induction Hs as [|[g1 l1] [g2 l2] s3 H12 _ IH]; [done|].
    intros Hok1. apply IH. by eapply guard_step_ok. }
  destruct (Hgen _ _ Hrtc Hok) as [? ? ? ? ?]. done.
Qed.

Definition sample_limits : BufferLimits :=
  mk_BufferLimits 1 4 10 double_one 0 1 1 4 10 5.

(** A release is never refused: the comparison with zero is on unsigned
    numbers, so releasing more than is reserved wraps the counter round and
    reports success. *)
Lemma guard_release_wraps (readSize writeSize : Z) (g : guard) :
  0 <= m_readBuffersReservedSize g < readSize → readSize <= UINT64_MAX →
  (releaseBuffers readSize writeSize g).2 = true ∧
  m_readBuffersReservedSize (releaseBuffers readSize writeSize g).1
  = m_readBuffersReservedSize g - readSize + UINT64_MAX + 1.
Proof.
  intros Hr Hmax. unfold releaseBuffers.
  rewrite (proj2 (Z.leb_le 0 (u64 (m_readBuffersReservedSize g - readSize)))) by apply u64_range.
  rewrite (proj2 (Z.leb_le 0 (u64 (m_writeBuffersReservedSize g - writeSize)))) by apply u64_range.
  simpl. split; [done|]. unfold u64, UINT64_MAX in *.
  symmetry. apply (Z.mod_unique _ _ (-1)); lia.
Qed.

(** ** The read cache against a file that changes *)

Definition fulfilled (rc : ReadCache) (i : nat) : bool :=
  match rc_heap rc !! i with
  | Some rd => match rd_promise rd with Some _ => true | None => false end
  | None => false
  end.

(** Blocks that are not filled yet will be read from the present file [f], the
    cached ones hold it unless the cache is to be cleared, and every block is
    filled or being fetched. *)
Record coherent (F : nat → bytes) (f : bytes) (rc : ReadCache) : Prop := {
  coh_pending : ∀ i, fulfilled rc i = false → F i = f;
  coh_cache : m_clear rc = false → Forall (λ i, F i = f) (m_cache rc);
  coh_live : ∀ i rd, rc_heap rc !! i = Some rd →
    match rd_promise rd with
    | None => i ∈ map (λ e, e.1.1) (rc_inflight rc)
    | Some (Value _) => True
    | Some (Exception _) => False
    end
}.

Lemma coherent_new (f : bytes) (latency : Z) : coherent (λ _, f) f (new_ReadCache latency).
Proof. by split. Qed.

Lemma coherent_clear (F : nat → bytes) (f : bytes) (rc : ReadCache) :
  coherent F f rc → coherent F f (ReadCache.clear rc).
Proof. intros [Hp Hc Hl]. by split. Qed.

(** The file changes and the cache is told: blocks still to come will have the
    new contents. *)
Definition switch (rc : ReadCache) (F : nat → bytes) (f : bytes) (i : nat) : bytes :=
  if fulfilled rc i then F i else f.

Lemma coherent_switch (F : nat → bytes) (f f' : bytes) (maxSize : Z) (reqs : list Z) (rc : ReadCache) :
  rc_ok F maxSize reqs rc → coherent F f rc →
  rc_ok (switch rc F f') maxSize reqs (ReadCache.clear rc) ∧
  coherent (switch rc F f') f' (ReadCache.clear rc).
Proof.
  intros [Hlen Hh Hin Hnd Hc Hl Hb] [Hp Hca Hlive]. split; split; simpl; try done.
  - intros i n rd Hi Hrd. destruct (Hh i n rd Hi Hrd) as [H1 H2 H3]. split; [done..|].
    unfold switch, fulfilled. rewrite Hrd. by destruct (rd_promise rd) as [[]|].
  - intros i Hi. change (fulfilled rc i = false) in Hi. unfold switch. by rewrite Hi.
Qed.

(** Changes of the cached list and the counters. *)
Lemma coherent_recache (F : nat → bytes) (f : bytes) (rc : ReadCache) (coeff : spec_float)
    (bs latency : Z) (c : list nat) :
  coherent F f rc → Forall (λ i, F i = f) c →
  coherent F f (mk_ReadCache coeff bs latency c false (rc_heap rc) (rc_inflight rc)).
Proof. intros [Hp Hca Hl] Hc. by split. Qed.

Lemma coherent_fetch (F : nat → bytes) (f : bytes) (rc : ReadCache) (o n : Z) (p : bool) :
  coherent F f rc → m_clear rc = false → coherent F f (fetch o n p rc).
Proof.
  intros [Hp Hca Hl] Hclr.
  assert (∀ i, fulfilled (fetch o n p rc) i = fulfilled rc i) as Hf.
  { intros i. unfold fulfilled. simpl. destruct (rc_heap rc !! i) as [rd|] eqn:Hi.
    - by rewrite (lookup_app_l_Some _ _ _ _ Hi).
    - apply lookup_ge_None in Hi. rewrite lookup_app_r by done.
      destruct (i - length (rc_heap rc))%nat as [|[|j]]; done. }
  split.
  - intros i Hi. apply Hp. by rewrite <-Hf.
  - intros _. simpl. apply Forall_app. split; [by apply Hca|]. apply Forall_singleton.
    apply Hp. unfold fulfilled. by rewrite lookup_ge_None_2.
  - intros i rd Hi. simpl in *. apply lookup_app_Some in Hi as [Hi|[Hge Hi]].
    + specialize (Hl i rd Hi). destruct (rd_promise rd) as [[]|]; [done..|].
      rewrite map_app. apply elem_of_app. by left.
    + destruct (i - length (rc_heap rc))%nat as [|[|j]] eqn:Hj; simplify_eq/=.
      rewrite map_app. apply elem_of_app. right. apply list_elem_of_singleton. simpl. lia.
Qed.

Lemma Forall_suffix {A} (P : A → Prop) (l1 l2 : list A) : l1 `suffix_of` l2 → Forall P l2 → Forall P l1.
Proof. intros [k ->]. rewrite Forall_app. by intros []. Qed.

Section coherent_read.
Context (minSize maxSize cacheDuration targetLatency : Z) (powerBase : spec_float).

Lemma coherent_refreshed (F : nat → bytes) (f : bytes) (now : Z) (rc : ReadCache) :
  coherent F f rc →
  coherent F f (refreshed cacheDuration now rc) ∧ m_clear (refreshed cacheDuration now rc) = false.
Proof.
  intros Hcoh. unfold refreshed, clearStaleEntries, with_cache. destruct (m_clear rc) eqn:Hc; simpl.
  - split; [|done]. by apply coherent_recache.
  - rewrite Hc. split; [|done]. apply coherent_recache; [done|]. destruct Hcoh as [_ Hca _].
    eapply Forall_suffix; [apply drop_stale_suffix|by apply Hca].
Qed.

Lemma coherent_prefetch (F : nat → bytes) (f : bytes) (offset cont : Z) (rc : ReadCache) :
  coherent F f rc → m_clear rc = false →
  coherent F f (prefetchIfNeeded offset cont rc) ∧ m_clear (prefetchIfNeeded offset cont rc) = false.
Proof.
  intros Hcoh Hc. unfold prefetchIfNeeded. destruct (_ ≫= _); [|done]. case_ifs; [|done].
  split; [by apply coherent_fetch|done].
Qed.

Lemma coherent_read (F : nat → bytes) (f : bytes) (rc rc' : ReadCache)
    (now offset size cont : Z) (front : option nat) :
  coherent F f rc →
  ReadCache.read minSize maxSize cacheDuration targetLatency powerBase now offset size cont rc = (rc', front) →
  coherent F f rc' ∧ m_clear rc' = false ∧ front = head (m_cache rc').
Proof.
  intros Hcoh Hread. unfold ReadCache.read in Hread. fold (refreshed cacheDuration now rc) in Hread.
  destruct (coherent_refreshed F f now rc Hcoh) as [Hcoh1 Hclr1].
  set (rc1 := refreshed cacheDuration now rc) in *. clearbody rc1.
  destruct (isCurrentRead rc1 offset); [by simplify_eq|].
  destruct (if isSequential rc1 offset then _ else _) as [bs coeff].
  set (rc2 := mk_ReadCache coeff bs (m_latency rc1)
                (drop_until_current (rc_heap rc1) offset (m_cache rc1)) (m_clear rc1)
                (rc_heap rc1) (rc_inflight rc1)) in *.
  assert (coherent F f rc2) as Hcoh2.
  { unfold rc2. rewrite Hclr1. apply coherent_recache; [done|]. destruct Hcoh1 as [_ Hca _].
    eapply Forall_suffix; [apply drop_until_current_spec|by apply Hca]. }
  set (rc3 := match m_cache rc2 with [] => fetch offset size false rc2 | _ => rc2 end) in *.
  assert (coherent F f rc3 ∧ m_clear rc3 = false) as [Hcoh3 Hclr3].
  { unfold rc3. destruct (m_cache rc2); [|done]. split; [by apply coherent_fetch|done]. }
  destruct (coherent_prefetch F f offset cont rc3 Hcoh3 Hclr3). by simplify_eq.
Qed.
End coherent_read.

Lemma coherent_complete (F : nat → bytes) (f : bytes) (rc : ReadCache) (now : Z) (k i : nat) (o n : Z)
    (b : bytes) :
  coherent F f rc → rc_inflight rc !! k = Some (i, o, n) →
  NoDup (map (λ e, e.1.1) (rc_inflight rc)) →
  coherent F f (complete now k (Value b) rc).
Proof.
  intros [Hp Hca Hl] Hk Hnd. unfold complete. rewrite Hk.
  destruct (rc_heap rc !! i) as [rd|] eqn:Hi; [|by split].
  assert (i < length (rc_heap rc))%nat as Hlt by (by eapply lookup_lt_Some).
  split; simpl; [|done|].
  - intros j Hj. apply Hp. unfold fulfilled in *. simpl in Hj.
    destruct (decide (i = j)) as [<-|Hne].
    + rewrite list_lookup_insert_eq in Hj by done. done.
    + by rewrite list_lookup_insert_ne in Hj.
  - intros j rdj. rewrite list_lookup_insert_Some. intros [(<- & <- & _)|[Hne Hj]]; [done|].
    specialize (Hl j rdj Hj). destruct (rd_promise rdj) as [[]|]; try done.
    apply list_elem_of_fmap in Hl as (e & -> & He).
    apply list_elem_of_fmap. exists e. split; [done|].
    apply list_elem_of_lookup in He as [k' Hk'].
    destruct (decide (k' = k)) as [->|Hnk]; [rewrite Hk in Hk'; by simplify_eq|].
    apply list_elem_of_lookup. destruct (decide (k' < k)%nat).
    + exists k'. by rewrite list_lookup_delete_lt.
    + exists (k' - 1)%nat. rewrite list_lookup_delete_ge by lia.
      replace (S (k' - 1)) with k' by lia. done.
Qed.

Lemma coherent_result (F : nat → bytes) (f : bytes) (rc rc' : ReadCache) (latency : Z) (i : nat)
    (offset size : Z) (r : Try bytes) :
  coherent F f rc → readFromCache latency i offset size rc = Some (rc', r) → coherent F f rc'.
Proof.
  intros [Hp Hca Hl] Hr. unfold readFromCache in Hr.
  destruct (rc_heap rc !! i) as [rd|] eqn:Hi; simpl in Hr; [|done].
  destruct (rd_promise rd) as [[u|e]|] eqn:Hpr; simpl in Hr; simplify_eq; [|by split].
  assert (i < length (rc_heap rc))%nat as Hlt by (by eapply lookup_lt_Some).
  split; simpl; [|done|].
  - intros j Hj. apply Hp. unfold fulfilled in *. simpl in Hj.
    destruct (decide (i = j)) as [<-|Hne].
    + by rewrite list_lookup_insert_eq in Hj by done.
    + by rewrite list_lookup_insert_ne in Hj.
  - intros j rdj. rewrite list_lookup_insert_Some. intros [(<- & <- & _)|[Hne Hj]]; [done|by apply Hl].
Qed.

(** ** A buffered file against the file it stands for *)

Section buffered.
Context {H : Type} `{FL : FileHandleLaws H} (bl : BufferLimits).
Hypothesis Hread_max : 0 <= readBufferMaxSize bl.
Hypothesis Hread_fits : readBufferMaxSize bl <= max_read.
Hypothesis Hwrite_max : 0 <= writeBufferMaxSize bl.

Abbreviation maxSize := (readBufferMaxSize bl).
Abbreviation wb_fine := (wb_ok (writeBufferMaxSize bl) max_write).
Implicit Types (bh : BufferedFileHandle H).

(** The fetches that were asked of the storage are not too long for it. *)
Definition fetches_fit (rc : ReadCache) : Prop := Forall (λ e, e.2 <= max_read) (rc_inflight rc).

Definition cache_ok (f : bytes) (rc : ReadCache) : Prop :=
  ∃ F reqs, rc_ok F maxSize reqs rc ∧ coherent F f rc ∧ fetches_fit rc.

Lemma fetches_fit_complete (now : Z) (k : nat) (r : Try bytes) (rc : ReadCache) :
  fetches_fit rc → fetches_fit (complete now k r rc).
Proof.
  unfold fetches_fit, complete. intros Hf. destruct (rc_inflight rc !! k) as [[[i o] n]|]; [|done].
  destruct (rc_heap rc !! i); [|done]. simpl. by apply Forall_delete.
Qed.

(** [spec] is the file as its user sees it, [n] the bytes written so far. *)
Record bh_ok (spec : bytes) (n : Z) (bh : BufferedFileHandle H) : Prop := {
  bh_wb : wb_fine n (m_writeBuffer bh);
  bh_bytes : n <= UINT64_MAX;
  bh_ids : ∃ returned, ids_ok returned (m_writeBuffer bh);
  bh_values : all_values (m_writeBuffer bh);
  bh_view : apply_writes (contents (m_wrappedHandle bh)) (outstanding (m_writeBuffer bh)) = spec;
  bh_cache : cache_ok (contents (m_wrappedHandle bh)) (m_readCache bh);
  bh_handle : handle_ok (m_wrappedHandle bh)
}.

Lemma bh_ok_new (h : H) : handle_ok h → bh_ok (contents h) 0 (new_BufferedFileHandle bl h).
Proof.
  intros Hh. split; simpl; [..|done].
  - by apply wb_ok_new.
  - unfold UINT64_MAX. lia.
  - exists []. apply ids_ok_new.
  - intros p t. simpl. by rewrite lookup_empty.
  - done.
  - exists (λ _, contents h), []. split_and!; [by apply rc_ok_new|apply coherent_new|constructor].
Qed.

Lemma runBatch_cleared (n d : Z) (wb : WriteBuffer) (h : H) :
  wb_fine n wb → handle_ok h → n <= UINT64_MAX →
  let '(wb', h', cleared) := runBatch d wb h in
  (cleared = true ∨ (wb' = wb ∧ h' = h ∧ cleared = false)).
Proof.
  intros [_ _ _ _ _ _ Ho Hb] Hh Hn. unfold runBatch. destruct (m_writeFuture wb) as [|b chain] eqn:Hw; [auto|].
  unfold outstanding in Ho. rewrite Hw in *. simpl in Ho. rewrite <-app_assoc in Ho.
  apply Forall_app in Ho as [Hob _]. apply Forall_cons in Hb as [Hb _].
  destruct (multiwrite_spec_aux (batch_buffers b) h Hh Hob) as (h' & Hrun & _); [lia|].
  rewrite Hrun. by left.
Qed.

Lemma run_batch_ok (spec : bytes) (n d : Z) bh : bh_ok spec n bh → bh_ok spec n (run_batch d bh).
Proof.
  intros [Hwb Hn [ret Hids] Hv Hview Hc Hh]. unfold run_batch.
  pose proof (runBatch_ok _ _ n d ret (m_writeBuffer bh) (m_wrappedHandle bh) Hwb Hids) as Hok.
  pose proof (runBatch_view _ n d (m_writeBuffer bh) (m_wrappedHandle bh) Hwb Hh Hn) as Hvw.
  pose proof (runBatch_cleared n d (m_writeBuffer bh) (m_wrappedHandle bh) Hwb Hh Hn) as Hcl.
  pose proof (all_values_exec 0 0 (writeBufferMaxSize bl) n (OpRun d) (m_writeBuffer bh)) as Hav. simpl in Hav.
  destruct (runBatch d (m_writeBuffer bh) (m_wrappedHandle bh)) as [[wb h] cleared] eqn:Hrb.
  destruct Hok as [Hwb' Hids']. destruct Hvw as (Hvw & Hh' & _).
  split; simpl; [done|done|by exists ret| |by rewrite Hvw| |done].
  - eapply (Hav wb (m_wrappedHandle bh) h []); [done..|]. by rewrite Hrb.
  - destruct Hcl as [->|(-> & -> & ->)]; [|done]. destruct Hc as (F & reqs & Hrc & Hcoh & Hfit).
    destruct (coherent_switch F _ (contents h) maxSize reqs (m_readCache bh) Hrc Hcoh).
    by eexists _, reqs.
Qed.

Lemma run_batches_ok (spec : bytes) (n : Z) (ds : list Z) bh :
  bh_ok spec n bh → bh_ok spec n (run_batches ds bh).
Proof.
  unfold run_batches. revert bh. induction ds as [|d ds IH]; intros bh Hok; simpl; [done|].
  by apply IH, run_batch_ok.
Qed.

Lemma run_batches_exec (minS maxS : Z) (ds : list Z) bh :
  exec_all minS maxS (map OpRun ds) (m_writeBuffer bh) (m_wrappedHandle bh)
  = Some (m_writeBuffer (run_batches ds bh), m_wrappedHandle (run_batches ds bh), []).
Proof.
  unfold run_batches. revert bh. induction ds as [|d ds IH]; intros bh; simpl; [done|].
  specialize (IH (run_batch d bh)). unfold run_batch in *.
  destruct (runBatch d (m_writeBuffer bh) (m_wrappedHandle bh)) as [[wb h] cleared].
  simpl in *. by rewrite IH.
Qed.

(** The pushed batches run: nothing is pushed meanwhile, and what was ready
    stays ready. *)
Lemma run_batches_frame (ds : list Z) bh :
  m_buffers (m_writeBuffer (run_batches ds bh)) = m_buffers (m_writeBuffer bh) ∧
  wb_nextPromise (m_writeBuffer (run_batches ds bh)) = wb_nextPromise (m_writeBuffer bh) ∧
  m_confirmationFutures (m_writeBuffer (run_batches ds bh)) = m_confirmationFutures (m_writeBuffer bh) ∧
  (∀ p, is_Some (wb_promises (m_writeBuffer bh) !! p) →
        is_Some (wb_promises (m_writeBuffer (run_batches ds bh)) !! p)).
Proof.
  unfold run_batches. revert bh. induction ds as [|d ds IH]; intros bh; simpl; [done|].
  destruct (IH (run_batch d bh)) as (-> & -> & -> & Hp). clear IH.
  assert (m_buffers (m_writeBuffer (run_batch d bh)) = m_buffers (m_writeBuffer bh) ∧
    wb_nextPromise (m_writeBuffer (run_batch d bh)) = wb_nextPromise (m_writeBuffer bh) ∧
    m_confirmationFutures (m_writeBuffer (run_batch d bh)) = m_confirmationFutures (m_writeBuffer bh) ∧
    (∀ p, is_Some (wb_promises (m_writeBuffer bh) !! p) →
          is_Some (wb_promises (m_writeBuffer (run_batch d bh)) !! p))) as (-> & -> & -> & Hp1).
  { unfold run_batch, runBatch. destruct (m_writeFuture (m_writeBuffer bh)) as [|b chain]; [done|].
    destruct (multiwrite _ _) as [h [v|e]]; simpl; split_and!; [done..| |done|done|done|];
      intros p Hp0; (destruct (decide (p = batch_promise b)) as [->|Hne];
        [rewrite lookup_insert_eq; by eexists|by rewrite lookup_insert_ne]). }
  split_and!; auto.
Qed.

Lemma run_batches_ids (n : Z) (ds : list Z) (ret : list nat) bh :
  wb_fine n (m_writeBuffer bh) → ids_ok ret (m_writeBuffer bh) → ids_ok ret (m_writeBuffer (run_batches ds bh)).
Proof.
  unfold run_batches. revert bh. induction ds as [|d ds IH]; intros bh Hwb Hids; simpl; [done|].
  pose proof (runBatch_ok _ _ n d ret (m_writeBuffer bh) (m_wrappedHandle bh) Hwb Hids) as Hok.
  assert (wb_fine n (m_writeBuffer (run_batch d bh)) ∧ ids_ok ret (m_writeBuffer (run_batch d bh))) as [? ?];
    [|by apply IH].
  unfold run_batch. by destruct (runBatch d (m_writeBuffer bh) (m_wrappedHandle bh)) as [[wb h] c].
Qed.

Lemma await_ready (promises : gmap nat (Try unit)) (ids : list nat) (r : Try unit) :
  await promises ids = Some r → Forall (λ p, is_Some (promises !! p)) ids.
Proof.
  revert r. induction ids as [|p ids IH]; intros r Ha; [done|]. simpl in Ha.
  apply bind_Some in Ha as (t & Ht & Ha). apply bind_Some in Ha as (r' & Hr' & _).
  constructor; [by eexists|by eapply IH].
Qed.

(** Every confirmation that was handed out before (to a caller of [write],
    [read], [fsync] or [flush]) has arrived: the confirmations that are neither
    in the queue nor fulfilled are those that some caller still waits for. *)
Definition settled bh : Prop :=
  let wb := m_writeBuffer bh in
  ∀ p, (p < wb_nextPromise wb)%nat → p ∉ map snd (m_confirmationFutures wb) → is_Some (wb_promises wb !! p).

(** What [sync] does whether or not its future is ready. *)
Lemma sync_spec (spec : bytes) (n : Z) (ds : list Z) bh :
  bh_ok spec n bh →
  ∃ wb ids ret, WriteBuffer.fsync (m_writeBuffer bh) = Some (wb, ids) ∧
    let bh1 := run_batches ds (mk_BufferedFileHandle wb (m_readCache bh) (m_wrappedHandle bh)) in
    bh_ok spec n bh1 ∧ ids_ok (ret ++ ids) (m_writeBuffer bh1) ∧
    m_confirmationFutures (m_writeBuffer bh1) = [] ∧ total_size (m_buffers (m_writeBuffer bh1)) = 0 ∧
    ret ++ map snd (m_confirmationFutures (m_writeBuffer bh)) = seq 0 (wb_nextPromise (m_writeBuffer bh)) ∧
    (∀ p, is_Some (wb_promises (m_writeBuffer bh) !! p) → is_Some (wb_promises (m_writeBuffer bh1) !! p)) ∧
    (length (m_writeFuture (pushBuffer (m_writeBuffer bh))) ≤ length ds →
       m_writeFuture (m_writeBuffer bh1) = [])%nat.
Proof.
  intros Hok. pose proof Hok as [Hwb Hn [ret Hids] Hv Hview Hc Hh].
  destruct (fsync_ok _ _ Hwrite_max n ret (m_writeBuffer bh) Hwb Hids Hn)
    as (wb1 & ids & Hf & Hwb1 & Hids1 & Hout & Hq & Hz & Hp & Hch).
  set (bh0 := mk_BufferedFileHandle wb1 (m_readCache bh) (m_wrappedHandle bh)).
  assert (bh_ok spec n bh0) as Hok0.
  { split; simpl; [done|done|by eexists|by unfold all_values; rewrite Hp|by rewrite Hout|done|done]. }
  destruct (run_batches_frame ds bh0) as (HB & HN & HQ & HP). simpl in HB, HN, HQ, HP. rewrite Hp in HP.
  exists wb1, ids, ret. split; [done|]. cbv zeta. fold bh0.
  split_and!; [by apply run_batches_ok| | | | |done|].
  - by apply (run_batches_ids n).
  - by rewrite HQ.
  - by rewrite HB.
  - by destruct Hids.
  - intros Hlen. pose proof (run_batches_exec 0 0 ds bh0) as Hex.
    destruct (run_all_batches 0 0 _ n ds (ret ++ ids) wb1 (m_wrappedHandle bh) Hwb1 Hids1 Hh Hn)
      as (wb2 & h2 & Hex2 & Hch2 & _);
      [by unfold all_values; rewrite Hp|by rewrite Hch|].
    simpl in Hex. rewrite Hex2 in Hex. by injection Hex as <- _.
Qed.

(** Once the chain is empty the storage holds the file. *)
Lemma contents_written (spec : bytes) (n : Z) bh :
  bh_ok spec n bh → m_writeFuture (m_writeBuffer bh) = [] → total_size (m_buffers (m_writeBuffer bh)) = 0 →
  contents (m_wrappedHandle bh) = spec.
Proof.
  intros [_ _ _ _ Hview _ _] Hch Hz. unfold outstanding in Hview. rewrite Hch in Hview. simpl in Hview.
  by rewrite apply_writes_empty in Hview.
Qed.

(** A ready future keeps the handle in order, and tells of no error. *)
Lemma sync_keeps (spec : bytes) (n : Z) (ds : list Z) bh bh' (r : Try unit) :
  bh_ok spec n bh → sync ds bh = Some (bh', r) → bh_ok spec n bh' ∧ r = Value tt.
Proof.
  intros Hok Hs. destruct (sync_spec spec n ds bh Hok) as (wb & ids & ret & Hf & Hok1 & _ & _).
  unfold sync in Hs. rewrite Hf in Hs. simpl in Hs. apply bind_Some in Hs as (r' & Ha & Hs).
  injection Hs as <- <-. split; [done|]. pose proof (await_ready _ _ _ Ha) as Hr.
  rewrite await_values in Ha; [by injection Ha as <-|]. eapply Forall_impl; [exact Hr|].
  intros p [t Ht]. rewrite Ht. f_equal. by eapply (bh_values _ _ _ Hok1).
Qed.

(** When nothing that was handed out before is outstanding and the future is
    ready, the storage holds the file: the batches run in order, so the last
    confirmation in the queue comes after all of them. *)
Lemma sync_settled (spec : bytes) (n : Z) (ds : list Z) bh bh' (r : Try unit) :
  bh_ok spec n bh → settled bh → sync ds bh = Some (bh', r) → contents (m_wrappedHandle bh') = spec.
Proof.
  intros Hok Hset Hs. destruct (sync_keeps spec n ds bh bh' r Hok Hs) as [Hok' _].
  destruct (sync_spec spec n ds bh Hok) as (wb & ids & ret & Hf & _ & Hids & Hq & Hz & Hret & Hp & _).
  unfold sync in Hs. rewrite Hf in Hs. simpl in Hs. apply bind_Some in Hs as (r' & Ha & Hs).
  injection Hs as <- <-. apply await_ready in Ha. rewrite Forall_forall in Ha.
  apply (contents_written spec n); [done| |done].
  destruct Hids as [Honce [Hle _] Hdone]. rewrite Hq, app_nil_r in Honce.
  set (wb' := m_writeBuffer _) in *. apply length_zero_iff_nil.
  destruct (decide (wb_nextPromise wb' = 0)%nat) as [Hz0|Hnz]; [lia|].
  assert (is_Some (wb_promises wb' !! (wb_nextPromise wb' - 1)%nat)) as Hlast; [|apply Hdone in Hlast; lia].
  assert ((wb_nextPromise wb' - 1)%nat ∈ ret ++ ids) as [Hin|Hin]%elem_of_app
    by (rewrite Honce; apply elem_of_seq; lia); [|by apply Ha].
  apply Hp, Hset.
  - assert ((wb_nextPromise wb' - 1)%nat ∈ seq 0 (wb_nextPromise (m_writeBuffer bh))) as Hs%elem_of_seq
      by (rewrite <-Hret; apply elem_of_app; by left). lia.
  - intros Hq'. assert (NoDup (ret ++ map snd (m_confirmationFutures (m_writeBuffer bh)))) as Hnd
      by (rewrite Hret; apply NoDup_seq).
    apply NoDup_app in Hnd as (_ & Hnd & _). by eapply Hnd.
Qed.

(** The future becomes ready once the batches of the chain have run. *)
Lemma sync_ready (spec : bytes) (n : Z) (ds : list Z) bh :
  bh_ok spec n bh → (length (m_writeFuture (pushBuffer (m_writeBuffer bh))) ≤ length ds)%nat →
  is_Some (sync ds bh).
Proof.
  intros Hok Hlen. destruct (sync_spec spec n ds bh Hok) as (wb & ids & ret & Hf & Hok1 & Hids & Hq & _ & _ & _ & Hch).
  specialize (Hch Hlen). unfold sync. rewrite Hf. simpl. rewrite await_values; [by eexists|].
  apply Forall_forall. intros p Hpin. destruct Hids as [Honce _ Hdone]. rewrite Hch, Hq, ?app_nil_r in *.
  destruct (proj2 (Hdone p)) as [t Ht]; [|rewrite Ht; f_equal; by eapply (bh_values _ _ _ Hok1)].
  simpl. assert (p ∈ seq 0 (wb_nextPromise (m_writeBuffer (run_batches ds
    (mk_BufferedFileHandle wb (m_readCache bh) (m_wrappedHandle bh)))))) as Hin%elem_of_seq; [|lia].
  rewrite <-Honce. apply elem_of_app. by right.
Qed.

Lemma serve_fetch_ok (F : nat → bytes) (reqs : list Z) (now : Z) (k : nat) bh :
  rc_ok F maxSize reqs (m_readCache bh) → coherent F (contents (m_wrappedHandle bh)) (m_readCache bh) →
  handle_ok (m_wrappedHandle bh) → fetches_fit (m_readCache bh) →
  let bh' := serve_fetch now k bh in
  rc_ok F maxSize reqs (m_readCache bh') ∧
  coherent F (contents (m_wrappedHandle bh')) (m_readCache bh') ∧
  contents (m_wrappedHandle bh') = contents (m_wrappedHandle bh) ∧
  handle_ok (m_wrappedHandle bh') ∧ fetches_fit (m_readCache bh') ∧
  m_writeBuffer bh' = m_writeBuffer bh ∧
  heap_ext (rc_heap (m_readCache bh)) (rc_heap (m_readCache bh')) ∧
  (k < length (rc_inflight (m_readCache bh)) →
   length (rc_inflight (m_readCache bh')) = length (rc_inflight (m_readCache bh)) - 1)%nat.
Proof.
  intros Hrc Hcoh Hh Hfit bh'. unfold bh', serve_fetch.
  destruct (rc_inflight (m_readCache bh) !! k) as [[[i o] n]|] eqn:Hk.
  2:{ split_and!; try done; [apply heap_ext_refl|]. apply lookup_ge_None in Hk. lia. }
  pose proof Hrc as [_ Hheap Hin Hnd _ _ _].
  pose proof (Forall_lookup_1 _ _ _ _ Hin Hk) as (rd & Hi & Ho & Hn & Hp). simpl in *.
  destruct (Hheap i n rd Hn Hi) as [(Hr1 & Hr2 & Hr3) _ _]. rewrite <-Ho.
  pose proof (Forall_lookup_1 _ _ _ _ Hfit Hk) as Hmax. simpl in Hmax.
  destruct (fh_read_value (m_wrappedHandle bh) (rd_offset rd) n Hh Hr1 (conj Hr2 Hmax) Hr3) as (h' & Hread & Hc' & Hh').
  rewrite Hread. simpl.
  assert (F i = contents (m_wrappedHandle bh)) as HF.
  { destruct Hcoh as [Hpend _ _]. apply Hpend. unfold fulfilled. by rewrite Hi, Hp. }
  destruct (rc_ok_complete F maxSize reqs (m_readCache bh) now k i o n
              (Value (pread (contents (m_wrappedHandle bh)) (rd_offset rd) n)) Hrc Hk) as [Hrc' Hext].
  { intros b [= <-]. by rewrite HF, Ho. }
  split_and!; try done.
  - rewrite Hc'. by eapply coherent_complete.
  - by apply fetches_fit_complete.
  - intros Hlt. unfold complete. rewrite Hk, Hi. simpl. by rewrite length_delete by done.
Qed.

Lemma serve_all_ok (F : nat → bytes) (reqs : list Z) (now : Z) (fuel : nat) bh :
  rc_ok F maxSize reqs (m_readCache bh) → coherent F (contents (m_wrappedHandle bh)) (m_readCache bh) →
  handle_ok (m_wrappedHandle bh) → fetches_fit (m_readCache bh) →
  (length (rc_inflight (m_readCache bh)) ≤ fuel)%nat →
  let bh' := serve_all fuel now bh in
  rc_ok F maxSize reqs (m_readCache bh') ∧
  coherent F (contents (m_wrappedHandle bh')) (m_readCache bh') ∧
  contents (m_wrappedHandle bh') = contents (m_wrappedHandle bh) ∧
  handle_ok (m_wrappedHandle bh') ∧ fetches_fit (m_readCache bh') ∧
  m_writeBuffer bh' = m_writeBuffer bh ∧
  heap_ext (rc_heap (m_readCache bh)) (rc_heap (m_readCache bh')) ∧
  rc_inflight (m_readCache bh') = [].
Proof.
  revert bh. induction fuel as [|fuel IH]; intros bh Hrc Hcoh Hh Hfit Hlen; simpl.
  { split_and!; try done; [apply heap_ext_refl|]. destruct (rc_inflight _); [done|simpl in *; lia]. }
  destruct (serve_fetch_ok F reqs now 0 bh Hrc Hcoh Hh Hfit) as (Hrc1 & Hcoh1 & Hc1 & Hh1 & Hfit1 & Hw1 & Hext1 & Hl1).
  destruct (IH (serve_fetch now 0 bh) Hrc1 Hcoh1 Hh1 Hfit1) as (Hrc2 & Hcoh2 & Hc2 & Hh2 & Hfit2 & Hw2 & Hext2 & Hin2).
  { destruct (decide (length (rc_inflight (m_readCache bh)) = 0%nat)) as [Hz|Hnz]; [|lia].
    unfold serve_fetch. destruct (rc_inflight (m_readCache bh)) eqn:Hi; [|done]. simpl. rewrite Hi. simpl. lia. }
  split_and!; try done; [congruence|congruence|by eapply heap_ext_trans].
Qed.

Lemma bh_ok_cache (spec : bytes) (n : Z) (rc : ReadCache) bh :
  bh_ok spec n bh → cache_ok (contents (m_wrappedHandle bh)) rc →
  bh_ok spec n (mk_BufferedFileHandle (m_writeBuffer bh) rc (m_wrappedHandle bh)).
Proof. intros [] Hrc. by split. Qed.

(** The operations of the write buffer that leave the storage alone. *)
Lemma bh_ok_exec (spec : bytes) (n : Z) (op : wb_op) (wb : WriteBuffer) (ids : list nat) bh :
  bh_ok spec n bh → op_ok (max_write - writeBufferMaxSize bl) op → n + op_bytes op <= UINT64_MAX →
  exec (writeBufferMinSize bl) (writeBufferMaxSize bl) op (m_writeBuffer bh) (m_wrappedHandle bh)
  = Some (wb, m_wrappedHandle bh, ids) →
  bh_ok (spec_op spec op) (n + op_bytes op)
    (mk_BufferedFileHandle wb (m_readCache bh) (m_wrappedHandle bh)).
Proof.
  intros [Hwb Hn [ret Hids] Hv Hview Hc Hh] Hop Hmax Hex.
  destruct (exec_ok (writeBufferMinSize bl) (writeBufferMaxSize bl) Hwrite_max _ op n ret (m_writeBuffer bh)
              (m_wrappedHandle bh) Hwb Hids Hop Hmax) as (wb1 & h1 & ids1 & Hex1 & Hwb1 & Hids1).
  rewrite Hex in Hex1. injection Hex1 as <- <- <-.
  split; simpl; [done|done|by eexists| | |done|done].
  - by eapply (all_values_exec _ _ _ n op).
  - rewrite <-Hview. by eapply (exec_view _ _ Hwrite_max op n ret).
Qed.

Lemma cache_read_ok (f : bytes) (rc : ReadCache) (now offset size continuousSize : Z) :
  cache_ok f rc → 0 <= offset → 0 <= size <= max_read → size <= continuousSize →
  offset + continuousSize <= OFF_MAX →
  ∃ F reqs rc' i, cache_read bl now offset size continuousSize rc = (rc', Some i) ∧
    rc_ok F maxSize reqs rc' ∧ coherent F f rc' ∧ fetches_fit rc' ∧
    serves reqs rc' offset size i ∧ F i = f.
Proof.
  intros (F & reqs & Hrc & Hcoh & Hfit) Hoff [Hsize Hsmax] Hcont Hend. unfold cache_read.
  destruct (read_spec (readBufferMinSize bl) maxSize (2 * readBufferPrefetchDuration bl) (targetLatency bl)
    (prefetchPowerBase bl) Hread_max F reqs rc now offset size continuousSize Hrc Hoff Hsize Hcont Hend)
    as (rc' & reqs' & i & extra & Hread & Hrc' & _ & Hs & Hinf & Hextra & _).
  destruct (coherent_read _ _ _ _ _ F f rc rc' now offset size continuousSize _ Hcoh Hread) as (Hcoh' & Hclr & Hfront).
  exists F, (reqs ++ reqs'), rc', i. split_and!; try done.
  { unfold fetches_fit. rewrite Hinf. apply Forall_app. split; [done|]. eapply Forall_impl; [exact (proj2 Hextra)|].
    intros e [[_ ->]|(_ & ? & _)]; lia. }
  destruct Hcoh' as [_ Hca _]. specialize (Hca Hclr).
  destruct (m_cache rc') as [|j c]; simplify_eq/=. by apply Forall_inv in Hca.
Qed.

(** All fetches are served, so the block that serves a read is there. *)
Lemma readFromCache_ready (F : nat → bytes) (f : bytes) (reqs : list Z) (rc : ReadCache) (i : nat)
    (latency offset size : Z) (rd : ReadData) (n : Z) :
  rc_ok F maxSize reqs rc → coherent F f rc → rc_inflight rc = [] → 0 <= offset → 0 <= size →
  rc_heap rc !! i = Some rd → reqs !! i = Some n → rd_offset rd <= offset →
  (offset < rd_offset rd + n ∨ (rd_offset rd = offset ∧ n = size)) →
  ∃ rc' b, readFromCache latency i offset size rc = Some (rc', Value b) ∧ good_answer (F i) offset size b.
Proof.
  intros Hrc Hcoh Hin Hoff Hsize Hi Hn Ho Hcover.
  assert (∃ u, rd_promise rd = Some (Value u)) as [u Hp].
  { destruct Hcoh as [_ _ Hl]. specialize (Hl i rd Hi). rewrite Hin in Hl. simpl in Hl.
    destruct (rd_promise rd) as [[u|e]|]; [by exists u|done|by apply not_elem_of_nil in Hl]. }
  destruct (data_of _ _ _ _ _ _ Hrc Hi) as (n' & Hn' & Hd). simplify_eq.
  assert (∃ rc' b, readFromCache latency i offset size rc = Some (rc', Value b)) as (rc' & b & Hr).
  { unfold readFromCache. rewrite Hi. simpl. rewrite Hp. simpl.
    destruct Hd as [Hd1 Hd2 Hd3]. rewrite Hp in Hd3. destruct Hd3 as [Hb Hs].
    rewrite (block_part_spec (F i) rd n) by (done || lia). eauto. }
  exists rc', b. split; [done|]. by eapply (serves_answer maxSize).
Qed.

(** What happens to a buffered file between two reads, in any order: its user
    writes, waits for what was written, or calls [fsync] or [flush], the timer
    fires, a batch runs, a read is asked of the cache, the storage answers a
    fetch, a reader takes its part of a block, the cache is told to clear. *)
Inductive bh_step : bytes * Z * BufferedFileHandle H → bytes * Z * BufferedFileHandle H → Prop :=
| bh_write spec n bh bh' offset buf r :
    fits (max_write - writeBufferMaxSize bl) (offset, buf) → n + chainLength buf <= UINT64_MAX →
    write bl offset buf bh = Some (bh', r) →
    bh_step (spec, n, bh) (pwrite spec offset buf, n + chainLength buf, bh')
| bh_wait spec n bh wb ids :
    WriteBuffer.fsync (m_writeBuffer bh) = Some (wb, ids) →
    bh_step (spec, n, bh) (spec, n, mk_BufferedFileHandle wb (m_readCache bh) (m_wrappedHandle bh))
| bh_timer spec n bh :
    bh_step (spec, n, bh)
      (spec, n, mk_BufferedFileHandle (timerFlush (m_writeBuffer bh)) (m_readCache bh) (m_wrappedHandle bh))
| bh_batch spec n bh duration : bh_step (spec, n, bh) (spec, n, run_batch duration bh)
| bh_request spec n bh rc i now offset size continuousSize :
    0 <= offset → 0 <= size <= max_read → size <= continuousSize → offset + continuousSize <= OFF_MAX →
    cache_read bl now offset size continuousSize (m_readCache bh) = (rc, i) →
    bh_step (spec, n, bh) (spec, n, mk_BufferedFileHandle (m_writeBuffer bh) rc (m_wrappedHandle bh))
| bh_fetch spec n bh now k : bh_step (spec, n, bh) (spec, n, serve_fetch now k bh)
| bh_answer spec n bh rc latency i offset size r :
    readFromCache latency i offset size (m_readCache bh) = Some (rc, r) →
    bh_step (spec, n, bh) (spec, n, mk_BufferedFileHandle (m_writeBuffer bh) rc (m_wrappedHandle bh))
| bh_clear spec n bh :
    bh_step (spec, n, bh)
      (spec, n, mk_BufferedFileHandle (m_writeBuffer bh) (ReadCache.clear (m_readCache bh)) (m_wrappedHandle bh))
| bh_fsync spec n bh bh' ds isDataSync r :
    fsync ds isDataSync bh = Some (bh', r) → bh_step (spec, n, bh) (spec, n, bh')
| bh_flush spec n bh bh' ds r :
    flush ds bh = Some (bh', r) → bh_step (spec, n, bh) (spec, n, bh').

Lemma bh_ok_fetch (spec : bytes) (n now : Z) (k : nat) bh :
  bh_ok spec n bh → bh_ok spec n (serve_fetch now k bh).
Proof.
  intros [Hwb Hn Hids Hv Hview (F & reqs & Hrc & Hcoh & Hfit) Hh].
  destruct (serve_fetch_ok F reqs now k bh Hrc Hcoh Hh Hfit) as (Hrc' & Hcoh' & Hc' & Hh' & Hfit' & Hw' & _).
  split; rewrite ?Hw'; [done..|by rewrite Hc'|by eexists _, _|done].
Qed.

(** The wrapped handle is asked for something that leaves the file, and the
    cache is told to clear. *)
Lemma bh_ok_clear (spec : bytes) (n : Z) (h : H) bh :
  bh_ok spec n bh → contents h = contents (m_wrappedHandle bh) → handle_ok h →
  bh_ok spec n (mk_BufferedFileHandle (m_writeBuffer bh) (ReadCache.clear (m_readCache bh)) h).
Proof.
  intros [Hwb Hn Hids Hv Hview (F & reqs & Hrc & Hcoh & Hfit) Hh] Hc Hh'.
  split; simpl; rewrite ?Hc; [done..| |done].
  exists F, reqs. split_and!; [by destruct Hrc; split|by apply coherent_clear|done].
Qed.

(** [fsync] and [flush] whose futures are ready. *)
Lemma fsync_keeps (spec : bytes) (n : Z) (ds : list Z) (isDataSync : bool) bh bh' (r : Try unit) :
  bh_ok spec n bh → fsync ds isDataSync bh = Some (bh', r) →
  bh_ok spec n bh' ∧
  (settled bh → contents (m_wrappedHandle bh') = spec) ∧
  ∃ h, handle_ok h ∧ r = (fh_fsync isDataSync h).2.
Proof.
  intros Hok Hf. unfold fsync in Hf. apply bind_Some in Hf as ([bh1 r1] & Hs & Hf).
  destruct (sync_keeps spec n ds bh bh1 r1 Hok Hs) as [Hok1 ->].
  destruct (fh_fsync_keeps (m_wrappedHandle bh1) isDataSync (bh_handle _ _ _ Hok1)) as [Hc Hh].
  destruct (fh_fsync isDataSync (m_wrappedHandle bh1)) as [h r2] eqn:Hr. simpl in *. simplify_eq. simpl in *.
  split_and!; [by apply bh_ok_clear| |].
  - intros Hset. rewrite Hc. by eapply (sync_settled spec n ds bh).
  - exists (m_wrappedHandle bh1). split; [by destruct Hok1|]. by rewrite Hr.
Qed.

Lemma flush_keeps (spec : bytes) (n : Z) (ds : list Z) bh bh' (r : Try unit) :
  bh_ok spec n bh → flush ds bh = Some (bh', r) → bh_ok spec n bh'.
Proof.
  intros Hok Hf. unfold flush in Hf. apply bind_Some in Hf as ([bh1 r1] & Hs & Hf).
  destruct (sync_keeps spec n ds bh bh1 r1 Hok Hs) as [Hok1 ->].
  destruct (fh_flush_keeps (m_wrappedHandle bh1) (bh_handle _ _ _ Hok1)) as [Hc Hh].
  destruct (fh_flush (m_wrappedHandle bh1)) as [h r2]. simpl in *. simplify_eq. by apply bh_ok_clear.
Qed.

Lemma fsync_ready (spec : bytes) (n : Z) (ds : list Z) (isDataSync : bool) bh :
  bh_ok spec n bh → (length (m_writeFuture (pushBuffer (m_writeBuffer bh))) ≤ length ds)%nat →
  is_Some (fsync ds isDataSync bh).
Proof.
  intros Hok Hlen. destruct (sync_ready spec n ds bh Hok Hlen) as [[bh1 r1] Hs].
  unfold fsync. rewrite Hs. simpl. destruct r1; [|by eexists].
  destruct (fh_fsync isDataSync (m_wrappedHandle bh1)). by eexists.
Qed.

Lemma bh_step_ok (s1 s2 : bytes * Z * BufferedFileHandle H) :
  bh_step s1 s2 → bh_ok s1.1.1 s1.1.2 s1.2 → bh_ok s2.1.1 s2.1.2 s2.2.
Proof.
  intros Hstep Hok. revert Hok.
  destruct Hstep as [spec n bh bh' offset buf r Hfits Hn Hw|spec n bh wb ids Hf|spec n bh|spec n bh d
    |spec n bh rc i now offset size cs H1 H2 H3 H4 Hread|spec n bh now k
    |spec n bh rc latency i offset size r Hr|spec n bh|spec n bh bh' ds isDataSync r Hf
    |spec n bh bh' ds r Hf]; simpl; intros Hok.
  - unfold write in Hw. destruct (WriteBuffer.write _ _ _ _ _) as [[wb [sz ids]]|] eqn:Hwr; [|done].
    simpl in Hw. injection Hw as <- <-.
    apply (bh_ok_exec spec n (OpWrite offset buf) wb ids bh Hok); simpl; [done..|by rewrite Hwr].
  - rewrite <-(Z.add_0_r n). apply (bh_ok_exec spec n OpFsync wb ids bh Hok); simpl;
      [done|rewrite Z.add_0_r; by destruct Hok|by rewrite Hf].
  - rewrite <-(Z.add_0_r n). apply (bh_ok_exec spec n OpTimer _ [] bh Hok); simpl;
      [done|rewrite Z.add_0_r; by destruct Hok|done].
  - by apply run_batch_ok.
  - apply bh_ok_cache; [done|].
    destruct (cache_read_ok _ (m_readCache bh) now offset size cs (bh_cache _ _ _ Hok) H1 H2 H3 H4)
      as (F & reqs & rc' & i' & Hread' & Hrc & Hcoh & Hfit & _).
    rewrite Hread in Hread'. injection Hread' as -> ->. by eexists _, _.
  - by apply bh_ok_fetch.
  - apply bh_ok_cache; [done|]. destruct (bh_cache _ _ _ Hok) as (F & reqs & Hrc & Hcoh & Hfit).
    exists F, reqs. split_and!; [by eapply rc_ok_result|by eapply coherent_result|].
    unfold fetches_fit, readFromCache in *. destruct (rc_heap _ !! i) as [rd|]; simpl in Hr; [|done].
    by destruct (rd_promise rd) as [[]|]; simplify_eq/=.
  - apply bh_ok_clear; [done|done|by destruct Hok].
  - by destruct (fsync_keeps spec n ds isDataSync bh bh' r Hok Hf).
  - by eapply flush_keeps.
Qed.

Lemma bh_reachable_ok (h : H) (spec : bytes) (n : Z) bh :
  handle_ok h →
  rtc bh_step (contents h, 0, new_BufferedFileHandle bl h) (spec, n, bh) → bh_ok spec n bh.
Proof.
  assert (∀ s1 s2, rtc bh_step s1 s2 → bh_ok s1.1.1 s1.1.2 s1.2 → bh_ok s2.1.1 s2.1.2 s2.2) as Hgen.
  { induction 1 as [|s1 s2 s3 H12 _ IH]; [done|]. intros Hok. by eapply IH, bh_step_ok. }
  intros Hh Hrtc. apply (Hgen _ _ Hrtc). by apply bh_ok_new.
Qed.

(** After [sync] the cache answers from what the storage holds. *)
Lemma read_synced (spec : bytes) (n : Z) (ds : list Z) (now latency offset size continuousSize : Z) bh bh1 :
  bh_ok spec n bh → sync ds bh = Some (bh1, Value tt) →
  0 <= offset → 0 <= size <= max_read → size <= continuousSize → offset + continuousSize <= OFF_MAX →
  ∃ bh' b, read bl ds now latency offset size continuousSize bh = Some (bh', Value b) ∧
    good_answer (contents (m_wrappedHandle bh1)) offset size b.
Proof.
  intros Hok Hs Hoff Hsize Hcont Hend.
  destruct (sync_keeps spec n ds bh bh1 _ Hok Hs) as [Hok1 _]. unfold read. rewrite Hs. simpl.
  destruct (cache_read_ok _ (m_readCache bh1) now offset size continuousSize (bh_cache _ _ _ Hok1))
    as (F & reqs & rc & i & Hread & Hrc & Hcoh & Hfit & (_ & rd & m & Hi & Hm & Ho & Hcover) & HF); [done..|].
  rewrite Hread. simpl. set (bh2 := mk_BufferedFileHandle (m_writeBuffer bh1) rc (m_wrappedHandle bh1)).
  destruct (serve_all_ok F reqs now (length (rc_inflight rc)) bh2 Hrc Hcoh)
    as (Hrc3 & Hcoh3 & Hc3 & _ & _ & _ & Hext & Hin); [by destruct Hok1|done|done|].
  destruct (Hext i rd Hi) as (rd3 & Hi3 & Ho3).
  destruct (readFromCache_ready F _ reqs _ i latency offset size rd3 m Hrc3 Hcoh3 Hin Hoff (proj1 Hsize) Hi3 Hm)
    as (rc4 & b & Hr & Hgood); [by rewrite Ho3|by rewrite Ho3|].
  rewrite Hr. simpl. eexists _, b. split; [done|]. by rewrite <-HF.
Qed.

Lemma read_ok (spec : bytes) (n : Z) (ds : list Z) (now latency offset size continuousSize : Z) bh :
  bh_ok spec n bh → settled bh →
  0 <= offset → 0 <= size <= max_read → size <= continuousSize → offset + continuousSize <= OFF_MAX →
  (∀ bh' r, read bl ds now latency offset size continuousSize bh = Some (bh', r) →
     ∃ b, r = Value b ∧ good_answer spec offset size b) ∧
  ((length (m_writeFuture (pushBuffer (m_writeBuffer bh))) ≤ length ds)%nat →
     is_Some (read bl ds now latency offset size continuousSize bh)).
Proof.
  intros Hok Hset Hoff Hsize Hcont Hend. split.
  - intros bh' r Hread. assert (∃ bh1, sync ds bh = Some (bh1, Value tt)) as [bh1 Hs].
    { unfold read in Hread. apply bind_Some in Hread as ([bh1 r1] & Hs & _).
      destruct (sync_keeps spec n ds bh bh1 r1 Hok Hs) as [_ ->]. eauto. }
    destruct (read_synced spec n ds now latency offset size continuousSize bh bh1) as (bh2 & b & Hr & Hg); [done..|].
    rewrite Hread in Hr. simplify_eq. exists b. split; [done|].
    by rewrite (sync_settled spec n ds bh bh1 _ Hok Hset Hs) in Hg.
  - intros Hlen. destruct (sync_ready spec n ds bh Hok Hlen) as [[bh1 r1] Hs].
    destruct (sync_keeps spec n ds bh bh1 r1 Hok Hs) as [_ ->].
    destruct (read_synced spec n ds now latency offset size continuousSize bh bh1) as (bh2 & b & Hr & _); [done..|].
    by eexists.
Qed.

End buffered.

(** C9: a file opened through the buffer agent reads what was written to it.
    Take any history of writes, flushes, fsyncs, timer events, batches, other
    reads, fetches and answers on a storage that does not fail, after which no
    caller still waits for the confirmation of an earlier write, read or fsync.
    Whatever batches run in the meantime, once a read is ready it has succeeded
    with a beginning of the requested range of the file with all writes applied,
    not empty unless that range is; and it is ready when the pushed batches
    have run. *)
Theorem agent_read_your_writes {H} `{FL : FileHandleLaws H} (bl : BufferLimits) (h : H)
    (spec : bytes) (n : Z) (bh : BufferedFileHandle H) (durations : list Z)
    (now latency offset size continuousSize : Z) :
  0 <= readBufferMaxSize bl <= max_read → 0 <= writeBufferMaxSize bl → handle_ok h →
  rtc (bh_step bl) (contents h, 0, new_BufferedFileHandle bl h) (spec, n, bh) → settled bh →
  0 <= offset → 0 <= size <= max_read → size <= continuousSize → offset + continuousSize <= OFF_MAX →
  (∀ bh' r, read bl durations now latency offset size continuousSize bh = Some (bh', r) →
     ∃ b, r = Value b ∧ good_answer spec offset size b) ∧
  ((length (m_writeFuture (pushBuffer (m_writeBuffer bh))) ≤ length durations)%nat →
     is_Some (read bl durations now latency offset size continuousSize bh)).
Proof. intros [Hmax Hfits] Hwmax Hh Hrtc. eapply read_ok; [done..|]. by eapply bh_reachable_ok. Qed.

Definition sample_open : BufferedFileHandle bytes := new_BufferedFileHandle sample_limits [x61; x62; x63].

Definition sample_written : BufferedFileHandle bytes :=
  match @write bytes sample_limits 1 [x78] sample_open with Some (bh, _) => bh | None => sample_open end.

Lemma sample_written_reachable :
  rtc (@bh_step bytes memory_handle memory_handle_laws sample_limits)
    ([x61; x62; x63], 0, sample_open) ([x61; x78; x63], 1, sample_written).
Proof.
  apply rtc_once.
  apply (@bh_write bytes memory_handle memory_handle_laws sample_limits [x61; x62; x63] 0 sample_open sample_written 1 [x78]
           (1, [])); [repeat split; vm_compute; congruence|vm_compute; congruence|].
  vm_compute. reflexivity.
Qed.

Lemma agent_read_your_writes_witness :
  (∀ bh' r, @read bytes memory_handle sample_limits [5] 7 3 0 3 3 sample_written = Some (bh', r) →
     ∃ b, r = Value b ∧ good_answer [x61; x78; x63] 0 3 b) ∧
  ((length (m_writeFuture (pushBuffer (m_writeBuffer sample_written))) ≤ length [5])%nat →
     is_Some (@read bytes memory_handle sample_limits [5] 7 3 0 3 3 sample_written)).
Proof.
  apply (@agent_read_your_writes bytes memory_handle memory_handle_laws sample_limits [x61; x62; x63]
           [x61; x78; x63] 1 sample_written [5] 7 3 0 3 3);
    [vm_compute; intuition congruence|vm_compute; congruence|done|exact sample_written_reachable| |
     vm_compute; try lia; intuition congruence..].
  intros p Hp. vm_compute in Hp. lia.
Defined.

(** A read that waits takes the confirmations out of the queue, so a second
    read that comes before the batches have run finds nothing to wait for: it
    goes to the storage at once and gives the file without the write.  In the
    same way an [fsync] succeeds with nothing written. *)
Definition sample_waiting : BufferedFileHandle bytes :=
  match WriteBuffer.fsync (m_writeBuffer sample_written) with
  | Some (wb, _) => mk_BufferedFileHandle wb (m_readCache sample_written) (m_wrappedHandle sample_written)
  | None => sample_written
  end.

Lemma agent_second_read_stale :
  rtc (@bh_step bytes memory_handle memory_handle_laws sample_limits)
    ([x61; x62; x63], 0, sample_open) ([x61; x78; x63], 1, sample_waiting) ∧
  snd <$> @read bytes memory_handle sample_limits [] 7 3 0 3 3 sample_waiting = Some (Value [x61; x62; x63]) ∧
  (λ x, (m_wrappedHandle x.1, x.2)) <$> @fsync bytes memory_handle [] false sample_waiting =
    Some ([x61; x62; x63], Value tt).
Proof.
  split_and!; [|vm_compute; reflexivity..].
  eapply rtc_r; [exact sample_written_reachable|].
  apply (@bh_wait bytes memory_handle memory_handle_laws sample_limits _ _ _ _ [0%nat]). vm_compute. reflexivity.
Qed.
