(* ===== verification/FlatOpScheduler.v ===== *)
(** * Operations of one file handle, one after another
      (src/src/flatOpScheduler.h)

    [schedule] appends an operation to a queue and, unless a drain is already
    under way, gives one to the executor.  The drain swaps the queues, visits
    the operations and looks again, until there is nothing left.  The drains
    given to the executor are a list of program counters, any of which may
    make the next step. *)

From stdpp Require Import base numbers list relations.
From Stdlib Require Import ZArith Lia.
From S2P Require Import Prelude.

(** Where a drain is: not started, before the test of the queue, in the loop
    over [m_usedQueue]. *)
Inductive drain_pc :=
| Queued
| LoopHead
| Visiting (k : nat).

Record scheduler (Op V : Type) := mk_scheduler {
  m_drainInProgress : bool;
  m_filledQueue : list Op;
  m_usedQueue : list Op;
  m_opVisitor : V;
  m_executor : list drain_pc
}.
Arguments mk_scheduler {Op V} _ _ _ _ _.
Arguments m_drainInProgress {Op V} _.
Arguments m_filledQueue {Op V} _.
Arguments m_usedQueue {Op V} _.
Arguments m_opVisitor {Op V} _.
Arguments m_executor {Op V} _.

Section scheduler.
Context {Op V : Type} (startDrain endDrain : V → V) (apply_visitor : Op → ST V unit).
Implicit Types (s : scheduler Op V).

Definition create (v : V) : scheduler Op V := mk_scheduler false [] [] v [].

Definition schedule (op : Op) s : scheduler Op V :=
  let shouldIDrain := negb (m_drainInProgress s) in
  mk_scheduler true (m_filledQueue s ++ [op]) (m_usedQueue s) (m_opVisitor s)
    (if shouldIDrain then m_executor s ++ [Queued] else m_executor s).

(** One step of the drain at [i]: the new state and the operation that was
    performed.  An exception of the visitor leaves [drainQueue].  [endDrain] is
    the destructor of the object that [startDrain] returned. *)
Definition drainQueue_step (i : nat) s : option (scheduler Op V * option Op) :=
  match m_executor s !! i with
  | None => None
  | Some Queued =>
      Some (mk_scheduler (m_drainInProgress s) (m_filledQueue s) (m_usedQueue s)
              (startDrain (m_opVisitor s)) (<[i := LoopHead]> (m_executor s)), None)
  | Some LoopHead =>
      match m_filledQueue s with
      | [] => Some (mk_scheduler false [] (m_usedQueue s) (endDrain (m_opVisitor s))
                      (delete i (m_executor s)), None)
      | _ => Some (mk_scheduler (m_drainInProgress s) (m_usedQueue s) (m_filledQueue s)
                     (m_opVisitor s) (<[i := Visiting 0]> (m_executor s)), None)
      end
  | Some (Visiting k) =>
      match m_usedQueue s !! k with
      | None => Some (mk_scheduler (m_drainInProgress s) (m_filledQueue s) []
                        (m_opVisitor s) (<[i := LoopHead]> (m_executor s)), None)
      | Some op =>
          match apply_visitor op (m_opVisitor s) with
          | (v, Value _) =>
              Some (mk_scheduler (m_drainInProgress s) (m_filledQueue s) (m_usedQueue s) v
                      (<[i := Visiting (S k)]> (m_executor s)), Some op)
          | (v, Exception _) =>
              Some (mk_scheduler (m_drainInProgress s) (m_filledQueue s) (m_usedQueue s) (endDrain v)
                      (delete i (m_executor s)), None)
          end
      end
  end.

(** The executor runs its drains until none is left; the operations in the
    order in which they were performed. *)
Fixpoint run_drains (fuel : nat) s : option (scheduler Op V * list Op) :=
  match m_executor s with
  | [] => Some (s, [])
  | _ :: _ =>
      match fuel with
      | O => None
      | S fuel' =>
          '(s1, o) ← drainQueue_step 0 s;
          '(s2, ops) ← run_drains fuel' s1;
          Some (s2, option_list o ++ ops)
      end
  end.

(** A history: the scheduler, the operations given to it and the operations
    performed. *)
Inductive history_step : scheduler Op V * list Op * list Op → scheduler Op V * list Op * list Op → Prop :=
| history_schedule s sch exe op : history_step (s, sch, exe) (schedule op s, sch ++ [op], exe)
| history_drain s s' i o sch exe :
    drainQueue_step i s = Some (s', o) → history_step (s, sch, exe) (s', sch, exe ++ option_list o).

(** ** At most one drain *)

(** What is left to perform, from the program counter of the only drain. *)
Definition left_over s : list Op :=
  match m_executor s with
  | [Visiting k] => drop k (m_usedQueue s) ++ m_filledQueue s
  | _ => m_filledQueue s
  end.

Definition sched_ok s : Prop :=
  match m_executor s with
  | [] => m_drainInProgress s = false ∧ m_filledQueue s = [] ∧ m_usedQueue s = []
  | [Visiting k] => m_drainInProgress s = true ∧ k ≤ length (m_usedQueue s)
  | [_] => m_drainInProgress s = true ∧ m_usedQueue s = []
  | _ => False
  end.

Lemma sched_ok_schedule (op : Op) s :
  sched_ok s → sched_ok (schedule op s) ∧ left_over (schedule op s) = left_over s ++ [op].
Proof.
  unfold sched_ok, left_over, schedule. destruct s as [b f u v [|d [|d' ds]]]; simpl; [..|by destruct d].
  - intros (-> & -> & ->). done.
  - intros Hok. assert (b = true) as -> by (by destruct d; destruct Hok).
    destruct d; simpl; rewrite ?app_assoc; done.
Qed.

Hypothesis visitor_total : ∀ op v, ∃ v', apply_visitor op v = (v', Value tt).

Lemma sched_ok_step (i : nat) (o : option Op) s s' :
  sched_ok s → drainQueue_step i s = Some (s', o) →
  sched_ok s' ∧ left_over s = option_list o ++ left_over s'.
Proof.
  unfold sched_ok, left_over, drainQueue_step. intros Hok Hs.
  destruct s as [b f u v ds]; simpl in *. destruct ds as [|d [|? ?]]; [done| |by destruct d].
  destruct i as [|i]; [|done]. simpl in Hs. destruct d as [| |k]; simpl in *.
  - by simplify_eq/=.
  - destruct Hok as [-> ->]. destruct f as [|op f]; simplify_eq/=; [done|].
    rewrite app_nil_r. split; [split; [done|lia]|done].
  - destruct Hok as [-> Hk]. destruct (u !! k) as [op|] eqn:Hop.
    + destruct (visitor_total op v) as [v' Hv]. rewrite Hv in Hs. simplify_eq/=.
      apply lookup_lt_Some in Hop as Hlt. split; [split; [done|lia]|].
      by rewrite (drop_S u op k Hop).
    + simplify_eq/=. apply lookup_ge_None in Hop. split; [done|]. by rewrite drop_ge by lia.
Qed.

Definition history_ok (h : scheduler Op V * list Op * list Op) : Prop :=
  sched_ok h.1.1 ∧ h.1.2 = h.2 ++ left_over h.1.1.

Lemma history_step_ok h h' : history_step h h' → history_ok h → history_ok h'.
Proof.
  intros Hstep. destruct Hstep as [s sch exe op|s s' i o sch exe Hs]; intros [Hok Hsch]; simpl in *.
  - destruct (sched_ok_schedule op s Hok) as [Hok' Hl]. split; [done|]. simpl. by rewrite Hl, Hsch, app_assoc.
  - destruct (sched_ok_step i o s s' Hok Hs) as [Hok' Hl]. split; [done|]. simpl. by rewrite Hsch, Hl, app_assoc.
Qed.

Lemma history_reachable_ok (v : V) h : rtc history_step (create v, [], []) h → history_ok h.
Proof.
  assert (∀ h1 h2, rtc history_step h1 h2 → history_ok h1 → history_ok h2) as Hgen.
  { induction 1; [done|]. eauto using history_step_ok. }
  intros Hrtc. by apply (Hgen _ _ Hrtc).
Qed.

(** ** What the visitor keeps

    [I draining v exe] holds of the visitor when it starts its drain, through
    the operations and after it. *)

Definition draining s : bool :=
  match m_executor s with [LoopHead] | [Visiting _] => true | _ => false end.

Definition visits_keep (I : bool → V → list Op → Prop) (sch : list Op) : Prop :=
  ∀ op v exe, exe ++ [op] `prefix_of` sch → I true v exe →
    I true (apply_visitor op v).1 (exe ++ [op]).

Lemma sched_step_visitor (I : bool → V → list Op → Prop) (i : nat) (o : option Op) s s'
    (sch exe : list Op) :
  (∀ v exe, I false v exe → I true (startDrain v) exe) →
  (∀ v exe, I true v exe → I false (endDrain v) exe) →
  sched_ok s → sch = exe ++ left_over s → drainQueue_step i s = Some (s', o) → visits_keep I sch →
  I (draining s) (m_opVisitor s) exe → I (draining s') (m_opVisitor s') (exe ++ option_list o).
Proof.
  intros Hstart Hend Hok Hsch Hs Hvisit HI.
  pose proof (sched_ok_step i o s s' Hok Hs) as [_ Hleft].
  unfold sched_ok, draining, drainQueue_step in *.
  destruct s as [b f u v ds]; simpl in *. destruct ds as [|d [|? ?]]; [done| |by destruct d].
  destruct i as [|i]; [|done]. simpl in Hs. destruct d as [| |k]; simpl in *.
  - simplify_eq/=. rewrite app_nil_r. by apply Hstart.
  - destruct f as [|op f]; simplify_eq/=; rewrite app_nil_r; [by apply Hend|done].
  - destruct (u !! k) as [op|] eqn:Hop; [|simplify_eq/=; by rewrite app_nil_r].
    destruct (visitor_total op v) as [v' Hv]. specialize (Hvisit op v exe). rewrite Hv in *.
    simplify_eq/=. apply Hvisit; [|done]. rewrite Hleft. exists (left_over (mk_scheduler b f u v' [Visiting (S k)])).
    by rewrite <-app_assoc.
Qed.

Lemma history_visitor (I : bool → V → list Op → Prop) (v : V) h :
  (∀ v exe, I false v exe → I true (startDrain v) exe) →
  (∀ v exe, I true v exe → I false (endDrain v) exe) →
  rtc history_step (create v, [], []) h → visits_keep I h.1.2 → I false v [] →
  I (draining h.1.1) (m_opVisitor h.1.1) h.2.
Proof.
  intros Hstart Hend Hrtc. revert h Hrtc.
  refine (rtc_ind_r _ _ _ _); [done|]. intros h h' Hrtc Hstep IH Hvisit HI.
  pose proof (history_reachable_ok v h Hrtc) as [Hok Hsch].
  destruct Hstep as [s sch exe op|s s' i o sch exe Hs]; simpl in *.
  - assert (visits_keep I sch) as Hv.
    { intros op' v' exe' Hpre. apply Hvisit. etrans; [done|]. by apply prefix_app_r. }
    specialize (IH Hv HI). unfold draining, schedule in *. simpl.
    destruct (sched_ok_schedule op s Hok) as [Hok' _]. unfold sched_ok in *.
    destruct s as [b f u v' ds]; simpl in *. destruct ds as [|d [|? ?]]; [..|by destruct d].
    + destruct Hok as (-> & _ & _). done.
    + assert (b = true) as -> by (by destruct d; destruct Hok). done.
  - apply (sched_step_visitor I i o s s' sch); try done. by apply IH.
Qed.

(** ** The drains end *)

Definition drain_work s : nat :=
  match m_executor s with
  | [Queued] => 3 * length (m_filledQueue s) + 2
  | [LoopHead] => 3 * length (m_filledQueue s) + 1
  | [Visiting k] => 3 * length (m_filledQueue s) + (length (m_usedQueue s) - k) + 2
  | _ => 0
  end.

Lemma drain_work_decreases s :
  sched_ok s → m_executor s ≠ [] →
  ∃ s' o, drainQueue_step 0 s = Some (s', o) ∧ drain_work s' < drain_work s.
Proof.
  unfold sched_ok, drain_work, drainQueue_step.
  destruct s as [b f u v ds]; simpl. destruct ds as [|d [|? ?]]; [done| |by destruct d]. intros Hok _. simpl.
  destruct d as [| |k]; simpl; [eexists _, _; split; [done|]; simpl; lia|..].
  - destruct Hok as [-> ->]. destruct f as [|op f]; (eexists _, _; split; [done|]; simpl; lia).
  - destruct (u !! k) as [op|] eqn:Hop.
    + destruct (visitor_total op v) as [v' Hv]. rewrite Hv. apply lookup_lt_Some in Hop.
      eexists _, _; split; [done|]. simpl. lia.
    + eexists _, _; split; [done|]. simpl. lia.
Qed.

Lemma run_drains_idle (fuel : nat) s :
  sched_ok s → m_executor s = [] → run_drains fuel s = Some (s, left_over s).
Proof.
  unfold sched_ok, left_over. intros Hok Hx. rewrite Hx in *. destruct Hok as (_ & -> & _).
  by destruct fuel; simpl; rewrite Hx.
Qed.

(** Draining is a history. *)
Lemma run_drains_history (fuel : nat) s s' (sch exe ops : list Op) :
  run_drains fuel s = Some (s', ops) → rtc history_step (s, sch, exe) (s', sch, exe ++ ops).
Proof.
  revert s exe ops. induction fuel as [|fuel IH]; intros s exe ops; simpl;
    destruct (m_executor s) as [|d ds]; intros Hr; simplify_eq; try (by rewrite app_nil_r; apply rtc_refl).
  apply bind_Some in Hr as ([s1 o] & Hstep & Hr). apply bind_Some in Hr as ([s2 ops2] & Hr & Hs2). simplify_eq.
  eapply rtc_l; [by apply (history_drain s s1 0 o)|]. rewrite app_assoc. by apply IH.
Qed.

Lemma run_drains_ok (fuel : nat) s :
  sched_ok s → drain_work s ≤ fuel →
  ∃ s', run_drains fuel s = Some (s', left_over s) ∧ sched_ok s' ∧ m_executor s' = [].
Proof.
  revert s. induction fuel as [|fuel IH]; intros s Hok Hf;
    (destruct (m_executor s) as [|d ds] eqn:Hx; [exists s; by rewrite run_drains_idle|]);
    (destruct (drain_work_decreases s Hok) as (s1 & o & Hs & Hlt); [by rewrite Hx|]); [lia|].
  destruct (sched_ok_step 0 o s s1 Hok Hs) as [Hok1 Hl].
  destruct (IH s1 Hok1) as (s2 & Hr & Hok2 & Hx2); [lia|].
  exists s2. simpl. rewrite Hx, Hs. simpl. rewrite Hr. simpl. by rewrite Hl.
Qed.

End scheduler.

(** ** A drain that throws *)

(** The flag says that a drain is in progress and none is. *)
Definition stuck {Op V} (s : scheduler Op V) : Prop :=
  m_drainInProgress s = true ∧ m_executor s = [].

Lemma stuck_step {Op V} (startDrain endDrain : V → V) (apply_visitor : Op → ST V unit)
    (h h' : scheduler Op V * list Op * list Op) :
  history_step startDrain endDrain apply_visitor h h' → stuck h.1.1 → stuck h'.1.1 ∧ h'.2 = h.2.
Proof.
  intros Hstep [Hd Hx]. destruct Hstep as [s sch exe op|s s' i o sch exe Hs]; simpl in *.
  - unfold stuck, schedule. simpl. by rewrite Hd.
  - unfold drainQueue_step in Hs. by rewrite Hx in Hs.
Qed.

Lemma stuck_forever {Op V} (startDrain endDrain : V → V) (apply_visitor : Op → ST V unit)
    (h h' : scheduler Op V * list Op * list Op) :
  rtc (history_step startDrain endDrain apply_visitor) h h' → stuck h.1.1 → stuck h'.1.1 ∧ h'.2 = h.2.
Proof.
  induction 1 as [|h1 h2 h3 Hstep _ IH]; intros Hst; [done|].
  destruct (stuck_step _ _ _ _ _ Hstep Hst) as [Hst2 He]. destruct (IH Hst2) as [? ?]. split; [done|congruence].
Qed.

(** C31: with a visitor that does not throw, whatever the interleaving of callers
    and executor, at most one drain exists, the operations performed are the
    first ones scheduled, in their order and each once, and when no drain is left
    all were performed and the next call starts a new one. *)
Theorem flat_scheduler_in_order {Op V} (startDrain endDrain : V → V) (apply_visitor : Op → ST V unit) (v : V)
    (s : scheduler Op V) (sch exe : list Op) :
  (∀ op v, ∃ v', apply_visitor op v = (v', Value tt)) →
  rtc (history_step startDrain endDrain apply_visitor) (create v, [], []) (s, sch, exe) →
  length (m_executor s) ≤ 1 ∧ exe `prefix_of` sch ∧
  (m_executor s = [] → exe = sch ∧ m_drainInProgress s = false).
Proof.
  intros Htot Hrtc. destruct (history_reachable_ok _ _ _ Htot v _ Hrtc) as [Hok Hsch]. simpl in *.
  split_and!.
  - unfold sched_ok in Hok. destruct (m_executor s) as [|d [|? ?]]; simpl; [lia..|by destruct d].
  - rewrite Hsch. by exists (left_over s).
  - intros Hx. unfold sched_ok in Hok. unfold left_over in Hsch. rewrite Hx in *.
    destruct Hok as (? & Hf & _). rewrite Hf, app_nil_r in Hsch. done.
Qed.

(** C32: with a visitor that does not throw no operation is left behind.  From
    any reachable state the executor comes to rest, after a number of steps
    bounded by the queues, and then every operation scheduled so far has been
    performed.  (After a visit that throws the scheduler is [stuck], and stays
    so.) *)
Theorem flat_scheduler_drains {Op V} (startDrain endDrain : V → V) (apply_visitor : Op → ST V unit) (v : V)
    (s : scheduler Op V) (sch exe : list Op) (fuel : nat) :
  (∀ op v, ∃ v', apply_visitor op v = (v', Value tt)) →
  rtc (history_step startDrain endDrain apply_visitor) (create v, [], []) (s, sch, exe) →
  3 * length (m_filledQueue s) + length (m_usedQueue s) + 2 ≤ fuel →
  ∃ s' ops, run_drains startDrain endDrain apply_visitor fuel s = Some (s', ops) ∧ m_executor s' = [] ∧
    exe ++ ops = sch.
Proof.
  intros Htot Hrtc Hfuel. destruct (history_reachable_ok _ _ _ Htot v _ Hrtc) as [Hok Hsch]. simpl in *.
  destruct (run_drains_ok startDrain endDrain apply_visitor Htot fuel s Hok) as (s' & Hr & _ & Hx).
  - unfold drain_work. destruct (m_executor s) as [|[| |k] [|? ?]]; lia.
  - by exists s', (left_over s).
Qed.

(** A visitor that keeps a log. *)
Abbreviation log_visitor := (λ (op : nat) (v : list nat), (v ++ [op], Value tt)).
Abbreviation log_history := (history_step (λ v, v) (λ v, v) log_visitor).

Lemma log_total (op : nat) (v : list nat) : ∃ v', log_visitor op v = (v', Value tt).
Proof. by eexists. Qed.

Definition log_scheduled : scheduler nat (list nat) := schedule 8 (schedule 7 (create [])).

Lemma log_history_scheduled : rtc log_history (create [], [], []) (log_scheduled, [7; 8], []).
Proof.
  eapply rtc_l; [apply history_schedule|]. apply rtc_once. apply (history_schedule _ _ _ _ [7] []).
Qed.

Lemma flat_scheduler_in_order_witness :
  length (m_executor log_scheduled) ≤ 1 ∧ [] `prefix_of` [7; 8] ∧
  (m_executor log_scheduled = [] → [] = [7; 8] ∧ m_drainInProgress log_scheduled = false).
Proof.
  apply (flat_scheduler_in_order (λ v, v) (λ v, v) log_visitor [] log_scheduled [7; 8] []);
    [apply log_total|apply log_history_scheduled].
Defined.

Lemma flat_scheduler_drains_witness :
  ∃ s' ops, run_drains (λ v, v) (λ v, v) log_visitor 8 log_scheduled = Some (s', ops) ∧ m_executor s' = [] ∧
    [] ++ ops = [7; 8].
Proof.
  apply (flat_scheduler_drains (λ v, v) (λ v, v) log_visitor [] log_scheduled [7; 8] [] 8);
    [apply log_total|apply log_history_scheduled|simpl; lia].
Defined.
