(* ===== verification/PosixHandle.v ===== *)
(** * Files of the POSIX helper (the handle of src/src/posixHelper.cc)

    The operations of a handle are queued by the scheduler of
    FlatOpScheduler.v and performed by its visitor, which takes the identity of
    the handle's user for the time of a drain.  Proved: the results are those
    of a file that is read and written by the operations one after another in
    the order of the calls; a write in several system calls is one write. *)

From stdpp Require Import base numbers list gmap strings relations.
From Stdlib Require Import ZArith Lia Strings.Byte.
From S2P Require Import Prelude Storage Posix PosixHelper FlatOpScheduler.
Local Open Scope Z_scope.

(** The number of buffers one call takes (Linux). *)
Definition IOV_MAX : Z := 1024.

(** ** Operations *)

(** Each operation has the number of its promise; a buffer to write is a chain. *)
Inductive HandleOp :=
| ReadOp (promise : nat) (offset size : Z)
| WriteOp (promise : nat) (offset : Z) (buf : list bytes)
| FsyncOp (promise : nat)
| FlushOp (promise : nat)
| ReleaseOp (promise : nat).

Inductive op_result :=
| read_result (b : bytes)
| write_result (n : Z)
| unit_result.

Section handle.
Context {K : Type} `{P : Posix K}.

(** The visitor: the kernel it calls, the handle if it still exists, the object
    of the running drain and the promises. *)
Record OpExec := mk_OpExec {
  ox_kernel : K;
  m_handle : option PosixFileHandle;
  ox_userCtx : option UserCtxSetter;
  m_validCtx : bool;
  ox_promises : gmap nat (Try op_result)
}.

Definition startDrain (v : OpExec) : OpExec :=
  match m_handle v with
  | Some handle =>
      match new_UserCtxSetter (fh_uid handle) (fh_gid handle) (ox_kernel v) with
      | (k, Value userCtx) => mk_OpExec k (m_handle v) (Some userCtx) (valid userCtx) (ox_promises v)
      | (k, Exception _) => mk_OpExec k (m_handle v) None (m_validCtx v) (ox_promises v)
      end
  | None => mk_OpExec (ox_kernel v) None None (m_validCtx v) (ox_promises v)
  end.

(** The destructor of the [UserCtxSetter] of the drain. *)
Definition endDrain (v : OpExec) : OpExec :=
  match ox_userCtx v with
  | Some c => mk_OpExec (delete_UserCtxSetter c (ox_kernel v)).1 (m_handle v) None (m_validCtx v) (ox_promises v)
  | None => v
  end.

(** [folly::IOBuf::getIov] leaves out empty buffers. *)
Definition getIov (buf : list bytes) : list bytes := filter (λ b, b ≠ []) buf.

(** The loop over the vector, IOV_MAX buffers at a time; [size] is an [int]. *)
Fixpoint writev_loop (rounds : nat) (fd : Z) (iov : list bytes) (size : Z) : ST K Z :=
  match rounds with
  | O => mret size
  | S rounds' =>
      '(res, e) ← retry (call (sys_writev fd (take (Z.to_nat IOV_MAX) iov)))
                    (λ r, negb (i32 r.1 =? -1)) IO_RETRY_COUNT;
      if res =? -1 then st_throw (makePosixException e)
      else writev_loop rounds' fd (drop (Z.to_nat IOV_MAX) iov) (i32 (size + res))
  end.

Definition writev_rounds (iov : list bytes) : nat :=
  Z.to_nat ((Z.of_nat (length iov) + IOV_MAX - 1) / IOV_MAX).

Definition read_op (handle : PosixFileHandle) (offset size : Z) : ST K op_result :=
  '(res, data, e) ← retry_call_out (sys_pread (m_fh handle) size offset);
  if res =? -1 then st_throw (makePosixException e) else mret (read_result data).

Definition write_op_ (handle : PosixFileHandle) (offset : Z) (buf : list bytes) : ST K op_result :=
  '(res, e) ← call (sys_lseek (m_fh handle) offset);
  if res =? -1 then st_throw (makePosixException e)
  else if bool_decide (concat buf = []) then mret (write_result 0)
  else
    let iov := getIov buf in
    size ← writev_loop (writev_rounds iov) (m_fh handle) iov 0;
    mret (write_result (u64 size)).

Definition unit_op (m : ST K unit) : ST K op_result := _ ← m; mret unit_result.

Definition op_promise (op : HandleOp) : nat :=
  match op with ReadOp p _ _ | WriteOp p _ _ | FsyncOp p | FlushOp p | ReleaseOp p => p end.

(** What the visitor does for an operation once it has a handle. *)
Definition op_body (handle : PosixFileHandle) (op : HandleOp) : ST K op_result :=
  match op with
  | ReadOp _ offset size => read_op handle offset size
  | WriteOp _ offset buf => write_op_ handle offset buf
  | ReleaseOp _ => unit_op (setResult (sys_close (m_fh handle)))
  | FsyncOp _ => unit_op (setResult (sys_fsync (m_fh handle)))
  | FlushOp _ => mret unit_result
  end.

(** The call operators of the visitor: the promise gets a value or an exception. *)
Definition visit (op : HandleOp) : ST OpExec unit := λ v,
  let '(k, r) :=
    if negb (m_validCtx v) then (ox_kernel v, Exception (makePosixException EDOM))
    else match m_handle v with
         | None => (ox_kernel v, Exception (makePosixException ECANCELED))
         | Some handle => op_body handle op (ox_kernel v)
         end in
  (mk_OpExec k (m_handle v) (ox_userCtx v) (m_validCtx v) (<[op_promise op := r]> (ox_promises v)), Value tt).

(** ** The handle *)

Record handle := mk_handle {
  m_needsRelease : bool;
  opScheduler : scheduler HandleOp OpExec
}.

Definition create_handle (fh : PosixFileHandle) (k : K) : handle :=
  mk_handle true (create (mk_OpExec k (Some fh) None false ∅)).

Definition handle_schedule (op : HandleOp) (h : handle) : handle :=
  mk_handle (m_needsRelease h) (schedule op (opScheduler h)).

Definition read (p : nat) (offset size : Z) : handle → handle := handle_schedule (ReadOp p offset size).
Definition write (p : nat) (offset : Z) (buf : list bytes) : handle → handle :=
  handle_schedule (WriteOp p offset buf).
Definition flush (p : nat) : handle → handle := handle_schedule (FlushOp p).
Definition fsync (p : nat) (isDataSync : bool) : handle → handle := handle_schedule (FsyncOp p).

(** The future of a second release is ready at once. *)
Definition release (p : nat) (h : handle) : handle * option (Try op_result) :=
  if negb (m_needsRelease h) then (h, Some (Value unit_result))
  else (mk_handle false (schedule (ReleaseOp p) (opScheduler h)), None).

(** [~PosixFileHandle]; the visitor no longer finds the handle. *)
Definition delete_handle (h : handle) : handle :=
  let s := opScheduler h in
  let v := m_opVisitor s in
  let k := match m_handle v with
           | Some fh =>
               if m_needsRelease h
               then (with_userCTX (fh_uid fh) (fh_gid fh) (λ c,
                       if valid c then _ ← call_ (sys_close (m_fh fh)); mret tt else mret tt)
                     (ox_kernel v)).1
               else ox_kernel v
           | None => ox_kernel v
           end in
  mk_handle false
    (mk_scheduler (m_drainInProgress s) (m_filledQueue s) (m_usedQueue s)
       (mk_OpExec k None (ox_userCtx v) (m_validCtx v) (ox_promises v)) (m_executor s)).

End handle.
Arguments OpExec : clear implicits.
Arguments handle : clear implicits.

(** ** The file as its callers see it

    What an operation may do with the file [f] and give to its promise: a read
    returns a beginning of its range, a write stores a beginning of its bytes
    and reports how many, an operation that fails leaves the file. *)
Inductive file_step : HandleOp → bytes → bytes → Try op_result → Prop :=
| step_read p offset size f b :
    b `prefix_of` pread f offset size → file_step (ReadOp p offset size) f f (Value (read_result b))
| step_write p offset buf f n :
    0 <= n <= chainLength (concat buf) →
    file_step (WriteOp p offset buf) f (pwrite f offset (take (Z.to_nat n) (concat buf)))
      (Value (write_result n))
| step_fsync p f : file_step (FsyncOp p) f f (Value unit_result)
| step_flush p f : file_step (FlushOp p) f f (Value unit_result)
| step_error op f e : file_step op f f (Exception e).

(** Operations one after another, with their results. *)
Inductive file_run (f0 : bytes) : list (HandleOp * Try op_result) → bytes → Prop :=
| run_nil : file_run f0 [] f0
| run_snoc l op r f f' : file_run f0 l f → file_step op f f' r → file_run f0 (l ++ [(op, r)]) f'.

(** The parts of a write that are given to one system call each: the bytes of
    IOV_MAX buffers. *)
Fixpoint groups (rounds : nat) (iov : list bytes) : list bytes :=
  match rounds with
  | O => []
  | S rounds' => concat (take (Z.to_nat IOV_MAX) iov) :: groups rounds' (drop (Z.to_nat IOV_MAX) iov)
  end.
Definition write_parts (buf : list bytes) : list bytes := groups (writev_rounds (getIov buf)) (getIov buf).

(** What an operation on a POSIX handle may do: the same, but a write stores a
    beginning of each of its parts, one right behind the other, and reports how
    many bytes these are; if it fails, a beginning of each of the parts before
    the one that failed. *)
Inductive posix_step : HandleOp → bytes → bytes → Try op_result → Prop :=
| posix_same op f f' r : file_step op f f' r → posix_step op f f' r
| posix_write p offset buf f ps :
    Forall2 prefix ps (write_parts buf) →
    posix_step (WriteOp p offset buf) f (pwrite f offset (concat ps))
      (Value (write_result (chainLength (concat ps))))
| posix_write_fails p offset buf f ps j e :
    (j < length (write_parts buf))%nat → Forall2 prefix ps (take j (write_parts buf)) →
    posix_step (WriteOp p offset buf) f (pwrite f offset (concat ps)) (Exception e).

Inductive posix_run (f0 : bytes) : list (HandleOp * Try op_result) → bytes → Prop :=
| posix_run_nil : posix_run f0 [] f0
| posix_run_snoc l op r f f' : posix_run f0 l f → posix_step op f f' r → posix_run f0 (l ++ [(op, r)]) f'.

(** Operations of a caller on an open file that is not released: the ranges are
    offsets of files, and the number of bytes of a write is an [int]. *)
Definition op_ok (op : HandleOp) : Prop :=
  match op with
  | ReadOp _ offset size => 0 <= offset <= OFF_MAX ∧ 0 <= size
  | WriteOp _ offset buf => 0 <= offset <= OFF_MAX ∧ chainLength (concat buf) < 2147483648
  | FsyncOp _ | FlushOp _ => True
  | ReleaseOp _ => False
  end.

Section refinement.
Context {K : Type} `{P : Posix K} `{!PosixFileLaws K}.

Lemma concat_getIov (buf : list bytes) : concat (getIov buf) = concat buf.
Proof.
  unfold getIov. induction buf as [|b buf IH]; [done|].
  destruct (decide (b = [])) as [->|Hb].
  - rewrite filter_cons_False by naive_solver. done.
  - rewrite filter_cons_True by done. simpl. by rewrite IH.
Qed.

Lemma read_op_step (fh : PosixFileHandle) (p : nat) (offset size : Z) (k : K) (f : bytes) (pos : Z) :
  fd_file k (m_fh fh) = Some (f, pos) → op_ok (ReadOp p offset size) →
  ∃ k' r, read_op fh offset size k = (k', r) ∧ fd_file k' (m_fh fh) = Some (f, pos) ∧
    file_step (ReadOp p offset size) f f r.
Proof.
  intros Hf [Hoff Hsize]. unfold read_op.
  destruct (retry_ind (call (sys_pread (m_fh fh) size offset)) (λ r, POSIXRetryCondition r.1.1 r.2)
    IO_RETRY_COUNT (λ k, fd_file k (m_fh fh) = Some (f, pos))
    (λ _ r, r.1.1 = -1 ∨ r.1.2 `prefix_of` pread f offset size ∧ r.1.1 = chainLength r.1.2) k)
    as (k' & [[r b] e] & Hr & Hf' & Hres); [|done|].
  { intros k1 Hk1. destruct (pread_file k1 _ f pos size offset Hk1 Hoff Hsize) as (k2 & r & b & Hr & Hk2 & Hres).
    unfold call. rewrite Hr. by eexists _, _. }
  unfold retry_call_out. rewrite (st_bind_value _ _ _ _ _ Hr). simpl in Hres.
  destruct (Z.eqb_spec r (-1)); [eexists _, _; split; [done|]; split; [done|]; constructor|].
  destruct Hres as [?|[Hpre _]]; [done|]. eexists _, _. split; [done|]. split; [done|]. by constructor.
Qed.

(** One call of writev with its retries. *)
Lemma retry_writev (fd : Z) (iov : list bytes) (k : K) (f : bytes) (pos : Z) :
  fd_file k fd = Some (f, pos) → chainLength (concat iov) < 2147483648 →
  ∃ k' r e, retry (call (sys_writev fd iov)) (λ r, negb (i32 r.1 =? -1)) IO_RETRY_COUNT k
            = (k', Value (r, e)) ∧
    (r = -1 ∧ fd_file k' fd = Some (f, pos) ∨
     0 <= r <= chainLength (concat iov) ∧
     fd_file k' fd = Some (pwrite f pos (take (Z.to_nat r) (concat iov)), pos + r)).
Proof.
  intros Hf Hlen.
  destruct (retry_until (call (sys_writev fd iov)) (λ r, negb (i32 r.1 =? -1)) IO_RETRY_COUNT
    (λ k, fd_file k fd = Some (f, pos))
    (λ k' r, 0 <= r.1 <= chainLength (concat iov) ∧
             fd_file k' fd = Some (pwrite f pos (take (Z.to_nat r.1) (concat iov)), pos + r.1))
    (λ _ r, r.1 = -1) k) as (k' & [r e] & Hr & Hres); [|done|].
  - intros k1 Hk1. destruct (writev_file k1 fd f pos iov Hk1) as (k2 & r & Hr & Hres).
    unfold call. rewrite Hr. eexists _, _. split; [done|]. simpl.
    destruct Hres as [[-> Hk2]|[Hr2 Hk2]]; [done|].
    rewrite i32_small by lia. by rewrite (proj2 (Z.eqb_neq r (-1))) by lia.
  - exists k', r, e. split; [done|]. simpl in Hres. destruct (negb (i32 r =? -1)); [by right|left].
    by destruct Hres.
Qed.

(** The loop stores a beginning of each part, or of those before a failure. *)
Lemma writev_loop_parts (rounds : nat) (fd : Z) (iov : list bytes) (size : Z) (k : K) (f : bytes) (pos : Z) :
  fd_file k fd = Some (f, pos) → 0 <= pos → 0 <= size → size + chainLength (concat iov) < 2147483648 →
  ∃ k' r ps, writev_loop rounds fd iov size k = (k', r) ∧
    fd_file k' fd = Some (pwrite f pos (concat ps), pos + chainLength (concat ps)) ∧
    (r = Value (size + chainLength (concat ps)) ∧ chainLength (concat ps) <= chainLength (concat iov) ∧
       Forall2 prefix ps (groups rounds iov) ∨
     ∃ e j, r = Exception e ∧ (j < length (groups rounds iov))%nat ∧
       Forall2 prefix ps (take j (groups rounds iov))).
Proof.
  revert iov size k f pos. induction rounds as [|rounds IH]; intros iov size k f pos Hf Hpos Hsize Hmax.
  { exists k, (Value size), []. simpl. rewrite !Z.add_0_r. split_and!; [done..|].
    left. split_and!; [done|apply chainLength_nonneg|constructor]. }
  simpl writev_loop. simpl groups. set (m := Z.to_nat IOV_MAX) in *.
  assert (concat iov = concat (take m iov) ++ concat (drop m iov)) as Hsplit
    by (by rewrite <-concat_app, take_drop).
  rewrite Hsplit, chainLength_app in *.
  pose proof (chainLength_nonneg (concat (take m iov))). pose proof (chainLength_nonneg (concat (drop m iov))).
  destruct (retry_writev fd (take m iov) k f pos Hf) as (k1 & r & e & Hr & Hres); [lia|].
  unfold mbind, ST_bind. rewrite Hr. destruct Hres as [[-> Hf1]|[Hr1 Hf1]].
  { exists k1, (Exception (makePosixException e)), []. simpl. rewrite Z.add_0_r. split_and!; [done..|].
    right. exists (makePosixException e), 0%nat. split_and!; [done|lia|constructor]. }
  rewrite (proj2 (Z.eqb_neq r (-1))) by lia. rewrite i32_small by lia.
  set (part := take (Z.to_nat r) (concat (take m iov))) in *.
  assert (chainLength part = r) as Hpart by (unfold part, chainLength in *; rewrite length_take; lia).
  assert (part `prefix_of` concat (take m iov)) as Hpre by (exists (drop (Z.to_nat r) (concat (take m iov))); unfold part; by rewrite take_drop).
  destruct (IH (drop m iov) (size + r) k1 _ _ Hf1) as (k2 & r2 & ps & Hrun & Hf2 & Hres2); [lia..|].
  exists k2, r2, (part :: ps). split; [exact Hrun|]. simpl. rewrite chainLength_app. split.
  - rewrite <-Hpart, pwrite_app in Hf2 by done. rewrite Hf2. do 2 f_equal. lia.
  - destruct Hres2 as [(-> & Hle & Hps)|(e2 & j & -> & Hj & Hps)]; [left|right].
    + split_and!; [f_equal; lia|lia|by constructor].
    + exists e2, (S j). split_and!; [done|simpl; lia|by constructor].
Qed.

Lemma write_op_step (fh : PosixFileHandle) (p : nat) (offset : Z) (buf : list bytes) (k : K) (f : bytes)
    (pos : Z) :
  fd_file k (m_fh fh) = Some (f, pos) → op_ok (WriteOp p offset buf) →
  ∃ k' r f' pos', write_op_ fh offset buf k = (k', r) ∧ fd_file k' (m_fh fh) = Some (f', pos') ∧
    posix_step (WriteOp p offset buf) f f' r.
Proof.
  intros Hf (Hoff & Hlen). unfold write_op_.
  destruct (lseek_file k _ f pos offset Hf Hoff) as (k1 & res & Hseek & Hres).
  assert (call (sys_lseek (m_fh fh) offset) k = (k1, Value (res, errno k1))) as Hcall
    by (unfold call; by rewrite Hseek).
  rewrite (st_bind_value _ _ _ _ _ Hcall). destruct Hres as [[-> Hf1]|[-> Hf1]].
  2: { eexists _, _, _, _. split; [done|]. split; [done|]. apply posix_same. constructor. }
  rewrite (proj2 (Z.eqb_neq offset (-1))) by lia. case_bool_decide as Hempty.
  { eexists _, _, _, _. split; [done|]. split; [done|].
    apply posix_same, (step_write p offset buf f 0). rewrite Hempty. done. }
  destruct (writev_loop_parts (writev_rounds (getIov buf)) (m_fh fh) (getIov buf) 0 k1 f offset Hf1)
    as (k2 & r & ps & Hrun & Hf2 & Hres); rewrite ?concat_getIov; [lia..|].
  unfold mbind, ST_bind. rewrite Hrun. rewrite concat_getIov in Hres.
  destruct Hres as [(-> & Hle & Hps)|(e & j & -> & Hj & Hps)].
  - pose proof (chainLength_nonneg (concat ps)). rewrite u64_small by lia.
    eexists _, _, _, _. split; [done|]. split; [done|]. by apply posix_write.
  - eexists _, _, _, _. split; [done|]. split; [done|]. by apply posix_write_fails with j.
Qed.

Lemma op_body_step (fh : PosixFileHandle) (op : HandleOp) (k : K) (f : bytes) (pos : Z) :
  fd_file k (m_fh fh) = Some (f, pos) → op_ok op →
  ∃ k' r f' pos', op_body fh op k = (k', r) ∧ fd_file k' (m_fh fh) = Some (f', pos') ∧ posix_step op f f' r.
Proof.
  intros Hf Hop. destruct op as [p offset size|p offset buf|p|p|p]; simpl; [..|done].
  - destruct (read_op_step fh p offset size k f pos Hf Hop) as (k' & r & Hr & Hf' & Hs).
    eexists _, _, _, _. split; [done|]. split; [done|]. by apply posix_same.
  - by apply (write_op_step fh p offset buf k f pos).
  - unfold unit_op, setResult.
    destruct (retry_ind (call (sys_fsync (m_fh fh))) (λ r, POSIXRetryCondition r.1 r.2) IO_RETRY_COUNT
      (λ k, fd_file k (m_fh fh) = Some (f, pos)) (λ _ _, True) k) as (k' & [r e] & Hr & Hf' & _); [|done|].
    { intros k1 Hk1. destruct (fsync_file k1 _ f pos Hk1) as (k2 & r & Hr & Hk2).
      unfold call. rewrite Hr. by eexists _, _. }
    unfold retry_call, mbind, ST_bind. rewrite Hr.
    destruct (r <? 0); (eexists _, _, _, _; split; [done|]; split; [done|]; apply posix_same; constructor).
  - eexists _, _, _, _. split; [done|]. split; [done|]. apply posix_same. constructor.
Qed.

(** The visitor after the operations [exe]. *)
Definition visitor_ok (fh : PosixFileHandle) (f0 : bytes) (v : OpExec K) (exe : list HandleOp) : Prop :=
  m_handle v = Some fh ∧
  ∃ l f pos, map fst l = exe ∧ posix_run f0 l f ∧ fd_file (ox_kernel v) (m_fh fh) = Some (f, pos) ∧
    ∀ op r, (op, r) ∈ l → ox_promises v !! op_promise op = Some r.

Lemma setid_keeps_file (fd : Z) (x : option (bytes * Z)) : setid_keeps (λ k : K, fd_file k fd = x).
Proof. split; intros k id Hk; [rewrite setfsuid_file|rewrite setfsgid_file]; done. Qed.

Lemma visitor_ok_kernel (fh : PosixFileHandle) (f0 : bytes) (v v' : OpExec K) (exe : list HandleOp) :
  m_handle v' = m_handle v → ox_promises v' = ox_promises v →
  (∀ x, fd_file (ox_kernel v) (m_fh fh) = x → fd_file (ox_kernel v') (m_fh fh) = x) →
  visitor_ok fh f0 v exe → visitor_ok fh f0 v' exe.
Proof.
  intros Hh Hp Hk (Hfh & l & f & pos & Hl & Hrun & Hf & Hall). split; [congruence|].
  exists l, f, pos. rewrite Hp. split_and!; [done..|by apply Hk|done].
Qed.

Lemma visitor_ok_startDrain (fh : PosixFileHandle) (f0 : bytes) (v : OpExec K) (exe : list HandleOp) :
  visitor_ok fh f0 v exe → visitor_ok fh f0 (startDrain v) exe.
Proof.
  intros Hv. pose proof Hv as [Hfh _]. unfold startDrain. rewrite Hfh.
  destruct (new_UserCtxSetter _ _ _) as [k1 [c|e]] eqn:Hnew;
    apply (visitor_ok_kernel fh f0 v); try done; intros x Hx;
    pose proof (setid_keeps_new _ (fh_uid fh) (fh_gid fh) (setid_keeps_file _ x) (ox_kernel v) Hx) as Hk1;
    by rewrite Hnew in Hk1.
Qed.

Lemma visitor_ok_endDrain (fh : PosixFileHandle) (f0 : bytes) (v : OpExec K) (exe : list HandleOp) :
  visitor_ok fh f0 v exe → visitor_ok fh f0 (endDrain v) exe.
Proof.
  intros Hv. unfold endDrain. destruct (ox_userCtx v) as [c|]; [|done].
  apply (visitor_ok_kernel fh f0 v); try done. intros x Hx.
  by apply (setid_keeps_delete _ c (setid_keeps_file _ x)).
Qed.

Lemma visitor_ok_visit (fh : PosixFileHandle) (f0 : bytes) (op : HandleOp) (v : OpExec K)
    (exe : list HandleOp) :
  op_ok op → op_promise op ∉ map op_promise exe →
  visitor_ok fh f0 v exe → visitor_ok fh f0 (visit op v).1 (exe ++ [op]).
Proof.
  intros Hop Hfresh (Hfh & l & f & pos & Hl & Hrun & Hf & Hall). unfold visit. rewrite Hfh.
  assert (∃ k' r f' pos', (if negb (m_validCtx v) then (ox_kernel v, Exception (makePosixException EDOM))
      else op_body fh op (ox_kernel v)) = (k', r) ∧ fd_file k' (m_fh fh) = Some (f', pos') ∧
      posix_step op f f' r) as (k' & r & f' & pos' & -> & Hf' & Hstep).
  { destruct (negb (m_validCtx v)); [|by apply (op_body_step fh op _ f pos)].
    eexists _, _, _, _. split; [done|]. split; [done|]. apply posix_same. constructor. }
  split; [done|]. exists (l ++ [(op, r)]), f', pos'. simpl. split_and!.
  - by rewrite map_app, Hl.
  - by eapply posix_run_snoc.
  - done.
  - intros op' r' [Hin|Hin]%elem_of_app.
    + rewrite lookup_insert_ne; [by apply Hall|]. intros Heq. apply Hfresh. rewrite <-Hl, Heq.
      apply list_elem_of_fmap. exists op'. split; [done|]. apply list_elem_of_fmap. by exists (op', r').
    + apply list_elem_of_singleton in Hin as [= -> ->]. by rewrite lookup_insert_eq.
Qed.

Lemma visit_total (op : HandleOp) (v : OpExec K) : ∃ v', visit op v = (v', Value tt).
Proof.
  unfold visit. destruct (if negb (m_validCtx v) then _ else _) as [k r]. by eexists.
Qed.

(** C18: the promises of a handle that is not released are those of a file, for
    reads, fsyncs, flushes and writes of less than 2 GiB.  Whatever the
    interleaving of callers and executor, the operations performed so far are
    the first ones in the order of the calls, and there is a run of the file
    through them, each starting where the one before ended, whose results are in
    the promises and whose end is the contents of the file in the system; when
    the executor is idle these are all operations.  A read returns a beginning of
    its range.  A write stores a beginning of each of its parts, the bytes of
    IOV_MAX buffers, one right behind the other, and reports their number; one
    that fails has stored a beginning of each part before the one that failed.
    Other operations that fail leave the file. *)
Theorem posix_handle_refines (fh : PosixFileHandle) (k : K) (f : bytes) (pos : Z)
    (s : scheduler HandleOp (OpExec K)) (sch exe : list HandleOp) :
  fd_file k (m_fh fh) = Some (f, pos) →
  rtc (history_step startDrain endDrain visit) (opScheduler (create_handle fh k), [], []) (s, sch, exe) →
  Forall op_ok sch → NoDup (map op_promise sch) →
  exe `prefix_of` sch ∧ (m_executor s = [] → exe = sch) ∧
  ∃ l f' pos', map fst l = exe ∧ posix_run f l f' ∧
    fd_file (ox_kernel (m_opVisitor s)) (m_fh fh) = Some (f', pos') ∧
    ∀ op r, (op, r) ∈ l → ox_promises (m_opVisitor s) !! op_promise op = Some r.
Proof.
  intros Hf Hrtc Hok Hnodup. simpl in Hrtc.
  pose proof (history_reachable_ok _ _ _ visit_total _ _ Hrtc) as [Hsched Hsch]. simpl in Hsched, Hsch.
  split; [rewrite Hsch; by exists (left_over s)|]. split.
  { intros Hx. unfold sched_ok in Hsched. unfold left_over in Hsch. rewrite Hx in *.
    destruct Hsched as (_ & Hq & _). by rewrite Hq, app_nil_r in Hsch. }
  apply (history_visitor _ _ _ visit_total (λ _, visitor_ok fh f) _ _
           (λ v exe, visitor_ok_startDrain fh f v exe) (λ v exe, visitor_ok_endDrain fh f v exe) Hrtc).
  - intros op v e [rest Hpre] Hv. simpl in Hpre. subst sch. rewrite Hpre in Hok, Hnodup.
    apply visitor_ok_visit; [|clear -Hnodup|done].
    + apply Forall_app in Hok as [Hok _]. apply Forall_app in Hok as [_ Hok]. by apply Forall_inv in Hok.
    + rewrite !map_app in Hnodup. apply NoDup_app in Hnodup as [Hnodup _].
      apply NoDup_app in Hnodup as (_ & Hdis & _). intros Hin. apply (Hdis _ Hin). left.
  - split; [done|]. exists [], f, pos. split_and!; [done|constructor|done|].
    intros op r Hin. by apply not_elem_of_nil in Hin.
Qed.

End refinement.

(** ** Writes in several calls *)

Section chunks.
Context {K : Type} `{P : Posix K} `{FL : !PosixFileLaws K} `{!PosixWritesAll K}.

(** One call, when it stores everything or fails. *)
Lemma retry_writev_all (fd : Z) (iov : list bytes) (k : K) (f : bytes) (pos : Z) :
  fd_file k fd = Some (f, pos) → chainLength (concat iov) < 2147483648 →
  chainLength (concat iov) <= room k →
  ∃ k' r e, retry (call (sys_writev fd iov)) (λ r, negb (i32 r.1 =? -1)) IO_RETRY_COUNT k
            = (k', Value (r, e)) ∧
    (r = -1 ∧ fd_file k' fd = Some (f, pos) ∨
     r = chainLength (concat iov) ∧ room k' = room k ∧
     fd_file k' fd = Some (pwrite f pos (concat iov), pos + r)).
Proof.
  intros Hf Hlen Hroom. pose proof (chainLength_nonneg (concat iov)) as Hn.
  destruct (retry_until (call (sys_writev fd iov)) (λ r, negb (i32 r.1 =? -1)) IO_RETRY_COUNT
    (λ k', fd_file k' fd = Some (f, pos) ∧ room k' = room k)
    (λ k' r, r.1 = chainLength (concat iov) ∧ room k' = room k ∧
             fd_file k' fd = Some (pwrite f pos (concat iov), pos + r.1))
    (λ _ r, r.1 = -1) k) as (k' & [r e] & Hr & Hres); [|done|].
  - intros k1 [Hk1 Hroom1]. rewrite <-Hroom1 in Hroom.
    destruct (writev_file k1 fd f pos iov Hk1) as (k2 & r & Hr & Hres).
    destruct (writev_all k1 fd f pos iov Hk1 Hroom) as (k2' & r' & Hr' & Hroom2 & Hall).
    rewrite Hr in Hr'. injection Hr' as <- <-.
    unfold call. rewrite Hr. eexists _, _. split; [done|]. simpl.
    destruct Hres as [[-> Hk2]|[Hr2 Hk2]]; [split_and!; try done; congruence|].
    destruct Hall as [->|Hall]; [lia|]. rewrite i32_small by lia.
    rewrite (proj2 (Z.eqb_neq r (-1))) by lia. simpl. split_and!; [done|congruence|].
    rewrite Hk2, Hall. unfold chainLength. rewrite Nat2Z.id. by rewrite take_ge.
  - exists k', r, e. split; [done|]. simpl in Hres. destruct (negb (i32 r =? -1)); [by right|left].
    by destruct Hres as [[? _] ?].
Qed.

Lemma writev_loop_all (rounds : nat) (fd : Z) (iov : list bytes) (size : Z) (k : K) (f : bytes) (pos : Z) :
  fd_file k fd = Some (f, pos) → 0 <= pos → (length iov ≤ rounds * Z.to_nat IOV_MAX)%nat → 0 <= size →
  size + chainLength (concat iov) < 2147483648 → chainLength (concat iov) <= room k →
  ∃ k' r n, writev_loop rounds fd iov size k = (k', r) ∧
    fd_file k' fd = Some (pwrite f pos (take n (concat iov)), pos + Z.of_nat (Nat.min n (length (concat iov)))) ∧
    (r = Value (size + chainLength (concat iov)) ∧ n = length (concat iov) ∨ ∃ e, r = Exception e).
Proof.
  revert iov size k f pos. induction rounds as [|rounds IH]; intros iov size k f pos Hf Hpos Hlen Hsize Hmax Hroom.
  { destruct iov; [|simpl in Hlen; lia]. exists k, (Value size), 0%nat. simpl. rewrite Z.add_0_r.
    split; [done|]. split; [by rewrite Hf|]. left. by rewrite Z.add_0_r. }
  simpl writev_loop. set (m := Z.to_nat IOV_MAX) in *.
  assert (concat iov = concat (take m iov) ++ concat (drop m iov)) as Hsplit
    by (by rewrite <-concat_app, take_drop).
  rewrite Hsplit, chainLength_app in Hmax, Hroom.
  pose proof (chainLength_nonneg (concat (take m iov))). pose proof (chainLength_nonneg (concat (drop m iov))).
  destruct (retry_writev_all fd (take m iov) k f pos Hf) as (k1 & r & e & Hr & Hres); [lia..|].
  unfold mbind, ST_bind. rewrite Hr. destruct Hres as [[-> Hf1]|(-> & Hroom1 & Hf1)].
  { exists k1, (Exception (makePosixException e)), 0%nat. simpl. rewrite Z.add_0_r. eauto. }
  rewrite (proj2 (Z.eqb_neq (chainLength (concat (take m iov))) (-1))) by lia. rewrite i32_small by lia.
  destruct (IH (drop m iov) (size + chainLength (concat (take m iov))) k1 _ _ Hf1)
    as (k2 & r & n & Hrun & Hf2 & Hres); [lia|rewrite length_drop; lia|lia..|].
  exists k2, r, (length (concat (take m iov)) + n)%nat. split; [exact Hrun|].
  rewrite pwrite_app in Hf2 by done. rewrite Hsplit, take_app_add' by done. split.
  - rewrite Hf2. do 2 f_equal. rewrite length_app. unfold chainLength. lia.
  - destruct Hres as [[-> ->]|Hres]; [left|by right].
    rewrite chainLength_app, length_app. split; [f_equal; lia|done].
Qed.

(** A write of a chain of any number of buffers, which takes a system call
    for every IOV_MAX of them, is one positioned write of all its bytes when
    each call stores what it is given, and reports their number; if a call
    fails for good, a beginning of the bytes has been written. *)
Lemma posix_write_equals_pwrite (fh : PosixFileHandle) (offset : Z) (buf : list bytes) (k : K)
    (f : bytes) (pos : Z) :
  fd_file k (m_fh fh) = Some (f, pos) → 0 <= offset <= OFF_MAX →
  chainLength (concat buf) < 2147483648 → chainLength (concat buf) <= room k →
  ∃ k' r, write_op_ fh offset buf k = (k', r) ∧
    (r = Value (write_result (chainLength (concat buf))) ∧
     option_map fst (fd_file k' (m_fh fh)) = Some (pwrite f offset (concat buf)) ∨
     ∃ e n, r = Exception e ∧
       option_map fst (fd_file k' (m_fh fh)) = Some (pwrite f offset (take n (concat buf)))).
Proof.
  intros Hf Hoff Hlen Hroom. unfold write_op_. pose proof (lseek_room k (m_fh fh) offset) as Hroom1.
  destruct (lseek_file k _ f pos offset Hf Hoff) as (k1 & res & Hseek & Hres). rewrite Hseek in Hroom1.
  assert (call (sys_lseek (m_fh fh) offset) k = (k1, Value (res, errno k1))) as Hcall
    by (unfold call; by rewrite Hseek).
  rewrite (st_bind_value _ _ _ _ _ Hcall). destruct Hres as [[-> Hf1]|[-> Hf1]].
  2: { eexists _, _. split; [done|]. right. exists (makePosixException (errno k1)), 0%nat. by rewrite Hf1. }
  rewrite (proj2 (Z.eqb_neq offset (-1))) by lia. case_bool_decide as Hempty.
  { eexists _, _. split; [done|]. left. by rewrite Hempty, Hf1. }
  destruct (writev_loop_all (writev_rounds (getIov buf)) (m_fh fh) (getIov buf) 0 k1 f offset Hf1)
    as (k2 & r & n & Hrun & Hf2 & Hr2); rewrite ?concat_getIov in *; simpl in *; [lia| |lia..|].
  { unfold writev_rounds, IOV_MAX. zlia. }
  unfold mbind, ST_bind. rewrite Hrun. destruct Hr2 as [[-> ->]|[e ->]]; eexists _, _; (split; [done|]).
  - left. pose proof (chainLength_nonneg (concat buf)). rewrite u64_small by lia. split; [done|].
    rewrite Hf2. simpl. by rewrite take_ge.
  - right. exists e, n. by rewrite Hf2.
Qed.

End chunks.

(** When a call stores less than it is given and more buffers follow, the next
    ones are written right behind: bytes in the middle are missing, and the
    number that is reported looks like a short write. *)
Definition many_buffers : list bytes := replicate (Z.to_nat IOV_MAX) [x61; x62] ++ [[x63]].
Definition full_kernel : memory_kernel :=
  mk_memory_kernel 0 (0, 0) {[0; 1000]} {[0; 100]} {[3 := ([], 0)]} ∅ ∅ ∅ 1.
Definition sample_fh : PosixFileHandle := mk_PosixFileHandle "f" 1000 100 3.

Lemma posix_short_writev_leaves_gap :
  let r := write_op_ sample_fh 0 many_buffers full_kernel in
  r.2 = Value (write_result 2) ∧ fd_file r.1 3 = Some ([x61; x63], 2) ∧
  ∀ n, take n (concat many_buffers) ≠ [x61; x63].
Proof.
  split; [reflexivity|]. split; [reflexivity|]. intros n Hn. apply (f_equal (lookup 1%nat)) in Hn.
  destruct n as [|[|n]]; done.
Qed.

(** ** Witnesses *)

(** A write that the device has room for, and a read of it; both are done. *)
Definition sample_ops : list HandleOp := [WriteOp 0 0 [[x61]; [x62]]; ReadOp 1 1 9].
Definition sample_scheduled : scheduler HandleOp (OpExec memory_kernel) :=
  schedule (ReadOp 1 1 9)
    (schedule (WriteOp 0 0 [[x61]; [x62]]) (opScheduler (create_handle sample_fh sample_kernel))).
Definition sample_drained : scheduler HandleOp (OpExec memory_kernel) :=
  default sample_scheduled (fst <$> run_drains startDrain endDrain visit 12 sample_scheduled).

Lemma posix_handle_refines_witness :
  ox_promises (m_opVisitor sample_drained) !! 0%nat = Some (Value (write_result 2)) ∧
  ox_promises (m_opVisitor sample_drained) !! 1%nat = Some (Value (read_result [x62])) ∧
  ∃ l f' pos', map fst l = sample_ops ∧ posix_run [] l f' ∧
    fd_file (ox_kernel (m_opVisitor sample_drained)) (m_fh sample_fh) = Some (f', pos') ∧
    ∀ op r, (op, r) ∈ l → ox_promises (m_opVisitor sample_drained) !! op_promise op = Some r.
Proof.
  split; [vm_compute; reflexivity|]. split; [vm_compute; reflexivity|].
  apply (posix_handle_refines sample_fh sample_kernel [] 0 sample_drained sample_ops sample_ops).
  - reflexivity.
  - eapply rtc_l; [apply history_schedule|].
    eapply rtc_l; [apply (history_schedule _ _ _ _ [WriteOp 0 0 [[x61]; [x62]]] [])|].
    apply (run_drains_history startDrain endDrain visit 12 sample_scheduled sample_drained sample_ops []).
    vm_compute. reflexivity.
  - apply Forall_cons. split; [vm_compute; intuition congruence|].
    apply Forall_singleton. vm_compute. intuition congruence.
  - apply (bool_decide_unpack _). vm_compute. exact I.
Defined.
