(* ===== verification/BufferedPosix.v ===== *)
(** * Buffered POSIX files

    The buffer agent (BufferAgent.v) in front of a file handle of the POSIX
    helper (PosixHandle.v), whose operations go through the scheduler of
    FlatOpScheduler.v and change the identity of the thread.  The agent waits
    for the future of each operation before it relies on its result; here an
    operation is scheduled and the executor run until it is idle, and the
    handle is shown to keep the laws the agent is proved against, on a system
    whose calls do not fail. *)

From stdpp Require Import base numbers list gmap strings relations.
From Stdlib Require Import ZArith Lia Strings.Byte.
From S2P Require Import Prelude StdStrings Storage Posix PosixHelper WriteBuffer ReadCache BufferAgent FlatOpScheduler PosixHandle.
Local Open Scope Z_scope.

(** The most that Linux transfers in one call. *)
Definition MAX_RW_COUNT : Z := 2147479552.

(** A system whose calls on open regular files succeed and transfer all they
    are asked to, up to that limit. *)
Class PosixUp (K : Type) `{P : Posix K} `{!PosixFileLaws K} := {
  device_up : K → Prop;
  up_setfsuid : ∀ k uid, device_up k → device_up (run_call (sys_setfsuid uid) k).1;
  up_setfsgid : ∀ k gid, device_up k → device_up (run_call (sys_setfsgid gid) k).1;
  up_lseek : ∀ k fd f pos off, device_up k → fd_file k fd = Some (f, pos) → 0 <= off <= OFF_MAX →
    ∃ k', run_call (sys_lseek fd off) k = (k', off) ∧ device_up k';
  up_pread : ∀ k fd f pos size off, device_up k → fd_file k fd = Some (f, pos) →
    0 <= off <= OFF_MAX → 0 <= size <= MAX_RW_COUNT →
    ∃ k', run_call (sys_pread fd size off) k = (k', (chainLength (pread f off size), pread f off size)) ∧
          device_up k';
  up_writev : ∀ k fd f pos iov, device_up k → fd_file k fd = Some (f, pos) →
    chainLength (concat iov) <= MAX_RW_COUNT →
    ∃ k', run_call (sys_writev fd iov) k = (k', chainLength (concat iov)) ∧ device_up k';
  up_fsync : ∀ k fd f pos, device_up k → fd_file k fd = Some (f, pos) →
    ∃ k', run_call (sys_fsync fd) k = (k', 0) ∧ device_up k'
}.

(** ** The handle *)

(** A handle and the number of its next promise. *)
Record posix_file (K : Type) := mk_posix_file { pf_handle : handle K; pf_next : nat }.
Arguments mk_posix_file {K} _ _.
Arguments pf_handle {K} _.
Arguments pf_next {K} _.

Section posix.
Context {K : Type} `{P : Posix K}.

(** A buffer is a chain of its pieces. *)
Context (chain_of : bytes → list bytes).

(** The steps of a drain that finds one operation. *)
Definition drain_fuel : nat := 6.

(** An operation is given to the scheduler, and its future waited for. *)
Definition await_op (schedule_op : nat → handle K → handle K) : ST (posix_file K) op_result := λ h,
  let p := pf_next h in
  let hd := schedule_op p (pf_handle h) in
  match run_drains startDrain endDrain visit drain_fuel (opScheduler hd) with
  | None => (mk_posix_file hd (S p), Exception no_return)
  | Some (s, _) =>
      (mk_posix_file (mk_handle (m_needsRelease hd) s) (S p),
       default (Exception no_return) (ox_promises (m_opVisitor s) !! p))
  end.

Definition result_bytes (r : op_result) : Try bytes :=
  match r with read_result b => Value b | _ => Exception undefined_behaviour end.
Definition result_size (r : op_result) : Try Z :=
  match r with write_result n => Value n | _ => Exception undefined_behaviour end.

Definition posix_handle : FileHandle (posix_file K) := {|
  fh_read := λ offset size, r ← await_op (λ p, PosixHandle.read p offset size); st_lift (result_bytes r);
  fh_write := λ offset buf, r ← await_op (λ p, PosixHandle.write p offset (chain_of buf)); st_lift (result_size r);
  fh_release := λ h,
    match PosixHandle.release (pf_next h) (pf_handle h) with
    | (hd, Some _) => (mk_posix_file hd (pf_next h), Value tt)
    | (_, None) => (_ ← await_op (λ p hd, (PosixHandle.release p hd).1); mret tt) h
    end;
  fh_flush := _ ← await_op PosixHandle.flush; mret tt;
  fh_fsync := λ isDataSync, _ ← await_op (λ p, PosixHandle.fsync p isDataSync); mret tt
|}.
End posix.

(** ** One operation *)

Section laws.
Context {K : Type} `{P : Posix K} `{FL : !PosixFileLaws K} `{!PosixIdLaws K} `{PU : !PosixUp K}.
Implicit Types (fh : PosixFileHandle) (k : K) (f : bytes).

(** The file behind the handle is [f] and the thread may act as its user. *)
Definition ready fh f k : Prop :=
  device_up k ∧ may_setfsuid k (fh_uid fh) = true ∧ may_setfsgid k (fh_gid fh) = true ∧
  ∃ pos, fd_file k (m_fh fh) = Some (f, pos).

Lemma call_keeps_ready {A} (c : syscall A) fh f f' k k' (a : A) (pos : Z) :
  run_call c k = (k', a) → is_setid c = false → ready fh f k → device_up k' →
  fd_file k' (m_fh fh) = Some (f', pos) → ready fh f' k'.
Proof.
  intros Hrun Hc (_ & Hu & Hg & _) Hup Hf. pose proof (call_keeps_creds A c k Hc) as (_ & Hu' & Hg').
  rewrite Hrun in Hu', Hg'. simpl in *. unfold ready. rewrite Hu', Hg'. eauto.
Qed.

Lemma setid_keeps_ready fh f : setid_keeps (ready fh f).
Proof.
  split; intros k id (Hup & Hu & Hg & pos & Hf).
  - destruct (setfsuid_value k id) as (k' & Hrun & _ & Hu' & Hg').
    pose proof (up_setfsuid k id Hup) as Hup'. pose proof (setfsuid_file k id) as Hf'.
    rewrite Hrun in *. simpl in *. unfold ready. rewrite Hu', Hg', Hf'. eauto.
  - destruct (setfsgid_value k id) as (k' & Hrun & _ & Hu' & Hg').
    pose proof (up_setfsgid k id Hup) as Hup'. pose proof (setfsgid_file k id) as Hf'.
    rewrite Hrun in *. simpl in *. unfold ready. rewrite Hu', Hg', Hf'. eauto.
Qed.

Lemma read_op_up fh f k (offset size : Z) :
  ready fh f k → 0 <= offset → 0 <= size <= MAX_RW_COUNT → offset + size <= OFF_MAX →
  ∃ k', read_op fh offset size k = (k', Value (read_result (pread f offset size))) ∧ ready fh f k'.
Proof.
  intros Hr Hoff Hsize Hmax. pose proof Hr as (Hup & _ & _ & pos & Hf).
  destruct (up_pread k _ f pos size offset Hup Hf) as (k1 & Hrun & Hup1); [lia..|].
  destruct (pread_file k _ f pos size offset Hf) as (k1' & r & b & Hrun' & Hf1 & _); [lia..|].
  rewrite Hrun in Hrun'. injection Hrun' as <- <- <-.
  assert (0 <= chainLength (pread f offset size) <= MAX_RW_COUNT) as Hlen.
  { unfold pread, chainLength. rewrite length_take. lia. }
  unfold MAX_RW_COUNT in Hlen. exists k1. split; [|exact (call_keeps_ready _ fh f f k k1 _ pos Hrun eq_refl Hr Hup1 Hf1)].
  unfold read_op, retry_call_out. erewrite st_bind_value.
  2:{ apply retry_done; [unfold call; by rewrite Hrun|]. simpl. unfold POSIXRetryCondition.
      rewrite i32_small by lia. by rewrite (proj2 (Z.leb_le _ _)) by lia. }
  simpl. by rewrite (proj2 (Z.eqb_neq _ _)) by lia.
Qed.

(** The loop of a write from the position of the descriptor. *)
Lemma writev_loop_up fh (rounds : nat) (iov : list bytes) (size : Z) f k (pos : Z) :
  ready fh f k → fd_file k (m_fh fh) = Some (f, pos) → 0 <= pos →
  (length iov ≤ rounds * Z.to_nat IOV_MAX)%nat → 0 <= size →
  size + chainLength (concat iov) <= MAX_RW_COUNT →
  ∃ k', writev_loop rounds (m_fh fh) iov size k = (k', Value (size + chainLength (concat iov))) ∧
    ready fh (pwrite f pos (concat iov)) k'.
Proof.
  revert iov size f k pos. induction rounds as [|rounds IH]; intros iov size f k pos Hr Hf Hpos Hlen Hsize Hmax.
  { destruct iov; [|simpl in Hlen; lia]. exists k. simpl. by rewrite Z.add_0_r. }
  simpl writev_loop. set (m := Z.to_nat IOV_MAX) in *.
  assert (concat iov = concat (take m iov) ++ concat (drop m iov)) as Hsplit
    by (by rewrite <-concat_app, take_drop).
  rewrite Hsplit, chainLength_app in *. pose proof (chainLength_nonneg (concat (take m iov))).
  pose proof (chainLength_nonneg (concat (drop m iov))). pose proof Hr as (Hup & _).
  destruct (up_writev k _ f pos (take m iov) Hup Hf) as (k1 & Hrun & Hup1); [lia|].
  destruct (writev_file k _ f pos (take m iov) Hf) as (k1' & r & Hrun' & Hres).
  rewrite Hrun in Hrun'. injection Hrun' as <- <-. unfold MAX_RW_COUNT in *.
  destruct Hres as [[Hneg _]|[_ Hf1]]; [lia|].
  rewrite take_ge in Hf1 by (unfold chainLength; lia).
  pose proof (call_keeps_ready _ fh f _ k k1 _ _ Hrun eq_refl Hr Hup1 Hf1) as Hr1.
  erewrite st_bind_value.
  2:{ apply retry_done; [unfold call; by rewrite Hrun|]. simpl. rewrite i32_small by lia.
      by rewrite (proj2 (Z.eqb_neq _ _)) by lia. }
  cbv beta iota. rewrite (proj2 (Z.eqb_neq _ _)) by lia. rewrite i32_small by lia.
  destruct (IH (drop m iov) (size + chainLength (concat (take m iov))) _ k1 _ Hr1 Hf1)
    as (k2 & Hrun2 & Hr2); [lia|rewrite length_drop; lia|lia..|].
  exists k2. rewrite Hrun2. rewrite pwrite_app in Hr2 by done. split; [do 2 f_equal; lia|done].
Qed.

Lemma write_op_up fh f k (offset : Z) (buf : list bytes) :
  ready fh f k → 0 <= offset → offset + chainLength (concat buf) <= OFF_MAX →
  chainLength (concat buf) <= MAX_RW_COUNT →
  ∃ k', write_op_ fh offset buf k = (k', Value (write_result (chainLength (concat buf)))) ∧
    ready fh (pwrite f offset (concat buf)) k'.
Proof.
  intros Hr Hoff Hend Hmax. pose proof Hr as (Hup & _ & _ & pos & Hf).
  pose proof (chainLength_nonneg (concat buf)).
  destruct (up_lseek k _ f pos offset Hup Hf) as (k1 & Hrun & Hup1); [lia|].
  destruct (lseek_file k _ f pos offset Hf) as (k1' & r & Hrun' & Hres); [lia|].
  rewrite Hrun in Hrun'. injection Hrun' as <- <-. destruct Hres as [[_ Hf1]|[-> _]]; [|lia].
  pose proof (call_keeps_ready _ fh f f k k1 _ _ Hrun eq_refl Hr Hup1 Hf1) as Hr1.
  unfold write_op_. erewrite st_bind_value by (unfold call; by rewrite Hrun).
  cbv beta iota. rewrite (proj2 (Z.eqb_neq _ _)) by lia. case_bool_decide as Hempty.
  { exists k1. by rewrite Hempty. }
  destruct (writev_loop_up fh (writev_rounds (getIov buf)) (getIov buf) 0 f k1 offset Hr1 Hf1)
    as (k2 & Hrun2 & Hr2); rewrite ?concat_getIov in *; simpl; [lia| |lia..|].
  { unfold writev_rounds, IOV_MAX. zlia. }
  unfold MAX_RW_COUNT in *. exists k2. erewrite st_bind_value by exact Hrun2.
  split; [|done]. by rewrite u64_small by lia.
Qed.

Lemma fsync_op_up fh f k : ready fh f k →
  ∃ k', unit_op (setResult (sys_fsync (m_fh fh))) k = (k', Value unit_result) ∧ ready fh f k'.
Proof.
  intros Hr. pose proof Hr as (Hup & _ & _ & pos & Hf).
  destruct (up_fsync k _ f pos Hup Hf) as (k1 & Hrun & Hup1).
  destruct (fsync_file k _ f pos Hf) as (k1' & r & Hrun' & Hf1).
  rewrite Hrun in Hrun'. injection Hrun' as <- <-.
  exists k1. split; [|exact (call_keeps_ready _ fh f f k k1 _ pos Hrun eq_refl Hr Hup1 Hf1)].
  assert (setResult (sys_fsync (m_fh fh)) k = (k1, Value tt)) as Hs.
  { unfold setResult, retry_call.
    erewrite st_bind_value; [|apply retry_done; [unfold call; by rewrite Hrun|]]; done. }
  unfold unit_op. by erewrite st_bind_value by exact Hs.
Qed.

(** What an operation on the open file [f] gives, and the file after it. *)
Definition op_result_of f (op : HandleOp) : op_result * bytes :=
  match op with
  | ReadOp _ offset size => (read_result (pread f offset size), f)
  | WriteOp _ offset buf => (write_result (chainLength (concat buf)), pwrite f offset (concat buf))
  | _ => (unit_result, f)
  end.

Definition op_small (op : HandleOp) : Prop :=
  match op with
  | ReadOp _ offset size => 0 <= offset ∧ 0 <= size <= MAX_RW_COUNT ∧ offset + size <= OFF_MAX
  | WriteOp _ offset buf =>
      0 <= offset ∧ offset + chainLength (concat buf) <= OFF_MAX ∧ chainLength (concat buf) <= MAX_RW_COUNT
  | FsyncOp _ | FlushOp _ => True
  | ReleaseOp _ => False
  end.

Lemma op_body_up fh f k (op : HandleOp) :
  ready fh f k → op_small op →
  ∃ k', op_body fh op k = (k', Value (op_result_of f op).1) ∧ ready fh (op_result_of f op).2 k'.
Proof.
  destruct op as [p offset size|p offset buf|p|p|p]; simpl; intros Hr Hop; [..|done].
  - destruct Hop as (? & ? & ?). by apply read_op_up.
  - destruct Hop as (? & ? & ?). by apply write_op_up.
  - by apply fsync_op_up.
  - by exists k.
Qed.

(** ** Through the scheduler *)

(** A handle whose scheduler is idle. *)
Definition idle (fh : PosixFileHandle) f (h : posix_file K) : Prop :=
  let s := opScheduler (pf_handle h) in
  m_executor s = [] ∧ m_drainInProgress s = false ∧ m_filledQueue s = [] ∧ m_usedQueue s = [] ∧
  m_handle (m_opVisitor s) = Some fh ∧ ready fh f (ox_kernel (m_opVisitor s)).

Lemma permitted_ready fh f k : ready fh f k → permitted k (fh_uid fh) (fh_gid fh) = true.
Proof. intros (_ & Hu & Hg & _). unfold permitted. rewrite Hu, Hg. by rewrite !orb_true_r. Qed.

Lemma startDrain_ready fh f (v : OpExec K) :
  m_handle v = Some fh → ready fh f (ox_kernel v) →
  let v' := startDrain v in
  m_handle v' = Some fh ∧ ready fh f (ox_kernel v') ∧ m_validCtx v' = true.
Proof.
  intros Hh Hr. unfold startDrain. rewrite Hh.
  destruct (new_UserCtxSetter_spec (fh_uid fh) (fh_gid fh) (ox_kernel v)) as (k1 & c & Hnew & _ & Hv & _).
  pose proof (setid_keeps_new _ (fh_uid fh) (fh_gid fh) (setid_keeps_ready fh f) _ Hr) as Hr1.
  rewrite Hnew in *. simpl in *. by rewrite Hv, (permitted_ready fh f).
Qed.

Lemma endDrain_ready fh f (v : OpExec K) :
  m_handle v = Some fh → ready fh f (ox_kernel v) →
  m_handle (endDrain v) = Some fh ∧ ready fh f (ox_kernel (endDrain v)) ∧
  ox_promises (endDrain v) = ox_promises v.
Proof.
  intros Hh Hr. unfold endDrain. destruct (ox_userCtx v) as [c|]; [|done]. simpl. split_and!; [done| |done].
  by apply (setid_keeps_delete _ c (setid_keeps_ready fh f)).
Qed.

Lemma visit_ready fh f (op : HandleOp) (v : OpExec K) :
  m_handle v = Some fh → ready fh f (ox_kernel v) → m_validCtx v = true → op_small op →
  ∃ v', visit op v = (v', Value tt) ∧ m_handle v' = Some fh ∧ ready fh (op_result_of f op).2 (ox_kernel v') ∧
    ox_promises v' !! op_promise op = Some (Value (op_result_of f op).1).
Proof.
  intros Hh Hr Hv Hop. destruct (op_body_up fh f (ox_kernel v) op Hr Hop) as (k' & Hrun & Hr').
  unfold visit. rewrite Hv, Hh. simpl. rewrite Hrun. eexists. split; [done|]. simpl.
  by rewrite lookup_insert_eq.
Qed.

(** The drain of one operation takes [drain_fuel] steps. *)
Lemma await_op_value fh f (h : posix_file K) (op : nat → HandleOp) :
  idle fh f h → (∀ p, op_small (op p) ∧ op_promise (op p) = p) →
  ∃ h', await_op (λ p, handle_schedule (op p)) h = (h', Value (op_result_of f (op (pf_next h))).1) ∧
    idle fh (op_result_of f (op (pf_next h))).2 h'.
Proof.
  destruct h as [[nr [b q u v ex]] p]. unfold idle. simpl. intros (-> & -> & -> & -> & Hh & Hr) Hop.
  destruct (Hop p) as [Hsmall Hp].
  destruct (startDrain_ready fh f v Hh Hr) as (Hh1 & Hr1 & Hv1).
  destruct (visit_ready fh f (op p) (startDrain v) Hh1 Hr1 Hv1 Hsmall) as (v2 & Hvisit & Hh2 & Hr2 & Hpr).
  destruct (endDrain_ready fh _ v2 Hh2 Hr2) as (Hh3 & Hr3 & Hpr3).
  unfold await_op, handle_schedule, schedule. simpl. unfold drainQueue_step. simpl.
  rewrite Hvisit. simpl. rewrite Hp in Hpr. rewrite Hpr3, Hpr. simpl. eexists. split; [done|]. simpl. done.
Qed.
End laws.

(** ** The laws *)

Section buffered.
Context {K : Type} `{P : Posix K} `{FL : !PosixFileLaws K} `{!PosixIdLaws K} `{PU : !PosixUp K}.
Context (fh : PosixFileHandle) (chain_of : bytes → list bytes).
Hypothesis Hchain : ∀ b, concat (chain_of b) = b.

Definition posix_contents (h : posix_file K) : bytes :=
  match fd_file (ox_kernel (m_opVisitor (opScheduler (pf_handle h)))) (m_fh fh) with
  | Some (f, _) => f
  | None => []
  end.

Lemma idle_contents (f : bytes) (h : posix_file K) : idle fh f h → posix_contents h = f.
Proof. intros (_ & _ & _ & _ & _ & _ & _ & _ & pos & Hf). unfold posix_contents. by rewrite Hf. Qed.

Lemma posix_handle_laws : @FileHandleLaws (posix_file K) (posix_handle chain_of).
Proof.
  refine {| contents := posix_contents; handle_ok := λ h, ∃ f, idle fh f h;
            max_read := MAX_RW_COUNT; max_write := MAX_RW_COUNT |}; simpl.
  - intros h off n [f Hf] Hoff Hn Hmax. rewrite (idle_contents f h Hf).
    destruct (await_op_value fh f h (λ p, ReadOp p off n) Hf) as (h' & Hrun & Hf'); [done|].
    exists h'. erewrite st_bind_value by exact Hrun. by rewrite (idle_contents f h' Hf'); eauto.
  - intros h off b [f Hf] Hoff Hend Hmax. rewrite (idle_contents f h Hf).
    destruct (await_op_value fh f h (λ p, WriteOp p off (chain_of b)) Hf) as (h' & Hrun & Hf').
    { intros p. simpl. by rewrite Hchain. }
    simpl in Hrun, Hf'. rewrite Hchain in Hrun, Hf'.
    exists h'. erewrite st_bind_value by exact Hrun. by rewrite (idle_contents _ h' Hf'); eauto.
  - intros h isDataSync [f Hf]. rewrite (idle_contents f h Hf).
    destruct (await_op_value fh f h FsyncOp Hf) as (h' & Hrun & Hf'); [done|].
    erewrite st_bind_value by exact Hrun. simpl. by rewrite (idle_contents f h' Hf'); eauto.
  - intros h [f Hf]. rewrite (idle_contents f h Hf).
    destruct (await_op_value fh f h FlushOp Hf) as (h' & Hrun & Hf'); [done|].
    erewrite st_bind_value by exact Hrun. simpl. by rewrite (idle_contents f h' Hf'); eauto.
Defined.

#[local] Instance opened_handle : FileHandle (posix_file K) := posix_handle chain_of.
#[local] Existing Instance posix_handle_laws.

(** C7: a buffered POSIX file reads what was written to it, and an fsync
    stores it: through the write buffer, the read cache, the scheduler of the
    handle, the change of the identity and the vectored writes.  Take any history
    of a handle that was opened on the file [f] after which no caller still
    waits for the confirmation of an earlier write, read or fsync.  Whatever
    batches run in the meantime, once a read is ready it has succeeded with a
    beginning of the requested range of the file with all writes applied, not
    empty unless the range is; once an fsync is ready it has succeeded, and the
    file of the system is the file with all writes applied.  Both are ready when
    the pushed batches have run. *)
Theorem buffered_posix_read_your_writes (bl : BufferLimits) (k : K) (f spec : bytes) (pos n : Z)
    (bh : BufferedFileHandle (posix_file K)) (durations : list Z)
    (now latency offset size continuousSize : Z) (isDataSync : bool) :
  device_up k → may_setfsuid k (fh_uid fh) = true → may_setfsgid k (fh_gid fh) = true →
  fd_file k (m_fh fh) = Some (f, pos) →
  0 <= readBufferMaxSize bl <= MAX_RW_COUNT → 0 <= writeBufferMaxSize bl →
  rtc (bh_step bl) (f, 0, new_BufferedFileHandle bl (mk_posix_file (create_handle fh k) 0)) (spec, n, bh) →
  settled bh →
  0 <= offset → 0 <= size <= MAX_RW_COUNT → size <= continuousSize → offset + continuousSize <= OFF_MAX →
  (∀ bh' r, BufferAgent.read bl durations now latency offset size continuousSize bh = Some (bh', r) →
     ∃ b, r = Value b ∧ good_answer spec offset size b) ∧
  (∀ bh' r, BufferAgent.fsync durations isDataSync bh = Some (bh', r) →
     r = Value tt ∧ posix_contents (m_wrappedHandle bh') = spec) ∧
  ((length (m_writeFuture (pushBuffer (m_writeBuffer bh))) ≤ length durations)%nat →
     is_Some (BufferAgent.read bl durations now latency offset size continuousSize bh) ∧
     is_Some (BufferAgent.fsync durations isDataSync bh)).
Proof.
  intros Hup Hu Hg Hf [Hr Hfit] Hw Hrtc Hset Hoff Hsize Hcont Hend.
  set (h := mk_posix_file (create_handle fh k) 0) in *.
  assert (idle fh f h) as Hidle by (unfold idle, ready; simpl; split_and!; eauto).
  assert (bh_ok (FL := posix_handle_laws) bl spec n bh) as Hok.
  { apply (bh_reachable_ok (FL := posix_handle_laws) bl Hr Hfit Hw h); [by exists f|].
    simpl. by rewrite (idle_contents f h Hidle). }
  destruct (read_ok (FL := posix_handle_laws) bl Hr Hfit Hw spec n durations now latency offset size
              continuousSize bh Hok Hset) as [Hread Hready]; [done..|].
  split_and!; [done| |intros Hlen; split; [by apply Hready|by eapply (fsync_ready (FL := posix_handle_laws))]].
  intros bh' r Hfs.
  destruct (fsync_keeps (FL := posix_handle_laws) bl Hw spec n durations isDataSync bh bh' r Hok Hfs)
    as (_ & Hc & h' & [f' Hh'] & ->).
  split; [|by apply Hc]. simpl.
  destruct (await_op_value fh f' h' FsyncOp Hh') as (h2 & Hrun & _); [done|].
  by erewrite st_bind_value by exact Hrun.
Qed.
End buffered.

(** ** A system in memory *)

#[export] Instance memory_up : PosixUp memory_kernel.
Proof.
  refine {| device_up k := MAX_RW_COUNT <= mk_room k |}; simpl.
  - intros k uid Hk. by destruct (may_take _ _).
  - intros k gid Hk. by destruct (may_take _ _).
  - intros k fd f pos off Hk -> _. by eexists.
  - intros k fd f pos size off Hk -> _ _. by eexists.
  - intros k fd f pos iov Hk Hf Hlen. unfold memory_writev. rewrite Hf.
    rewrite take_ge by (unfold chainLength in *; lia). by eexists.
  - intros k fd f pos Hk _. by exists k.
Defined.

Definition roomy_kernel : memory_kernel :=
  mk_memory_kernel 0 (0, 0) {[0; 1000]} {[0; 100]} {[3 := ([x61; x62; x63], 0)]} ∅ ∅ ∅ MAX_RW_COUNT.
Definition posix_opened : BufferedFileHandle (posix_file memory_kernel) :=
  new_BufferedFileHandle sample_limits (mk_posix_file (create_handle sample_fh roomy_kernel) 0).
Definition posix_written : BufferedFileHandle (posix_file memory_kernel) :=
  match BufferAgent.write sample_limits 1 [x78] posix_opened with Some (bh, _) => bh | None => posix_opened end.
Abbreviation one_piece := (λ b : bytes, [b]).

Lemma buffered_posix_read_your_writes_witness :
  (∀ bh' r, @BufferAgent.read _ (posix_handle one_piece) sample_limits [5] 7 3 0 3 3 posix_written
            = Some (bh', r) → ∃ b, r = Value b ∧ good_answer [x61; x78; x63] 0 3 b) ∧
  (∀ bh' r, @BufferAgent.fsync _ (posix_handle one_piece) [5] true posix_written = Some (bh', r) →
     r = Value tt ∧ posix_contents sample_fh (m_wrappedHandle bh') = [x61; x78; x63]) ∧
  ((length (m_writeFuture (pushBuffer (m_writeBuffer posix_written))) ≤ length [5%Z])%nat →
     is_Some (@BufferAgent.read _ (posix_handle one_piece) sample_limits [5] 7 3 0 3 3 posix_written) ∧
     is_Some (@BufferAgent.fsync _ (posix_handle one_piece) [5] true posix_written)).
Proof.
  assert (∀ b : bytes, concat (one_piece b) = b) as Hchain by (intros b; apply app_nil_r).
  apply (buffered_posix_read_your_writes sample_fh one_piece Hchain sample_limits roomy_kernel
           [x61; x62; x63] [x61; x78; x63] 0 1 posix_written [5] 7 3 0 3 3 true);
    [done|reflexivity|reflexivity|reflexivity|vm_compute; intuition congruence|vm_compute; congruence|
    | |vm_compute; intuition congruence..].
  - apply rtc_once. eapply (bh_write sample_limits [x61; x62; x63] 0 posix_opened posix_written 1 [x78]).
    + repeat split; vm_compute; congruence.
    + vm_compute. congruence.
    + vm_compute. reflexivity.
  - intros p Hp. vm_compute in Hp. lia.
Defined.
