(* ===== verification/Protocol.v ===== *)
(** * Messages

    The fields of the protocol buffer messages that the communication layers
    read and write (src/src/communication/declarations.h names the types).
    Bodies the layers only pass on are kept as their bytes. *)

From stdpp Require Import base numbers list strings.
From Stdlib Require Import ZArith.
From S2P Require Import Prelude.
Local Open Scope Z_scope.

Definition DEFAULT_RETRY_NUMBER : Z := 5.
Definition STREAM_MSG_ACK_WINDOW : Z := 100.

Record message_stream := mk_message_stream {
  stream_id : Z;
  sequence_number : Z
}.

Inductive client_body :=
| client_message_request (sid lower_sequence_number upper_sequence_number : Z)
| client_message_acknowledgement (sid seq : Z)
| client_message_stream_reset
| client_end_of_stream
| client_payload (b : bytes).

Record ClientMessage := mk_ClientMessage {
  cm_message_id : string;
  cm_message_stream : option message_stream;
  cm_body : client_body
}.

Inductive server_body :=
| server_message_request (sid lower_sequence_number upper_sequence_number : Z)
| server_message_acknowledgement (sid seq : Z)
| server_message_stream_reset (sid : option Z)
| server_end_of_stream
| server_processing_status (code : Z)
| server_payload (b : bytes).

Record ServerMessage := mk_ServerMessage {
  sm_message_id : string;
  sm_message_stream : option message_stream;
  sm_body : server_body
}.

Definition has_end_of_stream (m : ServerMessage) : bool :=
  match sm_body m with server_end_of_stream => true | _ => false end.
Definition has_message_request (m : ServerMessage) : bool :=
  match sm_body m with server_message_request _ _ _ => true | _ => false end.
Definition has_message_acknowledgement (m : ServerMessage) : bool :=
  match sm_body m with server_message_acknowledgement _ _ => true | _ => false end.
Definition has_message_stream_reset (m : ServerMessage) : bool :=
  match sm_body m with server_message_stream_reset _ => true | _ => false end.
Definition has_processing_status (m : ServerMessage) : bool :=
  match sm_body m with server_processing_status _ => true | _ => false end.

(** [message_stream()] of a message without one is the default instance. *)
Definition server_stream (m : ServerMessage) : message_stream :=
  default (mk_message_stream 0 0) (sm_message_stream m).
Definition client_stream (m : ClientMessage) : message_stream :=
  default (mk_message_stream 0 0) (cm_message_stream m).

(** [std::make_unique<clproto::ClientMessage>()] with a body set. *)
Definition make_client (b : client_body) : ClientMessage :=
  mk_ClientMessage EmptyString None b.

#[export] Instance message_stream_eq_dec : EqDecision message_stream.
Proof. solve_decision. Defined.
#[export] Instance client_body_eq_dec : EqDecision client_body.
Proof. solve_decision. Defined.
#[export] Instance ClientMessage_eq_dec : EqDecision ClientMessage.
Proof. solve_decision. Defined.
#[export] Instance server_body_eq_dec : EqDecision server_body.
Proof. solve_decision. Defined.
#[export] Instance ServerMessage_eq_dec : EqDecision ServerMessage.
Proof. solve_decision. Defined.
