(* ===== verification/Sequencer.v ===== *)
(** * Sequencing of incoming streams (src/src/communication/layers/sequencer.h)

    One [Buffer] per stream holds the messages that came too early; every
    arrival forwards what has become consecutive, asks for the missing range
    and acknowledges what was forwarded.  The theorems: whatever the order in
    which messages arrive, and however other streams are interleaved, a stream
    is forwarded in sequence, without gaps and without repeats. *)

From stdpp Require Import base numbers list gmap strings.
From Stdlib Require Import ZArith Lia.
From S2P Require Import Prelude PriorityQueue Protocol.
Local Open Scope Z_scope.

Definition seqnum (m : ServerMessage) : Z := sequence_number (server_stream m).

Definition GreaterSeqNum (a b : ServerMessage) : bool := seqnum b <? seqnum a.

(** ** Sequencer::Buffer *)
Record Buffer := mk_Buffer {
  m_seqNum : Z;
  m_seqNumAck : Z;
  m_buffer : list ServerMessage
}.

(** [m_buffers.insert(acc, streamId)] makes a value-initialised buffer. *)
Definition new_Buffer : Buffer := mk_Buffer 0 0 [].

Definition push (serverMsg : ServerMessage) (b : Buffer) : Buffer :=
  if m_seqNum b <=? seqnum serverMsg
  then mk_Buffer (m_seqNum b) (m_seqNumAck b) (emplace serverMsg (m_buffer b))
  else b.

(** The loop of [clear]: the buffer, the messages given to the callback, and
    the returned pair.  Every iteration pops a message, so one more than the
    length of the buffer is enough fuel. *)
Fixpoint clear_loop (fuel : nat) (b : Buffer) : Buffer * list ServerMessage * (Z * bool) :=
  match fuel with
  | O => (b, [], (u64 (m_seqNum b - 1), false))
  | S fuel' =>
      match try_pop GreaterSeqNum (m_buffer b) with
      | None => (b, [], (u64 (m_seqNum b - 1), false))
      | Some (it, rest) =>
          if seqnum it =? m_seqNum b then
            let b' := mk_Buffer (u64 (m_seqNum b + 1)) (m_seqNumAck b) rest in
            if has_end_of_stream it then
              (b', [it], (u64 (m_seqNum b' - 1), true))
            else
              let '(b'', out, r) := clear_loop fuel' b' in (b'', it :: out, r)
          else if m_seqNum b <? seqnum it then
            (mk_Buffer (m_seqNum b) (m_seqNumAck b) (emplace it rest), [],
             (u64 (seqnum it - 1), false))
          else clear_loop fuel' (mk_Buffer (m_seqNum b) (m_seqNumAck b) rest)
      end
  end.

Definition clear (b : Buffer) : Buffer * list ServerMessage * (Z * bool) :=
  clear_loop (S (length (m_buffer b))) b.

Definition resetSequenceNumberAck (b : Buffer) : Buffer :=
  mk_Buffer (m_seqNum b) (m_seqNum b) (m_buffer b).

(** ** Sequencer *)

(** What the layer does to its neighbours: the callback of the layer above,
    a message to the server. *)
Inductive event :=
| Forward (m : ServerMessage)
| Send (m : ClientMessage).

Definition sendMessageStreamReset : event := Send (make_client client_message_stream_reset).
Definition sendMessageRequest (streamId lowerSeqNum upperSeqNum : Z) : event :=
  Send (make_client (client_message_request streamId lowerSeqNum upperSeqNum)).
Definition sendMessageAcknowledgement (streamId seqNum : Z) : event :=
  Send (make_client (client_message_acknowledgement streamId seqNum)).

Abbreviation buffers := (gmap Z Buffer).

(** The requests and acknowledgement that follow a [clear] without end of
    stream. *)
Definition after_clear (streamId : Z) (b : Buffer) (upper : Z) : Buffer * list event :=
  let seqNum := m_seqNum b in
  let seqNumAck := m_seqNumAck b in
  let request := if seqNum <=? upper then [sendMessageRequest streamId seqNum upper] else [] in
  if u64 (seqNumAck + STREAM_MSG_ACK_WINDOW) <=? seqNum then
    (resetSequenceNumberAck b,
     request ++ [sendMessageAcknowledgement streamId (u64 (seqNum - 1))])
  else (b, request).

(** The callback that [setOnMessageCallback] installs. *)
Definition onMessage (m_buffers : buffers) (serverMsg : ServerMessage) : buffers * list event :=
  match sm_message_stream serverMsg with
  | None => (m_buffers, [Forward serverMsg])
  | Some stream =>
      let streamId := stream_id stream in
      let b := push serverMsg (default new_Buffer (m_buffers !! streamId)) in
      let '(b', out, cleared) := clear b in
      if cleared.2 then
        (delete streamId m_buffers,
         map Forward out ++ [sendMessageAcknowledgement streamId cleared.1])
      else
        let '(b'', sent) := after_clear streamId b' cleared.1 in
        (<[streamId := b'']> m_buffers, map Forward out ++ sent)
  end.

(** The periodic task asks every stream for the message it waits for. *)
Definition getStreamSequenceNumbers (m_buffers : buffers) : list (Z * Z) :=
  map (λ elem, (elem.1, m_seqNum elem.2)) (map_to_list m_buffers).
Definition periodicMessageRequest (m_buffers : buffers) : list event :=
  map (λ elem, sendMessageRequest elem.1 elem.2 elem.2) (getStreamSequenceNumbers m_buffers).

(** [connect] after the lower layer's [connect]. *)
Definition connect (m_buffers : buffers) : buffers * list event :=
  (m_buffers, [sendMessageStreamReset]).

(** A sequence of arrivals. *)
Fixpoint arrivals (st : buffers) (msgs : list ServerMessage) : buffers * list event :=
  match msgs with
  | [] => (st, [])
  | m :: msgs' =>
      let '(st1, evs1) := onMessage st m in
      let '(st2, evs2) := arrivals st1 msgs' in
      (st2, evs1 ++ evs2)
  end.

(** ** Streams in a trace *)

Definition of_stream (s : Z) (m : ServerMessage) : Prop :=
  ∃ q, sm_message_stream m = Some (mk_message_stream s q).

#[export] Instance of_stream_dec (s : Z) (m : ServerMessage) : Decision (of_stream s m).
Proof.
  destruct (sm_message_stream m) as [[s' q]|] eqn:Hm.
  - destruct (decide (s' = s)) as [->|Hne]; [left; by exists q|].
    right. intros [q' Hq']. congruence.
  - right. intros [q' Hq']. congruence.
Defined.

(** The messages of stream [s], and those among them given to the callback. *)
Definition arrived (s : Z) (msgs : list ServerMessage) : list ServerMessage :=
  filter (of_stream s) msgs.
Definition forwards (evs : list event) : list ServerMessage :=
  omap (λ e, match e with Forward m => Some m | Send _ => None end) evs.
Definition forwarded (s : Z) (evs : list event) : list ServerMessage :=
  arrived s (forwards evs).

(** ** The loop of clear *)

Record cleared_to (b b' : Buffer) (out : list ServerMessage) : Prop := {
  cleared_ack : m_seqNumAck b' = m_seqNumAck b;
  cleared_seq : m_seqNum b' = m_seqNum b + Z.of_nat (length out);
  cleared_max : m_seqNum b' <= UINT64_MAX;
  cleared_out : map seqnum out = seqZ (m_seqNum b) (Z.of_nat (length out));
  cleared_sub : ∀ x, x ∈ out ∨ x ∈ m_buffer b' → x ∈ m_buffer b;
  cleared_all : ∀ x, x ∈ m_buffer b → x ∈ m_buffer b' ∨ seqnum x < m_seqNum b'
}.

Definition valid_seq (x : ServerMessage) : Prop := 0 <= seqnum x < UINT64_MAX.

Lemma GreaterSeqNum_key (a b : ServerMessage) : GreaterSeqNum a b = (- seqnum a <? - seqnum b).
Proof. unfold GreaterSeqNum. apply eq_true_iff_eq. rewrite !Z.ltb_lt. lia. Qed.

Lemma cleared_refl (b : Buffer) :
  m_seqNum b <= UINT64_MAX → cleared_to b b [].
Proof. intros Hb. split; simpl; try done; [lia|set_solver|auto]. Qed.

(** Popping a message that is too old. *)
Lemma cleared_drop (b b' : Buffer) (it : ServerMessage) (rest out : list ServerMessage) :
  it :: rest ≡ₚ m_buffer b → seqnum it < m_seqNum b →
  cleared_to (mk_Buffer (m_seqNum b) (m_seqNumAck b) rest) b' out → cleared_to b b' out.
Proof.
  intros Hperm Hold [Hack Hsq Hmax Hout Hsub Hall]. simpl in *. split; try done.
  - intros x Hx. rewrite <-Hperm. right. by apply Hsub.
  - intros x. rewrite <-Hperm, elem_of_cons. intros [->|Hx]; [right; lia|auto].
Qed.

(** Popping and forwarding the expected message. *)
Lemma cleared_forward (b b' : Buffer) (it : ServerMessage) (rest out : list ServerMessage) :
  it :: rest ≡ₚ m_buffer b → seqnum it = m_seqNum b →
  cleared_to (mk_Buffer (m_seqNum b + 1) (m_seqNumAck b) rest) b' out →
  cleared_to b b' (it :: out).
Proof.
  intros Hperm Heq [Hack Hsq Hmax Hout Hsub Hall]. simpl in *. split; try done.
  - simpl. lia.
  - cbn [map]. rewrite Hout, Heq, (seqZ_cons (m_seqNum b)) by (simpl; lia).
    f_equal. f_equal; simpl; lia.
  - intros x Hx. rewrite <-Hperm. rewrite !elem_of_cons in *. naive_solver.
  - intros x. rewrite <-Hperm, elem_of_cons. intros [->|Hx]; [right; lia|auto].
Qed.

Lemma clear_loop_spec (fuel : nat) (b : Buffer) :
  (length (m_buffer b) < fuel)%nat → 0 <= m_seqNum b <= UINT64_MAX →
  Forall valid_seq (m_buffer b) →
  let '(b', out, (n, eos)) := clear_loop fuel b in
  cleared_to b b' out ∧
  if (eos : bool) then
    n = m_seqNum b' - 1 ∧
    ∃ l x, out = l ++ [x] ∧ has_end_of_stream x = true ∧
           Forall (λ y, has_end_of_stream y = false) l
  else
    Forall (λ y, has_end_of_stream y = false) out ∧
    Forall (λ y, m_seqNum b' < seqnum y) (m_buffer b') ∧
    ((m_buffer b' = [] ∧ n = u64 (m_seqNum b' - 1)) ∨
     (∃ x, x ∈ m_buffer b' ∧ n = seqnum x - 1 ∧
           Forall (λ y, seqnum x <= seqnum y) (m_buffer b'))).
Proof.
  revert b. induction fuel as [|fuel IH]; intros b Hfuel Hseq Hvalid; [lia|]. simpl.
  destruct (try_pop GreaterSeqNum (m_buffer b)) as [[it rest]|] eqn:Hpop.
  2:{ apply try_pop_None in Hpop. split; [apply cleared_refl; lia|].
      rewrite Hpop. split_and!; [constructor..|]. by left. }
  pose proof (try_pop_length _ _ GreaterSeqNum_key _ _ _ Hpop) as Hlen.
  apply (try_pop_Some _ _ GreaterSeqNum_key) in Hpop as [Hperm Hmin].
  rewrite <-Hperm in Hvalid. apply Forall_cons in Hvalid as [[Hit0 Hit1] Hrest].
  unfold UINT64_MAX in *. destruct (Z.eqb_spec (seqnum it) (m_seqNum b)) as [Heq|Hne].
  - rewrite u64_small by lia. destruct (has_end_of_stream it) eqn:Heos.
    + split; [|simpl; rewrite u64_small by lia; split; [done|by exists [], it]].
      apply (cleared_forward b _ it rest); [done..|]. by apply cleared_refl; simpl; unfold UINT64_MAX; lia.
    + specialize (IH (mk_Buffer (m_seqNum b + 1) (m_seqNumAck b) rest)).
      simpl in IH. ospecialize (IH _ _ _); [lia|lia|done|].
      destruct (clear_loop _ _) as [[b' out] [n eos]]. destruct IH as [Hto Hres].
      split; [by eapply cleared_forward|]. destruct eos.
      * destruct Hres as (Hn & l & x & -> & Hx & Hl). split; [done|].
        exists (it :: l), x. split_and!; [done..|by constructor].
      * destruct Hres as (Hout & Hres). split; [by constructor|done].
  - destruct (Z.ltb_spec (m_seqNum b) (seqnum it)) as [Hlt|Hge].
    + assert (Forall (λ y, seqnum it <= seqnum y) (it :: rest)) as Hge.
      { constructor; [lia|]. eapply Forall_impl; [exact Hmin|]. simpl. lia. }
      split; [|simpl; split_and!; [constructor| |right]].
      * split; simpl; try done; [lia|unfold UINT64_MAX; lia|..]; intros x; rewrite <-Hperm; auto.
        intros [Hx|Hx]; [by apply elem_of_nil in Hx|done].
      * eapply Forall_impl; [exact Hge|]. simpl. lia.
      * exists it. rewrite u64_small by lia. split_and!; [left|done|done].
    + specialize (IH (mk_Buffer (m_seqNum b) (m_seqNumAck b) rest)).
      simpl in IH. ospecialize (IH _ _ _); [lia|lia|done|].
      destruct (clear_loop _ _) as [[b' out] [n eos]]. destruct IH as [Hto Hres].
      split; [|done]. eapply cleared_drop; [done|lia|done].
Qed.

(** ** One stream *)

(** After the arrivals [A] of a stream, [F] has been forwarded and the rest
    waits in [b]. *)
Record stream_inv (A F : list ServerMessage) (b : Buffer) : Prop := {
  inv_valid : Forall valid_seq A;
  inv_seq : map seqnum F = seqZ 0 (m_seqNum b);
  inv_len : m_seqNum b = Z.of_nat (length F);
  inv_max : m_seqNum b <= UINT64_MAX;
  inv_F : Forall (λ x, x ∈ A ∧ has_end_of_stream x = false) F;
  inv_buffer : Forall (λ x, x ∈ A ∧ m_seqNum b < seqnum x) (m_buffer b);
  inv_all : Forall (λ x, seqnum x < m_seqNum b ∨ x ∈ m_buffer b) A;
  inv_ack : 0 <= m_seqNumAck b <= m_seqNum b
}.

Lemma stream_inv_new : stream_inv [] [] new_Buffer.
Proof. by split; constructor || (unfold UINT64_MAX; simpl; lia). Qed.

(** The expected message has not arrived: nothing is held back. *)
Lemma stream_inv_missing (A F : list ServerMessage) (b : Buffer) (x : ServerMessage) :
  stream_inv A F b → x ∈ A → seqnum x ≠ m_seqNum b.
Proof.
  intros [] Hx. rewrite Forall_forall in inv_all0, inv_buffer0.
  destruct (inv_all0 x Hx) as [|Hb]; [lia|]. destruct (inv_buffer0 x Hb). lia.
Qed.

Lemma push_spec (m : ServerMessage) (b : Buffer) :
  m_seqNum (push m b) = m_seqNum b ∧ m_seqNumAck (push m b) = m_seqNumAck b ∧
  (∀ x, x ∈ m_buffer (push m b) → x = m ∨ x ∈ m_buffer b) ∧
  (∀ x, x ∈ m_buffer b → x ∈ m_buffer (push m b)) ∧
  (m ∈ m_buffer (push m b) ∨ seqnum m < m_seqNum b) ∧
  (m_buffer (push m b) = [] → m_buffer b = [] ∧ seqnum m < m_seqNum b).
Proof.
  unfold push, emplace. destruct (Z.leb_spec (m_seqNum b) (seqnum m)); simpl.
  - split_and!; try done; [|by right|left; left].
    intros x. by rewrite elem_of_cons.
  - split_and!; auto.
Qed.

Lemma cleared_forwarded (A F : list ServerMessage) (b b' : Buffer) (m : ServerMessage)
    (out : list ServerMessage) :
  stream_inv A F b → cleared_to (push m b) b' out →
  m_seqNum b' = Z.of_nat (length (F ++ out)) ∧
  map seqnum (F ++ out) = seqZ 0 (m_seqNum b') ∧
  Forall (λ x, x ∈ A ++ [m]) (F ++ out) ∧
  (∀ x, x ∈ m_buffer b' → x ∈ A ++ [m]) ∧
  m_seqNumAck b' = m_seqNumAck b.
Proof.
  intros [HA HF Hlen Hmax HFA Hbuf Hall Hack] [Cack Cseq Cmax Cout Csub Call].
  destruct (push_spec m b) as (Hs & Ha & Hsub & _). rewrite Hs in *. rewrite Ha in *.
  assert (∀ x, x ∈ m_buffer (push m b) → x ∈ A ++ [m]) as HbA.
  { intros x Hx. rewrite elem_of_app, list_elem_of_singleton. rewrite Forall_forall in Hbuf.
    destruct (Hsub x Hx) as [->|Hx']; [by right|]. left. by apply Hbuf. }
  split_and!; auto.
  - rewrite length_app. lia.
  - rewrite map_app, HF, Cout, Cseq. rewrite seqZ_app by lia. f_equal.
  - apply Forall_app. split; [|apply Forall_forall; auto].
    eapply Forall_impl; [exact HFA|]. intros x [Hx _]. apply elem_of_app. by left.
Qed.

Lemma cleared_inv (A F : list ServerMessage) (b b' : Buffer) (m : ServerMessage)
    (out : list ServerMessage) :
  stream_inv A F b → valid_seq m → cleared_to (push m b) b' out →
  Forall (λ y, has_end_of_stream y = false) out →
  Forall (λ y, m_seqNum b' < seqnum y) (m_buffer b') →
  stream_inv (A ++ [m]) (F ++ out) b'.
Proof.
  intros HI Hm HC Hout Hgt. destruct (cleared_forwarded A F b b' m out HI HC)
    as (HL & HM & HFA' & HB & HA').
  destruct HI as [HA HF Hlen Hmax HFA Hbuf Hall Hack].
  destruct HC as [Cack Cseq Cmax Cout Csub Call].
  destruct (push_spec m b) as (Hs & Ha & Hsub & Hsup & Hin & _).
  rewrite Forall_forall in HFA', Hgt. split; try done; try lia.
  - apply Forall_app. split; [done|by apply Forall_singleton].
  - apply Forall_forall. intros x Hx. split; [by apply HFA'|].
    apply elem_of_app in Hx as [Hx|Hx].
    + rewrite Forall_forall in HFA. by apply HFA.
    + rewrite Forall_forall in Hout. by apply Hout.
  - apply Forall_forall. intros x Hx. auto.
  - apply Forall_forall. intros x. rewrite elem_of_app, list_elem_of_singleton.
    intros [Hx| ->].
    + rewrite Forall_forall in Hall. destruct (Hall x Hx) as [Hlt|Hb]; [left; lia|].
      destruct (Call x (Hsup x Hb)); auto.
    + destruct Hin as [Hb|Hlt]; [|left; lia]. destruct (Call m Hb); auto.
Qed.

(** One arrival: what was forwarded stays in sequence; unless the end of the
    stream was reached the invariant holds again and the upper bound that
    [clear] returns is the last number before the first waiting message. *)
Lemma push_clear_spec (A F : list ServerMessage) (b : Buffer) (m : ServerMessage) :
  stream_inv A F b → valid_seq m →
  let '(b', out, (n, eos)) := clear (push m b) in
  m_seqNum b' = Z.of_nat (length (F ++ out)) ∧
  map seqnum (F ++ out) = seqZ 0 (m_seqNum b') ∧
  Forall (λ x, x ∈ A ++ [m]) (F ++ out) ∧
  m_seqNumAck b' = m_seqNumAck b ∧
  if (eos : bool) then
    n = Z.of_nat (length (F ++ out)) - 1 ∧
    ∃ l x, F ++ out = l ++ [x] ∧ has_end_of_stream x = true ∧
           Forall (λ y, has_end_of_stream y = false) l
  else
    stream_inv (A ++ [m]) (F ++ out) b' ∧
    ((m_buffer b' = [] ∧ n = m_seqNum b' - 1 ∧ 0 < m_seqNum b') ∨
     (∃ x, x ∈ A ++ [m] ∧ n = seqnum x - 1 ∧ m_seqNum b' <= n ∧
           Forall (λ y, seqnum y < m_seqNum b' ∨ seqnum x <= seqnum y) (A ++ [m]))).
Proof.
  intros HI Hm. unfold clear.
  destruct (push_spec m b) as (Hs & Ha & Hsub & Hsup & Hin & Hempty).
  assert (Forall valid_seq (m_buffer (push m b))) as Hvb.
  { destruct HI. apply Forall_forall. intros x Hx. rewrite Forall_forall in inv_buffer0, inv_valid0.
    destruct (Hsub x Hx) as [->|Hx']; [done|]. by apply inv_valid0, inv_buffer0. }
  pose proof (clear_loop_spec (S (length (m_buffer (push m b)))) (push m b)) as Hc.
  ospecialize (Hc _ _ _); [lia|destruct HI; rewrite Hs; lia|done|].
  destruct (clear_loop _ (push m b)) as [[b' out] [n eos]]. destruct Hc as [HC Hres].
  destruct (cleared_forwarded A F b b' m out HI HC) as (HL & HM & HFA' & HB & HA').
  split_and!; [done..|]. destruct eos.
  - destruct Hres as (-> & l & x & -> & Hx & Hl). split; [lia|].
    exists (F ++ l), x. rewrite app_assoc. split_and!; [done..|]. apply Forall_app. split; [|done].
    destruct HI. eapply Forall_impl; [exact inv_F0|]. by intros y [_ Hy].
  - destruct Hres as (Hout & Hgt & Hn). pose proof (cleared_inv A F b b' m out HI Hm HC Hout Hgt) as HI'.
    split; [done|]. destruct Hn as [[Hnil ->]|(x & Hx & -> & Hle)]; [left|right].
    + destruct HI' as [_ _ _ Hmx _ _ Hall _]. rewrite Hnil in Hall.
      assert (0 < m_seqNum b'); [|unfold UINT64_MAX in *; rewrite u64_small by lia; done].
      apply Forall_app in Hall as [_ Hall]. apply Forall_cons in Hall as [[Hlt|Hb] _].
      * destruct Hm. lia.
      * by apply elem_of_nil in Hb.
    + exists x. split_and!; [auto|done|rewrite Forall_forall in Hgt; specialize (Hgt x Hx); lia|].
      destruct HI'. eapply Forall_impl; [exact inv_all0|]. simpl.
      intros y [Hy|Hy]; [by left|right]. rewrite Forall_forall in Hle. by apply Hle.
Qed.

(** ** All streams *)

Definition buffer_ok (s : Z) (b : Buffer) : Prop :=
  0 <= m_seqNum b <= UINT64_MAX ∧ Forall (λ x, of_stream s x ∧ valid_seq x) (m_buffer b).
Definition buffers_ok (st : buffers) : Prop :=
  ∀ s, buffer_ok s (default new_Buffer (st !! s)).

Lemma buffers_ok_empty : buffers_ok ∅.
Proof.
  intros s. rewrite lookup_empty. split; simpl; [unfold UINT64_MAX; lia|constructor].
Qed.

Lemma of_stream_id (s : Z) (m : ServerMessage) (stream : message_stream) :
  sm_message_stream m = Some stream → of_stream s m ↔ s = stream_id stream.
Proof.
  intros Hm. unfold of_stream. rewrite Hm. destruct stream as [s' q]. simpl. split.
  - intros [q' [= -> _]]. done.
  - intros ->. eauto.
Qed.

Lemma forwards_app (e1 e2 : list event) : forwards (e1 ++ e2) = forwards e1 ++ forwards e2.
Proof. apply omap_app. Qed.

Lemma forwards_map (l : list ServerMessage) : forwards (map Forward l) = l.
Proof. unfold forwards. induction l as [|x l IH]; csimpl; [done|]. by rewrite IH. Qed.

Lemma forwarded_app (s : Z) (e1 e2 : list event) :
  forwarded s (e1 ++ e2) = forwarded s e1 ++ forwarded s e2.
Proof. unfold forwarded, arrived. by rewrite forwards_app, filter_app. Qed.

Lemma after_clear_spec (s : Z) (b : Buffer) (n : Z) :
  let '(b', sent) := after_clear s b n in
  m_seqNum b' = m_seqNum b ∧ m_buffer b' = m_buffer b ∧ forwards sent = [] ∧
  (m_seqNumAck b' = m_seqNumAck b ∨ m_seqNumAck b' = m_seqNum b) ∧
  (0 <= m_seqNumAck b → m_seqNumAck b + STREAM_MSG_ACK_WINDOW <= UINT64_MAX →
   m_seqNum b' < m_seqNumAck b' + STREAM_MSG_ACK_WINDOW).
Proof.
  unfold after_clear, STREAM_MSG_ACK_WINDOW, UINT64_MAX.
  destruct (m_seqNum b <=? n); destruct (Z.leb_spec (u64 (m_seqNumAck b + 100)) (m_seqNum b));
    simpl; split_and!; auto; intros; try lia; rewrite u64_small in * by lia; lia.
Qed.

(** The parts of [onMessage] on a streamed message. *)
Lemma onMessage_streamed (st : buffers) (m : ServerMessage) (stream : message_stream) :
  sm_message_stream m = Some stream →
  let '(b', out, (n, eos)) := clear (push m (default new_Buffer (st !! stream_id stream))) in
  onMessage st m =
    if (eos : bool) then
      (delete (stream_id stream) st,
       map Forward out ++ [sendMessageAcknowledgement (stream_id stream) n])
    else (<[stream_id stream := (after_clear (stream_id stream) b' n).1]> st,
          map Forward out ++ (after_clear (stream_id stream) b' n).2).
Proof.
  intros Hm. unfold onMessage. rewrite Hm.
  destruct (clear _) as [[b' out] [n eos]]. simpl. destruct eos; [done|].
  by destruct (after_clear _ _ _).
Qed.

Lemma forwards_onMessage (out : list ServerMessage) (s : Z) (b : Buffer) (n : Z) (eos : bool) :
  forwards (if eos then map Forward out ++ [sendMessageAcknowledgement s n]
            else map Forward out ++ (after_clear s b n).2) = out.
Proof.
  pose proof (after_clear_spec s b n) as Hac.
  destruct eos; rewrite forwards_app, forwards_map.
  - apply app_nil_r.
  - destruct (after_clear s b n) as [b' sent]. destruct Hac as (_ & _ & Hs & _).
    simpl. rewrite Hs. apply app_nil_r.
Qed.

Lemma arrived_none (s : Z) (l : list ServerMessage) :
  Forall (λ x, ¬ of_stream s x) l → arrived s l = [].
Proof.
  unfold arrived. induction 1 as [|x l Hx Hl IH]; [done|]. by rewrite filter_cons_False.
Qed.

Lemma arrived_all (s : Z) (l : list ServerMessage) : Forall (of_stream s) l → arrived s l = l.
Proof.
  unfold arrived. induction 1 as [|x l Hx Hl IH]; [done|]. by rewrite filter_cons_True, IH.
Qed.

Lemma push_clear_ok (s : Z) (b : Buffer) (m : ServerMessage) :
  buffer_ok s b → of_stream s m → valid_seq m →
  let '(b', out, (n, eos)) := clear (push m b) in
  buffer_ok s (after_clear s b' n).1 ∧ Forall (of_stream s) out.
Proof.
  intros [Hr Hb] Hof Hm. destruct (push_spec m b) as (Hs & Ha & Hsub & _).
  assert (Forall (λ x, of_stream s x ∧ valid_seq x) (m_buffer (push m b))) as Hpush.
  { apply Forall_forall. intros x Hx. rewrite Forall_forall in Hb.
    destruct (Hsub x Hx) as [->|Hx']; [done|by apply Hb]. }
  pose proof (clear_loop_spec (S (length (m_buffer (push m b)))) (push m b)) as Hc.
  ospecialize (Hc _ _ _); [lia|by rewrite Hs|eapply Forall_impl; [exact Hpush|by intros x []]|].
  unfold clear. destruct (clear_loop _ (push m b)) as [[b' out] [n eos]].
  destruct Hc as [[Cack Cseq Cmax Cout Csub Call] _]. rewrite Forall_forall in Hpush. split.
  - pose proof (after_clear_spec s b' n) as Hac.
    destruct (after_clear s b' n) as [b'' sent]. destruct Hac as (E1 & E2 & _).
    split; simpl; [rewrite E1; lia|]. rewrite E2. apply Forall_forall. auto.
  - apply Forall_forall. intros x Hx. apply Hpush. auto.
Qed.

(** A message leaves the other streams alone and keeps the buffers in order. *)
Lemma onMessage_other (st st' : buffers) (m : ServerMessage) (evs : list event) :
  buffers_ok st → valid_seq m → onMessage st m = (st', evs) →
  buffers_ok st' ∧
  ∀ s, ¬ of_stream s m → st' !! s = st !! s ∧ forwarded s evs = [].
Proof.
  intros Hok Hm Hon. destruct (sm_message_stream m) as [stream|] eqn:Hms.
  2:{ unfold onMessage in Hon. rewrite Hms in Hon. injection Hon as <- <-.
      split; [done|]. intros s Hs. split; [done|]. apply arrived_none. by apply Forall_singleton. }
  pose proof (onMessage_streamed st m stream Hms) as Hst.
  set (sid := stream_id stream) in *.
  assert (of_stream sid m) as Hof by (by apply (of_stream_id _ _ _ Hms)).
  pose proof (push_clear_ok sid _ m (Hok sid) Hof Hm) as Hpc.
  destruct (clear _) as [[b' out] [n eos]]. destruct Hpc as [Hb' Hout]. rewrite Hst in Hon.
  assert (forwards evs = out) as Hfw.
  { rewrite <-(forwards_onMessage out sid b' n eos). by destruct eos; injection Hon as <- <-. }
  assert (∀ s, s ≠ sid → st' !! s = st !! s) as Hother.
  { intros s Hne. destruct eos; injection Hon as <- <-;
      [by rewrite lookup_delete_ne|by rewrite lookup_insert_ne]. }
  split.
  - intros s. destruct (decide (s = sid)) as [->|Hne]; [|rewrite Hother by done; apply Hok].
    destruct eos; injection Hon as <- <-.
    + rewrite lookup_delete_eq. apply (buffers_ok_empty sid).
    + by rewrite lookup_insert_eq.
  - intros s Hns. assert (s ≠ sid) as Hne by (by intros ->). split; [by apply Hother|].
    unfold forwarded. rewrite Hfw. apply arrived_none.
    eapply Forall_impl; [exact Hout|]. intros x [q Hx] [q' Hx']. congruence.
Qed.

(** A message of the stream itself. *)
Lemma onMessage_stream (st st' : buffers) (s : Z) (m : ServerMessage) (evs : list event)
    (A F : list ServerMessage) :
  Forall (of_stream s) A → of_stream s m → valid_seq m →
  stream_inv A F (default new_Buffer (st !! s)) → onMessage st m = (st', evs) →
  Forall (λ x, x ∈ A ++ [m]) (F ++ forwarded s evs) ∧
  map seqnum (F ++ forwarded s evs) = seqZ 0 (Z.of_nat (length (F ++ forwarded s evs))) ∧
  ((∃ b, st' !! s = Some b ∧ stream_inv (A ++ [m]) (F ++ forwarded s evs) b) ∨
   (st' !! s = None ∧
    last evs = Some (sendMessageAcknowledgement s (Z.of_nat (length (F ++ forwarded s evs)) - 1)) ∧
    ∃ l x, F ++ forwarded s evs = l ++ [x] ∧ has_end_of_stream x = true ∧
           Forall (λ y, has_end_of_stream y = false) l)).
Proof.
  intros HA Hof Hm HI Hon. destruct Hof as [q Hms].
  pose proof (onMessage_streamed st m _ Hms) as Hst. simpl in Hst.
  pose proof (push_clear_spec A F _ m HI Hm) as Hpc.
  destruct (clear _) as [[b' out] [n eos]]. rewrite Hst in Hon.
  destruct Hpc as (HL & HM & HFA & Hack & Hres).
  assert (forwards evs = out) as Hfw.
  { rewrite <-(forwards_onMessage out s b' n eos). by destruct eos; injection Hon as <- <-. }
  assert (forwarded s evs = out) as ->.
  { unfold forwarded. rewrite Hfw. apply arrived_all. apply Forall_app in HFA as [_ Ho].
    eapply Forall_impl; [exact Ho|]. intros x. rewrite elem_of_app, list_elem_of_singleton.
    rewrite Forall_forall in HA. intros [Hx| ->]; [by apply HA|by exists q]. }
  split_and!; [done|by rewrite <-HL|]. destruct eos; injection Hon as <- <-.
  - right. destruct Hres as [-> Hlast]. split_and!; [apply lookup_delete_eq| |done].
    by rewrite last_snoc.
  - left. destruct Hres as [HI' _]. eexists. split; [apply lookup_insert_eq|].
    pose proof (after_clear_spec s b' n) as Hac.
    destruct (after_clear s b' n) as [b'' sent]. destruct Hac as (E1 & E2 & _ & E4 & _).
    destruct HI'. simpl. split; rewrite ?E1, ?E2; try done. destruct E4; lia.
Qed.

(** ** Traces *)

Lemma arrivals_snoc (st : buffers) (msgs : list ServerMessage) (m : ServerMessage) :
  arrivals st (msgs ++ [m]) =
    let '(st1, evs1) := arrivals st msgs in
    let '(st2, evs2) := onMessage st1 m in (st2, evs1 ++ evs2).
Proof.
  revert st. induction msgs as [|x msgs IH]; intros st; simpl.
  - destruct (onMessage st m) as [st2 evs2]. by rewrite app_nil_r.
  - destruct (onMessage st x) as [st1 evs1]. rewrite IH.
    destruct (arrivals st1 msgs) as [st2 evs2]. destruct (onMessage st2 m).
    by rewrite app_assoc.
Qed.

Lemma arrived_snoc (s : Z) (msgs : list ServerMessage) (m : ServerMessage) :
  arrived s (msgs ++ [m]) = if decide (of_stream s m) then arrived s msgs ++ [m] else arrived s msgs.
Proof.
  unfold arrived. rewrite filter_app. case_decide.
  - by rewrite filter_cons_True.
  - by rewrite filter_cons_False, app_nil_r.
Qed.

Lemma arrived_snoc_in (s : Z) (msgs : list ServerMessage) (m : ServerMessage) :
  of_stream s m → arrived s (msgs ++ [m]) = arrived s msgs ++ [m].
Proof. intros. by rewrite arrived_snoc, decide_True. Qed.

Lemma arrived_snoc_out (s : Z) (msgs : list ServerMessage) (m : ServerMessage) :
  ¬ of_stream s m → arrived s (msgs ++ [m]) = arrived s msgs.
Proof. intros. by rewrite arrived_snoc, decide_False. Qed.

Lemma arrived_of_stream (s : Z) (msgs : list ServerMessage) : Forall (of_stream s) (arrived s msgs).
Proof. apply Forall_forall. intros x Hx. by apply list_elem_of_filter in Hx as [? _]. Qed.

(** The state of stream [s] after a trace in which its end was not forwarded. *)
Definition open_stream (s : Z) (msgs : list ServerMessage) (st : buffers) (evs : list event) : Prop :=
  buffers_ok st ∧ stream_inv (arrived s msgs) (forwarded s evs) (default new_Buffer (st !! s)).

Lemma open_stream_other (s : Z) (msgs : list ServerMessage) (m : ServerMessage)
    (st st' : buffers) (evs evs' : list event) :
  open_stream s msgs st evs → valid_seq m → ¬ of_stream s m → onMessage st m = (st', evs') →
  open_stream s (msgs ++ [m]) st' (evs ++ evs').
Proof.
  intros [Hok HI] Hm Hns Hon. destruct (onMessage_other _ _ _ _ Hok Hm Hon) as [Hok' Hoth].
  destruct (Hoth s Hns) as [Hl Hf]. split; [done|].
  rewrite arrived_snoc_out by done. by rewrite forwarded_app, Hf, app_nil_r, Hl.
Qed.

Lemma arrivals_open (s : Z) (msgs : list ServerMessage) :
  Forall valid_seq msgs → Forall (λ x, has_end_of_stream x = false) (arrived s msgs) →
  let '(st, evs) := arrivals ∅ msgs in open_stream s msgs st evs.
Proof.
  induction msgs as [|m msgs IH] using rev_ind; intros Hvalid Heos.
  { split; [apply buffers_ok_empty|]. rewrite lookup_empty. apply stream_inv_new. }
  apply Forall_app in Hvalid as [Hvalid Hm]. apply Forall_inv in Hm.
  rewrite arrivals_snoc. rewrite arrived_snoc in Heos.
  ospecialize (IH Hvalid _).
  { case_decide; [by apply Forall_app in Heos as []|done]. }
  destruct (arrivals ∅ msgs) as [st evs]. destruct (onMessage st m) as [st' evs'] eqn:Hon.
  destruct (decide (of_stream s m)) as [Hs|Hns]; [|exact (open_stream_other _ _ _ _ _ _ _ IH Hm Hns Hon)].
  destruct IH as [Hok HI].
  split; [by apply (onMessage_other _ _ _ _ Hok Hm Hon)|].
  destruct (onMessage_stream st st' s m evs' _ _ (arrived_of_stream s msgs) Hs Hm HI Hon)
    as (HFA & _ & [(b & Hb & HI')|(_ & _ & l & x & Hl & Hx & _)]).
  - rewrite arrived_snoc_in by done. by rewrite forwarded_app, Hb.
  - exfalso. rewrite Hl in HFA. apply Forall_app in HFA as [_ HFA].
    apply Forall_inv in HFA. rewrite Forall_forall in Heos. specialize (Heos x HFA). congruence.
Qed.

(** A life of a stream that its end closed: the arrivals [A], of which the last
    one filled the last gap, and what was forwarded, with the end as its last
    message. *)
Record ended_life (A F : list ServerMessage) : Prop := {
  ended_seq : map seqnum F = seqZ 0 (Z.of_nat (length F));
  ended_sub : ∀ x, x ∈ F → x ∈ A;
  ended_eos : ∃ l x, F = l ++ [x] ∧ has_end_of_stream x = true ∧
                     Forall (λ y, has_end_of_stream y = false) l;
  ended_now : ∃ A0 m, A = A0 ++ [m] ∧ m ∈ F ∧ ∀ x, x ∈ A0 → seqnum x ≠ seqnum m
}.

(** The life of a stream that is still open: what was forwarded has no end and
    the next message has not arrived. *)
Record open_life (A F : list ServerMessage) : Prop := {
  open_seq : map seqnum F = seqZ 0 (Z.of_nat (length F));
  open_sub : ∀ x, x ∈ F → x ∈ A;
  open_eos : Forall (λ y, has_end_of_stream y = false) F;
  open_missing : ∀ x, x ∈ A → seqnum x ≠ Z.of_nat (length F)
}.

Inductive ended_lives : list ServerMessage → list ServerMessage → Prop :=
| no_life : ended_lives [] []
| next_life A F A' F' : ended_lives A F → ended_life A' F' → ended_lives (A ++ A') (F ++ F').

(** Of the arrivals [A] of a stream, [F] is forwarded: life after life. *)
Definition sequenced (A F : list ServerMessage) : Prop :=
  ∃ Ae Fe A' F', A = Ae ++ A' ∧ F = Fe ++ F' ∧ ended_lives Ae Fe ∧ open_life A' F'.

(** The state of stream [s] after the lives [Ae], [Fe] and an open one. *)
Definition lives_stream (s : Z) (msgs : list ServerMessage) (st : buffers) (evs : list event) : Prop :=
  buffers_ok st ∧
  ∃ Ae Fe A F, arrived s msgs = Ae ++ A ∧ forwarded s evs = Fe ++ F ∧ ended_lives Ae Fe ∧
    Forall (of_stream s) A ∧ stream_inv A F (default new_Buffer (st !! s)).

(** The arrival that lets the end be forwarded is the one that was missing. *)
Lemma ended_by (A F out : list ServerMessage) (b : Buffer) (m : ServerMessage) :
  stream_inv A F b → Forall (λ x, x ∈ A ++ [m]) (F ++ out) →
  map seqnum (F ++ out) = seqZ 0 (Z.of_nat (length (F ++ out))) →
  (∃ l x, F ++ out = l ++ [x] ∧ has_end_of_stream x = true ∧
          Forall (λ y, has_end_of_stream y = false) l) →
  ended_life (A ++ [m]) (F ++ out).
Proof.
  intros HI Hsub Hseq Heos. rewrite Forall_forall in Hsub.
  pose proof (λ x, stream_inv_missing _ _ _ x HI) as Hmiss. split; [done..|].
  exists A, m. split; [done|]. destruct HI as [_ _ Hlen _ HF _ _ _].
  destruct out as [|y out].
  { destruct Heos as (l & x & Heq & Hx & _). rewrite app_nil_r in Heq. subst F.
    apply Forall_app in HF as [_ HF]. apply Forall_inv in HF as [_ HF]. congruence. }
  assert (seqnum y = m_seqNum b) as Hy.
  { assert (map seqnum (F ++ y :: out) !! length F = Some (seqnum y)) as Hl.
    { rewrite list_lookup_fmap, list_lookup_middle by done. done. }
    rewrite Hseq in Hl. apply lookup_seqZ in Hl as [Hl _]. lia. }
  assert (y ∈ F ++ y :: out) as HyF by (apply elem_of_app; right; left).
  specialize (Hsub y HyF). apply elem_of_app in Hsub as [Hin|Hin]; [by destruct (Hmiss y Hin)|].
  apply list_elem_of_singleton in Hin as <-. split; [done|]. intros x Hx. rewrite Hy. auto.
Qed.

Lemma stream_inv_open (A F : list ServerMessage) (b : Buffer) : stream_inv A F b → open_life A F.
Proof.
  intros HI. pose proof (λ x, stream_inv_missing _ _ _ x HI) as Hmiss. destruct HI.
  rewrite inv_len0 in *. rewrite Forall_forall in inv_F0. split; [done| | |done].
  - intros x Hx. by apply inv_F0.
  - apply Forall_forall. intros x Hx. by apply inv_F0.
Qed.

Lemma lives_step (s : Z) (msgs : list ServerMessage) (m : ServerMessage) (st st' : buffers)
    (evs evs' : list event) :
  of_stream s m → valid_seq m → lives_stream s msgs st evs → onMessage st m = (st', evs') →
  lives_stream s (msgs ++ [m]) st' (evs ++ evs').
Proof.
  intros Hs Hm (Hok & Ae & Fe & A & F & HA & HF & Hlives & Hof & HI) Hon.
  split; [by apply (onMessage_other _ _ _ _ Hok Hm Hon)|].
  rewrite arrived_snoc_in, forwarded_app, HA, HF, <-!app_assoc by done.
  destruct (onMessage_stream st st' s m evs' A F Hof Hs Hm HI Hon)
    as (HFA & Hseq & [(b & Hb & HI')|(Hnone & _ & Heos)]).
  - exists Ae, Fe, (A ++ [m]), (F ++ forwarded s evs'). rewrite Hb.
    split_and!; [done..|by apply Forall_app; split; [|by apply Forall_singleton]|done].
  - exists (Ae ++ (A ++ [m])), (Fe ++ (F ++ forwarded s evs')), [], [].
    rewrite !app_nil_r, Hnone. split_and!; [done..| |constructor|apply stream_inv_new].
    apply next_life; [done|]. by eapply ended_by.
Qed.

Lemma arrivals_lives (s : Z) (msgs : list ServerMessage) :
  Forall valid_seq msgs → let '(st, evs) := arrivals ∅ msgs in lives_stream s msgs st evs.
Proof.
  induction msgs as [|m msgs IH] using rev_ind; intros Hvalid.
  { split; [apply buffers_ok_empty|]. exists [], [], [], []. rewrite lookup_empty.
    split_and!; [done|done|constructor|constructor|apply stream_inv_new]. }
  apply Forall_app in Hvalid as [Hvalid Hm]. apply Forall_inv in Hm.
  rewrite arrivals_snoc. specialize (IH Hvalid).
  destruct (arrivals ∅ msgs) as [st evs]. destruct (onMessage st m) as [st' evs'] eqn:Hon.
  destruct (decide (of_stream s m)) as [Hs|Hns]; [by eapply lives_step|].
  destruct IH as (Hok & Ae & Fe & A & F & HA & HF & Hrest).
  destruct (onMessage_other _ _ _ _ Hok Hm Hon) as [Hok' Hoth]. destruct (Hoth s Hns) as [Hl Hf].
  split; [done|]. exists Ae, Fe, A, F.
  by rewrite arrived_snoc_out, forwarded_app, Hf, app_nil_r, Hl by done.
Qed.

Lemma arrivals_sequenced (s : Z) (msgs : list ServerMessage) :
  Forall valid_seq msgs → sequenced (arrived s msgs) (forwarded s (arrivals ∅ msgs).2).
Proof.
  intros Hvalid. pose proof (arrivals_lives s msgs Hvalid) as Hl.
  destruct (arrivals ∅ msgs) as [st evs]. destruct Hl as (_ & Ae & Fe & A & F & HA & HF & Hlives & _ & HI).
  exists Ae, Fe, A, F. split_and!; [done..|]. by eapply stream_inv_open.
Qed.

(** C3: whatever the arrival order, with repeated messages and with other
    streams and other messages in between, the sequencer forwards the messages
    0, 1, ..., n-1 of a stream in this order and once each, and holds nothing
    back: message n has not arrived.  This holds of every life of the stream.
    The arrival that lets the end of the stream be forwarded closes its life;
    what arrives later, a repeated message too, belongs to the next one, which
    begins again at 0. *)
Theorem sequencer_in_order (s : Z) (msgs : list ServerMessage) :
  Forall valid_seq msgs → sequenced (arrived s msgs) (forwarded s (arrivals ∅ msgs).2).
Proof. apply arrivals_sequenced. Qed.

(** A complete stream: message [i] has sequence number [i], only the last one
    ends the stream. *)
Record complete_stream (s : Z) (l : list ServerMessage) : Prop := {
  complete_ne : l ≠ [];
  complete_of : Forall (of_stream s) l;
  complete_seq : map seqnum l = seqZ 0 (Z.of_nat (length l));
  complete_eos : ∀ i x, l !! i = Some x → has_end_of_stream x = bool_decide (S i = length l)
}.

Lemma complete_lookup (s : Z) (l : list ServerMessage) (x : ServerMessage) :
  complete_stream s l → x ∈ l → l !! Z.to_nat (seqnum x) = Some x ∧ 0 <= seqnum x < Z.of_nat (length l).
Proof.
  intros [_ _ Hseq _] Hx. apply list_elem_of_lookup in Hx as [i Hi].
  assert (seqnum x = Z.of_nat i) as ->.
  { assert (map seqnum l !! i = Some (seqnum x)) as Hm by (by rewrite list_lookup_fmap, Hi).
    rewrite Hseq in Hm. apply lookup_seqZ in Hm. lia. }
  apply lookup_lt_Some in Hi as Hlt. rewrite Nat2Z.id. split; [done|lia].
Qed.

Lemma complete_determined (s : Z) (l F : list ServerMessage) :
  complete_stream s l → Forall (λ x, x ∈ l) F →
  map seqnum F = seqZ 0 (Z.of_nat (length F)) → F = take (length F) l.
Proof.
  intros Hl HF Hseq. apply list_eq. intros i.
  destruct (F !! i) as [x|] eqn:Hi.
  - assert (x ∈ l) as Hx by (rewrite Forall_forall in HF; eapply HF, list_elem_of_lookup_2, Hi).
    destruct (complete_lookup s l x Hl Hx) as [Hlx _].
    assert (map seqnum F !! i = Some (seqnum x)) as Hm by (by rewrite list_lookup_fmap, Hi).
    rewrite Hseq in Hm. apply lookup_seqZ in Hm as [Hm Hlt].
    rewrite lookup_take_lt by lia. rewrite <-Hlx. f_equal. lia.
  - symmetry. apply lookup_ge_None in Hi. apply lookup_ge_None. rewrite length_take. lia.
Qed.

(** When the whole stream has arrived the end has been forwarded. *)
Lemma complete_not_open (s : Z) (l A F : list ServerMessage) (b : Buffer) :
  complete_stream s l → A ≡ₚ l → ¬ stream_inv A F b.
Proof.
  intros Hl Hperm HI. pose proof (λ x, stream_inv_missing _ _ _ x HI) as Hmiss.
  destruct HI as [_ Hseq Hlen _ HF _ _ _].
  assert (F = take (length F) l) as HFl.
  { apply (complete_determined s); [done| |by rewrite <-Hlen].
    eapply Forall_impl; [exact HF|]. intros x [Hx _]. by rewrite <-Hperm. }
  destruct (decide (length F < length l)%nat) as [Hlt|Hge].
  - destruct (lookup_lt_is_Some_2 l (length F) Hlt) as [x Hx].
    apply (Hmiss x); [rewrite Hperm; by eapply list_elem_of_lookup_2|].
    assert (map seqnum l !! length F = Some (seqnum x)) as Hm by (by rewrite list_lookup_fmap, Hx).
    destruct Hl as [_ _ Hls _]. rewrite Hls in Hm. apply lookup_seqZ in Hm. lia.
  - rewrite take_ge in HFl by lia. subst F.
    destruct Hl as [Hne _ _ Heos].
    destruct (lookup_lt_is_Some_2 l (length l - 1)) as [x Hx].
    { destruct l; [done|simpl; lia]. }
    specialize (Heos _ _ Hx). rewrite bool_decide_eq_true_2 in Heos by (destruct l; [done|simpl; lia]).
    eapply Forall_lookup_1 in HF as [_ HF]; [|exact Hx]. congruence.
Qed.

Lemma closed_stream_other (s : Z) (m : ServerMessage) (st st' : buffers) (evs' : list event) :
  buffers_ok st → valid_seq m → ¬ of_stream s m → onMessage st m = (st', evs') →
  st !! s = None → buffers_ok st' ∧ st' !! s = None ∧ forwarded s evs' = [].
Proof.
  intros Hok Hm Hns Hon Hnone. destruct (onMessage_other _ _ _ _ Hok Hm Hon) as [Hok' Hoth].
  destruct (Hoth s Hns) as [Hl Hf]. split_and!; [done|congruence|done].
Qed.

(** The outcome of a trace in which the messages of the complete stream [l]
    arrive once each, in any order. *)
Definition delivered (s : Z) (l msgs : list ServerMessage) (st : buffers) (evs : list event) : Prop :=
  if decide (length (arrived s msgs) < length l)%nat then open_stream s msgs st evs
  else buffers_ok st ∧ st !! s = None ∧ forwarded s evs = l ∧
       sendMessageAcknowledgement s (Z.of_nat (length l) - 1) ∈ evs.

Lemma delivered_last (s : Z) (l msgs : list ServerMessage) (m : ServerMessage)
    (st st' : buffers) (evs evs' : list event) :
  complete_stream s l → NoDup (arrived s msgs ++ [m]) →
  Forall (λ x, x ∈ l) (arrived s msgs ++ [m]) → of_stream s m → valid_seq m →
  open_stream s msgs st evs → onMessage st m = (st', evs') →
  delivered s l (msgs ++ [m]) st' (evs ++ evs').
Proof.
  intros Hl Hnd Hsub Hs Hm [Hok HI] Hon. unfold delivered.
  destruct (onMessage_other _ _ _ _ Hok Hm Hon) as [Hok' _].
  destruct (onMessage_stream st st' s m evs' _ _ (arrived_of_stream s msgs) Hs Hm HI Hon)
    as (HFA & HFs & Hcase).
  rewrite <-forwarded_app in *. rewrite arrived_snoc_in by done.
  assert (Forall (λ x, x ∈ l) (forwarded s (evs ++ evs'))) as HFl.
  { rewrite Forall_forall in HFA, Hsub. apply Forall_forall. auto. }
  pose proof (complete_determined s l _ Hl HFl HFs) as HF.
  destruct Hcase as [(b & Hb & HI')|(Hnone & Hlast & fs & x & Heq & Hx & _)].
  - case_decide as Hlen.
    + split; [done|]. rewrite arrived_snoc_in by done. by rewrite Hb.
    + exfalso. eapply (complete_not_open s l); [done| |exact HI'].
      apply submseteq_length_Permutation; [|lia].
      apply NoDup_submseteq; [done|]. rewrite Forall_forall in Hsub. auto.
  - assert (length (forwarded s (evs ++ evs')) = length l) as Hlen.
    { assert (forwarded s (evs ++ evs') !! length fs = Some x) as Hfx.
      { rewrite Heq. by apply list_lookup_middle. }
      rewrite HF in Hfx. apply lookup_take_Some in Hfx as [Hfx _].
      destruct Hl as [_ _ _ Heos]. specialize (Heos _ _ Hfx). rewrite Hx in Heos.
      symmetry in Heos. apply bool_decide_eq_true_1 in Heos.
      rewrite <-Heos, Heq, length_app. simpl. lia. }
    rewrite decide_False.
    + rewrite Hlen in *. rewrite take_ge in HF by lia. split_and!; [done..|].
      apply elem_of_app. right. apply last_Some in Hlast as [evs0 ->].
      apply elem_of_app. right. by apply list_elem_of_singleton.
    + rewrite <-Hlen. apply Nat.le_ngt. apply submseteq_length. apply NoDup_submseteq.
      * apply (NoDup_fmap_1 seqnum). change (seqnum <$> _) with (map seqnum (forwarded s (evs ++ evs'))).
        rewrite HFs. apply NoDup_seqZ.
      * rewrite Forall_forall in HFA. auto.
Qed.

Lemma arrivals_delivered (s : Z) (l msgs : list ServerMessage) :
  complete_stream s l → Forall valid_seq msgs → NoDup (arrived s msgs) →
  Forall (λ x, x ∈ l) (arrived s msgs) →
  let '(st, evs) := arrivals ∅ msgs in delivered s l msgs st evs.
Proof.
  intros Hl. induction msgs as [|m msgs IH] using rev_ind; intros Hvalid Hnd Hsub.
  { unfold delivered. simpl. rewrite decide_True; [|destruct Hl, l; [done|simpl; lia]].
    split; [apply buffers_ok_empty|]. rewrite lookup_empty. apply stream_inv_new. }
  apply Forall_app in Hvalid as [Hvalid Hm]. apply Forall_inv in Hm.
  rewrite arrivals_snoc. rewrite arrived_snoc in Hnd, Hsub.
  destruct (decide (of_stream s m)) as [Hs|Hns].
  - ospecialize (IH Hvalid _ _).
    { by apply NoDup_app in Hnd as (? & _ & _). } { by apply Forall_app in Hsub as []. }
    destruct (arrivals ∅ msgs) as [st evs]. destruct (onMessage st m) as [st' evs'] eqn:Hon.
    unfold delivered in IH. rewrite decide_True in IH; [by eapply delivered_last|].
    assert (length (arrived s msgs ++ [m]) ≤ length l)%nat as Hle.
    { apply submseteq_length, NoDup_submseteq; [done|]. rewrite Forall_forall in Hsub. auto. }
    rewrite length_app in Hle. simpl in Hle. lia.
  - specialize (IH Hvalid Hnd Hsub). destruct (arrivals ∅ msgs) as [st evs].
    destruct (onMessage st m) as [st' evs'] eqn:Hon. unfold delivered in *.
    rewrite arrived_snoc_out by done. case_decide; [by eapply open_stream_other|].
    destruct IH as (Hok & Hnone & Hf & Hack).
    destruct (closed_stream_other _ _ _ _ _ Hok Hm Hns Hon Hnone) as (? & ? & Hf').
    rewrite forwarded_app, Hf', app_nil_r. split_and!; [done..|]. apply elem_of_app. by left.
Qed.

(** C6: a stream whose messages arrive once each, in any order and between
    any other messages, is forwarded completely and in order; its last
    sequence number is acknowledged and its buffer is gone. *)
Theorem sequencer_complete (s : Z) (l msgs : list ServerMessage) :
  complete_stream s l → Forall valid_seq msgs → arrived s msgs ≡ₚ l →
  let '(st, evs) := arrivals ∅ msgs in
  forwarded s evs = l ∧ st !! s = None ∧
  sendMessageAcknowledgement s (Z.of_nat (length l) - 1) ∈ evs.
Proof.
  intros Hl Hvalid Hperm. pose proof (arrivals_delivered s l msgs Hl Hvalid) as Hd.
  destruct (arrivals ∅ msgs) as [st evs]. ospecialize (Hd _ _).
  - rewrite Hperm. apply (NoDup_fmap_1 seqnum). change (seqnum <$> l) with (map seqnum l).
    destruct Hl as [_ _ -> _]. apply NoDup_seqZ.
  - rewrite Hperm. by apply Forall_forall.
  - unfold delivered in Hd. rewrite decide_False in Hd by (rewrite Hperm; lia).
    by destruct Hd as (_ & ? & ? & ?).
Qed.

(** ** Requests and acknowledgements *)

Lemma after_clear_request (s : Z) (b : Buffer) (n lo hi : Z) (out : list ServerMessage) :
  sendMessageRequest s lo hi ∈ map Forward out ++ (after_clear s b n).2 ↔
  lo = m_seqNum b ∧ hi = n ∧ m_seqNum b <= n.
Proof.
  rewrite elem_of_app. split.
  - intros [Hin|Hin]; [by apply list_elem_of_fmap in Hin as (x & Hx & _)|].
    revert Hin. unfold after_clear. destruct (Z.leb_spec (m_seqNum b) n); case_ifs; simpl;
      rewrite ?elem_of_cons, ?elem_of_nil; intros Hin; destruct_or?; by simplify_eq.
  - intros (-> & -> & Hle). right. unfold after_clear.
    rewrite (proj2 (Z.leb_le (m_seqNum b) n)) by lia. case_ifs; left.
Qed.

Lemma after_clear_ack (s : Z) (b : Buffer) (n q : Z) (out : list ServerMessage) :
  sendMessageAcknowledgement s q ∈ map Forward out ++ (after_clear s b n).2 →
  q = u64 (m_seqNum b - 1) ∧ u64 (m_seqNumAck b + STREAM_MSG_ACK_WINDOW) <= m_seqNum b.
Proof.
  rewrite elem_of_app. intros [Hin|Hin]; [by apply list_elem_of_fmap in Hin as (x & Hx & _)|].
  revert Hin. unfold after_clear.
  destruct (Z.leb_spec (u64 (m_seqNumAck b + STREAM_MSG_ACK_WINDOW)) (m_seqNum b));
    case_ifs; simpl; rewrite ?elem_of_cons, ?elem_of_nil; intros Hin; destruct_or?; by simplify_eq.
Qed.

(** One arrival on a stream without end: its parts. *)
Lemma open_step (s : Z) (msgs : list ServerMessage) (m : ServerMessage)
    (st st' : buffers) (evs evs' : list event) :
  Forall valid_seq (msgs ++ [m]) →
  Forall (λ x, has_end_of_stream x = false) (arrived s (msgs ++ [m])) → of_stream s m →
  arrivals ∅ msgs = (st, evs) → onMessage st m = (st', evs') →
  ∃ b out hi, evs' = map Forward out ++ (after_clear s b hi).2 ∧
    st' !! s = Some (after_clear s b hi).1 ∧
    m_seqNum b = Z.of_nat (length (forwarded s (evs ++ evs'))) ∧
    0 <= m_seqNumAck b <= m_seqNum b ∧
    Forall (λ x, seqnum x < m_seqNum b ∨ m_seqNum b < seqnum x) (arrived s (msgs ++ [m])) ∧
    ((hi = m_seqNum b - 1 ∧ 0 < m_seqNum b ∧
      Forall (λ x, seqnum x < m_seqNum b) (arrived s (msgs ++ [m]))) ∨
     (∃ x, x ∈ arrived s (msgs ++ [m]) ∧ hi = seqnum x - 1 ∧ m_seqNum b <= hi ∧
           Forall (λ y, seqnum y < m_seqNum b ∨ seqnum x <= seqnum y) (arrived s (msgs ++ [m])))).
Proof.
  intros Hvalid Heos Hs Harr Hon. pose proof (arrivals_open s (msgs ++ [m]) Hvalid Heos) as Hopen.
  rewrite arrivals_snoc, Harr, Hon in Hopen. destruct Hopen as [_ HI2].
  apply Forall_app in Hvalid as [Hvalid Hm]. apply Forall_inv in Hm.
  rewrite arrived_snoc_in in * by done. apply Forall_app in Heos as [Heos Hme].
  pose proof (arrivals_open s msgs Hvalid Heos) as Hopen. rewrite Harr in Hopen.
  destruct Hopen as [Hok HI].
  destruct (onMessage_stream st st' s m evs' _ _ (arrived_of_stream s msgs) Hs Hm HI Hon)
    as (HFA & _ & Hcase).
  destruct Hs as [q Hms]. pose proof (onMessage_streamed st m _ Hms) as Hst. simpl in Hst.
  pose proof (push_clear_spec _ _ _ m HI Hm) as Hpc.
  destruct (clear _) as [[b' out] [hi eos]]. rewrite Hst in Hon.
  destruct Hpc as (HL & _ & _ & Hack & Hres). destruct eos; injection Hon as <- <-.
  { exfalso. destruct Hcase as [(b & Hb & _)|(_ & _ & l & x & Hl & Hx & _)];
      [by rewrite lookup_delete_eq in Hb|].
    destruct HI2 as [_ _ _ _ HF _ _ _]. rewrite forwarded_app, Hl in HF.
    apply Forall_app in HF as [_ HF]. apply Forall_inv in HF as [_ HF]. congruence. }
  destruct Hres as [HIb Hhi]. pose proof (after_clear_spec s b' hi) as Hac.
  exists b', out, hi. rewrite lookup_insert_eq in *. simpl in HI2.
  assert (m_seqNum (after_clear s b' hi).1 = m_seqNum b') as Hseq.
  { destruct (after_clear s b' hi). by destruct Hac. }
  pose proof (λ x, stream_inv_missing _ _ _ x HIb) as Hmiss.
  split_and!; try done; try (destruct HIb; lia).
  - rewrite <-Hseq. by destruct HI2.
  - apply Forall_forall. intros x Hx. specialize (Hmiss x Hx). lia.
  - destruct Hhi as [(Hnil & -> & Hpos)|Hx]; [left|by right]. split_and!; [done..|].
    destruct HIb. rewrite Hnil in inv_all0. eapply Forall_impl; [exact inv_all0|].
    intros x [Hx|Hx]; [done|by apply elem_of_nil in Hx].
Qed.

(** After every arrival on an open stream a request names exactly the
    gap before the first waiting message: it starts at the expected number,
    nothing of the range has arrived and the message after it has; there is a
    request whenever a message waits, so never one whose bounds wrapped; an
    acknowledgement names the last forwarded message, and fewer than a window
    of forwarded messages stay unacknowledged. *)
Lemma sequencer_requests_gap (s : Z) (msgs : list ServerMessage) (m : ServerMessage)
    (st st' : buffers) (evs evs' : list event) :
  Forall valid_seq (msgs ++ [m]) →
  Forall (λ x, has_end_of_stream x = false) (arrived s (msgs ++ [m])) → of_stream s m →
  arrivals ∅ msgs = (st, evs) → onMessage st m = (st', evs') →
  let A := arrived s (msgs ++ [m]) in
  let n := Z.of_nat (length (forwarded s (evs ++ evs'))) in
  n + STREAM_MSG_ACK_WINDOW <= UINT64_MAX →
  (∀ lo hi, sendMessageRequest s lo hi ∈ evs' →
     lo = n ∧ lo <= hi ∧ (∀ x, x ∈ A → ¬ lo <= seqnum x <= hi) ∧
     ∃ x, x ∈ A ∧ seqnum x = hi + 1) ∧
  (∀ x, x ∈ A → n < seqnum x → ∃ hi, sendMessageRequest s n hi ∈ evs') ∧
  (∀ q, sendMessageAcknowledgement s q ∈ evs' → q = n - 1) ∧
  (∃ b, st' !! s = Some b ∧ m_seqNum b = n ∧ m_seqNum b < m_seqNumAck b + STREAM_MSG_ACK_WINDOW).
Proof.
  intros Hvalid Heos Hs Harr Hon A n Hwin.
  destruct (open_step s msgs m st st' evs evs' Hvalid Heos Hs Harr Hon)
    as (b & out & hi0 & Hevs & Hst' & Hn & Hack & Hmiss & Hhi).
  fold n A in Hn, Hmiss, Hhi. rewrite Hevs, Hst'. unfold UINT64_MAX, STREAM_MSG_ACK_WINDOW in *.
  rewrite Forall_forall in Hmiss. split_and!.
  - intros lo hi Hreq. apply after_clear_request in Hreq as (-> & -> & Hle).
    destruct Hhi as [(-> & _)|(x & Hx & -> & Hle' & Hall)]; [lia|]. split_and!; [lia..| |].
    + intros y Hy. rewrite Forall_forall in Hall. specialize (Hall y Hy). lia.
    + exists x. split; [done|lia].
  - intros x Hx Hlt. exists hi0. apply after_clear_request.
    destruct Hhi as [(_ & _ & Hall)|(y & _ & -> & Hle & _)]; [|lia].
    rewrite Forall_forall in Hall. specialize (Hall x Hx). lia.
  - intros q Hq. apply after_clear_ack in Hq as [-> Hq]. unfold STREAM_MSG_ACK_WINDOW in *.
    rewrite u64_small in Hq by lia. rewrite u64_small; lia.
  - pose proof (after_clear_spec s b hi0) as Hac. unfold STREAM_MSG_ACK_WINDOW, UINT64_MAX in Hac.
    destruct (after_clear s b hi0) as [b'' sent]. destruct Hac as (E1 & _ & _ & _ & E5).
    exists b''. simpl in *. split_and!; [done|lia|apply E5; lia].
Qed.

(** ** Witnesses *)

Definition sample_msg (s q : Z) (body : server_body) : ServerMessage :=
  mk_ServerMessage EmptyString (Some (mk_message_stream s q)) body.

Definition sample_stream : list ServerMessage :=
  [sample_msg 7 0 (server_payload []); sample_msg 7 1 (server_payload []);
   sample_msg 7 2 server_end_of_stream].

(** The same messages as they arrive, with one of another stream between. *)
Definition sample_arrivals : list ServerMessage :=
  [sample_msg 7 2 server_end_of_stream; sample_msg 8 0 (server_payload []);
   sample_msg 7 0 (server_payload []); sample_msg 7 1 (server_payload [])].

Lemma sample_valid (msgs : list ServerMessage) :
  forallb (λ x, (0 <=? seqnum x) && (seqnum x <? UINT64_MAX)) msgs = true → Forall valid_seq msgs.
Proof.
  intros Hall. apply Forall_forall. intros x Hx. rewrite forallb_forall in Hall.
  apply list_elem_of_In in Hx. specialize (Hall x Hx). unfold valid_seq. lia.
Qed.

Lemma sequencer_complete_witness :
  let '(st, evs) := arrivals ∅ sample_arrivals in
  forwarded 7 evs = sample_stream ∧ st !! 7 = None ∧ sendMessageAcknowledgement 7 2 ∈ evs.
Proof.
  apply (sequencer_complete 7 sample_stream sample_arrivals).
  - split; [done| |reflexivity|].
    + repeat constructor; eexists; reflexivity.
    + intros [|[|[|i]]] x Hx; simplify_eq/=; reflexivity.
  - apply sample_valid. reflexivity.
  - change (sample_msg 7 2 server_end_of_stream :: take 2 sample_stream ≡ₚ sample_stream).
    apply (Permutation_cons_append (take 2 sample_stream)).
Defined.

(** The end arrives early; message 0 comes again after it and once more. *)
Definition sample_repeats : list ServerMessage :=
  [sample_msg 7 1 server_end_of_stream; sample_msg 7 0 (server_payload []);
   sample_msg 7 0 (server_payload []); sample_msg 7 0 (server_payload []);
   sample_msg 7 3 (server_payload [])].

Lemma sequencer_in_order_witness :
  map seqnum (forwarded 7 (arrivals ∅ sample_repeats).2) = [0; 1; 0] ∧
  sequenced (arrived 7 sample_repeats) (forwarded 7 (arrivals ∅ sample_repeats).2).
Proof.
  split; [reflexivity|].
  apply (sequencer_in_order 7 sample_repeats). apply sample_valid. reflexivity.
Defined.
