(* ===== verification/Streams.v ===== *)
(** * Outgoing streams (src/src/communication/streaming/)

    [TypedStream] numbers outgoing messages, keeps copies until they are
    acknowledged and resends what the server asks for; [StreamManager] hands
    out stream ids and routes requests, acknowledgements and resets.  The
    buffer's mutex is modelled, because [reset] takes it twice. *)

From stdpp Require Import base numbers list gmap strings.
From Stdlib Require Import ZArith Lia.
From S2P Require Import Prelude PriorityQueue Protocol.
Local Open Scope Z_scope.

Definition client_seq (m : ClientMessage) : Z := sequence_number (client_stream m).

Definition StreamLess (a b : ClientMessage) : bool := client_seq a <? client_seq b.

(** [mutable_message_stream()->set_stream_id], [set_sequence_number]. *)
Definition set_stream (streamId seqNum : Z) (m : ClientMessage) : ClientMessage :=
  mk_ClientMessage (cm_message_id m) (Some (mk_message_stream streamId seqNum)) (cm_body m).
Definition set_sequence_number (seqNum : Z) (m : ClientMessage) : ClientMessage :=
  set_stream (stream_id (client_stream m)) seqNum m.

(** ** The shared mutex of a stream, as the calling thread holds it *)
Inductive mutex := Unlocked | SharedLock (n : nat) | ExclusiveLock.

(** [std::shared_lock] and [std::lock_guard]; [None] is a thread that waits
    for a lock that it holds itself. *)
Definition lock_shared (mx : mutex) : option mutex :=
  match mx with
  | Unlocked => Some (SharedLock 1)
  | SharedLock n => Some (SharedLock (S n))
  | ExclusiveLock => None
  end.
Definition lock_exclusive (mx : mutex) : option mutex :=
  match mx with Unlocked => Some ExclusiveLock | _ => None end.

(** ** TypedStream *)
Record TypedStream := mk_TypedStream {
  m_streamId : Z;
  m_sequenceId : Z;
  ts_buffer : list ClientMessage
}.

Definition new_TypedStream (streamId : Z) : TypedStream := mk_TypedStream streamId 0 [].

Definition set_buffer (q : list ClientMessage) (ts : TypedStream) : TypedStream :=
  mk_TypedStream (m_streamId ts) (m_sequenceId ts) q.

(** The copy goes to the buffer under the shared lock, the message to the
    communicator. *)
Definition saveAndPass (mx : mutex) (msg : ClientMessage) (ts : TypedStream)
  : option (TypedStream * list ClientMessage) :=
  match lock_shared mx with
  | Some _ => Some (set_buffer (emplace msg (ts_buffer ts)) ts, [msg])
  | None => None
  end.

Definition send (msg : ClientMessage) (ts : TypedStream)
  : option (TypedStream * list ClientMessage) :=
  let msg := set_stream (m_streamId ts) (m_sequenceId ts) msg in
  saveAndPass Unlocked msg
    (mk_TypedStream (m_streamId ts) (u64 (m_sequenceId ts + 1)) (ts_buffer ts)).

Definition close (ts : TypedStream) : option (TypedStream * list ClientMessage) :=
  send (make_client client_end_of_stream) ts.

(** The first loop of [handleMessageRequest]: pop while the number is at most
    [upper].  Every iteration pops a message: the length of the buffer is
    enough fuel. *)
Fixpoint pop_upto (fuel : nat) (upper : Z) (q : list ClientMessage)
  : list ClientMessage * list ClientMessage :=
  match fuel with
  | O => (q, [])
  | S fuel' =>
      match try_pop StreamLess q with
      | None => (q, [])
      | Some (it, rest) =>
          if client_seq it <=? upper then
            let '(q', processed) := pop_upto fuel' upper rest in (q', it :: processed)
          else (emplace it rest, [])
      end
  end.

(** The second loop: resend, or put back. *)
Fixpoint resend (mx : mutex) (lower : Z) (processed : list ClientMessage) (ts : TypedStream)
  : option (TypedStream * list ClientMessage) :=
  match processed with
  | [] => Some (ts, [])
  | msg :: processed' =>
      if lower <=? client_seq msg then
        '(ts1, sent1) ← saveAndPass mx msg ts;
        '(ts2, sent2) ← resend mx lower processed' ts1;
        Some (ts2, sent1 ++ sent2)
      else resend mx lower processed' (set_buffer (emplace msg (ts_buffer ts)) ts)
  end.

(** The greatest size of a vector of pointers; [reserve] of more throws. *)
Definition MAX_MESSAGES : Z := 1152921504606846975.
Definition reserves (lower upper : Z) : bool := u64 (upper - lower + 1) <=? MAX_MESSAGES.

(** What is passed on, unless [reserve] throws: the exception leaves the call
    before the stream is touched. *)
Definition handleMessageRequest (lower upper : Z) (ts : TypedStream)
  : option (TypedStream * Try (list ClientMessage)) :=
  if negb (reserves lower upper) then Some (ts, Exception length_error) else
  mx ← lock_shared Unlocked;
  let '(q, processed) := pop_upto (length (ts_buffer ts)) upper (ts_buffer ts) in
  '(ts', sent) ← resend mx lower processed (set_buffer q ts);
  Some (ts', Value sent).

Fixpoint pop_acknowledged (fuel : nat) (seqNum : Z) (q : list ClientMessage) : list ClientMessage :=
  match fuel with
  | O => q
  | S fuel' =>
      match try_pop StreamLess q with
      | None => q
      | Some (it, rest) =>
          if seqNum <? client_seq it then emplace it rest
          else pop_acknowledged fuel' seqNum rest
      end
  end.

Definition handleMessageAcknowledgement (seqNum : Z) (ts : TypedStream) : option TypedStream :=
  mx ← lock_shared Unlocked;
  Some (set_buffer (pop_acknowledged (length (ts_buffer ts)) seqNum (ts_buffer ts)) ts).

(** The loops of [reset]: pop and renumber everything, then save and pass. *)
Fixpoint renumber (fuel : nat) (seqId : Z) (q : list ClientMessage) : list ClientMessage * Z :=
  match fuel with
  | O => ([], seqId)
  | S fuel' =>
      match try_pop StreamLess q with
      | None => ([], seqId)
      | Some (it, rest) =>
          let '(processed, seqId') := renumber fuel' (u64 (seqId + 1)) rest in
          (set_sequence_number seqId it :: processed, seqId')
      end
  end.

Fixpoint save_all (mx : mutex) (msgs : list ClientMessage) (ts : TypedStream)
  : option (TypedStream * list ClientMessage) :=
  match msgs with
  | [] => Some (ts, [])
  | msg :: msgs' =>
      '(ts1, sent1) ← saveAndPass mx msg ts;
      '(ts2, sent2) ← save_all mx msgs' ts1;
      Some (ts2, sent1 ++ sent2)
  end.

Definition reset (ts : TypedStream) : option (TypedStream * list ClientMessage) :=
  mx ← lock_exclusive Unlocked;
  let '(processed, seqId) := renumber (length (ts_buffer ts)) 0 (ts_buffer ts) in
  save_all mx processed (mk_TypedStream (m_streamId ts) seqId []).

(** ** StreamManager

    [m_streams] holds weak pointers; a stream is alive while it is in
    [m_idMap] (its destructor unregisters it), together with the slot it was
    given. *)
Record StreamManager := mk_StreamManager {
  m_nextStreamId : Z;
  m_idMap : gmap Z (TypedStream * nat);
  m_streams : list (option Z);
  m_streamsSlots : list nat
}.

Definition new_StreamManager : StreamManager := mk_StreamManager 0 ∅ [] [].

Definition create (sm : StreamManager) : StreamManager * Z :=
  let '(it, streams, slots) :=
    match m_streamsSlots sm with
    | it :: slots => (it, m_streams sm, slots)
    | [] => (length (m_streams sm), m_streams sm ++ [None], [])
    end in
  let streamId := m_nextStreamId sm in
  (mk_StreamManager (u64 (streamId + 1))
     (<[streamId := (new_TypedStream streamId, it)]> (m_idMap sm))
     (<[it := Some streamId]> streams) slots, streamId).

(** The end of a stream: [~TypedStream] closes it and unregisters it. *)
Definition destroy (streamId : Z) (sm : StreamManager) : option (StreamManager * list ClientMessage) :=
  match m_idMap sm !! streamId with
  | None => Some (sm, [])
  | Some (ts, it) =>
      '(_, sent) ← close ts;
      Some (mk_StreamManager (m_nextStreamId sm) (delete streamId (m_idMap sm))
              (m_streams sm) (m_streamsSlots sm ++ [it]), sent)
  end.

(** A call of a stream by its id; [nothing] is the result if it is gone. *)
Definition update_stream {R} (nothing : R) (streamId : Z) (sm : StreamManager)
    (f : TypedStream → option (TypedStream * R)) : option (StreamManager * R) :=
  match m_idMap sm !! streamId with
  | None => Some (sm, nothing)
  | Some (ts, it) =>
      '(ts', r) ← f ts;
      Some (mk_StreamManager (m_nextStreamId sm) (<[streamId := (ts', it)]> (m_idMap sm))
              (m_streams sm) (m_streamsSlots sm), r)
  end.

Fixpoint reset_streams (ids : list (option Z)) (sm : StreamManager)
  : option (StreamManager * list ClientMessage) :=
  match ids with
  | [] => Some (sm, [])
  | None :: ids' => reset_streams ids' sm
  | Some id :: ids' =>
      '(sm1, sent1) ← update_stream [] id sm reset;
      '(sm2, sent2) ← reset_streams ids' sm1;
      Some (sm2, sent1 ++ sent2)
  end.

Definition handleMessageStreamReset (sid : option Z) (sm : StreamManager)
  : option (StreamManager * list ClientMessage) :=
  match sid with
  | Some id => update_stream [] id sm reset
  | None => reset_streams (m_streams sm) sm
  end.

(** The subscription that the constructor makes: predicate and callback. *)
Definition predicate (msg : ServerMessage) (handled : bool) : bool :=
  has_message_request msg || has_message_acknowledgement msg.

Definition callback (msg : ServerMessage) (sm : StreamManager)
  : option (StreamManager * Try (list ClientMessage)) :=
  match sm_body msg with
  | server_message_request sid lower upper =>
      update_stream (Value []) sid sm (handleMessageRequest lower upper)
  | server_message_acknowledgement sid seq =>
      update_stream (Value []) sid sm (λ ts, ts' ← handleMessageAcknowledgement seq ts; Some (ts', Value []))
  | server_message_stream_reset sid =>
      '(sm', sent) ← handleMessageStreamReset sid sm; Some (sm', Value sent)
  | _ => Some (sm, Value [])
  end.

(** A message from the server, as the inbox offers it to the subscription. *)
Definition onServerMessage (msg : ServerMessage) (handled : bool) (sm : StreamManager)
  : option (StreamManager * Try (list ClientMessage)) :=
  if predicate msg handled then callback msg sm else Some (sm, Value []).

(** ** Sending *)

Fixpoint send_all (msgs : list ClientMessage) (ts : TypedStream)
  : option (TypedStream * list ClientMessage) :=
  match msgs with
  | [] => Some (ts, [])
  | m :: msgs' =>
      '(ts1, sent1) ← send m ts;
      '(ts2, sent2) ← send_all msgs' ts1;
      Some (ts2, sent1 ++ sent2)
  end.

(** The messages as they go out, numbered from [n]. *)
Definition numbered (sid n : Z) (msgs : list ClientMessage) : list ClientMessage :=
  zip_with (set_stream sid) (seqZ n (Z.of_nat (length msgs))) msgs.

Lemma numbered_cons (sid n : Z) (m : ClientMessage) (msgs : list ClientMessage) :
  numbered sid n (m :: msgs) = set_stream sid n m :: numbered sid (n + 1) msgs.
Proof.
  unfold numbered. cbn [length]. rewrite seqZ_cons by lia. simpl. do 2 f_equal. f_equal; lia.
Qed.

Lemma length_numbered (sid n : Z) (msgs : list ClientMessage) :
  length (numbered sid n msgs) = length msgs.
Proof. unfold numbered. rewrite length_zip_with, length_seqZ. lia. Qed.

Lemma lookup_numbered (sid n : Z) (msgs : list ClientMessage) (i : nat) (m : ClientMessage) :
  numbered sid n msgs !! i = Some m → client_seq m = n + Z.of_nat i ∧ (i < length msgs)%nat.
Proof.
  intros Hi. unfold numbered in Hi. apply lookup_zip_with_Some in Hi as (q & m' & -> & Hq & Hm).
  apply lookup_seqZ in Hq as [-> _]. apply lookup_lt_Some in Hm. done.
Qed.

Lemma send_all_spec (msgs : list ClientMessage) (ts : TypedStream) :
  0 <= m_sequenceId ts → m_sequenceId ts + Z.of_nat (length msgs) <= UINT64_MAX →
  ∃ ts', send_all msgs ts
         = Some (ts', numbered (m_streamId ts) (m_sequenceId ts) msgs) ∧
    m_streamId ts' = m_streamId ts ∧
    m_sequenceId ts' = m_sequenceId ts + Z.of_nat (length msgs) ∧
    ts_buffer ts' ≡ₚ ts_buffer ts ++ numbered (m_streamId ts) (m_sequenceId ts) msgs.
Proof.
  revert ts. induction msgs as [|m msgs IH]; intros ts H0 Hmax.
  { exists ts. simpl. split_and!; [done..|lia|by rewrite app_nil_r]. }
  cbn [length] in Hmax. unfold UINT64_MAX in *.
  destruct (IH (mk_TypedStream (m_streamId ts) (m_sequenceId ts + 1)
                  (set_stream (m_streamId ts) (m_sequenceId ts) m :: ts_buffer ts)))
    as (ts' & Hrun & Hid & Hsq & Hbuf); simpl in *; [lia..|].
  exists ts'. rewrite numbered_cons. split_and!; [|done|rewrite Hsq; lia|].
  - simpl. unfold send, saveAndPass. simpl. rewrite u64_small by lia.
    unfold set_buffer, emplace. simpl. by rewrite Hrun.
  - rewrite Hbuf. by rewrite <-Permutation_middle.
Qed.

(** ** The loops over the buffer *)

Lemma StreamLess_key (a b : ClientMessage) : StreamLess a b = (client_seq a <? client_seq b).
Proof. done. Qed.

Definition all_upto (n : Z) (q : list ClientMessage) : Prop := Forall (λ m, client_seq m <= n) q.

#[export] Instance all_upto_dec (n : Z) (q : list ClientMessage) : Decision (all_upto n q) := _.

(** The greatest message decides: the first one popped. *)
Lemma try_pop_all_upto (n : Z) (q rest : list ClientMessage) (it : ClientMessage) :
  try_pop StreamLess q = Some (it, rest) → all_upto n q ↔ client_seq it <= n.
Proof.
  intros Hpop. apply (try_pop_Some _ _ StreamLess_key) in Hpop as [Hperm Hmax].
  unfold all_upto. rewrite <-Hperm, Forall_cons. split; [by intros []|].
  intros Hit. split; [done|]. eapply Forall_impl; [exact Hmax|]. simpl. lia.
Qed.

Lemma all_upto_rest (n : Z) (q rest : list ClientMessage) (it : ClientMessage) :
  try_pop StreamLess q = Some (it, rest) → all_upto n q → all_upto n rest.
Proof.
  intros Hpop. apply (try_pop_Some _ _ StreamLess_key) in Hpop as [Hperm _].
  unfold all_upto. rewrite <-Hperm, Forall_cons. by intros [].
Qed.

Lemma pop_upto_spec (fuel : nat) (upper : Z) (q : list ClientMessage) :
  (length q ≤ fuel)%nat →
  let '(q', processed) := pop_upto fuel upper q in
  (all_upto upper q → q' = [] ∧ processed ≡ₚ q) ∧
  (¬ all_upto upper q → q' ≡ₚ q ∧ processed = []).
Proof.
  revert q. induction fuel as [|fuel IH]; intros q Hlen; simpl.
  { assert (q = []) as -> by (destruct q; [done|simpl in *; lia]).
    split; [done|]. intros []. constructor. }
  destruct (try_pop StreamLess q) as [[it rest]|] eqn:Hpop.
  2:{ apply try_pop_None in Hpop as ->. split; [done|]. intros []. constructor. }
  pose proof (try_pop_all_upto upper _ _ _ Hpop) as Hdec.
  pose proof (all_upto_rest upper _ _ _ Hpop) as Hrest.
  pose proof (try_pop_length _ _ StreamLess_key _ _ _ Hpop) as Hl.
  apply (try_pop_Some _ _ StreamLess_key) in Hpop as [Hperm _].
  destruct (Z.leb_spec (client_seq it) upper).
  - specialize (IH rest ltac:(lia)). destruct (pop_upto fuel upper rest) as [q' processed].
    split; [|by intros Hn; destruct Hn; apply Hdec]. intros Hall.
    destruct IH as [IH _]. destruct (IH (Hrest Hall)) as [-> IH'].
    split; [done|]. by rewrite IH'.
  - split; [rewrite Hdec; lia|done].
Qed.

Lemma pop_acknowledged_spec (fuel : nat) (n : Z) (q : list ClientMessage) :
  (length q ≤ fuel)%nat →
  (all_upto n q → pop_acknowledged fuel n q = []) ∧
  (¬ all_upto n q → pop_acknowledged fuel n q ≡ₚ q).
Proof.
  revert q. induction fuel as [|fuel IH]; intros q Hlen; simpl.
  { assert (q = []) as -> by (destruct q; [done|simpl in *; lia]).
    split; [done|]. intros []. constructor. }
  destruct (try_pop StreamLess q) as [[it rest]|] eqn:Hpop.
  2:{ apply try_pop_None in Hpop as ->. split; [done|]. intros []. constructor. }
  pose proof (try_pop_all_upto n _ _ _ Hpop) as Hdec.
  pose proof (all_upto_rest n _ _ _ Hpop) as Hrest.
  pose proof (try_pop_length _ _ StreamLess_key _ _ _ Hpop) as Hl.
  apply (try_pop_Some _ _ StreamLess_key) in Hpop as [Hperm _].
  destruct (Z.ltb_spec n (client_seq it)).
  - split; [rewrite Hdec; lia|done].
  - specialize (IH rest ltac:(lia)). split; [|by intros Hn; destruct Hn; apply Hdec].
    intros Hall. apply IH. auto.
Qed.

Lemma resend_spec (n : nat) (lower : Z) (processed : list ClientMessage) (ts : TypedStream) :
  ∃ ts', resend (SharedLock n) lower processed ts
         = Some (ts', filter (λ m, lower <= client_seq m) processed) ∧
    m_streamId ts' = m_streamId ts ∧ m_sequenceId ts' = m_sequenceId ts ∧
    ts_buffer ts' ≡ₚ processed ++ ts_buffer ts.
Proof.
  revert ts. induction processed as [|m processed IH]; intros ts; simpl; [by exists ts|].
  destruct (IH (set_buffer (emplace m (ts_buffer ts)) ts)) as (ts' & Hrun & Hid & Hsq & Hbuf).
  exists ts'. destruct (Z.leb_spec lower (client_seq m)).
  - rewrite filter_cons_True by done. unfold saveAndPass. simpl. rewrite Hrun. simpl.
    split_and!; [done..|]. rewrite Hbuf. simpl. by rewrite Permutation_middle.
  - rewrite filter_cons_False by lia. rewrite Hrun. split_and!; [done..|].
    rewrite Hbuf. simpl. by rewrite Permutation_middle.
Qed.

(** A request for the messages [lower] to [upper] is answered completely when
    nothing greater than [upper] waits for an acknowledgement; otherwise nothing
    at all is resent, because the buffer pops its greatest number first and the
    loop stops there.  If the range is so long that reserving the space for it
    throws, the exception leaves the call.  No buffered message is lost. *)
Lemma handleMessageRequest_spec (lower upper : Z) (ts : TypedStream) :
  ∃ ts' r, handleMessageRequest lower upper ts = Some (ts', r) ∧
    m_streamId ts' = m_streamId ts ∧ m_sequenceId ts' = m_sequenceId ts ∧ ts_buffer ts' ≡ₚ ts_buffer ts ∧
    (reserves lower upper = false → r = Exception length_error) ∧
    (reserves lower upper = true → ∃ sent, r = Value sent ∧
       (all_upto upper (ts_buffer ts) → sent ≡ₚ filter (λ m, lower <= client_seq m) (ts_buffer ts)) ∧
       (¬ all_upto upper (ts_buffer ts) → sent = [])).
Proof.
  unfold handleMessageRequest. destruct (reserves lower upper); simpl; [|by eexists _, _].
  pose proof (pop_upto_spec (length (ts_buffer ts)) upper (ts_buffer ts) ltac:(lia)) as Hpop.
  destruct (pop_upto _ upper _) as [q processed]. destruct Hpop as [Hall Hnone].
  destruct (resend_spec 1 lower processed (set_buffer q ts)) as (ts' & Hrun & Hid & Hsq & Hbuf).
  rewrite Hrun. eexists ts', _. split_and!; [done|done|done| |done|]; simpl in *.
  - rewrite Hbuf. destruct (decide (all_upto upper (ts_buffer ts))) as [Ha|Hn].
    + destruct (Hall Ha) as [-> ->]. by rewrite app_nil_r.
    + by destruct (Hnone Hn) as [-> ->].
  - intros _. eexists. split_and!; [done| |].
    + intros Ha. destruct (Hall Ha) as [_ Hp]. by rewrite Hp.
    + intros Hn. by destruct (Hnone Hn) as [_ ->].
Qed.

(** ** StreamManager *)

(** Every live stream has a slot of its own that names it; the free slots
    belong to no live stream; ids are below the next one. *)
Record manager_ok (sm : StreamManager) : Prop := {
  ok_next : 0 <= m_nextStreamId sm;
  ok_ids : ∀ id p, m_idMap sm !! id = Some p → 0 <= id < m_nextStreamId sm;
  ok_slot : ∀ id ts it, m_idMap sm !! id = Some (ts, it) → m_streams sm !! it = Some (Some id);
  ok_free : ∀ it, it ∈ m_streamsSlots sm → (it < length (m_streams sm))%nat;
  ok_free_live : ∀ id ts it, m_idMap sm !! id = Some (ts, it) → it ∉ m_streamsSlots sm;
  ok_free_nodup : NoDup (m_streamsSlots sm)
}.

Lemma manager_ok_new : manager_ok new_StreamManager.
Proof.
  split; simpl; try done; try (intros; by simplify_map_eq).
  - intros it Hin. by apply elem_of_nil in Hin.
  - constructor.
Qed.

Lemma create_slot (sm : StreamManager) :
  manager_ok sm →
  ∃ it streams slots,
    (match m_streamsSlots sm with
     | it :: slots => (it, m_streams sm, slots)
     | [] => (length (m_streams sm), m_streams sm ++ [None], [])
     end) = (it, streams, slots) ∧
    (it < length streams)%nat ∧ (length (m_streams sm) ≤ length streams)%nat ∧
    NoDup slots ∧ (it ∉ slots) ∧ (∀ x, x ∈ slots → x ∈ m_streamsSlots sm) ∧
    (∀ id ts jt, m_idMap sm !! id = Some (ts, jt) → jt ≠ it) ∧
    (∀ i : nat, (i < length (m_streams sm))%nat → streams !! i = m_streams sm !! i).
Proof.
  intros [Hnext Hids Hslot Hfree Hlive Hnd]. destruct (m_streamsSlots sm) as [|it slots].
  - eexists _, _, _. split; [done|]. rewrite length_app. simpl. split_and!; try lia.
    + constructor.
    + apply not_elem_of_nil.
    + done.
    + intros id ts jt Hid ->. apply Hslot in Hid. apply lookup_lt_Some in Hid. lia.
    + intros i Hi. by apply lookup_app_l.
  - eexists _, _, _. split; [done|]. apply NoDup_cons in Hnd as [Hni Hnd]. split_and!; auto.
    + apply Hfree. left.
    + intros x Hx. by right.
    + intros id ts jt Hid ->. apply (Hlive id ts it Hid). left.
Qed.

Lemma manager_ok_create (sm sm' : StreamManager) (id : Z) :
  manager_ok sm → m_nextStreamId sm < UINT64_MAX → create sm = (sm', id) →
  manager_ok sm' ∧ m_idMap sm !! id = None ∧ is_Some (m_idMap sm' !! id).
Proof.
  intros Hok Hmax Hc. destruct (create_slot sm Hok)
    as (it & streams & slots & Hmatch & Hlt & Hlen & Hnd & Hni & Hsub & Hne & Hold).
  unfold create in Hc. rewrite Hmatch in Hc. injection Hc as <- <-.
  destruct Hok as [Hnext Hids Hslot Hfree Hlive _]. unfold UINT64_MAX in *.
  assert (m_idMap sm !! m_nextStreamId sm = None) as Hfresh.
  { destruct (m_idMap sm !! m_nextStreamId sm) as [p|] eqn:Hp; [|done].
    apply Hids in Hp. lia. }
  split_and!; [|done|simpl; rewrite lookup_insert_eq; eauto].
  rewrite u64_small by lia. split; simpl; try done; try lia.
  - intros id p. rewrite lookup_insert_Some. intros [[<- _]|[_ Hp]]; [lia|].
    apply Hids in Hp. lia.
  - intros id ts jt. rewrite lookup_insert_Some. intros [[<- [= _ <-]]|[_ Hp]].
    + by rewrite list_lookup_insert_eq.
    + rewrite list_lookup_insert_ne by (intros ->; by apply (Hne id ts jt)).
      rewrite Hold; [by eapply Hslot|]. eapply lookup_lt_Some, Hslot, Hp.
  - intros x Hx. rewrite length_insert. specialize (Hfree x (Hsub x Hx)). lia.
  - intros id ts jt. rewrite lookup_insert_Some. intros [[<- [= _ <-]]|[_ Hp]]; [done|].
    intros Hin. by apply (Hlive id ts jt Hp), Hsub.
Qed.

Lemma close_Some (ts : TypedStream) :
  ∃ ts' sent, close ts = Some (ts', sent) ∧
    sent = [set_stream (m_streamId ts) (m_sequenceId ts) (make_client client_end_of_stream)].
Proof. unfold close, send, saveAndPass. simpl. eauto. Qed.

Lemma manager_ok_destroy (sm : StreamManager) (id : Z) :
  manager_ok sm →
  ∃ sm' sent, destroy id sm = Some (sm', sent) ∧ manager_ok sm' ∧ m_idMap sm' !! id = None.
Proof.
  intros Hok. unfold destroy. destruct (m_idMap sm !! id) as [[ts it]|] eqn:Hid; [|by eauto].
  destruct (close_Some ts) as (ts' & sent & -> & _). simpl.
  eexists _, _. split; [done|]. simpl. split; [|by rewrite lookup_delete_eq].
  destruct Hok as [Hnext Hids Hslot Hfree Hlive Hnd]. split; simpl; try done.
  - intros id' p. rewrite lookup_delete_Some. intros [_ Hp]. by eapply Hids.
  - intros id' ts'' jt. rewrite lookup_delete_Some. intros [_ Hp]. by eapply Hslot.
  - intros x. rewrite elem_of_app, list_elem_of_singleton. intros [Hx| ->]; [by apply Hfree|].
    eapply lookup_lt_Some, Hslot, Hid.
  - intros id' ts'' jt. rewrite lookup_delete_Some. intros [Hne Hp].
    rewrite elem_of_app, list_elem_of_singleton. intros [Hin| ->]; [by eapply Hlive|].
    apply Hslot in Hp. apply Hslot in Hid. congruence.
  - apply NoDup_app. split_and!; [done| |apply NoDup_singleton].
    intros x Hx Hxi. apply list_elem_of_singleton in Hxi as ->. by eapply Hlive.
Qed.

(** The life of a manager: streams come and go. *)
Inductive manager_step : StreamManager → StreamManager → Prop :=
| step_create sm sm' id :
    m_nextStreamId sm < UINT64_MAX → create sm = (sm', id) → manager_step sm sm'
| step_destroy sm sm' id sent :
    destroy id sm = Some (sm', sent) → manager_step sm sm'
| step_message sm sm' msg handled r :
    onServerMessage msg handled sm = Some (sm', r) → manager_step sm sm'.

Lemma manager_ok_update {R} (sm sm' : StreamManager) (id : Z) (nothing r : R) f :
  manager_ok sm → update_stream nothing id sm f = Some (sm', r) → manager_ok sm'.
Proof.
  intros Hok Hu. unfold update_stream in Hu.
  destruct (m_idMap sm !! id) as [[ts it]|] eqn:Hid; [|by simplify_eq].
  destruct (f ts) as [[ts' sent']|]; simplify_eq/=.
  destruct Hok as [Hnext Hids Hslot Hfree Hlive Hnd]. split; simpl; try done.
  - intros id' p. rewrite lookup_insert_Some. intros [[<- _]|[_ Hp]]; by eapply Hids.
  - intros id' ts'' jt. rewrite lookup_insert_Some.
    intros [[<- [= _ <-]]|[_ Hp]]; by eapply Hslot.
  - intros id' ts'' jt. rewrite lookup_insert_Some.
    intros [[<- [= _ <-]]|[_ Hp]]; by eapply Hlive.
Qed.

Lemma manager_step_ok (sm sm' : StreamManager) :
  manager_ok sm → manager_step sm sm' → manager_ok sm'.
Proof.
  intros Hok Hstep. revert Hok.
  destruct Hstep as [sm0 sm1 id Hmax Hc|sm0 sm1 id sent Hd|sm0 sm1 msg handled r Hm]; intros Hok.
  - by destruct (manager_ok_create sm0 sm1 id Hok Hmax Hc).
  - destruct (manager_ok_destroy sm0 id Hok) as (sm2 & sent' & Hd' & Hok' & _).
    rewrite Hd in Hd'. by simplify_eq.
  - unfold onServerMessage, predicate, has_message_request, has_message_acknowledgement, callback in Hm.
    destruct (sm_body msg); simpl in Hm; simplify_eq; try done; by eapply manager_ok_update.
Qed.

(** ** The properties *)

(** A new stream numbers its messages 0, 1, 2, ... in sending order under
    its own id, and keeps a copy of every message until it is acknowledged. *)
Lemma stream_numbers_messages (streamId : Z) (msgs : list ClientMessage) :
  Z.of_nat (length msgs) <= UINT64_MAX →
  ∃ ts, send_all msgs (new_TypedStream streamId) = Some (ts, numbered streamId 0 msgs) ∧
    ts_buffer ts ≡ₚ numbered streamId 0 msgs.
Proof.
  intros Hlen. destruct (send_all_spec msgs (new_TypedStream streamId)) as (ts & ? & _ & _ & ?);
    [simpl; lia..|]. by exists ts.
Qed.

(** A range that ends before it begins wraps to a length that no vector has:
    the call throws [std::length_error] instead of doing nothing. *)
Lemma stream_request_wraps (lower upper : Z) :
  0 <= upper → upper + 1 < lower <= OFF_MAX → reserves lower upper = false.
Proof.
  intros H0 Hl. unfold reserves, u64, OFF_MAX, MAX_MESSAGES in *. apply Z.leb_gt.
  rewrite <-(Z.mod_add _ 1), Z.mod_small by lia. lia.
Qed.

(** So the gap requests of a sequencing receiver are not served: it asks
    for a range because it already has a later message of the stream, and that
    later message is still in the sender's buffer. *)
Lemma stream_gap_request_ignored (streamId lower upper : Z) (msgs : list ClientMessage) :
  Z.of_nat (length msgs) <= UINT64_MAX → upper + 1 < Z.of_nat (length msgs) → 0 <= upper →
  reserves lower upper = true →
  ∃ ts ts', send_all msgs (new_TypedStream streamId) = Some (ts, numbered streamId 0 msgs) ∧
    handleMessageRequest lower upper ts = Some (ts', Value []).
Proof.
  intros Hlen Hup H0 Hres. destruct (send_all_spec msgs (new_TypedStream streamId))
    as (ts & Hrun & _ & _ & Hbuf); [simpl; lia..|]. simpl in Hbuf.
  destruct (handleMessageRequest_spec lower upper ts) as (ts' & r & Hreq & _ & _ & _ & _ & Hr).
  destruct (Hr Hres) as (sent & -> & _ & Hnone).
  exists ts, ts'. split; [done|]. rewrite Hreq, Hnone; [done|]. unfold all_upto. rewrite Hbuf.
  intros Hall. destruct (lookup_lt_is_Some_2 (numbered streamId 0 msgs) (Z.to_nat (upper + 1)))
    as [m Hm]; [rewrite length_numbered; lia|].
  eapply Forall_lookup_1 in Hall; [|exact Hm]. apply lookup_numbered in Hm as [Hm _]. lia.
Qed.

(** An acknowledgement frees the buffer when it covers every buffered
    message, and frees nothing otherwise. *)
Lemma stream_acknowledgement (seqNum : Z) (ts : TypedStream) :
  ∃ ts', handleMessageAcknowledgement seqNum ts = Some ts' ∧
    (all_upto seqNum (ts_buffer ts) → ts_buffer ts' = []) ∧
    (¬ all_upto seqNum (ts_buffer ts) → ts_buffer ts' ≡ₚ ts_buffer ts).
Proof.
  destruct (pop_acknowledged_spec (length (ts_buffer ts)) seqNum (ts_buffer ts)) as [Ha Hn]; [lia|].
  eexists. split; [done|]. by split.
Qed.

(** [reset] of a stream with buffered messages never finishes: it calls
    [saveAndPass], which takes the shared lock, while it holds the exclusive
    lock of the same mutex. *)
Lemma stream_reset_blocks (ts : TypedStream) :
  ts_buffer ts ≠ [] → reset ts = None.
Proof.
  intros Hne. unfold reset. simpl.
  destruct (ts_buffer ts) as [|m q]; [done|]. simpl.
  destruct (best StreamLess m q) as [it rest].
  destruct (renumber (length q) (u64 (0 + 1)) rest) as [processed seqId]. done.
Qed.

(** A reset request from the server does not reach the streams: the
    subscription's predicate does not accept it, so the branch of the callback
    that handles it is never taken. *)
Lemma stream_reset_unreachable (msg : ServerMessage) (handled : bool) (sm : StreamManager) :
  has_message_stream_reset msg = true → onServerMessage msg handled sm = Some (sm, Value []).
Proof.
  unfold has_message_stream_reset, onServerMessage, predicate, has_message_request,
    has_message_acknowledgement. by destruct (sm_body msg).
Qed.

(** In every state a manager can reach, each live stream has a slot of
    its own, free slots belong to no live stream and no id is given twice. *)
Lemma manager_invariant (sm : StreamManager) :
  rtc manager_step new_StreamManager sm → manager_ok sm.
Proof.
  generalize manager_ok_new. generalize new_StreamManager. intros sm0 H0 Hrtc.
  induction Hrtc as [|x y z Hxy _ IH]; [done|]. apply IH. by eapply manager_step_ok.
Qed.

