(* ===== verification/Layers.v ===== *)
(** * Layers of the communicator (src/src/communication/layers)

    The layers between the connection pool and the user of a communicator:
    [Retrier] (retrier.h) resends, [BinaryTranslator] (binaryTranslator.h)
    turns messages into bytes and back, [AsyncResponder] (asyncResponder.h)
    hands received messages to an executor, [Inbox] (inbox.h) matches replies
    to requests and serves subscriptions, [Replier] (replier.h) answers, and
    [Translator] (translator.h) turns outcomes into futures.  The layer
    [Sequencer] has its own file.  Serialisation is that of the protocol
    buffer library and a parameter. *)

From stdpp Require Import base numbers list gmap strings relations.
From Stdlib Require Import ZArith Lia.
From S2P Require Import Prelude StdStrings Protocol.
Local Open Scope Z_scope.

(** The argument of a send callback: an error code, or none. *)
Abbreviation send_result := (option error_code).

(** ** Retrier *)

Section retrier.
Context {St : Type} (lower_send : string → Z → ST St send_result).

(** [fuel] bounds the recursion; [retries] decreases in every round. *)
Fixpoint retrier_rounds (fuel : nat) (message : string) (retries : Z) : ST St send_result :=
  match fuel with
  | O => st_throw runtime_error
  | S fuel' =>
      ec ← lower_send message retries;
      if bool_decide (ec ≠ None) && (0 <? retries) then retrier_rounds fuel' message (retries - 1)
      else mret ec
  end.
Definition retrier_send (message : string) (retries : Z) : ST St send_result :=
  retrier_rounds (S (Z.to_nat retries)) message retries.
End retrier.

(** ** BinaryTranslator *)

Section binary_translator.
Context (SerializeAsString : ClientMessage → string) (ParseFromString : string → option ServerMessage).
Context {St : Type} (lower_send : string → Z → ST St send_result).

Definition binary_send (message : ClientMessage) (retries : Z) : ST St send_result :=
  lower_send (SerializeAsString message) retries.

(** The message that is given to the layer above, if any. *)
Definition binary_onMessage (message : string) : option ServerMessage :=
  serverMsg ← ParseFromString message;
  if has_processing_status serverMsg then None else Some serverMsg.

Definition binary_getHandshake (getHandshake : ClientMessage) : string := SerializeAsString getHandshake.
Definition binary_onHandshakeResponse (onHandshakeResponse : ServerMessage → send_result)
    (message : string) : send_result :=
  match ParseFromString message with
  | None => Some (make_error_code EPROTO)
  | Some serverMsg => onHandshakeResponse serverMsg
  end.
End binary_translator.

(** ** AsyncResponder *)

(** Received messages wait in the executor, which takes any of them. *)
Definition async_onMessage (m : ServerMessage) (executor : list ServerMessage) : list ServerMessage :=
  executor ++ [m].
Definition async_run (i : nat) (executor : list ServerMessage)
  : option (ServerMessage * list ServerMessage) :=
  m ← executor !! i; Some (m, delete i executor).

(** ** Inbox *)

Record SubscriptionData := mk_SubscriptionData {
  predicate : ServerMessage → bool → bool;
  sub_callback : option nat
}.
Definition no_subscription : SubscriptionData := mk_SubscriptionData (λ _ _, false) None.

(** Callbacks are numbers; [m_nextMsgId] has 16 bits. *)
Record inbox := mk_inbox {
  m_callbacks : gmap string nat;
  m_seed : Z;
  m_nextMsgId : Z;
  m_subscriptions : list SubscriptionData;
  m_unusedSubscriptions : list nat
}.

(** What a callback is called with. *)
Inductive response :=
| Failed (ec : error_code)
| Reply (m : ServerMessage).

Definition new_inbox (seed : Z) : inbox := mk_inbox ∅ seed 0 [] [].

Definition set_message_id (id : string) (m : ClientMessage) : ClientMessage :=
  mk_ClientMessage id (cm_message_stream m) (cm_body m).

(** The message goes down with its id; an entry with the same id is
    overwritten. *)
Definition communicate (callback : nat) (message : ClientMessage) (s : inbox) : inbox * ClientMessage :=
  let messageId := to_string (u64 (m_seed s + m_nextMsgId s)) in
  (mk_inbox (<[messageId := callback]> (m_callbacks s)) (m_seed s) (u16 (m_nextMsgId s + 1))
     (m_subscriptions s) (m_unusedSubscriptions s),
   set_message_id messageId message).

Definition erase_callback (messageId : string) (s : inbox) : inbox :=
  mk_inbox (delete messageId (m_callbacks s)) (m_seed s) (m_nextMsgId s)
    (m_subscriptions s) (m_unusedSubscriptions s).

Definition sendErrorCallback (messageId : string) (ec : send_result) (s : inbox)
  : inbox * list (nat * response) :=
  match ec with
  | None => (s, [])
  | Some e =>
      match m_callbacks s !! messageId with
      | Some callback => (erase_callback messageId s, [(callback, Failed e)])
      | None => (s, [])
      end
  end.

(** The callback of [connect]: the subscriptions that accept the message, and
    the request it answers. *)
Definition onMessage (message : ServerMessage) (s : inbox)
  : inbox * list nat * list (nat * response) :=
  let handled := m_callbacks s !! sm_message_id message in
  let subs := omap (λ sub, if predicate sub message (bool_decide (is_Some handled))
                           then sub_callback sub else None) (m_subscriptions s) in
  match handled with
  | Some callback => (erase_callback (sm_message_id message) s, subs, [(callback, Reply message)])
  | None => (s, subs, [])
  end.

Definition subscribe (data : SubscriptionData) (s : inbox) : inbox * nat :=
  match m_unusedSubscriptions s with
  | it :: rest => (mk_inbox (m_callbacks s) (m_seed s) (m_nextMsgId s)
                     (<[it := data]> (m_subscriptions s)) rest, it)
  | [] => (mk_inbox (m_callbacks s) (m_seed s) (m_nextMsgId s)
             (m_subscriptions s ++ [data]) [], length (m_subscriptions s))
  end.

(** The function that [subscribe] returns. *)
Definition unsubscribe (it : nat) (s : inbox) : inbox :=
  mk_inbox (m_callbacks s) (m_seed s) (m_nextMsgId s)
    (<[it := no_subscription]> (m_subscriptions s)) (m_unusedSubscriptions s ++ [it]).

(** ** Replier *)

Definition reply (replyTo : ServerMessage) (msg : ClientMessage) : ClientMessage :=
  set_message_id (sm_message_id replyTo) msg.

(** ** Translator *)

(** What the promise of [send] and [reply] is given. *)
Definition translator_result (ec : send_result) : Try unit :=
  match ec with Some e => Exception (system_error e) | None => Value tt end.

(** What the promise of [communicate] is given: the message is turned into the
    expected type, which may throw. *)
Definition translator_response {SvrMsg} (convert : ServerMessage → Try SvrMsg) (r : response) : Try SvrMsg :=
  match r with Failed e => Exception (system_error e) | Reply m => convert m end.

(** The promise of [setHandshake]: only the first handshake counts. *)
Definition translator_handshake (done : option (Try unit)) (ec : send_result) : option (Try unit) :=
  match done with Some r => Some r | None => Some (translator_result ec) end.

(** [wait]: a future by the time it takes, if it completes at all, and its
    outcome; the time limit is positive. *)
Definition errc_timed_out : error_code := make_error_code 110.
Definition wait {A} (future : option (Z * Try A)) (timeout : Z) : Try A :=
  match future with
  | Some (time, r) => if time <=? timeout then r else Exception (system_error errc_timed_out)
  | None => Exception (system_error errc_timed_out)
  end.

(** ** Retrying ends *)

(** The lower layer answers; the retrier then returns, after at most
    [retries + 1] sends, the outcome of the last one. *)
Lemma retrier_send_spec {St} (lower_send : string → Z → ST St send_result) (message : string)
    (retries : Z) (s : St) :
  (∀ r s, ∃ s' ec, lower_send message r s = (s', Value ec)) → 0 <= retries →
  ∃ s' ec, retrier_send lower_send message retries s = (s', Value ec) ∧
    (ec = None ∨ ∃ s0, lower_send message 0 s0 = (s', Value ec)).
Proof.
  intros Hlow Hr. unfold retrier_send.
  assert (∃ n, retries = Z.of_nat n) as [n ->] by (exists (Z.to_nat retries); lia). rewrite Nat2Z.id.
  clear Hr. revert s. induction n as [|n IH]; intros s.
  - destruct (Hlow 0 s) as (s1 & ec & Hs). cbn [retrier_rounds].
    rewrite (st_bind_value (lower_send message 0) _ _ _ _ Hs). simpl. rewrite andb_false_r. exists s1, ec. eauto.
  - destruct (Hlow (Z.of_nat (S n)) s) as (s1 & ec & Hs). cbn [retrier_rounds] in *.
    rewrite (st_bind_value _ _ _ _ _ Hs).
    rewrite (proj2 (Z.ltb_lt 0 (Z.of_nat (S n)))) by lia. rewrite andb_true_r.
    case_bool_decide as Hec.
    + replace (Z.of_nat (S n) - 1) with (Z.of_nat n) by lia. apply IH.
    + exists s1, ec. split; [done|]. by left.
Qed.

(** ** Requests and replies *)

(** The id of the request with number [n]. *)
Definition message_id (seed : Z) (n : nat) : string := to_string (u64 (seed + u16 (Z.of_nat n))).

(** A history: the inbox, the number of requests so far (each request has its
    number as callback) and the callbacks that were called. *)
Inductive inbox_step : inbox * nat * list (nat * response) → inbox * nat * list (nat * response) → Prop :=
| inbox_communicate s n log message :
    inbox_step (s, n, log) ((communicate n message s).1, S n, log)
| inbox_sent s n log messageId ec s' calls :
    sendErrorCallback messageId ec s = (s', calls) → inbox_step (s, n, log) (s', n, log ++ calls)
| inbox_received s n log message s' subs calls :
    onMessage message s = (s', subs, calls) → inbox_step (s, n, log) (s', n, log ++ calls)
| inbox_subscribe s n log data : inbox_step (s, n, log) ((subscribe data s).1, n, log)
| inbox_unsubscribe s n log it : inbox_step (s, n, log) (unsubscribe it s, n, log).

Record inbox_ok (seed : Z) (s : inbox) (n : nat) (log : list (nat * response)) : Prop := {
  inbox_seed : m_seed s = seed;
  inbox_next : m_nextMsgId s = u16 (Z.of_nat n);
  inbox_pending : ∀ id cb, m_callbacks s !! id = Some cb →
    (cb < n)%nat ∧ id = message_id seed cb ∧ cb ∉ log.*1;
  inbox_log : Forall (λ e, (e.1 < n)%nat ∧
    match e.2 with Reply m => sm_message_id m = message_id seed e.1 | Failed _ => True end) log;
  inbox_once : NoDup (log.*1);
  inbox_all : (Z.of_nat n <= 65536) → ∀ cb, (cb < n)%nat →
    cb ∈ log.*1 ∨ m_callbacks s !! message_id seed cb = Some cb
}.

Lemma to_string_inj (x y : Z) :
  0 <= x <= UINT64_MAX → 0 <= y <= UINT64_MAX → to_string x = to_string y → x = y.
Proof.
  intros Hx Hy Heq. unfold UINT64_MAX in *. destruct (to_string_digits x) as (_ & Hpx & _); [lia|].
  destruct (to_string_digits y) as (_ & Hpy & _); [lia|]. congruence.
Qed.

(** Ids repeat only after 65536 requests. *)
Lemma message_id_inj (seed : Z) (i j : nat) :
  Z.of_nat i < 65536 → Z.of_nat j < 65536 → message_id seed i = message_id seed j → i = j.
Proof.
  unfold message_id. intros Hi Hj Heq.
  pose proof (u64_range (seed + u16 (Z.of_nat i))). pose proof (u64_range (seed + u16 (Z.of_nat j))).
  apply to_string_inj in Heq; [|unfold UINT64_MAX; lia..]. unfold u16, u64 in Heq.
  rewrite !(Z.mod_small (Z.of_nat _)) in Heq by lia.
  assert ((seed + Z.of_nat i - (seed + Z.of_nat j)) mod 18446744073709551616 = 0) as Hz.
  { rewrite Zminus_mod, Heq, Z.sub_diag. done. }
  apply Z.mod_divide in Hz as [q Hq]; lia.
Qed.

(** The counter has 16 bits: the ids come again after 65536 requests. *)
Lemma message_id_repeats (seed : Z) (n : nat) : message_id seed (Z.to_nat 65536 + n) = message_id seed n.
Proof.
  unfold message_id, u16. rewrite Nat2Z.inj_add, Z2Nat.id by lia.
  by rewrite (Z.add_comm 65536), <-(Z.mul_1_l 65536) at 1; rewrite Z.mod_add by lia.
Qed.

Lemma inbox_ok_communicate (seed : Z) (s : inbox) (n : nat) (log : list (nat * response)) (m : ClientMessage) :
  inbox_ok seed s n log → inbox_ok seed (communicate n m s).1 (S n) log.
Proof.
  intros [Hseed Hnext Hp Hlog Honce Hall]. unfold communicate. simpl.
  assert (to_string (u64 (m_seed s + m_nextMsgId s)) = message_id seed n) as Hid
    by (unfold message_id; by rewrite Hseed, Hnext).
  split; simpl; try done.
  - rewrite Hnext. unfold u16. rewrite Zplus_mod_idemp_l. f_equal. lia.
  - rewrite Hid. intros id cb Hcb. apply lookup_insert_Some in Hcb as [[<- <-]|[Hne Hcb]].
    + split_and!; [lia|done|]. intros Hin. apply list_elem_of_fmap in Hin as (e & -> & He).
      rewrite Forall_forall in Hlog. destruct (Hlog e He). lia.
    + destruct (Hp id cb Hcb) as (? & ? & ?). split_and!; [lia|done..].
  - eapply Forall_impl; [exact Hlog|]. simpl. intros e [? ?]. split; [lia|done].
  - rewrite Hid. intros Hn cb Hcb. destruct (decide (cb = n)) as [->|Hne].
    { right. by rewrite lookup_insert_eq. }
    destruct (Hall ltac:(lia) cb ltac:(lia)) as [|Hcb']; [by left|right].
    rewrite lookup_insert_ne; [done|]. intros Heq. apply Hne. symmetry.
    apply (message_id_inj seed n cb); [lia..|done].
Qed.

(** A pending request is answered: its entry goes, its callback is called. *)
Lemma inbox_ok_answer (seed : Z) (s : inbox) (n : nat) (log : list (nat * response)) (id : string)
    (cb : nat) (r : response) :
  inbox_ok seed s n log → m_callbacks s !! id = Some cb →
  match r with Reply m => sm_message_id m = id | Failed _ => True end →
  inbox_ok seed (erase_callback id s) n (log ++ [(cb, r)]).
Proof.
  intros [Hseed Hnext Hp Hlog Honce Hall] Hcb Hr. destruct (Hp id cb Hcb) as (Hlt & -> & Hnot).
  assert (∀ c, c ∈ (log ++ [(cb, r)]).*1 ↔ c ∈ log.*1 ∨ c = cb) as Hin.
  { intros c. rewrite fmap_app, elem_of_app. simpl. by rewrite list_elem_of_singleton. }
  split; simpl; try done.
  - intros id' cb' Hl. apply lookup_delete_Some in Hl as [Hne Hl].
    destruct (Hp id' cb' Hl) as (? & -> & Hn'). split_and!; [done..|]. rewrite Hin.
    by intros [?|?]; simplify_eq.
  - apply Forall_app. split; [done|]. apply Forall_singleton. simpl. split; [done|by destruct r].
  - rewrite fmap_app. apply NoDup_app. split_and!; [done| |apply NoDup_singleton].
    intros x Hx Hx'. apply list_elem_of_singleton in Hx' as ->. done.
  - intros Hn c Hc. rewrite Hin. destruct (decide (c = cb)) as [->|Hne]; [auto|].
    destruct (Hall Hn c Hc) as [|Hl]; [auto|]. right. rewrite lookup_delete_ne; [done|].
    intros Heq. by rewrite <-Heq, Hcb in Hl; simplify_eq.
Qed.

Lemma inbox_ok_frame (seed : Z) (s s' : inbox) (n : nat) (log : list (nat * response)) :
  inbox_ok seed s n log → m_callbacks s' = m_callbacks s → m_seed s' = m_seed s →
  m_nextMsgId s' = m_nextMsgId s → inbox_ok seed s' n log.
Proof. intros [? ? ? ? ? ?] Hc Hs Hn. split; rewrite ?Hc, ?Hs, ?Hn; done. Qed.

Lemma inbox_step_ok (seed : Z) h h' :
  inbox_step h h' → inbox_ok seed h.1.1 h.1.2 h.2 → inbox_ok seed h'.1.1 h'.1.2 h'.2.
Proof.
  intros Hstep. destruct Hstep as [s n log m|s n log id ec s' calls Hs|s n log m s' subs calls Hs
    |s n log d|s n log it]; simpl; intros Hok.
  - by apply (inbox_ok_communicate seed s n log m).
  - unfold sendErrorCallback in Hs. destruct ec as [e|]; [|simplify_eq; by rewrite app_nil_r].
    destruct (m_callbacks s !! id) as [cb|] eqn:Hcb; simplify_eq; [|by rewrite app_nil_r].
    by eapply inbox_ok_answer.
  - unfold onMessage in Hs. destruct (m_callbacks s !! sm_message_id m) as [cb|] eqn:Hcb; simplify_eq.
    + by eapply inbox_ok_answer.
    + by rewrite app_nil_r.
  - eapply inbox_ok_frame; [done|..]; unfold subscribe; by destruct (m_unusedSubscriptions s).
  - by eapply inbox_ok_frame.
Qed.

Lemma inbox_ok_new (seed : Z) : inbox_ok seed (new_inbox seed) 0 [].
Proof. split; simpl; try done; [constructor|lia]. Qed.

(** Every request is answered at most once, by an error of its send or by
    a message that carries its id, and among the first 65536 requests none is
    lost: it was answered or its callback is still waiting under its id. *)
Lemma inbox_matches_replies (seed : Z) (s : inbox) (n : nat) (log : list (nat * response)) :
  rtc inbox_step (new_inbox seed, 0%nat, []) (s, n, log) →
  NoDup (log.*1) ∧
  (∀ cb m, (cb, Reply m) ∈ log → (cb < n)%nat ∧ sm_message_id m = message_id seed cb) ∧
  (Z.of_nat n <= 65536 → ∀ cb, (cb < n)%nat →
     cb ∈ log.*1 ∨ m_callbacks s !! message_id seed cb = Some cb).
Proof.
  intros Hrtc. assert (inbox_ok seed s n log) as [_ _ _ Hlog Honce Hall].
  { assert (∀ h1 h2, rtc inbox_step h1 h2 → inbox_ok seed h1.1.1 h1.1.2 h1.2 →
      inbox_ok seed h2.1.1 h2.1.2 h2.2) as Hgen.
    { induction 1; [done|]. eauto using inbox_step_ok. }
    apply (Hgen _ _ Hrtc), inbox_ok_new. }
  split_and!; [done| |done]. intros cb m Hin. rewrite Forall_forall in Hlog. by apply (Hlog _ Hin).
Qed.

