(* ===== verification/Communicator.v ===== *)
(** * The communicator (src/src/communication/communicator.h)

    [Communicator] stacks the layers of [Layers] and [Sequencer] on a
    connection pool.  Downwards a message is numbered by [Inbox], serialised
    by [BinaryTranslator] and sent by [Retrier] until the pool takes it or
    the retries are used up; upwards a received string is parsed, put in
    sequence by [Sequencer], handed to the executor by [AsyncResponder] and
    matched with its request by [Inbox].  The theorems follow a message
    through the whole stack. *)

From stdpp Require Import base numbers list gmap strings relations.
From Stdlib Require Import ZArith Lia.
From S2P Require Import Prelude StdStrings PriorityQueue Protocol Sequencer Layers.
Local Open Scope Z_scope.

(** ** The stack *)

(** Who is told how a send went: nobody (the sequencer's own messages), the
    inbox (a request), or the promise that [Translator::send] and
    [Translator::reply] made. *)
Inductive send_callback :=
| ignore_result
| request_callback (messageId : string)
| promise_callback (promise : nat).

(** A string the pool was given and has not answered for, as [Retrier] keeps
    it. *)
Record sending := mk_sending {
  snd_message : string;
  snd_callback : send_callback;
  snd_retries : Z
}.

(** The state of the layers, and all the strings given to the pool. *)
Record Communicator := mk_Communicator {
  c_inbox : inbox;
  c_buffers : buffers;
  c_executor : list ServerMessage;
  c_sendings : list sending;
  c_wire : list string
}.

Definition new_Communicator (seed : Z) : Communicator := mk_Communicator (new_inbox seed) ∅ [] [] [].

Definition set_inbox (i : inbox) (c : Communicator) : Communicator :=
  mk_Communicator i (c_buffers c) (c_executor c) (c_sendings c) (c_wire c).
Definition set_buffers (b : buffers) (c : Communicator) : Communicator :=
  mk_Communicator (c_inbox c) b (c_executor c) (c_sendings c) (c_wire c).
Definition set_executor (e : list ServerMessage) (c : Communicator) : Communicator :=
  mk_Communicator (c_inbox c) (c_buffers c) e (c_sendings c) (c_wire c).

(** Callbacks that were called: of requests, of promises. *)
Record called := mk_calls {
  answers : list (nat * response);
  results : list (nat * Try unit)
}.
Definition no_calls : called := mk_calls [] [].

Section communicator.
Context (SerializeAsString : ClientMessage → string) (ParseFromString : string → option ServerMessage).

(** [ConnectionPool::send], called by [Retrier::send]. *)
Definition pool_send (x : sending) (c : Communicator) : Communicator :=
  mk_Communicator (c_inbox c) (c_buffers c) (c_executor c) (c_sendings c ++ [x])
    (c_wire c ++ [snd_message x]).

(** [send] of the layers from the sequencer down. *)
Definition layers_send (message : ClientMessage) (callback : send_callback) (retries : Z)
    (c : Communicator) : Communicator :=
  pool_send (mk_sending (SerializeAsString message) callback retries) c.

(** The callback of a send is called. *)
Definition call_back (callback : send_callback) (ec : send_result) (c : Communicator)
  : Communicator * called :=
  match callback with
  | ignore_result => (c, no_calls)
  | request_callback messageId =>
      let '(i, out) := sendErrorCallback messageId ec (c_inbox c) in
      (set_inbox i c, mk_calls out [])
  | promise_callback promise => (c, mk_calls [] [(promise, translator_result ec)])
  end.

(** The pool reports on its [i]-th unanswered string: the [wrappedCallback] of
    [Retrier::send]. *)
Definition pool_answer (i : nat) (ec : send_result) (c : Communicator)
  : option (Communicator * called) :=
  x ← c_sendings c !! i;
  let c' := mk_Communicator (c_inbox c) (c_buffers c) (c_executor c)
              (delete i (c_sendings c)) (c_wire c) in
  if bool_decide (ec ≠ None) && (0 <? snd_retries x) then
    Some (pool_send (mk_sending (snd_message x) (snd_callback x) (snd_retries x - 1)) c', no_calls)
  else Some (call_back (snd_callback x) ec c').

(** What the sequencer does to its neighbours. *)
Definition sequencer_event (e : event) (c : Communicator) : Communicator :=
  match e with
  | Forward m => set_executor (async_onMessage m (c_executor c)) c
  | Send m => layers_send m ignore_result DEFAULT_RETRY_NUMBER c
  end.
Fixpoint sequencer_events (evs : list event) (c : Communicator) : Communicator :=
  match evs with
  | [] => c
  | e :: evs' => sequencer_events evs' (sequencer_event e c)
  end.

(** A string arrives. *)
Definition pool_onMessage (message : string) (c : Communicator) : Communicator :=
  match binary_onMessage ParseFromString message with
  | None => c
  | Some serverMsg =>
      let '(b, evs) := Sequencer.onMessage (c_buffers c) serverMsg in
      sequencer_events evs (set_buffers b c)
  end.

(** The executor runs its [i]-th task: also returned is the message that the
    inbox is given. *)
Definition executor_run (i : nat) (c : Communicator)
  : option (Communicator * ServerMessage * called) :=
  '(m, rest) ← async_run i (c_executor c);
  let '(inb, _, out) := Layers.onMessage m (c_inbox c) in
  Some (set_inbox inb (set_executor rest c), m, mk_calls out []).

(** What the user of the communicator calls: [Translator::communicate],
    [send] and [reply], with the number of the callback or promise, and
    [subscribe]. *)
Definition user_communicate (callback : nat) (msg : ClientMessage) (retries : Z) (c : Communicator)
  : Communicator :=
  let '(inb, message) := communicate callback msg (c_inbox c) in
  layers_send message (request_callback (cm_message_id message)) retries (set_inbox inb c).
Definition user_send (promise : nat) (msg : ClientMessage) (retries : Z) (c : Communicator)
  : Communicator :=
  layers_send msg (promise_callback promise) retries c.
Definition user_reply (promise : nat) (replyTo : ServerMessage) (msg : ClientMessage) (retry : Z)
    (c : Communicator) : Communicator :=
  layers_send (reply replyTo msg) (promise_callback promise) retry c.
(** [send] with a callback that does nothing, as the streams call it. *)
Definition user_pass (msg : ClientMessage) (retries : Z) (c : Communicator) : Communicator :=
  layers_send msg ignore_result retries c.

(** [Sequencer::connect] and the periodic task it schedules. *)
Definition communicator_connect (c : Communicator) : Communicator :=
  let '(b, evs) := Sequencer.connect (c_buffers c) in sequencer_events evs (set_buffers b c).
Definition communicator_periodic (c : Communicator) : Communicator :=
  sequencer_events (periodicMessageRequest (c_buffers c)) c.

(** ** Histories *)

(** The communicator; the requests so far (the position of a request is its
    callback); the number of promises; the strings received; the messages the
    inbox was given; the callbacks called. *)
Record history := mk_history {
  h_comm : Communicator;
  h_requests : list ClientMessage;
  h_promises : nat;
  h_received : list string;
  h_delivered : list ServerMessage;
  h_calls : called
}.
Definition start (seed : Z) : history := mk_history (new_Communicator seed) [] 0 [] [] no_calls.

Definition add_calls (old new : called) : called :=
  mk_calls (answers old ++ answers new) (results old ++ results new).

(** [runs i]: the executor may take its [i]-th task; an executor with one
    thread takes only the first. *)
Context (runs : nat → Prop).

Inductive step : history → history → Prop :=
| step_communicate c rq p rc dl out msg retries :
    step (mk_history c rq p rc dl out)
         (mk_history (user_communicate (length rq) msg retries c) (rq ++ [msg]) p rc dl out)
| step_send c rq p rc dl out msg retries :
    step (mk_history c rq p rc dl out)
         (mk_history (user_send p msg retries c) rq (S p) rc dl out)
| step_reply c rq p rc dl out replyTo msg retry :
    step (mk_history c rq p rc dl out)
         (mk_history (user_reply p replyTo msg retry c) rq (S p) rc dl out)
| step_subscribe c rq p rc dl out data :
    step (mk_history c rq p rc dl out)
         (mk_history (set_inbox (subscribe data (c_inbox c)).1 c) rq p rc dl out)
| step_unsubscribe c rq p rc dl out it :
    step (mk_history c rq p rc dl out)
         (mk_history (set_inbox (unsubscribe it (c_inbox c)) c) rq p rc dl out)
| step_connect c rq p rc dl out :
    step (mk_history c rq p rc dl out) (mk_history (communicator_connect c) rq p rc dl out)
| step_periodic c rq p rc dl out :
    step (mk_history c rq p rc dl out) (mk_history (communicator_periodic c) rq p rc dl out)
| step_answer c rq p rc dl out i ec c' new :
    pool_answer i ec c = Some (c', new) →
    step (mk_history c rq p rc dl out) (mk_history c' rq p rc dl (add_calls out new))
| step_receive c rq p rc dl out message :
    step (mk_history c rq p rc dl out)
         (mk_history (pool_onMessage message c) rq p (rc ++ [message]) dl out)
| step_run c rq p rc dl out i c' m new :
    runs i → executor_run i c = Some (c', m, new) →
    step (mk_history c rq p rc dl out) (mk_history c' rq p rc (dl ++ [m]) (add_calls out new))
| step_pass c rq p rc dl out msg retries :
    step (mk_history c rq p rc dl out) (mk_history (user_pass msg retries c) rq p rc dl out).
End communicator.

(** ** What each operation leaves alone *)

(** The promises that wait for the pool. *)
Definition waiting (l : list sending) : list nat :=
  omap (λ x, match snd_callback x with promise_callback k => Some k | _ => None end) l.

(** [c'] differs from [c] only in that more was given to the pool. *)
Record sent_more (c c' : Communicator) : Prop := {
  more_inbox : c_inbox c' = c_inbox c;
  more_buffers : c_buffers c' = c_buffers c;
  more_wire : c_wire c ⊆ c_wire c'
}.

Lemma waiting_app (l k : list sending) : waiting (l ++ k) = waiting l ++ waiting k.
Proof. apply omap_app. Qed.

(** Taking a sending out of the list. *)
Lemma waiting_delete (l : list sending) (i : nat) (x : sending) :
  l !! i = Some x → waiting [x] ++ waiting (delete i l) ≡ₚ waiting l.
Proof. intros Hi. rewrite <-waiting_app. apply omap_Permutation. symmetry. by apply delete_Permutation. Qed.

Section frames.
Context (SerializeAsString : ClientMessage → string) (ParseFromString : string → option ServerMessage).

Lemma sequencer_events_frame (evs : list event) (c : Communicator) :
  let c' := sequencer_events SerializeAsString evs c in
  sent_more c c' ∧ c_executor c' = c_executor c ++ forwards evs ∧
  waiting (c_sendings c') = waiting (c_sendings c).
Proof.
  revert c. induction evs as [|e evs IH]; intros c.
  { simpl. by rewrite app_nil_r. }
  destruct (IH (sequencer_event SerializeAsString e c)) as ([Hi Hb Hw] & He & Hs).
  cbn [sequencer_events].
  split_and!; [split|..]; rewrite ?Hi, ?Hb, ?He, ?Hs; try by destruct e.
  - intros x Hx. apply Hw. destruct e; simpl; [done|]. apply elem_of_app. by left.
  - destruct e; simpl; [|done]. unfold async_onMessage. by rewrite <-app_assoc.
  - destruct e; simpl; [done|]. rewrite waiting_app. apply app_nil_r.
Qed.

Lemma forwards_sends (evs : list event) :
  Forall (λ e, ∃ m, e = Send m) evs → forwards evs = [].
Proof. induction 1 as [|e evs [m ->] _ IH]; [done|exact IH]. Qed.

(** The sequencer's own messages leave the layers above alone. *)
Lemma sequencer_sends_frame (evs : list event) (c : Communicator) :
  Forall (λ e, ∃ m, e = Send m) evs →
  let c' := sequencer_events SerializeAsString evs c in
  sent_more c c' ∧ c_executor c' = c_executor c ∧ waiting (c_sendings c') = waiting (c_sendings c).
Proof.
  intros Hevs c'. destruct (sequencer_events_frame evs c) as (? & He & ?).
  rewrite (forwards_sends _ Hevs), app_nil_r in He. done.
Qed.

Lemma periodic_sends (b : buffers) : Forall (λ e, ∃ m, e = Send m) (periodicMessageRequest b).
Proof. apply Forall_forall. intros e [x [-> _]]%list_elem_of_fmap. by eexists. Qed.

Lemma communicator_connect_frame (c : Communicator) :
  let c' := communicator_connect SerializeAsString c in
  sent_more c c' ∧ c_executor c' = c_executor c ∧ waiting (c_sendings c') = waiting (c_sendings c).
Proof.
  destruct (sequencer_sends_frame [sendMessageStreamReset] c) as (? & ? & ?); [|by destruct c].
  constructor; [by eexists|constructor].
Qed.

Lemma pool_answer_frame (i : nat) (ec : send_result) (c c' : Communicator) (new : called) :
  pool_answer i ec c = Some (c', new) →
  c_buffers c' = c_buffers c ∧ c_executor c' = c_executor c ∧ c_wire c ⊆ c_wire c' ∧
  (results new).*1 ++ waiting (c_sendings c') ≡ₚ waiting (c_sendings c) ∧
  ∃ id r, sendErrorCallback id r (c_inbox c) = (c_inbox c', answers new).
Proof.
  unfold pool_answer. intros Ha. apply bind_Some in Ha as (x & Hx & Ha).
  pose proof (waiting_delete _ _ _ Hx) as Hw. destruct (_ && _); simplify_eq/=.
  - split_and!; [done..| | |by exists "", None].
    + intros y Hy. apply elem_of_app. by left.
    + rewrite waiting_app, (comm (++)). exact Hw.
  - destruct x as [s [|id|k] r]; simplify_eq/=; [by split_and!; [..|exists "", None]| |].
    + destruct (sendErrorCallback id ec (c_inbox c)) as [inb out] eqn:Hs. simplify_eq/=.
      split_and!; [done..|]. by exists id, ec.
    + by split_and!; [..|exists "", None].
Qed.

Lemma executor_run_frame (i : nat) (c c' : Communicator) (m : ServerMessage) (new : called) :
  executor_run i c = Some (c', m, new) →
  c_buffers c' = c_buffers c ∧ c_wire c' = c_wire c ∧ c_sendings c' = c_sendings c ∧
  results new = [] ∧ c_executor c !! i = Some m ∧ c_executor c' = delete i (c_executor c) ∧
  ∃ subs, Layers.onMessage m (c_inbox c) = (c_inbox c', subs, answers new).
Proof.
  unfold executor_run, async_run. intros Hr. apply bind_Some in Hr as ([m' rest] & Hm & Hr).
  apply bind_Some in Hm as (m'' & Hi & ?). simplify_eq.
  destruct (Layers.onMessage m' (c_inbox c)) as [[inb subs] out] eqn:Hon. simplify_eq/=.
  split_and!; [done..|]. eauto.
Qed.

Lemma user_communicate_frame (callback : nat) (msg : ClientMessage) (retries : Z) (c : Communicator) :
  let c' := user_communicate SerializeAsString callback msg retries c in
  c_inbox c' = (communicate callback msg (c_inbox c)).1 ∧ c_buffers c' = c_buffers c ∧
  c_executor c' = c_executor c ∧ waiting (c_sendings c') = waiting (c_sendings c) ∧
  c_wire c' = c_wire c ++ [SerializeAsString (communicate callback msg (c_inbox c)).2].
Proof. simpl. rewrite waiting_app. split_and!; [done..| |done]. apply app_nil_r. Qed.
End frames.

(** ** What the sequencer forwards has arrived *)

Lemma clear_loop_sub (fuel : nat) (b b' : Buffer) (out : list ServerMessage) (r : Z * bool) :
  clear_loop fuel b = (b', out, r) → out ++ m_buffer b' ⊆ m_buffer b.
Proof.
  revert b b' out r. induction fuel as [|fuel IH]; intros b b' out r; simpl; [by intros [= <- <- <-]|].
  destruct (try_pop GreaterSeqNum (m_buffer b)) as [[it rest]|] eqn:Hpop; [|by intros [= <- <- <-]].
  apply (try_pop_Some _ _ GreaterSeqNum_key) in Hpop as [Hperm _].
  assert (it :: rest ⊆ m_buffer b) as Hsub by (intros x; by rewrite Hperm).
  destruct (seqnum it =? m_seqNum b); [destruct (has_end_of_stream it)|destruct (_ <? _)].
  - by intros [= <- <- <-].
  - destruct (clear_loop fuel _) as [[b1 out1] r1] eqn:Hc. apply IH in Hc. simpl in Hc.
    intros [= <- <- <-]. set_solver.
  - by intros [= <- <- <-].
  - intros Hc%IH. set_solver.
Qed.

Lemma onMessage_sub (st st' : buffers) (m : ServerMessage) (evs : list event) (seen : list ServerMessage) :
  (∀ s b, st !! s = Some b → m_buffer b ⊆ seen) → Sequencer.onMessage st m = (st', evs) →
  forwards evs ⊆ seen ++ [m] ∧ (∀ s b, st' !! s = Some b → m_buffer b ⊆ seen ++ [m]).
Proof.
  unfold Sequencer.onMessage. intros Hst.
  destruct (sm_message_stream m) as [[s q]|]; simpl; [|intros [= <- <-]; set_solver].
  set (b := push m _). assert (m_buffer b ⊆ seen ++ [m]) as Hb.
  { unfold b, push. destruct (st !! s) as [b0|] eqn:Hs; simpl; [apply Hst in Hs|];
      destruct (_ <=? _); simpl; set_solver. }
  destruct (clear b) as [[b' out] [n eos]] eqn:Hc. apply clear_loop_sub in Hc. simpl.
  pose proof (forwards_onMessage out s b' n eos) as Hf.
  destruct eos; [|destruct (after_clear s b' n) as [b'' sent] eqn:Hac]; simpl in Hf;
    intros [= <- <-]; rewrite Hf.
  - split; [set_solver|]. intros s' x [_ Hx%Hst]%lookup_delete_Some. set_solver.
  - split; [set_solver|]. intros s' x [[_ <-]|[_ Hx%Hst]]%lookup_insert_Some; [|set_solver].
    pose proof (after_clear_spec s b' n) as Hsp. rewrite Hac in Hsp. destruct Hsp as (_ & -> & _). set_solver.
Qed.

Lemma arrivals_sub (msgs : list ServerMessage) :
  forwards (arrivals ∅ msgs).2 ⊆ msgs ∧
  (∀ s b, (arrivals ∅ msgs).1 !! s = Some b → m_buffer b ⊆ msgs).
Proof.
  induction msgs as [|m msgs [IHf IHb]] using rev_ind.
  { split; [done|]. intros s b Hb. simpl in Hb. by rewrite lookup_empty in Hb. }
  rewrite arrivals_snoc. destruct (arrivals ∅ msgs) as [st evs]. simpl in *.
  destruct (Sequencer.onMessage st m) as [st' evs'] eqn:Hon. simpl.
  destruct (onMessage_sub st st' m evs' msgs IHb Hon) as [Hf Hb]. split; [|done].
  rewrite forwards_app. set_solver.
Qed.

(** ** The invariant *)

Section invariant.
Context (SerializeAsString : ClientMessage → string) (ParseFromString : string → option ServerMessage).
Context (runs : nat → Prop) (seed : Z).
Local Abbreviation step := (step SerializeAsString ParseFromString runs).

(** The messages that the received strings carry, heartbeats left out. *)
Definition parsed (received : list string) : list ServerMessage :=
  omap (binary_onMessage ParseFromString) received.

(** Upwards: the sequencer has seen what was received, and what it forwarded
    was given to the inbox or waits in the executor. *)
Definition upwards (h : history) : Prop :=
  let '(b, evs) := arrivals ∅ (parsed (h_received h)) in
  c_buffers (h_comm h) = b ∧
  h_delivered h ++ c_executor (h_comm h) ≡ₚ forwards evs ∧
  ((∀ i, runs i → i = 0%nat) → h_delivered h ++ c_executor (h_comm h) = forwards evs).

(** Replies are messages the inbox was given. *)
Definition replied (h : history) : Prop :=
  ∀ cb m, (cb, Reply m) ∈ answers (h_calls h) → m ∈ h_delivered h.

(** Downwards: every request went out with its id; every promise waits for
    the pool or was given its result. *)
Definition downwards (h : history) : Prop :=
  (∀ cb msg, h_requests h !! cb = Some msg →
     SerializeAsString (set_message_id (message_id seed cb) msg) ∈ c_wire (h_comm h)) ∧
  (results (h_calls h)).*1 ++ waiting (c_sendings (h_comm h)) ≡ₚ seq 0 (h_promises h).

Definition requests_ok (h : history) : Prop :=
  inbox_ok seed (c_inbox (h_comm h)) (length (h_requests h)) (answers (h_calls h)).

Lemma step_requests_ok (h h' : history) : step h h' → requests_ok h → requests_ok h'.
Proof.
  unfold requests_ok. intros Hs Hok.
  destruct Hs as [c rq p rc dl out msg retries| | |c rq p rc dl out data|c rq p rc dl out it
    |c rq p rc dl out|c rq p rc dl out|c rq p rc dl out i ec c' new Ha|c rq p rc dl out message
    |c rq p rc dl out i c' m new _ Hr|]; simpl in *; try done.
  - rewrite length_app, Nat.add_comm. exact (inbox_ok_communicate seed _ _ _ msg Hok).
  - exact (inbox_step_ok seed _ _ (inbox_subscribe _ _ _ data) Hok).
  - exact (inbox_step_ok seed _ _ (inbox_unsubscribe _ _ _ it) Hok).
  - destruct (sequencer_sends_frame SerializeAsString _ c (periodic_sends (c_buffers c))) as ([Hi _ _] & _).
    unfold communicator_periodic. by rewrite Hi.
  - destruct (pool_answer_frame _ _ _ _ _ Ha) as (_ & _ & _ & _ & id & r & Hse).
    exact (inbox_step_ok seed _ _ (inbox_sent _ _ _ id r _ _ Hse) Hok).
  - unfold pool_onMessage. destruct (binary_onMessage _ _) as [m|]; [|done].
    destruct (Sequencer.onMessage _ m) as [b evs].
    destruct (sequencer_events_frame SerializeAsString evs (set_buffers b c)) as ([-> _ _] & _). done.
  - destruct (executor_run_frame _ _ _ _ _ Hr) as (_ & _ & _ & _ & _ & _ & subs & Hon).
    exact (inbox_step_ok seed _ _ (inbox_received _ _ _ m _ subs _ Hon) Hok).
Qed.

Lemma parsed_snoc (received : list string) (message : string) :
  parsed (received ++ [message]) =
    parsed received ++ option_list (binary_onMessage ParseFromString message).
Proof. unfold parsed. rewrite omap_app. simpl. by destruct (binary_onMessage _ message). Qed.

(** A message is received. *)
Lemma upwards_receive (c : Communicator) rq p rc dl out (message : string) :
  upwards (mk_history c rq p rc dl out) →
  upwards (mk_history (pool_onMessage SerializeAsString ParseFromString message c) rq p
             (rc ++ [message]) dl out).
Proof.
  unfold upwards, pool_onMessage. simpl. rewrite parsed_snoc.
  destruct (binary_onMessage _ message) as [m|]; simpl; [|by rewrite app_nil_r].
  rewrite arrivals_snoc. destruct (arrivals ∅ (parsed rc)) as [b evs]. intros (-> & Hp & Ho).
  destruct (Sequencer.onMessage b m) as [b' evs'].
  destruct (sequencer_events_frame SerializeAsString evs' (set_buffers b' c)) as ([_ -> _] & -> & _).
  simpl. rewrite forwards_app, app_assoc. split_and!; [done|by rewrite Hp|].
  intros H1. by rewrite (Ho H1).
Qed.

Lemma step_upwards (h h' : history) : step h h' → upwards h → upwards h'.
Proof.
  intros Hs.
  destruct Hs as [| | | | | |c rq p rc dl out|c rq p rc dl out i ec c' new Ha
    |c rq p rc dl out message|c rq p rc dl out i c' m new Hi Hr|]; try done.
  - destruct (sequencer_sends_frame SerializeAsString _ c (periodic_sends (c_buffers c)))
      as ([_ Hb _] & He & _).
    unfold upwards. simpl. unfold communicator_periodic. by rewrite Hb, He.
  - destruct (pool_answer_frame _ _ _ _ _ Ha) as (Hb & He & _).
    unfold upwards. simpl. by rewrite Hb, He.
  - apply upwards_receive.
  - destruct (executor_run_frame _ _ _ _ _ Hr) as (Hb & _ & _ & _ & Hm & He & _).
    unfold upwards. simpl. rewrite Hb, He. destruct (arrivals _ _) as [b evs]. intros (-> & Hp & Ho).
    split_and!; [done| |].
    + rewrite <-Hp, <-app_assoc. f_equiv. symmetry. by apply delete_Permutation.
    + intros H1. rewrite <-(Ho H1), <-app_assoc. f_equal. rewrite (H1 i Hi) in Hm |- *.
      destruct (c_executor c) as [|x l]; simplify_eq/=. done.
Qed.

Lemma step_replied (h h' : history) : step h h' → replied h → replied h'.
Proof.
  intros Hs. destruct Hs as [| | | | | | |c rq p rc dl out i ec c' new Ha|
    |c rq p rc dl out i c' m new _ Hr|]; try done; intros Hre cb m' Hin; simpl in *;
    apply elem_of_app in Hin as [Hin|Hin].
  - by apply (Hre cb).
  - destruct (pool_answer_frame _ _ _ _ _ Ha) as (_ & _ & _ & _ & id & r & Hse).
    unfold sendErrorCallback in Hse. repeat case_match; injection Hse as _ Hse; rewrite <-Hse in Hin;
      [by apply list_elem_of_singleton in Hin|by apply elem_of_nil in Hin..].
  - apply elem_of_app. left. by apply (Hre cb).
  - destruct (executor_run_frame _ _ _ _ _ Hr) as (_ & _ & _ & _ & _ & _ & subs & Hon).
    unfold Layers.onMessage in Hon. case_match; injection Hon as _ _ Hon; rewrite <-Hon in Hin;
      [|by apply elem_of_nil in Hin].
    apply list_elem_of_singleton in Hin. simplify_eq. apply elem_of_app. right. by left.
Qed.

Lemma downwards_frame (h h' : history) :
  downwards h → h_requests h' = h_requests h → h_promises h' = h_promises h →
  c_wire (h_comm h) ⊆ c_wire (h_comm h') →
  (results (h_calls h')).*1 ++ waiting (c_sendings (h_comm h')) ≡ₚ
    (results (h_calls h)).*1 ++ waiting (c_sendings (h_comm h)) → downwards h'.
Proof.
  unfold downwards. intros [Hw Hp] -> -> Hsub ->. split; [|done]. intros cb msg Hm. by apply Hsub, Hw.
Qed.

(** A message with a promise is sent. *)
Lemma downwards_send (c : Communicator) rq p rc dl out (message : ClientMessage) (retries : Z) :
  downwards (mk_history c rq p rc dl out) →
  downwards (mk_history (layers_send SerializeAsString message (promise_callback p) retries c)
               rq (S p) rc dl out).
Proof.
  unfold downwards. cbn [h_comm h_calls h_promises h_requests layers_send pool_send c_sendings c_wire]. rewrite waiting_app. intros [Hw Hp]. split.
  - intros cb msg Hm. apply elem_of_app. left. by apply Hw.
  - by rewrite app_assoc, Hp, seq_S.
Qed.

Lemma step_downwards (h h' : history) : step h h' → requests_ok h → downwards h → downwards h'.
Proof.
  intros Hs Hok Hd.
  destruct Hs as [c rq p rc dl out msg retries|c rq p rc dl out msg retries|c rq p rc dl out m msg retry
    | | |c rq p rc dl out|c rq p rc dl out|c rq p rc dl out i ec c' new Ha|c rq p rc dl out message
    |c rq p rc dl out i c' m new _ Hr|c rq p rc dl out msg retries]; try done.
  - unfold downwards, requests_ok in *. cbn [h_comm h_requests h_promises h_calls] in *.
    destruct (user_communicate_frame SerializeAsString (length rq) msg retries c) as (_ & _ & _ & -> & ->).
    destruct Hd as [Hw Hp]. split; [|done]. intros cb m Hm. apply elem_of_app.
    apply lookup_app_Some in Hm as [Hm|[Hl Hm]]; [auto|].
    right. apply list_lookup_singleton_Some in Hm as [Hcb <-]. apply list_elem_of_singleton.
    replace cb with (length rq) by lia. unfold communicate, message_id. simpl.
    by rewrite (inbox_seed _ _ _ _ Hok), (inbox_next _ _ _ _ Hok).
  - by apply downwards_send.
  - by apply downwards_send.
  - destruct (communicator_connect_frame SerializeAsString c) as ([_ _ Hw] & _ & Hs).
    eapply downwards_frame; [exact Hd|done..|]. cbn [h_comm h_calls]. by rewrite Hs.
  - destruct (sequencer_sends_frame SerializeAsString _ c (periodic_sends (c_buffers c)))
      as ([_ _ Hw] & _ & Hs).
    eapply downwards_frame; [exact Hd|done..|]. cbn [h_comm h_calls]. unfold communicator_periodic.
    by rewrite Hs.
  - destruct (pool_answer_frame _ _ _ _ _ Ha) as (_ & _ & Hw & Hs & _).
    eapply downwards_frame; [exact Hd|done..|]. simpl. by rewrite fmap_app, <-app_assoc, Hs.
  - unfold pool_onMessage. destruct (binary_onMessage _ _) as [m|]; [|done].
    destruct (Sequencer.onMessage _ m) as [b evs].
    destruct (sequencer_events_frame SerializeAsString evs (set_buffers b c)) as ([_ _ Hw] & _ & Hs).
    eapply downwards_frame; [exact Hd|done..|]. cbn [h_comm h_calls]. by rewrite Hs.
  - destruct (executor_run_frame _ _ _ _ _ Hr) as (_ & Hw & Hs & Hn & _).
    eapply downwards_frame; [exact Hd|done..| |]; simpl; [by rewrite Hw|].
    by rewrite Hs, Hn, app_nil_r.
  - eapply downwards_frame; [exact Hd|done..| |]; simpl.
    + intros x Hx. apply elem_of_app. by left.
    + rewrite waiting_app. simpl. by rewrite app_nil_r.
Qed.

(** All of it, in every history. *)
Lemma history_ok (h : history) :
  rtc step (start seed) h → requests_ok h ∧ upwards h ∧ replied h ∧ downwards h.
Proof.
  intros Hrtc. apply (rtc_ind_r (R := step) (λ h, requests_ok h ∧ upwards h ∧ replied h ∧ downwards h)
    (start seed)) with (z := h); [|clear|done].
  - split_and!; [apply inbox_ok_new|done|by intros cb m Hin%elem_of_nil|done].
  - intros h1 h2 _ Hs (? & ? & ? & ?).
    split_and!; [by eapply step_requests_ok|by eapply step_upwards|by eapply step_replied|
      by eapply step_downwards].
Qed.

(** ** Send errors *)

(** A string whose send error goes to the inbox is a request with its id. *)
Definition carries_request (rq : list ClientMessage) (x : sending) : Prop :=
  ∀ id, snd_callback x = request_callback id →
  ∃ k request, rq !! k = Some request ∧ id = message_id seed k ∧
    snd_message x = SerializeAsString (set_message_id id request).
Definition sendings_ok (h : history) : Prop :=
  Forall (carries_request (h_requests h)) (c_sendings (h_comm h)).

Lemma carries_other (rq : list ClientMessage) (x : sending) :
  (∀ id, snd_callback x ≠ request_callback id) → carries_request rq x.
Proof. intros Hne id Hid. by destruct (Hne id). Qed.

Lemma sendings_ok_add (rq : list ClientMessage) (l : list sending) (x : sending) :
  Forall (carries_request rq) l → (∀ id, snd_callback x ≠ request_callback id) →
  Forall (carries_request rq) (l ++ [x]).
Proof. intros Hl Hx. apply Forall_app. split; [done|]. by apply Forall_singleton, carries_other. Qed.

Lemma sequencer_events_sendings (rq : list ClientMessage) (evs : list event) (c : Communicator) :
  Forall (carries_request rq) (c_sendings c) →
  Forall (carries_request rq) (c_sendings (sequencer_events SerializeAsString evs c)).
Proof.
  revert c. induction evs as [|e evs IH]; intros c Hc; [done|]. apply IH.
  destruct e; simpl; [done|]. by apply sendings_ok_add.
Qed.

Lemma pool_answer_sendings (rq : list ClientMessage) (i : nat) (ec : send_result)
    (c c' : Communicator) (new : called) :
  Forall (carries_request rq) (c_sendings c) → pool_answer i ec c = Some (c', new) →
  Forall (carries_request rq) (c_sendings c').
Proof.
  unfold pool_answer. intros Hc (x & Hx & Ha)%bind_Some.
  assert (Forall (carries_request rq) (delete i (c_sendings c))) as Hd by by apply Forall_delete.
  destruct (_ && _).
  - simplify_eq/=. apply Forall_app. split; [done|]. apply Forall_singleton.
    exact (Forall_lookup_1 _ _ _ _ Hc Hx).
  - destruct (snd_callback x); simplify_eq/=; [done| |done].
    destruct (sendErrorCallback _ _ _). by simplify_eq.
Qed.

Lemma step_sendings_ok (h h' : history) : step h h' → requests_ok h → sendings_ok h → sendings_ok h'.
Proof.
  unfold sendings_ok, requests_ok. intros Hs Hok Hd.
  destruct Hs as [c rq p rc dl out msg retries| | | | | |c rq p rc dl out
    |c rq p rc dl out i ec c' new Ha|c rq p rc dl out message|c rq p rc dl out i c' m new _ Hr|];
    cbn [h_comm h_requests h_calls] in *; try done; try by apply sendings_ok_add.
  - apply Forall_app. split.
    + eapply Forall_impl; [exact Hd|]. intros x Hx id Hid. destruct (Hx id Hid) as (k & r & Hk & ?).
      exists k, r. split; [|done]. by apply lookup_app_l_Some.
    + apply Forall_singleton. intros id [= <-]. exists (length rq), msg.
      split_and!; [by apply list_lookup_middle| |done].
      unfold communicate, message_id. simpl. by rewrite (inbox_seed _ _ _ _ Hok), (inbox_next _ _ _ _ Hok).
  - by apply sequencer_events_sendings.
  - by eapply pool_answer_sendings.
  - unfold pool_onMessage. destruct (binary_onMessage _ _) as [m|]; [|done].
    destruct (Sequencer.onMessage _ m) as [b evs]. by apply sequencer_events_sendings.
  - by destruct (executor_run_frame _ _ _ _ _ Hr) as (_ & _ & -> & _).
Qed.

Lemma history_sendings_ok (h : history) : rtc step (start seed) h → sendings_ok h.
Proof.
  intros Hrtc. apply (rtc_ind_r (R := step) sendings_ok (start seed)) with (z := h);
    [constructor|clear|done].
  intros h1 h2 Hl Hs IH. apply (step_sendings_ok h1); [done| |done]. by apply history_ok.
Qed.

(** The step in which a request is given a send error. *)
Definition failed_by (h h' : history) (cb : nat) (e : error_code) : Prop :=
  ∃ i x k request,
    c_sendings (h_comm h) !! i = Some x ∧ snd_retries x <= 0 ∧
    pool_answer i (Some e) (h_comm h) = Some (h_comm h', mk_calls [(cb, Failed e)] []) ∧
    h_requests h !! k = Some request ∧ message_id seed k = message_id seed cb ∧
    snd_message x = SerializeAsString (set_message_id (message_id seed k) request) ∧
    (Z.of_nat (length (h_requests h)) <= 65536 → k = cb).

Lemma pool_answer_failed (h : history) (i : nat) (ec : send_result) (c' : Communicator) (new : called)
    (cb : nat) (e : error_code) rq p rc dl out :
  requests_ok h → sendings_ok h → pool_answer i ec (h_comm h) = Some (c', new) →
  (cb, Failed e) ∈ answers new → failed_by h (mk_history c' rq p rc dl out) cb e.
Proof.
  intros Hok Hsend Ha Hin. pose proof Ha as Ha'. unfold pool_answer in Ha'.
  apply bind_Some in Ha' as (x & Hx & Ha').
  pose proof (Forall_lookup_1 _ _ _ _ Hsend Hx) as Hc.
  destruct (_ && _) eqn:Hretry; simplify_eq/=; [by apply elem_of_nil in Hin|].
  destruct (snd_callback x) as [|id|k] eqn:Hcall; simplify_eq/=; try by apply elem_of_nil in Hin.
  destruct (Hc id Hcall) as (k & request & Hk & -> & Hmsg).
  unfold sendErrorCallback in Ha'. destruct ec as [e'|]; simplify_eq/=; [|by apply elem_of_nil in Hin].
  destruct (m_callbacks _ !! _) as [cb'|] eqn:Hcb; simplify_eq/=; [|by apply elem_of_nil in Hin].
  apply list_elem_of_singleton in Hin. simplify_eq.
  destruct (inbox_pending _ _ _ _ Hok _ _ Hcb) as (Hlt & Hid & _).
  apply lookup_lt_Some in Hk as Hlt'. exists i, x, k, request.
  split_and!; [done| |done..|].
  - lia.
  - intros Hn. apply (message_id_inj seed); [lia..|done].
Qed.

(** Only the pool's report on its string gives a request a send error. *)
Lemma step_failed (h h' : history) (cb : nat) (e : error_code) :
  requests_ok h → sendings_ok h → step h h' → (cb, Failed e) ∈ answers (h_calls h') →
  (cb, Failed e) ∈ answers (h_calls h) ∨ failed_by h h' cb e.
Proof.
  intros Hok Hsend Hs Hin. destruct Hs as [| | | | | | |c rq p rc dl out i ec c' new Ha|
    |c rq p rc dl out i c' m new _ Hr|]; simpl in Hin; try (by left);
    apply elem_of_app in Hin as [Hin|Hin]; try (by left).
  - right. by eapply pool_answer_failed.
  - destruct (executor_run_frame _ _ _ _ _ Hr) as (_ & _ & _ & _ & _ & _ & subs & Hon).
    unfold Layers.onMessage in Hon. case_match; injection Hon as _ _ Hon; rewrite <-Hon in Hin;
      [by apply list_elem_of_singleton in Hin|by apply elem_of_nil in Hin].
Qed.
End invariant.

(** ** End to end *)

Section end_to_end.
Context (SerializeAsString : ClientMessage → string) (ParseFromString : string → option ServerMessage).
Context (runs : nat → Prop) (seed : Z).
Local Abbreviation step := (step SerializeAsString ParseFromString runs).

Lemma parsed_elem (received : list string) (m : ServerMessage) :
  m ∈ parsed ParseFromString received → ∃ s, s ∈ received ∧ ParseFromString s = Some m.
Proof.
  unfold parsed. intros (s & Hs & Hm)%list_elem_of_omap. exists s. split; [done|].
  unfold binary_onMessage in Hm. apply bind_Some in Hm as (m' & Hp & Hm). by case_match; simplify_eq.
Qed.

(** The inbox is given only messages that were received. *)
Lemma delivered_received (h : history) (m : ServerMessage) :
  upwards ParseFromString runs h → m ∈ h_delivered h →
  ∃ s, s ∈ h_received h ∧ ParseFromString s = Some m.
Proof.
  unfold upwards. intros Hup Hm. destruct (arrivals_sub (parsed ParseFromString (h_received h))) as [Hsub _].
  destruct (arrivals ∅ _) as [b evs]. destruct Hup as (_ & Hp & _).
  apply parsed_elem, Hsub. simpl. rewrite <-Hp. apply elem_of_app. by left.
Qed.

(** C15: whatever the user, the pool and the executor do, every request is
    answered at most once.  A reply is a message that was received and carries
    the id of the request, after the request was sent with that id.  A send
    error is what the pool reports, with no retry left, on the string of a
    request with that id: among the first 65536 requests, the string of this
    request.  Among them none is lost.  Every promise of a send or a reply waits
    for the pool or was given one result. *)
Theorem communicator_matches (h : history) :
  rtc step (start seed) h →
  NoDup ((answers (h_calls h)).*1) ∧
  (∀ cb m, (cb, Reply m) ∈ answers (h_calls h) →
     sm_message_id m = message_id seed cb ∧
     (∃ s, s ∈ h_received h ∧ ParseFromString s = Some m) ∧
     ∃ request, h_requests h !! cb = Some request ∧
       SerializeAsString (set_message_id (message_id seed cb) request) ∈ c_wire (h_comm h)) ∧
  (∀ h' cb e, step h h' → (cb, Failed e) ∈ answers (h_calls h') →
     (cb, Failed e) ∈ answers (h_calls h) ∨ failed_by SerializeAsString seed h h' cb e) ∧
  (Z.of_nat (length (h_requests h)) <= 65536 → ∀ cb, (cb < length (h_requests h))%nat →
     cb ∈ (answers (h_calls h)).*1 ∨
     m_callbacks (c_inbox (h_comm h)) !! message_id seed cb = Some cb) ∧
  (results (h_calls h)).*1 ++ waiting (c_sendings (h_comm h)) ≡ₚ seq 0 (h_promises h).
Proof.
  intros Hrtc. pose proof (history_sendings_ok _ _ _ _ _ Hrtc) as Hsend.
  destruct (history_ok _ _ _ _ _ Hrtc) as (Hok & Hup & Hre & Hw & Hp).
  pose proof Hok as [_ _ _ Hlog Honce Hall].
  split_and!; [done| |intros h' cb e Hs; by eapply step_failed|done|done]. intros cb m Hin. rewrite Forall_forall in Hlog.
  destruct (Hlog _ Hin) as [Hlt Hid]. split_and!; [done|exact (delivered_received h m Hup (Hre _ _ Hin))|].
  apply lookup_lt_is_Some in Hlt as [request Hrq]. exists request. split; [done|]. by apply Hw.
Qed.

(** C16: of every stream, the messages that reached the inbox and those whose
    task waits in the executor are together, one for one, what the sequencer
    makes of the received bytes: in every life of the stream the messages 0, 1,
    ..., n-1 once each, up to the first that has not arrived, and a new life
    from 0 after the end of the stream.  With an executor that has one thread
    those that reached the inbox come first, in this order. *)
Theorem communicator_in_order (h : history) (s : Z) :
  rtc step (start seed) h →
  Forall valid_seq (parsed ParseFromString (h_received h)) →
  let D := arrived s (h_delivered h) in
  let W := arrived s (c_executor (h_comm h)) in
  ∃ F, sequenced (arrived s (parsed ParseFromString (h_received h))) F ∧
       D ++ W ≡ₚ F ∧ ((∀ i, runs i → i = 0%nat) → D ++ W = F).
Proof.
  intros Hrtc Hv D W. destruct (history_ok _ _ _ _ _ Hrtc) as (_ & Hup & _).
  pose proof (arrivals_sequenced s _ Hv) as Hseq. unfold upwards in Hup.
  destruct (arrivals ∅ _) as [b evs]. destruct Hup as (_ & Hp & Ho).
  exists (forwarded s evs). unfold D, W, forwarded, arrived in *. rewrite <-!filter_app.
  split_and!; [done|by rewrite Hp|]. intros H1. by rewrite (Ho H1).
Qed.

(** A reply that arrives completes its request: the executor has the task
    that answers it. *)
Lemma communicator_completes (h : history) (cb : nat) (s : string) (m : ServerMessage) :
  rtc step (start seed) h → (∀ i, runs i) →
  Z.of_nat (length (h_requests h)) <= 65536 → (cb < length (h_requests h))%nat →
  cb ∉ (answers (h_calls h)).*1 →
  ParseFromString s = Some m → sm_message_id m = message_id seed cb →
  has_processing_status m = false → sm_message_stream m = None →
  ∃ h', rtc step h h' ∧ answers (h_calls h') = answers (h_calls h) ++ [(cb, Reply m)].
Proof.
  intros Hrtc Hruns Hn Hcb Hnot Hparse Hid Hps Hst.
  destruct (history_ok _ _ _ _ _ Hrtc) as ([_ _ _ _ _ Hall] & _).
  destruct (Hall Hn cb Hcb) as [|Hpend]; [done|]. destruct h as [c rq p rc dl out]. simpl in *.
  assert (pool_onMessage SerializeAsString ParseFromString s c =
    set_executor (c_executor c ++ [m]) c) as Hon.
  { unfold pool_onMessage, binary_onMessage. rewrite Hparse. simpl. rewrite Hps. simpl.
    unfold Sequencer.onMessage. rewrite Hst. by destruct c. }
  eexists. split.
  - eapply rtc_l; [apply step_receive with (message := s)|]. rewrite Hon. apply rtc_once.
    eapply (step_run _ _ _ _ _ _ _ _ _ (length (c_executor c)) _ m); [apply Hruns|].
    unfold executor_run, async_run. simpl. rewrite list_lookup_middle by done. simpl.
    unfold Layers.onMessage. rewrite Hid, Hpend. reflexivity.
  - done.
Qed.

(** Each report of the pool ends a send or uses one of its retries. *)
Definition weight (l : list sending) : nat := sum_list_with (λ x, S (Z.to_nat (snd_retries x))) l.

Lemma weight_delete (l : list sending) (i : nat) (x : sending) :
  l !! i = Some x → weight l = (S (Z.to_nat (snd_retries x)) + weight (delete i l))%nat.
Proof.
  revert i. induction l as [|y l IH]; intros [|i] Hi; simplify_eq/=; [done|].
  unfold weight in *. simpl. rewrite (IH i Hi). lia.
Qed.

Lemma pool_answer_weight (i : nat) (ec : send_result) (c c' : Communicator) (new : called) :
  pool_answer i ec c = Some (c', new) → (weight (c_sendings c') < weight (c_sendings c))%nat.
Proof.
  unfold pool_answer. intros Ha. apply bind_Some in Ha as (x & Hx & Ha).
  rewrite (weight_delete _ _ _ Hx).
  destruct (_ && _) eqn:Hb; simplify_eq/=.
  - apply andb_true_iff in Hb as [_ Hr%Z.ltb_lt]. unfold weight. rewrite sum_list_with_app. simpl. lia.
  - destruct (snd_callback x); simplify_eq/=; [lia| |lia].
    destruct (sendErrorCallback _ _ _). simplify_eq/=. lia.
Qed.

(** The pool reports on one of its strings. *)
Inductive answer_step : history → history → Prop :=
| answered c rq p rc dl out i ec c' new :
    pool_answer i ec c = Some (c', new) →
    answer_step (mk_history c rq p rc dl out) (mk_history c' rq p rc dl (add_calls out new)).

Lemma answer_steps (n : nat) (h h' : history) :
  nsteps answer_step n h h' →
  rtc step h h' ∧ (n + weight (c_sendings (h_comm h')) <= weight (c_sendings (h_comm h)))%nat.
Proof.
  induction 1 as [h|n h1 h2 h3 Hs _ [IHr IHw]]; [done|].
  destruct Hs as [c rq p rc dl out i ec c' new Ha]. split.
  - eapply rtc_l; [|exact IHr]. by eapply step_answer.
  - apply pool_answer_weight in Ha. simpl in *. lia.
Qed.

Lemma answer_stuck (h : history) : (∀ h', ¬ answer_step h h') → c_sendings (h_comm h) = [].
Proof.
  destruct h as [c rq p rc dl out]. intros Hstuck. simpl. destruct (c_sendings c) as [|x l] eqn:Hc; [done|].
  destruct (pool_answer 0 None c) as [[c' new]|] eqn:Ha.
  - destruct (Hstuck (mk_history c' rq p rc dl (add_calls out new))). by eapply answered.
  - unfold pool_answer in Ha. by rewrite Hc in Ha.
Qed.

(** Retrying ends: however the pool reports, from any state there are at most
    as many reports as messages and retries left, and once nothing is left to
    report on every promise of a send or reply has been given one result. *)
Lemma communicator_sends_settle (h h' : history) (n : nat) :
  rtc step (start seed) h → nsteps answer_step n h h' →
  (n <= weight (c_sendings (h_comm h)))%nat ∧
  ((∀ h'', ¬ answer_step h' h'') → (results (h_calls h')).*1 ≡ₚ seq 0 (h_promises h')).
Proof.
  intros Hrtc [Hs Hw]%answer_steps. split; [lia|]. intros Hstuck%answer_stuck.
  assert (rtc step (start seed) h') as Hr by (by etrans).
  destruct (history_ok _ _ _ _ _ Hr) as (_ & _ & _ & _ & Hp).
  by rewrite Hstuck, app_nil_r in Hp.
Qed.
End end_to_end.

(** ** Examples *)

(** Histories from lists of actions. *)
Inductive action :=
| Request (msg : ClientMessage) (retries : Z)
| Post (msg : ClientMessage) (retries : Z)
| Report (i : nat) (ec : send_result)
| Receive (message : string)
| Run (i : nat).

Section perform.
Context (SerializeAsString : ClientMessage → string) (ParseFromString : string → option ServerMessage).

Definition act (a : action) (h : history) : option history :=
  let '(mk_history c rq p rc dl out) := h in
  match a with
  | Request msg retries =>
      Some (mk_history (user_communicate SerializeAsString (length rq) msg retries c)
              (rq ++ [msg]) p rc dl out)
  | Post msg retries =>
      Some (mk_history (user_send SerializeAsString p msg retries c) rq (S p) rc dl out)
  | Report i ec =>
      '(c', new) ← pool_answer i ec c; Some (mk_history c' rq p rc dl (add_calls out new))
  | Receive message =>
      Some (mk_history (pool_onMessage SerializeAsString ParseFromString message c) rq p
              (rc ++ [message]) dl out)
  | Run i =>
      '(c', m, new) ← executor_run i c; Some (mk_history c' rq p rc (dl ++ [m]) (add_calls out new))
  end.

Fixpoint perform (l : list action) (h : history) : option history :=
  match l with [] => Some h | a :: l' => h' ← act a h; perform l' h' end.

Lemma act_step (runs : nat → Prop) (a : action) (h h' : history) :
  match a with Run i => runs i | _ => True end → act a h = Some h' →
  step SerializeAsString ParseFromString runs h h'.
Proof.
  destruct h as [c rq p rc dl out], a as [msg r|msg r|i ec|message|i]; simpl; intros Hr Ha.
  - simplify_eq. apply step_communicate.
  - simplify_eq. apply step_send.
  - apply bind_Some in Ha as ([c' new] & Hp & ?). simplify_eq. by eapply step_answer.
  - simplify_eq. apply step_receive.
  - apply bind_Some in Ha as ([[c' m] new] & Hp & ?). simplify_eq. by eapply step_run.
Qed.

Lemma perform_steps (runs : nat → Prop) (l : list action) (h h' : history) :
  Forall (λ a, match a with Run i => runs i | _ => True end) l → perform l h = Some h' →
  rtc (step SerializeAsString ParseFromString runs) h h'.
Proof.
  intros Hl. revert h. induction Hl as [|a l Ha _ IH]; intros h; simpl; [by intros [= ->]|].
  intros (h1 & Hact & Hp)%bind_Some. eapply rtc_l; [by apply (act_step runs a)|by apply IH].
Qed.
End perform.

(** A toy format: a request is its id, a server message is a digit. *)
Definition toy_serialize (m : ClientMessage) : string := cm_message_id m.
Definition toy_reply : ServerMessage := mk_ServerMessage "7" None (server_payload []).
Definition toy_stream (q : Z) : ServerMessage :=
  mk_ServerMessage "" (Some (mk_message_stream 1 q)) (server_payload []).
Definition toy_parse (s : string) : option ServerMessage :=
  if bool_decide (s = "r") then Some toy_reply
  else if bool_decide (s = "0") then Some (toy_stream 0)
  else if bool_decide (s = "1") then Some (toy_stream 1) else None.

Definition toy_request : ClientMessage := make_client (client_payload []).

(** The pool fails once, then takes the request and fails to take the other
    message; the reply comes; a second request is sent. *)
Definition toy_actions : list action :=
  [Request toy_request 1; Report 0 (Some (make_error_code EPROTO)); Post toy_request 0; Report 0 None;
   Report 0 (Some (make_error_code EPROTO)); Receive "r"; Run 0; Request toy_request 0].
Definition toy_history : history :=
  default (start 7) (perform toy_serialize toy_parse toy_actions (start 7)).

(** The pool fails to send the second request. *)
Definition toy_failed : history :=
  default (start 7)
    (act toy_serialize toy_parse (Report 0 (Some (make_error_code EPROTO))) toy_history).

Lemma communicator_matches_witness :
  h_calls toy_failed =
    mk_calls [(0%nat, Reply toy_reply); (1%nat, Failed (make_error_code EPROTO))]
      [(0%nat, Exception (system_error (make_error_code EPROTO)))] ∧
  failed_by toy_serialize 7 toy_history toy_failed 1 (make_error_code EPROTO).
Proof.
  split; [vm_compute; reflexivity|].
  assert (rtc (step toy_serialize toy_parse (λ _, True)) (start 7) toy_history) as Hrtc.
  { apply (perform_steps _ _ _ toy_actions); [repeat constructor|]. vm_compute. reflexivity. }
  destruct (communicator_matches toy_serialize toy_parse (λ _, True) 7 toy_history Hrtc)
    as (_ & _ & Hfail & _).
  destruct (Hfail toy_failed 1%nat (make_error_code EPROTO)) as [Hin|?]; [| |exfalso|done].
  - apply (act_step _ _ _ (Report 0 (Some (make_error_code EPROTO)))); [done|]. vm_compute. reflexivity.
  - vm_compute. right. left.
  - vm_compute in Hin. apply list_elem_of_singleton in Hin. discriminate.
Defined.

(** The second message of a stream comes first. *)
Definition toy_stream_actions (tasks : list nat) : list action :=
  [Receive "1"; Receive "0"] ++ map Run tasks.
Definition toy_stream_history (tasks : list nat) : history :=
  default (start 7) (perform toy_serialize toy_parse (toy_stream_actions tasks) (start 7)).

Lemma communicator_in_order_witness :
  map seqnum (h_delivered (toy_stream_history [0%nat; 0%nat])) = [0; 1] ∧
  ∃ F, sequenced [toy_stream 1; toy_stream 0] F ∧ [toy_stream 0] ++ [toy_stream 1] ≡ₚ F ∧
       ((∀ i, i = 0%nat → i = 0%nat) → [toy_stream 0] ++ [toy_stream 1] = F).
Proof.
  split; [vm_compute; reflexivity|].
  apply (communicator_in_order toy_serialize toy_parse (λ i, i = 0%nat) 7
           (toy_stream_history [0%nat]) 1).
  - apply (perform_steps _ _ _ (toy_stream_actions [0%nat])); [by repeat constructor|].
    vm_compute. reflexivity.
  - by repeat constructor.
Defined.

(** An executor with several threads may run the tasks of one stream in
    another order. *)
Lemma communicator_reorders :
  rtc (step toy_serialize toy_parse (λ _, True)) (start 7) (toy_stream_history [1%nat; 0%nat]) ∧
  map seqnum (arrived 1 (h_delivered (toy_stream_history [1%nat; 0%nat]))) = [1; 0].
Proof.
  split; [|vm_compute; reflexivity].
  apply (perform_steps _ _ _ (toy_stream_actions [1%nat; 0%nat])); [repeat constructor|].
  vm_compute. reflexivity.
Qed.
