(* ===== verification/CommunicatorStreams.v ===== *)
(** * Outgoing streams on the communicator

    Streams.v has the streams and their manager, which hand messages to a
    communicator and get messages from the server through a subscription;
    Communicator.v has the communicator.  Here they are put together as
    src/src/communication/communicator.h does for its [StreamManager]: what a
    stream passes on goes down all the layers, and a message that the inbox is
    given is offered to the manager.  Proved, for any interleaving of the users
    of streams, the other users, the pool and the executor: what is on the wire
    for a stream are its messages under their numbers, a number always with
    the same message; every message of a stream was sent; and until the server
    acknowledges it, a stream keeps it for being sent again. *)

From stdpp Require Import base numbers list gmap strings relations.
From Stdlib Require Import ZArith Lia.
From S2P Require Import Prelude StdStrings PriorityQueue Protocol Sequencer Layers Streams Communicator.
Local Open Scope Z_scope.

(** The layers and the manager; the messages that were given to each stream,
    its closing message included; what the streams passed on; and the greatest
    number that the server acknowledged of a stream. *)
Record stream_system := mk_stream_system {
  ss_layers : history;
  ss_manager : StreamManager;
  ss_log : gmap Z (list ClientMessage);
  ss_passed : list ClientMessage;
  ss_acked : gmap Z Z
}.

Definition acked (id : Z) (a : gmap Z Z) : Z := default (-1) (a !! id).
Definition note_acknowledgement (m : ServerMessage) (a : gmap Z Z) : gmap Z Z :=
  match sm_body m with
  | server_message_acknowledgement id seqNum => <[id := Z.max seqNum (acked id a)]> a
  | _ => a
  end.

(** ** One stream *)

(** A live stream numbered its messages from zero and keeps all of them from
    some number on, which is not after the first unacknowledged one. *)
Definition stream_ok (id : Z) (ts : TypedStream) (log : list ClientMessage) (a : gmap Z Z) : Prop :=
  m_streamId ts = id ∧ m_sequenceId ts = Z.of_nat (length log) ∧ Z.of_nat (length log) <= UINT64_MAX ∧
  ∃ k, (k ≤ length log)%nat ∧ Z.of_nat k <= 1 + acked id a ∧ ts_buffer ts ≡ₚ drop k (numbered id 0 log).

Lemma numbered_snoc (id n : Z) (log : list ClientMessage) (msg : ClientMessage) :
  numbered id n (log ++ [msg]) = numbered id n log ++ [set_stream id (n + Z.of_nat (length log)) msg].
Proof.
  revert n. induction log as [|m log IH]; intros n.
  - simpl. by rewrite Z.add_0_r.
  - simpl. rewrite !numbered_cons, IH. simpl. do 4 f_equal. lia.
Qed.

Lemma numbered_lookup (id : Z) (log : list ClientMessage) (i : nat) (m : ClientMessage) :
  numbered id 0 log !! i = Some m ↔ ∃ m0, log !! i = Some m0 ∧ m = set_stream id (Z.of_nat i) m0.
Proof.
  unfold numbered. rewrite lookup_zip_with_Some. split.
  - intros (q & m0 & -> & [-> _]%lookup_seqZ & Hm). eauto.
  - intros (m0 & Hm & ->). exists (Z.of_nat i), m0. split_and!; [done| |done].
    apply lookup_lt_Some in Hm. apply lookup_seqZ. lia.
Qed.

Lemma stream_ok_send (id : Z) (ts : TypedStream) (log : list ClientMessage) (a : gmap Z Z) (msg : ClientMessage) :
  stream_ok id ts log a → m_sequenceId ts < UINT64_MAX →
  ∃ ts', send msg ts = Some (ts', [set_stream id (Z.of_nat (length log)) msg]) ∧
    stream_ok id ts' (log ++ [msg]) a.
Proof.
  intros (Hid & Hsq & Hmax & k & Hk & Ha & Hb) Hlt. unfold send, saveAndPass. simpl.
  rewrite Hid, Hsq. eexists. split; [done|]. split_and!; simpl; rewrite ?length_app; simpl.
  - done.
  - rewrite u64_small by (unfold UINT64_MAX in *; lia). lia.
  - unfold UINT64_MAX in *. lia.
  - exists k. split_and!; [lia|done|]. rewrite numbered_snoc, drop_app_le by (rewrite length_numbered; lia).
    unfold emplace. rewrite Hb. by rewrite <-Permutation_cons_append.
Qed.

(** What is passed on; a call that throws has passed on nothing. *)
Definition sent_of (r : Try (list ClientMessage)) : list ClientMessage :=
  match r with Value sent => sent | Exception _ => [] end.

(** A request changes nothing and sends copies of what is kept. *)
Lemma stream_ok_request (id lower upper : Z) (ts : TypedStream) (log : list ClientMessage) (a : gmap Z Z) :
  stream_ok id ts log a →
  ∃ ts' r, handleMessageRequest lower upper ts = Some (ts', r) ∧ stream_ok id ts' log a ∧
    sent_of r ⊆ numbered id 0 log ∧
    (reserves lower upper = true → Z.of_nat (length log) <= upper + 1 →
       ∃ sent, r = Value sent ∧ ∀ m, m ∈ ts_buffer ts → lower <= client_seq m → m ∈ sent).
Proof.
  intros (Hid & Hsq & Hmax & k & Hk & Ha & Hb).
  destruct (handleMessageRequest_spec lower upper ts) as (ts' & r & Hr & Hid' & Hsq' & Hb' & Hexc & Hsent).
  exists ts', r. split_and!; [done|split_and!| |].
  - congruence.
  - congruence.
  - done.
  - exists k. split_and!; [done..|]. by rewrite Hb'.
  - assert (∀ m, m ∈ ts_buffer ts → m ∈ numbered id 0 log) as Hin.
    { intros m. rewrite Hb. rewrite <-(take_drop k (numbered id 0 log)) at 2. set_solver. }
    destruct (reserves lower upper); [|rewrite (Hexc eq_refl); set_solver].
    destruct (Hsent eq_refl) as (sent & -> & Hall & Hnone). intros m Hm. simpl in Hm.
    destruct (decide (all_upto upper (ts_buffer ts))) as [Hu|Hn].
    + rewrite (Hall Hu) in Hm. apply list_elem_of_filter in Hm as [_ Hm]. by apply Hin.
    + rewrite (Hnone Hn) in Hm. by apply elem_of_nil in Hm.
  - intros Hres Hup. destruct (Hsent Hres) as (sent & -> & Hall & _). exists sent. split; [done|].
    intros m Hm Hlow. rewrite Hall; [by apply list_elem_of_filter|].
    unfold all_upto. rewrite Forall_forall. intros x Hx. rewrite Hb in Hx.
    apply list_elem_of_lookup in Hx as [i Hx]. rewrite lookup_drop in Hx.
    apply lookup_numbered in Hx. lia.
Qed.

Lemma stream_ok_acknowledged (id seqNum : Z) (ts : TypedStream) (log : list ClientMessage) (a : gmap Z Z) :
  stream_ok id ts log a →
  ∃ ts', handleMessageAcknowledgement seqNum ts = Some ts' ∧
    stream_ok id ts' log (<[id := Z.max seqNum (acked id a)]> a).
Proof.
  intros (Hid & Hsq & Hmax & k & Hk & Ha & Hb).
  destruct (pop_acknowledged_spec (length (ts_buffer ts)) seqNum (ts_buffer ts)) as [Hall Hnone]; [lia|].
  eexists. split; [done|]. split_and!; [done..|]. unfold acked at 1. rewrite lookup_insert_eq. simpl.
  destruct (decide (all_upto seqNum (ts_buffer ts))) as [Hu|Hn].
  - rewrite (Hall Hu). destruct (decide (k = length log)) as [->|Hne].
    + exists (length log). split_and!; [done|lia|]. by rewrite drop_ge by (rewrite length_numbered; lia).
    + exists (length log). split_and!; [done| |by rewrite drop_ge by (rewrite length_numbered; lia)].
      destruct (lookup_lt_is_Some_2 (numbered id 0 log) (length log - 1)) as [m Hm];
        [rewrite length_numbered; lia|].
      unfold all_upto in Hu. rewrite Hb, Forall_forall in Hu.
      assert (client_seq m <= seqNum) as Hle.
      { apply Hu. apply (list_elem_of_lookup_2 _ (length log - 1 - k)). rewrite lookup_drop.
        by replace (k + (length log - 1 - k))%nat with (length log - 1)%nat by lia. }
      apply lookup_numbered in Hm as [Hm _]. lia.
  - exists k. split_and!; [done|lia|]. by rewrite (Hnone Hn).
Qed.

Section stream_system.
Context (SerializeAsString : ClientMessage → string) (ParseFromString : string → option ServerMessage).
Context (runs : nat → Prop) (seed : Z).
Local Abbreviation layers_step := (Communicator.step SerializeAsString ParseFromString runs).

(** What [saveAndPass] gives to the communicator. *)
Fixpoint pass_all (sent : list ClientMessage) (c : Communicator) : Communicator :=
  match sent with
  | [] => c
  | msg :: sent' => pass_all sent' (user_pass SerializeAsString msg 0 c)
  end.
Definition pass_on (sent : list ClientMessage) (h : history) : history :=
  mk_history (pass_all sent (h_comm h)) (h_requests h) (h_promises h) (h_received h) (h_delivered h) (h_calls h).

Inductive ss_step : stream_system → stream_system → Prop :=
(** Anything but the delivery of a message. *)
| ss_others h h' sm log passed a :
    layers_step h h' → h_delivered h' = h_delivered h →
    ss_step (mk_stream_system h sm log passed a) (mk_stream_system h' sm log passed a)
(** The inbox is given a message and offers it to the manager.  An exception
    leaves the thread of the executor; the step covers an executor that goes on. *)
| ss_delivers h h' sm sm' log passed a m handled r :
    layers_step h h' → h_delivered h' = h_delivered h ++ [m] →
    handled = bool_decide (is_Some (m_callbacks (c_inbox (h_comm h)) !! sm_message_id m)) →
    onServerMessage m handled sm = Some (sm', r) →
    ss_step (mk_stream_system h sm log passed a)
            (mk_stream_system (pass_on (sent_of r) h') sm' log (passed ++ sent_of r) (note_acknowledgement m a))
| ss_create h sm sm' log passed a id :
    m_nextStreamId sm < UINT64_MAX → create sm = (sm', id) →
    ss_step (mk_stream_system h sm log passed a) (mk_stream_system h sm' (<[id := []]> log) passed a)
| ss_send h sm sm' log passed a id ts it msg sent :
    m_idMap sm !! id = Some (ts, it) → m_sequenceId ts < UINT64_MAX →
    update_stream [] id sm (send msg) = Some (sm', sent) →
    ss_step (mk_stream_system h sm log passed a)
            (mk_stream_system (pass_on sent h) sm' (<[id := default [] (log !! id) ++ [msg]]> log)
               (passed ++ sent) a)
| ss_destroy h sm sm' log passed a id ts it sent :
    m_idMap sm !! id = Some (ts, it) → m_sequenceId ts < UINT64_MAX →
    destroy id sm = Some (sm', sent) →
    ss_step (mk_stream_system h sm log passed a)
            (mk_stream_system (pass_on sent h) sm'
               (<[id := default [] (log !! id) ++ [make_client client_end_of_stream]]> log)
               (passed ++ sent) a).

Definition ss_start : stream_system := mk_stream_system (start seed) new_StreamManager ∅ [] ∅.

(** ** What is passed on goes out *)

Lemma pass_on_ok (sent : list ClientMessage) (h : history) :
  rtc layers_step h (pass_on sent h) ∧
  c_wire (h_comm (pass_on sent h)) = c_wire (h_comm h) ++ map SerializeAsString sent.
Proof.
  destruct h as [c rq p rc dl out]. unfold pass_on. simpl. revert c.
  induction sent as [|msg sent IH]; intros c; simpl; [by rewrite app_nil_r|].
  destruct (IH (user_pass SerializeAsString msg 0 c)) as [Hr Hw]. split.
  - eapply rtc_l; [|exact Hr]. apply step_pass.
  - rewrite Hw. simpl. by rewrite <-app_assoc.
Qed.

Lemma step_wire (h h' : history) : layers_step h h' → c_wire (h_comm h) ⊆ c_wire (h_comm h').
Proof.
  intros Hs. destruct Hs as [c rq p rc dl out msg retries| | | | |c rq p rc dl out|c rq p rc dl out
    |c rq p rc dl out i ec c' new Ha|c rq p rc dl out message|c rq p rc dl out i c' m new _ Hr|]; simpl;
    try set_solver.
  - by destruct (sequencer_sends_frame SerializeAsString _ c (periodic_sends (c_buffers c))) as ([_ _ Hw] & _).
  - by destruct (pool_answer_frame _ _ _ _ _ Ha) as (_ & _ & Hw & _).
  - unfold pool_onMessage. destruct (binary_onMessage _ _) as [m|]; [|done].
    destruct (Sequencer.onMessage _ m) as [b evs].
    by destruct (sequencer_events_frame SerializeAsString evs (set_buffers b c)) as ([_ _ Hw] & _).
  - destruct (executor_run_frame _ _ _ _ _ Hr) as (_ & Hw & _). by rewrite Hw.
Qed.
(** ** The invariant *)

(** What was passed on is what the streams numbered, and went out. *)
Record passed_ok (h : history) (log : gmap Z (list ClientMessage)) (passed : list ClientMessage) : Prop := {
  passed_numbered m : m ∈ passed → ∃ id l, log !! id = Some l ∧ m ∈ numbered id 0 l;
  numbered_passed id l m : log !! id = Some l → m ∈ numbered id 0 l → m ∈ passed;
  passed_wire m : m ∈ passed → SerializeAsString m ∈ c_wire (h_comm h)
}.

(** A stream with the messages [l] passes on [sent] and has the messages [l']. *)
Lemma passed_ok_more (h : history) (log : gmap Z (list ClientMessage)) (passed : list ClientMessage)
    (id : Z) (l l' sent : list ClientMessage) :
  passed_ok h log passed → log !! id = Some l →
  numbered id 0 l ⊆ numbered id 0 l' → numbered id 0 l' ⊆ numbered id 0 l ++ sent →
  sent ⊆ numbered id 0 l' →
  passed_ok (pass_on sent h) (<[id := l']> log) (passed ++ sent).
Proof.
  intros [Hn Hp Hw] Hl Hold Hnew Hsent. destruct (pass_on_ok sent h) as [_ Hwire]. split.
  - intros m [Hm|Hm]%elem_of_app; [|exists id, l'; rewrite lookup_insert_eq; auto].
    destruct (Hn m Hm) as (id' & k & Hk & Hin). destruct (decide (id' = id)) as [->|Hne].
    + exists id, l'. rewrite lookup_insert_eq. split; [done|]. apply Hold. by simplify_eq.
    + exists id', k. by rewrite lookup_insert_ne.
  - intros id' k m [[<- <-]|[_ Hk]]%lookup_insert_Some Hin; apply elem_of_app; [|left; by eapply Hp].
    apply Hnew, elem_of_app in Hin as [Hin|Hin]; [left; by eapply Hp|by right].
  - intros m Hm. rewrite Hwire. apply elem_of_app. apply elem_of_app in Hm as [Hm|Hm]; [left; auto|right].
    by apply (list_elem_of_fmap_2 SerializeAsString).
Qed.

Lemma passed_ok_wire (h h' : history) (log : gmap Z (list ClientMessage)) (passed : list ClientMessage) :
  c_wire (h_comm h) ⊆ c_wire (h_comm h') → passed_ok h log passed → passed_ok h' log passed.
Proof. intros Hsub [Hn Hp Hw]. split; [done..|]. intros m Hm. by apply Hsub, Hw. Qed.

Record ss_ok (s : stream_system) : Prop := {
  ok_layers : rtc layers_step (start seed) (ss_layers s);
  ok_manager : manager_ok (ss_manager s);
  ok_logged id : is_Some (ss_log s !! id) → id < m_nextStreamId (ss_manager s);
  ok_live id ts it : m_idMap (ss_manager s) !! id = Some (ts, it) →
    ∃ l, ss_log s !! id = Some l ∧ stream_ok id ts l (ss_acked s);
  ok_acked id : -1 <= acked id (ss_acked s);
  ok_passed : passed_ok (ss_layers s) (ss_log s) (ss_passed s)
}.

(** A live stream changes. *)
Lemma ss_ok_stream (h : history) (sm : StreamManager) (log : gmap Z (list ClientMessage))
    (passed : list ClientMessage) (a a' : gmap Z Z) (id : Z) (ts ts' : TypedStream) (it : nat)
    (l l' sent : list ClientMessage) :
  ss_ok (mk_stream_system h sm log passed a) →
  m_idMap sm !! id = Some (ts, it) → log !! id = Some l → stream_ok id ts' l' a' →
  (∀ id', id' ≠ id → acked id' a' = acked id' a) → (∀ id', -1 <= acked id' a') →
  numbered id 0 l ⊆ numbered id 0 l' → numbered id 0 l' ⊆ numbered id 0 l ++ sent →
  sent ⊆ numbered id 0 l' →
  ss_ok (mk_stream_system (pass_on sent h)
    (mk_StreamManager (m_nextStreamId sm) (<[id := (ts', it)]> (m_idMap sm)) (m_streams sm) (m_streamsSlots sm))
    (<[id := l']> log) (passed ++ sent) a').
Proof.
  intros [Hl Hm Hlog Hlive _ Hp] Hid Hlid Hok Ha Ha' Hold Hnew Hsent. simpl in *. split; simpl.
  - etrans; [exact Hl|]. apply pass_on_ok.
  - refine (manager_ok_update sm _ id () () (λ _, Some (ts', ())) Hm _). unfold update_stream. by rewrite Hid.
  - intros id' [x [[<- _]|[_ Hx]]%lookup_insert_Some]; apply Hlog; eauto.
  - intros id' ts0 it0 [[<- [= <- <-]]|[Hne Hx]]%lookup_insert_Some.
    + exists l'. by rewrite lookup_insert_eq.
    + destruct (Hlive _ _ _ Hx) as (k & Hk & Hs). exists k. rewrite lookup_insert_ne by done.
      split; [done|]. unfold stream_ok in *. by rewrite Ha by done.
  - done.
  - by eapply passed_ok_more.
Qed.

(** The layers move and no stream does. *)
Lemma ss_ok_layers (h h' : history) (sm : StreamManager) (log : gmap Z (list ClientMessage))
    (passed : list ClientMessage) (a : gmap Z Z) :
  layers_step h h' → ss_ok (mk_stream_system h sm log passed a) → ss_ok (mk_stream_system h' sm log passed a).
Proof.
  intros Hs [Hl Hm Hlog Hlive Ha Hp]. split; simpl in *; [by eapply rtc_r|done..|].
  eapply passed_ok_wire; [by apply step_wire|done].
Qed.
Lemma acked_note (id id' n : Z) (a : gmap Z Z) :
  id' ≠ id → acked id' (<[id := n]> a) = acked id' a.
Proof. intros Hne. unfold acked. by rewrite lookup_insert_ne. Qed.

Lemma acked_note_bound (m : ServerMessage) (a : gmap Z Z) :
  (∀ id, -1 <= acked id a) → ∀ id, -1 <= acked id (note_acknowledgement m a).
Proof.
  intros Ha id. unfold note_acknowledgement. destruct (sm_body m) as [|id' n| | | |]; try apply Ha.
  destruct (decide (id = id')) as [->|Hne]; [|by rewrite acked_note].
  unfold acked at 1. rewrite lookup_insert_eq. simpl. specialize (Ha id'). lia.
Qed.

(** Nothing is passed on, and only a stream that is gone is acknowledged. *)
Lemma ss_ok_quiet (h : history) (sm : StreamManager) (log : gmap Z (list ClientMessage))
    (passed : list ClientMessage) (a a' : gmap Z Z) :
  (∀ id, is_Some (m_idMap sm !! id) → acked id a' = acked id a) → (∀ id, -1 <= acked id a') →
  ss_ok (mk_stream_system h sm log passed a) → ss_ok (mk_stream_system (pass_on [] h) sm log (passed ++ []) a').
Proof.
  intros Ha Ha' [Hl Hm Hlog Hlive _ Hp]. rewrite app_nil_r. destruct h. split; simpl in *; [done..| |done|done].
  intros id ts it Hid. destruct (Hlive _ _ _ Hid) as (l & Hk & Hs). exists l. split; [done|].
  unfold stream_ok in *. by rewrite Ha by eauto.
Qed.

(** The manager always finishes with a message, and all stays in order. *)
Lemma ss_ok_delivered (h : history) (sm : StreamManager) (log : gmap Z (list ClientMessage))
    (passed : list ClientMessage) (a : gmap Z Z) (m : ServerMessage) (handled : bool) :
  ss_ok (mk_stream_system h sm log passed a) →
  ∃ sm' r, onServerMessage m handled sm = Some (sm', r) ∧
    ss_ok (mk_stream_system (pass_on (sent_of r) h) sm' log (passed ++ sent_of r) (note_acknowledgement m a)).
Proof.
  intros Hok. pose proof (acked_note_bound m a (ok_acked _ Hok)) as Hbound. revert Hbound.
  unfold onServerMessage, Streams.predicate, has_message_request, has_message_acknowledgement,
    callback, note_acknowledgement, update_stream.
  destruct (sm_body m) as [id lower upper|id n| | | |]; simpl; intros Hbound;
    try (eexists _, _; split; [done|by eapply ss_ok_quiet]).
  - destruct (m_idMap sm !! _) as [[ts it]|] eqn:Hid; [|eexists _, _; split; [done|by eapply ss_ok_quiet]].
    destruct (ok_live _ Hok _ _ _ Hid) as (l & Hl & Hs).
    destruct (stream_ok_request id lower upper ts l a Hs) as (ts' & r & Hr & Hs' & Hsub & _).
    rewrite Hr. simpl. eexists _, _. split; [done|]. rewrite <-(insert_id log _ l Hl).
    eapply ss_ok_stream; [exact Hok|exact Hid|exact Hl|exact Hs'|done..| |done]. set_solver.
  - destruct (m_idMap sm !! _) as [[ts it]|] eqn:Hid.
    2:{ eexists _, _; split; [done|]. eapply ss_ok_quiet; [|exact Hbound|exact Hok].
        intros id' [? Hid']. apply acked_note. congruence. }
    destruct (ok_live _ Hok _ _ _ Hid) as (l & Hl & Hs).
    destruct (stream_ok_acknowledged id n ts l a Hs) as (ts' & [= Hr] & Hs').
    rewrite Hr. eexists _, _. split; [done|]. rewrite <-(insert_id log _ l Hl).
    eapply ss_ok_stream; [exact Hok|exact Hid|exact Hl|exact Hs'|intros; by apply acked_note|done..|set_solver|set_solver].
Qed.

Lemma ss_ok_create (h : history) (sm sm' : StreamManager) (log : gmap Z (list ClientMessage))
    (passed : list ClientMessage) (a : gmap Z Z) (id : Z) :
  m_nextStreamId sm < UINT64_MAX → create sm = (sm', id) →
  ss_ok (mk_stream_system h sm log passed a) → ss_ok (mk_stream_system h sm' (<[id := []]> log) passed a).
Proof.
  intros Hmax Hc [Hl Hm Hlog Hlive Ha Hp]. simpl in *.
  destruct (manager_ok_create sm sm' id Hm Hmax Hc) as (Hm' & Hnew & _).
  unfold create in Hc. destruct (match m_streamsSlots sm with [] => _ | _ :: _ => _ end) as [[it streams] slots].
  injection Hc as <- <-. simpl in *. pose proof (ok_next _ Hm).
  assert (log !! m_nextStreamId sm = None) as Hnone.
  { destruct (log !! m_nextStreamId sm) as [l|] eqn:Hlid; [|done]. specialize (Hlog _ ltac:(eauto)). lia. }
  split; simpl; [done..| | |done|].
  - rewrite u64_small by (unfold UINT64_MAX in *; lia).
    intros id' [x [[<- _]|[_ Hx]]%lookup_insert_Some]; [lia|]. specialize (Hlog id' ltac:(eauto)). lia.
  - intros id' ts it' [[<- [= <- <-]]|[Hne Hx]]%lookup_insert_Some.
    + exists []. rewrite lookup_insert_eq. split; [done|]. split_and!; [done..|].
      exists 0%nat. split_and!; [done| |done]. simpl. specialize (Ha (m_nextStreamId sm)). lia.
    + destruct (Hlive _ _ _ Hx) as (k & Hk & Hs). exists k. by rewrite lookup_insert_ne.
  - destruct Hp as [Hn Hpn Hw]. split; [| |done].
    + intros m Hin. destruct (Hn m Hin) as (id' & l & Hk & Hin'). exists id', l.
      rewrite lookup_insert_ne; [done|]. congruence.
    + intros id' l m [[<- <-]|[_ Hk]]%lookup_insert_Some Hin; [by apply elem_of_nil in Hin|by eapply Hpn].
Qed.
Lemma ss_step_ok (s s' : stream_system) : ss_step s s' → ss_ok s → ss_ok s'.
Proof.
  intros [h h' sm log passed a Hs _|h h' sm sm' log passed a m handled r Hs _ _ Hm
    |h sm sm' log passed a id Hmax Hc|h sm sm' log passed a id ts it msg sent Hid Hmax Hu
    |h sm sm' log passed a id ts it sent Hid Hmax Hd] Hok.
  - by eapply ss_ok_layers.
  - apply (ss_ok_layers _ _ _ _ _ _ Hs) in Hok.
    destruct (ss_ok_delivered _ _ _ _ _ m handled Hok) as (sm1 & r1 & Hm' & Hok').
    rewrite Hm in Hm'. by simplify_eq.
  - by eapply ss_ok_create.
  - destruct (ok_live _ Hok _ _ _ Hid) as (l & Hl & Hst). simpl in Hl, Hst. rewrite Hl. simpl.
    destruct (stream_ok_send id ts l a msg Hst Hmax) as (ts' & Hsend & Hst').
    unfold update_stream in Hu. rewrite Hid, Hsend in Hu. simplify_eq/=.
    eapply ss_ok_stream; [exact Hok|exact Hid|exact Hl|exact Hst'|done|apply (ok_acked _ Hok)|..];
      rewrite numbered_snoc; set_solver.
  - destruct (ok_live _ Hok _ _ _ Hid) as (l & Hl & Hst). simpl in Hl, Hst. rewrite Hl. simpl.
    destruct (stream_ok_send id ts l a (make_client client_end_of_stream) Hst Hmax) as (ts' & Hsend & Hst').
    destruct (manager_ok_destroy sm id (ok_manager _ Hok)) as (sm1 & sent1 & Hd1 & Hm1 & _).
    rewrite Hd in Hd1. injection Hd1 as <- <-.
    unfold destroy, close in Hd. rewrite Hid, Hsend in Hd. simplify_eq/=.
    eapply ss_ok_stream in Hok; [|exact Hid|exact Hl|exact Hst'|done|apply (ok_acked _ Hok)|..];
      [|rewrite numbered_snoc; set_solver..].
    destruct Hok as [Hlay _ Hlog Hlive Ha Hp]. split; [exact Hlay|exact Hm1|exact Hlog| |exact Ha|exact Hp].
    intros id' ts0 it0 Hx. simpl in *. apply lookup_delete_Some in Hx as [Hne Hx]. apply (Hlive id' ts0 it0).
    by rewrite lookup_insert_ne.
Qed.

Lemma ss_reachable (s : stream_system) : rtc ss_step ss_start s → ss_ok s.
Proof.
  intros Hr. refine (rtc_ind_r ss_ok _ _ _ _ Hr); [|eauto using ss_step_ok].
  split; simpl; [done|apply manager_ok_new|..]; try (by intros id []); try done.
  split; [by intros m ?%elem_of_nil|done|by intros m ?%elem_of_nil].
Qed.

(** C17: the streams on the communicator, whatever the users, the server, the
    pool and the executor do.  The composition is a history of the layers.
    Everything that the streams passed on was given to the pool.  Every message of
    a stream was passed on under its number, and what was passed on for a
    stream is one of its messages under its number, so that a message that is
    sent again is the same.  A live stream keeps each message that the server
    has not acknowledged, and a request for messages that reaches up to its
    last one, and is for not too many, makes it send all that it keeps from the
    lower bound on. *)
Theorem streams_on_wire (s : stream_system) :
  rtc ss_step ss_start s →
  rtc layers_step (start seed) (ss_layers s) ∧
  (∀ m, m ∈ ss_passed s → SerializeAsString m ∈ c_wire (h_comm (ss_layers s))) ∧
  (∀ id l, ss_log s !! id = Some l →
     (∀ i m, l !! i = Some m → set_stream id (Z.of_nat i) m ∈ ss_passed s) ∧
     (∀ m, m ∈ ss_passed s → stream_id (client_stream m) = id →
        ∃ i m0, l !! i = Some m0 ∧ m = set_stream id (Z.of_nat i) m0) ∧
     (∀ ts it, m_idMap (ss_manager s) !! id = Some (ts, it) →
        (∀ i m, l !! i = Some m → acked id (ss_acked s) < Z.of_nat i →
           set_stream id (Z.of_nat i) m ∈ ts_buffer ts) ∧
        (∀ lower upper, reserves lower upper = true → Z.of_nat (length l) <= upper + 1 →
           ∃ ts' sent, handleMessageRequest lower upper ts = Some (ts', Value sent) ∧
             ∀ m, m ∈ ts_buffer ts → lower <= client_seq m → m ∈ sent))).
Proof.
  intros Hr%ss_reachable. destruct Hr as [Hlay _ _ Hlive _ [Hn Hp Hw]].
  split_and!; [done..|]. intros id l Hl. split_and!.
  - intros i m Hi. apply (Hp id l); [done|].
    apply (list_elem_of_lookup_2 _ i), numbered_lookup. eauto.
  - intros m Hm Hid. destruct (Hn m Hm) as (id' & l' & Hl' & Hin).
    apply list_elem_of_lookup in Hin as [i (m0 & Hi & ->)%numbered_lookup]. simpl in Hid. simplify_eq. eauto.
  - intros ts it Hts. destruct (Hlive _ _ _ Hts) as (l' & Hl' & Hok). simplify_eq. split.
    + destruct Hok as (_ & _ & _ & k & Hk & Ha & Hb). intros i m Hi Hlt. rewrite Hb.
      apply (list_elem_of_lookup_2 _ (i - k)). rewrite lookup_drop.
      replace (k + (i - k))%nat with i by lia. apply numbered_lookup. eauto.
    + intros lower upper Hres Hup.
      destruct (stream_ok_request _ lower upper _ _ _ Hok) as (ts' & r & Hreq & _ & _ & Hall).
      destruct (Hall Hres Hup) as (sent & -> & Hsent). eauto.
Qed.
End stream_system.

(** ** An example

    Two messages are sent on one stream; the server acknowledges the first. *)
Definition toy_acknowledgement : ServerMessage :=
  mk_ServerMessage "" None (server_message_acknowledgement 0 0).
Definition toy_stream_parse (s : string) : option ServerMessage :=
  if bool_decide (s = "a") then Some toy_acknowledgement else None.

Definition toy_created : StreamManager := (create new_StreamManager).1.
Definition toy_send (h : history) (sm : StreamManager) : history * StreamManager * list ClientMessage :=
  match update_stream [] 0 sm (send toy_request) with
  | Some (sm', sent) => (pass_on toy_serialize sent h, sm', sent)
  | None => (h, sm, [])
  end.
Definition toy_first : history * StreamManager * list ClientMessage := toy_send (start 7) toy_created.
Definition toy_second : history * StreamManager * list ClientMessage := toy_send toy_first.1.1 toy_first.1.2.
Definition toy_acknowledged : history :=
  default (start 7) (perform toy_serialize toy_stream_parse [Receive "a"; Run 0] toy_second.1.1).
Definition toy_streams : stream_system :=
  match onServerMessage toy_acknowledgement false toy_second.1.2 with
  | Some (sm, r) =>
      mk_stream_system (pass_on toy_serialize (sent_of r) toy_acknowledged) sm
        (<[0 := [toy_request; toy_request]]> (<[0 := [toy_request]]> (<[0 := []]> ∅)))
        ((([] ++ toy_first.2) ++ toy_second.2) ++ sent_of r) (note_acknowledgement toy_acknowledgement ∅)
  | None => ss_start 7
  end.

Lemma toy_streams_reachable :
  rtc (ss_step toy_serialize toy_stream_parse (λ _, True)) (ss_start 7) toy_streams.
Proof.
  eapply rtc_l; [eapply (ss_create _ _ _ _ _ toy_created); reflexivity|].
  eapply rtc_l; [eapply (ss_send _ _ _ _ _ toy_first.1.2 _ _ _ 0 _ _ toy_request toy_first.2); reflexivity|].
  eapply rtc_l; [eapply (ss_send _ _ _ _ _ toy_second.1.2 _ _ _ 0 _ _ toy_request toy_second.2); reflexivity|].
  eapply rtc_l; [eapply ss_others; [eapply (step_receive _ _ _ _ _ _ _ _ _ "a")|reflexivity]|].
  eapply rtc_once, ss_delivers; [|reflexivity..].
  eapply (step_run _ _ _ _ _ _ _ _ _ 0%nat); [done|]. vm_compute. reflexivity.
Qed.

Lemma streams_on_wire_witness :
  acked 0 (ss_acked toy_streams) = 0 ∧
  set_stream 0 1 toy_request ∈ ts_buffer (default (new_TypedStream 0) (fst <$> m_idMap (ss_manager toy_streams) !! 0)).
Proof.
  split; [vm_compute; reflexivity|].
  destruct (streams_on_wire toy_serialize toy_stream_parse (λ _, True) 7 toy_streams toy_streams_reachable)
    as (_ & _ & Hall).
  destruct (Hall 0 [toy_request; toy_request]) as (_ & _ & Hlive); [vm_compute; reflexivity|].
  destruct (m_idMap (ss_manager toy_streams) !! 0) as [[ts it]|] eqn:Hid; [|by vm_compute in Hid].
  destruct (Hlive ts it eq_refl) as [Hkept _].
  apply (Hkept 1%nat toy_request); vm_compute; reflexivity.
Defined.
