(* ===== verification/Codec.v ===== *)
(** * Framing and the handlers of a connection
      (src/src/communication/codec)

    [PacketEncoder] puts the length of a message in four bytes before it,
    [PacketDecoder] cuts a byte stream at these lengths.  The decoder is called
    by its base class in a loop: as long as it finds a message, the message is
    passed on and the decoder is called again on the rest.  Then the handlers
    of the protocol upgrade and of the handshake. *)

From stdpp Require Import base numbers list strings.
From Stdlib Require Import ZArith Lia Strings.Byte.
From S2P Require Import Prelude StdStrings.
Local Open Scope Z_scope.

(** ** Big-endian numbers of 32 bits *)

Definition byte_of_Z (z : Z) : byte := default x00 (Byte.of_N (Z.to_N (z mod 256))).
Definition Z_of_byte (b : byte) : Z := Z.of_N (Byte.to_N b).

(** The memory of [htonl] of a number. *)
Definition htonl_bytes (n : Z) : bytes :=
  [byte_of_Z (Z.shiftr n 24); byte_of_Z (Z.shiftr n 16); byte_of_Z (Z.shiftr n 8); byte_of_Z n].

(** [cursor.readBE<uint32_t>()]. *)
Definition readBE (b : bytes) : Z :=
  match b with
  | a :: b :: c :: d :: _ =>
      Z.lor (Z.shiftl (Z_of_byte a) 24)
        (Z.lor (Z.shiftl (Z_of_byte b) 16) (Z.lor (Z.shiftl (Z_of_byte c) 8) (Z_of_byte d)))
  | _ => 0
  end.

Definition lengthFieldLength : Z := 4.

(** ** PacketEncoder and PacketDecoder *)

(** A chain of buffers; [length()] is that of the first one, as an [int32_t]
    in network order. *)
Definition encode (chain : list bytes) : bytes :=
  take (Z.to_nat lengthFieldLength) (htonl_bytes (u32 (chainLength (default [] (head chain)))))
    ++ concat chain.

(** [None]: more data is needed; a message and the rest of the buffer.  The sum
    of the lengths is a [uint32_t]. *)
Definition decode (buf : bytes) : Try (option (bytes * bytes)) :=
  if chainLength buf <? lengthFieldLength then Value None
  else
    let messageLength := readBE buf in
    if u32 (messageLength + lengthFieldLength) <=? chainLength buf then
      rest ← trimStart lengthFieldLength buf;
      '(result, rest) ← split messageLength rest;
      Value (Some (result, rest))
    else Value None.

(** The loop of the base class; the fuel is enough because every message takes
    at least the four bytes of its length. *)
Fixpoint decode_loop (fuel : nat) (buf : bytes) : Try (list bytes * bytes) :=
  match fuel with
  | O => Exception runtime_error
  | S fuel' =>
      match decode buf with
      | Exception e => Exception e
      | Value None => Value ([], buf)
      | Value (Some (m, rest)) =>
          '(ms, rest) ← decode_loop fuel' rest;
          Value (m :: ms, rest)
      end
  end.
Definition decode_all (buf : bytes) : Try (list bytes * bytes) := decode_loop (S (length buf)) buf.

(** Data arrives in pieces of any size. *)
Fixpoint feed (buf : bytes) (pieces : list bytes) : Try (list bytes * bytes) :=
  match pieces with
  | [] => Value ([], buf)
  | p :: pieces =>
      '(ms, buf) ← decode_all (buf ++ p);
      '(ms', buf) ← feed buf pieces;
      Value (ms ++ ms', buf)
  end.

(** ** CLProtoUpgradeResponseHandler *)

Fixpoint starts_with (p b : bytes) : bool :=
  match p, b with
  | [], _ => true
  | x :: p', y :: b' => Byte.eqb x y && starts_with p' b'
  | _, [] => false
  end.
Fixpoint contains (p b : bytes) : bool :=
  starts_with p b || match b with [] => false | _ :: b' => contains p b' end.

Definition bytes_of_string (s : string) : bytes := String.list_byte_of_string s.

Definition CRLF : bytes := [x0d; x0a].
Definition CLPROTO_UPGRADE_ENDPOINT : bytes := bytes_of_string "/clproto".
Definition CLPROTO_UPGRADE_RESPONSE_STATUS : bytes := bytes_of_string "HTTP/1.1 101 Switching Protocols".

(** The promise, the buffer left and the buffer that is passed on. *)
Definition upgrade_read (m_promise : option (Try unit)) (buf : bytes)
  : option (Try unit) * bytes * option bytes :=
  match m_promise with
  | Some _ => (m_promise, buf, Some buf)
  | None =>
      if negb (contains (CRLF ++ CRLF) buf) then (None, buf, None)
      else if negb (starts_with CLPROTO_UPGRADE_RESPONSE_STATUS buf)
      then (Some (Exception runtime_error), buf, None)
      else (Some (Value tt), [], Some [])
  end.

Definition makeUpgradeRequest (host : bytes) : bytes :=
  bytes_of_string "GET " ++ CLPROTO_UPGRADE_ENDPOINT ++ bytes_of_string " HTTP/1.1" ++ CRLF
  ++ bytes_of_string "Host: " ++ host ++ CRLF
  ++ bytes_of_string "Connection: upgrade" ++ CRLF
  ++ bytes_of_string "Upgrade: clproto" ++ CRLF ++ CRLF.

(** ** CLProtoHandshakeResponseHandler *)

(** The promise, and the errors that [m_onHandshakeDone] was called with. *)
Record handshake := mk_handshake {
  hs_promise : option (Try unit);
  hs_done : list (option error_code)
}.

(** [Promise::setValue] and [setException] throw on a fulfilled promise. *)
Definition fulfil (r : Try unit) : ST handshake unit := λ s,
  match hs_promise s with
  | Some _ => (s, Exception promise_already_satisfied)
  | None => (mk_handshake (Some r) (hs_done s), Value tt)
  end.
Definition onHandshakeDone (ec : option error_code) : ST handshake unit := λ s,
  (mk_handshake (hs_promise s) (hs_done s ++ [ec]), Value tt).

(** The message that is passed on to the next handler. *)
Definition handshake_read (onHandshakeResponse : bytes → option error_code) (message : bytes)
  : ST handshake bytes := λ s,
  match hs_promise s with
  | Some _ => (s, Value message)
  | None =>
      (_ ← fulfil (Value tt);
       _ ← match onHandshakeResponse message with
           | None => onHandshakeDone None
           | Some ec =>
               _ ← fulfil (Exception runtime_error);
               onHandshakeDone (Some ec)
           end;
       mret message) s
  end.

(** ** Lengths *)

Lemma Z_of_byte_of_Z (z : Z) : Z_of_byte (byte_of_Z z) = z mod 256.
Proof.
  unfold byte_of_Z, Z_of_byte. pose proof (Z.mod_pos_bound z 256 eq_refl) as Hb.
  destruct (Byte.of_N (Z.to_N (z mod 256))) as [b|] eqn:Hof.
  - simpl. apply Byte.to_of_N in Hof. rewrite Hof. lia.
  - exfalso. apply Byte.of_N_None_iff in Hof. lia.
Qed.

Lemma byte_bit (n k i : Z) :
  0 <= k → 0 <= i →
  Z.testbit (Z.shiftl (Z.shiftr n k mod 256) k) i = (k <=? i) && (i <? k + 8) && Z.testbit n i.
Proof.
  intros Hk Hi. rewrite Z.shiftl_spec by done. change 256 with (2 ^ 8).
  destruct (Z.leb_spec k i); simpl; [|apply Z.testbit_neg_r; lia].
  destruct (Z.ltb_spec i (k + 8)); simpl.
  - rewrite Z.mod_pow2_bits_low, Z.shiftr_spec by lia. f_equal. lia.
  - by rewrite Z.mod_pow2_bits_high by lia.
Qed.

Lemma readBE_htonl (n : Z) (r : bytes) : 0 <= n < 4294967296 → readBE (htonl_bytes n ++ r) = n.
Proof.
  intros Hn. simpl. rewrite !Z_of_byte_of_Z. apply Z.bits_inj'. intros i Hi.
  rewrite !Z.lor_spec, !byte_bit by lia.
  replace (n mod 256) with (Z.shiftl (Z.shiftr n 0 mod 256) 0) by (by rewrite Z.shiftr_0_r, Z.shiftl_0_r).
  rewrite byte_bit by lia.
  destruct (decide (i < 32)) as [Hlt|Hge].
  - destruct (Z.testbit n i); rewrite ?andb_false_r; [|done]. rewrite !andb_true_r. lia.
  - assert (Z.testbit n i = false) as ->; [|by rewrite !andb_false_r].
    rewrite <-(Z.mod_small n (2 ^ 32)) by (change (2 ^ 32) with 4294967296; lia).
    apply Z.mod_pow2_bits_high. lia.
Qed.

(** ** Round trip *)

(** The frame of a message in one buffer. *)
Abbreviation frame m := (encode [m]).
Definition frame_ok (m : bytes) : Prop := chainLength m + lengthFieldLength < 4294967296.

Lemma frame_eq (m : bytes) : frame_ok m → frame m = htonl_bytes (chainLength m) ++ m.
Proof.
  unfold frame_ok, lengthFieldLength, encode. intros Hm. pose proof (chainLength_nonneg m).
  simpl head. simpl default. rewrite u32_small by lia. simpl. by rewrite app_nil_r.
Qed.

Lemma chainLength_frame (m : bytes) : frame_ok m → chainLength (frame m) = chainLength m + 4.
Proof. intros Hm. rewrite (frame_eq m Hm). unfold chainLength. simpl. lia. Qed.

Lemma length_frame (m : bytes) : frame_ok m → (4 ≤ length (frame m))%nat.
Proof. intros Hm. rewrite (frame_eq m Hm). simpl. lia. Qed.

Lemma decode_frame (m rest : bytes) : frame_ok m → decode (frame m ++ rest) = Value (Some (m, rest)).
Proof.
  intros Hm. pose proof (chainLength_frame m Hm) as Hlen. pose proof (chainLength_nonneg m).
  pose proof (chainLength_nonneg rest). unfold decode. rewrite chainLength_app, Hlen.
  rewrite (frame_eq m Hm), <-app_assoc. unfold frame_ok, lengthFieldLength in *.
  rewrite (proj2 (Z.ltb_ge (chainLength m + 4 + chainLength rest) 4)) by lia.
  rewrite readBE_htonl, u32_small by lia.
  rewrite (proj2 (Z.leb_le (chainLength m + 4) (chainLength m + 4 + chainLength rest))) by lia.
  unfold trimStart. rewrite (proj2 (Z.leb_le 4 (chainLength (htonl_bytes (chainLength m) ++ m ++ rest))))
    by (rewrite !chainLength_app; change (chainLength (htonl_bytes (chainLength m))) with 4; lia).
  simpl. unfold split. rewrite drop_0, chainLength_app.
  rewrite (proj2 (Z.leb_le (chainLength m) (chainLength m + chainLength rest))) by lia.
  simpl. unfold chainLength. rewrite Nat2Z.id. by rewrite take_app_length, drop_app_length.
Qed.

(** A proper part of a frame is not decoded. *)
Lemma decode_partial (m a b : bytes) :
  frame_ok m → a ++ b = frame m → b ≠ [] → decode a = Value None.
Proof.
  intros Hm Hab Hb. pose proof (chainLength_frame m Hm) as Hlen. rewrite <-Hab, chainLength_app in Hlen.
  assert (0 < chainLength b) as Hb0 by (destruct b; [done|unfold chainLength; simpl; lia]).
  unfold decode, lengthFieldLength. destruct (Z.ltb_spec (chainLength a) 4) as [|Ha]; [done|].
  assert (∃ r, a = htonl_bytes (chainLength m) ++ r) as [r ->].
  { rewrite (frame_eq m Hm) in Hab. exists (drop 4 a). rewrite <-(take_drop 4 a) at 1. f_equal.
    apply (f_equal (take 4)) in Hab. rewrite take_app_le in Hab by (unfold chainLength in Ha; lia).
    by rewrite Hab. }
  pose proof (chainLength_nonneg m). unfold frame_ok, lengthFieldLength in Hm.
  rewrite readBE_htonl, u32_small by lia.
  by rewrite (proj2 (Z.leb_gt (chainLength m + 4) (chainLength (htonl_bytes (chainLength m) ++ r)))) by lia.
Qed.

Lemma decode_loop_good (ms : list bytes) (fuel : nat) (a b : bytes) :
  Forall frame_ok ms → a ++ b = concat (map (λ m, frame m) ms) → (length a < fuel)%nat →
  ∃ ms1 ms2 left, decode_loop fuel a = Value (ms1, left) ∧ ms = ms1 ++ ms2 ∧
    left ++ b = concat (map (λ m, frame m) ms2) ∧ decode left = Value None.
Proof.
  revert fuel a. induction ms as [|m ms IH]; intros fuel a Hms Hab Hfuel;
    cbn [map concat] in Hab.
  { apply app_eq_nil in Hab as [-> ->]. destruct fuel; [simpl in Hfuel; lia|]. by exists [], [], []. }
  apply Forall_cons in Hms as [Hm Hms]. destruct fuel as [|fuel]; [lia|].
  destruct (decide (length (frame m) ≤ length a)%nat) as [Hle|Hgt].
  - assert (∃ a', a = frame m ++ a') as [a' ->].
    { exists (drop (length (frame m)) a). rewrite <-(take_drop (length (frame m)) a) at 1. f_equal.
      apply (f_equal (take (length (frame m)))) in Hab. rewrite take_app_le in Hab by done.
      by rewrite take_app_length in Hab. }
    rewrite <-app_assoc in Hab. apply app_inv_head in Hab.
    destruct (IH fuel a' Hms Hab) as (ms1 & ms2 & left & Hd & -> & Hl & Hn).
    { rewrite length_app in Hfuel. pose proof (length_frame m Hm). lia. }
    exists (m :: ms1), ms2, left. cbn [decode_loop]. rewrite decode_frame by done. by rewrite Hd.
  - exists [], (m :: ms), a. cbn [decode_loop].
    assert (decode a = Value None) as Hn; [|by rewrite Hn].
    apply (decode_partial m a (drop (length a) (frame m)) Hm).
    + rewrite <-(take_drop (length a) (frame m)) at 2. f_equal.
      apply (f_equal (take (length a))) in Hab. rewrite take_app_length in Hab.
      by rewrite take_app_le in Hab by lia.
    + intros Hnil. apply (f_equal length) in Hnil. rewrite length_drop in Hnil. cbn [length] in Hnil. lia.
Qed.

Lemma feed_good (pieces : list bytes) (ms : list bytes) (buf : bytes) :
  Forall frame_ok ms → buf ++ concat pieces = concat (map (λ m, frame m) ms) → decode buf = Value None →
  feed buf pieces = Value (ms, []).
Proof.
  revert ms buf. induction pieces as [|p pieces IH]; intros ms buf Hms Hcat Hn;
    cbn [concat] in Hcat.
  - rewrite app_nil_r in Hcat. destruct ms as [|m ms]; cbn [map concat] in Hcat; [by subst buf|].
    apply Forall_cons in Hms as [Hm _]. by rewrite Hcat, decode_frame in Hn.
  - rewrite app_assoc in Hcat.
    destruct (decode_loop_good ms (S (length (buf ++ p))) (buf ++ p) (concat pieces) Hms Hcat ltac:(lia))
      as (ms1 & ms2 & left & Hd & -> & Hl & Hn'). apply Forall_app in Hms as [_ Hms].
    simpl. unfold decode_all. rewrite Hd. simpl. by rewrite (IH ms2 left Hms Hl Hn').
Qed.

(** C12: framing is exact.  Messages that are encoded and sent one after another
    are decoded to the same messages in the same order, with nothing left
    over, into whatever pieces the stream is cut on its way; for all messages
    whose length and length field fit in 32 bits. *)
Theorem codec_roundtrip (ms pieces : list bytes) :
  Forall (λ m, chainLength m + lengthFieldLength < 4294967296) ms →
  concat pieces = concat (map (λ m, encode [m]) ms) →
  feed [] pieces = Value (ms, []).
Proof. intros Hms Hcat. by apply feed_good. Qed.

Lemma codec_roundtrip_witness :
  feed [] [[x00; x00]; [x00; x01; x61; x00; x00]; [x00; x00]] = Value ([[x61]; []], []).
Proof.
  apply (codec_roundtrip [[x61]; []] [[x00; x00]; [x00; x01; x61; x00; x00]; [x00; x00]]);
    [|reflexivity]. apply Forall_cons. split; [done|]. by apply Forall_singleton.
Defined.

(** A handshake response that is refused is never reported: the promise was
    just fulfilled, setting its exception throws, and [m_onHandshakeDone] is
    not called with the error. *)
Lemma handshake_refusal_not_reported (onHandshakeResponse : bytes → option error_code) (message : bytes)
    (ec : error_code) :
  onHandshakeResponse message = Some ec →
  handshake_read onHandshakeResponse message (mk_handshake None [])
  = (mk_handshake (Some (Value tt)) [], Exception promise_already_satisfied).
Proof. intros Hec. unfold handshake_read. simpl. unfold mbind, ST_bind. simpl. by rewrite Hec. Qed.

