(* ===== verification/Logging.v ===== *)
(** * Logging (src/src/logging.h, src/src/communication/codec/packetLogger.h)

    The texts that the log macros make of numbers, lists, maps and byte strings,
    the stack traces, and the handler that logs the packets of a connection.
    The log itself is the list of its lines; the frames of the stack and the
    demangling of names are those of the C library and parameters here.
    Proved: what is logged can be read back, a line of a stack trace names the
    module, the function and the offset of its frame, and the packet logger
    passes on what it gets. *)

From stdpp Require Import base numbers list strings.
From Stdlib Require Import ZArith Lia Ascii Strings.Byte.
From S2P Require Import Prelude StdStrings Codec.
Local Open Scope Z_scope.

(** ** Numbers, lists and maps *)

Definition hex_char (d : Z) : ascii := if d <? 10 then digit_char d else ascii_of_N (87 + Z.to_N d).

(** [width] digits in a base. *)
Fixpoint base_digits (base : Z) (width : nat) (n : Z) : string :=
  match width with
  | O => EmptyString
  | S k => (base_digits base k (n / base) ++ String (hex_char (n mod base)) EmptyString)%string
  end.

(** [std::oct] and [std::hex]: no leading zeros. *)
Fixpoint base_text (base : Z) (fuel : nat) (n : Z) : string :=
  match fuel with
  | O => EmptyString
  | S k =>
      if n <? base then String (hex_char n) EmptyString
      else (base_text base k (n / base) ++ String (hex_char (n mod base)) EmptyString)%string
  end.

(** [digits] is the number of value bits of the type: 31 of an [int], whose
    sign a bitset of that size does not show. *)
Definition LOG_BIN (digits : nat) (x : Z) : string := (base_digits 2 digits x ++ "b")%string.
(** [bits] is the size of the type: a negative value is shown as the unsigned
    one with its bits. *)
Definition LOG_OCT (bits : nat) (x : Z) : string := ("0" ++ base_text 8 bits (x mod 2 ^ Z.of_nat bits))%string.
Definition LOG_HEX (bits : nat) (x : Z) : string := ("0x" ++ base_text 16 bits (x mod 2 ^ Z.of_nat bits))%string.
Definition LOG_VEC (x : list string) : string := ("[" ++ String.concat "," x ++ "]")%string.

(** The map as the list of its entries in the order of the iteration. *)
Fixpoint mapToString_loop (map : list (string * string)) (result : string) : string :=
  match map with
  | [] => result
  | (k, v) :: map' => mapToString_loop map' (result ++ (k ++ " => " ++ v ++ ", "))%string
  end.
Definition mapToString (map : list (string * string)) : string :=
  let result := mapToString_loop map "{ " in
  (String.substring 0 (String.length result - 2) result ++ " }")%string.

Definition containerToErlangBinaryString (bytes : bytes) : string :=
  ("<<" ++ String.concat "," (map (λ byte, to_string (Z_of_byte byte)) bytes) ++ ">>")%string.

(** ** Stack traces *)

(** The scan of one line for the parentheses and the sign around the name. *)
Fixpoint scan (i : nat) (s : string) (begin_name begin_offset : option nat)
  : option nat * option nat * option nat :=
  match s with
  | EmptyString => (begin_name, begin_offset, None)
  | String c s' =>
      if Ascii.eqb c "(" then scan (S i) s' (Some i) begin_offset
      else if Ascii.eqb c "+" then scan (S i) s' begin_name (Some i)
      else if Ascii.eqb c ")" && bool_decide (is_Some begin_offset)
      then (begin_name, begin_offset, Some i)
      else scan (S i) s' begin_name begin_offset
  end.

Definition newline : string := String "010" EmptyString.

(** [demangle]: the readable name, if the name is a mangled one. *)
Definition frame_line (demangle : string → option string) (s : string) : string :=
  let whole := ("  " ++ s ++ newline)%string in
  match scan 0 s None None with
  | (Some begin_name, Some begin_offset, Some end_offset) =>
      if (begin_name <? begin_offset)%nat then
        let name := String.substring (S begin_name) (begin_offset - S begin_name) s in
        let offset := String.substring (S begin_offset) (end_offset - S begin_offset) s in
        let function := match demangle name with Some f => f | None => (name ++ "()")%string end in
        ("  " ++ String.substring 0 begin_name s ++ " : " ++ function ++ "+" ++ offset ++ newline)%string
      else whole
  | _ => whole
  end.

Definition max_frames : nat := 63.

(** [stack]: the lines of all frames, that of the function itself first;
    [backtrace] gives as many as fit into the array. *)
Definition print_stacktrace (demangle : string → option string) (stack : list string) : string :=
  match take (max_frames + 1) stack with
  | [] => ("  <empty, possibly corrupt>" ++ newline)%string
  | _ :: symbollist => String.concat "" (map (frame_line demangle) symbollist)
  end.

(** ** The packet logger

    Lines are made only when the verbosity [FLAGS_v] is high enough.  The
    handler gets a chain of buffers and passes one buffer on; a chain to write
    has a buffer, and an empty queue has no front. *)
Definition packet_line (what : string) (packet : bytes) : string :=
  (what ++ " packet message: " ++ containerToErlangBinaryString packet)%string.

Definition logger_write (FLAGS_v : Z) (buf : list bytes) : list string * Try (list bytes) :=
  match buf with
  | [] => ([], Exception undefined_behaviour)
  | _ :: _ =>
      let buf := concat buf in
      (if 4 <=? FLAGS_v then [packet_line "Sending" buf] else [], Value [buf])
  end.

Definition logger_read (FLAGS_v : Z) (buf : list bytes) : list string * Try (list bytes) :=
  match buf with
  | [] => ([], if 4 <=? FLAGS_v then Exception undefined_behaviour else Value [])
  | _ :: _ =>
      let buf := concat buf in
      (if 4 <=? FLAGS_v then [packet_line "Received" buf] else [], Value [buf])
  end.

(** ** Reading back *)

(** The value of a text in a base. *)
Definition hex_value (c : ascii) : Z := if is_digit c then digit_value c else Z.of_N (N_of_ascii c) - 87.
Fixpoint base_value (base acc : Z) (s : string) : Z :=
  match s with EmptyString => acc | String c s' => base_value base (acc * base + hex_value c) s' end.

Lemma hex_value_char (d : Z) : 0 <= d < 16 → hex_value (hex_char d) = d.
Proof.
  intros Hd. unfold hex_value, hex_char. destruct (Z.ltb_spec d 10) as [Hlt|Hge].
  - destruct (digit_char_spec d) as [-> ->]; [lia|done].
  - assert (N_of_ascii (ascii_of_N (87 + Z.to_N d)) = (87 + Z.to_N d)%N) as Hn
      by (apply N_ascii_embedding; lia).
    unfold is_digit. rewrite Hn. destruct (Z.leb_spec (Z.of_N (87 + Z.to_N d)) 57); [lia|].
    rewrite andb_false_r. lia.
Qed.

Lemma base_value_app (base acc : Z) (s t : string) :
  base_value base acc (s ++ t)%string = base_value base (base_value base acc s) t.
Proof. revert acc. induction s as [|c s IH]; intros acc; [done|]. apply IH. Qed.

Lemma base_digits_value (base : Z) (width : nat) (n : Z) :
  0 < base <= 16 → base_value base 0 (base_digits base width n) = n mod base ^ Z.of_nat width.
Proof.
  intros Hb. revert n. induction width as [|k IH]; intros n; [by rewrite Z.mod_1_r|]. simpl.
  rewrite base_value_app, IH. simpl. rewrite hex_value_char by (pose proof (Z.mod_pos_bound n base); lia).
  rewrite Nat2Z.inj_succ, Z.pow_succ_r, Z.rem_mul_r by lia. lia.
Qed.

Lemma base_text_value (base : Z) (fuel : nat) (n : Z) :
  1 < base <= 16 → 0 <= n < base ^ Z.of_nat fuel → base_value base 0 (base_text base fuel n) = n.
Proof.
  intros Hb. revert n. induction fuel as [|k IH]; intros n Hn; [simpl in *; lia|]. simpl.
  rewrite Nat2Z.inj_succ, Z.pow_succ_r in Hn by lia.
  destruct (Z.ltb_spec n base); simpl; [by rewrite hex_value_char by lia|].
  pose proof (Z.mod_pos_bound n base).
  rewrite base_value_app, IH by (split; [apply Z.div_pos; lia|apply Z.div_lt_upper_bound; lia]). simpl.
  rewrite hex_value_char by lia. pose proof (Z.div_mod n base). lia.
Qed.

(** The bytes of an Erlang binary. *)
Definition inner_value (inner : string) : option bytes :=
  if bool_decide (inner = EmptyString) then Some []
  else mapM (λ w, match stol w with Value n => Some (byte_of_Z n) | Exception _ => None end)
         (split_keep "," inner).
Definition binary_value (s : string) : option bytes :=
  match s with
  | String "<" (String "<" t) => inner_value (String.substring 0 (String.length t - 2) t)
  | _ => None
  end.

Lemma substring_app_l (s t : string) : String.substring 0 (String.length s) (s ++ t)%string = s.
Proof. induction s as [|c s IH]; [by destruct t|]. simpl. by rewrite IH. Qed.

Lemma substring_app_r (s t : string) (k n : nat) :
  String.substring (String.length s + k) n (s ++ t)%string = String.substring k n t.
Proof. induction s as [|c s IH]; [done|]. exact IH. Qed.

Lemma string_length_app (s t : string) :
  String.length (s ++ t)%string = (String.length s + String.length t)%nat.
Proof. induction s as [|c s IH]; [done|]. simpl. by rewrite IH. Qed.

Lemma split_keep_concat (w : string) (l : list string) :
  Forall (λ w, free_of "," w = true) (w :: l) → split_keep "," (String.concat "," (w :: l)) = w :: l.
Proof.
  revert w. induction l as [|w' l IH]; intros w [Hw Hl]%Forall_cons; [by apply split_keep_free|].
  change (String.concat "," (w :: w' :: l)) with (w ++ String "," (String.concat "," (w' :: l)))%string.
  rewrite split_keep_app by done. by rewrite IH.
Qed.

Lemma free_of_digits (c : ascii) (s : string) : is_digit c = false → all_digits s = true → free_of c s = true.
Proof.
  intros Hc. induction s as [|a s IH]; [done|]. simpl. intros [Ha Hs]%andb_true_iff.
  rewrite IH, andb_true_r by done. apply negb_true_iff. apply Ascii.eqb_neq. congruence.
Qed.

Lemma Z_of_byte_bounds (b : byte) : 0 <= Z_of_byte b < 256.
Proof. unfold Z_of_byte. pose proof (Byte.to_N_bounded b). lia. Qed.

Lemma byte_of_Z_of_byte (b : byte) : byte_of_Z (Z_of_byte b) = b.
Proof.
  unfold byte_of_Z. rewrite Z.mod_small by apply Z_of_byte_bounds.
  unfold Z_of_byte. by rewrite N2Z.id, Byte.of_to_N.
Qed.

Lemma byte_words (b : bytes) :
  let words := map (λ x, to_string (Z_of_byte x)) b in
  Forall (λ w, free_of "," w = true ∧ w ≠ EmptyString) words ∧
  mapM (λ w, match stol w with Value n => Some (byte_of_Z n) | Exception _ => None end) words = Some b.
Proof.
  induction b as [|x b [IHw IHv]]; [done|]. simpl in *. pose proof (Z_of_byte_bounds x).
  destruct (to_string_digits (Z_of_byte x)) as (Hd & _ & Hne); [lia|].
  split; [constructor; [|done]; split; [by apply free_of_digits|done]|].
  rewrite stol_to_string by (unfold OFF_MAX; lia). simpl. by rewrite byte_of_Z_of_byte, IHv.
Qed.

(** A byte string is read back from its text. *)
Lemma erlang_binary_value (b : bytes) : binary_value (containerToErlangBinaryString b) = Some b.
Proof.
  unfold containerToErlangBinaryString. destruct (byte_words b) as [Hw Hv].
  set (words := map _ b) in *. set (inner := String.concat "," words).
  change (binary_value ("<<" ++ ?t)%string) with (inner_value (String.substring 0 (String.length t - 2) t)).
  replace (String.length (inner ++ ">>") - 2)%nat with (String.length inner)
    by (rewrite string_length_app; simpl; lia).
  rewrite substring_app_l. unfold inner_value. subst inner. destruct words as [|w l] eqn:Hwords; [by rewrite bool_decide_eq_true_2|].
  rewrite bool_decide_eq_false_2.
  - rewrite split_keep_concat; [done|]. eapply Forall_impl; [exact Hw|]. by intros ? [].
  - apply Forall_cons in Hw as [[_ Hne] _]. by destruct w, l.
Qed.

(** The text of a map that is not empty lists its entries; that of an empty map
    lacks the opening brace. *)
Lemma mapToString_loop_spec (l : list (string * string)) (kv : string * string) (result : string) :
  mapToString_loop (kv :: l) result =
  (result ++ String.concat ", " (map (λ kv, kv.1 ++ " => " ++ kv.2)%string (kv :: l)) ++ ", ")%string.
Proof.
  revert kv result. induction l as [|kv' l IH]; intros [k v] result.
  - simpl. by rewrite !string_app_assoc'.
  - change (mapToString_loop ((k, v) :: kv' :: l) result)
      with (mapToString_loop (kv' :: l) (result ++ (k ++ " => " ++ v ++ ", "))%string).
    rewrite IH. set (t := map _ (kv' :: l)).
    change (String.concat ", " (map _ ((k, v) :: kv' :: l)))
      with ((k ++ " => " ++ v) ++ ", " ++ String.concat ", " t)%string.
    by rewrite !string_app_assoc'.
Qed.

Lemma map_text (kv : string * string) (l : list (string * string)) :
  mapToString [] = " }"%string ∧
  mapToString (kv :: l) =
    ("{ " ++ String.concat ", " (map (λ kv, kv.1 ++ " => " ++ kv.2)%string (kv :: l)) ++ " }")%string.
Proof.
  split; [done|]. unfold mapToString. rewrite mapToString_loop_spec, <-string_app_assoc'.
  set (t := ("{ " ++ _)%string). rewrite string_length_app. simpl String.length at 2.
  replace (String.length t + 2 - 2)%nat with (String.length t) by lia.
  rewrite substring_app_l. subst t. by rewrite string_app_assoc'.
Qed.

(** Numbers are read back from their texts: all bits of a binary text, and the
    bits of the type of an octal or hexadecimal one. *)
Lemma number_texts (digits bits : nat) (x : Z) :
  base_value 2 0 (base_digits 2 digits x) = x mod 2 ^ Z.of_nat digits ∧
  base_value 8 0 (base_text 8 bits (x mod 2 ^ Z.of_nat bits)) = x mod 2 ^ Z.of_nat bits ∧
  base_value 16 0 (base_text 16 bits (x mod 2 ^ Z.of_nat bits)) = x mod 2 ^ Z.of_nat bits.
Proof.
  pose proof (Z.mod_pos_bound x (2 ^ Z.of_nat bits) ltac:(apply Z.pow_pos_nonneg; lia)).
  pose proof (Z.pow_le_mono_l 2 8 (Z.of_nat bits)). pose proof (Z.pow_le_mono_l 2 16 (Z.of_nat bits)).
  split_and!; [by apply base_digits_value|apply base_text_value; lia..].
Qed.

(** ** Lines of stack traces *)

(** The scan passes over a text without a closing parenthesis. *)
Lemma scan_app (s t : string) (i : nat) (begin_name begin_offset : option nat) :
  free_of ")" s = true →
  ∃ begin_name' begin_offset',
    scan i (s ++ t) begin_name begin_offset = scan (i + String.length s) t begin_name' begin_offset' ∧
    (free_of "(" s = true → begin_name' = begin_name) ∧ (free_of "+" s = true → begin_offset' = begin_offset).
Proof.
  revert i begin_name begin_offset. induction s as [|c s IH]; intros i bn bo; simpl.
  - intros _. exists bn, bo. by rewrite Nat.add_0_r.
  - intros [Hc Hs]%andb_true_iff. apply negb_true_iff in Hc. rewrite Hc. rewrite andb_false_l.
    destruct (Ascii.eqb c "(") eqn:Ho; [|destruct (Ascii.eqb c "+") eqn:Hp].
    + destruct (IH (S i) (Some i) bo Hs) as (bn' & bo' & -> & _ & Hb). exists bn', bo'.
      rewrite Nat.add_succ_r. split_and!; [done..|]. by intros [_ ?]%andb_true_iff; auto.
    + destruct (IH (S i) bn (Some i) Hs) as (bn' & bo' & -> & Hb & _). exists bn', bo'.
      rewrite Nat.add_succ_r. split_and!; [done|..|done]. by simpl.
    + destruct (IH (S i) bn bo Hs) as (bn' & bo' & -> & Hb & Hb'). exists bn', bo'.
      by rewrite Nat.add_succ_r.
Qed.

Lemma scan_frame (module name offset rest : string) :
  free_of ")" module = true → free_of "(" name = true → free_of ")" name = true →
  free_of "(" offset = true → free_of "+" offset = true → free_of ")" offset = true →
  let begin_name := String.length module in
  let begin_offset := (S begin_name + String.length name)%nat in
  scan 0 (module ++ "(" ++ name ++ "+" ++ offset ++ ")" ++ rest) None None =
  (Some begin_name, Some begin_offset, Some (S begin_offset + String.length offset)%nat).
Proof.
  intros Hm Hn Hn' Ho Ho' Ho'' begin_name begin_offset.
  destruct (scan_app module ("(" ++ name ++ "+" ++ offset ++ ")" ++ rest) 0 None None Hm)
    as (bn1 & bo1 & -> & _ & _). simpl.
  destruct (scan_app name ("+" ++ offset ++ ")" ++ rest) (S (String.length module))
              (Some (String.length module)) bo1 Hn') as (bn2 & bo2 & Hscan & Hbn & _).
  etransitivity; [exact Hscan|]. rewrite Hbn by done.
  destruct (scan_app offset (")" ++ rest) (S begin_offset) (Some begin_name) (Some begin_offset) Ho'')
    as (bn3 & bo3 & Hscan' & Hbn' & Hbo').
  etransitivity; [exact Hscan'|]. rewrite Hbn', Hbo' by done. done.
Qed.

(** A line as the C library writes it gives the module, the readable name of
    the function and the offset. *)
Lemma frame_line_parts (demangle : string → option string) (module name offset rest : string) :
  free_of ")" module = true → free_of "(" name = true → free_of ")" name = true →
  free_of "(" offset = true → free_of "+" offset = true → free_of ")" offset = true →
  frame_line demangle (module ++ "(" ++ name ++ "+" ++ offset ++ ")" ++ rest) =
  ("  " ++ module ++ " : " ++ default (name ++ "()") (demangle name) ++ "+" ++ offset ++ newline)%string.
Proof.
  intros Hm Hn Hn' Ho Ho' Ho''. unfold frame_line. rewrite scan_frame by done.
  rewrite (proj2 (Nat.ltb_lt _ _)) by lia. rewrite substring_app_l.
  replace (S (String.length module)) with (String.length module + 1)%nat by lia.
  rewrite substring_app_r. change (String.substring 1 ?n ("(" ++ ?t)) with (String.substring 0 n t).
  replace (String.length module + 1 + String.length name - (String.length module + 1))%nat
    with (String.length name) by lia.
  rewrite substring_app_l.
  set (o := (String.length module + 1 + String.length name)%nat).
  replace (S o + String.length offset - S o)%nat with (String.length offset) by lia.
  replace (S o) with (String.length module + (S (String.length name + 1)))%nat by (subst o; lia).
  rewrite substring_app_r.
  change (String.substring (S ?k) ?n ("(" ++ ?t)) with (String.substring k n t).
  rewrite substring_app_r. change (String.substring 1 ?n ("+" ++ ?t)) with (String.substring 0 n t).
  rewrite substring_app_l. by destruct (demangle name).
Qed.

(** ** The log of a connection *)

(** What follows the beginning of a line. *)
Definition packet_of_line (what line : string) : option bytes :=
  binary_value (String.substring (String.length (what ++ " packet message: ")) (String.length line) line).

Lemma packet_of_packet_line (what : string) (packet : bytes) :
  packet_of_line what (packet_line what packet) = Some packet.
Proof.
  unfold packet_of_line, packet_line. set (t := containerToErlangBinaryString packet).
  rewrite <-string_app_assoc'. set (s := (what ++ " packet message: ")%string).
  rewrite <-(Nat.add_0_r (String.length s)) at 1. rewrite substring_app_r, substring_all.
  - apply erlang_binary_value.
  - rewrite string_length_app. lia.
Qed.

(** The handler changes no byte on either way; when it is asked to log, the
    packets can be read from the log. *)
Lemma packet_log_roundtrip (FLAGS_v : Z) (packets : list (list bytes)) :
  Forall (λ buf, buf ≠ []) packets → 4 <= FLAGS_v →
  (∀ buf, buf ∈ packets →
     (logger_write FLAGS_v buf).2 = Value [concat buf] ∧ (logger_read FLAGS_v buf).2 = Value [concat buf]) ∧
  mapM (packet_of_line "Sending") (concat (map (λ buf, (logger_write FLAGS_v buf).1) packets)) =
    Some (map (λ buf, concat buf) packets) ∧
  mapM (packet_of_line "Received") (concat (map (λ buf, (logger_read FLAGS_v buf).1) packets)) =
    Some (map (λ buf, concat buf) packets).
Proof.
  intros Hne Hv%Z.leb_le. induction Hne as [|buf packets Hbuf _ (IHp & IHw & IHr)].
  { split_and!; [by intros buf ?%elem_of_nil|done..]. }
  destruct buf as [|b buf]; [done|]. simpl. rewrite Hv. simpl. rewrite !packet_of_packet_line. simpl.
  rewrite IHw, IHr. split_and!; [|done..]. intros buf' [->|Hin]%elem_of_cons; [done|by apply IHp].
Qed.

Lemma logging_examples :
  containerToErlangBinaryString [x00; x2a; xff] = "<<0,42,255>>"%string ∧
  LOG_OCT 32 420 = "0644"%string ∧ LOG_BIN 31 (-1) = (fill 31 "1" ++ "b")%string ∧
  frame_line (λ _, None) "libstdc++.so.6(f) [0x1]" = ("  libstdc++.so.6(f) [0x1]" ++ newline)%string.
Proof. by vm_compute. Qed.
