(* ===== verification/Messages.v ===== *)
(** * Domain messages (src/src/messages, src/src/errors/handshakeErrors.cc)

    The objects that the client sends and receives and their translation to and
    from protocol buffers.  The generated classes are records and variants of
    the fields that the translation reads and writes; a field that may be
    missing is an option.  Status codes are translated through a table that the
    code keeps in a bimap. *)

From stdpp Require Import base numbers list gmap strings.
From Stdlib Require Import ZArith Lia Strings.Byte.
From S2P Require Import Prelude StdStrings Storage.
Local Open Scope Z_scope.

(** ** Status codes *)

(** The enumerators that the table names; the protocol may have others. *)
Inductive status_code : Set :=
| Status_Code_ok | Status_Code_eafnosupport | Status_Code_eaddrinuse | Status_Code_eaddrnotavail
| Status_Code_eisconn | Status_Code_e2big | Status_Code_edom | Status_Code_efault
| Status_Code_ebadf | Status_Code_ebadmsg | Status_Code_epipe | Status_Code_econnaborted
| Status_Code_ealready | Status_Code_econnrefused | Status_Code_econnreset | Status_Code_exdev
| Status_Code_edestaddrreq | Status_Code_ebusy | Status_Code_enotempty | Status_Code_enoexec
| Status_Code_eexist | Status_Code_efbig | Status_Code_enametoolong | Status_Code_enosys
| Status_Code_ehostunreach | Status_Code_eidrm | Status_Code_eilseq | Status_Code_enotty
| Status_Code_eintr | Status_Code_einval | Status_Code_espipe | Status_Code_eio
| Status_Code_eisdir | Status_Code_emsgsize | Status_Code_enetdown | Status_Code_enetreset
| Status_Code_enetunreach | Status_Code_enobufs | Status_Code_echild | Status_Code_enolink
| Status_Code_enolck | Status_Code_enodata | Status_Code_enomsg | Status_Code_enoprotoopt
| Status_Code_enospc | Status_Code_enosr | Status_Code_enxio | Status_Code_enodev
| Status_Code_enoent | Status_Code_esrch | Status_Code_enotdir | Status_Code_enotsock
| Status_Code_enostr | Status_Code_enotconn | Status_Code_enomem | Status_Code_enotsup
| Status_Code_ecanceled | Status_Code_einprogress | Status_Code_eperm | Status_Code_eopnotsupp
| Status_Code_ewouldblock | Status_Code_eownerdead | Status_Code_eacces | Status_Code_eproto
| Status_Code_eprotonosupport | Status_Code_erofs | Status_Code_edeadlk | Status_Code_eagain
| Status_Code_erange | Status_Code_enotrecoverable | Status_Code_etime | Status_Code_etxtbsy
| Status_Code_etimedout | Status_Code_enfile | Status_Code_emfile | Status_Code_emlink
| Status_Code_eloop | Status_Code_eoverflow | Status_Code_eprototype
| Status_Code_other (code : Z).

#[export] Instance status_code_eq_dec : EqDecision status_code.
Proof. solve_decision. Defined.

(** The pairs of [createTranslation], with the values of [std::errc] (Linux). *)
Definition pairs : list (status_code * Z) :=
  [(Status_Code_ok, 0); (Status_Code_eafnosupport, 97); (Status_Code_eaddrinuse, 98);
   (Status_Code_eaddrnotavail, 99); (Status_Code_eisconn, 106); (Status_Code_e2big, 7);
   (Status_Code_edom, 33); (Status_Code_efault, 14); (Status_Code_ebadf, 9);
   (Status_Code_ebadmsg, 74); (Status_Code_epipe, 32); (Status_Code_econnaborted, 103);
   (Status_Code_ealready, 114); (Status_Code_econnrefused, 111); (Status_Code_econnreset, 104);
   (Status_Code_exdev, 18); (Status_Code_edestaddrreq, 89); (Status_Code_ebusy, 16);
   (Status_Code_enotempty, 39); (Status_Code_enoexec, 8); (Status_Code_eexist, 17);
   (Status_Code_efbig, 27); (Status_Code_enametoolong, 36); (Status_Code_enosys, 38);
   (Status_Code_ehostunreach, 113); (Status_Code_eidrm, 43); (Status_Code_eilseq, 84);
   (Status_Code_enotty, 25); (Status_Code_eintr, 4); (Status_Code_einval, 22);
   (Status_Code_espipe, 29); (Status_Code_eio, 5); (Status_Code_eisdir, 21);
   (Status_Code_emsgsize, 90); (Status_Code_enetdown, 100); (Status_Code_enetreset, 102);
   (Status_Code_enetunreach, 101); (Status_Code_enobufs, 105); (Status_Code_echild, 10);
   (Status_Code_enolink, 67); (Status_Code_enolck, 37); (Status_Code_enodata, 61);
   (Status_Code_enomsg, 42); (Status_Code_enoprotoopt, 92); (Status_Code_enospc, 28);
   (Status_Code_enosr, 63); (Status_Code_enxio, 6); (Status_Code_enodev, 19);
   (Status_Code_enoent, 2); (Status_Code_esrch, 3); (Status_Code_enotdir, 20);
   (Status_Code_enotsock, 88); (Status_Code_enostr, 60); (Status_Code_enotconn, 107);
   (Status_Code_enomem, 12); (Status_Code_enotsup, 95); (Status_Code_ecanceled, 125);
   (Status_Code_einprogress, 115); (Status_Code_eperm, 1); (Status_Code_eopnotsupp, 95);
   (Status_Code_ewouldblock, 11); (Status_Code_eownerdead, 130); (Status_Code_eacces, 13);
   (Status_Code_eproto, 71); (Status_Code_eprotonosupport, 93); (Status_Code_erofs, 30);
   (Status_Code_edeadlk, 35); (Status_Code_eagain, 11); (Status_Code_erange, 34);
   (Status_Code_enotrecoverable, 131); (Status_Code_etime, 62); (Status_Code_etxtbsy, 26);
   (Status_Code_etimedout, 110); (Status_Code_enfile, 23); (Status_Code_emfile, 24);
   (Status_Code_emlink, 31); (Status_Code_eloop, 40); (Status_Code_eoverflow, 75);
   (Status_Code_eprototype, 91)].

(** [translation.left.find]: the left keys are unique. *)
Definition left_find (c : status_code) : option Z :=
  match list_find (λ p, p.1 = c) pairs with Some (_, p) => Some p.2 | None => None end.

(** [translation.right.find]: the right keys may repeat, and the container may
    return any entry that has the key. *)
Class RightFind := {
  right_find : Z → option status_code;
  right_find_some : ∀ e c, right_find e = Some c → (c, e) ∈ pairs;
  right_find_none : ∀ e c, right_find e = None → (c, e) ∉ pairs
}.

(** ** Status *)

(** The generated class. *)
Record clproto_Status := mk_clproto_Status {
  cs_code : status_code;
  cs_description : option string
}.

Record Status := mk_Status {
  st_code : error_code;
  st_description : option string
}.

Definition Status_of_clproto (status : clproto_Status) : Status :=
  let errc := default EPROTO (left_find (cs_code status)) in
  mk_Status (make_error_code errc) (cs_description status).

(** [std::system_error] keeps the code; the description goes to its message. *)
Definition throwOnError (s : Status) : Try unit :=
  if ec_value (st_code s) =? 0 then Value tt else Exception (system_error (st_code s)).

(** An entry that is not found is read past the end of the container; the
    assertion before it is only in debug builds. *)
Definition Status_serialize `{RightFind} (s : Status) : Try clproto_Status :=
  match right_find (ec_value (st_code s)) with
  | Some c => Value (mk_clproto_Status c (st_description s))
  | None => Exception undefined_behaviour
  end.

(** ** Handshakes *)

Inductive ErrorCode : Set :=
| ok | macaroon_expired | macaroon_not_found | invalid_macaroon | invalid_method
| root_resource_not_found | invalid_provider | bad_signature_for_macaroon
| failed_to_decrypt_caveat | no_discharge_macaroon_for_caveat | incompatible_version
| internal_server_error.

#[export] Instance ErrorCode_eq_dec : EqDecision ErrorCode.
Proof. solve_decision. Defined.

(** The value of the enumerator. *)
Definition ErrorCode_value (e : ErrorCode) : Z :=
  match e with
  | ok => 0 | macaroon_expired => 1 | macaroon_not_found => 2 | invalid_macaroon => 3
  | invalid_method => 4 | root_resource_not_found => 5 | invalid_provider => 6
  | bad_signature_for_macaroon => 7 | failed_to_decrypt_caveat => 8
  | no_discharge_macaroon_for_caveat => 9 | incompatible_version => 10 | internal_server_error => 11
  end.

Definition HandshakeErrorCategory_message (ev : Z) : string :=
  match ev with
  | 0 => "ok"
  | 1 => "macaroon expired"
  | 2 => "macaroon not found"
  | 3 => "invalid macaroon"
  | 4 => "invalid method for the macaroon"
  | 5 => "required root resource not found in the macaroon"
  | 6 => "invalid provider"
  | 7 => "bad macaroon signature"
  | 8 => "failed to decrypt a macaroon caveat"
  | 9 => "discharge macaroon not found for a macaroon caveat"
  | 10 => "incompatible Oneprovider version"
  | _ => "internal server error"
  end.

Definition makeErrorCode (e : ErrorCode) : error_code :=
  mk_error_code (ErrorCode_value e) handshake_category.

(** The enumerators of the protocol that the translation names. *)
Inductive HandshakeStatus : Set :=
| HS_OK | HS_MACAROON_NOT_FOUND | HS_MACAROON_EXPIRED | HS_INVALID_MACAROON | HS_INVALID_METHOD
| HS_ROOT_RESOURCE_NOT_FOUND | HS_INVALID_PROVIDER | HS_BAD_SIGNATURE_FOR_MACAROON
| HS_FAILED_TO_DESCRYPT_CAVEAT | HS_NO_DISCHARGE_MACAROON_FOR_CAVEAT | HS_INCOMPATIBLE_VERSION
| HS_other (status : Z).

Definition translateStatus (status : HandshakeStatus) : ErrorCode :=
  match status with
  | HS_OK => ok
  | HS_MACAROON_NOT_FOUND => macaroon_not_found
  | HS_MACAROON_EXPIRED => macaroon_expired
  | HS_INVALID_MACAROON => invalid_macaroon
  | HS_INVALID_METHOD => invalid_method
  | HS_ROOT_RESOURCE_NOT_FOUND => root_resource_not_found
  | HS_INVALID_PROVIDER => invalid_provider
  | HS_BAD_SIGNATURE_FOR_MACAROON => bad_signature_for_macaroon
  | HS_FAILED_TO_DESCRYPT_CAVEAT => failed_to_decrypt_caveat
  | HS_NO_DISCHARGE_MACAROON_FOR_CAVEAT => no_discharge_macaroon_for_caveat
  | HS_INCOMPATIBLE_VERSION => incompatible_version
  | HS_other _ => internal_server_error
  end.

(** [HandshakeResponse], by its member [m_status]. *)
Definition isMacaroonError (m_status : ErrorCode) : bool :=
  negb (bool_decide (m_status = ok)) && negb (bool_decide (m_status = internal_server_error)).
Definition handshake_status (m_status : ErrorCode) : error_code := makeErrorCode m_status.

Record ClientHandshakeRequest := mk_ClientHandshakeRequest {
  m_sessionId : string;
  m_macaroon : option string;
  m_version : string
}.

Definition handshake_request (sessionId : string) : ClientHandshakeRequest :=
  mk_ClientHandshakeRequest sessionId None EmptyString.
Definition handshake_request_macaroon (sessionId macaroon version : string) : ClientHandshakeRequest :=
  mk_ClientHandshakeRequest sessionId (Some macaroon) version.

(** ** Protocol messages *)

Inductive proxyio_operation :=
| remote_read (offset size : Z)
| remote_write (byte_sequence : list (Z * bytes)).

Record clproto_ProxyIORequest := mk_clproto_ProxyIORequest {
  pr_parameters : list (string * string);
  pr_storage_id : string;
  pr_file_id : string;
  pr_operation : option proxyio_operation
}.

Record clproto_ProxyIOResponse := mk_clproto_ProxyIOResponse {
  pp_status : clproto_Status;
  pp_remote_data : option bytes;
  pp_remote_write_result : option Z
}.

Inductive ProtocolClientMessage :=
| pc_status (s : clproto_Status)
| pc_client_handshake_request (session_id : string) (macaroon : option string) (version : string)
| pc_end_of_stream
| pc_ping (data : option string)
| pc_proxyio_request (r : clproto_ProxyIORequest).

Inductive ProtocolServerMessage :=
| ps_status (s : clproto_Status)
| ps_handshake_response (status : HandshakeStatus)
| ps_message_acknowledgement (stream_id sequence_number : Z)
| ps_message_request (stream_id lower_sequence_number upper_sequence_number : Z)
| ps_message_stream_reset
| ps_pong (data : option string)
| ps_processing_status (code : option Z)
| ps_proxyio_response (r : clproto_ProxyIOResponse).

(** ** Messages of the client *)

Definition ClientHandshakeRequest_serialize (r : ClientHandshakeRequest) : ProtocolClientMessage :=
  pc_client_handshake_request (m_sessionId r) (m_macaroon r) (m_version r).
Definition EndOfStream_serialize : ProtocolClientMessage := pc_end_of_stream.
Definition Ping_serialize (m_data : option string) : ProtocolClientMessage := pc_ping m_data.

(** The base of the two requests for data; the order of the parameters is that
    of the map. *)
Record ProxyIORequest := mk_ProxyIORequest {
  m_parameters : Params;
  m_storageId : string;
  m_fileId : string
}.

Definition ProxyIORequest_serialize (r : ProxyIORequest) : clproto_ProxyIORequest :=
  mk_clproto_ProxyIORequest (map_to_list (m_parameters r)) (m_storageId r) (m_fileId r) None.

Definition set_operation (op : proxyio_operation) (r : clproto_ProxyIORequest) : clproto_ProxyIORequest :=
  mk_clproto_ProxyIORequest (pr_parameters r) (pr_storage_id r) (pr_file_id r) (Some op).

Definition RemoteRead_serialize (r : ProxyIORequest) (m_offset m_size : Z) : ProtocolClientMessage :=
  pc_proxyio_request (set_operation (remote_read m_offset m_size) (ProxyIORequest_serialize r)).
Definition RemoteWrite_serialize (r : ProxyIORequest) (m_data : list (Z * bytes)) : ProtocolClientMessage :=
  pc_proxyio_request (set_operation (remote_write m_data) (ProxyIORequest_serialize r)).

(** ** Messages of the server

    A getter of a body that the message does not have returns its default. *)

Record MessageAcknowledgement := mk_MessageAcknowledgement { ma_streamId : Z; ma_sequenceNumber : Z }.
Definition MessageAcknowledgement_of (m : ProtocolServerMessage) : MessageAcknowledgement :=
  match m with
  | ps_message_acknowledgement sid seq => mk_MessageAcknowledgement sid seq
  | _ => mk_MessageAcknowledgement 0 0
  end.

Record MessageRequest := mk_MessageRequest { mr_streamId : Z; mr_lower : Z; mr_upper : Z }.
Definition MessageRequest_of (m : ProtocolServerMessage) : MessageRequest :=
  match m with
  | ps_message_request sid lower upper => mk_MessageRequest sid lower upper
  | _ => mk_MessageRequest 0 0 0
  end.

Definition Pong_of (m : ProtocolServerMessage) : option string :=
  match m with ps_pong data => data | _ => None end.

Definition protocol_error {A} : Try A := Exception (system_error (make_error_code EPROTO)).

Definition ProcessingStatus_of (m : ProtocolServerMessage) : Try Z :=
  match m with
  | ps_processing_status (Some code) => Value code
  | _ => protocol_error
  end.

(** [default_status] is the first enumerator of the protocol. *)
Definition HandshakeResponse_of (default_status : HandshakeStatus) (m : ProtocolServerMessage) : ErrorCode :=
  translateStatus (match m with ps_handshake_response s => s | _ => default_status end).

Definition ProxyIOResponse_of (m : ProtocolServerMessage) : Try clproto_ProxyIOResponse :=
  match m with
  | ps_proxyio_response r =>
      _ ← throwOnError (Status_of_clproto (pp_status r)); Value r
  | _ => protocol_error
  end.

Definition RemoteData_of (m : ProtocolServerMessage) : Try bytes :=
  r ← ProxyIOResponse_of m;
  match pp_remote_data r with Some data => Value data | None => protocol_error end.

Definition RemoteWriteResult_of (m : ProtocolServerMessage) : Try Z :=
  r ← ProxyIOResponse_of m;
  match pp_remote_write_result r with Some wrote => Value wrote | None => protocol_error end.

(** ** What the log shows *)

Definition quoted (s : string) : string := String.append "'" (String.append s "'").
Definition concat_strings (l : list string) : string := foldr String.append EmptyString l.

Definition ClientHandshakeRequest_toString (r : ClientHandshakeRequest) : string :=
  concat_strings ["type: 'ClientHandshakeRequest', session ID: "; quoted (m_sessionId r); ", macaroon: ";
    match m_macaroon r with Some m => quoted m | None => "'undefined'" end;
    ", version: "; quoted (m_version r)]%string.
Definition HandshakeResponse_toString (m_status : ErrorCode) : string :=
  concat_strings ["type: 'HandshakeResponse', status: ";
    quoted (HandshakeErrorCategory_message (ErrorCode_value m_status))]%string.
Definition MessageAcknowledgement_toString (m : MessageAcknowledgement) : string :=
  concat_strings ["type: 'MessageAcknowledgement', stream ID: "; to_string (ma_streamId m);
    ", sequence number: "; to_string (ma_sequenceNumber m)]%string.
Definition MessageRequest_toString (m : MessageRequest) : string :=
  concat_strings ["type: 'MessageRequest', stream ID: "; to_string (mr_streamId m);
    ", lower sequence number: "; to_string (mr_lower m);
    ", upper sequence number: "; to_string (mr_upper m)]%string.
Definition RemoteData_toString (data : bytes) : string :=
  concat_strings ["type: 'RemoteData', data size: "; to_string (chainLength data)]%string.
Definition RemoteWriteResult_toString (wrote : Z) : string :=
  concat_strings ["type: 'RemoteWriteResult', wrote: "; to_string wrote]%string.

(** ** The table *)

#[local] Opaque pairs.
#[local] Arguments left_find : simpl never.

(** Codes whose error has two codes: EAGAIN is EWOULDBLOCK and ENOTSUP is
    EOPNOTSUPP. *)
Definition twins : list status_code :=
  [Status_Code_eagain; Status_Code_ewouldblock; Status_Code_enotsup; Status_Code_eopnotsupp].

Definition known (c : status_code) : bool :=
  match c with Status_Code_other _ => false | _ => true end.

Lemma left_find_pairs (c : status_code) (e : Z) : (c, e) ∈ pairs → left_find c = Some e.
Proof.
  assert (Forall (λ p, left_find p.1 = Some p.2) pairs) as Hall
    by (apply (bool_decide_unpack _); vm_compute; exact I).
  rewrite Forall_forall in Hall. apply (Hall (c, e)).
Qed.

Lemma left_find_known (c : status_code) : known c = true → ∃ e, left_find c = Some e ∧ (c, e) ∈ pairs.
Proof.
  intros Hc. assert (∃ e, left_find c = Some e) as [e He] by (destruct c; try done; by eexists).
  exists e. split; [done|]. unfold left_find in He.
  destruct (list_find _ pairs) as [[i [c' e']]|] eqn:Hf; [|done]. simplify_eq/=.
  apply list_find_Some in Hf as (Hi & Hcc & _). simpl in Hcc. subst c'. by eapply list_elem_of_lookup_2.
Qed.

Lemma pairs_right_unique (c c' : status_code) (e : Z) :
  (c, e) ∈ pairs → (c', e) ∈ pairs → c = c' ∨ c ∈ twins.
Proof.
  assert (Forall (λ p, Forall (λ q, p.2 = q.2 → p.1 = q.1 ∨ p.1 ∈ twins) pairs) pairs) as Hall
    by (apply (bool_decide_unpack _); vm_compute; exact I).
  intros Hc Hc'. rewrite Forall_forall in Hall. specialize (Hall _ Hc).
  rewrite Forall_forall in Hall. by apply (Hall _ Hc').
Qed.

(** Statuses survive the translation in both directions.  A status with a
    code of the table, received and sent again, has a code for the same error
    and the same description, whichever entry the bimap returns, and the same
    code unless the error has two; a code that the table does not have is
    received as EPROTO. *)
Lemma status_roundtrip `{RightFind} (c : status_code) (description : option string) :
  if known c
  then ∃ c', Status_serialize (Status_of_clproto (mk_clproto_Status c description))
             = Value (mk_clproto_Status c' description) ∧
         left_find c' = left_find c ∧ (c ∉ twins → c' = c)
  else st_code (Status_of_clproto (mk_clproto_Status c description)) = make_error_code EPROTO.
Proof.
  destruct (known c) eqn:Hc; [|by destruct c].
  destruct (left_find_known c Hc) as (e & Hl & Hin).
  unfold Status_serialize, Status_of_clproto. simpl. rewrite Hl. simpl.
  destruct (right_find e) as [c'|] eqn:Hr; [|by apply (right_find_none e c) in Hr].
  apply right_find_some in Hr. exists c'. split; [done|]. split; [by apply left_find_pairs|].
  intros Hc2. by destruct (pairs_right_unique c c' e Hin Hr).
Qed.

(** The category of an error is not sent: a handshake error leaves as the error
    of the system with its number. *)
Lemma status_category_lost `{RightFind} :
  ∃ c, Status_serialize (mk_Status (makeErrorCode macaroon_expired) None) = Value (mk_clproto_Status c None) ∧
    left_find c = Some EPERM.
Proof.
  unfold Status_serialize. simpl. destruct (right_find 1) as [c|] eqn:Hr.
  - exists c. split; [done|]. by apply left_find_pairs, right_find_some.
  - exfalso. apply (right_find_none 1 Status_Code_eperm Hr). apply (bool_decide_unpack _). vm_compute. exact I.
Qed.

(** The number of an error that the table does not have is looked up all the
    same. *)
Lemma status_unknown_error `{RightFind} (d : option string) :
  Status_serialize (mk_Status (make_error_code 200) d) = Exception undefined_behaviour.
Proof.
  unfold Status_serialize. simpl. destruct (right_find 200) as [c|] eqn:Hr; [|done].
  assert (Forall (λ p, p.2 ≠ 200) pairs) as Hall by (apply (bool_decide_unpack _); vm_compute; exact I).
  rewrite Forall_forall in Hall. by apply right_find_some, Hall in Hr.
Qed.

(** The container that returns the first entry. *)
Program Definition first_find : RightFind := {|
  right_find e := match list_find (λ p, p.2 = e) pairs with Some (_, p) => Some p.1 | None => None end
|}.
Next Obligation.
  simpl. intros e c Hf. destruct (list_find _ pairs) as [[i [c' e']]|] eqn:Hl; simplify_eq/=.
  apply list_find_Some in Hl as (Hi & He & _). simpl in He. subst e'. by eapply list_elem_of_lookup_2.
Qed.
Next Obligation.
  simpl. intros e c Hf Hin. destruct (list_find _ pairs) as [[i p]|] eqn:Hl; [done|].
  apply list_find_None in Hl. rewrite Forall_forall in Hl. by apply (Hl _ Hin).
Qed.

(** ** Responses *)

(** An answer of the provider with an error is that error for the caller,
    whatever else it has. *)
Lemma proxyio_error (r : clproto_ProxyIOResponse) (e : Z) :
  left_find (cs_code (pp_status r)) = Some e → e ≠ 0 →
  RemoteData_of (ps_proxyio_response r) = Exception (system_error (make_error_code e)) ∧
  RemoteWriteResult_of (ps_proxyio_response r) = Exception (system_error (make_error_code e)).
Proof.
  intros He Hne. unfold RemoteData_of, RemoteWriteResult_of. simpl. unfold throwOnError. simpl.
  rewrite He. simpl. by rewrite (proj2 (Z.eqb_neq e 0)) by done.
Qed.

