(* ===== verification/ProxyHelper.v ===== *)
(** * Files behind a provider (src/src/proxyHelper.cc, src/src/proxyHelper.h)

    A proxied handle turns reads and writes into requests, sends them through
    the communicator and turns the replies into results.  The file composes the
    handle with the messages (Messages.v) and with the inbox and translator
    layers (Layers.v): many requests are under way at once, the network and the
    provider take them in any order and the replies arrive in any order.
    Proved: what the callers see is what some order of the operations, one
    after another, does to the provider's files. *)

From stdpp Require Import base numbers list gmap strings relations.
From Stdlib Require Import ZArith Lia Strings.Byte.
From S2P Require Import Prelude StdStrings Storage Protocol Layers Messages.
Local Open Scope Z_scope.

(** ** The handle *)

Record ProxyFileHandle := mk_ProxyFileHandle {
  ph_fileId : string;
  ph_storageId : string;
  ph_openParams : Params
}.

Definition request_base (h : ProxyFileHandle) : ProxyIORequest :=
  mk_ProxyIORequest (ph_openParams h) (ph_storageId h) (ph_fileId h).

(** What the methods of the handle send. *)
Definition read_request (h : ProxyFileHandle) (offset size : Z) : ProtocolClientMessage :=
  RemoteRead_serialize (request_base h) offset size.

(** The buffers that are not empty. *)
Definition stringBuffs (buffs : list write_op) : list write_op := filter (λ b, b.2 ≠ []) buffs.

Definition multiwrite_request (h : ProxyFileHandle) (buffs : list write_op) : ProtocolClientMessage :=
  RemoteWrite_serialize (request_base h) (stringBuffs buffs).
Definition write_request (h : ProxyFileHandle) (offset : Z) (buf : bytes) : ProtocolClientMessage :=
  multiwrite_request h [(offset, buf)].

(** A call of a method of a handle. *)
Inductive proxy_op :=
| proxy_read (h : ProxyFileHandle) (offset size : Z)
| proxy_write (h : ProxyFileHandle) (offset : Z) (buf : bytes)
| proxy_multiwrite (h : ProxyFileHandle) (buffs : list write_op).

Inductive proxy_result :=
| got_data (b : bytes)
| wrote_bytes (n : Z).

Definition proxy_request (op : proxy_op) : ProtocolClientMessage :=
  match op with
  | proxy_read h offset size => read_request h offset size
  | proxy_write h offset buf => write_request h offset buf
  | proxy_multiwrite h buffs => multiwrite_request h buffs
  end.

(** The continuation of the reply. *)
Definition proxy_reply (op : proxy_op) (m : ProtocolServerMessage) : Try proxy_result :=
  match op with
  | proxy_read _ _ _ => data ← RemoteData_of m; Value (got_data data)
  | _ => wrote ← RemoteWriteResult_of m; Value (wrote_bytes wrote)
  end.

(** ** The helper *)

Record ProxyHelper := mk_ProxyHelper { px_storageId : string; px_timeout : Z }.

Definition open {S} (h : ProxyHelper) (fileId : string) (flags : Z) (openParams : Params)
  : ST S ProxyFileHandle :=
  mret (mk_ProxyFileHandle fileId (px_storageId h) openParams).

Definition proxy_helper {S} (h : ProxyHelper) : StorageHelper S ProxyFileHandle :=
  default_StorageHelper (open h).

(** ** The system *)

(** The protocol buffer library writes a body as bytes and reads it back. *)
Class Protobuf := {
  pb_client : ProtocolClientMessage → bytes;
  pb_parse_client : bytes → option ProtocolClientMessage;
  pb_client_parse : ∀ r, pb_parse_client (pb_client (pc_proxyio_request r)) = Some (pc_proxyio_request r);
  pb_server : ProtocolServerMessage → bytes;
  pb_parse_server : bytes → option ProtocolServerMessage;
  pb_server_parse : ∀ r, pb_parse_server (pb_server (ps_proxyio_response r)) = Some (ps_proxyio_response r)
}.

(** The provider answers requests about its files [F]. *)
Class Provider (F : Type) := {
  serve : F → ProtocolClientMessage → F * ProtocolServerMessage;
  file_of : F → string * string → bytes
}.

(** A request that the provider refuses has a status that is an error. *)
Definition refused (resp : clproto_ProxyIOResponse) : Prop :=
  ∃ e, throwOnError (Status_of_clproto (pp_status resp)) = Exception e.
Definition accepted (resp : clproto_ProxyIOResponse) : Prop :=
  throwOnError (Status_of_clproto (pp_status resp)) = Value tt.

(** A read returns bytes of its file and changes none; a write puts its byte
    sequences into its file, in their order, and answers with their size.  A
    write that is refused may have changed its file. *)
Class ProviderLaws (F : Type) `{Provider F} := {
  serve_read : ∀ f r offset size,
    pr_operation r = Some (remote_read offset size) → 0 <= offset → 0 <= size →
    ∃ f' resp, serve f (pc_proxyio_request r) = (f', ps_proxyio_response resp) ∧
      (∀ k, file_of f' k = file_of f k) ∧
      (refused resp ∨ accepted resp ∧
         pp_remote_data resp = Some (pread (file_of f (pr_storage_id r, pr_file_id r)) offset size));
  serve_write : ∀ f r ws,
    pr_operation r = Some (remote_write ws) → Forall (λ w, 0 <= w.1) ws →
    ∃ f' resp, serve f (pc_proxyio_request r) = (f', ps_proxyio_response resp) ∧
      (∀ k, k ≠ (pr_storage_id r, pr_file_id r) → file_of f' k = file_of f k) ∧
      (refused resp ∨ accepted resp ∧
         file_of f' (pr_storage_id r, pr_file_id r)
         = apply_writes (file_of f (pr_storage_id r, pr_file_id r)) ws ∧
         pp_remote_write_result resp = Some (total_size ws))
}.

Section system.
Context `{PB : Protobuf} {F : Type} `{PR : Provider F}.

(** The body of a server message for the translator. *)
Definition convert (op : proxy_op) (m : ServerMessage) : Try proxy_result :=
  match sm_body m with
  | server_payload b =>
      match pb_parse_server b with Some p => proxy_reply op p | None => protocol_error end
  | _ => protocol_error
  end.

(** The inbox of the client, the operations by the number of their request, the
    requests and replies on their way, the files, the promises; and, for the
    record, the requests in the order in which they were served. *)
Record system := mk_system {
  sy_inbox : inbox;
  sy_ops : list proxy_op;
  sy_out : list (nat * ClientMessage);
  sy_files : F;
  sy_in : list ServerMessage;
  sy_promises : gmap nat (Try proxy_result);
  sy_served : list nat
}.

Definition start (seed : Z) (files : F) : system := mk_system (new_inbox seed) [] [] files [] ∅ [].

(** The callbacks that the inbox calls fulfil promises. *)
Definition fulfil_promises (ops : list proxy_op) (calls : list (nat * response))
    (promises : gmap nat (Try proxy_result)) : gmap nat (Try proxy_result) :=
  foldl (λ ps c, match ops !! c.1 with
                 | Some op => <[c.1 := translator_response (convert op) c.2]> ps
                 | None => ps
                 end) promises calls.

(** A caller starts an operation. *)
Definition do_call (op : proxy_op) (s : system) : system :=
  let n := length (sy_ops s) in
  let '(i, m) := communicate n (make_client (client_payload (pb_client (proxy_request op)))) (sy_inbox s) in
  mk_system i (sy_ops s ++ [op]) (sy_out s ++ [(n, m)]) (sy_files s) (sy_in s) (sy_promises s) (sy_served s).

(** The provider serves one of the requests that reached it. *)
Definition do_serve (i : nat) (s : system) : option system :=
  '(n, m) ← sy_out s !! i;
  req ← match cm_body m with client_payload b => pb_parse_client b | _ => None end;
  let '(files, reply) := serve (sy_files s) req in
  Some (mk_system (sy_inbox s) (sy_ops s) (delete i (sy_out s)) files
          (sy_in s ++ [mk_ServerMessage (cm_message_id m) None (server_payload (pb_server reply))])
          (sy_promises s) (sy_served s ++ [n])).

(** One of the replies arrives; a reply may arrive again. *)
Definition do_receive (j : nat) (s : system) : option system :=
  m ← sy_in s !! j;
  let '(i, _, calls) := onMessage m (sy_inbox s) in
  Some (mk_system i (sy_ops s) (sy_out s) (sy_files s) (sy_in s)
          (fulfil_promises (sy_ops s) calls (sy_promises s)) (sy_served s)).

(** A send is reported as failed; the request may still reach the provider. *)
Definition do_fail (messageId : string) (ec : error_code) (s : system) : system :=
  let '(i, calls) := sendErrorCallback messageId (Some ec) (sy_inbox s) in
  mk_system i (sy_ops s) (sy_out s) (sy_files s) (sy_in s)
    (fulfil_promises (sy_ops s) calls (sy_promises s)) (sy_served s).

Inductive system_step : system → system → Prop :=
| step_call op s : system_step s (do_call op s)
| step_serve i s s' : do_serve i s = Some s' → system_step s s'
| step_receive j s s' : do_receive j s = Some s' → system_step s s'
| step_fail messageId ec s : system_step s (do_fail messageId ec s).

End system.
Arguments system : clear implicits.

(** ** What the callers may see *)

Definition file_key (h : ProxyFileHandle) : string * string := (ph_storageId h, ph_fileId h).

(** The writes of an operation. *)
Definition op_writes (op : proxy_op) : option (ProxyFileHandle * list write_op) :=
  match op with
  | proxy_read _ _ _ => None
  | proxy_write h offset buf => Some (h, [(offset, buf)])
  | proxy_multiwrite h buffs => Some (h, buffs)
  end.

Definition op_in_range (op : proxy_op) : Prop :=
  match op with
  | proxy_read _ offset size => 0 <= offset ∧ 0 <= size
  | proxy_write _ offset buf => 0 <= offset
  | proxy_multiwrite _ buffs => Forall (λ w, 0 <= w.1) buffs
  end.

(** [file_does f op f' r]: the operation, on its own, takes the files from [f]
    to [f'] and returns [r]. *)
Inductive file_does (f : string * string → bytes) :
  proxy_op → (string * string → bytes) → Try proxy_result → Prop :=
| does_read h offset size f' :
    (∀ k, f' k = f k) →
    file_does f (proxy_read h offset size) f' (Value (got_data (pread (f (file_key h)) offset size)))
| does_read_refused h offset size f' e :
    (∀ k, f' k = f k) → file_does f (proxy_read h offset size) f' (Exception e)
| does_write op h buffs f' :
    op_writes op = Some (h, buffs) → (∀ k, k ≠ file_key h → f' k = f k) →
    f' (file_key h) = apply_writes (f (file_key h)) buffs →
    file_does f op f' (Value (wrote_bytes (total_size buffs)))
| does_write_refused op h buffs f' e :
    op_writes op = Some (h, buffs) → (∀ k, k ≠ file_key h → f' k = f k) →
    file_does f op f' (Exception e).

(** Operations, with their numbers and results, one after another. *)
Inductive file_run (f0 : string * string → bytes) :
  list (nat * (proxy_op * Try proxy_result)) → (string * string → bytes) → Prop :=
| run_none : file_run f0 [] f0
| run_next h f k op f' r :
    file_run f0 h f → file_does f op f' r → file_run f0 (h ++ [(k, (op, r))]) f'.

(** Empty buffers make no difference. *)
Lemma stringBuffs_writes (buffs : list write_op) (f : bytes) :
  apply_writes f (stringBuffs buffs) = apply_writes f buffs ∧
  total_size (stringBuffs buffs) = total_size buffs.
Proof.
  unfold stringBuffs, apply_writes. revert f. induction buffs as [|[o b] buffs IH]; intros f; [done|].
  rewrite filter_cons. simpl. case_decide as Hb.
  - simpl. destruct (IH (pwrite f o b)) as [Hw Hs]. split; [exact Hw|]. f_equal. exact Hs.
  - subst b. simpl. destruct (IH f) as [Hw Hs]. split; [exact Hw|exact Hs].
Qed.

Lemma stringBuffs_offsets (buffs : list write_op) :
  Forall (λ w, 0 <= w.1) buffs → Forall (λ w, 0 <= w.1) (stringBuffs buffs).
Proof.
  rewrite !Forall_forall. intros H w. unfold stringBuffs. rewrite list_elem_of_filter. intros [_ Hw]. by apply H.
Qed.

Section linearizable.
Context `{PB : Protobuf} {F : Type} `{PR : Provider F} `{PL : !ProviderLaws F}.

Lemma convert_reply (op : proxy_op) (id : string) (resp : clproto_ProxyIOResponse) :
  convert op (mk_ServerMessage id None (server_payload (pb_server (ps_proxyio_response resp))))
  = proxy_reply op (ps_proxyio_response resp).
Proof. unfold convert. simpl. by rewrite pb_server_parse. Qed.

Lemma reply_refused (op : proxy_op) (resp : clproto_ProxyIOResponse) :
  refused resp → ∃ e, proxy_reply op (ps_proxyio_response resp) = Exception e.
Proof.
  intros [e He]. exists e. destruct op; simpl; unfold RemoteData_of, RemoteWriteResult_of, ProxyIOResponse_of;
    rewrite He; done.
Qed.

(** The provider does the operation that the handle asks for. *)
Lemma serve_does (f : F) (op : proxy_op) :
  op_in_range op →
  ∃ f' resp, serve f (proxy_request op) = (f', ps_proxyio_response resp) ∧
    file_does (file_of f) op (file_of f') (proxy_reply op (ps_proxyio_response resp)).
Proof.
  assert (∀ h buffs, op_writes op = Some (h, buffs) → proxy_request op = multiwrite_request h buffs →
    proxy_reply op = (λ m, wrote ← RemoteWriteResult_of m; Value (wrote_bytes wrote)) →
    Forall (λ w, 0 <= w.1) buffs →
    ∃ f' resp, serve f (proxy_request op) = (f', ps_proxyio_response resp) ∧
      file_does (file_of f) op (file_of f') (proxy_reply op (ps_proxyio_response resp))) as Hwrite.
  { intros h buffs Hop -> Hreply Hoff. unfold multiwrite_request, RemoteWrite_serialize.
    destruct (serve_write f (set_operation (remote_write (stringBuffs buffs))
      (ProxyIORequest_serialize (request_base h))) (stringBuffs buffs))
      as (f' & resp & -> & Hk & Hr); [done|by apply stringBuffs_offsets|]. exists f', resp. split; [done|].
    simpl in Hk, Hr. destruct Hr as [Hr|(Hr & Hf & Hw)].
    - destruct (reply_refused op resp Hr) as [e ->]. by eapply does_write_refused.
    - rewrite Hreply. unfold RemoteWriteResult_of, ProxyIOResponse_of. rewrite Hr. simpl. rewrite Hw. simpl.
      destruct (stringBuffs_writes buffs (file_of f (file_key h))) as [Ha ->].
      eapply does_write; [done|done|]. rewrite <-Ha. exact Hf. }
  destruct op as [h offset size|h offset buf|h buffs]; intros Hin.
  - destruct Hin as [Ho Hs]. unfold proxy_request, read_request, RemoteRead_serialize.
    destruct (serve_read f (set_operation (remote_read offset size)
      (ProxyIORequest_serialize (request_base h))) offset size) as (f' & resp & -> & Hk & Hr); [done..|].
    exists f', resp. split; [done|]. simpl in Hr. destruct Hr as [Hr|[Hr Hd]].
    + destruct (reply_refused (proxy_read h offset size) resp Hr) as [e ->]. by apply does_read_refused.
    + simpl. unfold RemoteData_of, ProxyIOResponse_of. rewrite Hr. simpl. rewrite Hd. by apply (does_read _ h).
  - by apply (Hwrite h [(offset, buf)]); [..|apply Forall_singleton].
  - by apply (Hwrite h buffs).
Qed.

(** ** The invariant *)

Definition request_of (seed : Z) (k : nat) (op : proxy_op) : ClientMessage :=
  set_message_id (message_id seed k) (make_client (client_payload (pb_client (proxy_request op)))).

Definition send_failed (t : Try proxy_result) : Prop := ∃ ec, t = Exception (system_error ec).

Record system_ok (seed : Z) (f0 : string * string → bytes) (s : system F)
    (log : list (nat * response)) (history : list (nat * (proxy_op * Try proxy_result))) : Prop := {
  sys_inbox : inbox_ok seed (sy_inbox s) (length (sy_ops s)) log;
  sys_out : Forall (λ e, ∃ op, sy_ops s !! e.1 = Some op ∧ e.2 = request_of seed e.1 op) (sy_out s);
  sys_served : sy_served s = history.*1;
  sys_once : NoDup ((sy_out s).*1 ++ history.*1);
  sys_history : Forall (λ e, sy_ops s !! e.1 = Some e.2.1) history;
  sys_run : file_run f0 history (file_of (sy_files s));
  sys_in : Forall (λ m, ∃ k op r, (k, (op, r)) ∈ history ∧ sm_message_id m = message_id seed k ∧
    convert op m = r) (sy_in s);
  sys_promises : ∀ k t, sy_promises s !! k = Some t →
    send_failed t ∨ ∃ op, (k, (op, t)) ∈ history;
  sys_answered : ∀ k, k ∈ log.*1 → is_Some (sy_promises s !! k)
}.

Lemma system_ok_start (seed : Z) (files : F) :
  system_ok seed (file_of files) (start seed files) [] [].
Proof.
  split; simpl; try done; (try by constructor). apply inbox_ok_new.
  intros k Hk. by apply not_elem_of_nil in Hk.
Qed.

Lemma system_ok_call (seed : Z) f0 s log history (op : proxy_op) :
  system_ok seed f0 s log history → system_ok seed f0 (do_call op s) log history.
Proof.
  intros [Hi Ho Hsv Hnd Hh Hr Hin Hp Ha]. unfold do_call.
  pose proof (inbox_ok_communicate seed (sy_inbox s) (length (sy_ops s)) log
    (make_client (client_payload (pb_client (proxy_request op)))) Hi) as Hi'.
  assert (∀ k o, sy_ops s !! k = Some o → (sy_ops s ++ [op]) !! k = Some o) as Hmono
    by (intros k o Hk; by apply lookup_app_l_Some).
  assert (∀ k, k ∈ (sy_out s).*1 ++ history.*1 → (k < length (sy_ops s))%nat) as Hlt.
  { intros k Hk. rewrite Forall_forall in Ho. rewrite Forall_forall in Hh.
    apply elem_of_app in Hk as [(e & -> & He)%list_elem_of_fmap|(e & -> & He)%list_elem_of_fmap].
    - destruct (Ho e He) as (? & ?%lookup_lt_Some & _). done.
    - by apply Hh, lookup_lt_Some in He. }
  unfold communicate in *. simpl in Hi'. split; simpl; try done.
  - rewrite length_app. simpl. by rewrite Nat.add_1_r.
  - apply Forall_app. split.
    + eapply Forall_impl; [exact Ho|]. intros e (o & Hk & He). eauto.
    + apply Forall_singleton. exists op. simpl. split; [by apply list_lookup_middle|].
      unfold request_of, message_id. destruct Hi as [-> -> _ _ _ _]. done.
  - rewrite fmap_app, <-app_assoc. simpl. rewrite <-Permutation_middle. apply NoDup_cons. split; [|done].
    intros Hk%Hlt. lia.
  - eapply Forall_impl; [exact Hh|]. simpl. eauto.
Qed.

Lemma system_ok_serve (seed : Z) f0 s s' log history (i : nat) :
  Forall op_in_range (sy_ops s) → do_serve i s = Some s' →
  system_ok seed f0 s log history →
  ∃ e, system_ok seed f0 s' log (history ++ [e]).
Proof.
  intros Hrange Hs [Hi Ho Hsv Hnd Hh Hr Hin Hp Ha]. unfold do_serve in Hs.
  destruct (sy_out s !! i) as [[k m]|] eqn:Hk; [|done].
  pose proof Hk as Hperm%delete_Permutation. simpl in Hs.
  assert (∃ op, sy_ops s !! k = Some op ∧ m = request_of seed k op) as (op & Hop & ->)
    by by apply (proj1 (Forall_lookup _ _) Ho i (k, m)).
  destruct (serve_does (sy_files s) op) as (f' & resp & Hserve & Hdoes);
    [by apply (proj1 (Forall_lookup _ _) Hrange k)|].
  assert (pb_parse_client (pb_client (proxy_request op)) = Some (proxy_request op)) as Hpb
    by (destruct op; apply pb_client_parse).
  simpl in Hs. rewrite Hpb in Hs. simpl in Hs. rewrite Hserve in Hs. simplify_eq.
  set (r := proxy_reply op (ps_proxyio_response resp)) in *. exists (k, (op, r)).
  assert (∀ x, x ∈ history → x ∈ history ++ [(k, (op, r))]) as Hmono by (intros; apply elem_of_app; auto).
  split; simpl; try done.
  - by apply Forall_delete.
  - by rewrite Hsv, fmap_app.
  - rewrite fmap_app. simpl. rewrite Hperm in Hnd. simpl in Hnd.
    refine (proj1 (NoDup_Permutation_proper _ _ _) Hnd). solve_Permutation.
  - apply Forall_app. split; [done|]. by apply Forall_singleton.
  - by eapply run_next.
  - apply Forall_app. split.
    + eapply Forall_impl; [exact Hin|]. intros m (k' & o & r' & Hm & ?). eauto 10.
    + apply Forall_singleton. exists k, op, r. split; [apply elem_of_app; right; by apply list_elem_of_singleton|].
      split; [done|]. apply convert_reply.
  - intros k' t Ht. destruct (Hp k' t Ht) as [?|[o ?]]; eauto.
Qed.

(** An answer that the inbox passes on fulfils the promise of its request. *)
Lemma system_ok_answer (seed : Z) f0 s log history (id : string) (cb : nat) (r : response) :
  system_ok seed f0 s log history → m_callbacks (sy_inbox s) !! id = Some cb →
  match r with
  | Reply m => sm_message_id m = id ∧ m ∈ sy_in s ∧ Z.of_nat (length (sy_ops s)) <= 65536
  | Failed _ => True
  end →
  system_ok seed f0
    (mk_system (erase_callback id (sy_inbox s)) (sy_ops s) (sy_out s) (sy_files s) (sy_in s)
       (fulfil_promises (sy_ops s) [(cb, r)] (sy_promises s)) (sy_served s))
    (log ++ [(cb, r)]) history.
Proof.
  intros [Hi Ho Hsv Hnd Hh Hr Hin Hp Ha] Hcb Hresp.
  destruct (inbox_pending _ _ _ _ Hi id cb Hcb) as (Hlt & -> & Hnot).
  destruct (lookup_lt_is_Some_2 _ _ Hlt) as [op Hop].
  unfold fulfil_promises. simpl. rewrite Hop. split; simpl; try done.
  - apply inbox_ok_answer; [done..|]. destruct r; [done|by destruct Hresp].
  - intros k t Ht. apply lookup_insert_Some in Ht as [[-> <-]|[Hne Ht]]; [|by apply Hp].
    destruct r as [ec|m]; [left; by exists ec|right]. simpl. destruct Hresp as (Hid & Hm & Hn).
    rewrite Forall_forall in Hin. destruct (Hin m Hm) as (k' & o & r' & Hk' & Hid' & Hconv).
    rewrite Forall_forall in Hh. pose proof (Hh _ Hk') as Ho'. simpl in Ho'.
    assert (k' = k) as ->.
    { apply (message_id_inj seed); [|lia|congruence]. apply lookup_lt_Some in Ho'. lia. }
    simplify_eq. by exists op.
  - intros k. rewrite fmap_app, elem_of_app. simpl. rewrite list_elem_of_singleton.
    destruct (decide (k = cb)) as [->|Hne]; [by rewrite lookup_insert_eq|].
    rewrite lookup_insert_ne by done. intros [Hk|?]; [by apply Ha|done].
Qed.

Lemma system_eta (s : system F) :
  mk_system (sy_inbox s) (sy_ops s) (sy_out s) (sy_files s) (sy_in s) (sy_promises s) (sy_served s) = s.
Proof. by destruct s. Qed.

(** Every step keeps the invariant; the served requests only grow. *)
Lemma system_step_ok (seed : Z) f0 s s' log history :
  system_step s s' → Forall op_in_range (sy_ops s) → Z.of_nat (length (sy_ops s)) <= 65536 →
  system_ok seed f0 s log history →
  ∃ log' more, system_ok seed f0 s' log' (history ++ more).
Proof.
  intros Hstep Hrange Hn Hok. destruct Hstep as [op s|i s s' Hs|j s s' Hs|id ec s].
  - exists log, []. rewrite app_nil_r. by apply system_ok_call.
  - destruct (system_ok_serve seed f0 s s' log history i Hrange Hs Hok) as [e He]. by exists log, [e].
  - unfold do_receive in Hs. destruct (sy_in s !! j) as [m|] eqn:Hm; [|done]. simpl in Hs.
    unfold onMessage in Hs. destruct (m_callbacks (sy_inbox s) !! sm_message_id m) as [cb|] eqn:Hcb; simplify_eq.
    + exists (log ++ [(cb, Reply m)]), []. rewrite app_nil_r.
      apply system_ok_answer; [done..|]. split_and!; [done| |done]. by eapply list_elem_of_lookup_2.
    + exists log, []. rewrite app_nil_r. simpl. by rewrite system_eta.
  - unfold do_fail, sendErrorCallback. destruct (m_callbacks (sy_inbox s) !! id) as [cb|] eqn:Hcb.
    + exists (log ++ [(cb, Failed ec)]), []. rewrite app_nil_r. by apply system_ok_answer.
    + exists log, []. rewrite app_nil_r. simpl. by rewrite system_eta.
Qed.

Lemma system_step_ops (s s' : system F) :
  system_step s s' → sy_ops s `prefix_of` sy_ops s' ∧ sy_served s `prefix_of` sy_served s'.
Proof.
  intros Hstep. destruct Hstep as [op s|i s s' Hs|j s s' Hs|id ec s].
  - split; [by apply prefix_app_r|done].
  - unfold do_serve in Hs. destruct (sy_out s !! i) as [[k m]|]; [|done]. simpl in Hs.
    destruct (cm_body m); try done. destruct (pb_parse_client b); [|done]. simpl in Hs.
    destruct (serve _ _). simplify_eq. split; [done|by apply prefix_app_r].
  - unfold do_receive in Hs. destruct (sy_in s !! j) as [m|]; [|done]. simpl in Hs.
    destruct (onMessage _ _) as [[??]?]. by simplify_eq.
  - unfold do_fail. by destruct (sendErrorCallback _ _ _).
Qed.

Lemma system_steps_ops (s s' : system F) :
  rtc system_step s s' → sy_ops s `prefix_of` sy_ops s' ∧ sy_served s `prefix_of` sy_served s'.
Proof.
  induction 1 as [|s1 s2 s3 Hstep _ [IH1 IH2]]; [done|]. apply system_step_ops in Hstep as [H1 H2].
  split; by etrans.
Qed.

Lemma system_steps_ok (seed : Z) (files : F) (s : system F) :
  rtc system_step (start seed files) s →
  Forall op_in_range (sy_ops s) → Z.of_nat (length (sy_ops s)) <= 65536 →
  ∃ log history, system_ok seed (file_of files) s log history.
Proof.
  revert s. apply (rtc_ind_r (λ s, Forall op_in_range (sy_ops s) → Z.of_nat (length (sy_ops s)) <= 65536 →
    ∃ log history, system_ok seed (file_of files) s log history));
    [intros Hrange Hn|intros s s' Hrtc Hstep IH Hrange Hn].
  - exists [], []. apply system_ok_start.
  - destruct (system_step_ops s s' Hstep) as [[more Hops] _]. rewrite Hops in Hrange, Hn.
    apply Forall_app in Hrange as [Hrange _]. rewrite length_app in Hn.
    destruct IH as (log & history & Hok); [done|lia|].
    destruct (system_step_ok seed _ s s' log history Hstep Hrange ltac:(lia) Hok) as (? & ? & ?). eauto.
Qed.

(** C4: proxied operations are linearizable, in a run of at most 65536 calls with
    offsets and sizes that are not negative: message ids have 16 bits and repeat
    after that (lemma [message_id_repeats]), so that a reply delivered again would
    answer another call.  However many of the calls are under way at once,
    requests served and replies delivered in any order, replies delivered again
    and sends reported as failed, the results that the callers have are those of
    running the served operations one after another on the files, each once, in
    the order in which the provider served them; the files are what that run
    leaves.  An operation is unanswered only while its callback waits.  An order
    once fixed stays: what happens later comes after it. *)
Theorem proxy_linearizable (seed : Z) (files : F) (s : system F) :
  rtc system_step (start seed files) s →
  Forall op_in_range (sy_ops s) → Z.of_nat (length (sy_ops s)) <= 65536 →
  ∃ history,
    sy_served s = history.*1 ∧ NoDup (history.*1) ∧
    (∀ k op r, (k, (op, r)) ∈ history → sy_ops s !! k = Some op) ∧
    file_run (file_of files) history (file_of (sy_files s)) ∧
    (∀ k t, sy_promises s !! k = Some t → send_failed t ∨ ∃ op, (k, (op, t)) ∈ history) ∧
    (∀ k, (k < length (sy_ops s))%nat →
       is_Some (sy_promises s !! k) ∨ m_callbacks (sy_inbox s) !! message_id seed k = Some k) ∧
    (∀ s', rtc system_step s s' → sy_served s `prefix_of` sy_served s').
Proof.
  intros Hrtc Hrange Hn.
  destruct (system_steps_ok seed files s Hrtc Hrange Hn) as (log & history & [Hi _ Hsv Hnd Hh Hr _ Hp Ha]).
  exists history. split_and!; [done| | |done|done| |].
  - by apply NoDup_app in Hnd as (_ & _ & ?).
  - intros k op r Hin. rewrite Forall_forall in Hh. by apply (Hh (k, (op, r))).
  - intros k Hk. destruct (inbox_all _ _ _ _ Hi Hn k Hk); eauto.
  - intros s' Hs'. by apply system_steps_ops.
Qed.

End linearizable.

(** ** A provider in memory and an encoding *)

Abbreviation memory_files := (gmap (string * string) bytes).
Definition ok_status : clproto_Status := mk_clproto_Status Status_Code_ok None.

Definition memory_serve (f : memory_files) (m : ProtocolClientMessage)
  : memory_files * ProtocolServerMessage :=
  match m with
  | pc_proxyio_request r =>
      let k := (pr_storage_id r, pr_file_id r) in
      let file := default [] (f !! k) in
      match pr_operation r with
      | Some (remote_read offset size) =>
          (f, ps_proxyio_response (mk_clproto_ProxyIOResponse ok_status (Some (pread file offset size)) None))
      | Some (remote_write ws) =>
          (<[k := apply_writes file ws]> f,
           ps_proxyio_response (mk_clproto_ProxyIOResponse ok_status None (Some (total_size ws))))
      | None =>
          (f, ps_proxyio_response
                (mk_clproto_ProxyIOResponse (mk_clproto_Status Status_Code_einval None) None None))
      end
  | _ => (f, ps_status (mk_clproto_Status Status_Code_einval None))
  end.

#[export] Instance memory_provider : Provider memory_files :=
  {| serve := memory_serve; file_of := λ f k, default [] (f !! k) |}.

#[export] Instance memory_provider_laws : ProviderLaws memory_files.
Proof.
  split.
  - intros f r offset size Hop _ _. simpl. rewrite Hop. eexists _, _. split; [done|]. split; [done|]. by right.
  - intros f r ws Hop _. simpl. rewrite Hop. eexists _, _. split; [done|]. split.
    + intros k Hk. simpl. by rewrite lookup_insert_ne.
    + right. simpl. by rewrite lookup_insert_eq.
Qed.

#[export] Instance byte_countable : Countable byte.
Proof.
  refine (inj_countable Byte.to_N Byte.of_N _). intros b. apply Byte.of_to_N.
Defined.

#[export] Instance status_code_countable : Countable status_code.
Proof.
  refine (inj_countable' (A := nat + Z)
    (λ c, match list_find (λ p, p.1 = c) pairs with
          | Some (i, _) => inl i
          | None => inr match c with Status_Code_other z => z | _ => 0 end
          end)
    (λ e, match e with
          | inl i => from_option fst Status_Code_ok (pairs !! i)
          | inr z => Status_Code_other z
          end) _).
  intros c. destruct c; vm_compute; reflexivity.
Defined.

#[export] Instance operation_eq_dec : EqDecision proxyio_operation.
Proof. solve_decision. Defined.
#[export] Instance operation_countable : Countable proxyio_operation.
Proof.
  refine (inj_countable' (A := Z * Z + list (Z * bytes))
    (λ o, match o with remote_read a b => inl (a, b) | remote_write ws => inr ws end)
    (λ e, match e with inl (a, b) => remote_read a b | inr ws => remote_write ws end) _).
  by intros [].
Defined.

#[export] Instance request_eq_dec : EqDecision clproto_ProxyIORequest.
Proof. solve_decision. Defined.
#[export] Instance request_countable : Countable clproto_ProxyIORequest.
Proof.
  refine (inj_countable' (λ r, (pr_parameters r, pr_storage_id r, pr_file_id r, pr_operation r))
    (λ e, let '(a, b, c, d) := e in mk_clproto_ProxyIORequest a b c d) _).
  by intros [].
Defined.

#[export] Instance clproto_Status_eq_dec : EqDecision clproto_Status.
Proof. solve_decision. Defined.
#[export] Instance response_eq_dec : EqDecision clproto_ProxyIOResponse.
Proof. solve_decision. Defined.
#[export] Instance response_countable : Countable clproto_ProxyIOResponse.
Proof.
  refine (inj_countable' (λ r, (cs_code (pp_status r), cs_description (pp_status r), pp_remote_data r,
      pp_remote_write_result r))
    (λ e, let '(a, b, c, d) := e in mk_clproto_ProxyIOResponse (mk_clproto_Status a b) c d) _).
  by intros [[]].
Defined.

Fixpoint positive_bytes (p : positive) : bytes :=
  match p with
  | xH => []
  | xO p => x00 :: positive_bytes p
  | xI p => x01 :: positive_bytes p
  end.
Fixpoint bytes_positive (b : bytes) : positive :=
  match b with
  | [] => xH
  | x00 :: b => xO (bytes_positive b)
  | _ :: b => xI (bytes_positive b)
  end.
Lemma bytes_positive_bytes (p : positive) : bytes_positive (positive_bytes p) = p.
Proof. by induction p; simpl; f_equal. Qed.

Definition code {A} `{Countable A} (a : A) : bytes := positive_bytes (encode a).
Definition uncode {A} `{Countable A} (b : bytes) : option A := decode (bytes_positive b).
Lemma uncode_code {A} `{Countable A} (a : A) : uncode (code a) = Some a.
Proof. unfold uncode, code. by rewrite bytes_positive_bytes, decode_encode. Qed.

#[export] Instance sample_protobuf : Protobuf.
Proof.
  refine {|
    pb_client m := match m with pc_proxyio_request r => code r | _ => [] end;
    pb_parse_client b := pc_proxyio_request <$> uncode b;
    pb_server m := match m with ps_proxyio_response r => code r | _ => [] end;
    pb_parse_server b := ps_proxyio_response <$> uncode b
  |}; intros r; by rewrite uncode_code.
Defined.

(** Two calls on one file: the write is served first and the reply to the read
    arrives first. *)
Definition sample_handle : ProxyFileHandle := mk_ProxyFileHandle "f" "s" ∅.
Definition sample_calls : system memory_files :=
  do_call (proxy_write sample_handle 0 [x61; x62]) (do_call (proxy_read sample_handle 1 5) (start 7 ∅)).
Definition step_to (f : system memory_files → option (system memory_files)) (s : system memory_files)
  : system memory_files := default s (f s).
Definition sample_served : system memory_files := step_to (do_serve 0) (step_to (do_serve 1) sample_calls).
Definition sample_end : system memory_files := step_to (do_receive 0) (step_to (do_receive 1) sample_served).

Lemma step_to_eq (f : system memory_files → option (system memory_files)) (s : system memory_files) :
  bool_decide (is_Some (f s)) = true → f s = Some (step_to f s).
Proof. intros [s' Hs]%bool_decide_eq_true. unfold step_to. by rewrite Hs. Qed.

Lemma sample_results :
  sy_promises sample_end !! 0%nat = Some (Value (got_data [x62])) ∧
  sy_promises sample_end !! 1%nat = Some (Value (wrote_bytes 2)) ∧ sy_served sample_end = [1; 0]%nat.
Proof. vm_compute. done. Qed.

Lemma proxy_linearizable_witness :
  ∃ history,
    sy_served sample_end = history.*1 ∧ NoDup (history.*1) ∧
    (∀ k op r, (k, (op, r)) ∈ history → sy_ops sample_end !! k = Some op) ∧
    file_run (file_of ∅) history (file_of (sy_files sample_end)) ∧
    (∀ k t, sy_promises sample_end !! k = Some t → send_failed t ∨ ∃ op, (k, (op, t)) ∈ history) ∧
    (∀ k, (k < length (sy_ops sample_end))%nat →
       is_Some (sy_promises sample_end !! k) ∨
       m_callbacks (sy_inbox sample_end) !! message_id 7 k = Some k) ∧
    (∀ s', rtc system_step sample_end s' → sy_served sample_end `prefix_of` sy_served s').
Proof.
  apply (proxy_linearizable 7 ∅ sample_end).
  - eapply rtc_l; [apply (step_call (proxy_read sample_handle 1 5))|].
    eapply rtc_l; [apply (step_call (proxy_write sample_handle 0 [x61; x62]))|].
    eapply rtc_l; [apply (step_serve 1), step_to_eq; by vm_compute|].
    eapply rtc_l; [apply (step_serve 0), step_to_eq; by vm_compute|].
    eapply rtc_l; [apply (step_receive 1), step_to_eq; by vm_compute|].
    apply rtc_once, (step_receive 0), step_to_eq. by vm_compute.
  - by vm_compute; repeat constructor.
  - by vm_compute.
Defined.
