(* ===== verification/Bootstrap.v ===== *)
(** * Opening a connection (src/src/communication/clprotoClientBootstrap.cc,
      src/src/communication/clprotoPipelineFactory.cc)

    The pipeline of handlers that a socket gets, what it does with the bytes
    that arrive, and the continuations that upgrade the connection to clproto
    and shake hands.  Bytes and continuations interleave.  Proved: whatever the
    interleaving and however the stream is cut, a server that answers the
    upgrade and the handshake gets an established connection, and every later
    message is given to the callback, in order. *)

From stdpp Require Import base numbers list strings.
From Stdlib Require Import ZArith Lia Strings.Byte.
From S2P Require Import Prelude Codec.
Local Open Scope Z_scope.

(** ** The pipeline *)

(** The handlers that can be removed, with the state of their promises; the
    bytes of the socket that no handler took; the messages that
    [CLProtoMessageHandler] gave to its callback. *)
Record pipeline := mk_pipeline {
  pl_upgrade : option (option (Try unit));
  pl_handshake : option handshake;
  pl_buf : bytes;
  pl_messages : list bytes
}.

Definition newPipeline (clprotoUpgrade hasHandshake : bool) : pipeline :=
  mk_pipeline (if clprotoUpgrade then Some None else None)
    (if hasHandshake then Some (mk_handshake None []) else None) [] [].

Section pipeline.
Context (onHandshakeResponse : bytes → option error_code).

(** A message that leaves the decoder: the handshake handler, if it is there,
    and the message handler. *)
Definition pipeline_message (m : bytes) : ST pipeline unit := λ p,
  match pl_handshake p with
  | None => (mk_pipeline (pl_upgrade p) None (pl_buf p) (pl_messages p ++ [m]), Value tt)
  | Some hs =>
      match handshake_read onHandshakeResponse m hs with
      | (hs', Value m') =>
          (mk_pipeline (pl_upgrade p) (Some hs') (pl_buf p) (pl_messages p ++ [m']), Value tt)
      | (hs', Exception e) =>
          (mk_pipeline (pl_upgrade p) (Some hs') (pl_buf p) (pl_messages p), Exception e)
      end
  end.

(** The loop of the decoder; each frame shortens the buffer. *)
Fixpoint pipeline_decode (fuel : nat) : ST pipeline unit := λ p,
  match fuel with
  | O => (p, Exception runtime_error)
  | S fuel' =>
      match decode (pl_buf p) with
      | Exception e => (p, Exception e)
      | Value None => (p, Value tt)
      | Value (Some (m, rest)) =>
          (_ ← pipeline_message m; pipeline_decode fuel')
            (mk_pipeline (pl_upgrade p) (pl_handshake p) rest (pl_messages p))
      end
  end.

(** Bytes arrive at the socket. *)
Definition pipeline_read (chunk : bytes) : ST pipeline unit := λ p,
  let buf := pl_buf p ++ chunk in
  match pl_upgrade p with
  | None =>
      pipeline_decode (S (length buf)) (mk_pipeline None (pl_handshake p) buf (pl_messages p))
  | Some m_promise =>
      let '(m_promise', buf', passed) := upgrade_read m_promise buf in
      let p' := mk_pipeline (Some m_promise') (pl_handshake p) buf' (pl_messages p) in
      match passed with
      | Some _ => pipeline_decode (S (length buf')) p'
      | None => (p', Value tt)
      end
  end.

(** ** The continuations of a connect *)

Inductive stage :=
| SendUpgrade
| AwaitUpgrade
| SendHandshake
| AwaitHandshake
| Established
| Failed (e : exc).

Record client := mk_client {
  cl_stage : stage;
  cl_pipeline : pipeline;
  cl_sent : list bytes
}.

Definition set_stage (st : stage) (c : client) : client := mk_client st (cl_pipeline c) (cl_sent c).

Context (m_performCLProtoUpgrade m_performCLProtoHandshake : bool) (host getHandshake : bytes).

Definition connected_client (hasHandshake : bool) : client :=
  mk_client SendUpgrade (newPipeline m_performCLProtoUpgrade hasHandshake) [].

(** The executor runs the next continuation if its future is ready.
    [getHandler] throws for a handler that the pipeline does not have. *)
Definition continue (c : client) : client :=
  let p := cl_pipeline c in
  match cl_stage c with
  | SendUpgrade =>
      if m_performCLProtoUpgrade
      then match pl_upgrade p with
           | None => set_stage (Failed invalid_argument) c
           | Some _ => mk_client AwaitUpgrade p (cl_sent c ++ [makeUpgradeRequest host])
           end
      else set_stage AwaitUpgrade c
  | AwaitUpgrade =>
      if m_performCLProtoUpgrade
      then match pl_upgrade p with
           | None => set_stage (Failed invalid_argument) c
           | Some None => c
           | Some (Some (Exception e)) => set_stage (Failed e) c
           | Some (Some (Value _)) =>
               mk_client SendHandshake (mk_pipeline None (pl_handshake p) (pl_buf p) (pl_messages p)) (cl_sent c)
           end
      else set_stage SendHandshake c
  | SendHandshake =>
      if m_performCLProtoHandshake
      then match pl_handshake p with
           | None => set_stage (Failed invalid_argument) c
           | Some _ => mk_client AwaitHandshake p (cl_sent c ++ [encode [getHandshake]])
           end
      else set_stage AwaitHandshake c
  | AwaitHandshake =>
      if m_performCLProtoHandshake
      then match pl_handshake p with
           | None => set_stage (Failed invalid_argument) c
           | Some hs =>
               match hs_promise hs with
               | None => c
               | Some (Exception e) => set_stage (Failed e) c
               | Some (Value _) =>
                   mk_client Established (mk_pipeline (pl_upgrade p) None (pl_buf p) (pl_messages p)) (cl_sent c)
               end
           end
      else set_stage Established c
  | Established | Failed _ => c
  end.

(** What happens at the client: bytes, or a continuation. *)
Inductive client_event :=
| Arrives (chunk : bytes)
| Continues.

Definition client_step (c : client) (e : client_event) : client :=
  match e with
  | Arrives chunk =>
      match pipeline_read chunk (cl_pipeline c) with
      | (p, Value _) => mk_client (cl_stage c) p (cl_sent c)
      | (p, Exception e) => mk_client (Failed e) p (cl_sent c)
      end
  | Continues => continue c
  end.

Definition client_run (c : client) (es : list client_event) : client := foldl client_step c es.

End pipeline.

(** ** Attempts *)

Definition CLIENT_RECONNECT_DELAYS : list Z :=
  [0; 100; 1000; 1000; 1000; 1000; 5000; 5000; 5000; 15000; 15000; 15000; 60000].

(** [std::array::at] with the index that [connect] computes. *)
Definition reconnectDelay (reconnectAttempt : nat) : Try Z :=
  match CLIENT_RECONNECT_DELAYS !! Nat.min reconnectAttempt (length CLIENT_RECONNECT_DELAYS) with
  | Some d => Value d
  | None => Exception out_of_range
  end.

(** [Future::onError]. *)
Definition on_error {St A} (m : ST St A) (handler : exc → ST St A) : ST St A := λ s,
  match m s with
  | (s', Value a) => (s', Value a)
  | (s', Exception e) => handler e s'
  end.

Section attempts.
Context {St : Type} (close_pipeline resolve open_connection : ST St unit).

(** One call of [connect] and the calls it makes of itself; a host that is not
    resolved throws past the handler of errors. *)
Fixpoint connect (fuel : nat) (reconnectAttempt : nat) : ST St unit :=
  match fuel with
  | O => st_throw runtime_error
  | S fuel' =>
      _ ← st_lift (reconnectDelay reconnectAttempt);
      _ ← (if bool_decide (reconnectAttempt ≠ 0%nat) then close_pipeline else mret tt);
      _ ← resolve;
      on_error open_connection (λ e,
        if bool_decide (reconnectAttempt = 0%nat) then st_throw e
        else connect fuel' (S reconnectAttempt))
  end.
End attempts.

(** ** Decoding in the pipeline *)

Section established.
Context (onHandshakeResponse : bytes → option error_code) (host getHandshake : bytes).

(** The handshake handler after the messages [msgs]. *)
Definition handshake_after (msgs : list bytes) (h : option handshake) : Prop :=
  match msgs with
  | [] => h = Some (mk_handshake None [])
  | _ => h = None ∨ h = Some (mk_handshake (Some (Value tt)) [None])
  end.

(** The first message is an answer that the client accepts. *)
Definition accepted (ms : list bytes) : Prop :=
  match ms with [] => True | m :: _ => onHandshakeResponse m = None end.

Lemma pipeline_message_good (m : bytes) (p : pipeline) :
  handshake_after (pl_messages p) (pl_handshake p) → accepted (pl_messages p ++ [m]) →
  ∃ h, pipeline_message onHandshakeResponse m p
       = (mk_pipeline (pl_upgrade p) h (pl_buf p) (pl_messages p ++ [m]), Value tt) ∧
    handshake_after (pl_messages p ++ [m]) h ∧ (h = None ↔ pl_handshake p = None).
Proof.
  destruct p as [u h buf [|m0 ms]]; simpl; unfold pipeline_message; simpl.
  - intros -> Hm. unfold handshake_read. simpl. unfold mbind, ST_bind. simpl. rewrite Hm.
    eexists. split; [done|]. split; [by right|done].
  - intros [-> | ->] _; eexists; (split; [done|]); split; [by left|done|by right|done].
Qed.

Lemma pipeline_decode_good (ms : list bytes) (fuel : nat) (p : pipeline) (b : bytes) :
  Forall frame_ok ms → pl_buf p ++ b = concat (map (λ m, encode [m]) ms) → (length (pl_buf p) < fuel)%nat →
  handshake_after (pl_messages p) (pl_handshake p) → accepted (pl_messages p ++ ms) →
  ∃ ms1 ms2 h left, pipeline_decode onHandshakeResponse fuel p
                    = (mk_pipeline (pl_upgrade p) h left (pl_messages p ++ ms1), Value tt) ∧
    ms = ms1 ++ ms2 ∧ left ++ b = concat (map (λ m, encode [m]) ms2) ∧ decode left = Value None ∧
    handshake_after (pl_messages p ++ ms1) h ∧ (h = None ↔ pl_handshake p = None).
Proof.
  intros Hms Hab Hfuel.
  destruct (decode_loop_good ms fuel (pl_buf p) b Hms Hab Hfuel) as (ms1 & ms2 & left & Hd & -> & Hl & Hn).
  clear Hms Hab Hfuel. revert p ms1 Hd. induction fuel as [|fuel IH]; intros p ms1 Hd Hh Hacc; [done|].
  simpl in Hd |- *. destruct (decode (pl_buf p)) as [[[m rest]|]|e] eqn:Hdec; simplify_eq/=.
  - destruct (decode_loop fuel rest) as [[ms' left']|] eqn:Hloop; simplify_eq/=.
    destruct (pipeline_message_good m (mk_pipeline (pl_upgrade p) (pl_handshake p) rest (pl_messages p)))
      as (h & Hmsg & Hh' & Hnone); [done| |].
    { simpl. revert Hacc. destruct (pl_messages p); done. }
    simpl in Hmsg, Hh'. rewrite (st_bind_value _ _ _ _ _ Hmsg).
    destruct (IH (mk_pipeline (pl_upgrade p) h rest (pl_messages p ++ [m])) ms')
      as (ms1' & ms2' & h' & left2 & Hrun & Hsplit & Hl2 & Hn2 & Hh2 & Hnone2); simpl in *.
    1-2: done. { by rewrite <-app_assoc. }
    exists (m :: ms1'), ms2', h', left2. rewrite Hrun. rewrite <-!app_assoc in *. simpl in *.
    split_and!; try done; [by f_equal|]. by rewrite Hnone2.
  - exists [], ms2, (pl_handshake p), (pl_buf p). rewrite app_nil_r.
    split_and!; try done. by destruct p.
Qed.

(** ** The handshake *)

#[local] Arguments starts_with : simpl never.
#[local] Arguments contains : simpl never.

Definition CRLF2 : bytes := CRLF ++ CRLF.

(** A header that ends at its first empty line and switches protocols. *)
Record upgrade_response (r : bytes) : Prop := {
  response_ends : contains CRLF2 r = true;
  response_first : ∀ a b, a ++ b = r → b ≠ [] → contains CRLF2 a = false;
  response_status : starts_with CLPROTO_UPGRADE_RESPONSE_STATUS r = true
}.

(** The handlers and the requests sent, by stage. *)
Definition stage_fits (c : client) : Prop :=
  let p := cl_pipeline c in
  match cl_stage c with
  | SendUpgrade => pl_upgrade p ≠ None ∧ pl_handshake p ≠ None ∧ cl_sent c = []
  | AwaitUpgrade => pl_upgrade p ≠ None ∧ pl_handshake p ≠ None ∧ cl_sent c = [makeUpgradeRequest host]
  | SendHandshake => pl_upgrade p = None ∧ pl_handshake p ≠ None ∧ cl_sent c = [makeUpgradeRequest host]
  | AwaitHandshake => pl_upgrade p = None ∧ pl_handshake p ≠ None ∧
      cl_sent c = [makeUpgradeRequest host; encode [getHandshake]]
  | Established => pl_upgrade p = None ∧ pl_handshake p = None ∧
      cl_sent c = [makeUpgradeRequest host; encode [getHandshake]]
  | Failed _ => False
  end.

(** Before the end of the response, and after it; [rem] are the bytes to come. *)
Definition awaiting_response (r : bytes) (ms : list bytes) (p : pipeline) (rem : list bytes) : Prop :=
  ∃ us fs, rem = us ++ fs ∧ pl_buf p ++ concat us = r ∧ concat us ≠ [] ∧
    concat fs = concat (map (λ m, encode [m]) ms) ∧
    pl_upgrade p = Some None ∧ pl_handshake p = Some (mk_handshake None []) ∧ pl_messages p = [].

Definition receiving (ms : list bytes) (p : pipeline) (rem : list bytes) : Prop :=
  (pl_upgrade p = None ∨ pl_upgrade p = Some (Some (Value tt))) ∧
  ∃ ms2, ms = pl_messages p ++ ms2 ∧ pl_buf p ++ concat rem = concat (map (λ m, encode [m]) ms2) ∧
    decode (pl_buf p) = Value None ∧ handshake_after (pl_messages p) (pl_handshake p).

Definition client_ok (r : bytes) (ms : list bytes) (c : client) (rem : list bytes) : Prop :=
  stage_fits c ∧ (awaiting_response r ms (cl_pipeline c) rem ∨ receiving ms (cl_pipeline c) rem).

(** A pipeline keeps the handlers it has while bytes arrive. *)
Definition same_handlers (p p' : pipeline) : Prop :=
  (pl_upgrade p = None ↔ pl_upgrade p' = None) ∧ (pl_handshake p = None ↔ pl_handshake p' = None).

Lemma stage_fits_handlers (c : client) (p : pipeline) :
  same_handlers (cl_pipeline c) p → stage_fits c → stage_fits (mk_client (cl_stage c) p (cl_sent c)).
Proof. unfold stage_fits, same_handlers. simpl. destruct (cl_stage c); tauto. Qed.

Lemma receiving_read (ms : list bytes) (p : pipeline) (chunk : bytes) (rem : list bytes) :
  Forall frame_ok ms → accepted ms → receiving ms p (chunk :: rem) →
  ∃ p', pipeline_read onHandshakeResponse chunk p = (p', Value tt) ∧ receiving ms p' rem ∧ same_handlers p p'.
Proof.
  intros Hok Hacc (Hu & ms2 & Hms & Hbuf & _ & Hh). simpl in Hbuf. rewrite app_assoc in Hbuf.
  rewrite Hms in Hok, Hacc. apply Forall_app in Hok as [_ Hok].
  destruct (pipeline_decode_good ms2 (S (length (pl_buf p ++ chunk)))
    (mk_pipeline (pl_upgrade p) (pl_handshake p) (pl_buf p ++ chunk) (pl_messages p)) (concat rem) Hok Hbuf)
    as (ms1 & ms3 & h & left & Hrun & -> & Hl & Hn & Hh' & Hnone); [simpl; lia|done|done|]. simpl in Hrun, Hh', Hnone.
  exists (mk_pipeline (pl_upgrade p) h left (pl_messages p ++ ms1)). split.
  { unfold pipeline_read. destruct Hu as [Hu|Hu]; rewrite Hu in *; exact Hrun. }
  unfold receiving, same_handlers. simpl. split.
  - split; [done|]. exists ms3. rewrite <-app_assoc. done.
  - split; [done|]. by rewrite Hnone.
Qed.

Lemma awaiting_read (r : bytes) (ms : list bytes) (p : pipeline) (chunk : bytes) (rem : list bytes) :
  upgrade_response r → awaiting_response r ms p (chunk :: rem) →
  ∃ p', pipeline_read onHandshakeResponse chunk p = (p', Value tt) ∧
    (awaiting_response r ms p' rem ∨ receiving ms p' rem) ∧ same_handlers p p'.
Proof.
  intros [Hend Hfirst Hstatus] (us & fs & Hrem & Hr & Hne & Hfs & Hu & Hh & Hm).
  destruct us as [|u us]; [done|]. simpl in Hrem, Hr, Hne. injection Hrem as <- ->.
  rewrite app_assoc in Hr.
  unfold pipeline_read. rewrite Hu. unfold upgrade_read. change (CRLF ++ CRLF) with CRLF2.
  destruct (decide (concat us = [])) as [Hus|Hus].
  - rewrite Hus, app_nil_r in Hr. rewrite Hr, Hend, Hstatus. simpl. eexists. split; [done|].
    unfold receiving, same_handlers. simpl. rewrite Hu, Hh, Hm. split; [|done]. right. split; [by right|].
    exists ms. rewrite concat_app, Hus. done.
  - rewrite (Hfirst _ _ Hr Hus). simpl. eexists. split; [done|].
    unfold same_handlers. simpl. rewrite Hu. split; [|done]. left. exists us, fs. simpl. done.
Qed.

Lemma client_ok_step (r : bytes) (ms : list bytes) (c : client) (e : client_event) (rem : list bytes) :
  Forall frame_ok ms → accepted ms → upgrade_response r →
  client_ok r ms c (match e with Arrives chunk => chunk :: rem | Continues => rem end) →
  client_ok r ms (client_step onHandshakeResponse true true host getHandshake c e) rem.
Proof.
  intros Hok Hacc Hr [Hst Hp]. destruct e as [chunk|]; simpl.
  - assert (∃ p', pipeline_read onHandshakeResponse chunk (cl_pipeline c) = (p', Value tt) ∧
      (awaiting_response r ms p' rem ∨ receiving ms p' rem) ∧ same_handlers (cl_pipeline c) p')
      as (p' & -> & Hp' & Hsame).
    { destruct Hp as [Hp|Hp]; [by apply awaiting_read|].
      destruct (receiving_read ms (cl_pipeline c) chunk rem Hok Hacc Hp) as (p' & ? & ? & ?). eauto. }
    split; [by apply stage_fits_handlers|done].
  - destruct c as [st [u h buf msgs] sent]. unfold client_ok, stage_fits, continue, set_stage in *. simpl in *.
    destruct st; simpl in *; destruct_conj; try done.
    + destruct u; [|done]. by subst.
    + destruct u as [[[[]|?]|]|]; try done.
      * split; [done|]. right. destruct Hp as [(us & fs & Hp)|Hp]; [naive_solver|].
        destruct Hp as [_ Hp]. split; [by left|done].
      * destruct Hp as [(us & fs & Hp)|[[|] _]]; naive_solver.
    + destruct h; [|done]. by subst.
    + subst u. destruct h as [[[[[]|e]|] ds]|]; try done.
      * split; [done|]. right. destruct Hp as [(us & fs & Hp)|Hp]; [naive_solver|].
        destruct Hp as (_ & ms2 & Hms & Hbuf & Hd & Hh). split; [by left|]. exists ms2. simpl in *.
        split_and!; try done. destruct msgs; [done|by left].
      * destruct Hp as [(us & fs & Hp)|(_ & ms2 & _ & _ & _ & Hh)]; [naive_solver|].
        simpl in Hh. destruct msgs; naive_solver.
Qed.

(** The chunks that arrive in a history. *)
Definition arrivals (es : list client_event) : list bytes :=
  omap (λ e, match e with Arrives chunk => Some chunk | Continues => None end) es.

Lemma client_ok_run (r : bytes) (ms : list bytes) (es : list client_event) (c : client) (rem : list bytes) :
  Forall frame_ok ms → accepted ms → upgrade_response r → client_ok r ms c (arrivals es ++ rem) →
  client_ok r ms (client_run onHandshakeResponse true true host getHandshake c es) rem.
Proof.
  intros Hok Hacc Hr. revert c. induction es as [|e es IH]; intros c Hc; simpl; [done|].
  apply IH. apply client_ok_step; try done. by destruct e.
Qed.

Lemma receiving_all (ms : list bytes) (p : pipeline) :
  Forall frame_ok ms → receiving ms p [] → pl_messages p = ms ∧ pl_buf p = [].
Proof.
  intros Hok (_ & ms2 & Hms & Hbuf & Hd & _). simpl in Hbuf. rewrite app_nil_r in Hbuf.
  destruct ms2 as [|m ms2]; [by rewrite app_nil_r in Hms|]. exfalso.
  rewrite Hms in Hok. apply Forall_app in Hok as [_ Hok]. apply Forall_cons in Hok as [Hm _].
  cbn [map concat] in Hbuf. by rewrite Hbuf, decode_frame in Hd.
Qed.

(** With everything received, four continuations are enough. *)
Lemma established_after (r : bytes) (ms : list bytes) (c : client) :
  Forall frame_ok ms → accepted ms → upgrade_response r → ms ≠ [] → client_ok r ms c [] →
  cl_stage (client_run onHandshakeResponse true true host getHandshake c (replicate 4 Continues)) = Established.
Proof.
  intros Hok Hacc Hr Hne [Hst [(us & fs & Hrem & _ & Hus & _)|Hp]].
  { symmetry in Hrem. apply app_eq_nil in Hrem as [-> _]. done. }
  destruct (receiving_all ms _ Hok Hp) as [Hmsgs Hbuf]. destruct Hp as (Hu & ms2 & _ & _ & _ & Hh).
  rewrite Hmsgs in Hh. destruct ms as [|m ms]; [done|]. simpl in Hh.
  destruct c as [st [u h buf msgs] sent]. unfold stage_fits in Hst. simpl in *.
  destruct st; destruct_conj; try done; destruct Hu as [-> | ->]; destruct Hh as [-> | ->]; done.
Qed.

Lemma client_run_app (c : client) (es1 es2 : list client_event) :
  client_run onHandshakeResponse true true host getHandshake c (es1 ++ es2)
  = client_run onHandshakeResponse true true host getHandshake
      (client_run onHandshakeResponse true true host getHandshake c es1) es2.
Proof. apply foldl_app. Qed.

Lemma established_run (r : bytes) (ms : list bytes) (c : client) (es : list client_event) :
  Forall frame_ok ms → accepted ms → upgrade_response r → ms ≠ [] → client_ok r ms c (arrivals es) →
  let c' := client_run onHandshakeResponse true true host getHandshake c (es ++ replicate 4 Continues) in
  cl_stage c' = Established ∧ cl_sent c' = [makeUpgradeRequest host; encode [getHandshake]] ∧
  pl_messages (cl_pipeline c') = ms ∧ pl_buf (cl_pipeline c') = [].
Proof.
  intros Hok Hacc Hr Hne Hc. cbv zeta. rewrite client_run_app.
  rewrite <-(app_nil_r (arrivals es)) in Hc. apply client_ok_run in Hc; [|done..].
  set (c1 := client_run _ _ _ _ _ c es) in *. clearbody c1.
  pose proof (established_after r ms c1 Hok Hacc Hr Hne Hc) as Hest.
  apply (client_ok_run r ms (replicate 4 Continues) c1 []) in Hc; [|done..].
  set (c2 := client_run _ _ _ _ _ c1 _) in *. clearbody c2. destruct Hc as [Hst Hp].
  unfold stage_fits in Hst. rewrite Hest in Hst. destruct Hst as (Hup & _ & Hsent).
  destruct Hp as [(us & fs & _ & _ & _ & _ & Hup' & _)|Hp]; [congruence|].
  by destruct (receiving_all _ _ Hok Hp).
Qed.

(** ** The two phases *)

(** The server sends what follows its header when it has both requests. *)
Definition answers_in_turn (r : bytes) (c : client) (es : list client_event) : Prop :=
  ∀ es1 chunk es2, es = es1 ++ Arrives chunk :: es2 →
    (length r < length (concat (arrivals es1) ++ chunk))%nat →
    length (cl_sent (client_run onHandshakeResponse true true host getHandshake c es1)) = 2%nat.

(** The client waits for the end of the header [r], of which [us] is to come. *)
Definition waits_header (r : bytes) (c : client) (us : list bytes) : Prop :=
  stage_fits c ∧ pl_buf (cl_pipeline c) ++ concat us = r ∧ pl_upgrade (cl_pipeline c) = Some None.

Lemma waits_header_run (r : bytes) (us : list bytes) (es : list client_event) (c : client) :
  upgrade_response r → concat us ≠ [] → waits_header r c (arrivals es ++ us) →
  waits_header r (client_run onHandshakeResponse true true host getHandshake c es) us.
Proof.
  intros [_ Hfirst _] Hne. revert c. induction es as [|e es IH]; intros c (Hst & Hr & Hu); [by split_and!|].
  simpl. apply IH. destruct e as [chunk|]; simpl in *.
  - rewrite app_assoc in Hr. unfold pipeline_read, upgrade_read. rewrite Hu. change (CRLF ++ CRLF) with CRLF2.
    rewrite (Hfirst _ _ Hr); [|rewrite concat_app; intros [_ ?]%app_eq_nil; done].
    simpl. split_and!; [|done|done]. apply stage_fits_handlers; [|done]. by unfold same_handlers; simpl; rewrite Hu.
  - destruct c as [st [u h buf msgs] sent]. unfold waits_header, stage_fits, continue, set_stage in *. simpl in *.
    subst u. destruct st; simpl in *; destruct_conj; try done. by subst.
Qed.

Lemma waits_header_sent (r : bytes) (c : client) (us : list bytes) :
  waits_header r c us → (length (cl_sent c) ≤ 1)%nat.
Proof.
  destruct c as [st p sent]. intros (Hst & _ & Hu). unfold stage_fits in Hst. simpl in *. rewrite Hu in Hst.
  destruct st; try done; destruct Hst as (? & ? & Hs); rewrite ?Hs; simpl; try done; lia.
Qed.

(** Chunks of a stream are cut at the end of the header, or one goes across. *)
Lemma cut_or_across (chunks : list bytes) (r fr : bytes) :
  concat chunks = r ++ fr →
  (∃ us fs, chunks = us ++ fs ∧ concat us = r ∧ concat fs = fr) ∨
  (∃ us chunk fs rest, chunks = us ++ chunk :: fs ∧ concat us ++ rest = r ∧ rest ≠ [] ∧
     (length r < length (concat us ++ chunk))%nat).
Proof.
  revert r. induction chunks as [|b chunks IH]; intros r Hc; simpl in Hc.
  { symmetry in Hc. apply app_eq_nil in Hc as [-> ->]. left. by exists [], []. }
  destruct (decide (r = [])) as [->|Hr]; [left; exists [], (b :: chunks); by split_and!|].
  destruct (decide (length r < length b)%nat) as [Hlt|Hge]; [right; by exists [], b, chunks, r|].
  apply app_eq_inv in Hc as [(k & -> & Hc)|(k & -> & Hc)].
  - rewrite length_app in Hge. assert (k = []) as -> by (destruct k; [done|simpl in Hge; lia]).
    left. exists [r], chunks. simpl in *. by rewrite !app_nil_r.
  - destruct (IH k Hc) as [(us & fs & -> & <- & <-)|(us & chunk & fs & rest & -> & <- & Hne & Hlen)]; [left|right].
    + by exists (b :: us), fs.
    + exists (b :: us), chunk, fs, rest. simpl. rewrite <-!app_assoc, !length_app in *. split_and!; [done..|lia].
Qed.

(** Events with the chunks [us], [chunk] and [fs]. *)
Lemma arrivals_split (es : list client_event) (us fs : list bytes) (chunk : bytes) :
  arrivals es = us ++ chunk :: fs → ∃ es1 es2, es = es1 ++ Arrives chunk :: es2 ∧ arrivals es1 = us.
Proof.
  revert us. induction es as [|e es IH]; intros us Hes; [by destruct us|].
  destruct e as [b|]; simpl in Hes.
  - destruct us as [|u us]; injection Hes as -> Hes; [by exists [], es|].
    destruct (IH us Hes) as (es1 & es2 & -> & <-). by exists (Arrives u :: es1), es2.
  - destruct (IH us Hes) as (es1 & es2 & -> & <-). by exists (Continues :: es1), es2.
Qed.

(** A server that answers in turn never sends a chunk across the end. *)
Lemma in_turn_cut (r fr : bytes) (c : client) (es : list client_event) :
  upgrade_response r → stage_fits c → pl_buf (cl_pipeline c) = [] → pl_upgrade (cl_pipeline c) = Some None →
  concat (arrivals es) = r ++ fr → answers_in_turn r c es →
  ∃ us fs, arrivals es = us ++ fs ∧ concat us = r ∧ concat fs = fr.
Proof.
  intros Hr Hst Hbuf Hu Hes Hturn.
  destruct (cut_or_across (arrivals es) r fr Hes) as [?|(us & chunk & fs & rest & Ha & Hrest & Hne & Hlen)]; [done|].
  exfalso. destruct (arrivals_split es us fs chunk Ha) as (es1 & es2 & -> & <-).
  pose proof (Hturn es1 chunk es2 eq_refl Hlen) as Htwo.
  assert (waits_header r c (arrivals es1 ++ [rest])) as Hw.
  { split_and!; [done| |done]. rewrite Hbuf, concat_app. simpl. by rewrite app_nil_r. }
  apply waits_header_run in Hw; [|done|by simpl; rewrite app_nil_r].
  apply waits_header_sent in Hw. lia.
Qed.

End established.

(** C23: opening a connection, composed from the framing, the two handlers and
    the continuations.  The server answers the upgrade request with a header
    that switches protocols, and sends the rest of its stream, the answer to the
    handshake, which the client accepts, and any messages of less than 4 GiB,
    when both requests of the client were sent.  Then, whatever chunks the
    stream is cut into and however the continuations of the connect interleave
    with them, the connection is established, exactly the two requests were
    sent, and the callback has got the answer and all messages in their
    order. *)
Theorem connection_established (onHandshakeResponse : bytes → option error_code) (host getHandshake : bytes)
    (response answer : bytes) (messages : list bytes) (es : list client_event) :
  upgrade_response response → onHandshakeResponse answer = None →
  Forall (λ m, chainLength m + lengthFieldLength < 4294967296) (answer :: messages) →
  concat (arrivals es) = response ++ concat (map (λ m, encode [m]) (answer :: messages)) →
  answers_in_turn onHandshakeResponse host getHandshake response (connected_client true true) es →
  let c := client_run onHandshakeResponse true true host getHandshake (connected_client true true)
             (es ++ replicate 4 Continues) in
  cl_stage c = Established ∧ cl_sent c = [makeUpgradeRequest host; encode [getHandshake]] ∧
  pl_messages (cl_pipeline c) = answer :: messages ∧ pl_buf (cl_pipeline c) = [].
Proof.
  intros Hresp Hans Hok Hes Hturn.
  destruct (in_turn_cut onHandshakeResponse host getHandshake response
    (concat (map (λ m, encode [m]) (answer :: messages))) (connected_client true true) es Hresp)
    as (us & fs & Ha & Hus & Hfs); [done..|].
  apply (established_run onHandshakeResponse host getHandshake response); try done.
  split; [done|]. left. exists us, fs. split_and!; try done.
  intros Hnil. rewrite Hnil in Hus. subst response. by pose proof (response_ends _ Hresp).
Qed.

Definition sample_response : bytes := CLPROTO_UPGRADE_RESPONSE_STATUS ++ CRLF2.

(** No proper beginning of [r] has an empty line. *)
Lemma response_first_check (r : bytes) :
  forallb (λ n, negb (contains CRLF2 (take n r))) (seq 0 (length r)) = true →
  ∀ a b, a ++ b = r → b ≠ [] → contains CRLF2 a = false.
Proof.
  intros Hall a b <- Hb. rewrite forallb_forall in Hall.
  specialize (Hall (length a)). rewrite take_app_length in Hall. apply negb_true_iff, Hall.
  apply in_seq. rewrite length_app. destruct b; [done|simpl; lia].
Qed.

Lemma sample_response_ok : upgrade_response sample_response.
Proof.
  constructor; [vm_compute; reflexivity| |vm_compute; reflexivity].
  apply response_first_check. vm_compute. reflexivity.
Qed.

Definition sample_events : list client_event :=
  [Continues; Arrives (take 3 sample_response); Arrives (drop 3 sample_response); Continues; Continues;
   Arrives [x00; x00; x00; x01; x61; x00; x00; x00]; Continues; Arrives [x01; x62]].

Lemma connection_established_witness :
  let c := client_run (λ _, None) true true [x68] [x67] (connected_client true true)
             (sample_events ++ replicate 4 Continues) in
  cl_stage c = Established ∧ cl_sent c = [makeUpgradeRequest [x68]; encode [[x67]]] ∧
  pl_messages (cl_pipeline c) = [[x61]; [x62]] ∧ pl_buf (cl_pipeline c) = [].
Proof.
  apply (connection_established (λ _, None) [x68] [x67] sample_response [x61] [[x62]] sample_events).
  - apply sample_response_ok.
  - reflexivity.
  - apply Forall_cons. split; [done|]. by apply Forall_singleton.
  - reflexivity.
  - intros es1 chunk es2 Hes Hlen. unfold sample_events in Hes.
    do 8 (destruct es1 as [|e es1];
      [injection Hes as <- <- || discriminate Hes; first [vm_compute; reflexivity|vm_compute in Hlen; lia]
      |injection Hes as <- Hes]).
    by destruct es1.
Defined.

(** ** Bytes behind the response *)

Lemma starts_with_app (p a b : bytes) : starts_with p a = true → starts_with p (a ++ b) = true.
Proof.
  revert a. induction p as [|x p IH]; intros [|y a] Hs; try done; cbn [starts_with app] in *.
  apply andb_true_iff in Hs as [-> Hs]. by apply IH.
Qed.

Lemma contains_app (p a b : bytes) : contains p a = true → contains p (a ++ b) = true.
Proof.
  induction a as [|x a IH]; cbn [contains]; intros [Hs|Hs]%orb_true_iff; try done.
  - destruct p; [|done]. by destruct b.
  - change (starts_with p ((x :: a) ++ b) || contains p (a ++ b) = true). by rewrite starts_with_app.
  - change (starts_with p ((x :: a) ++ b) || contains p (a ++ b) = true). by rewrite IH, orb_true_r.
Qed.

(** What arrives in one piece with the response is thrown away with it. *)
Lemma upgrade_drops_rest (onHandshakeResponse : bytes → option error_code) (r rest : bytes)
    (h : option handshake) :
  upgrade_response r →
  pipeline_read onHandshakeResponse (r ++ rest) (mk_pipeline (Some None) h [] [])
  = (mk_pipeline (Some (Some (Value tt))) h [] [], Value tt).
Proof.
  intros [Hend _ Hstatus]. unfold pipeline_read, upgrade_read.
  change (CRLF ++ CRLF) with CRLF2. cbn [pl_buf pl_upgrade pl_handshake pl_messages app].
  by rewrite (contains_app _ _ rest Hend), (starts_with_app _ _ rest Hstatus).
Qed.

(** ** Attempts *)

(** The table has no entry for the index 13, which the bound lets through. *)
Lemma reconnectDelay_bounds (n : nat) :
  (n < 13)%nat → (∃ d, reconnectDelay n = Value d) ∧ reconnectDelay (13 + n) = Exception out_of_range.
Proof.
  intros Hn. split; [|done]. do 13 (destruct n as [|n]; [by eexists|]). lia.
Qed.

Section attempts_facts.
Context {St : Type} (close_pipeline resolve open_connection : ST St unit).

(** A first attempt is the only one: its error is thrown. *)
Lemma connect_first_failure (fuel : nat) (s s1 s2 : St) (e : exc) :
  resolve s = (s1, Value tt) → open_connection s1 = (s2, Exception e) →
  connect close_pipeline resolve open_connection (S fuel) 0 s = (s2, Exception e).
Proof.
  intros Hr Ho. simpl. unfold mbind, ST_bind. simpl. rewrite Hr. unfold on_error. by rewrite Ho.
Qed.

(** Attempts that all fail end, from the first repetition on, with the
    exception of the table and not with theirs. *)
Lemma connect_gives_up (fuel n : nat) (s : St) :
  (∀ s, ∃ s', close_pipeline s = (s', Value tt)) → (∀ s, ∃ s', resolve s = (s', Value tt)) →
  (∀ s, ∃ s' e, open_connection s = (s', Exception e)) → (1 ≤ n ≤ 13)%nat → (13 < fuel + n)%nat →
  ∃ s', connect close_pipeline resolve open_connection fuel n s = (s', Exception out_of_range).
Proof.
  intros Hc Hr Ho. revert n s. induction fuel as [|fuel IH]; intros n s Hn Hfuel; [lia|]. cbn [connect].
  destruct (decide (n = 13%nat)) as [->|Hne]; [by eexists|].
  destruct (reconnectDelay_bounds n ltac:(lia)) as [[d Hd] _].
  unfold mbind, ST_bind, st_lift. rewrite Hd. rewrite bool_decide_eq_true_2 by lia.
  destruct (Hc s) as [s1 ->]. destruct (Hr s1) as [s2 ->]. unfold on_error.
  destruct (Ho s2) as (s3 & e & ->). rewrite bool_decide_eq_false_2 by lia. apply IH; lia.
Qed.
End attempts_facts.
