(* ===== verification/Certificates.v ===== *)
(** * Client certificates (src/src/communication/cert)

    A certificate and its key come from files or from memory and are handed to
    a TLS context.  The context is that of asio, a parameter: its four calls
    may throw.  Proved: the certificate is set before the key and a failure
    ends the call, so that a context never gets a key without its certificate;
    certificates from files and from memory with the same contents and format
    prepare a context in the same way. *)

From stdpp Require Import base numbers list strings.
From Stdlib Require Import ZArith.
From S2P Require Import Prelude.

Inductive file_format := asn1 | pem.

(** [asio::ssl::context]. *)
Class SslContext (Ctx : Type) := {
  use_certificate_chain_file : string → ST Ctx unit;
  use_private_key_file : string → file_format → ST Ctx unit;
  use_certificate_chain : bytes → ST Ctx unit;
  use_private_key : bytes → file_format → ST Ctx unit
}.

Inductive KeyFormat := ASN1 | PEM.

(** The data in memory is a view of the caller's buffers: what they hold when
    the context is prepared. *)
Inductive CertificateData :=
| FilesystemCertificate (m_certPath m_keyPath : string) (m_keyFormat : KeyFormat)
| InMemoryCertificate (m_certData m_keyData : bytes) (m_keyFormat : KeyFormat).

Definition keyFormat (f : KeyFormat) : file_format := match f with ASN1 => asn1 | PEM => pem end.

Section certificates.
Context {Ctx : Type} `{!SslContext Ctx}.

Definition initContext (c : CertificateData) : ST Ctx unit :=
  match c with
  | FilesystemCertificate certPath keyPath f =>
      _ ← use_certificate_chain_file certPath; use_private_key_file keyPath (keyFormat f)
  | InMemoryCertificate certData keyData f =>
      _ ← use_certificate_chain certData; use_private_key keyData (keyFormat f)
  end.

(** The overload for shared contexts works on the one that [ctx] points to and
    returns the pointer. *)
Definition initContext_shared (c : CertificateData) (ctx : nat) : ST (list Ctx) nat := λ heap,
  match heap !! ctx with
  | None => (heap, Exception undefined_behaviour)
  | Some x =>
      let '(x', r) := initContext c x in
      (<[ctx := x']> heap, match r with Value _ => Value ctx | Exception e => Exception e end)
  end.

(** The first call of [initContext]. *)
Definition use_chain (c : CertificateData) : ST Ctx unit :=
  match c with
  | FilesystemCertificate certPath _ _ => use_certificate_chain_file certPath
  | InMemoryCertificate certData _ _ => use_certificate_chain certData
  end.

(** Without the certificate the key is not set. *)
Lemma initContext_no_certificate (c : CertificateData) (x x' : Ctx) (e : exc) :
  use_chain c x = (x', Exception e) → initContext c x = (x', Exception e).
Proof. destruct c; intros Hc; cbn in *; unfold mbind, ST_bind; by rewrite Hc. Qed.

(** Other contexts stay as they are. *)
Lemma initContext_shared_only (c : CertificateData) (ctx other : nat) (heap : list Ctx) :
  other ≠ ctx → (initContext_shared c ctx heap).1 !! other = heap !! other.
Proof.
  intros Hne. unfold initContext_shared. destruct (heap !! ctx) as [x|]; [|done].
  destruct (initContext c x) as [x' r]. simpl. by rewrite list_lookup_insert_ne.
Qed.

Section files.
(** The files of the system, and a context that uses a file as it uses what the
    file has. *)
Context (file : string → option bytes).
Hypothesis chain_file : ∀ path b x,
  file path = Some b → use_certificate_chain_file path x = use_certificate_chain b x.
Hypothesis key_file : ∀ path b f x,
  file path = Some b → use_private_key_file path f x = use_private_key b f x.

Lemma certificate_from_memory (certPath keyPath : string) (cert key : bytes) (f : KeyFormat) (x : Ctx) :
  file certPath = Some cert → file keyPath = Some key →
  initContext (FilesystemCertificate certPath keyPath f) x = initContext (InMemoryCertificate cert key f) x.
Proof.
  intros Hc Hk. cbn. unfold mbind, ST_bind. rewrite (chain_file _ _ _ Hc).
  destruct (use_certificate_chain cert x) as [x' [?|e]]; [by apply key_file|done].
Qed.
End files.
End certificates.
