(* ===== verification/FuseOperations.v ===== *)
(** * Interrupted FUSE requests (src/src/fuseOperations.cc)

    A thread that serves a FUSE session says so; only then does it ask the
    library whether its request was interrupted, since a thread without a
    session has no request.  The flag is a variable of each thread;
    [fuse_interrupted] is the library's answer for a thread and a parameter. *)

From stdpp Require Import base numbers gmap relations.
From Stdlib Require Import ZArith.
From S2P Require Import Prelude.

(** The threads whose [fuseSessionActive] is true. *)
Definition fuse_sessions := gset nat.

Definition activateFuseSession (thread : nat) (s : fuse_sessions) : fuse_sessions := {[thread]} ∪ s.

(** Whether the library is asked. *)
Definition fuse_asks (thread : nat) (s : fuse_sessions) : bool := bool_decide (thread ∈ s).
Definition fuseInterrupted (fuse_interrupted : nat → Z) (thread : nat) (s : fuse_sessions) : bool :=
  fuse_asks thread s && negb (fuse_interrupted thread =? 0)%Z.

(** After any activations exactly the activated threads see interruptions. *)
Lemma fuse_interrupted_iff (fuse_interrupted : nat → Z) (threads : list nat) (thread : nat) :
  fuseInterrupted fuse_interrupted thread (foldr activateFuseSession ∅ threads) = true ↔
  thread ∈ threads ∧ fuse_interrupted thread ≠ 0%Z.
Proof.
  unfold fuseInterrupted, fuse_asks. rewrite andb_true_iff, bool_decide_eq_true, negb_true_iff, Z.eqb_neq.
  assert (thread ∈ foldr activateFuseSession ∅ threads ↔ thread ∈ threads) as ->; [|done].
  induction threads as [|t l IH]; simpl; unfold activateFuseSession in *; set_solver.
Qed.
