(* ===== verification/ConnectionPool.v ===== *)
(** * The connection pool (src/src/communication/connectionPool.cc)

    The pool hands idle connections to the threads that send.  The threads, the
    executor of the pool and the network interleave: the pool is a state with a
    program counter for every thread inside [send], and each event below is one
    step of one of them.  Proved: a connection is in one place at a time, so no
    two messages are written to it at once; every send is answered at most
    once; and connections that leak out of the pool leave all later sends
    waiting. *)

From stdpp Require Import base numbers list gmap relations strings.
From Stdlib Require Import ZArith Lia.
From S2P Require Import Prelude.

(** ** State *)

(** Where a thread is in [send]: at the head of the loop with what [client]
    points to, after the test of [m_connected], waiting inside [pop], after
    [pop], behind the loop. *)
Inductive send_pc :=
| AtLoop (client : option nat)
| AtPop
| InPop
| Popped (client : nat)
| AtWrite (client : nat).

Record sender := mk_sender { sd_id : nat; sd_pc : send_pc }.

(** [cp_good] are the connections for which [connected()] holds; the lists of
    tasks are those the executors have still to run. *)
Record ConnectionPool := mk_ConnectionPool {
  m_connected : bool;
  m_idleConnections : list nat;
  cp_good : gset nat;
  cp_senders : list sender;
  cp_reconnecting : list nat;
  cp_writing : list (nat * nat);
  cp_returning : list nat;
  cp_stopping : bool;
  cp_callbacks : list (nat * option error_code)
}.

Definition connection_aborted : option error_code := Some (make_error_code ECONNABORTED).

Definition set_senders (l : list sender) (p : ConnectionPool) : ConnectionPool :=
  mk_ConnectionPool (m_connected p) (m_idleConnections p) (cp_good p) l (cp_reconnecting p) (cp_writing p)
    (cp_returning p) (cp_stopping p) (cp_callbacks p).
Definition set_idle (l : list nat) (p : ConnectionPool) : ConnectionPool :=
  mk_ConnectionPool (m_connected p) l (cp_good p) (cp_senders p) (cp_reconnecting p) (cp_writing p)
    (cp_returning p) (cp_stopping p) (cp_callbacks p).
Definition set_good (g : gset nat) (p : ConnectionPool) : ConnectionPool :=
  mk_ConnectionPool (m_connected p) (m_idleConnections p) g (cp_senders p) (cp_reconnecting p)
    (cp_writing p) (cp_returning p) (cp_stopping p) (cp_callbacks p).
Definition set_reconnecting (l : list nat) (p : ConnectionPool) : ConnectionPool :=
  mk_ConnectionPool (m_connected p) (m_idleConnections p) (cp_good p) (cp_senders p) l (cp_writing p)
    (cp_returning p) (cp_stopping p) (cp_callbacks p).
Definition set_writing (l : list (nat * nat)) (p : ConnectionPool) : ConnectionPool :=
  mk_ConnectionPool (m_connected p) (m_idleConnections p) (cp_good p) (cp_senders p) (cp_reconnecting p) l
    (cp_returning p) (cp_stopping p) (cp_callbacks p).
Definition set_returning (l : list nat) (p : ConnectionPool) : ConnectionPool :=
  mk_ConnectionPool (m_connected p) (m_idleConnections p) (cp_good p) (cp_senders p) (cp_reconnecting p)
    (cp_writing p) l (cp_stopping p) (cp_callbacks p).
Definition set_connected (b stopping : bool) (p : ConnectionPool) : ConnectionPool :=
  mk_ConnectionPool b (m_idleConnections p) (cp_good p) (cp_senders p) (cp_reconnecting p) (cp_writing p)
    (cp_returning p) stopping (cp_callbacks p).
Definition callback (id : nat) (ec : option error_code) (p : ConnectionPool) : ConnectionPool :=
  mk_ConnectionPool (m_connected p) (m_idleConnections p) (cp_good p) (cp_senders p) (cp_reconnecting p)
    (cp_writing p) (cp_returning p) (cp_stopping p) (cp_callbacks p ++ [(id, ec)]).

(** [CLProtoClientBootstrap::connected]. *)
Definition connected (c : nat) (p : ConnectionPool) : bool := bool_decide (c ∈ cp_good p).

(** ** Steps *)

(** [pop] on a queue that has an element, or not yet. *)
Definition pop_step (i id : nat) (p : ConnectionPool) : ConnectionPool :=
  match m_idleConnections p with
  | client :: idle => set_idle idle (set_senders (<[i := mk_sender id (Popped client)]> (cp_senders p)) p)
  | [] => set_senders (<[i := mk_sender id InPop]> (cp_senders p)) p
  end.

(** The head of the loop once the thread goes round again. *)
Definition again_step (i id : nat) (p : ConnectionPool) : ConnectionPool :=
  if m_connected p then set_senders (<[i := mk_sender id AtPop]> (cp_senders p)) p
  else callback id connection_aborted (set_senders (delete i (cp_senders p)) p).

(** One step of the thread at [i]. *)
Definition send_step (i : nat) (p : ConnectionPool) : option ConnectionPool :=
  '(mk_sender id pc) ← cp_senders p !! i;
  Some (match pc with
        | AtLoop (Some client) =>
            if connected client p
            then set_senders (<[i := mk_sender id (AtWrite client)]> (cp_senders p)) p
            else again_step i id p
        | AtLoop None => again_step i id p
        | AtPop | InPop => pop_step i id p
        | Popped client =>
            if negb (connected client p) && m_connected p
            then set_reconnecting (cp_reconnecting p ++ [client])
                   (set_senders (<[i := mk_sender id (AtLoop None)]> (cp_senders p)) p)
            else set_senders (<[i := mk_sender id (AtLoop (Some client))]> (cp_senders p)) p
        | AtWrite client =>
            let p' := set_senders (delete i (cp_senders p)) p in
            if negb (connected client p) then callback id connection_aborted p'
            else set_writing (cp_writing p' ++ [(client, id)]) p'
        end).

Definition send (id : nat) (p : ConnectionPool) : ConnectionPool :=
  if negb (m_connected p) then callback id connection_aborted p
  else set_senders (cp_senders p ++ [mk_sender id (AtLoop None)]) p.

(** The continuations of a write and of an attempt to reconnect.  A failure
    skips them. *)
Definition write_done (j : nat) (ok : bool) (p : ConnectionPool) : option ConnectionPool :=
  '(client, id) ← cp_writing p !! j;
  let p' := set_writing (delete j (cp_writing p)) p in
  Some (if ok then callback id None (set_returning (cp_returning p ++ [client]) p') else p').

Definition return_done (j : nat) (p : ConnectionPool) : option ConnectionPool :=
  client ← cp_returning p !! j;
  Some (set_idle (m_idleConnections p ++ [client]) (set_returning (delete j (cp_returning p)) p)).

Definition reconnect_done (j : nat) (ok : bool) (p : ConnectionPool) : option ConnectionPool :=
  client ← cp_reconnecting p !! j;
  let p' := set_reconnecting (delete j (cp_reconnecting p)) p in
  Some (if ok
        then if m_connected p
             then set_idle (m_idleConnections p ++ [client]) (set_good ({[client]} ∪ cp_good p) p')
             else set_good (cp_good p ∖ {[client]}) p'
        else p').

(** [stop] and [close]: the flag first, then the queue is cleared and aborted
    and the pipelines are closed.  [abort] reaches the threads that wait. *)
Definition stop_begin (p : ConnectionPool) : ConnectionPool :=
  if negb (m_connected p) then p else set_connected false true p.

Definition waits (s : sender) : bool := match sd_pc s with InPop => true | _ => false end.

Definition close (p : ConnectionPool) : ConnectionPool :=
  let aborted := filter (λ s, waits s = true) (cp_senders p) in
  mk_ConnectionPool (m_connected p) [] ∅ (filter (λ s, waits s = false) (cp_senders p))
    (cp_reconnecting p) (cp_writing p) (cp_returning p) false
    (cp_callbacks p ++ map (λ s, (sd_id s, connection_aborted)) aborted).

Inductive event :=
| Send (id : nat)
| SenderRuns (i : nat)
| WriteDone (j : nat) (ok : bool)
| ReturnDone (j : nat)
| ReconnectDone (j : nat) (ok : bool)
| Breaks (client : nat)
| Stop
| StopCloses.

Definition step (e : event) (p : ConnectionPool) : option ConnectionPool :=
  match e with
  | Send id => Some (send id p)
  | SenderRuns i => send_step i p
  | WriteDone j ok => write_done j ok p
  | ReturnDone j => return_done j p
  | ReconnectDone j ok => reconnect_done j ok p
  | Breaks client => Some (set_good (cp_good p ∖ {[client]}) p)
  | Stop => Some (stop_begin p)
  | StopCloses => if cp_stopping p then Some (close p) else None
  end.

(** ** Connecting

    [connect] opens the connections one after another; [outcomes] says which
    attempts succeed.  The first failure closes the pool and is thrown. *)
Definition new_pool : ConnectionPool := mk_ConnectionPool false [] ∅ [] [] [] [] false [].

Fixpoint connect_loop (client : nat) (outcomes : list (option exc)) : ST ConnectionPool unit := λ p,
  match outcomes with
  | [] => (set_connected true false p, Value tt)
  | None :: outcomes' =>
      connect_loop (S client) outcomes'
        (set_idle (m_idleConnections p ++ [client]) (set_good ({[client]} ∪ cp_good p) p))
  | Some e :: _ => (close (close p), Exception e)
  end.

Definition connect (outcomes : list (option exc)) : ST ConnectionPool unit := λ p,
  if m_connected p then (p, Value tt) else connect_loop 0 outcomes p.

(** A pool of [n] connections after [connect]. *)
Definition connected_pool (n : nat) : ConnectionPool :=
  mk_ConnectionPool true (seq 0 n) (list_to_set (seq 0 n)) [] [] [] [] false [].

(** [setHandshake] of a pool that was created without handshakes. *)
Definition setHandshake {A} (m_clprotoHandshake : bool) (functions : A) : ST (option A) unit := λ factory,
  if negb m_clprotoHandshake then (factory, Exception invalid_argument) else (Some functions, Value tt).

(** ** Certificates of authorities *)

Definition caBundlePossibleLocations (SSL_CERT_FILE : option string) : list string :=
  option_list SSL_CERT_FILE ++
  ["/etc/ssl/certs/ca-certificates.crt"; "/etc/ssl/certs/ca-bundle.crt";
   "/etc/pki/tls/certs/ca-bundle.crt"; "/etc/pki/tls/certs/ca-bundle.trust.crt";
   "/etc/pki/ca-trust/extracted/pem/tls-ca-bundle.pem"]%string.

(** [load] is SSL_CTX_load_verify_locations; the file that was chosen and
    whether it was loaded. *)
Definition setupOpenSSLCABundlePath (SSL_CERT_FILE : option string)
    (exists_ is_regular_file is_symlink load : string → bool) : option string * bool :=
  match list_find (λ path, exists_ path && (is_regular_file path || is_symlink path) = true)
          (caBundlePossibleLocations SSL_CERT_FILE) with
  | Some (_, path) => (Some path, load path)
  | None => (None, false)
  end.

(** ** Histories

    The number of a send is the number of sends before it. *)

Definition is_send (e : event) : bool := match e with Send _ => true | _ => false end.

Inductive pool_step : ConnectionPool * nat → ConnectionPool * nat → Prop :=
| do_send p n : pool_step (p, n) (send n p, S n)
| do_event e p p' n : is_send e = false → step e p = Some p' → pool_step (p, n) (p', n).

Lemma submseteq_NoDup {A} (l k : list A) : l ⊆+ k → NoDup k → NoDup l.
Proof. intros [k' ->]%submseteq_Permutation Hnd. by apply NoDup_app in Hnd as [? _]. Qed.

(** The connections a thread holds, and all places where a connection can be. *)
Definition held (s : sender) : list nat :=
  match sd_pc s with
  | AtLoop (Some c) | Popped c | AtWrite c => [c]
  | _ => []
  end.

Definition places (p : ConnectionPool) : list nat :=
  m_idleConnections p ++ concat (map held (cp_senders p)) ++ cp_reconnecting p ++ map fst (cp_writing p)
  ++ cp_returning p.

(** The sends that are under way and those that were answered. *)
Definition sends (p : ConnectionPool) : list nat :=
  map sd_id (cp_senders p) ++ map snd (cp_writing p) ++ map fst (cp_callbacks p).

Lemma insert_Permutation {A} (l : list A) (i : nat) (x y : A) :
  l !! i = Some x → <[i := y]> l ≡ₚ y :: delete i l.
Proof.
  revert i. induction l as [|z l IH]; intros [|i] Hi; simplify_eq/=; [done|].
  rewrite (IH i Hi). apply Permutation_swap.
Qed.

Lemma map_insert_Permutation {A B} (f : A → B) (l : list A) (i : nat) (x y : A) :
  l !! i = Some x → map f (<[i := y]> l) ≡ₚ f y :: map f (delete i l).
Proof. intros Hi. by rewrite (insert_Permutation l i x y Hi). Qed.

(** ** Steps move connections and sends *)

Definition moves (p p' : ConnectionPool) : Prop := places p' ⊆+ places p ∧ sends p' ⊆+ sends p.

Lemma places_senders (p : ConnectionPool) (i : nat) (s : sender) :
  cp_senders p !! i = Some s →
  places p ≡ₚ held s ++ m_idleConnections p ++ concat (map held (delete i (cp_senders p)))
             ++ cp_reconnecting p ++ map fst (cp_writing p) ++ cp_returning p ∧
  sends p ≡ₚ sd_id s :: map sd_id (delete i (cp_senders p)) ++ map snd (cp_writing p)
             ++ map fst (cp_callbacks p).
Proof.
  intros Hi. unfold places, sends.
  assert (map held (cp_senders p) ≡ₚ held s :: map held (delete i (cp_senders p))) as Hh
    by (by rewrite (delete_Permutation _ _ _ Hi) at 1).
  assert (map sd_id (cp_senders p) ≡ₚ sd_id s :: map sd_id (delete i (cp_senders p))) as ->
    by (by rewrite (delete_Permutation _ _ _ Hi) at 1).
  split; [|done]. assert (concat (map held (cp_senders p)) ≡ₚ
    held s ++ concat (map held (delete i (cp_senders p)))) as -> by (by rewrite Hh).
  solve_Permutation.
Qed.

Lemma send_step_moves (i : nat) (p p' : ConnectionPool) : send_step i p = Some p' → moves p p'.
Proof.
  unfold send_step. destruct (cp_senders p !! i) as [[id pc]|] eqn:Hi; [|done]. simpl. intros [= <-].
  destruct (places_senders p i _ Hi) as [Hpl Hse]. unfold moves. rewrite Hpl, Hse. clear Hpl Hse.
  assert (∀ s, concat (map held (<[i := s]> (cp_senders p)))
               ≡ₚ held s ++ concat (map held (delete i (cp_senders p)))) as Hheld
    by (intros s; by rewrite (map_insert_Permutation held _ _ _ s Hi)).
  assert (∀ s, map sd_id (<[i := s]> (cp_senders p)) ≡ₚ sd_id s :: map sd_id (delete i (cp_senders p))) as Hid
    by (intros s; by rewrite (map_insert_Permutation sd_id _ _ _ s Hi)).
  unfold again_step, pop_step.
  destruct pc as [[c|]| | |c|c]; repeat case_match; unfold places, sends; simpl;
    repeat match goal with H : m_idleConnections p = _ |- _ => rewrite H end;
    rewrite ?Hheld, ?Hid, ?map_app; simpl; split; solve_submseteq.
Qed.

Lemma filter_waits_Permutation {B} (f : sender → B) (l : list sender) :
  map f l ≡ₚ map f (filter (λ s, waits s = false) l) ++ map f (filter (λ s, waits s = true) l).
Proof.
  induction l as [|s l IH]; [done|]. destruct (waits s) eqn:Hw.
  - rewrite filter_cons_False, filter_cons_True by congruence. simpl. rewrite IH at 1.
    by rewrite Permutation_middle.
  - rewrite filter_cons_True, filter_cons_False by congruence. simpl. by rewrite IH at 1.
Qed.

Lemma close_moves (p : ConnectionPool) : moves p (close p).
Proof.
  unfold moves, places, sends, close. simpl. rewrite map_app, map_map. simpl.
  rewrite (filter_waits_Permutation sd_id (cp_senders p)).
  rewrite (filter_waits_Permutation held (cp_senders p)). rewrite concat_app.
  split; solve_submseteq.
Qed.

Lemma step_moves (e : event) (p p' : ConnectionPool) :
  is_send e = false → step e p = Some p' → moves p p'.
Proof.
  destruct e as [id|i|j ok|j|j ok|c| |]; simpl; intros He Hs; [done|..].
  - by apply (send_step_moves i).
  - unfold write_done in Hs. destruct (cp_writing p !! j) as [[c id]|] eqn:Hj; simplify_eq/=.
    pose proof (delete_Permutation _ _ _ Hj) as Hd. set (rest := delete j (cp_writing p)) in *.
    unfold moves, places, sends. destruct ok; simpl; rewrite Hd, ?map_app; simpl; split; solve_submseteq.
  - unfold return_done in Hs. destruct (cp_returning p !! j) as [c|] eqn:Hj; simplify_eq/=.
    pose proof (delete_Permutation _ _ _ Hj) as Hd. set (rest := delete j (cp_returning p)) in *.
    unfold moves, places, sends. simpl. rewrite Hd. split; solve_submseteq.
  - unfold reconnect_done in Hs. destruct (cp_reconnecting p !! j) as [c|] eqn:Hj; simplify_eq/=.
    pose proof (delete_Permutation _ _ _ Hj) as Hd. set (rest := delete j (cp_reconnecting p)) in *.
    unfold moves, places, sends. destruct ok; [destruct (m_connected p)|]; simpl; rewrite Hd; simpl;
      split; solve_submseteq.
  - by simplify_eq.
  - unfold stop_begin in Hs. destruct (negb (m_connected p)); by simplify_eq.
  - destruct (cp_stopping p); simplify_eq. apply close_moves.
Qed.

Lemma send_moves (id : nat) (p : ConnectionPool) :
  places (send id p) ⊆+ places p ∧ sends (send id p) ⊆+ id :: sends p.
Proof.
  unfold send. destruct (negb (m_connected p)); unfold places, sends; simpl;
    rewrite ?map_app, ?concat_app; simpl; split; solve_submseteq.
Qed.

(** Connections stay in their places, sends are counted. *)
Lemma pool_reachable (n : nat) (p : ConnectionPool) (m : nat) :
  rtc pool_step (connected_pool n, 0) (p, m) → places p ⊆+ seq 0 n ∧ sends p ⊆+ seq 0 m.
Proof.
  intros Hrtc. remember (p, m) as h eqn:Hh. revert p m Hh. pattern h.
  refine (rtc_ind_r _ _ _ _ _ Hrtc).
  - intros p m [= <- <-]. unfold places, sends. simpl. rewrite !app_nil_r. done.
  - intros h1 h2 _ Hstep IH p m ->. inversion Hstep as [p1 m1|e p1 p2 m1 He Hs]; subst.
    + destruct (IH _ _ eq_refl) as [Hp Hm]. destruct (send_moves m1 p1) as [Hp' Hm'].
      split; [by etrans|]. rewrite seq_S. simpl. etrans; [exact Hm'|].
      rewrite <-Permutation_cons_append. by apply submseteq_skip.
    + destruct (IH _ _ eq_refl) as [Hp Hm]. destruct (step_moves e p1 p He Hs). split; by etrans.
Qed.

(** ** Starvation *)

(** The pool takes messages and has no connection left anywhere. *)
Definition starving (p : ConnectionPool) : Prop :=
  m_connected p = true ∧ cp_stopping p = false ∧ places p = [].

(** A step of anything but [stop]. *)
Inductive quiet_step : ConnectionPool * nat → ConnectionPool * nat → Prop :=
| quiet_send p n : quiet_step (p, n) (send n p, S n)
| quiet_event e p p' n : is_send e = false → e ≠ Stop → step e p = Some p' → quiet_step (p, n) (p', n).

Lemma starving_nil (p : ConnectionPool) :
  places p = [] → m_idleConnections p = [] ∧ cp_reconnecting p = [] ∧ cp_writing p = [] ∧ cp_returning p = [].
Proof.
  unfold places. intros (-> & (_ & (-> & (Hw & ->)%app_eq_nil)%app_eq_nil)%app_eq_nil)%app_eq_nil.
  by apply map_eq_nil in Hw as ->.
Qed.

Lemma starving_send_step (i : nat) (p p' : ConnectionPool) :
  starving p → send_step i p = Some p' →
  m_connected p' = true ∧ cp_stopping p' = false ∧ cp_callbacks p' = cp_callbacks p.
Proof.
  intros (Hc & Hst & Hpl). unfold send_step.
  destruct (cp_senders p !! i) as [[id pc]|] eqn:Hi; [|done]. simpl. intros [= <-].
  destruct (places_senders p i _ Hi) as [Hh _]. rewrite Hpl in Hh. apply Permutation_nil_l in Hh.
  symmetry in Hh. apply app_eq_nil in Hh as [Hh _]. destruct (starving_nil p Hpl) as (Hidle & _).
  unfold again_step, pop_step. rewrite Hc, Hidle.
  destruct pc as [[c|]| | |c|c]; simpl in *; try done.
Qed.

Lemma starving_step (h h' : ConnectionPool * nat) :
  quiet_step h h' → starving h.1 → starving h'.1 ∧ cp_callbacks h'.1 = cp_callbacks h.1.
Proof.
  intros Hstep Hstarving. pose proof Hstarving as (Hc & Hst & Hpl).
  destruct Hstep as [p n|e p p' n He Hns Hs]; simpl in *.
  - destruct (send_moves n p) as [Hm _]. rewrite Hpl in Hm. apply submseteq_nil_r in Hm.
    unfold starving. rewrite Hm. unfold send. rewrite Hc. done.
  - destruct (step_moves e p p' He Hs) as [Hm _]. rewrite Hpl in Hm. apply submseteq_nil_r in Hm.
    unfold starving. rewrite Hm. destruct (starving_nil p Hpl) as (_ & Hr & Hw & Hret).
    destruct e as [id|i|j ok|j|j ok|c| |]; simpl in Hs; try done.
    + by destruct (starving_send_step i p p' Hstarving Hs) as (-> & -> & ->).
    + unfold write_done in Hs. by rewrite Hw in Hs.
    + unfold return_done in Hs. by rewrite Hret in Hs.
    + unfold reconnect_done in Hs. by rewrite Hr in Hs.
    + by simplify_eq/=.
    + by rewrite Hst in Hs.
Qed.

Lemma starving_forever (h h' : ConnectionPool * nat) :
  rtc quiet_step h h' → starving h.1 → starving h'.1 ∧ cp_callbacks h'.1 = cp_callbacks h.1.
Proof.
  induction 1 as [|h1 h2 h3 Hstep _ IH]; intros Hs; [done|].
  destruct (starving_step _ _ Hstep Hs) as [Hs2 Hc]. destruct (IH Hs2) as [? ?]. split; [done|congruence].
Qed.

(** A pool whose only activity is one thread that looks for a connection. *)
Definition searching (idle : list nat) (good : gset nat) : ConnectionPool :=
  mk_ConnectionPool true idle good [mk_sender 0 (AtLoop None)] [] [] [] false [].

Lemma breaks_all (l idle : list nat) (good : gset nat) (m : nat) :
  rtc pool_step (searching idle good, m) (searching idle (good ∖ list_to_set l), m).
Proof.
  revert good. induction l as [|c l IH]; intros good.
  - rewrite list_to_set_nil, difference_empty_L. apply rtc_refl.
  - eapply rtc_l; [by eapply (do_event (Breaks c))|].
    rewrite list_to_set_cons, <-difference_difference_l_L. apply IH.
Qed.

(** Connections that are down and cannot be opened again are lost one by one. *)
Lemma searching_loses (idle : list nat) (good : gset nat) (m : nat) :
  Forall (λ c, c ∉ good) idle → rtc pool_step (searching idle good, m) (searching [] good, m).
Proof.
  induction idle as [|c idle IH]; [done|]. intros [Hc Hall]%Forall_cons.
  assert (∀ p, cp_good p = good → connected c p = false) as Hdown
    by (intros p <-; by apply bool_decide_eq_false_2).
  eapply rtc_l; [by eapply (do_event (SenderRuns 0))|].
  eapply rtc_l; [by eapply (do_event (SenderRuns 0))|]. simpl.
  eapply rtc_l. { eapply (do_event (SenderRuns 0)); [done|]. cbn -[connected]. by rewrite Hdown. }
  simpl. eapply rtc_l; [by eapply (do_event (ReconnectDone 0 false))|]. by apply IH.
Qed.

Lemma pool_can_starve (n : nat) :
  rtc pool_step (connected_pool n, 0) (searching [] ∅, 1).
Proof.
  eapply rtc_l; [apply do_send|].
  etrans; [apply (breaks_all (seq 0 n) (seq 0 n) (list_to_set (seq 0 n)) 1)|].
  rewrite difference_diag_L. apply searching_loses. apply Forall_forall. set_solver.
Qed.

(** ** A stop that is missed *)

(** A thread that tested [m_connected] before [stop] and calls [pop] after
    [abort] waits for ever: the queue stays empty and nobody aborts it again. *)
Definition missed_stop : ConnectionPool :=
  mk_ConnectionPool false [] ∅ [mk_sender 0 InPop] [] [] [] false [].

Definition forgotten (p : ConnectionPool) : Prop :=
  m_connected p = false ∧ m_idleConnections p = [] ∧ cp_senders p = [mk_sender 0 InPop] ∧
  cp_reconnecting p = [] ∧ cp_writing p = [] ∧ cp_returning p = [] ∧ cp_stopping p = false.

Lemma pool_stop_can_be_missed (n : nat) :
  rtc pool_step (connected_pool n, 0) (missed_stop, 1).
Proof.
  eapply rtc_l; [apply do_send|].
  eapply rtc_l; [by eapply (do_event (SenderRuns 0))|].
  eapply rtc_l; [by eapply (do_event Stop)|].
  eapply rtc_l; [by eapply (do_event StopCloses)|].
  eapply rtc_l; [by eapply (do_event (SenderRuns 0))|]. apply rtc_refl.
Qed.

Lemma missed_stop_waits (p : ConnectionPool) (m : nat) :
  rtc pool_step (missed_stop, 1) (p, m) → cp_senders p = [mk_sender 0 InPop].
Proof.
  assert (∀ h h', rtc pool_step h h' → forgotten h.1 → forgotten h'.1) as Hgen.
  { induction 1 as [|h1 h2 h3 Hstep _ IH]; [done|]. intros (Hc & Hi & Hs & Hr & Hw & Hret & Hst). apply IH.
    destruct Hstep as [q k|e q q' k He Hq]; simpl in *.
    - unfold send. rewrite Hc. by unfold forgotten.
    - destruct e as [id|i|j ok|j|j ok|c| |]; simpl in Hq; try done.
      + unfold send_step in Hq. rewrite Hs in Hq. destruct i as [|i]; [|done]. simpl in Hq.
        unfold pop_step in Hq. rewrite Hi, Hs in Hq. by simplify_eq/=.
      + unfold write_done in Hq. by rewrite Hw in Hq.
      + unfold return_done in Hq. by rewrite Hret in Hq.
      + unfold reconnect_done in Hq. by rewrite Hr in Hq.
      + by simplify_eq/=.
      + unfold stop_begin in Hq. rewrite Hc in Hq. by simplify_eq/=.
      + by rewrite Hst in Hq. }
  intros Hrtc. by apply (Hgen _ _ Hrtc).
Qed.

(** ** The properties *)

(** C26: whatever threads, executors and the network do, every connection of the
    pool is in at most one place: idle, held by one thread in [send],
    reconnecting, writing one message or being returned; no connection from
    elsewhere ever appears.  So no two messages are written to a connection at
    once. *)
Theorem pool_connections_exclusive (n : nat) (p : ConnectionPool) (m : nat) :
  rtc pool_step (connected_pool n, 0) (p, m) →
  NoDup (places p) ∧ Forall (λ c, c < n) (places p) ∧ NoDup (map fst (cp_writing p)).
Proof.
  intros Hrtc. destruct (pool_reachable n p m Hrtc) as [Hpl _].
  assert (NoDup (places p)) as Hnd by (eapply submseteq_NoDup; [exact Hpl|apply NoDup_seq]).
  split_and!; [done| |].
  - apply Forall_forall. intros c Hc. pose proof (elem_of_submseteq _ _ _ Hc Hpl) as Hin.
    apply elem_of_seq in Hin. lia.
  - unfold places in Hnd. rewrite !NoDup_app in Hnd. tauto.
Qed.

(** C37: each send is answered at most once, and none that is still under way has
    been answered: the numbers of the sends in threads, in writes and in
    answers are pairwise different and were all given out by calls of [send]. *)
Theorem pool_answers_once (n : nat) (p : ConnectionPool) (m : nat) :
  rtc pool_step (connected_pool n, 0) (p, m) →
  NoDup (map sd_id (cp_senders p) ++ map snd (cp_writing p) ++ map fst (cp_callbacks p)) ∧
  Forall (λ id, id < m) (map fst (cp_callbacks p)).
Proof.
  intros Hrtc. destruct (pool_reachable n p m Hrtc) as [_ Hse].
  split; [eapply submseteq_NoDup; [exact Hse|apply NoDup_seq]|].
  apply Forall_forall. intros id Hid. assert (id ∈ sends p) as Hin by (unfold sends; set_solver).
  pose proof (elem_of_submseteq _ _ _ Hin Hse) as Hs. apply elem_of_seq in Hs. lia.
Qed.

(** A connection that breaks and cannot be opened at the first attempt is
    lost, for the continuation that puts it back is skipped.  Whatever the size
    of the pool, when this happens to every connection the pool still takes
    messages and, until [stop], never answers a send again. *)
Lemma pool_starves (n : nat) :
  ∃ p, rtc pool_step (connected_pool n, 0) (p, 1) ∧ m_connected p = true ∧
    ∀ p' m', rtc quiet_step (p, 1) (p', m') → cp_callbacks p' = [] ∧ places p' = [].
Proof.
  exists (searching [] ∅). split; [apply pool_can_starve|]. split; [done|]. intros p' m' Hrtc.
  destruct (starving_forever _ _ Hrtc) as [(_ & _ & Hpl) Hc]; [done|]. done.
Qed.

(** [connect] of a new pool gives the state the histories start from. *)
Lemma connect_all (n : nat) : connect (replicate n None) new_pool = (connected_pool n, Value tt).
Proof.
  unfold connect, new_pool, connected_pool. simpl.
  assert (∀ k idle good, connect_loop k (replicate n None) (mk_ConnectionPool false idle good [] [] [] [] false [])
    = (mk_ConnectionPool true (idle ++ seq k n) (good ∪ list_to_set (seq k n)) [] [] [] [] false [], Value tt))
    as Hgen.
  { induction n as [|n IH]; intros k idle good; simpl.
    - unfold set_connected. simpl. rewrite app_nil_r. do 2 f_equal. set_solver.
    - unfold set_idle, set_good. simpl. rewrite IH. rewrite <-app_assoc. simpl. do 2 f_equal. set_solver. }
  rewrite Hgen. simpl. do 2 f_equal. set_solver.
Qed.

(** ** A history *)

(** Events one after another; [None] is a call of [send]. *)
Fixpoint play (es : list (option event)) (h : ConnectionPool * nat) : option (ConnectionPool * nat) :=
  match es with
  | [] => Some h
  | None :: es => play es (send h.2 h.1, S h.2)
  | Some e :: es => if is_send e then None else p ← step e h.1; play es (p, h.2)
  end.

Lemma play_steps (es : list (option event)) (h h' : ConnectionPool * nat) :
  play es h = Some h' → rtc pool_step h h'.
Proof.
  revert h. induction es as [|[e|] es IH]; intros [p n] Hplay; simplify_eq/=; [done| |].
  - destruct (is_send e) eqn:He; [done|]. destruct (step e p) as [p1|] eqn:Hp; [|done].
    eapply rtc_l; [by eapply do_event|]. by apply IH.
  - eapply rtc_l; [apply do_send|]. by apply IH.
Qed.

(** The first message is written and its connection not yet returned, the second
    is being written, the connection of the third is being opened again, and its
    thread holds another one. *)
Definition pool_events : list (option event) :=
  let runs i n := replicate n (Some (SenderRuns i)) in
  [None] ++ runs 0 5 ++ [Some (WriteDone 0 true); None] ++ runs 0 5 ++ [None] ++ runs 0 2
  ++ [Some (Breaks 2)] ++ runs 0 3.

Lemma pool_connections_exclusive_witness :
  ∃ p, play pool_events (connected_pool 5, 0) = Some (p, 3) ∧
    m_idleConnections p = [4] ∧ concat (map held (cp_senders p)) = [3] ∧ cp_reconnecting p = [2] ∧
    cp_writing p = [(1, 1)] ∧ cp_returning p = [0] ∧
    NoDup (places p) ∧ Forall (λ c, c < 5) (places p) ∧ NoDup (map fst (cp_writing p)).
Proof.
  eexists. split; [vm_compute; reflexivity|]. do 5 (split; [vm_compute; reflexivity|]).
  apply (pool_connections_exclusive 5 _ 3), (play_steps pool_events). vm_compute. reflexivity.
Defined.

(** After [stop] the third thread finds its connection closed and answers. *)
Lemma pool_answers_once_witness :
  ∃ p, play (pool_events ++ [Some Stop; Some StopCloses; Some (SenderRuns 0); Some (SenderRuns 0)]) (connected_pool 5, 0)
       = Some (p, 3) ∧
    cp_callbacks p = [(0, None); (2, connection_aborted)] ∧ cp_writing p = [(1, 1)] ∧
    NoDup (map sd_id (cp_senders p) ++ map snd (cp_writing p) ++ map fst (cp_callbacks p)) ∧
    Forall (λ id, id < 3) (map fst (cp_callbacks p)).
Proof.
  eexists. split; [vm_compute; reflexivity|]. do 2 (split; [vm_compute; reflexivity|]).
  apply (pool_answers_once 5 _ 3).
  apply (play_steps (pool_events ++ [Some Stop; Some StopCloses; Some (SenderRuns 0); Some (SenderRuns 0)])).
  vm_compute. reflexivity.
Defined.
