(* ===== verification/CommunicatorPool.v ===== *)
(** * The communicator on its connection pool

    Communicator.v takes a pool that reports on each string it is given at
    some time; ConnectionPool.v is the pool with its threads, executors and
    connections.  Here they are put together as
    src/src/communication/communicator.h does: every string that the retrier
    sends is a call of the pool's [send], and every callback that the pool
    calls is the retrier's.  The composition is shown to refine both parts: its
    histories are histories of each, and the pool never calls a callback of a
    send that was answered before. *)

From stdpp Require Import base numbers list gmap strings relations.
From Stdlib Require Import ZArith Lia.
From S2P Require Import Prelude StdStrings Protocol ConnectionPool Sequencer Layers Communicator.

(** The layers with what happened to them, the pool, the pool's numbers of the
    unanswered strings, the number of the next [send], how many of the pool's
    callbacks the layers have seen, and the sends whose write failed: a failure
    skips the continuation that would call the callback. *)
Record system := mk_system {
  sys_layers : history;
  sys_pool : ConnectionPool;
  sys_sends : list nat;
  sys_next : nat;
  sys_seen : nat;
  sys_lost : list nat
}.

(** [count] calls of [send], numbered from [id]. *)
Fixpoint send_all (id count : nat) (p : ConnectionPool) : ConnectionPool :=
  match count with O => p | S count' => send_all (S id) count' (send id p) end.

(** The send that an event of the pool forgets. *)
Definition forgotten (e : ConnectionPool.event) (p : ConnectionPool) : list nat :=
  match e with
  | WriteDone j false => option_list (snd <$> cp_writing p !! j)
  | _ => []
  end.

(** The sends of the pool's threads and executor, and those whose callback the
    layers have yet to see. *)
Definition under_way (seen : nat) (p : ConnectionPool) : list nat :=
  map sd_id (cp_senders p) ++ map snd (cp_writing p) ++ map fst (drop seen (cp_callbacks p)).

(** ** What the pool does to its sends *)

Lemma send_sends (id : nat) (p : ConnectionPool) : sends (send id p) ≡ₚ id :: sends p.
Proof.
  unfold send, sends. destruct (negb (m_connected p)); simpl; rewrite ?map_app; simpl; solve_Permutation.
Qed.

Lemma send_step_sends (i : nat) (p p' : ConnectionPool) :
  send_step i p = Some p' → sends p' ≡ₚ sends p.
Proof.
  unfold send_step. intros Hs. apply bind_Some in Hs as ([id pc] & Hi & Hs). simpl in Hs.
  destruct (places_senders p i _ Hi) as [_ Hsends]. simpl in Hsends.
  pose proof (λ y, map_insert_Permutation sd_id _ _ _ y Hi) as Hins.
  rewrite Hsends. unfold again_step, pop_step in Hs. unfold sends.
  repeat case_match; simplify_eq/=; rewrite ?Hins, ?map_app; simpl; solve_Permutation.
Qed.

Lemma close_sends (p : ConnectionPool) : sends (close p) ≡ₚ sends p.
Proof.
  unfold sends, close. simpl. rewrite map_app, map_map. simpl.
  assert (map sd_id (cp_senders p) ≡ₚ map sd_id (filter (λ s, waits s = true) (cp_senders p)) ++
            map sd_id (filter (λ s, waits s = false) (cp_senders p))) as ->; [|solve_Permutation].
  rewrite <-map_app. apply Permutation_map.
  induction (cp_senders p) as [|s l IH]; [done|]. rewrite !filter_cons.
  destruct (waits s); simpl; by rewrite IH at 1; solve_Permutation.
Qed.

(** A step of the pool keeps every send, except for the one it forgets. *)
Lemma step_sends (e : ConnectionPool.event) (p p' : ConnectionPool) :
  is_send e = false → ConnectionPool.step e p = Some p' → sends p ≡ₚ sends p' ++ forgotten e p.
Proof.
  destruct e as [id|i|j ok|j|j ok|c| |]; simpl; intros He Hs; [done|..]; rewrite ?app_nil_r.
  - symmetry. by eapply send_step_sends.
  - unfold write_done in Hs. destruct (cp_writing p !! j) as [[c id]|] eqn:Hj; simplify_eq/=.
    pose proof (delete_Permutation _ _ _ Hj) as Hd. set (rest := delete j (cp_writing p)) in *.
    unfold sends. destruct ok; simpl; rewrite Hd, ?map_app; simpl; solve_Permutation.
  - unfold return_done in Hs. by destruct (cp_returning p !! j); simplify_eq/=.
  - unfold reconnect_done in Hs. destruct (cp_reconnecting p !! j); simplify_eq/=.
    by destruct ok; [destruct (m_connected p)|].
  - by simplify_eq.
  - unfold stop_begin in Hs. by destruct (negb (m_connected p)); simplify_eq.
  - destruct (cp_stopping p); simplify_eq. symmetry. apply close_sends.
Qed.

(** Callbacks that were called stay called. *)
Lemma step_callbacks (e : ConnectionPool.event) (p p' : ConnectionPool) :
  ConnectionPool.step e p = Some p' → cp_callbacks p `prefix_of` cp_callbacks p'.
Proof.
  destruct e as [id|i|j ok|j|j ok|c| |]; simpl; intros Hs;
    unfold send, send_step, again_step, pop_step, write_done, return_done, reconnect_done, stop_begin in Hs;
    repeat (case_match || (apply bind_Some in Hs as (? & ? & Hs))); simplify_eq/=;
    eauto using prefix_app_r.
Qed.

Lemma send_all_ok (count : nat) (id : nat) (p : ConnectionPool) :
  sends (send_all id count p) ≡ₚ seq id count ++ sends p ∧
  cp_callbacks p `prefix_of` cp_callbacks (send_all id count p) ∧
  rtc pool_step (p, id) (send_all id count p, id + count).
Proof.
  revert id p. induction count as [|count IH]; intros id p; simpl; [by rewrite Nat.add_0_r|].
  destruct (IH (S id) (send id p)) as (Hs & Hc & Hr). split_and!.
  - rewrite Hs, send_sends. solve_Permutation.
  - etrans; [|exact Hc]. by eapply (step_callbacks (ConnectionPool.Send id)).
  - rewrite Nat.add_succ_r. eapply rtc_l; [apply do_send|exact Hr].
Qed.

(** What was seen does not matter to what is under way. *)
Lemma under_way_sends (seen : nat) (p : ConnectionPool) :
  sends p ≡ₚ map fst (take seen (cp_callbacks p)) ++ under_way seen p.
Proof.
  unfold sends, under_way. rewrite <-(take_drop seen (cp_callbacks p)) at 1. rewrite map_app. solve_Permutation.
Qed.

Lemma under_way_step (seen : nat) (p p' : ConnectionPool) (gone came : list nat) :
  seen <= length (cp_callbacks p) → cp_callbacks p `prefix_of` cp_callbacks p' →
  sends p ++ came ≡ₚ sends p' ++ gone → under_way seen p ++ came ≡ₚ under_way seen p' ++ gone.
Proof.
  intros Hseen [more Hc] Hs. rewrite !(under_way_sends seen) in Hs. rewrite Hc in Hs.
  rewrite take_app_le in Hs by done. rewrite <-!app_assoc in Hs. by apply Permutation_app_inv_l in Hs.
Qed.

Lemma under_way_seen (seen id : nat) (ec : option error_code) (p : ConnectionPool) :
  cp_callbacks p !! seen = Some (id, ec) → under_way seen p ≡ₚ id :: under_way (S seen) p.
Proof. intros Hc. unfold under_way. rewrite (drop_S _ _ _ Hc). simpl. solve_Permutation. Qed.

Lemma pool_answer_length (i : nat) (ec : send_result) (c c' : Communicator) (new : called) :
  pool_answer i ec c = Some (c', new) → length (c_sendings c) <= S (length (c_sendings c')).
Proof.
  unfold pool_answer. intros Ha. apply bind_Some in Ha as (x & Hx & Ha).
  assert (length (delete i (c_sendings c)) = length (c_sendings c) - 1) as Hl by (apply length_delete; eauto).
  destruct (_ && _); simplify_eq/=; [rewrite length_app; simpl; lia|].
  destruct (snd_callback x); simplify_eq/=; [lia| |lia].
  destruct (sendErrorCallback _ _ _). simplify_eq/=. lia.
Qed.

Lemma pool_answer_some (i : nat) (ec : send_result) (c : Communicator) :
  i < length (c_sendings c) → ∃ c' new, pool_answer i ec c = Some (c', new).
Proof.
  intros [x Hx]%lookup_lt_is_Some. unfold pool_answer. rewrite Hx. simpl.
  destruct (_ && _); [eauto|]. destruct (call_back _ _ _). eauto.
Qed.

Section system.
Context (SerializeAsString : ClientMessage → string) (ParseFromString : string → option ServerMessage).
Context (runs : nat → Prop) (seed : Z).
Local Abbreviation layers_step := (Communicator.step SerializeAsString ParseFromString runs).

Inductive sys_step : system → system → Prop :=
(** The user, the executor, an arrival or a timer moves the layers; the
    strings they send go to the pool. *)
| sys_layers_move h h' p ids next seen lost new :
    layers_step h h' → c_sendings (h_comm h') = c_sendings (h_comm h) ++ new →
    sys_step (mk_system h p ids next seen lost)
      (mk_system h' (send_all next (length new) p) (ids ++ seq next (length new)) (next + length new) seen lost)
(** A thread in [send], an executor or the network moves the pool. *)
| sys_pool_moves h p p' ids next seen lost e :
    is_send e = false → ConnectionPool.step e p = Some p' →
    sys_step (mk_system h p ids next seen lost) (mk_system h p' ids next seen (forgotten e p ++ lost))
(** The pool calls a callback: the retrier sends again or passes the result on. *)
| sys_called c rq pr rc dl out p ids next seen lost id ec i c' new :
    cp_callbacks p !! seen = Some (id, ec) → ids !! i = Some id →
    pool_answer i ec c = Some (c', new) →
    let again := S (length (c_sendings c')) - length (c_sendings c) in
    sys_step (mk_system (mk_history c rq pr rc dl out) p ids next seen lost)
      (mk_system (mk_history c' rq pr rc dl (add_calls out new)) (send_all next again p)
         (delete i ids ++ seq next again) (next + again) (S seen) lost).

Definition sys_start (n : nat) : system := mk_system (start seed) (connected_pool n) [] 0 0 [].
(** The pool did what it can do alone and knows every send, and the numbers are
    those of the sends under way and of the lost ones. *)
Definition pool_ok (n : nat) (p : ConnectionPool) (ids : list nat) (next seen : nat) (lost : list nat) : Prop :=
  rtc pool_step (connected_pool n, 0) (p, next) ∧ sends p ++ lost ≡ₚ seq 0 next ∧
  ids ≡ₚ under_way seen p ++ lost ∧ seen <= length (cp_callbacks p).

Definition sys_ok (n : nat) (s : system) : Prop :=
  rtc layers_step (start seed) (sys_layers s) ∧
  length (sys_sends s) = length (c_sendings (h_comm (sys_layers s))) ∧
  pool_ok n (sys_pool s) (sys_sends s) (sys_next s) (sys_seen s) (sys_lost s).

Lemma pool_ok_sends (n count : nat) (p : ConnectionPool) (ids : list nat) (next seen : nat) (lost : list nat) :
  pool_ok n p ids next seen lost →
  pool_ok n (send_all next count p) (ids ++ seq next count) (next + count) seen lost.
Proof.
  intros (Hp & Hs & Hids & Hseen). destruct (send_all_ok count next p) as (Hsends & Hc & Hr). split_and!.
  - by etrans.
  - rewrite Hsends, seq_app, <-Hs. simpl. solve_Permutation.
  - rewrite Hids. assert (under_way seen p ++ seq next count ≡ₚ under_way seen (send_all next count p) ++ [])
      as Hu by (apply under_way_step; [done..|rewrite Hsends; solve_Permutation]).
    rewrite app_nil_r in Hu. rewrite <-Hu. solve_Permutation.
  - apply prefix_length in Hc. lia.
Qed.

Lemma pool_ok_event (n : nat) (e : ConnectionPool.event) (p p' : ConnectionPool) (ids : list nat)
    (next seen : nat) (lost : list nat) :
  is_send e = false → ConnectionPool.step e p = Some p' → pool_ok n p ids next seen lost →
  pool_ok n p' ids next seen (forgotten e p ++ lost).
Proof.
  intros He Hs (Hp & Hsends & Hids & Hseen).
  pose proof (step_sends e p p' He Hs) as Hm. pose proof (step_callbacks e p p' Hs) as Hpre. split_and!.
  - eapply rtc_r; [exact Hp|by eapply do_event].
  - rewrite <-Hsends, Hm. solve_Permutation.
  - rewrite Hids. pose proof (under_way_step seen p p' (forgotten e p) [] Hseen Hpre) as Hu.
    rewrite !app_nil_r in Hu. rewrite (Hu Hm). solve_Permutation.
  - apply prefix_length in Hpre. lia.
Qed.

Lemma pool_ok_called (n : nat) (p : ConnectionPool) (ids : list nat) (next seen : nat) (lost : list nat)
    (id : nat) (ec : option error_code) (i : nat) :
  cp_callbacks p !! seen = Some (id, ec) → ids !! i = Some id → pool_ok n p ids next seen lost →
  pool_ok n p (delete i ids) next (S seen) lost.
Proof.
  intros Hc Hi (Hp & Hsends & Hids & Hseen). split_and!; [done..| |by eapply lookup_lt_Some].
  rewrite (delete_Permutation _ _ _ Hi), (under_way_seen _ _ _ _ Hc) in Hids.
  by apply Permutation_cons_inv in Hids.
Qed.

Lemma sys_step_ok (n : nat) (s s' : system) : sys_step s s' → sys_ok n s → sys_ok n s'.
Proof.
  intros [h h' p ids next seen lost new Hstep Hnew|h p p' ids next seen lost e He Hs|
          c rq pr rc dl out p ids next seen lost id ec i c' new Hc Hi Ha again] (Hl & Hn & Hok); simpl in *.
  - split_and!; simpl; [by eapply rtc_r| |by apply pool_ok_sends].
    by rewrite Hnew, !length_app, length_seq, Hn.
  - split_and!; [done..|]. by apply pool_ok_event.
  - split_and!; simpl; [eapply rtc_r; [exact Hl|by eapply step_answer]| |].
    + rewrite length_app, length_seq, length_delete by eauto.
      pose proof (pool_answer_length _ _ _ _ _ Ha). apply lookup_lt_Some in Hi. subst again. lia.
    + by eapply pool_ok_sends, pool_ok_called.
Qed.

Lemma sys_reachable (n : nat) (s : system) : rtc sys_step (sys_start n) s → sys_ok n s.
Proof.
  intros Hr. refine (rtc_ind_r (sys_ok n) _ _ _ _ Hr); [|eauto using sys_step_ok].
  split_and!; [done..|]. by split_and!; simpl; [|..].
Qed.

(** C14: the communicator on its pool refines the communicator over an abstract
    pool.  Every history of the composition is a history of the layers and one
    of the pool.  The layers' unanswered strings are, each once, the sends
    that the pool has under way and those it lost in a failed write.  The next
    callback that the pool called is always that of a send without an answer,
    so the retrier can go on with it.  Once the pool is at rest and no write
    failed, every promise of a send or reply has exactly one result. *)
Theorem communicator_on_pool (n : nat) (s : system) :
  rtc sys_step (sys_start n) s →
  rtc layers_step (start seed) (sys_layers s) ∧
  rtc pool_step (connected_pool n, 0) (sys_pool s, sys_next s) ∧
  sys_sends s ≡ₚ under_way (sys_seen s) (sys_pool s) ++ sys_lost s ∧ NoDup (sys_sends s) ∧
  (∀ id ec, cp_callbacks (sys_pool s) !! sys_seen s = Some (id, ec) →
     id ∈ sys_sends s ∧ ∃ s', sys_step s s' ∧ sys_seen s' = S (sys_seen s)) ∧
  (under_way (sys_seen s) (sys_pool s) = [] → sys_lost s = [] →
     (results (h_calls (sys_layers s))).*1 ≡ₚ seq 0 (h_promises (sys_layers s))).
Proof.
  intros (Hl & Hn & Hp & Hs & Hids & Hseen)%sys_reachable. split_and!; [done..| | |].
  - rewrite Hids. apply (submseteq_NoDup _ (seq 0 (sys_next s))); [|apply NoDup_seq].
    rewrite <-Hs, (under_way_sends (sys_seen s)). solve_submseteq.
  - intros id ec Hc. assert (id ∈ sys_sends s) as Hin.
    { rewrite Hids, (under_way_seen _ _ _ _ Hc). set_solver. }
    split; [done|]. apply list_elem_of_lookup in Hin as [i Hi].
    destruct s as [[c rq pr rc dl out] p ids next seen lost]. simpl in *.
    destruct (pool_answer_some i ec c) as (c' & new & Ha).
    { rewrite <-Hn. by eapply lookup_lt_Some. }
    eexists. split; [by eapply sys_called|done].
  - intros Hu Hlost. rewrite Hu, Hlost in Hids. apply Permutation_nil_r in Hids. rewrite Hids in Hn.
    destruct (history_ok _ _ _ _ _ Hl) as (_ & _ & _ & _ & Hpr).
    by rewrite (nil_length_inv _ (eq_sym Hn)), app_nil_r in Hpr.
Qed.
End system.

(** ** Examples *)

(** Histories from lists of actions: the user sends, the pool moves, the
    callback of the send at [i] is called. *)
Inductive sys_action := Posts (msg : ClientMessage) (retries : Z) | Moves (e : ConnectionPool.event) | Called (i : nat).

Section sys_perform.
Context (SerializeAsString : ClientMessage → string) (ParseFromString : string → option ServerMessage).

Definition sys_act (a : sys_action) (s : system) : option system :=
  let '(mk_system h p ids next seen lost) := s in
  match a with
  | Posts msg retries =>
      h' ← act SerializeAsString ParseFromString (Post msg retries) h;
      Some (mk_system h' (send next p) (ids ++ [next]) (next + 1) seen lost)
  | Moves e =>
      if is_send e then None
      else p' ← ConnectionPool.step e p; Some (mk_system h p' ids next seen (forgotten e p ++ lost))
  | Called i =>
      let '(mk_history c rq pr rc dl out) := h in
      '(id, ec) ← cp_callbacks p !! seen;
      '(c', new) ← pool_answer i ec c;
      let again := S (length (c_sendings c')) - length (c_sendings c) in
      if bool_decide (ids !! i = Some id)
      then Some (mk_system (mk_history c' rq pr rc dl (add_calls out new)) (send_all next again p)
                   (delete i ids ++ seq next again) (next + again) (S seen) lost)
      else None
  end.

Fixpoint sys_perform (l : list sys_action) (s : system) : option system :=
  match l with [] => Some s | a :: l' => s' ← sys_act a s; sys_perform l' s' end.

Lemma sys_act_step (runs : nat → Prop) (a : sys_action) (s s' : system) :
  sys_act a s = Some s' → sys_step SerializeAsString ParseFromString runs s s'.
Proof.
  destruct s as [h p ids next seen lost], a as [msg r|e|i]; unfold sys_act; intros Ha.
  - apply bind_Some in Ha as (h' & Hact & [= <-]).
    refine (sys_layers_move _ _ _ h h' p ids next seen lost
      [mk_sending (SerializeAsString msg) (promise_callback (h_promises h)) r] _ _).
    + by eapply act_step; [|exact Hact].
    + by destruct h; simplify_eq/=.
  - destruct (is_send e) eqn:He; [done|]. apply bind_Some in Ha as (p' & Hs & [= <-]).
    by apply sys_pool_moves.
  - destruct h as [c rq pr rc dl out].
    apply bind_Some in Ha as ([id ec] & Hc & Ha). apply bind_Some in Ha as ([c' new] & Hp & Ha).
    case_bool_decide as Hi; [|done]. injection Ha as <-. by eapply sys_called.
Qed.

Lemma sys_perform_steps (runs : nat → Prop) (l : list sys_action) (s s' : system) :
  sys_perform l s = Some s' → rtc (sys_step SerializeAsString ParseFromString runs) s s'.
Proof.
  revert s. induction l as [|a l IH]; intros s; simpl; [by intros [= ->]|].
  intros (s1 & Hact & Hp)%bind_Some. eapply rtc_l; [by apply (sys_act_step runs a)|by apply IH].
Qed.
End sys_perform.

(** The first of two connections breaks before the write; the message is sent
    again and goes out on the other. *)
Definition toy_sys_actions : list sys_action :=
  let goes := repeat (Moves (SenderRuns 0)) 5 in
  [Posts toy_request 1] ++ take 4 goes ++ [Moves (Breaks 0); Moves (SenderRuns 0); Called 0] ++ goes
  ++ [Moves (WriteDone 0 true); Called 0].
Definition toy_system : system :=
  default (sys_start 7 2) (sys_perform toy_serialize toy_parse toy_sys_actions (sys_start 7 2)).

Lemma communicator_on_pool_witness :
  cp_callbacks (sys_pool toy_system) = [(0, connection_aborted); (1, None)] ∧
  (results (h_calls (sys_layers toy_system))).*1 ≡ₚ [0].
Proof.
  split; [vm_compute; reflexivity|].
  apply (communicator_on_pool toy_serialize toy_parse (λ _, True) 7 2 toy_system);
    [|vm_compute; reflexivity..].
  apply (sys_perform_steps _ _ _ toy_sys_actions). vm_compute. reflexivity.
Defined.
