(* ===== verification/KeyValueHelper.v ===== *)
(** * The key-value storage interface (src/src/keyValueHelper.h)

    Object keys ([getKey], [getObjectId], [adjustPrefix], [rangeToString]) and
    the interface [KeyValueHelper] that the block adapter calls and the S3,
    Swift and CephRados helpers implement.  The class [KeyValueLaws] states
    what the adapter relies on. *)

From stdpp Require Import base numbers list gmap strings.
From Stdlib Require Import ZArith Lia Ascii.
From S2P Require Import Prelude StdStrings.
Local Open Scope Z_scope.

(** ** Constants *)
Definition RANGE_DELIMITER : string := "-".
Definition OBJECT_DELIMITER : ascii := "/".
Definition MAX_DELETE_OBJECTS : Z := 1000.
Definition MAX_OBJECT_ID : Z := 999999.
Definition MAX_OBJECT_ID_DIGITS : nat := 6.

(** ** Keys *)

(** [prefix.substr(prefix.find_first_not_of('/'))]; [substr(npos)] throws. *)
Fixpoint strip_delimiters (prefix : string) : Try string :=
  match prefix with
  | EmptyString => Exception out_of_range
  | String c rest =>
      if Ascii.eqb c OBJECT_DELIMITER then strip_delimiters rest else Value prefix
  end.

Definition adjustPrefix (prefix : string) : Try string :=
  match strip_delimiters prefix with
  | Value s => Value (s ++ String OBJECT_DELIMITER EmptyString)%string
  | Exception e => Exception e
  end.

(** [MAX_OBJECT_ID - objectId] is a [uint64_t] subtraction. *)
Definition objectSuffix (objectId : Z) : string :=
  set_width MAX_OBJECT_ID_DIGITS "0" (to_string (u64 (MAX_OBJECT_ID - objectId))).

Definition getKey (prefix : string) (objectId : Z) : Try string :=
  match adjustPrefix prefix with
  | Value p => Value (p ++ objectSuffix objectId)%string
  | Exception e => Exception e
  end.

(** The text after the last delimiter ([find_last_of] and [substr(pos + 1)]);
    [None] when there is no delimiter. *)
Fixpoint after_last_delimiter (s : string) : option string :=
  match s with
  | EmptyString => None
  | String c rest =>
      match after_last_delimiter rest with
      | Some r => Some r
      | None => if Ascii.eqb c OBJECT_DELIMITER then Some rest else None
      end
  end.

(** [npos + 1] is 0: a key without delimiter is parsed as a whole. *)
Definition getObjectId (key : string) : Try Z :=
  match stoull (default key (after_last_delimiter key)) with
  | Value v => Value (u64 (MAX_OBJECT_ID - v))
  | Exception e => Exception e
  end.

Definition rangeToString (lower upper : Z) : string :=
  ("bytes=" ++ to_string lower ++ RANGE_DELIMITER ++ to_string upper)%string.

(** ** The interface *)

Class KeyValueHelper (St : Type) := {
  hasRandomAccess : bool;
  getObject : string → Z → Z → ST St bytes;
  putObject : string → bytes → Z → ST St Z;
  deleteObjects : list string → ST St unit
}.

(** [putObject(key, buf)] without an offset. *)
Definition putObject0 {St} `{KeyValueHelper St} (key : string) (buf : bytes) : ST St Z :=
  putObject key buf 0.

(** The exception test of [readBlock]: a [system_error] whose code is ENOENT. *)
Definition is_enoent (e : exc) : bool :=
  match e with system_error ec => ec_value ec =? ENOENT | _ => false end.

(** What the adapter relies on.  [objects] is the stored value of every key.
    A read that succeeds returns the stored bytes of the (not empty) range; a read that
    fails with ENOENT has no byte in the range; a put of a non-empty buffer
    replaces the object, or writes into it at the offset when the storage has
    random access; a delete of at most [MAX_DELETE_OBJECTS] keys removes
    them.  A failing put or delete touches no other key. *)
Class KeyValueLaws (St : Type) `{KeyValueHelper St} := {
  objects : St → gmap string bytes;
  getObject_objects : ∀ s k off n, objects (getObject k off n s).1 = objects s;
  getObject_value : ∀ s k off n b,
    0 <= off → 0 < n → off + n <= OFF_MAX → (getObject k off n s).2 = Value b →
    b = pread (default [] (objects s !! k)) off n;
  getObject_enoent : ∀ s k off n e,
    0 <= off → 0 < n → off + n <= OFF_MAX → (getObject k off n s).2 = Exception e → is_enoent e = true →
    pread (default [] (objects s !! k)) off n = [];
  putObject_value : ∀ s k b off n,
    b ≠ [] → 0 <= off → (hasRandomAccess = false → off = 0) →
    (putObject k b off s).2 = Value n →
    objects (putObject k b off s).1 =
      <[k := if hasRandomAccess then pwrite (default [] (objects s !! k)) off b else b]> (objects s);
  putObject_other : ∀ s k b off k',
    k ≠ k' → objects (putObject k b off s).1 !! k' = objects s !! k';
  deleteObjects_value : ∀ s ks u k,
    Z.of_nat (length ks) <= MAX_DELETE_OBJECTS →
    (deleteObjects ks s).2 = Value u →
    objects (deleteObjects ks s).1 !! k = if decide (k ∈ ks) then None else objects s !! k;
  deleteObjects_other : ∀ s ks k,
    k ∉ ks → objects (deleteObjects ks s).1 !! k = objects s !! k
}.

(** A storage whose calls do not fail, except that reading a missing object
    may say ENOENT. *)
Class KeyValueReliable (St : Type) `{KeyValueHelper St} := {
  getObject_reliable : ∀ s k off n e,
    0 <= off → 0 < n → off + n <= OFF_MAX → (getObject k off n s).2 = Exception e → is_enoent e = true;
  putObject_reliable : ∀ s k b off,
    b ≠ [] → ∃ n, (putObject k b off s).2 = Value n;
  deleteObjects_reliable : ∀ s ks, ∃ u, (deleteObjects ks s).2 = Value u
}.

(** ** Deleting in batches

    The loop that the helpers share: [offset] is an [unsigned] that moves in
    steps of [MAX_DELETE_OBJECTS], and each batch is counted from the beginning
    of the keys. *)
Fixpoint batch_offsets (fuel : nat) (offset n : Z) : list Z :=
  match fuel with
  | O => []
  | S fuel' =>
      if offset <? n then offset :: batch_offsets fuel' (u32 (offset + MAX_DELETE_OBJECTS)) n else []
  end.
Definition delete_batch (keys : list string) (offset : Z) : list string :=
  take (Z.to_nat (Z.min (Z.of_nat (length keys) - offset) MAX_DELETE_OBJECTS)) keys.
Definition delete_batches (keys : list string) : list (list string) :=
  map (delete_batch keys) (batch_offsets (length keys) 0 (Z.of_nat (length keys))).

Lemma delete_batches_small (keys : list string) :
  Z.of_nat (length keys) <= MAX_DELETE_OBJECTS →
  delete_batches keys = if decide (keys = []) then [] else [keys].
Proof.
  intros Hlen. unfold MAX_DELETE_OBJECTS in *. destruct keys as [|k ks]; [done|].
  unfold delete_batches. cbn [length batch_offsets].
  rewrite (proj2 (Z.ltb_lt 0 (Z.of_nat (S (length ks))))) by lia. rewrite decide_False by done.
  assert (batch_offsets (length ks) (u32 (0 + MAX_DELETE_OBJECTS)) (Z.of_nat (S (length ks))) = []) as ->.
  { destruct (length ks) as [|n] eqn:Hn; [done|]. simpl. change (u32 (0 + MAX_DELETE_OBJECTS)) with 1000.
    simpl in Hlen. rewrite Hn in Hlen. by rewrite (proj2 (Z.ltb_ge 1000 (Z.of_nat (S (S n))))) by lia. }
  simpl. f_equal. unfold delete_batch, MAX_DELETE_OBJECTS. apply take_ge. simpl in *. lia.
Qed.

(** No batch goes beyond the first [MAX_DELETE_OBJECTS] keys. *)
Lemma delete_batches_first (keys batch : list string) (k : string) :
  batch ∈ delete_batches keys → k ∈ batch → k ∈ take (Z.to_nat MAX_DELETE_OBJECTS) keys.
Proof.
  unfold delete_batches. intros Hb Hk. apply list_elem_of_fmap in Hb as (off & -> & _).
  unfold delete_batch in Hk. eapply elem_of_prefix; [exact Hk|].
  exists (drop (Z.to_nat (Z.min (Z.of_nat (length keys) - off) MAX_DELETE_OBJECTS))
            (take (Z.to_nat MAX_DELETE_OBJECTS) keys)).
  rewrite <-(take_drop (Z.to_nat (Z.min (Z.of_nat (length keys) - off) MAX_DELETE_OBJECTS))
               (take (Z.to_nat MAX_DELETE_OBJECTS) keys)) at 1.
  rewrite take_take. do 2 f_equal. lia.
Qed.

(** ** Ranges *)

(** The range [bytes=first-last] read back. *)
Definition parse_range (r : string) : option (Z * Z) :=
  match split_string "-"%char (String.substring 6 (String.length r) r) with
  | [a; b] => match stol a, stol b with Value x, Value y => Some (x, y) | _, _ => None end
  | _ => None
  end.

Lemma parse_range_to_string (x y : Z) :
  0 <= x <= OFF_MAX → 0 <= y <= OFF_MAX → parse_range (rangeToString x y) = Some (x, y).
Proof.
  intros Hx Hy. destruct (to_string_digits x) as (Hdx & _ & Hnx); [unfold OFF_MAX in *; lia|].
  destruct (to_string_digits y) as (Hdy & _ & Hny); [unfold OFF_MAX in *; lia|].
  unfold parse_range, rangeToString.
  set (t := (to_string x ++ RANGE_DELIMITER ++ to_string y)%string).
  change ("bytes=" ++ t)%string with
    (String "b" (String "y" (String "t" (String "e" (String "s" (String "=" t))))))%char.
  simpl String.substring. rewrite substring_all by (simpl; lia). unfold t, split_string.
  change (RANGE_DELIMITER ++ to_string y)%string with (String "-" (to_string y)).
  assert (∀ c, is_digit c = true → c ≠ "-"%char) as Hd by (by intros c Hc ->).
  rewrite split_tokens_snoc, split_tokens_word by done. simpl.
  change (EmptyString ++ to_string x)%string with (to_string x).
  by rewrite !stol_to_string.
Qed.

(** ** Keys and their numbers *)

Lemma after_last_delimiter_digits (d : string) :
  all_digits d = true → after_last_delimiter d = None.
Proof.
  induction d as [|c d IH]; intros Hd; simpl in *; [done|].
  apply andb_true_iff in Hd as [Hc Hd]. rewrite IH by done.
  destruct (Ascii.eqb_spec c OBJECT_DELIMITER); [by subst|done].
Qed.

Lemma after_last_delimiter_app (p d : string) :
  all_digits d = true →
  after_last_delimiter ((p ++ String OBJECT_DELIMITER EmptyString) ++ d)%string = Some d.
Proof.
  intros Hd. induction p as [|c p IH]; simpl.
  - by rewrite after_last_delimiter_digits.
  - by rewrite IH.
Qed.

Lemma objectSuffix_digits (objectId : Z) :
  all_digits (objectSuffix objectId) = true ∧
  parse_digits 0 (objectSuffix objectId) = u64 (MAX_OBJECT_ID - objectId) ∧
  objectSuffix objectId ≠ EmptyString.
Proof. apply set_width_digits. pose proof (u64_range (MAX_OBJECT_ID - objectId)). lia. Qed.

(** The key of a block gives back the block's number: for every prefix with a
    character other than the delimiter, and for all 64-bit object ids (also
    above [MAX_OBJECT_ID], where the suffix no longer has six digits). *)
Lemma getObjectId_getKey_aux (prefix p key : string) (objectId : Z) :
  0 <= objectId <= UINT64_MAX → strip_delimiters prefix = Value p →
  getKey prefix objectId = Value key → getObjectId key = Value objectId.
Proof.
  intros Hid Hp Hk. unfold getKey, adjustPrefix in Hk. rewrite Hp in Hk. injection Hk as <-.
  destruct (objectSuffix_digits objectId) as (Hd & Hv & Hne).
  unfold getObjectId. rewrite after_last_delimiter_app by done. simpl.
  rewrite stoull_digits; [|done..|].
  - rewrite Hv. f_equal. apply u64_sub_sub. unfold UINT64_MAX in *. lia.
  - rewrite Hv. pose proof (u64_range (MAX_OBJECT_ID - objectId)). unfold UINT64_MAX. lia.
Qed.

Lemma getKey_prefix (prefix key : string) (objectId : Z) :
  getKey prefix objectId = Value key → ∃ p, strip_delimiters prefix = Value p.
Proof. unfold getKey, adjustPrefix. destruct (strip_delimiters prefix); [eauto|done]. Qed.

(** Different blocks of a file have different keys. *)
Lemma getKey_inj (prefix key : string) (i j : Z) :
  0 <= i <= UINT64_MAX → 0 <= j <= UINT64_MAX →
  getKey prefix i = Value key → getKey prefix j = Value key → i = j.
Proof.
  intros Hi Hj Hki Hkj. destruct (getKey_prefix _ _ _ Hki) as [p Hp].
  pose proof (getObjectId_getKey_aux _ _ _ _ Hi Hp Hki) as E1.
  pose proof (getObjectId_getKey_aux _ _ _ _ Hj Hp Hkj) as E2. congruence.
Qed.

(** [getObjectId] recovers the block id from every key that [getKey]
    builds, for all 64-bit ids, also those above [MAX_OBJECT_ID], whose
    suffix is wider than the usual one. *)
Lemma getObjectId_getKey (prefix key : string) (objectId : Z) :
  0 <= objectId <= UINT64_MAX → getKey prefix objectId = Value key →
  getObjectId key = Value objectId.
Proof.
  intros Hid Hk. destruct (getKey_prefix _ _ _ Hk) as [p Hp].
  by eapply getObjectId_getKey_aux.
Qed.
