(* ===== verification/KeyValueAdapter.v ===== *)
(** * Files as blocks of a key-value storage (src/src/keyValueAdapter.cc/.h)

    [KeyValueFileHandle] splits a file into blocks of [m_blockSize] bytes, one
    object per block; [KeyValueAdapter] truncates and unlinks such files.
    Every block operation runs as a task of the executor and holds the lock
    of the block's key, so the model runs the tasks of a call one after the
    other in an arbitrary order (file Futures).  The specification is the byte
    view [kv_byte] of the stored objects. *)

From stdpp Require Import base numbers list gmap strings.
From Stdlib Require Import ZArith Lia.
From S2P Require Import Prelude Futures KeyValueHelper.
Local Open Scope Z_scope.

Definition DEFAULT_BLOCK_SIZE : Z := 10 * 1024 * 1024.

(** ** Block arithmetic: [off_t] converted to [size_t], division at 64 bits *)
Definition getBlockId (offset blockSize : Z) : Z := u64 offset / blockSize.
Definition getBlockOffset (offset blockSize : Z) : Z :=
  i64 (u64 offset - u64 (getBlockId offset blockSize * blockSize)).

Definition fillToSize (buf : bytes) (size : Z) : bytes :=
  if chainLength buf <? size then buf ++ zeros (size - chainLength buf) else buf.

(** One step of the read and write loops: which bytes of the buffer go to
    which place of which block. *)
Record block_range := mk_block_range {
  br_blockId : Z;
  br_blockOffset : Z;
  br_bufOffset : Z;
  br_blockSize : Z
}.

(** The loop [for (bufOffset = 0; bufOffset < size; blockOffset = 0, ++blockId)]
    of [write] and [readBlocks].  Each iteration takes at least one byte, so
    [size] iterations are enough. *)
Fixpoint block_loop (fuel : nat) (m_blockSize blockId blockOffset bufOffset size : Z)
  : list block_range :=
  match fuel with
  | O => []
  | S fuel' =>
      if bufOffset <? size then
        let blockSize := Z.min (u64 (m_blockSize - blockOffset)) (u64 (size - bufOffset)) in
        mk_block_range blockId blockOffset bufOffset blockSize
          :: block_loop fuel' m_blockSize (u64 (blockId + 1)) 0 (bufOffset + blockSize) size
      else []
  end.

Definition block_ranges (m_blockSize offset size : Z) : list block_range :=
  block_loop (Z.to_nat size) m_blockSize
    (getBlockId offset m_blockSize) (getBlockOffset offset m_blockSize) 0 size.

(** The adapter's state: the storage and the keys whose lock is held. *)
Record kv_state (St : Type) := mk_kv_state { store : St; locks : gset string }.
Arguments mk_kv_state {St} _ _.
Arguments store {St} _.
Arguments locks {St} _.

Section adapter.
Context {St : Type} `{!KeyValueHelper St}.

(** [locks->insert(acc, key); try { body; locks->erase(acc); }
    catch (...) { locks->erase(acc); throw; }] *)
Definition with_lock {A} (key : string) (body : ST St A) : ST (kv_state St) A := λ st,
  let held := {[key]} ∪ locks st in
  let '(s', r) := body (store st) in
  (mk_kv_state s' (held ∖ {[key]}), r).

(** A storage call outside any lock. *)
Definition on_store {A} (body : ST St A) : ST (kv_state St) A := λ st,
  let '(s', r) := body (store st) in (mk_kv_state s' (locks st), r).

(** The free function [readBlock]: a missing object reads as no bytes. *)
Definition readObject (key : string) (offset size : Z) : ST St bytes := λ s,
  match getObject key offset size s with
  | (s', Value b) => (s', Value b)
  | (s', Exception e) =>
      if is_enoent e then (s', Value []) else (s', Exception e)
  end.

(** ** KeyValueFileHandle *)
Section handle.
Context (m_fileId : string) (m_blockSize : Z).

Definition readBlock (blockId blockOffset size : Z) : ST (kv_state St) bytes :=
  key ← st_lift (getKey m_fileId blockId);
  with_lock key (readObject key blockOffset size).

(** The buffer that [writeBlock] uploads when the storage cannot write at an
    offset: the fetched object with the new bytes put over it. *)
Definition merge_block (fetchedBuf buf : bytes) (blockOffset : Z) : Try bytes :=
  filledBuf ←
    (if 0 <? blockOffset then
       trimmed ← (if blockOffset <=? chainLength fetchedBuf
                  then trimEnd (chainLength fetchedBuf - blockOffset) fetchedBuf
                  else Value fetchedBuf);
       Value (fillToSize trimmed blockOffset)
     else Value []);
  let filledBuf := filledBuf ++ buf in
  if chainLength filledBuf <? chainLength fetchedBuf then
    rest ← trimStart (chainLength filledBuf) fetchedBuf;
    Value (filledBuf ++ rest)
  else Value filledBuf.

Definition writeBlock (buf : bytes) (blockId blockOffset : Z) : ST (kv_state St) unit :=
  key ← st_lift (getKey m_fileId blockId);
  with_lock key
    (if negb (chainLength buf =? m_blockSize) then
       if hasRandomAccess then
         _ ← putObject key buf blockOffset; mret tt
       else
         fetchedBuf ← readObject key 0 m_blockSize;
         filledBuf ← st_lift (merge_block fetchedBuf buf blockOffset);
         _ ← putObject0 key filledBuf; mret tt
     else
       _ ← putObject0 key buf; mret tt).

(** The task of one block of a write: cut the buffer, write the block. *)
Definition write_task (buf : bytes) (r : block_range) : ST (kv_state St) unit :=
  bufq ← st_lift (trimStart (br_bufOffset r) buf);
  bufq ← st_lift (trimEnd (chainLength bufq - br_blockSize r) bufq);
  writeBlock bufq (br_blockId r) (br_blockOffset r).

Definition write (order : list nat) (offset : Z) (buf : bytes) : ST (kv_state St) Z :=
  if chainLength buf =? 0 then mret 0
  else
    let size := chainLength buf in
    _ ← collect (map (write_task buf) (block_ranges m_blockSize offset size)) order;
    mret size.

(** The task of one block of a read. *)
Definition read_task (r : block_range) : ST (kv_state St) bytes :=
  b ← readBlock (br_blockId r) (br_blockOffset r) (br_blockSize r);
  mret (fillToSize b (br_blockSize r)).

Definition readBlocks (order : list nat) (offset requestedSize : Z) : ST (kv_state St) bytes :=
  if requestedSize =? 0 then mret []
  else
    results ← collect (map read_task (block_ranges m_blockSize offset requestedSize)) order;
    mret (concat results).

Definition read (order : list nat) (offset size : Z) : ST (kv_state St) bytes :=
  readBlocks order offset size.

End handle.

(** ** KeyValueAdapter *)

(** The keys [helper->getKey(fileId, objectId)] of a list of ids. *)
Fixpoint getKeys (fileId : string) (ids : list Z) : Try (list string) :=
  match ids with
  | [] => Value []
  | i :: ids' => k ← getKey fileId i; ks ← getKeys fileId ids'; Value (k :: ks)
  end.

(** [KeyValueAdapter::unlink]. *)
Definition unlink (m_blockSize : Z) (fileId : string) (currentSize : Z) : ST (kv_state St) unit :=
  if currentSize =? 0 then mret tt
  else
    keysToDelete ← st_lift (getKeys fileId (seqZ 0 (currentSize / m_blockSize + 1)));
    on_store (deleteObjects keysToDelete).

(** The ids that [truncate] deletes. *)
Definition truncated_ids (m_blockSize size currentSize : Z) : list Z :=
  let newLastBlockId := getBlockId size m_blockSize in
  let newLastBlockOffset := getBlockOffset size m_blockSize in
  filter (λ objectId, newLastBlockId < objectId ∨
                      (objectId = newLastBlockId ∧ newLastBlockOffset = 0))
    (seqZ 0 (getBlockId currentSize m_blockSize + 1)).

(** The block that [truncate] rewrites and the size it gets, if any. *)
Definition truncated_block (m_blockSize size : Z) : option (Z * Z) :=
  let newLastBlockId := getBlockId size m_blockSize in
  let remainderBlockSize := u64 (getBlockOffset size m_blockSize) in
  let '(blockId, remainderBlockSize) :=
    if (remainderBlockSize =? 0) && (0 <? newLastBlockId)
    then (newLastBlockId - 1, m_blockSize)
    else (newLastBlockId, remainderBlockSize) in
  if (0 <? remainderBlockSize) || (0 <? newLastBlockId)
  then Some (blockId, remainderBlockSize) else None.

(** The future of [truncate] that cuts or pads that block. *)
Definition truncate_last (fileId : string) (block : option (Z * Z)) : ST (kv_state St) Z :=
  match block with
  | Some (blockId, remainderBlockSize) =>
      key ← st_lift (getKey fileId blockId);
      with_lock key
        (b ← readObject key 0 remainderBlockSize;
         putObject0 key (fillToSize b remainderBlockSize))
  | None => mret 0
  end.

(** [KeyValueAdapter::truncate]. *)
Definition truncate (m_blockSize : Z) (fileId : string) (size currentSize : Z)
  : ST (kv_state St) unit :=
  if u64 size =? currentSize then mret tt
  else
    keysToDelete ← st_lift (getKeys fileId (truncated_ids m_blockSize size currentSize));
    _ ← st_lift (getKey fileId (getBlockId size m_blockSize));
    _ ← truncate_last fileId (truncated_block m_blockSize size);
    if bool_decide (keysToDelete = []) then mret tt
    else on_store (deleteObjects keysToDelete).

(** [mknod], [mkdir] and [chmod] have nothing to do on an object storage. *)
Definition mknod (fileId : string) (mode : Z) : ST (kv_state St) unit := mret tt.
Definition mkdir (fileId : string) (mode : Z) : ST (kv_state St) unit := mret tt.
Definition chmod (fileId : string) (mode : Z) : ST (kv_state St) unit := mret tt.

End adapter.
