(* ===== verification/KeyValueSpec.v ===== *)
(** * Correctness of the block adapter

    The byte view of a stored file and the theorems that reads, writes,
    truncation and removal of KeyValueAdapter implement the file it stands
    for, on every order in which the executor runs the block tasks. *)

From stdpp Require Import base numbers list gmap strings.
From Stdlib Require Import ZArith Lia Strings.Byte.
From S2P Require Import Prelude Futures KeyValueHelper KeyValueAdapter.
Local Open Scope Z_scope.

(** ** Block arithmetic *)

Lemma getBlockId_small (offset bs : Z) :
  0 <= offset <= OFF_MAX → 0 < bs → getBlockId offset bs = offset / bs.
Proof. intros. unfold getBlockId, OFF_MAX in *. by rewrite u64_small by lia. Qed.

Lemma getBlockOffset_small (offset bs : Z) :
  0 <= offset <= OFF_MAX → 0 < bs → getBlockOffset offset bs = offset mod bs.
Proof.
  intros Ho Hbs. unfold getBlockOffset. rewrite getBlockId_small by done.
  pose proof (Z.mul_div_le offset bs Hbs). pose proof (Z.div_pos offset bs).
  pose proof (Z.mod_pos_bound offset bs Hbs).
  assert (offset mod bs = offset - offset / bs * bs) as Hmod by (rewrite Z.mod_eq; lia).
  pose proof (Z.mul_nonneg_nonneg (offset / bs) bs). unfold OFF_MAX in *.
  rewrite !u64_small by lia. rewrite i64_small; lia.
Qed.

Lemma byte_at_lookup (f : bytes) (p : Z) (i : nat) :
  p = Z.of_nat i → byte_at f p = default x00 (f !! i).
Proof.
  intros ->. unfold byte_at. rewrite (proj2 (Z.ltb_ge _ 0)) by lia. by rewrite Nat2Z.id.
Qed.

Lemma lookup_pread (f : bytes) (off n : Z) (i : nat) :
  pread f off n !! i = if decide (i < Z.to_nat n)%nat then f !! (Z.to_nat off + i)%nat else None.
Proof.
  unfold pread. case_decide.
  - by rewrite lookup_take_lt, lookup_drop by lia.
  - by rewrite lookup_take_ge by lia.
Qed.

(** A read padded to its size holds the bytes of the range. *)
Lemma fillToSize_pread (o : bytes) (off n : Z) :
  0 <= off → 0 <= n → fillToSize (pread o off n) n = map (byte_at o) (seqZ off n).
Proof.
  intros Hoff Hn. apply list_eq. intros i. rewrite list_lookup_fmap.
  assert (chainLength (pread o off n) <= n) as Hle.
  { unfold chainLength, pread. rewrite length_take. lia. }
  assert (fillToSize (pread o off n) n
          = pread o off n ++ zeros (n - chainLength (pread o off n))) as ->.
  { unfold fillToSize. destruct (Z.ltb_spec (chainLength (pread o off n)) n); [done|].
    replace (n - chainLength _) with 0 by lia. by rewrite app_nil_r. }
  pose proof (lookup_pread o off n i) as Hl.
  destruct (decide (i < Z.to_nat n)%nat).
  - rewrite (lookup_seqZ_lt off n) by lia. simpl.
    rewrite (byte_at_lookup _ _ (Z.to_nat off + i)) by lia.
    destruct (o !! (Z.to_nat off + i)%nat) as [x|] eqn:Hx; simpl.
    + rewrite lookup_app_l; [done|]. by eapply lookup_lt_Some.
    + apply lookup_ge_None in Hl. rewrite lookup_app_r by done.
      unfold zeros, chainLength. rewrite lookup_replicate_2; [done|].
      unfold chainLength in *. lia.
  - rewrite lookup_seqZ_ge by lia. apply lookup_ge_None.
    rewrite length_app. unfold zeros. rewrite length_replicate. unfold chainLength in *. lia.
Qed.

(** The read-modify-write of a block is a positioned write into it. *)
Lemma merge_block_pwrite (fetched buf : bytes) (off : Z) :
  buf ≠ [] → 0 <= off → merge_block fetched buf off = Value (pwrite fetched off buf).
Proof.
  intros Hne Hoff. pose proof (chainLength_nonneg fetched).
  set (head := take (Z.to_nat off) (fetched ++ zeros (off - chainLength fetched))).
  assert (chainLength head = off) as Hhead.
  { unfold head, chainLength, zeros. rewrite length_take, length_app, length_replicate.
    unfold chainLength. lia. }
  unfold merge_block.
  assert ((if 0 <? off then
             trimmed ← (if off <=? chainLength fetched
                        then trimEnd (chainLength fetched - off) fetched
                        else Value fetched);
             Value (fillToSize trimmed off)
           else Value []) = Value head) as ->.
  { destruct (Z.ltb_spec 0 off).
    - destruct (Z.leb_spec off (chainLength fetched)).
      + unfold trimEnd. rewrite (proj2 (Z.leb_le _ _)) by lia. simpl.
        replace (chainLength fetched - (chainLength fetched - off)) with off by lia.
        unfold fillToSize. rewrite chainLength_take by lia.
        rewrite (proj2 (Z.ltb_ge _ _)) by lia. unfold head, zeros.
        replace (Z.to_nat (off - chainLength fetched)) with 0%nat by lia.
        by rewrite app_nil_r.
      + simpl. unfold fillToSize. rewrite (proj2 (Z.ltb_lt _ _)) by lia.
        unfold head. rewrite take_ge; [done|].
        unfold zeros, chainLength in *. rewrite length_app, length_replicate. lia.
    - f_equal. unfold head. by replace (Z.to_nat off) with 0%nat by lia. }
  simpl. rewrite chainLength_app, Hhead.
  assert (pwrite fetched off buf
          = head ++ buf ++ drop (Z.to_nat (off + chainLength buf)) fetched) as ->.
  { by destruct buf. }
  pose proof (chainLength_nonneg buf).
  destruct (Z.ltb_spec (off + chainLength buf) (chainLength fetched)).
  - unfold trimStart. rewrite (proj2 (Z.leb_le _ _)) by lia. simpl. by rewrite <-app_assoc.
  - rewrite drop_ge by (unfold chainLength in *; lia). by rewrite app_nil_r.
Qed.

(** ** The ranges of a read or write *)

Record range_ok (bs offset size : Z) (r : block_range) : Prop := {
  range_offset : 0 <= br_blockOffset r;
  range_size : 0 < br_blockSize r;
  range_block : br_blockOffset r + br_blockSize r <= bs;
  range_buf : 0 <= br_bufOffset r ∧ br_bufOffset r + br_blockSize r <= size;
  range_id : 0 <= br_blockId r <= OFF_MAX;
  range_pos : br_blockId r * bs + br_blockOffset r = offset + br_bufOffset r
}.

Lemma block_loop_spec (fuel : nat) (bs offset id bo bufOffset size : Z) :
  0 < bs <= OFF_MAX → 0 <= bo < bs → 0 <= id → 0 <= bufOffset <= size →
  0 <= offset → offset + size <= OFF_MAX →
  id * bs + bo = offset + bufOffset → size - bufOffset <= Z.of_nat fuel →
  let l := block_loop fuel bs id bo bufOffset size in
  Forall (range_ok bs offset size) l ∧
  concat (map (λ r, seqZ (offset + br_bufOffset r) (br_blockSize r)) l)
    = seqZ (offset + bufOffset) (size - bufOffset) ∧
  Forall (λ r, id <= br_blockId r) l ∧ NoDup (map br_blockId l).
Proof.
  intros Hbs. revert id bo bufOffset.
  induction fuel as [|fuel IH]; intros id bo bufOffset Hbo Hid Hbuf Hoff Hmax Hpos Hfuel l.
  { unfold l. simpl. replace (size - bufOffset) with 0 by lia.
    split_and!; constructor. }
  unfold l. simpl. destruct (Z.ltb_spec bufOffset size) as [Hlt|Hge].
  2:{ replace (size - bufOffset) with 0 by lia. split_and!; constructor. }
  assert (id <= OFF_MAX) by (unfold OFF_MAX in *; nia).
  unfold OFF_MAX in *. rewrite !u64_small by lia.
  set (sz := Z.min (bs - bo) (size - bufOffset)).
  assert (0 < sz) by (unfold sz; lia).
  assert (bufOffset + sz = size ∨ bo + sz = bs) as Hcase by (unfold sz; lia).
  assert (sz <= bs - bo ∧ sz <= size - bufOffset) as [Hs1 Hs2] by (unfold sz; lia).
  assert (range_ok bs offset size (mk_block_range id bo bufOffset sz)) as Hr.
  { split; simpl; unfold OFF_MAX; lia. }
  destruct Hcase as [Hend|Hfull].
  - assert (block_loop fuel bs (id + 1) 0 (bufOffset + sz) size = []) as ->.
    { destruct fuel; simpl; [done|]. by rewrite (proj2 (Z.ltb_ge _ _)) by lia. }
    split_and!; [by apply Forall_singleton| |apply Forall_singleton; simpl; lia|].
    + simpl. rewrite app_nil_r. f_equal; lia.
    + simpl. apply NoDup_singleton.
  - destruct (IH (id + 1) 0 (bufOffset + sz)) as (H1 & H2 & H3 & H4); [lia..|].
    split_and!.
    + by constructor.
    + simpl. rewrite H2.
      replace (size - bufOffset) with (sz + (size - (bufOffset + sz))) by lia.
      rewrite seqZ_app by lia. do 2 f_equal; lia.
    + constructor; simpl; [lia|]. eapply Forall_impl; [exact H3|]. simpl. lia.
    + simpl. apply NoDup_cons. split; [|done]. intros Hin.
      apply list_elem_of_fmap in Hin as (r & Hr' & Hin).
      rewrite Forall_forall in H3. specialize (H3 r Hin). simpl in *. lia.
Qed.

Lemma block_ranges_spec (bs offset size : Z) :
  0 < bs <= OFF_MAX → 0 <= offset → 0 <= size → offset + size <= OFF_MAX →
  let l := block_ranges bs offset size in
  Forall (range_ok bs offset size) l ∧
  concat (map (λ r, seqZ (offset + br_bufOffset r) (br_blockSize r)) l) = seqZ offset size ∧
  NoDup (map br_blockId l).
Proof.
  intros Hbs Hoff Hsize Hmax l.
  pose proof (Z.mod_pos_bound offset bs). pose proof (Z.div_pos offset bs).
  destruct (block_loop_spec (Z.to_nat size) bs offset (offset / bs) (offset mod bs) 0 size)
    as (H1 & H2 & _ & H4); try lia.
  { rewrite Z.mul_comm, <-Z.div_mod by lia. lia. }
  unfold l, block_ranges. rewrite getBlockId_small, getBlockOffset_small by lia.
  rewrite Z.add_0_r, Z.sub_0_r in H2. by split_and!.
Qed.

(** ** The byte view of a stored file *)

Definition blockKey (fileId : string) (blockId : Z) : string :=
  match getKey fileId blockId with Value key => key | Exception _ => EmptyString end.

(** Byte [p] of the file: the byte at [p mod bs] of block [p / bs]; a missing
    object and the bytes past the end of an object read as zeros. *)
Definition kv_byte (fileId : string) (bs : Z) (objs : gmap string bytes) (p : Z) : byte :=
  byte_at (default [] (objs !! blockKey fileId (p / bs))) (p mod bs).

(** A file id that names a file: it has a character other than the delimiter. *)
Definition valid_fileId (fileId : string) : bool :=
  negb (hasException (strip_delimiters fileId)).

Lemma getKey_blockKey (fileId : string) (id : Z) :
  valid_fileId fileId = true → getKey fileId id = Value (blockKey fileId id).
Proof.
  unfold valid_fileId, blockKey, getKey, adjustPrefix.
  by destruct (strip_delimiters fileId).
Qed.

Lemma blockKey_inj (fileId : string) (i j : Z) :
  valid_fileId fileId = true → 0 <= i <= OFF_MAX → 0 <= j <= OFF_MAX →
  blockKey fileId i = blockKey fileId j → i = j.
Proof.
  intros Hv Hi Hj Heq. unfold OFF_MAX in *.
  apply (getKey_inj fileId (blockKey fileId i)); unfold UINT64_MAX; [lia..|by apply getKey_blockKey|].
  rewrite Heq. by apply getKey_blockKey.
Qed.

Lemma block_position (bs id q : Z) :
  0 < bs → 0 <= q < bs → (id * bs + q) / bs = id ∧ (id * bs + q) mod bs = q.
Proof.
  intros Hbs Hq. split.
  - rewrite Z.div_add_l by lia. rewrite Z.div_small by lia. lia.
  - rewrite Z.add_comm, Z.mod_add by lia. by apply Z.mod_small.
Qed.

Lemma kv_byte_block (fileId : string) (bs id q : Z) (objs : gmap string bytes) :
  0 < bs → 0 <= q < bs →
  kv_byte fileId bs objs (id * bs + q) = byte_at (default [] (objs !! blockKey fileId id)) q.
Proof. intros Hbs Hq. unfold kv_byte. by destruct (block_position bs id q) as [-> ->]. Qed.

Lemma kv_bytes_block (fileId : string) (bs id bo n : Z) (objs : gmap string bytes) :
  0 < bs → 0 <= bo → bo + n <= bs →
  map (kv_byte fileId bs objs) (seqZ (id * bs + bo) n)
  = map (byte_at (default [] (objs !! blockKey fileId id))) (seqZ bo n).
Proof.
  intros Hbs Hbo Hn. apply list_eq. intros i. rewrite !list_lookup_fmap.
  destruct (decide (Z.of_nat i < n)).
  - rewrite !lookup_seqZ_lt by lia. simpl. f_equal.
    rewrite <-Z.add_assoc. apply kv_byte_block; lia.
  - by rewrite !lookup_seqZ_ge by lia.
Qed.

Section spec.
Context {St : Type} `{KL : KeyValueLaws St}.
Context (fileId : string) (bs : Z).
Implicit Types (st : kv_state St) (s : St).

Definition objs_of (st : kv_state St) : gmap string bytes := objects (store st).
Definition object_of (st : kv_state St) (id : Z) : bytes :=
  default [] (objs_of st !! blockKey fileId id).

(** *** Locks are free after every call, also after one that fails *)

Lemma with_lock_locks {A} (key : string) (body : ST St A) st :
  locks st = ∅ → locks (with_lock key body st).1 = ∅.
Proof.
  intros Hl. unfold with_lock. destruct (body (store st)) as [s' r]. simpl.
  by rewrite Hl, (right_id_L ∅ (∪)), difference_diag_L.
Qed.

Lemma on_store_locks {A} (body : ST St A) st : locks (on_store body st).1 = locks st.
Proof. unfold on_store. by destruct (body (store st)). Qed.

(** A computation that leaves no lock behind. *)
Definition lock_free {A} (m : ST (kv_state St) A) : Prop :=
  ∀ st, locks st = ∅ → locks (m st).1 = ∅.

Lemma lock_free_ret {A} (a : A) : lock_free (mret a).
Proof. by intros st Hl. Qed.

Lemma lock_free_lift {A} (t : Try A) : lock_free (st_lift t).
Proof. by intros st Hl. Qed.

Lemma lock_free_bind {A B} (m : ST (kv_state St) A) (f : A → ST (kv_state St) B) :
  lock_free m → (∀ a, lock_free (f a)) → lock_free (m ≫= f).
Proof.
  intros Hm Hf st Hl. specialize (Hm st Hl). unfold mbind, ST_bind.
  destruct (m st) as [st' [a|e]]; [by apply Hf|done].
Qed.

Lemma lock_free_with_lock {A} (key : string) (body : ST St A) : lock_free (with_lock key body).
Proof. intros st. apply with_lock_locks. Qed.

Lemma lock_free_on_store {A} (body : ST St A) : lock_free (on_store body).
Proof. intros st Hl. by rewrite on_store_locks. Qed.

Lemma lock_free_collect {A} (tasks : list (ST (kv_state St) A)) (order : list nat) :
  (∀ i t, tasks !! i = Some t → lock_free t) → lock_free (collect tasks order).
Proof.
  intros Ht st Hl. apply (collect_inv tasks order (λ st, locks st = ∅)); [done|].
  intros i t s1 Hi. by apply (Ht i).
Qed.

#[local] Hint Resolve lock_free_ret lock_free_lift lock_free_bind lock_free_with_lock
  lock_free_on_store : helpers.

Lemma lock_free_write (order : list nat) (offset : Z) (buf : bytes) :
  lock_free (write fileId bs order offset buf).
Proof.
  unfold write. case_ifs; [auto with helpers|]. apply lock_free_bind; [|auto with helpers].
  apply lock_free_collect. intros i t Hi. apply list_lookup_fmap_Some in Hi as (r & -> & _).
  unfold write_task, writeBlock. repeat (apply lock_free_bind; intros); auto with helpers.
Qed.

Lemma lock_free_read (order : list nat) (offset size : Z) :
  lock_free (read fileId bs order offset size).
Proof.
  unfold read, readBlocks. case_ifs; [auto with helpers|].
  apply lock_free_bind; [|auto with helpers].
  apply lock_free_collect. intros i t Hi. apply list_lookup_fmap_Some in Hi as (r & -> & _).
  unfold read_task, readBlock. repeat (apply lock_free_bind; intros); auto with helpers.
Qed.

Lemma lock_free_truncate (size currentSize : Z) : lock_free (truncate bs fileId size currentSize).
Proof.
  unfold truncate. case_ifs; [auto with helpers|].
  repeat (apply lock_free_bind; intros); auto with helpers.
  - unfold truncate_last. destruct (truncated_block bs size) as [[id rem]|]; auto with helpers.
  - case_bool_decide; auto with helpers.
Qed.

(** *** One block *)

Lemma readObject_spec `{!KeyValueReliable St} s (key : string) (off n : Z) :
  0 <= off → 0 < n → off + n <= OFF_MAX →
  ∃ s', readObject key off n s = (s', Value (pread (default [] (objects s !! key)) off n)) ∧
        objects s' = objects s.
Proof.
  intros Hoff Hn Hmax. unfold readObject.
  pose proof (getObject_objects s key off n) as Hobj.
  pose proof (getObject_value s key off n) as Hval.
  pose proof (getObject_enoent s key off n) as Hno.
  pose proof (getObject_reliable s key off n) as Hrel.
  destruct (getObject key off n s) as [s' [b|e]]; simpl in *; exists s'.
  - by rewrite (Hval b).
  - specialize (Hrel e Hoff Hn Hmax eq_refl). rewrite Hrel. by rewrite (Hno e Hoff Hn Hmax eq_refl Hrel).
Qed.

Lemma putObject_spec `{!KeyValueReliable St} s (key : string) (b : bytes) (off : Z) :
  b ≠ [] → 0 <= off → (hasRandomAccess = false → off = 0) →
  ∃ s' n, putObject key b off s = (s', Value n) ∧
    objects s' = <[key := if hasRandomAccess then pwrite (default [] (objects s !! key)) off b
                          else b]> (objects s).
Proof.
  intros Hb Hoff Hra. destruct (putObject_reliable s key b off Hb) as [n Hn].
  pose proof (putObject_value s key b off n Hb Hoff Hra Hn).
  destruct (putObject key b off s) as [s' r]. simpl in *. subst r. eauto.
Qed.

Lemma pread_byte_at (o : bytes) (off n q : Z) :
  0 <= off → 0 <= q < n → byte_at (pread o off n) q = byte_at o (off + q).
Proof.
  intros Hoff Hq. rewrite (byte_at_lookup _ q (Z.to_nat q)) by lia.
  rewrite (byte_at_lookup _ (off + q) (Z.to_nat off + Z.to_nat q)) by lia.
  rewrite lookup_pread. by rewrite decide_True by lia.
Qed.

Lemma with_lock_run {A} (key : string) (body : ST St A) st s' (r : Try A) :
  body (store st) = (s', r) → ∃ st', with_lock key body st = (st', r) ∧ store st' = s'.
Proof. intros Hb. unfold with_lock. rewrite Hb. eauto. Qed.

Section reliable.
Context `{!KeyValueReliable St}.
Hypothesis Hvalid : valid_fileId fileId = true.
Hypothesis Hbs : 0 < bs <= OFF_MAX.

Lemma read_task_spec st (r : block_range) (offset size : Z) :
  range_ok bs offset size r →
  ∃ st', read_task fileId r st
         = (st', Value (map (kv_byte fileId bs (objs_of st))
                          (seqZ (offset + br_bufOffset r) (br_blockSize r)))) ∧
         objs_of st' = objs_of st.
Proof.
  intros [Hbo Hsz Hblk Hbuf Hid Hpos].
  rewrite <-Hpos, kv_bytes_block, <-fillToSize_pread by lia.
  unfold read_task, readBlock, st_lift. rewrite getKey_blockKey by done.
  destruct (readObject_spec (store st) (blockKey fileId (br_blockId r))
              (br_blockOffset r) (br_blockSize r)) as (s' & Hread & Hobj); [lia..|].
  destruct (with_lock_run (blockKey fileId (br_blockId r)) _ st _ _ Hread) as (st' & Hwl & Hst).
  exists st'. unfold mbind, ST_bind, mret, ST_ret. rewrite Hwl. split; [done|].
  unfold objs_of. by rewrite Hst.
Qed.

Lemma read_spec_aux st (order : list nat) (offset size : Z) :
  0 <= offset → 0 <= size → offset + size <= OFF_MAX →
  order ≡ₚ seq 0 (length (block_ranges bs offset size)) →
  ∃ st', read fileId bs order offset size st
         = (st', Value (map (kv_byte fileId bs (objs_of st)) (seqZ offset size))) ∧
         objs_of st' = objs_of st.
Proof.
  intros Hoff Hsize Hmax Hord.
  destruct (block_ranges_spec bs offset size Hbs Hoff Hsize Hmax) as (Hok & Hcat & _).
  set (l := block_ranges bs offset size) in *.
  unfold read, readBlocks. destruct (Z.eqb_spec size 0) as [->|Hne].
  { exists st. by rewrite seqZ_nil by lia. }
  destruct (collect_values (map (read_task fileId) l) order
              (λ _ st', objs_of st' = objs_of st)
              (λ i b, ∀ r, l !! i = Some r →
                 b = map (kv_byte fileId bs (objs_of st))
                       (seqZ (offset + br_bufOffset r) (br_blockSize r))) st)
    as (st' & vs & Hrun & Hobj & Hlen & Hvs).
  { by rewrite length_map. }
  { done. }
  { intros done i t s1 _ Ht HI. apply list_lookup_fmap_Some in Ht as (r & -> & Hr).
    destruct (read_task_spec s1 r offset size) as (s2 & Hs2 & Ho2).
    { by eapply Forall_lookup_1. }
    eexists s2, _. split_and!; [exact Hs2|congruence|].
    intros r' Hr'. by simplify_eq; rewrite HI. }
  exists st'. unfold mbind, ST_bind, mret, ST_ret. fold l. rewrite Hrun. split; [|done].
  do 2 f_equal. rewrite <-Hcat, concat_map, map_map. f_equal.
  apply list_eq_same_length with (n := length l).
  { by rewrite length_map. } { by rewrite Hlen, length_map. }
  intros i x y Hi Hx Hy. rewrite list_lookup_fmap in Hy.
  destruct (l !! i) as [r|] eqn:Hr; simpl in Hy; [|done]. injection Hy as <-.
  by apply (Hvs i x Hx r).
Qed.

(** The object that [writeBlock] leaves behind. *)
Lemma writeBlock_spec st (buf : bytes) (id bo : Z) :
  buf ≠ [] → 0 <= bo → bo + chainLength buf <= bs →
  ∃ st' o, writeBlock fileId bs buf id bo st = (st', Value tt) ∧
    objs_of st' = <[blockKey fileId id := o]> (objs_of st) ∧
    ∀ q, 0 <= q < bs →
      byte_at o q = if decide (bo <= q < bo + chainLength buf)
                    then byte_at buf (q - bo) else byte_at (object_of st id) q.
Proof.
  intros Hne Hbo Hlen. unfold writeBlock, st_lift. rewrite getKey_blockKey by done.
  set (key := blockKey fileId id). unfold object_of, objs_of. fold key.
  set (obj := default [] (objects (store st) !! key)).
  assert (∀ body : ST St unit, ∀ s' o, body (store st) = (s', Value tt) →
    objects s' = <[key := o]> (objects (store st)) →
    (∀ q, 0 <= q < bs → byte_at o q = byte_at (pwrite obj bo buf) q) →
    ∃ st' o, with_lock key body st = (st', Value tt) ∧
      objects (store st') = <[key := o]> (objects (store st)) ∧
      ∀ q, 0 <= q < bs → byte_at o q = if decide (bo <= q < bo + chainLength buf)
                    then byte_at buf (q - bo) else byte_at obj q) as Hfin.
  { intros body s' o Hbody Hobj Ho.
    destruct (with_lock_run key body st s' _ Hbody) as (st' & Hrun & Hst).
    exists st', o. split_and!; [done|by rewrite Hst|].
    intros q Hq. rewrite Ho by done. apply byte_at_pwrite; lia. }
  unfold mbind, ST_bind. destruct (Z.eqb_spec (chainLength buf) bs) as [Hfull|Hpart]; simpl.
  { destruct (putObject_spec (store st) key buf 0) as (s' & n & Hput & Hobj); [done..|].
    eapply Hfin; [unfold putObject0; by rewrite Hput|exact Hobj|].
    assert (bo = 0) as -> by lia. intros q Hq. case_match; [done|].
    rewrite byte_at_pwrite by lia. rewrite decide_True by lia. f_equal. lia. }
  destruct hasRandomAccess eqn:Hra.
  { destruct (putObject_spec (store st) key buf bo) as (s' & n & Hput & Hobj);
      [done|done|by rewrite Hra|]. rewrite Hra in Hobj.
    eapply Hfin; [by rewrite Hput|exact Hobj|done]. }
  destruct (readObject_spec (store st) key 0 bs) as (s1 & Hread & Hobj1); [lia..|].
  fold obj in Hread.
  assert (pwrite (pread obj 0 bs) bo buf ≠ []) as Hpne.
  { intros Hnil. apply (f_equal length) in Hnil. rewrite length_pwrite in Hnil by done.
    destruct buf; simpl in *; [done|lia]. }
  destruct (putObject_spec s1 key (pwrite (pread obj 0 bs) bo buf) 0)
    as (s2 & n & Hput & Hobj2); [done..|]. rewrite Hra, Hobj1 in Hobj2.
  eapply Hfin; [|exact Hobj2|].
  - rewrite Hread, merge_block_pwrite by done. unfold putObject0. by rewrite Hput.
  - intros q Hq. rewrite !byte_at_pwrite by lia. case_decide; [done|].
    rewrite pread_byte_at by lia. f_equal.
Qed.

(** Block [id] had its byte [q] written by one of the tasks [done]. *)
Definition wrote (l : list block_range) (done : list nat) (id q : Z) : Prop :=
  ∃ i r, i ∈ done ∧ l !! i = Some r ∧ br_blockId r = id ∧
         br_blockOffset r <= q < br_blockOffset r + br_blockSize r.

Lemma wrote_snoc (l : list block_range) (done : list nat) (i : nat) (r : block_range) (id q : Z) :
  l !! i = Some r →
  wrote l (done ++ [i]) id q ↔
  wrote l done id q ∨ (br_blockId r = id ∧
                       br_blockOffset r <= q < br_blockOffset r + br_blockSize r).
Proof.
  intros Hr. unfold wrote. split.
  - intros (j & r' & Hj & Hr' & H1 & H2). apply elem_of_app in Hj as [Hj|Hj]; [left; eauto 6|].
    apply list_elem_of_singleton in Hj as ->. simplify_eq. by right.
  - intros [(j & r' & Hj & Hr' & H1 & H2)|[H1 H2]].
    + exists j, r'. rewrite elem_of_app. auto.
    + exists i, r. rewrite elem_of_app, list_elem_of_singleton. auto.
Qed.

(** What the tasks [done] of a write have done to the storage. *)
Definition written (st0 : kv_state St) (l : list block_range) (offset : Z) (buf : bytes)
    (done : list nat) (st : kv_state St) : Prop :=
  (∀ id q, 0 <= id <= OFF_MAX → 0 <= q < bs →
     (wrote l done id q → byte_at (object_of st id) q = byte_at buf (id * bs + q - offset)) ∧
     (¬ wrote l done id q → byte_at (object_of st id) q = byte_at (object_of st0 id) q)) ∧
  (∀ k, (∀ r, r ∈ l → k ≠ blockKey fileId (br_blockId r)) → objs_of st !! k = objs_of st0 !! k).

Lemma write_task_spec st0 st (l : list block_range) (offset : Z) (buf : bytes)
    (done : list nat) (i : nat) (r : block_range) :
  range_ok bs offset (chainLength buf) r → l !! i = Some r → written st0 l offset buf done st →
  ∃ st', write_task fileId bs buf r st = (st', Value tt) ∧
         written st0 l offset buf (done ++ [i]) st'.
Proof.
  intros [Hbo Hsz Hblk Hbuf Hid Hpos] Hr [Hin Hout].
  unfold write_task, trimStart, trimEnd, st_lift.
  rewrite (proj2 (Z.leb_le _ _)) by lia. unfold mbind, ST_bind.
  rewrite chainLength_drop by lia. rewrite (proj2 (Z.leb_le _ _)) by lia.
  replace (Z.max 0 _ - _) with (br_blockSize r) by lia.
  change (take (Z.to_nat (br_blockSize r)) (drop (Z.to_nat (br_bufOffset r)) buf))
    with (pread buf (br_bufOffset r) (br_blockSize r)).
  set (b := pread buf (br_bufOffset r) (br_blockSize r)).
  assert (chainLength b = br_blockSize r) as Hb.
  { unfold b, pread. rewrite chainLength_take, chainLength_drop; lia. }
  destruct (writeBlock_spec st b (br_blockId r) (br_blockOffset r))
    as (st' & o & Hrun & Hobj & Ho); [intros Hnil; rewrite Hnil, chainLength_nil in Hb; lia|lia..|].
  exists st'. split; [done|]. split.
  - intros id q Hid' Hq. rewrite (wrote_snoc l done i r) by done.
    destruct (Hin id q Hid' Hq) as [Hw Hnw]. unfold object_of. rewrite Hobj.
    destruct (decide (br_blockId r = id)) as [<-|Hne].
    + rewrite lookup_insert_eq. simpl. rewrite Ho by done. rewrite Hb.
      case_decide as Hdec.
      * assert (byte_at b (q - br_blockOffset r)
                = byte_at buf (br_blockId r * bs + q - offset)) as ->; [|tauto].
        unfold b. rewrite pread_byte_at by lia. f_equal. lia.
      * tauto.
    + rewrite lookup_insert_ne by (intros Heq; by apply blockKey_inj in Heq). tauto.
  - intros k Hk. rewrite Hobj, lookup_insert_ne; [by apply Hout|].
    intros Heq. eapply Hk; [by eapply list_elem_of_lookup_2|done].
Qed.

(** Every byte of the range is written by some task. *)
Lemma ranges_wrote (l : list block_range) (order : list nat) (offset size p : Z) :
  Forall (range_ok bs offset size) l →
  concat (map (λ r, seqZ (offset + br_bufOffset r) (br_blockSize r)) l) = seqZ offset size →
  order ≡ₚ seq 0 (length l) → offset <= p < offset + size →
  wrote l order (p / bs) (p mod bs).
Proof.
  intros Hok Hcat Hord Hp.
  assert (p ∈ seqZ offset size) as Hmem by (apply elem_of_seqZ; lia).
  rewrite <-Hcat in Hmem. apply list_elem_of_In, in_concat in Hmem as (x & Hx & Hpx).
  apply in_map_iff in Hx as (r & <- & Hr).
  apply list_elem_of_In in Hr, Hpx. apply elem_of_seqZ in Hpx.
  rewrite Forall_forall in Hok. destruct (Hok r Hr) as [Hbo Hsz Hblk Hbuf Hrid Hpos].
  apply list_elem_of_lookup in Hr as [i Hi]. exists i, r.
  destruct (block_position bs (br_blockId r) (p - br_blockId r * bs)) as [E1 E2]; [lia..|].
  replace (br_blockId r * bs + (p - br_blockId r * bs)) with p in * by lia.
  rewrite E1, E2. split_and!; try done; try lia.
  rewrite Hord. apply elem_of_seq. apply lookup_lt_Some in Hi. lia.
Qed.

(** The bytes of the range are those of the buffer, the others are kept. *)
Lemma write_spec_aux st (order : list nat) (offset : Z) (buf : bytes) :
  0 <= offset → offset + chainLength buf <= OFF_MAX →
  order ≡ₚ seq 0 (length (block_ranges bs offset (chainLength buf))) →
  ∃ st', write fileId bs order offset buf st = (st', Value (chainLength buf)) ∧
    (∀ p, 0 <= p <= OFF_MAX →
       kv_byte fileId bs (objs_of st') p =
         if decide (offset <= p < offset + chainLength buf)
         then byte_at buf (p - offset) else kv_byte fileId bs (objs_of st) p) ∧
    (∀ k, (∀ id, 0 <= id <= OFF_MAX → k ≠ blockKey fileId id) →
       objs_of st' !! k = objs_of st !! k).
Proof.
  intros Hoff Hmax Hord. pose proof (chainLength_nonneg buf).
  unfold write. destruct (Z.eqb_spec (chainLength buf) 0) as [Hz|Hne].
  { exists st. rewrite Hz. split_and!; [done| |done]. intros. by rewrite decide_False by lia. }
  destruct (block_ranges_spec bs offset (chainLength buf)) as (Hok & Hcat & _); [lia..|].
  set (l := block_ranges bs offset (chainLength buf)) in *.
  destruct (collect_values (map (write_task fileId bs buf) l) order
              (written st l offset buf) (λ _ _, True) st)
    as (st' & vs & Hrun & [Hin Hout] & _).
  { by rewrite length_map. }
  { split; [|done]. intros id q _ _. split; [|done].
    intros (i & r & Hi & _). by apply elem_of_nil in Hi. }
  { intros done i t s1 _ Ht HI. apply list_lookup_fmap_Some in Ht as (r & -> & Hr).
    destruct (write_task_spec st s1 l offset buf done i r) as (s2 & Hs2 & HI2); [|done..|].
    { by eapply Forall_lookup_1. }
    by exists s2, tt. }
  exists st'. unfold mbind, ST_bind. fold l. rewrite Hrun. split; [done|]. split.
  2:{ intros k Hk. apply Hout. intros r Hr. rewrite Forall_forall in Hok.
      apply Hk. by apply Hok. }
  intros p Hp. unfold kv_byte. fold (object_of st' (p / bs)) (object_of st (p / bs)).
  pose proof (Z.mod_pos_bound p bs). pose proof (Z.div_mod p bs).
  assert (0 <= p / bs <= OFF_MAX) as Hid.
  { split; [apply Z.div_pos; lia|]. transitivity p; [|lia]. apply Z.div_le_upper_bound; nia. }
  destruct (Hin (p / bs) (p mod bs)) as [Hw Hnw]; [done|lia|].
  case_decide as Hdec.
  - rewrite Hw; [f_equal; lia|]. by eapply ranges_wrote.
  - apply Hnw. intros (i & r & _ & Hr & Hrid & Hrq).
    eapply Forall_lookup_1 in Hok as [Hbo Hsz Hblk Hbuf Hid' Hpos]; [|exact Hr].
    apply Hdec. rewrite Hrid in Hpos. lia.
Qed.

(** A read after a write. *)
Lemma write_read_aux st (worder rorder : list nat) (offset roffset rsize : Z) (buf : bytes) :
  0 <= offset → offset + chainLength buf <= OFF_MAX → 0 <= roffset → 0 <= rsize → roffset + rsize <= OFF_MAX →
  worder ≡ₚ seq 0 (length (block_ranges bs offset (chainLength buf))) →
  rorder ≡ₚ seq 0 (length (block_ranges bs roffset rsize)) →
  ∃ st1 st2, write fileId bs worder offset buf st = (st1, Value (chainLength buf)) ∧
    read fileId bs rorder roffset rsize st1
    = (st2, Value (map (λ p, if decide (offset <= p < offset + chainLength buf)
                             then byte_at buf (p - offset) else kv_byte fileId bs (objs_of st) p)
                     (seqZ roffset rsize))).
Proof.
  intros Ho Hmax Hro Hrs Hrmax Hw Hr.
  destruct (write_spec_aux st worder offset buf Ho Hmax Hw) as (st1 & Hrun1 & Hbytes & _).
  destruct (read_spec_aux st1 rorder roffset rsize Hro Hrs Hrmax Hr) as (st2 & Hrun2 & _).
  exists st1, st2. split; [done|]. rewrite Hrun2. do 2 f_equal. apply map_ext_in.
  intros p Hp. apply list_elem_of_In, elem_of_seqZ in Hp. apply Hbytes. lia.
Qed.

(** *** Removal and truncation *)

Lemma getKeys_blockKeys (ids : list Z) : getKeys fileId ids = Value (map (blockKey fileId) ids).
Proof. induction ids as [|id ids IH]; simpl; [done|]. by rewrite getKey_blockKey, IH. Qed.

Lemma deleteObjects_spec st (ks : list string) :
  Z.of_nat (length ks) <= MAX_DELETE_OBJECTS →
  ∃ st', on_store (deleteObjects ks) st = (st', Value tt) ∧
    ∀ k, objs_of st' !! k = if decide (k ∈ ks) then None else objs_of st !! k.
Proof.
  intros Hks. unfold on_store.
  destruct (deleteObjects_reliable (store st) ks) as [[] Hu].
  pose proof (λ k, deleteObjects_value (store st) ks tt k Hks Hu) as Hdel.
  destruct (deleteObjects ks (store st)) as [s' r]. simpl in *. subst r. eauto.
Qed.


(** Unlinking removes every block of the file and nothing else. *)
Lemma unlink_spec_aux st (currentSize : Z) :
  0 < currentSize <= OFF_MAX → currentSize / bs < MAX_DELETE_OBJECTS →
  ∃ st', unlink bs fileId currentSize st = (st', Value tt) ∧
    (∀ id, 0 <= id <= currentSize / bs → objs_of st' !! blockKey fileId id = None) ∧
    (∀ k, (∀ id, 0 <= id <= currentSize / bs → k ≠ blockKey fileId id) →
       objs_of st' !! k = objs_of st !! k).
Proof.
  intros Hcur Hmax. unfold unlink. rewrite (proj2 (Z.eqb_neq _ _)) by lia.
  unfold st_lift. rewrite getKeys_blockKeys. unfold mbind, ST_bind.
  pose proof (Z.div_pos currentSize bs).
  set (ks := map (blockKey fileId) (seqZ 0 (currentSize / bs + 1))).
  destruct (deleteObjects_spec st ks) as (st' & -> & Hobj).
  { unfold ks. rewrite length_map, length_seqZ. unfold MAX_DELETE_OBJECTS in *. lia. }
  exists st'. split_and!; [done| |].
  - intros id Hid. rewrite Hobj, decide_True; [done|].
    unfold ks. apply list_elem_of_fmap. exists id. split; [done|]. apply elem_of_seqZ. lia.
  - intros k Hk. rewrite Hobj, decide_False; [done|].
    intros Hin. apply list_elem_of_fmap in Hin as (id & -> & Hid).
    apply elem_of_seqZ in Hid. apply (Hk id); [lia|done].
Qed.















End reliable.
End spec.

(** ** A storage in memory

    The smallest storage that keeps the promises of the interface: the map of
    objects itself, with and without random access. *)

Definition memory_helper (random : bool) : KeyValueHelper (gmap string bytes) := {|
  hasRandomAccess := random;
  getObject := λ k off n s,
    (s, match s !! k with
        | Some o => Value (pread o off n)
        | None => Exception (system_error (make_error_code ENOENT))
        end);
  putObject := λ k b off s,
    (<[k := if random then pwrite (default [] (s !! k)) off b else b]> s, Value (chainLength b));
  deleteObjects := λ ks s, (foldr delete s ks, Value tt)
|}.

Lemma lookup_foldr_delete (ks : list string) (s : gmap string bytes) (k : string) :
  foldr delete s ks !! k = if decide (k ∈ ks) then None else s !! k.
Proof.
  induction ks as [|k' ks IH].
  { rewrite decide_False; [done|]. apply not_elem_of_nil. }
  cbn [foldr]. destruct (decide (k' = k)) as [->|Hne].
  - rewrite lookup_delete_eq, decide_True; [done|]. left.
  - rewrite lookup_delete_ne, IH by done.
    apply decide_ext. rewrite elem_of_cons. split; [by right|by intros [->|]].
Qed.

Lemma memory_laws (random : bool) : @KeyValueLaws _ (memory_helper random).
Proof.
  refine {| objects := λ s : gmap string bytes, s |}; simpl.
  - done.
  - intros s k off n b _ _ _ Hb. destruct (s !! k); by simplify_eq/=.
  - intros s k off n e _ _ _ He _. destruct (s !! k); [done|]. simpl.
    unfold pread. by rewrite drop_nil, take_nil.
  - done.
  - intros s k b off k' Hne. by rewrite lookup_insert_ne.
  - intros s ks u k _ _. apply lookup_foldr_delete.
  - intros s ks k Hk. by rewrite lookup_foldr_delete, decide_False.
Defined.

Lemma memory_reliable (random : bool) : @KeyValueReliable _ (memory_helper random).
Proof.
  split; simpl; eauto. intros s k off n e _ _ _ He. by destruct (s !! k); simplify_eq/=.
Defined.

(** ** The properties *)

Section properties.
Context {St : Type} `{KL : KeyValueLaws St}.

(** C2: a read of a block-stored file returns exactly the bytes of the range,
    with zeros for what was never written, and leaves the storage as it was;
    for every block size, every range and every order of the block tasks. *)
Theorem kv_read_bytes `{!KeyValueReliable St} (fileId : string) (bs : Z) (st : kv_state St)
    (order : list nat) (offset size : Z) :
  valid_fileId fileId = true → 0 < bs <= OFF_MAX →
  0 <= offset → 0 <= size → offset + size <= OFF_MAX →
  order ≡ₚ seq 0 (length (block_ranges bs offset size)) →
  ∃ st', read fileId bs order offset size st
         = (st', Value (map (kv_byte fileId bs (objs_of st)) (seqZ offset size))) ∧
         objs_of st' = objs_of st.
Proof. intros. by apply read_spec_aux. Qed.

(** C1: a write of a buffer succeeds with the buffer's size; afterwards the
    bytes of the range are the buffer's, every other byte of the file is as
    before, and no object of another file changes; for every order of the
    block tasks. *)
Theorem kv_write_bytes `{!KeyValueReliable St} (fileId : string) (bs : Z) (st : kv_state St)
    (order : list nat) (offset : Z) (buf : bytes) :
  valid_fileId fileId = true → 0 < bs <= OFF_MAX →
  0 <= offset → offset + chainLength buf <= OFF_MAX →
  order ≡ₚ seq 0 (length (block_ranges bs offset (chainLength buf))) →
  ∃ st', write fileId bs order offset buf st = (st', Value (chainLength buf)) ∧
    (∀ p, 0 <= p <= OFF_MAX →
       kv_byte fileId bs (objs_of st') p =
         if decide (offset <= p < offset + chainLength buf)
         then byte_at buf (p - offset) else kv_byte fileId bs (objs_of st) p) ∧
    (∀ k, (∀ id, 0 <= id <= OFF_MAX → k ≠ blockKey fileId id) →
       objs_of st' !! k = objs_of st !! k).
Proof. intros. by apply write_spec_aux. Qed.


(** Unlinking a file removes all its blocks and no other object, when the
    file has at most [MAX_DELETE_OBJECTS] blocks. *)
Lemma kv_unlink_objects `{!KeyValueReliable St} (fileId : string) (bs : Z) (st : kv_state St)
    (currentSize : Z) :
  valid_fileId fileId = true → 0 < bs <= OFF_MAX →
  0 < currentSize <= OFF_MAX → currentSize / bs < MAX_DELETE_OBJECTS →
  ∃ st', unlink bs fileId currentSize st = (st', Value tt) ∧
    (∀ id, 0 <= id <= currentSize / bs → objs_of st' !! blockKey fileId id = None) ∧
    (∀ k, (∀ id, 0 <= id <= currentSize / bs → k ≠ blockKey fileId id) →
       objs_of st' !! k = objs_of st !! k).
Proof. intros. by apply unlink_spec_aux. Qed.

(** No block lock is held after a read, a write or a truncation, whether
    the storage calls succeed or throw: a later call never waits for the
    lock of a call that is over. *)
Lemma kv_locks_released (fileId : string) (bs : Z) (st : kv_state St)
    (order : list nat) (offset size currentSize : Z) (buf : bytes) :
  locks st = ∅ →
  locks (read fileId bs order offset size st).1 = ∅ ∧
  locks (write fileId bs order offset buf st).1 = ∅ ∧
  locks (truncate bs fileId size currentSize st).1 = ∅.
Proof.
  intros Hl. split_and!;
    [by apply lock_free_read|by apply lock_free_write|by apply lock_free_truncate].
Qed.

End properties.

(** ** Witnesses *)

(** A file with two blocks of four bytes, the second one short. *)
Definition sample_file : gmap string bytes :=
  <[blockKey "f" 0 := [x61; x62; x63; x64]]> (<[blockKey "f" 1 := [x65; x66]]> ∅).

Definition sample_state : kv_state (gmap string bytes) := mk_kv_state sample_file ∅.

Lemma kv_read_bytes_witness :
  ∃ st', @read _ (memory_helper false) "f" 4 [1; 0]%nat 2 5 sample_state
         = (st', Value [x63; x64; x65; x66; x00]) ∧ store st' = sample_file.
Proof.
  pose proof (@kv_read_bytes _ _ (memory_laws false) (memory_reliable false)
                "f" 4 sample_state [1; 0]%nat 2 5) as H.
  apply H; [reflexivity|vm_compute; intuition congruence|vm_compute; congruence..|].
  apply Permutation_swap.
Defined.

Lemma kv_write_bytes_witness :
  ∃ st', @write _ (memory_helper false) "f" 4 [1; 0]%nat 3 [x78; x79] sample_state
         = (st', Value 2) ∧
         kv_byte "f" 4 (store st') 3 = x78 ∧ kv_byte "f" 4 (store st') 5 = x66.
Proof.
  destruct (@kv_write_bytes _ _ (memory_laws false) (memory_reliable false)
                "f" 4 sample_state [1; 0]%nat 3 [x78; x79]) as (st' & Hrun & Hp & _);
    [reflexivity|vm_compute; intuition congruence|vm_compute; congruence..
    |apply Permutation_swap|].
  exists st'. split_and!; [exact Hrun|..].
  - apply (Hp 3). vm_compute; intuition congruence.
  - apply (Hp 5). vm_compute; intuition congruence.
Defined.



(** On a storage with random access [truncate] does not cut the last
    block: it uploads the kept prefix with [putObject] at offset 0, which
    there writes into the object, so the bytes past the new size stay.  A file
    of one block abcd truncated to 3 bytes still has its byte 3. *)
Lemma kv_truncate_random_access_keeps_tail :
  let st := mk_kv_state (<[blockKey "f" 0 := [x61; x62; x63; x64]]> ∅) ∅ in
  let '(st', r) := @truncate _ (memory_helper true) 8 "f" 3 4 st in
  r = Value tt ∧ kv_byte "f" 8 (store st') 3 = x64.
Proof. vm_compute. done. Qed.
