(* ===== verification/S3Helper.v ===== *)
(** * The S3 storage (src/src/s3Helper.cc, src/src/s3Helper.h)

    [S3Helper] implements the key-value interface with the calls of an AWS
    client.  The client is the class [S3Client]; [S3ClientLaws] states the
    documented behaviour that the helper relies on, [S3UnknownIsRange] what it
    takes an error without a name to mean.  The instance
    [s3_laws] shows that the helper then keeps the promises of the interface,
    so that the theorems about block-stored files hold for S3. *)

From stdpp Require Import base numbers list gmap strings.
From Stdlib Require Import ZArith Lia Ascii Strings.Byte.
From S2P Require Import Prelude StdStrings Storage Futures KeyValueHelper KeyValueAdapter KeyValueSpec.
Local Open Scope Z_scope.

(** ** Outcomes and errors *)

(** [Aws::S3::S3Errors]: those the helper names, and any other. *)
Inductive S3Errors : Set :=
| INVALID_PARAMETER_VALUE | MISSING_ACTION | SERVICE_UNAVAILABLE | NETWORK_CONNECTION
| REQUEST_EXPIRED | ACCESS_DENIED | UNKNOWN | NO_SUCH_BUCKET | NO_SUCH_KEY | RESOURCE_NOT_FOUND
| INTERNAL_FAILURE | INVALID_QUERY_PARAMETER | INVALID_PARAMETER_COMBINATION | SLOW_DOWN | THROTTLING
| OTHER_ERROR (code : Z).

#[export] Instance S3Errors_eq_dec : EqDecision S3Errors.
Proof. solve_decision. Defined.

Inductive Outcome (A : Type) : Type :=
| Success (a : A)
| Failure (e : S3Errors).
Arguments Success {A} _.
Arguments Failure {A} _.

Definition ENOTSUP : Z := 95.
Definition ENETUNREACH : Z := 101.
Definition ETIMEDOUT : Z := 110.
Definition EHOSTUNREACH : Z := 113.

Definition g_errors (e : S3Errors) : option Z :=
  match e with
  | INVALID_PARAMETER_VALUE => Some EINVAL
  | MISSING_ACTION => Some ENOTSUP
  | SERVICE_UNAVAILABLE => Some EHOSTUNREACH
  | NETWORK_CONNECTION => Some ENETUNREACH
  | REQUEST_EXPIRED => Some ETIMEDOUT
  | ACCESS_DENIED => Some EACCES
  | UNKNOWN => Some ENOENT
  | NO_SUCH_BUCKET => Some ENOENT
  | NO_SUCH_KEY => Some ENOENT
  | RESOURCE_NOT_FOUND => Some ENOENT
  | _ => None
  end.

Definition S3_RETRY_ERRORS : list S3Errors :=
  [INTERNAL_FAILURE; INVALID_QUERY_PARAMETER; INVALID_PARAMETER_COMBINATION; INVALID_PARAMETER_VALUE;
   REQUEST_EXPIRED; SERVICE_UNAVAILABLE; SLOW_DOWN; THROTTLING; NETWORK_CONNECTION].

Definition SUCCESS_CODE : error_code := mk_error_code 0 system_category.

Definition getReturnCode {A} (outcome : Outcome A) : error_code :=
  match outcome with
  | Success _ => SUCCESS_CODE
  | Failure e => mk_error_code (default EIO (g_errors e)) system_category
  end.

Definition throwOnError {A} (outcome : Outcome A) : Try unit :=
  let code := getReturnCode outcome in
  if ec_value code =? 0 then Value tt else Exception (system_error code).

Definition S3RetryCondition {A} (outcome : Outcome A) : bool :=
  match outcome with
  | Success _ => true
  | Failure e => negb (bool_decide (e ∈ S3_RETRY_ERRORS))
  end.

(** ** The client *)

(** [GetObject bucket key range], [PutObject bucket key body],
    [DeleteObjects bucket keys]; a successful deletion reports the keys it
    failed on. *)
Class S3Client (C : Type) := {
  GetObject : string → string → string → C → C * Outcome bytes;
  PutObject : string → string → bytes → C → C * Outcome unit;
  DeleteObjects : string → list string → C → C * Outcome (list string)
}.

(** What the service documents, for the objects of one bucket: a ranged read
    returns the bytes of the range that exist, and fails as not found only
    when there are none; a successful put replaces the object; a deletion
    removes the keys it does not report; a request touches no other key. *)
Class S3ClientLaws (C : Type) `{S3Client C} (bucket : string) := {
  bucket_objects : C → gmap string bytes;
  GetObject_objects : ∀ s k r, bucket_objects (GetObject bucket k r s).1 = bucket_objects s;
  GetObject_success : ∀ s k off n b,
    0 <= off → 0 < n → off + n <= OFF_MAX →
    (GetObject bucket k (rangeToString off (off + n - 1)) s).2 = Success b →
    b = pread (default [] (bucket_objects s !! k)) off n;
  GetObject_missing : ∀ s k off n e,
    0 <= off → 0 < n → off + n <= OFF_MAX → e ∈ [NO_SUCH_BUCKET; NO_SUCH_KEY; RESOURCE_NOT_FOUND] →
    (GetObject bucket k (rangeToString off (off + n - 1)) s).2 = Failure e →
    pread (default [] (bucket_objects s !! k)) off n = [];
  PutObject_success : ∀ s k b u,
    (PutObject bucket k b s).2 = Success u →
    bucket_objects (PutObject bucket k b s).1 !! k = Some b;
  PutObject_others : ∀ s k b k',
    k ≠ k' → bucket_objects (PutObject bucket k b s).1 !! k' = bucket_objects s !! k';
  DeleteObjects_success : ∀ s ks failed k,
    (DeleteObjects bucket ks s).2 = Success failed → k ∈ ks → k ∉ failed →
    bucket_objects (DeleteObjects bucket ks s).1 !! k = None;
  DeleteObjects_others : ∀ s bucket' ks k,
    bucket' ≠ bucket ∨ k ∉ ks →
    bucket_objects (DeleteObjects bucket' ks s).1 !! k = bucket_objects s !! k
}.

(** The client library has no name for the refusal of a range behind the end of
    an object and reports it as [UNKNOWN], as it does every other error that it
    does not know.  [g_errors] takes all of them to say that there is nothing to
    read; this is right of a client that has no other unknown error. *)
Class S3UnknownIsRange (C : Type) (bucket : string) `{S3ClientLaws C bucket} := {
  GetObject_unknown : ∀ s k off n,
    0 <= off → 0 < n → off + n <= OFF_MAX →
    (GetObject bucket k (rangeToString off (off + n - 1)) s).2 = Failure UNKNOWN →
    pread (default [] (bucket_objects s !! k)) off n = []
}.

(** A client whose deletions report no failed key. *)
Class S3DeletesAll (C : Type) `{S3Client C} := {
  DeleteObjects_all : ∀ s b ks failed, (DeleteObjects b ks s).2 = Success failed → failed = []
}.

(** ** S3Helper *)

Section s3.
Context {C : Type} `{S3Client C} (m_bucket : string) (moved_from : string → string).

(** A call of the client in a retry loop. *)
Definition client {A} (call : C → C * Outcome A) : ST C (Outcome A) := λ s,
  let '(s', o) := call s in (s', Value o).
Definition retried {A} (call : C → C * Outcome A) : ST C (Outcome A) :=
  retry (client call) S3RetryCondition IO_RETRY_COUNT.

Definition getRegion (hostname : string) : string :=
  default "us-east-1"%string
    (head (filter (λ region, String.index 0 region hostname ≠ None)
       ["us-east-2"; "us-east-1"; "us-west-1"; "us-west-2"; "ca-central-1"; "ap-south-1";
        "ap-northeast-2"; "ap-southeast-1"; "ap-southeast-2"; "ap-northeast-1";
        "eu-central-1"; "eu-west-1"; "eu-west-2"; "sa-east-1"]%string)).

(** The client that the constructor makes: credentials, and a configuration
    without signed payloads and without virtual addressing. *)
Record client_configuration := mk_client_configuration {
  cc_accessKey : string; cc_secretKey : string; cc_region : string; cc_endpointOverride : string; cc_https : bool
}.
Definition S3Helper_client (hostname accessKey secretKey : string) (useHttps : bool) : client_configuration :=
  mk_client_configuration accessKey secretKey (getRegion hostname) hostname useHttps.

Definition s3_getObject (key : string) (offset size : Z) : ST C bytes :=
  outcome ← retried (GetObject m_bucket key (rangeToString offset (i64 (u64 (offset + size - 1)))));
  _ ← st_lift (throwOnError outcome);
  match outcome with
  | Success body => mret body
  | Failure _ => st_throw runtime_error
  end.

(** The offset is asserted to be 0 and not used. *)
Definition s3_putObject (key : string) (buf : bytes) (offset : Z) : ST C Z :=
  let size := chainLength buf in
  outcome ← retried (PutObject m_bucket key buf);
  _ ← st_lift (throwOnError outcome);
  mret size.

(** The request, with its bucket, is moved into the retry loop of the first
    batch; later batches have what a moved-from string holds. *)
Fixpoint delete_loop (bucket : string) (batches : list (list string)) : ST C unit :=
  match batches with
  | [] => mret tt
  | batch :: batches =>
      outcome ← retried (DeleteObjects bucket batch);
      _ ← st_lift (throwOnError outcome);
      delete_loop (moved_from bucket) batches
  end.
Definition s3_deleteObjects (keys : list string) : ST C unit :=
  delete_loop m_bucket (delete_batches keys).

Definition s3_helper : KeyValueHelper C := {|
  hasRandomAccess := false;
  getObject := s3_getObject;
  putObject := s3_putObject;
  deleteObjects := s3_deleteObjects
|}.
End s3.

(** ** The promises of the interface *)

Section laws.
Context {C : Type} (m_bucket : string) (moved_from : string → string) `{SL : S3ClientLaws C m_bucket}.

Lemma throwOnError_success {A} (a : A) : throwOnError (Success a) = Value tt.
Proof. done. Qed.

Lemma throwOnError_failure {A} (e : S3Errors) :
  throwOnError (A:=A) (Failure e) = Exception (system_error (getReturnCode (A:=A) (Failure e))).
Proof. by destruct e. Qed.

Lemma enoent_code {A} (e : S3Errors) :
  is_enoent (system_error (getReturnCode (A:=A) (Failure e))) = true → g_errors e = Some ENOENT.
Proof. by destruct e. Qed.

(** A retried call keeps what every call keeps. *)
Lemma retried_ind {A} (call : C → C * Outcome A) (P : C → Prop) (R : C → Outcome A → Prop) (s : C) :
  (∀ s, P s → P (call s).1 ∧ R (call s).1 (call s).2) → P s →
  ∃ s' o, retried call s = (s', Value o) ∧ P s' ∧ R s' o.
Proof.
  intros Hcall. apply retry_ind. intros s0 HP. destruct (Hcall s0 HP) as [HP' HR'].
  unfold client. destruct (call s0) as [s' o]. eauto.
Qed.

Lemma s3_getObject_spec `{!S3UnknownIsRange C m_bucket} (s : C) (k : string) (off n : Z) :
  bucket_objects (s3_getObject m_bucket k off n s).1 = bucket_objects s ∧
  (0 <= off → 0 < n → off + n <= OFF_MAX →
   match (s3_getObject m_bucket k off n s).2 with
   | Value b => b = pread (default [] (bucket_objects s !! k)) off n
   | Exception e => is_enoent e = true → pread (default [] (bucket_objects s !! k)) off n = []
   end).
Proof.
  unfold s3_getObject. set (r := rangeToString off (i64 (u64 (off + n - 1)))).
  destruct (retried_ind (GetObject m_bucket k r) (λ s', bucket_objects s' = bucket_objects s)
    (λ _ o, 0 <= off → 0 < n → off + n <= OFF_MAX →
       match o with
       | Success b => b = pread (default [] (bucket_objects s !! k)) off n
       | Failure e => g_errors e = Some ENOENT → pread (default [] (bucket_objects s !! k)) off n = []
       end) s) as (s' & o & Hrun & Hobj & Ho); [|done|].
  { intros s0 Hs0. split; [by rewrite GetObject_objects|]. intros Hoff Hn Hmax.
    assert (r = rangeToString off (off + n - 1)) as ->.
    { unfold r, OFF_MAX in *. by rewrite u64_small, i64_small by lia. }
    destruct ((GetObject m_bucket k (rangeToString off (off + n - 1)) s0).2) as [b|e] eqn:Hr; rewrite <-Hs0.
    - by apply (GetObject_success s0).
    - intros He. destruct e; try done.
      1: by apply (GetObject_unknown s0).
      all: apply (GetObject_missing s0 k off n _ Hoff Hn Hmax) in Hr; [done|set_solver]. }
  rewrite (st_bind_value _ _ _ _ _ Hrun). destruct o as [b|e].
  - by rewrite throwOnError_success.
  - rewrite throwOnError_failure. simpl. split; [done|]. intros Hoff Hn Hmax He.
    apply (Ho Hoff Hn Hmax), (enoent_code (A:=bytes)). done.
Qed.

Lemma s3_putObject_spec (s : C) (k : string) (b : bytes) (off : Z) :
  (∀ k', k ≠ k' → bucket_objects (s3_putObject m_bucket k b off s).1 !! k' = bucket_objects s !! k') ∧
  (∀ n, (s3_putObject m_bucket k b off s).2 = Value n →
        bucket_objects (s3_putObject m_bucket k b off s).1 !! k = Some b).
Proof.
  unfold s3_putObject.
  destruct (retried_ind (PutObject m_bucket k b)
    (λ s', ∀ k', k ≠ k' → bucket_objects s' !! k' = bucket_objects s !! k')
    (λ s' o, ∀ u, o = Success u → bucket_objects s' !! k = Some b) s) as (s' & o & Hrun & Hobj & Ho); [|done|].
  { intros s0 Hs0. split.
    - intros k' Hne. rewrite PutObject_others by done. by apply Hs0.
    - intros u Hu. by apply (PutObject_success s0 k b u). }
  rewrite (st_bind_value _ _ _ _ _ Hrun). destruct o as [u|e].
  - rewrite throwOnError_success. simpl. split; [done|]. intros _ _. by eapply Ho.
  - rewrite throwOnError_failure. simpl. done.
Qed.

(** The loop removes nothing but keys of its batches, and nothing at all
    through a request of another bucket. *)
Lemma delete_loop_others (bucket : string) (batches : list (list string)) (s : C) (k : string) :
  (∀ batch, batch ∈ batches → k ∉ batch) →
  bucket_objects (delete_loop moved_from bucket batches s).1 !! k = bucket_objects s !! k.
Proof.
  revert bucket s. induction batches as [|batch batches IH]; intros bucket s Hk; simpl; [done|].
  destruct (retried_ind (DeleteObjects bucket batch)
    (λ s', bucket_objects s' !! k = bucket_objects s !! k) (λ _ _, True) s)
    as (s' & o & Hrun & Hobj & _); [|done|].
  { intros s0 <-. split; [|done]. apply DeleteObjects_others. right. apply Hk. left. }
  rewrite (st_bind_value _ _ _ _ _ Hrun). destruct o as [u|e].
  - rewrite throwOnError_success. rewrite (st_bind_value (st_lift (Value tt)) _ s' s' tt eq_refl).
    rewrite IH; [done|]. intros b Hb. apply Hk. by right.
  - rewrite throwOnError_failure. by rewrite (st_bind_exception (st_lift _) _ s' s' _ eq_refl).
Qed.

Lemma delete_one_batch `{!S3DeletesAll C} (s : C) (batch : list string) (k : string) (u : unit) :
  (delete_loop moved_from m_bucket [batch] s).2 = Value u → k ∈ batch →
  bucket_objects (delete_loop moved_from m_bucket [batch] s).1 !! k = None.
Proof.
  simpl. intros Hr Hk.
  destruct (retried_ind (DeleteObjects m_bucket batch) (λ _, True)
    (λ s' o, ∀ failed, o = Success failed → bucket_objects s' !! k = None) s)
    as (s' & o & Hrun & _ & Ho); [|done|].
  { intros s0 _. split; [done|]. intros failed Hf.
    apply (DeleteObjects_success s0 batch failed); [done..|].
    rewrite (DeleteObjects_all s0 m_bucket batch failed Hf). apply not_elem_of_nil. }
  revert Hr. rewrite (st_bind_value _ _ _ _ _ Hrun). destruct o as [f|e].
  - intros _. by apply (Ho f).
  - rewrite throwOnError_failure. by rewrite (st_bind_exception (st_lift _) _ s' s' _ eq_refl).
Qed.

#[export] Instance s3_laws `{!S3DeletesAll C} `{!S3UnknownIsRange C m_bucket} : @KeyValueLaws C (s3_helper m_bucket moved_from).
Proof.
  refine {| objects := bucket_objects |}; simpl.
  - intros s k off n. apply s3_getObject_spec.
  - intros s k off n b Hoff Hn Hmax Hb. destruct (s3_getObject_spec s k off n) as [_ Hs].
    specialize (Hs Hoff Hn Hmax). by rewrite Hb in Hs.
  - intros s k off n e Hoff Hn Hmax He Hno. destruct (s3_getObject_spec s k off n) as [_ Hs].
    specialize (Hs Hoff Hn Hmax). rewrite He in Hs. by apply Hs.
  - intros s k b off n _ _ _ Hn. destruct (s3_putObject_spec s k b off) as [Ho Hv].
    apply map_eq. intros k'. destruct (decide (k = k')) as [<-|Hne].
    + rewrite lookup_insert_eq. by apply (Hv n).
    + rewrite lookup_insert_ne by done. by apply Ho.
  - intros s k b off k' Hne. by apply s3_putObject_spec.
  - intros s ks u k Hlen Hu. unfold s3_deleteObjects in *.
    rewrite (delete_batches_small ks Hlen) in *. destruct (decide (ks = [])) as [->|Hks].
    { rewrite decide_False by apply not_elem_of_nil. done. }
    destruct (decide (k ∈ ks)) as [Hin|Hout].
    + by apply (delete_one_batch s ks k u).
    + apply delete_loop_others. intros b Hb. apply list_elem_of_singleton in Hb as ->. done.
  - intros s ks k Hk. unfold s3_deleteObjects. apply delete_loop_others.
    intros b Hb Hkb. apply Hk. eapply elem_of_prefix; [by eapply delete_batches_first|].
    exists (drop (Z.to_nat MAX_DELETE_OBJECTS) ks). by rewrite take_drop.
Defined.
End laws.

(** ** A service with passing failures *)

(** The failures of a call pass within its retries, when reads may say not found. *)
Definition succeeds {A} (o : Outcome A) : Prop := ∃ a, o = Success a.
Definition succeeds_or_missing {A} (o : Outcome A) : Prop :=
  succeeds o ∨ ∃ e, o = Failure e ∧ g_errors e = Some ENOENT.

Class S3Settles (C : Type) `{S3Client C} := {
  GetObject_settles : ∀ s b k r, settles (GetObject b k r) S3RetryCondition succeeds_or_missing (Z.to_nat IO_RETRY_COUNT) s;
  PutObject_settles : ∀ s b k d, settles (PutObject b k d) S3RetryCondition succeeds (Z.to_nat IO_RETRY_COUNT) s;
  DeleteObjects_settles : ∀ s b ks, settles (DeleteObjects b ks) S3RetryCondition succeeds (Z.to_nat IO_RETRY_COUNT) s
}.

Section settling.
Context {C : Type} (m_bucket : string) (moved_from : string → string) `{S3Client C} `{!S3Settles C}.

Lemma retried_settles {A} (call : C → C * Outcome A) (good : Outcome A → Prop) (s : C) :
  settles call S3RetryCondition good (Z.to_nat IO_RETRY_COUNT) s →
  ∃ s' o, retried call s = (s', Value o) ∧ good o.
Proof.
  apply (retry_settles id). intros s0. unfold client. simpl. destruct (call s0) as [s1 o]. by exists s1.
Qed.

#[export] Instance s3_reliable : @KeyValueReliable C (s3_helper m_bucket moved_from).
Proof.
  split; simpl.
  - intros s k off n e _ _ _ He. unfold s3_getObject in He.
    destruct (retried_settles _ _ s (GetObject_settles s m_bucket k
      (rangeToString off (i64 (u64 (off + n - 1)))))) as (s' & o & Hrun & Ho).
    rewrite (st_bind_value _ _ _ _ _ Hrun) in He. destruct Ho as [[b ->]|(e' & -> & Hno)]; [done|].
    rewrite throwOnError_failure in He. simpl in He. injection He as <-. simpl. by rewrite Hno.
  - intros s k b off _. unfold s3_putObject.
    destruct (retried_settles _ _ s (PutObject_settles s m_bucket k b)) as (s' & o & Hrun & [u ->]).
    rewrite (st_bind_value _ _ _ _ _ Hrun). by eexists.
  - intros s ks. unfold s3_deleteObjects. generalize m_bucket as b. revert s.
    induction (delete_batches ks) as [|batch batches IH]; intros s b; simpl; [by eexists|].
    destruct (retried_settles _ _ s (DeleteObjects_settles s b batch)) as (s' & o & Hrun & [u ->]).
    rewrite (st_bind_value _ _ _ _ _ Hrun). apply IH.
Qed.
End settling.

(** Whatever an unknown error means, the adapter is told that there is no such
    object, which it reads as zeros. *)
Lemma s3_unknown_error_is_enoent {C : Type} `{S3Client C} (m_bucket k : string) (off n : Z) (s : C) :
  (∀ r, (GetObject m_bucket k r s).2 = Failure UNKNOWN) →
  ∃ e, (s3_getObject m_bucket k off n s).2 = Exception e ∧ is_enoent e = true.
Proof.
  intros Hu. unfold s3_getObject. set (r := rangeToString _ _).
  destruct (retried_settles (GetObject m_bucket k r) (λ o, o = Failure UNKNOWN) s) as (s' & o & Hrun & ->).
  { unfold IO_RETRY_COUNT. left. by rewrite Hu. }
  rewrite (st_bind_value _ _ _ _ _ Hrun). by eexists.
Qed.

(** What a successful [deleteObjects] has deleted.  Up to
    [MAX_DELETE_OBJECTS] keys, all of them.  Of a longer list, nothing but the
    first [MAX_DELETE_OBJECTS] keys: the objects of all further keys are still
    there. *)
Lemma s3_delete_first_batch_only {C : Type} (m_bucket : string) (moved_from : string → string)
    `{SL : S3ClientLaws C m_bucket} `{!S3DeletesAll C} `{!S3UnknownIsRange C m_bucket} (keys : list string) (k : string) (s : C) :
  (s3_deleteObjects m_bucket moved_from keys s).2 = Value tt →
  (Z.of_nat (length keys) <= MAX_DELETE_OBJECTS → k ∈ keys →
   bucket_objects (s3_deleteObjects m_bucket moved_from keys s).1 !! k = None) ∧
  (k ∉ take (Z.to_nat MAX_DELETE_OBJECTS) keys →
   bucket_objects (s3_deleteObjects m_bucket moved_from keys s).1 !! k = bucket_objects s !! k).
Proof.
  intros Hr. split.
  - intros Hlen Hk.
    pose proof (@deleteObjects_value _ _ (s3_laws m_bucket moved_from) s keys tt k Hlen Hr) as Hd.
    by rewrite decide_True in Hd.
  - intros Hk. apply delete_loop_others. intros batch Hb Hkb. apply Hk.
    by eapply delete_batches_first.
Qed.

(** C13: files on S3.  When the failures of the service pass within the retries
    of a call, a write through the adapter succeeds, and a read after it
    returns the written bytes where it meets them and the former bytes
    elsewhere; for every block size, range and order of the block tasks.  The
    unknown errors of the client's reads are those of ranges behind the end. *)
Theorem s3_file_write_read {C : Type} (m_bucket : string) (moved_from : string → string)
    `{SL : S3ClientLaws C m_bucket} `{!S3UnknownIsRange C m_bucket} `{!S3DeletesAll C} `{!S3Settles C} (fileId : string) (bs : Z)
    (st : kv_state C) (worder rorder : list nat) (offset roffset rsize : Z) (buf : bytes) :
  valid_fileId fileId = true → 0 < bs <= OFF_MAX →
  0 <= offset → offset + chainLength buf <= OFF_MAX → 0 <= roffset → 0 <= rsize →
  roffset + rsize <= OFF_MAX →
  worder ≡ₚ seq 0 (length (block_ranges bs offset (chainLength buf))) →
  rorder ≡ₚ seq 0 (length (block_ranges bs roffset rsize)) →
  ∃ st1 st2,
    @write C (s3_helper m_bucket moved_from) fileId bs worder offset buf st = (st1, Value (chainLength buf)) ∧
    @read C (s3_helper m_bucket moved_from) fileId bs rorder roffset rsize st1
    = (st2, Value (map (λ p, if decide (offset <= p < offset + chainLength buf)
                             then byte_at buf (p - offset)
                             else kv_byte fileId bs (bucket_objects (store st)) p) (seqZ roffset rsize))).
Proof.
  intros. by apply (@write_read_aux C _ (s3_laws m_bucket moved_from) fileId bs (s3_reliable m_bucket moved_from)).
Qed.

(** ** A client in memory

    One bucket, and a service that asks to slow down on every second request. *)

Abbreviation bucket_state := (gmap string bytes * bool)%type.

Definition slow {A} (answer : gmap string bytes → gmap string bytes * Outcome A) (s : bucket_state)
  : bucket_state * Outcome A :=
  if s.2 then ((s.1, false), Failure SLOW_DOWN)
  else let '(m, o) := answer s.1 in ((m, true), o).

#[export] Instance memory_client : S3Client bucket_state := {|
  GetObject := λ bucket k r, slow (λ m,
    (m, match m !! k, parse_range r with
        | Some o, Some (x, y) => if x <? chainLength o then Success (pread o x (y - x + 1)) else Failure UNKNOWN
        | Some o, None => Success o
        | None, _ => Failure NO_SUCH_KEY
        end));
  PutObject := λ bucket k b, slow (λ m, (<[k := b]> m, Success tt));
  DeleteObjects := λ bucket ks, slow (λ m,
    (if String.eqb bucket "b" then foldr delete m ks else m, Success []))
|}.

#[export] Instance memory_client_laws : S3ClientLaws bucket_state "b".
Proof.
  refine {| bucket_objects := λ s : bucket_state, s.1 |}; unfold slow; simpl.
  - by intros [m []] k r.
  - intros [m []] k off n b Hoff Hn Hmax; simpl; [done|]. rewrite parse_range_to_string by lia.
    destruct (m !! k) as [o|]; [destruct (off <? chainLength o)|]; intros Hb; simplify_eq/=. f_equal. lia.
  - intros [m []] k off n e Hoff Hn Hmax He; simpl; [intros [= <-]; set_solver|].
    rewrite parse_range_to_string by lia.
    destruct (m !! k) as [o|]; [destruct (off <? chainLength o)|]; intros Hb; simplify_eq/=; [set_solver|].
    unfold pread. by rewrite drop_nil, take_nil.
  - intros [m []] k b u; simpl; [done|]. intros _. by rewrite lookup_insert_eq.
  - intros [m []] k b k' Hne; simpl; [done|]. by rewrite lookup_insert_ne.
  - intros [m []] ks failed k; simpl; [done|]. intros _ Hk _. rewrite lookup_foldr_delete.
    by rewrite decide_True.
  - intros [m []] bucket' ks k Hor; simpl; [done|]. destruct (String.eqb_spec bucket' "b"); [|done].
    destruct Hor as [|Hk]; [done|]. simpl. rewrite lookup_foldr_delete. by rewrite decide_False.
Defined.

#[export] Instance memory_client_unknown : S3UnknownIsRange bucket_state "b".
Proof.
  split. intros [m []] k off n Hoff Hn Hmax; unfold slow; simpl; [done|]. rewrite parse_range_to_string by lia.
  destruct (m !! k) as [o|]; [|done]. destruct (Z.ltb_spec off (chainLength o)) as [|Hend]; [done|]. intros _. simpl.
  unfold pread, chainLength in *. by rewrite drop_ge, take_nil by lia.
Qed.

#[export] Instance memory_client_all : S3DeletesAll bucket_state.
Proof. split. intros [m []] b ks failed Hf; by simplify_eq/=. Qed.

Lemma memory_read_good (m : gmap string bytes) (b k r : string) :
  let o := (GetObject b k r (m, false)).2 in S3RetryCondition o = true ∧ succeeds_or_missing o.
Proof.
  simpl. destruct (m !! k) as [o|]; [destruct (parse_range r) as [[x y]|]; [destruct (x <? chainLength o)|]|];
    (split; [done|]); (left; by eexists) || (right; by eexists).
Qed.

#[export] Instance memory_client_settles : S3Settles bucket_state.
Proof.
  split; (intros [m []] *; simpl; [right; split; [done|]; left|left]); simpl.
  1, 2: exact (memory_read_good m b k r).
  all: split; [done|]; by eexists.
Qed.

(** One key more than fits in a batch. *)
Definition many_keys : list string := map to_string (seqZ 0 1001).
Definition many_objects : bucket_state := ({[ "1000"%string := [] ]}, false).

Definition empty_bucket : kv_state bucket_state := mk_kv_state (∅, true) ∅.

Lemma s3_file_write_read_witness :
  ∃ st1 st2,
    @write _ (s3_helper "b" (λ _, ""%string)) "f" 4 [1; 0]%nat 3 [x61; x62] empty_bucket = (st1, Value 2) ∧
    @read _ (s3_helper "b" (λ _, ""%string)) "f" 4 [0; 1]%nat 2 3 st1
    = (st2, Value (map (λ p, if decide (3 <= p < 3 + 2) then byte_at [x61; x62] (p - 3)
                             else kv_byte "f" 4 (bucket_objects (store empty_bucket)) p) (seqZ 2 3))).
Proof.
  apply (s3_file_write_read "b" (λ _, ""%string) "f" 4 empty_bucket [1; 0]%nat [0; 1]%nat 3 2 3 [x61; x62]);
    try (vm_compute; intuition congruence); [by apply perm_swap|done].
Defined.
