(* ===== verification/BufferedBlocks.v ===== *)
(** * Buffered files on an object storage

    The buffer agent (BufferAgent.v) in front of the block files of the
    key-value adapter (KeyValueAdapter.v), as the helper creator composes them
    for S3, RADOS and Swift.  The agent is proved against the laws of a file
    handle; here the handle of a block file is shown to keep them, on any
    storage that keeps the laws of the key-value interface, whatever the order
    in which the executor runs the block tasks of a call. *)

From stdpp Require Import base numbers list gmap strings relations.
From Stdlib Require Import ZArith Lia Strings.Byte.
From S2P Require Import Prelude StdStrings Storage WriteBuffer ReadCache BufferAgent KeyValueHelper KeyValueAdapter KeyValueSpec S3Helper.
Local Open Scope Z_scope.

(** ** Files as lists of bytes *)

(** The first [n] bytes of a file given by its bytes. *)
Definition bytes_of (f : Z → byte) (n : Z) : bytes := map f (seqZ 0 n).

Lemma length_bytes_of (f : Z → byte) (n : Z) : length (bytes_of f n) = Z.to_nat n.
Proof. unfold bytes_of. by rewrite length_map, length_seqZ. Qed.

Lemma lookup_bytes_of (f : Z → byte) (n : Z) (i : nat) :
  Z.of_nat i < n → bytes_of f n !! i = Some (f (Z.of_nat i)).
Proof. intros Hi. unfold bytes_of. rewrite list_lookup_fmap, lookup_seqZ_lt by lia. done. Qed.

Lemma bytes_of_ext (f g : Z → byte) (n : Z) :
  (∀ p, 0 <= p < n → f p = g p) → bytes_of f n = bytes_of g n.
Proof.
  intros H. apply map_ext_in. intros p Hp. apply list_elem_of_In, elem_of_seqZ in Hp. apply H. lia.
Qed.

Lemma pread_bytes_of (f : Z → byte) (n off size : Z) :
  0 <= off → 0 <= size → off + size <= n → pread (bytes_of f n) off size = map f (seqZ off size).
Proof.
  intros Hoff Hsize Hn. unfold pread, bytes_of.
  replace n with (off + (size + (n - off - size))) by lia.
  rewrite seqZ_app, map_app, drop_app_length' by (rewrite ?length_map, ?length_seqZ; lia).
  rewrite seqZ_app, map_app, take_app_length' by (rewrite ?length_map, ?length_seqZ; lia).
  by rewrite Z.add_0_l.
Qed.

Lemma byte_at_bytes_of (f : Z → byte) (n p : Z) : 0 <= p < n → byte_at (bytes_of f n) p = f p.
Proof.
  intros Hp. unfold byte_at. rewrite (proj2 (Z.ltb_ge p 0)) by lia.
  rewrite lookup_bytes_of by lia. simpl. f_equal. lia.
Qed.

Lemma bytes_of_byte_at (b : bytes) : bytes_of (byte_at b) (chainLength b) = b.
Proof.
  unfold chainLength. apply list_eq. intros i. destruct (decide (i < length b)%nat).
  - rewrite lookup_bytes_of by lia. unfold byte_at. rewrite (proj2 (Z.ltb_ge _ 0)) by lia.
    rewrite Nat2Z.id. by destruct (lookup_lt_is_Some_2 b i) as [x ->].
  - by rewrite !lookup_ge_None_2 by (rewrite ?length_bytes_of; lia).
Qed.

Lemma pwrite_bytes_of (f : Z → byte) (n off : Z) (b : bytes) :
  0 <= off → off + chainLength b <= n →
  pwrite (bytes_of f n) off b =
    bytes_of (λ p, if decide (off <= p < off + chainLength b) then byte_at b (p - off) else f p) n.
Proof.
  intros Hoff Hn. destruct (decide (b = [])) as [->|Hne].
  { apply bytes_of_ext. intros p _. rewrite decide_False; [done|]. unfold chainLength. simpl. lia. }
  rewrite <-(bytes_of_byte_at (pwrite (bytes_of f n) off b)).
  assert (chainLength (pwrite (bytes_of f n) off b) = n) as ->.
  { unfold chainLength in *. rewrite length_pwrite by done. rewrite length_bytes_of.
    destruct b; [done|]. simpl in *. lia. }
  apply bytes_of_ext. intros p Hp. rewrite byte_at_pwrite by lia. by rewrite byte_at_bytes_of.
Qed.

(** ** The handle of a block file *)

(** The storage with the locks, and the number of calls made so far. *)
Record block_file (St : Type) := mk_block_file { bf_state : kv_state St; bf_calls : nat }.
Arguments mk_block_file {St} _ _.
Arguments bf_state {St} _.
Arguments bf_calls {St} _.

Section blocks.
Context {St : Type} `{KL : KeyValueLaws St} `{!KeyValueReliable St}.
Context (fileId : string) (bs : Z).

(** [orders n offset size]: the order in which the executor runs the block
    tasks of the [n]-th call when it is on this range. *)
Context (orders : nat → Z → Z → list nat).

Definition block_call {A} (op : (Z → Z → list nat) → ST (kv_state St) A) : ST (block_file St) A := λ h,
  let '(st, r) := op (orders (bf_calls h)) (bf_state h) in (mk_block_file st (S (bf_calls h)), r).

(** [KeyValueFileHandle] overrides [read] and [write] only. *)
Definition block_handle : FileHandle (block_file St) :=
  default_FileHandle
    (λ offset size, block_call (λ order, KeyValueAdapter.read fileId bs (order offset size) offset size))
    (λ offset buf, block_call (λ order,
       KeyValueAdapter.write fileId bs (order offset (chainLength buf)) offset buf)).

(** The bytes of the file up to the greatest offset; past what was written
    they are zeros. *)
Definition block_contents (h : block_file St) : bytes :=
  bytes_of (kv_byte fileId bs (objs_of (bf_state h))) OFF_MAX.

Hypothesis Hid : valid_fileId fileId = true.
Hypothesis Hbs : 0 < bs <= OFF_MAX.
Hypothesis Horders : ∀ n offset size, orders n offset size ≡ₚ seq 0 (length (block_ranges bs offset size)).

Lemma block_handle_laws : @FileHandleLaws (block_file St) block_handle.
Proof.
  refine {| contents := block_contents; handle_ok := λ _, True; max_read := OFF_MAX; max_write := OFF_MAX |};
    [..|done|done];
    intros h off.
  - intros n _ Hoff [Hn _] Hmax. simpl. unfold block_call.
    destruct (read_spec_aux fileId bs Hid Hbs (bf_state h) (orders (bf_calls h) off n) off n)
      as (st & Hrun & Hobjs); [done..|].
    rewrite Hrun. eexists. split; [|split; [|done]].
    + unfold block_contents. by rewrite pread_bytes_of.
    + unfold block_contents. simpl. by rewrite Hobjs.
  - intros b _ Hoff Hmax _. simpl. unfold block_call.
    destruct (write_spec_aux fileId bs Hid Hbs (bf_state h) (orders (bf_calls h) off (chainLength b)) off b)
      as (st & Hrun & Hbytes & _); [done..|].
    rewrite Hrun. eexists. split; [done|]. split; [|done]. unfold block_contents. simpl.
    rewrite pwrite_bytes_of by done. apply bytes_of_ext. intros p Hp. apply Hbytes. lia.
Defined.

#[local] Existing Instance block_handle.
#[local] Existing Instance block_handle_laws.

(** C5: a buffered file on an object storage reads what was written to it, and
    an fsync stores it.  Take any history of writes, flushes, fsyncs, timer
    events, batches, reads, fetches and answers after which no caller still waits
    for the confirmation of an earlier write, read or fsync.  Whatever batches
    run in the meantime, once a read is ready it has succeeded with a beginning
    of the requested range of the file with all writes applied, not empty unless
    the range is; once an fsync is ready it has succeeded, and the blocks in the
    storage are the file with all writes applied.  Both are ready when the
    pushed batches have run. *)
Theorem buffered_blocks_read_your_writes (bl : BufferLimits) (h : block_file St) (spec : bytes) (n : Z)
    (bh : BufferedFileHandle (block_file St)) (durations : list Z)
    (now latency offset size continuousSize : Z) (isDataSync : bool) :
  0 <= readBufferMaxSize bl <= OFF_MAX → 0 <= writeBufferMaxSize bl →
  rtc (bh_step bl) (block_contents h, 0, new_BufferedFileHandle bl h) (spec, n, bh) → settled bh →
  0 <= offset → 0 <= size → size <= continuousSize → offset + continuousSize <= OFF_MAX →
  (∀ bh' r, BufferAgent.read bl durations now latency offset size continuousSize bh = Some (bh', r) →
     ∃ b, r = Value b ∧ good_answer spec offset size b) ∧
  (∀ bh' r, BufferAgent.fsync durations isDataSync bh = Some (bh', r) →
     r = Value tt ∧
     ∀ p, 0 <= p < OFF_MAX →
       kv_byte fileId bs (objs_of (bf_state (m_wrappedHandle bh'))) p = byte_at spec p) ∧
  ((length (m_writeFuture (pushBuffer (m_writeBuffer bh))) ≤ length durations)%nat →
     is_Some (BufferAgent.read bl durations now latency offset size continuousSize bh) ∧
     is_Some (BufferAgent.fsync durations isDataSync bh)).
Proof.
  intros [Hr Hfit] Hw Hrtc Hset Hoff Hsize Hcont Hend.
  assert (bh_ok bl spec n bh) as Hok by (by apply (bh_reachable_ok (FL := block_handle_laws) bl Hr Hfit Hw h)).
  destruct (read_ok (FL := block_handle_laws) bl Hr Hfit Hw spec n durations now latency offset size
              continuousSize bh Hok Hset) as [Hread Hready]; [done|simpl; lia|done..|].
  split_and!; [done| |intros Hlen; split; [by apply Hready|by eapply fsync_ready]].
  intros bh' r Hf.
  destruct (fsync_keeps bl Hw spec n durations isDataSync bh bh' r Hok Hf) as (_ & Hc & h' & _ & ->).
  split; [done|]. intros p Hp. rewrite <-(Hc Hset). simpl. unfold block_contents.
  by rewrite byte_at_bytes_of.
Qed.
End blocks.

(** ** On S3 *)

(** A file in blocks of four bytes in an empty bucket of a service that asks
    to slow down on every second request. *)
Definition s3_file : block_file bucket_state := mk_block_file empty_bucket 0.
Definition in_order (n : nat) (offset size : Z) : list nat := seq 0 (length (block_ranges 4 offset size)).
Definition s3_opened : BufferedFileHandle (block_file bucket_state) :=
  new_BufferedFileHandle sample_limits s3_file.
Definition s3_written : BufferedFileHandle (block_file bucket_state) :=
  match BufferAgent.write sample_limits 3 [x61; x62] s3_opened with
  | Some (bh, _) => bh
  | None => s3_opened
  end.

#[local] Instance sample_s3 : KeyValueHelper bucket_state := s3_helper "b" (λ _, ""%string).
Abbreviation s3_contents := (@block_contents _ sample_s3 _ "f" 4).
Abbreviation s3_handle := (@block_handle _ sample_s3 "f" 4 in_order).

Lemma buffered_blocks_read_your_writes_witness :
  (∀ bh' r, @BufferAgent.read _ s3_handle sample_limits [5] 7 3 2 3 3 s3_written = Some (bh', r) →
     ∃ b, r = Value b ∧ good_answer (pwrite (s3_contents s3_file) 3 [x61; x62]) 2 3 b) ∧
  (∀ bh' r, @BufferAgent.fsync _ s3_handle [5] true s3_written = Some (bh', r) →
     r = Value tt ∧
     ∀ p, 0 <= p < OFF_MAX →
       kv_byte "f" 4 (objs_of (bf_state (m_wrappedHandle bh'))) p
       = byte_at (pwrite (s3_contents s3_file) 3 [x61; x62]) p) ∧
  ((length (m_writeFuture (pushBuffer (m_writeBuffer s3_written))) ≤ length [5%Z])%nat →
     is_Some (@BufferAgent.read _ s3_handle sample_limits [5] 7 3 2 3 3 s3_written) ∧
     is_Some (@BufferAgent.fsync _ s3_handle [5] true s3_written)).
Proof.
  assert (valid_fileId "f" = true) as Hid by reflexivity.
  assert (0 < 4 <= OFF_MAX) as Hbs by (vm_compute; intuition congruence).
  apply (buffered_blocks_read_your_writes "f" 4 in_order Hid Hbs (λ n o s, Permutation_refl _)
           sample_limits s3_file _ 2 s3_written [5] 7 3 2 3 3 true);
    [vm_compute; intuition congruence|vm_compute; congruence| | |vm_compute; congruence..].
  - apply rtc_once. eapply (bh_write sample_limits _ 0 s3_opened s3_written 3 [x61; x62]).
    + repeat split; vm_compute; congruence.
    + vm_compute. congruence.
    + vm_compute. reflexivity.
  - intros p Hp Hn. vm_compute in Hp. vm_compute in Hn. destruct p; [|lia]. exfalso. apply Hn. left.
Defined.
