(* ===== verification/CephRados.v ===== *)
(** * The RADOS storage (src/src/cephRadosHelper.cc, src/src/cephRadosHelper.h)

    [CephRadosHelper] implements the key-value interface, with random access,
    by calls of librados.  The library is the class [Rados]; [RadosLaws] states
    the documented behaviour that the helper relies on, and the instance
    [ceph_laws] shows that the helper keeps the promises of the interface.
    The context of the helper is per thread: each thread connects its own, and
    the instance [threads_laws] has operations in any threads on one pool.  With
    failures that pass within the retries, files are written and read back. *)

From stdpp Require Import base numbers list gmap strings.
From Stdlib Require Import ZArith Lia Strings.Byte.
From S2P Require Import Prelude Storage KeyValueHelper KeyValueAdapter KeyValueSpec.
Local Open Scope Z_scope.

(** The errors after which a call is retried: EINTR, EIO, EAGAIN, EACCES,
    EBUSY, EMFILE, ETXTBSY, ESPIPE, EMLINK, EPIPE, EDEADLK, EWOULDBLOCK, ENONET,
    ENOLINK, EADDRINUSE, EADDRNOTAVAIL, ENETDOWN, ENETUNREACH, ECONNABORTED,
    ECONNRESET, ENOTCONN, EHOSTDOWN, EHOSTUNREACH, EREMOTEIO, ENOMEDIUM,
    ECANCELED. *)
Definition CEPHRADOS_RETRY_ERRORS : list Z :=
  [4; 5; 11; 13; 16; 24; 26; 29; 31; 32; 35; 11; 64; 67; 98; 99; 100; 101; 103; 104; 107; 112; 113;
   121; 123; 125].
Definition CephRadosRetryCondition (result : Z) : bool :=
  negb (bool_decide (- result ∈ CEPHRADOS_RETRY_ERRORS)).

Definition throwOnCode (code : Z) : Try unit :=
  if code =? 0 then Value tt else Exception (system_error (mk_error_code code system_category)).

(** ** librados *)

(** Calls return 0 or a number of bytes, or a negative errno; a read also the
    buffer that it filled. *)
Class Rados (R : Type) := {
  rados_init2 : string → string → R → R * Z;
  rados_conf_set : string → string → R → R * Z;
  rados_connect : R → R * Z;
  rados_ioctx_create : string → R → R * Z;
  rados_read : string → Z → Z → R → R * (Z * bytes);
  rados_write : string → bytes → Z → R → R * Z;
  rados_remove : string → R → R * Z
}.

(** Operations on objects are atomic: a write that reports an error has
    happened or not, and a call changes its own object only. *)
Class RadosLaws (R : Type) `{Rados R} := {
  pool_objects : R → gmap string bytes;
  init2_objects : ∀ s u c, pool_objects (rados_init2 u c s).1 = pool_objects s;
  conf_set_objects : ∀ s k v, pool_objects (rados_conf_set k v s).1 = pool_objects s;
  connect_objects : ∀ s, pool_objects (rados_connect s).1 = pool_objects s;
  ioctx_create_objects : ∀ s p, pool_objects (rados_ioctx_create p s).1 = pool_objects s;
  read_objects : ∀ s k n off, pool_objects (rados_read k n off s).1 = pool_objects s;
  read_data : ∀ s k n off ret data,
    0 <= off → 0 < n → (rados_read k n off s).2 = (ret, data) → 0 <= ret →
    take (Z.to_nat ret) data = pread (default [] (pool_objects s !! k)) off n;
  read_missing : ∀ s k n off data,
    (rados_read k n off s).2 = (- ENOENT, data) → pool_objects s !! k = None;
  write_done : ∀ s k b off,
    (rados_write k b off s).2 = 0 →
    pool_objects (rados_write k b off s).1 !! k = Some (pwrite (default [] (pool_objects s !! k)) off b);
  write_atomic : ∀ s k b off,
    pool_objects (rados_write k b off s).1 !! k = pool_objects s !! k ∨
    pool_objects (rados_write k b off s).1 !! k = Some (pwrite (default [] (pool_objects s !! k)) off b);
  write_others : ∀ s k b off k',
    k ≠ k' → pool_objects (rados_write k b off s).1 !! k' = pool_objects s !! k';
  remove_done : ∀ s k,
    0 <= (rados_remove k s).2 ∨ (rados_remove k s).2 = - ENOENT →
    pool_objects (rados_remove k s).1 !! k = None;
  remove_others : ∀ s k k',
    k ≠ k' → pool_objects (rados_remove k s).1 !! k' = pool_objects s !! k'
}.

(** A cluster with its configuration and pool in place: no step of [connect]
    says ENOENT.  ([connect] would throw it as the error that the adapter
    takes for a missing block.) *)
Class RadosPoolExists (R : Type) `{Rados R} := {
  init2_exists : ∀ s u c, (rados_init2 u c s).2 ≠ - ENOENT;
  conf_set_exists : ∀ s k v, (rados_conf_set k v s).2 ≠ - ENOENT;
  connect_exists : ∀ s, (rados_connect s).2 ≠ - ENOENT;
  ioctx_create_exists : ∀ s p, (rados_ioctx_create p s).2 ≠ - ENOENT
}.

(** ** CephRadosHelper *)

Record ceph_config := mk_ceph_config {
  m_clusterName : string; m_monHost : string; m_poolName : string; m_userName : string; m_key : string
}.

Record CephRadosCtx (R : Type) := mk_CephRadosCtx { ioCTX : R; connected : bool }.
Arguments mk_CephRadosCtx {R} _ _.
Arguments ioCTX {R} _.
Arguments connected {R} _.

Section ceph.
Context {R : Type} `{Rados R} (c : ceph_config).

(** A call of the library, and one whose failure ends [connect]. *)
Definition rados {A} (call : R → R * A) : ST (CephRadosCtx R) A := λ s,
  let '(r, a) := call (ioCTX s) in (mk_CephRadosCtx r (connected s), Value a).
Definition rados_step (call : R → R * Z) : ST (CephRadosCtx R) unit :=
  ret ← rados call;
  if ret <? 0 then st_throw (system_error (makePosixError ret)) else mret tt.
Definition rados_retry {A} (call : R → R * A) (code : A → Z) : ST (CephRadosCtx R) A :=
  retry (rados call) (λ a, CephRadosRetryCondition (code a)) IO_RETRY_COUNT.

Definition set_connected : ST (CephRadosCtx R) unit := λ s, (mk_CephRadosCtx (ioCTX s) true, Value tt).

Definition connect : ST (CephRadosCtx R) unit := λ s,
  if connected s then (s, Value tt)
  else (_ ← rados_step (rados_init2 (m_userName c) (m_clusterName c));
        _ ← rados_step (rados_conf_set "mon host" (m_monHost c));
        _ ← rados_step (rados_conf_set "key" (m_key c));
        _ ← rados_step rados_connect;
        _ ← rados_step (rados_ioctx_create (m_poolName c));
        set_connected) s.

(** A missing object is an empty read. *)
Definition read_connected (key : string) (offset size : Z) : ST (CephRadosCtx R) bytes :=
  '(ret, data) ← rados_retry (rados_read key size offset) fst;
  let ret := if ret =? - ENOENT then 0 else ret in
  _ ← st_lift (if ret <? 0 then throwOnCode ret else Value tt);
  mret (take (Z.to_nat ret) data).
Definition ceph_getObject (key : string) (offset size : Z) : ST (CephRadosCtx R) bytes :=
  connect ≫= λ _, read_connected key offset size.

(** [buf.front()] of an empty queue is null and dereferenced. *)
Definition write_connected (key : string) (buf : bytes) (offset : Z) : ST (CephRadosCtx R) Z :=
  let size := chainLength buf in
  if bool_decide (buf = []) then st_throw undefined_behaviour
  else
    ret ← rados_retry (rados_write key buf offset) id;
    _ ← st_lift (throwOnCode ret);
    mret size.
Definition ceph_putObject (key : string) (buf : bytes) (offset : Z) : ST (CephRadosCtx R) Z :=
  connect ≫= λ _, write_connected key buf offset.

Fixpoint remove_keys (keys : list string) : ST (CephRadosCtx R) unit :=
  match keys with
  | [] => mret tt
  | key :: keys =>
      ret ← rados_retry (rados_remove key) id;
      let ret := if ret =? - ENOENT then 0 else ret in
      _ ← st_lift (if ret <? 0 then throwOnCode ret else Value tt);
      remove_keys keys
  end.
Fixpoint remove_batches (batches : list (list string)) : ST (CephRadosCtx R) unit :=
  match batches with
  | [] => mret tt
  | batch :: batches => _ ← remove_keys batch; remove_batches batches
  end.
Definition ceph_deleteObjects (keys : list string) : ST (CephRadosCtx R) unit :=
  connect ≫= λ _, remove_batches (delete_batches keys).

Definition ceph_helper : KeyValueHelper (CephRadosCtx R) := {|
  hasRandomAccess := true;
  getObject := ceph_getObject;
  putObject := ceph_putObject;
  deleteObjects := ceph_deleteObjects
|}.
End ceph.

(** ** The promises of the interface *)

Section laws.
Context {R : Type} (c : ceph_config) `{RL : RadosLaws R}.
Implicit Types (s : CephRadosCtx R).

Definition ctx_objects s : gmap string bytes := pool_objects (ioCTX s).

Lemma rados_step_objects (call : R → R * Z) s :
  (∀ r, pool_objects (call r).1 = pool_objects r) → ctx_objects (rados_step call s).1 = ctx_objects s.
Proof.
  intros Hcall. unfold rados_step, rados, mbind, ST_bind, ctx_objects.
  specialize (Hcall (ioCTX s)). destruct (call (ioCTX s)) as [r ret]. simpl in *. by destruct (ret <? 0).
Qed.

(** Steps that keep the objects, one after another. *)
Lemma bind_objects {A B} (m : ST (CephRadosCtx R) A) (k : A → ST (CephRadosCtx R) B) s :
  ctx_objects (m s).1 = ctx_objects s →
  (∀ a s', ctx_objects s' = ctx_objects s → ctx_objects (k a s').1 = ctx_objects s) →
  ctx_objects ((m ≫= k) s).1 = ctx_objects s.
Proof.
  intros Hm Hk. unfold mbind, ST_bind. destruct (m s) as [s' [a|e]]; simpl in *; [by apply Hk|done].
Qed.

Lemma connect_ctx_objects s : ctx_objects (connect c s).1 = ctx_objects s.
Proof.
  unfold connect. destruct (connected s); [done|].
  repeat (apply bind_objects;
    [apply rados_step_objects; intros r;
       first [apply init2_objects|apply conf_set_objects|apply connect_objects|apply ioctx_create_objects]
    |intros _ ? <-]). done.
Qed.

(** Every operation connects first: it fails there and touches nothing, or it
    goes on with the same objects. *)
Lemma connect_first {A} (k : ST (CephRadosCtx R) A) s :
  (∃ s' e, (connect c ≫= λ _, k) s = (s', Exception e) ∧ connect c s = (s', Exception e) ∧
           ctx_objects s' = ctx_objects s) ∨
  (∃ s', (connect c ≫= λ _, k) s = k s' ∧ ctx_objects s' = ctx_objects s).
Proof.
  pose proof (connect_ctx_objects s) as Ho. unfold mbind, ST_bind.
  destruct (connect c s) as [s' [u|e]]; simpl in *; [right; eauto|left; eauto 6].
Qed.

Lemma rados_retry_ind {A} (call : R → R * A) (code : A → Z) (P : R → Prop) (Q : R → A → Prop) s :
  (∀ r, P r → P (call r).1 ∧ Q (call r).1 (call r).2) → P (ioCTX s) →
  ∃ s' a, rados_retry call code s = (s', Value a) ∧ P (ioCTX s') ∧ Q (ioCTX s') a.
Proof.
  intros Hcall. apply (retry_ind _ _ _ (λ s, P (ioCTX s)) (λ s a, Q (ioCTX s) a)).
  intros s0 HP. destruct (Hcall (ioCTX s0) HP) as [HP' HQ']. unfold rados.
  destruct (call (ioCTX s0)) as [r a]. eauto.
Qed.

Lemma rados_step_exc (call : R → R * Z) (e : exc) s :
  (∀ r, (call r).2 ≠ - ENOENT) → (rados_step call s).2 = Exception e → is_enoent e = false.
Proof.
  intros Hcall. unfold rados_step, rados, mbind, ST_bind. specialize (Hcall (ioCTX s)).
  destruct (call (ioCTX s)) as [r ret]. simpl in *. destruct (Z.ltb_spec ret 0); [|done].
  intros [= <-]. simpl. unfold ENOENT in *. apply Z.eqb_neq. lia.
Qed.

Lemma bind_exc {A B} (m : ST (CephRadosCtx R) A) (k : A → ST (CephRadosCtx R) B) (e : exc) (P : Prop) s :
  ((m s).2 = Exception e → P) → (∀ a s', (k a s').2 = Exception e → P) →
  ((m ≫= k) s).2 = Exception e → P.
Proof.
  intros Hm Hk. unfold mbind, ST_bind. destruct (m s) as [s' [a|e']]; simpl in *; [eauto|].
  intros [= ->]. by apply Hm.
Qed.

Lemma connect_exc `{!RadosPoolExists R} (e : exc) s :
  (connect c s).2 = Exception e → is_enoent e = false.
Proof.
  unfold connect. destruct (connected s); [done|].
  repeat (apply bind_exc;
    [apply rados_step_exc; intros r;
       first [apply init2_exists|apply conf_set_exists|apply connect_exists|apply ioctx_create_exists]
    |intros _ ?]). done.
Qed.

Lemma ceph_getObject_spec `{!RadosPoolExists R} s (k : string) (off n : Z) :
  ctx_objects (ceph_getObject c k off n s).1 = ctx_objects s ∧
  (0 <= off → 0 < n →
   match (ceph_getObject c k off n s).2 with
   | Value b => b = pread (default [] (ctx_objects s !! k)) off n
   | Exception e => is_enoent e = false
   end).
Proof.
  unfold ceph_getObject.
  destruct (connect_first (read_connected k off n) s)
    as [(s' & e & Hrun & Hc & Ho)|(s1 & Hrun & Ho)]; rewrite Hrun; clear Hrun.
  { split; [done|]. intros _ _. apply (connect_exc e s). by rewrite Hc. }
  unfold read_connected.
  destruct (rados_retry_ind (rados_read k n off) fst (λ r, pool_objects r = ctx_objects s)
    (λ _ a, 0 <= off → 0 < n →
       if a.1 =? - ENOENT then ctx_objects s !! k = None
       else 0 <= a.1 → take (Z.to_nat a.1) a.2 = pread (default [] (ctx_objects s !! k)) off n) s1)
    as (s2 & [ret data] & Hrun & Ho2 & Hq); [|done|].
  { intros r <-. split; [apply read_objects|]. intros Hoff Hn.
    destruct (rados_read k n off r) as [r' [ret data]] eqn:Hr. simpl.
    destruct (Z.eqb_spec ret (- ENOENT)) as [->|_].
    - apply (read_missing r k n off data). by rewrite Hr.
    - intros Hret. apply (read_data r k n off ret data); [done..|by rewrite Hr|done]. }
  rewrite (st_bind_value _ _ _ _ _ Hrun). clear Hrun. simpl in Hq.
  destruct (ret =? - ENOENT); simpl; [|destruct (Z.ltb_spec ret 0) as [Hlt|Hge]].
  - split; [done|]. intros Hoff Hn. rewrite (Hq Hoff Hn). simpl. unfold pread. by rewrite drop_nil, take_nil.
  - unfold st_lift, mbind, ST_bind. unfold throwOnCode at 1 2.
    rewrite (proj2 (Z.eqb_neq ret 0)) by lia. split; [done|]. intros _ _. simpl. unfold ENOENT.
    apply Z.eqb_neq. lia.
  - split; [done|]. intros Hoff Hn. by apply Hq.
Qed.

Lemma ceph_putObject_others s (k k' : string) (b : bytes) (off : Z) :
  k ≠ k' → ctx_objects (ceph_putObject c k b off s).1 !! k' = ctx_objects s !! k'.
Proof.
  intros Hne. unfold ceph_putObject.
  destruct (connect_first (write_connected k b off) s) as [(s' & e & -> & _ & <-)|(s1 & -> & <-)]; [done|].
  unfold write_connected. case_bool_decide; [done|].
  destruct (rados_retry_ind (rados_write k b off) id
    (λ r, pool_objects r !! k' = ctx_objects s1 !! k') (λ _ _, True) s1) as (s2 & ret & Hrun & Ho & _); [|done|].
  { intros r <-. split; [|done]. by apply write_others. }
  rewrite (st_bind_value _ _ _ _ _ Hrun). unfold throwOnCode. by destruct (ret =? 0).
Qed.

(** A write that failed half way through the retries is done again: writing
    twice is writing once. *)
Lemma ceph_putObject_value s (k : string) (b : bytes) (off n : Z) :
  0 <= off → (ceph_putObject c k b off s).2 = Value n →
  ctx_objects (ceph_putObject c k b off s).1 !! k = Some (pwrite (default [] (ctx_objects s !! k)) off b).
Proof.
  intros Hoff. unfold ceph_putObject.
  destruct (connect_first (write_connected k b off) s) as [(s' & e & -> & _ & _)|(s1 & -> & <-)]; [done|].
  unfold write_connected. case_bool_decide; [done|]. set (w := pwrite (default [] (ctx_objects s1 !! k)) off b).
  destruct (rados_retry_ind (rados_write k b off) id
    (λ r, pool_objects r !! k = ctx_objects s1 !! k ∨ pool_objects r !! k = Some w)
    (λ r ret, ret = 0 → pool_objects r !! k = Some w) s1) as (s2 & ret & Hrun & _ & Hq); [|by left|].
  { intros r Hk. assert (pwrite (default [] (pool_objects r !! k)) off b = w) as Hsame.
    { destruct Hk as [-> | ->]; [done|]. unfold w. simpl. by rewrite pwrite_idemp. }
    split.
    - rewrite <-Hsame. destruct (write_atomic r k b off) as [-> | ->]; [|auto].
      destruct Hk as [->|Hk]; [auto|]. right. rewrite Hk. simpl. unfold w. by rewrite pwrite_idemp.
    - intros Hret. rewrite <-Hsame. by apply write_done. }
  rewrite (st_bind_value _ _ _ _ _ Hrun). unfold throwOnCode.
  destruct (Z.eqb_spec ret 0) as [Hz|]; simpl; [|done]. intros _. by apply Hq.
Qed.

(** The loop over the keys of a batch: it touches no other key, and when it
    ends well all keys are gone. *)
Lemma remove_keys_spec (ks : list string) s (k : string) :
  (k ∉ ks → ctx_objects (remove_keys ks s).1 !! k = ctx_objects s !! k) ∧
  (∀ u, (remove_keys ks s).2 = Value u → k ∈ ks → ctx_objects (remove_keys ks s).1 !! k = None).
Proof.
  revert s. induction ks as [|k0 ks IH]; intros s; simpl.
  { split; [done|]. intros _ _ Hin. by apply not_elem_of_nil in Hin. }
  destruct (rados_retry_ind (rados_remove k0) id
    (λ r, k0 ≠ k → pool_objects r !! k = ctx_objects s !! k)
    (λ r ret, 0 <= ret ∨ ret = - ENOENT → pool_objects r !! k0 = None) s)
    as (s1 & ret & Hrun & Hp & Hq); [|done|].
  { intros r Hr. split; [|apply remove_done]. intros Hne. rewrite remove_others by done. by apply Hr. }
  rewrite (st_bind_value _ _ _ _ _ Hrun). clear Hrun. destruct (IH s1) as [IH1 IH2].
  set (ret' := if ret =? - ENOENT then 0 else ret).
  assert (0 <= ret' → pool_objects (ioCTX s1) !! k0 = None) as Hgone.
  { intros Hr. apply Hq. unfold ret' in Hr. destruct (Z.eqb_spec ret (- ENOENT)); auto. }
  destruct (Z.ltb_spec ret' 0) as [Hlt|Hge].
  - unfold throwOnCode. rewrite (proj2 (Z.eqb_neq ret' 0)) by lia. simpl. split; [|done].
    intros Hk. apply Hp. intros ->. apply Hk. left.
  - rewrite (st_bind_value (st_lift (Value tt)) _ s1 s1 tt eq_refl). split.
    + intros Hk. apply not_elem_of_cons in Hk as [Hne Hk]. rewrite IH1 by done. apply Hp. congruence.
    + intros u Hu Hk. destruct (decide (k ∈ ks)) as [Hin|Hout]; [by apply (IH2 u)|].
      rewrite IH1 by done. apply elem_of_cons in Hk as [->|Hk]; [by apply Hgone|done].
Qed.

Lemma remove_batches_others (batches : list (list string)) s (k : string) :
  (∀ batch, batch ∈ batches → k ∉ batch) →
  ctx_objects (remove_batches batches s).1 !! k = ctx_objects s !! k.
Proof.
  revert s. induction batches as [|batch batches IH]; intros s Hk; simpl; [done|].
  destruct (remove_keys_spec batch s k) as [Hoth _]. specialize (Hoth (Hk batch ltac:(left))).
  unfold mbind, ST_bind. destruct (remove_keys batch s) as [s' [u|e]]; simpl in *; [|done].
  rewrite IH; [done|]. intros b Hb. apply Hk. by right.
Qed.

Lemma ceph_deleteObjects_others s (ks : list string) (k : string) :
  k ∉ ks → ctx_objects (ceph_deleteObjects c ks s).1 !! k = ctx_objects s !! k.
Proof.
  intros Hk. unfold ceph_deleteObjects.
  destruct (connect_first (remove_batches (delete_batches ks)) s) as [(s' & e & -> & _ & <-)|(s1 & -> & <-)];
    [done|]. apply remove_batches_others. intros b Hb Hkb. apply Hk.
  eapply elem_of_prefix; [by eapply delete_batches_first|].
  exists (drop (Z.to_nat MAX_DELETE_OBJECTS) ks). by rewrite take_drop.
Qed.

Lemma ceph_deleteObjects_gone s (ks : list string) (k : string) (u : unit) :
  Z.of_nat (length ks) <= MAX_DELETE_OBJECTS → (ceph_deleteObjects c ks s).2 = Value u → k ∈ ks →
  ctx_objects (ceph_deleteObjects c ks s).1 !! k = None.
Proof.
  intros Hlen. unfold ceph_deleteObjects. rewrite (delete_batches_small ks Hlen).
  destruct (decide (ks = [])) as [->|_]; [intros _ Hk; by apply not_elem_of_nil in Hk|].
  destruct (connect_first (remove_batches [ks]) s) as [(s' & e & -> & _ & _)|(s1 & -> & _)]; [done|].
  intros Hr Hk. destruct (remove_keys_spec ks s1 k) as [_ Hgone]. simpl in *.
  unfold mbind, ST_bind in *. destruct (remove_keys ks s1) as [s2 [u'|e]]; simpl in *; [|done].
  by apply (Hgone u').
Qed.

#[export] Instance ceph_laws `{!RadosPoolExists R} : @KeyValueLaws (CephRadosCtx R) (ceph_helper c).
Proof.
  refine {| objects := ctx_objects |}; simpl.
  - intros s k off n. apply ceph_getObject_spec.
  - intros s k off n b Hoff Hn _ Hb. destruct (ceph_getObject_spec s k off n) as [_ Hs].
    specialize (Hs Hoff Hn). by rewrite Hb in Hs.
  - intros s k off n e Hoff Hn _ He Hno. destruct (ceph_getObject_spec s k off n) as [_ Hs].
    specialize (Hs Hoff Hn). rewrite He in Hs. by rewrite Hs in Hno.
  - intros s k b off n _ Hoff _ Hn. apply map_eq. intros k'. destruct (decide (k = k')) as [<-|Hne].
    + rewrite lookup_insert_eq. by apply (ceph_putObject_value s k b off n).
    + rewrite lookup_insert_ne by done. by apply ceph_putObject_others.
  - intros s k b off k' Hne. by apply ceph_putObject_others.
  - intros s ks u k Hlen Hu. destruct (decide (k ∈ ks)).
    + by apply (ceph_deleteObjects_gone s ks k u).
    + by apply ceph_deleteObjects_others.
  - intros s ks k Hk. by apply ceph_deleteObjects_others.
Defined.
End laws.

(** ** Threads *)

(** The pool, the threads whose context is connected, and the threads that the
    next operations run in. *)
Record ceph_threads (R : Type) := mk_ceph_threads {
  ct_pool : R; ct_connected : gset nat; ct_schedule : list nat
}.
Arguments mk_ceph_threads {R} _ _ _.
Arguments ct_pool {R} _.
Arguments ct_connected {R} _.
Arguments ct_schedule {R} _.

Section threads.
Context {R : Type} `{Rados R} (c : ceph_config).

Definition this_thread (s : ceph_threads R) : nat := default 0%nat (head (ct_schedule s)).

(** [m_ctx] of the thread that runs. *)
Definition m_ctx (s : ceph_threads R) : CephRadosCtx R :=
  mk_CephRadosCtx (ct_pool s) (bool_decide (this_thread s ∈ ct_connected s)).

Definition in_thread {A} (m : ST (CephRadosCtx R) A) : ST (ceph_threads R) A := λ s,
  let '(ctx, r) := m (m_ctx s) in
  (mk_ceph_threads (ioCTX ctx) (if connected ctx then {[this_thread s]} ∪ ct_connected s else ct_connected s)
     (tail (ct_schedule s)), r).

Definition threads_helper : KeyValueHelper (ceph_threads R) := {|
  hasRandomAccess := true;
  getObject := λ key offset size, in_thread (ceph_getObject c key offset size);
  putObject := λ key buf offset, in_thread (ceph_putObject c key buf offset);
  deleteObjects := λ keys, in_thread (ceph_deleteObjects c keys)
|}.

Lemma in_thread_run {A} (m : ST (CephRadosCtx R) A) (s : ceph_threads R) :
  ct_pool (in_thread m s).1 = ioCTX (m (m_ctx s)).1 ∧ (in_thread m s).2 = (m (m_ctx s)).2.
Proof. unfold in_thread. by destruct (m (m_ctx s)). Qed.

#[export] Instance threads_laws `{!RadosLaws R} `{!RadosPoolExists R} : @KeyValueLaws (ceph_threads R) threads_helper.
Proof.
  refine {| objects := λ s, pool_objects (ct_pool s) |}; simpl.
  - intros s k off n. rewrite (proj1 (in_thread_run _ s)). apply (ceph_getObject_spec c (m_ctx s) k off n).
  - intros s k off n b. rewrite (proj2 (in_thread_run _ s)).
    apply (@getObject_value _ _ (ceph_laws c) (m_ctx s) k off n b).
  - intros s k off n e. rewrite (proj2 (in_thread_run _ s)).
    apply (@getObject_enoent _ _ (ceph_laws c) (m_ctx s) k off n e).
  - intros s k b off n. rewrite (proj1 (in_thread_run _ s)), (proj2 (in_thread_run _ s)).
    apply (@putObject_value _ _ (ceph_laws c) (m_ctx s) k b off n).
  - intros s k b off k'. rewrite (proj1 (in_thread_run _ s)). apply (ceph_putObject_others c (m_ctx s)).
  - intros s ks u k. rewrite (proj1 (in_thread_run _ s)), (proj2 (in_thread_run _ s)).
    apply (@deleteObjects_value _ _ (ceph_laws c) (m_ctx s) ks u k).
  - intros s ks k. rewrite (proj1 (in_thread_run _ s)). apply (ceph_deleteObjects_others c (m_ctx s)).
Defined.
End threads.

(** ** A cluster with passing failures *)

Definition found_or_missing (ret : Z) : Prop := 0 <= ret ∨ ret = - ENOENT.

(** Connecting succeeds, and the failures of a call pass within its retries. *)
Class RadosSettles (R : Type) `{Rados R} := {
  init2_succeeds : ∀ s u c, 0 <= (rados_init2 u c s).2;
  conf_set_succeeds : ∀ s k v, 0 <= (rados_conf_set k v s).2;
  connect_succeeds : ∀ s, 0 <= (rados_connect s).2;
  ioctx_create_succeeds : ∀ s p, 0 <= (rados_ioctx_create p s).2;
  read_settles : ∀ s k n off, settles (rados_read k n off) (λ a, CephRadosRetryCondition a.1)
    (λ a, found_or_missing a.1) (Z.to_nat IO_RETRY_COUNT) s;
  write_settles : ∀ s k b off, settles (rados_write k b off) CephRadosRetryCondition
    (λ ret, ret = 0) (Z.to_nat IO_RETRY_COUNT) s;
  remove_settles : ∀ s k, settles (rados_remove k) CephRadosRetryCondition
    found_or_missing (Z.to_nat IO_RETRY_COUNT) s
}.

#[export] Instance settles_pool_exists {R : Type} `{RadosSettles R} : RadosPoolExists R.
Proof.
  split; intros s *; unfold ENOENT;
    [pose proof (init2_succeeds s u c)|pose proof (conf_set_succeeds s k v)|pose proof (connect_succeeds s)
    |pose proof (ioctx_create_succeeds s p)]; lia.
Qed.

Section settling.
Context {R : Type} `{RS : RadosSettles R} (c : ceph_config).

Lemma rados_step_succeeds (call : R → R * Z) (s : CephRadosCtx R) :
  (∀ r, 0 <= (call r).2) → ∃ s', rados_step call s = (s', Value tt).
Proof.
  intros Hcall. unfold rados_step, rados, mbind, ST_bind. specialize (Hcall (ioCTX s)).
  destruct (call (ioCTX s)) as [r ret]. simpl in *. rewrite (proj2 (Z.ltb_ge ret 0)) by done. by eexists.
Qed.

Lemma connect_settles (s : CephRadosCtx R) : ∃ s', connect c s = (s', Value tt).
Proof using RS.
  unfold connect. destruct (connected s); [by eexists|].
  destruct (rados_step_succeeds (rados_init2 (m_userName c) (m_clusterName c)) s) as [s1 Hs]; [intros; apply init2_succeeds|].
  rewrite (st_bind_value _ _ _ _ _ Hs).
  destruct (rados_step_succeeds (rados_conf_set "mon host" (m_monHost c)) s1) as [s2 Hs2]; [intros; apply conf_set_succeeds|].
  rewrite (st_bind_value _ _ _ _ _ Hs2).
  destruct (rados_step_succeeds (rados_conf_set "key" (m_key c)) s2) as [s3 Hs3]; [intros; apply conf_set_succeeds|].
  rewrite (st_bind_value _ _ _ _ _ Hs3).
  destruct (rados_step_succeeds rados_connect s3) as [s4 Hs4]; [intros; apply connect_succeeds|].
  rewrite (st_bind_value _ _ _ _ _ Hs4).
  destruct (rados_step_succeeds (rados_ioctx_create (m_poolName c)) s4) as [s5 Hs5]; [intros; apply ioctx_create_succeeds|].
  rewrite (st_bind_value _ _ _ _ _ Hs5). by eexists.
Qed.

Lemma rados_retry_settles {A} (call : R → R * A) (code : A → Z) (good : A → Prop) (s : CephRadosCtx R) :
  settles call (λ a, CephRadosRetryCondition (code a)) good (Z.to_nat IO_RETRY_COUNT) (ioCTX s) →
  ∃ s' a, rados_retry call code s = (s', Value a) ∧ good a.
Proof.
  apply (retry_settles ioCTX). intros s0. unfold rados. destruct (call (ioCTX s0)) as [r a]. by eexists.
Qed.

Lemma remove_keys_succeeds (keys : list string) (s : CephRadosCtx R) : ∃ s', remove_keys keys s = (s', Value tt).
Proof using RS.
  revert s. induction keys as [|key keys IH]; intros s; simpl; [by eexists|].
  destruct (rados_retry_settles (rados_remove key) id found_or_missing s (remove_settles (ioCTX s) key))
    as (s1 & ret & Hrun & Hret). rewrite (st_bind_value _ _ _ _ _ Hrun).
  destruct (Z.eqb_spec ret (- ENOENT)) as [|Hne]; [apply IH|].
  destruct Hret as [Hret|]; [|done]. rewrite (proj2 (Z.ltb_ge ret 0)) by done. apply IH.
Qed.

#[export] Instance threads_reliable : @KeyValueReliable (ceph_threads R) (threads_helper c).
Proof using RS.
  split; simpl.
  - intros s k off n e _ _ _. rewrite (proj2 (in_thread_run _ s)). unfold ceph_getObject, read_connected.
    destruct (connect_settles (m_ctx s)) as [s1 Hs1]. rewrite (st_bind_value _ _ _ _ _ Hs1).
    destruct (rados_retry_settles (rados_read k n off) fst (λ a, found_or_missing a.1) s1 (read_settles (ioCTX s1) k n off))
      as (s2 & [ret data] & Hrun & Hret). rewrite (st_bind_value _ _ _ _ _ Hrun). simpl in Hret.
    destruct (Z.eqb_spec ret (- ENOENT)) as [|Hne]; [done|].
    destruct Hret as [Hret|]; [|done]. by rewrite (proj2 (Z.ltb_ge ret 0)) by done.
  - intros s k b off Hb. rewrite (proj2 (in_thread_run _ s)). unfold ceph_putObject, write_connected.
    destruct (connect_settles (m_ctx s)) as [s1 Hs1]. rewrite (st_bind_value _ _ _ _ _ Hs1).
    rewrite (bool_decide_eq_false_2 (b = [])) by done.
    destruct (rados_retry_settles (rados_write k b off) id (λ ret, ret = 0) s1 (write_settles (ioCTX s1) k b off))
      as (s2 & ret & Hrun & ->). rewrite (st_bind_value _ _ _ _ _ Hrun). by eexists.
  - intros s ks. rewrite (proj2 (in_thread_run _ s)). unfold ceph_deleteObjects.
    destruct (connect_settles (m_ctx s)) as [s1 Hs1]. rewrite (st_bind_value _ _ _ _ _ Hs1).
    exists tt. generalize s1 as s0. induction (delete_batches ks) as [|batch batches IH]; intros s0; simpl; [done|].
    destruct (remove_keys_succeeds batch s0) as [s2 Hs2]. rewrite (st_bind_value _ _ _ _ _ Hs2). apply IH.
Qed.
End settling.

(** ** A pool in memory *)

#[export] Instance memory_rados : Rados (gmap string bytes) := {|
  rados_init2 := λ _ _ m, (m, 0);
  rados_conf_set := λ _ _ m, (m, 0);
  rados_connect := λ m, (m, 0);
  rados_ioctx_create := λ _ m, (m, 0);
  rados_read := λ k n off m,
    (m, match m !! k with
        | Some o => (chainLength (pread o off n), pread o off n)
        | None => (- ENOENT, [])
        end);
  rados_write := λ k b off m, (<[k := pwrite (default [] (m !! k)) off b]> m, 0);
  rados_remove := λ k m, (delete k m, 0)
|}.

#[export] Instance memory_rados_laws : RadosLaws (gmap string bytes).
Proof.
  refine {| pool_objects := λ m : gmap string bytes, m |}; simpl; try done.
  - intros m k n off ret data Hoff Hn Hr Hret. destruct (m !! k) as [o|]; simplify_eq/=; [|done].
    unfold chainLength. rewrite Nat2Z.id. by apply take_ge.
  - intros m k n off data Hr. destruct (m !! k) as [o|]; [|done]. simplify_eq/=.
    unfold chainLength, ENOENT in *. lia.
  - intros m k b off _. by rewrite lookup_insert_eq.
  - intros m k b off. right. by rewrite lookup_insert_eq.
  - intros m k b off k' Hne. by rewrite lookup_insert_ne.
  - intros m k _. by rewrite lookup_delete_eq.
  - intros m k k' Hne. by rewrite lookup_delete_ne.
Defined.

#[export] Instance memory_pool_exists : RadosPoolExists (gmap string bytes).
Proof. by split. Qed.

Lemma retry_condition_nonneg (ret : Z) : 0 <= ret → CephRadosRetryCondition ret = true.
Proof.
  intros Hret. unfold CephRadosRetryCondition. rewrite bool_decide_eq_false_2; [done|]. intros Hin.
  assert (Forall (λ e, 0 < e) CEPHRADOS_RETRY_ERRORS) as Hpos by (unfold CEPHRADOS_RETRY_ERRORS; repeat constructor; lia).
  rewrite Forall_forall in Hpos. specialize (Hpos _ Hin). simpl in Hpos. lia.
Qed.

#[export] Instance memory_rados_settles : RadosSettles (gmap string bytes).
Proof.
  split; simpl; try done; intros *; left.
  - destruct (s !! k) as [o|]; simpl; [|split; [done|by right]].
    assert (0 <= chainLength (pread o off n)) by (unfold chainLength; lia).
    split; [by apply retry_condition_nonneg|by left].
  - done.
  - split; [done|]. by left.
Qed.

(** C28: files on RADOS.  When the failures of the cluster pass within the
    retries of a call, a write through the adapter succeeds, and a read after it
    returns the written bytes where it meets them and the former bytes
    elsewhere; for every block size and range, whatever threads run the
    operations on blocks, in whatever order, each connecting its own context. *)
Theorem ceph_file_write_read {R : Type} (c : ceph_config) `{RS : RadosSettles R} `{!RadosLaws R} (fileId : string)
    (bs : Z) (st : kv_state (ceph_threads R)) (worder rorder : list nat) (offset roffset rsize : Z) (buf : bytes) :
  valid_fileId fileId = true → 0 < bs <= OFF_MAX →
  0 <= offset → offset + chainLength buf <= OFF_MAX → 0 <= roffset → 0 <= rsize →
  roffset + rsize <= OFF_MAX →
  worder ≡ₚ seq 0 (length (block_ranges bs offset (chainLength buf))) →
  rorder ≡ₚ seq 0 (length (block_ranges bs roffset rsize)) →
  ∃ st1 st2,
    @write _ (threads_helper c) fileId bs worder offset buf st = (st1, Value (chainLength buf)) ∧
    @read _ (threads_helper c) fileId bs rorder roffset rsize st1
    = (st2, Value (map (λ p, if decide (offset <= p < offset + chainLength buf)
                             then byte_at buf (p - offset)
                             else kv_byte fileId bs (pool_objects (ct_pool (store st))) p) (seqZ roffset rsize))).
Proof. intros. by apply (@write_read_aux _ _ (threads_laws c) fileId bs (threads_reliable c)). Qed.

Definition sample_ceph : ceph_config := mk_ceph_config "ceph" "mon" "pool" "user" "key".

(** The blocks are written by the threads 3 and 5 and read by 5 and 3. *)
Definition sample_threads : kv_state (ceph_threads (gmap string bytes)) :=
  mk_kv_state (mk_ceph_threads ∅ ∅ [3; 5; 5; 3]%nat) ∅.

Lemma ceph_file_write_read_witness :
  ∃ st1 st2,
    @write _ (threads_helper sample_ceph) "f" 4 [1; 0]%nat 3 [x61; x62] sample_threads = (st1, Value 2) ∧
    @read _ (threads_helper sample_ceph) "f" 4 [0; 1]%nat 2 3 st1
    = (st2, Value (map (λ p, if decide (3 <= p < 3 + 2) then byte_at [x61; x62] (p - 3)
                             else kv_byte "f" 4 (pool_objects (ct_pool (store sample_threads))) p) (seqZ 2 3))).
Proof.
  apply (ceph_file_write_read sample_ceph "f" 4 sample_threads [1; 0]%nat [0; 1]%nat 3 2 3 [x61; x62]);
    try (vm_compute; intuition congruence); [by apply perm_swap|done].
Defined.
