(* ===== verification/CephHelper.v ===== *)
(** * Files on striped RADOS objects (src/src/cephHelper.cc, src/src/cephHelper.h)

    [CephHelper] keeps a file as one striped object.  The calls of librados and
    libradosstriper are the type [ceph_call], indexed by their results, and the
    libraries are the class [Ceph] that runs them; [CephLaws] states the
    documented behaviour that the helper relies on.  Proved: the operations are
    those of a map from names to file contents, also when locks that a client
    left behind block them. *)

From stdpp Require Import base numbers list gmap strings.
From Stdlib Require Import ZArith Lia Strings.Byte.
From S2P Require Import Prelude Storage CephRados.
Local Open Scope Z_scope.

(** EINTR, EIO, EAGAIN, EACCES, EBUSY, EMFILE, ETXTBSY, ESPIPE, EMLINK, EPIPE,
    EDEADLK, EWOULDBLOCK, ENONET, ENOLINK, EADDRINUSE, EADDRNOTAVAIL, ENETDOWN,
    ENETUNREACH, ECONNABORTED, ECONNRESET, ENOTCONN, EHOSTDOWN, EHOSTUNREACH,
    EREMOTEIO, ENOMEDIUM, ECANCELED. *)
Definition CEPH_RETRY_ERRORS : list Z :=
  [4; 5; 11; 13; 16; 24; 26; 29; 31; 32; 35; 11; 64; 67; 98; 99; 100; 101; 103; 104; 107; 112; 113;
   121; 123; 125].
Definition CephRetryCondition (result : Z) : bool := negb (bool_decide (- result ∈ CEPH_RETRY_ERRORS)).

Definition CEPH_STRIPER_FIRST_OBJECT_SUFFIX : string := ".0000000000000000".
Definition CEPH_STRIPER_LOCK_NAME : string := "striper.lock".
Definition m_stripeUnit : Z := 4 * 1024 * 1024.
Definition m_stripeCount : Z := 8.
Definition m_objectSize : Z := 16 * 1024 * 1024.

Definition EEXIST : Z := 17.
Definition ENODATA : Z := 61.

(** ** The libraries *)

Record locker_t := mk_locker_t { lk_client : string; lk_cookie : string }.

(** A call returns 0 or a size, or a negative errno, and what it writes through
    its pointer arguments; [getxattrs] the names of its map in their order. *)
Inductive ceph_call : Type → Type :=
| cluster_init2 (user cluster : string) : ceph_call Z
| cluster_conf_set (option value : string) : ceph_call Z
| cluster_connect : ceph_call Z
| cluster_ioctx_create (pool : string) : ceph_call Z
| cluster_shutdown : ceph_call unit
| ioctx_close : ceph_call unit
| ioctx_pool_required_alignment2 : ceph_call Z
| ioctx_list_lockers (oid name : string) : ceph_call (Z * list locker_t)
| ioctx_break_lock (oid name client cookie : string) : ceph_call Z
| striper_create : ceph_call Z
| striper_set_object_layout_stripe_unit (stripe_unit : Z) : ceph_call unit
| striper_set_object_layout_stripe_count (stripe_count : Z) : ceph_call unit
| striper_set_object_layout_object_size (object_size : Z) : ceph_call unit
| striper_read (soid : string) (len off : Z) : ceph_call (Z * bytes)
| striper_write (soid : string) (data : bytes) (len off : Z) : ceph_call Z
| striper_write_full (soid : string) (data : bytes) : ceph_call Z
| striper_trunc (soid : string) (size : Z) : ceph_call Z
| striper_remove (soid : string) : ceph_call Z
| striper_getxattr (soid name : string) : ceph_call (Z * string)
| striper_setxattr (soid name value : string) : ceph_call Z
| striper_rmxattr (soid name : string) : ceph_call Z
| striper_getxattrs (soid : string) : ceph_call (Z * list string).

Class Ceph (R : Type) := { ceph_run : ∀ {A}, ceph_call A → R → R * A }.

(** ** CephHelper *)

(** [ch_alive]: the helper was not destroyed, so that the weak pointers of its
    continuations can be locked. *)
Record CephHelper (R : Type) := mk_CephHelper {
  ch_lib : R;
  m_connected : bool;
  ch_alive : bool
}.
Arguments mk_CephHelper {R} _ _ _.
Arguments ch_lib {R} _.
Arguments m_connected {R} _.
Arguments ch_alive {R} _.

Section ceph.
Context {R : Type} `{Ceph R} (c : ceph_config).
Abbreviation CH := (CephHelper R).

Definition lib {A} (call : ceph_call A) : ST CH A := λ s,
  let '(r, a) := ceph_run call (ch_lib s) in (mk_CephHelper r (m_connected s) (ch_alive s), Value a).
Definition lib_retry {A} (call : ceph_call A) (code : A → Z) : ST CH A :=
  retry (lib call) (λ a, CephRetryCondition (code a)) IO_RETRY_COUNT.

(** [if (ret < 0) return makeFuturePosixException(ret)] *)
Definition fail_if (ret : Z) : ST CH unit :=
  if ret <? 0 then st_throw (makePosixException ret) else mret tt.

(** [s.lock()] at the beginning of a continuation. *)
Definition lock_self : ST CH unit := λ s,
  if ch_alive s then (s, Value tt) else (s, Exception (makePosixException ECANCELED)).

Definition get_connected : ST CH bool := λ s, (s, Value (m_connected s)).
Definition set_connected : ST CH unit := λ s, (mk_CephHelper (ch_lib s) true (ch_alive s), Value tt).

(** The steps after which the context and the cluster are closed. *)
Definition close_if (ret : Z) : ST CH unit :=
  if ret <? 0
  then _ ← lib ioctx_close; _ ← lib cluster_shutdown; st_throw (makePosixException ret)
  else mret tt.

Definition connect : ST CH unit :=
  _ ← lock_self;
  connected ← get_connected;
  if (connected : bool) then mret tt
  else
    ret ← lib (cluster_init2 (m_userName c) (m_clusterName c)); _ ← fail_if ret;
    ret ← lib (cluster_conf_set "mon host" (m_monHost c)); _ ← fail_if ret;
    ret ← lib (cluster_conf_set "key" (m_key c)); _ ← fail_if ret;
    ret ← lib_retry cluster_connect id; _ ← fail_if ret;
    ret ← lib_retry (cluster_ioctx_create (m_poolName c)) id; _ ← fail_if ret;
    ret ← lib_retry striper_create id; _ ← close_if ret;
    ret ← lib ioctx_pool_required_alignment2; _ ← close_if ret;
    _ ← lib (striper_set_object_layout_stripe_unit m_stripeUnit);
    _ ← lib (striper_set_object_layout_stripe_count m_stripeCount);
    _ ← lib (striper_set_object_layout_object_size m_objectSize);
    set_connected.

(** What every operation begins with. *)
Definition connected_op {A} (body : ST CH A) : ST CH A :=
  _ ← connect; _ ← lock_self; body.

Fixpoint break_locks (oid : string) (lockers : list locker_t) : ST CH Z :=
  match lockers with
  | [] => mret 0
  | locker :: lockers =>
      result ← lib (ioctx_break_lock oid CEPH_STRIPER_LOCK_NAME (lk_client locker) (lk_cookie locker));
      if result <? 0 then mret result else break_locks oid lockers
  end.

Definition removeStriperLocks (fileId : string) : ST CH Z :=
  let striperFileId := String.append fileId CEPH_STRIPER_FIRST_OBJECT_SUFFIX in
  '(result, lockers) ← lib (ioctx_list_lockers striperFileId CEPH_STRIPER_LOCK_NAME);
  if result <? 0 then mret result else break_locks striperFileId lockers.

(** The locks are removed and the call is made once more. *)
Definition without_locks (fileId : string) (ret : Z) (call : ceph_call Z) : ST CH Z :=
  removed ← removeStriperLocks fileId;
  if removed =? 0 then lib call else mret ret.

Definition unlink (fileId : string) (currentSize : Z) : ST CH unit := connected_op (
  ret ← lib_retry (striper_remove fileId) id;
  ret ← (if ret =? - EBUSY then without_locks fileId ret (striper_remove fileId) else mret ret);
  fail_if ret).

(** The result of [write_full] is not looked at. *)
Definition truncate (fileId : string) (size currentSize : Z) : ST CH unit := connected_op (
  ret ← lib_retry (striper_trunc fileId size) id;
  ret ← (if ret =? - ENOENT then
           _ ← lib (striper_write_full fileId []); lib (striper_trunc fileId size)
         else if ret =? - EBUSY then without_locks fileId ret (striper_trunc fileId size)
         else mret ret);
  fail_if ret).

Definition getxattr (fileId name : string) : ST CH string := connected_op (
  '(ret, value) ← lib_retry (striper_getxattr fileId name) fst;
  _ ← fail_if ret;
  mret (String.substring 0 (Z.to_nat ret) value)).

Definition setxattr (fileId name value : string) (create replace : bool) : ST CH unit := connected_op (
  if create && replace then st_throw (makePosixException EINVAL)
  else
    _ ← (if create then
           '(xattrExists, _) ← lib_retry (striper_getxattr fileId name) fst;
           if 0 <=? xattrExists then st_throw (makePosixException EEXIST) else mret tt
         else if replace then
           '(xattrExists, _) ← lib_retry (striper_getxattr fileId name) fst;
           if xattrExists <? 0 then st_throw (makePosixException ENODATA) else mret tt
         else mret tt);
    ret ← lib_retry (striper_setxattr fileId name value) id;
    fail_if ret).

Definition removexattr (fileId name : string) : ST CH unit := connected_op (
  ret ← lib_retry (striper_rmxattr fileId name) id;
  fail_if ret).

Definition listxattr (fileId : string) : ST CH (list string) := connected_op (
  '(ret, names) ← lib_retry (striper_getxattrs fileId) fst;
  _ ← fail_if ret;
  mret names).

(** ** CephFileHandle *)

(** The continuations of a handle lock the handle, which keeps its helper;
    [self] says whether the handle is still there. *)
Definition handle_op {A} (self : bool) (body : ST CH A) : ST CH A :=
  _ ← connect; if self then body else st_throw (makePosixException ECANCELED).

Definition read (self : bool) (m_fileId : string) (offset size : Z) : ST CH bytes := handle_op self (
  '(ret, data) ← lib_retry (striper_read m_fileId size offset) fst;
  _ ← fail_if ret;
  mret (take (Z.to_nat ret) data)).

(** [buf.front()] of an empty queue is null and dereferenced. *)
Definition write (self : bool) (m_fileId : string) (offset : Z) (buf : bytes) : ST CH Z := handle_op self (
  let size := chainLength buf in
  if bool_decide (buf = []) then st_throw undefined_behaviour
  else
    ret ← lib_retry (striper_write m_fileId buf size offset) id;
    _ ← fail_if ret;
    mret size).

Definition open (fileId : string) (flags : Z) (openParams : Params) : ST CH string := mret fileId.

(** The methods that the class overrides; the others are those of the base. *)
Definition ceph_helper : StorageHelper CH string :=
  let base := default_StorageHelper open in {|
  sh_getattr := sh_getattr base;
  sh_access := sh_access base;
  sh_readlink := sh_readlink base;
  sh_readdir := sh_readdir base;
  sh_mknod := λ fileId mode flags rdev, mret tt;
  sh_mkdir := λ fileId mode, mret tt;
  sh_unlink := unlink;
  sh_rmdir := sh_rmdir base;
  sh_symlink := sh_symlink base;
  sh_rename := sh_rename base;
  sh_link := sh_link base;
  sh_chmod := λ fileId mode, mret tt;
  sh_chown := sh_chown base;
  sh_truncate := truncate;
  sh_open := open;
  sh_getxattr := getxattr;
  sh_setxattr := setxattr;
  sh_removexattr := removexattr;
  sh_listxattr := listxattr
|}.
End ceph.

(** ** What the libraries promise *)

(** The calls of [connect]: those that return a code are to return no error. *)
Definition setup_result {A} (call : ceph_call A) : option (A → Prop) :=
  match call in ceph_call A return option (A → Prop) with
  | cluster_init2 _ _ | cluster_conf_set _ _ | cluster_connect | cluster_ioctx_create _
  | striper_create | ioctx_pool_required_alignment2 => Some (λ ret, 0 <= ret)
  | striper_set_object_layout_stripe_unit _ | striper_set_object_layout_stripe_count _
  | striper_set_object_layout_object_size _ => Some (λ _, True)
  | _ => None
  end.

Definition resize (f : bytes) (size : Z) : bytes := take (Z.to_nat size) (f ++ zeros (size - chainLength f)).

(** A cluster that is up: files as the striper sees them, and the locks on
    their first objects, which are shared or one that is exclusive.  Reads and
    writes take a shared lock, which only an exclusive one keeps from them;
    [trunc] and [remove] take an exclusive lock.  A call that cannot have its
    lock fails with EBUSY. *)
Class CephLaws (R : Type) `{Ceph R} := {
  files : R → gmap string bytes;
  lockers : R → string → list locker_t;
  exclusive : R → string → bool;
  same (r r' : R) := files r' = files r ∧ (∀ k, lockers r' k = lockers r k) ∧ ∀ k, exclusive r' k = exclusive r k;
  lockers_exist : ∀ r k, files r !! k = None → lockers r k = [];
  exclusive_locks : ∀ r k, lockers r k = [] → exclusive r k = false;
  run_setup : ∀ {A} r (call : ceph_call A) (ok : A → Prop), setup_result call = Some ok →
    ok (ceph_run call r).2 ∧ same r (ceph_run call r).1;
  run_list_lockers : ∀ r k,
    let '(r', (n, ls)) :=
      ceph_run (ioctx_list_lockers (String.append k CEPH_STRIPER_FIRST_OBJECT_SUFFIX) CEPH_STRIPER_LOCK_NAME) r in
    0 <= n ∧ ls = lockers r k ∧ same r r';
  run_break_lock : ∀ r k l ls, lockers r k = l :: ls →
    let '(r', n) := ceph_run (ioctx_break_lock (String.append k CEPH_STRIPER_FIRST_OBJECT_SUFFIX)
                      CEPH_STRIPER_LOCK_NAME (lk_client l) (lk_cookie l)) r in
    n = 0 ∧ files r' = files r ∧ lockers r' k = ls ∧ ∀ k', k' ≠ k → exclusive r' k' = exclusive r k';
  run_read : ∀ r k n off, 0 <= off → 0 <= n →
    let '(r', (ret, data)) := ceph_run (striper_read k n off) r in
    same r r' ∧ match files r !! k with
                | Some f => if exclusive r k then ret = - EBUSY
                            else ret = chainLength (pread f off n) ∧ data = pread f off n
                | None => ret = - ENOENT
                end;
  run_write : ∀ r k data off, data ≠ [] → 0 <= off →
    let '(r', ret) := ceph_run (striper_write k data (chainLength data) off) r in
    if exclusive r k then ret = - EBUSY ∧ same r r'
    else ret = 0 ∧ files r' = <[k := pwrite (default [] (files r !! k)) off data]> (files r) ∧
         ∀ k', exclusive r' k' = exclusive r k';
  run_write_full : ∀ r k data, lockers r k = [] →
    let '(r', ret) := ceph_run (striper_write_full k data) r in
    files r' = <[k := data]> (files r) ∧ lockers r' k = [] ∧ ∀ k', exclusive r' k' = exclusive r k';
  run_trunc : ∀ r k size, 0 <= size →
    let '(r', ret) := ceph_run (striper_trunc k size) r in
    match files r !! k, lockers r k with
    | None, _ => ret = - ENOENT ∧ same r r'
    | Some f, [] => ret = 0 ∧ files r' = <[k := resize f size]> (files r) ∧ ∀ k', exclusive r' k' = exclusive r k'
    | Some f, _ => ret = - EBUSY ∧ same r r'
    end;
  run_remove : ∀ r k,
    let '(r', ret) := ceph_run (striper_remove k) r in
    match files r !! k, lockers r k with
    | None, _ => ret = - ENOENT ∧ same r r'
    | Some f, [] => ret = 0 ∧ files r' = delete k (files r) ∧ ∀ k', exclusive r' k' = exclusive r k'
    | Some f, _ => ret = - EBUSY ∧ same r r'
    end
}.

(** ** Files *)

Inductive ceph_op :=
| op_read (fileId : string) (offset size : Z)
| op_write (fileId : string) (offset : Z) (buf : bytes)
| op_truncate (fileId : string) (size currentSize : Z)
| op_unlink (fileId : string) (currentSize : Z).

Inductive ceph_result :=
| r_data (b : bytes)
| r_size (n : Z)
| r_unit.

Definition op_in_range (op : ceph_op) : Prop :=
  match op with
  | op_read _ offset size => 0 <= offset ∧ 0 <= size
  | op_write _ offset buf => 0 <= offset ∧ buf ≠ []
  | op_truncate _ size _ => 0 <= size
  | op_unlink _ _ => True
  end.

Definition missing_file {A} : Try A := Exception (makePosixException ENOENT).
Definition busy_file {A} : Try A := Exception (makePosixException EBUSY).

(** Files, and the names of those with an exclusive lock that a client left. *)
Abbreviation file_state := (gmap string bytes * gset string)%type.

(** The operation on files: reads and writes fail on such a lock, truncations
    and unlinks remove it. *)
Definition file_op (st : file_state) (op : ceph_op) : file_state * Try ceph_result :=
  let '(m, locked) := st in
  match op with
  | op_read k offset size =>
      (st, match m !! k with
           | Some f => if bool_decide (k ∈ locked) then busy_file else Value (r_data (pread f offset size))
           | None => missing_file
           end)
  | op_write k offset buf =>
      if bool_decide (k ∈ locked) then (st, busy_file)
      else (<[k := pwrite (default [] (m !! k)) offset buf]> m, locked, Value (r_size (chainLength buf)))
  | op_truncate k size _ =>
      (<[k := resize (default [] (m !! k)) size]> m, locked ∖ {[k]}, Value r_unit)
  | op_unlink k _ =>
      match m !! k with
      | Some _ => (delete k m, locked ∖ {[k]}, Value r_unit)
      | None => (st, missing_file)
      end
  end.

Fixpoint file_ops (st : file_state) (ops : list ceph_op) : file_state * list (Try ceph_result) :=
  match ops with
  | [] => (st, [])
  | op :: ops => let '(st1, r) := file_op st op in let '(st2, rs) := file_ops st1 ops in (st2, r :: rs)
  end.

Section exec.
Context {R : Type} `{Ceph R} (c : ceph_config).

(** The operation of the helper or of a handle. *)
Definition exec (op : ceph_op) : ST (CephHelper R) ceph_result :=
  match op with
  | op_read k offset size => b ← read c true k offset size; mret (r_data b)
  | op_write k offset buf => n ← write c true k offset buf; mret (r_size n)
  | op_truncate k size currentSize => _ ← truncate c k size currentSize; mret r_unit
  | op_unlink k currentSize => _ ← unlink c k currentSize; mret r_unit
  end.

Fixpoint exec_all (ops : list ceph_op) (s : CephHelper R) : CephHelper R * list (Try ceph_result) :=
  match ops with
  | [] => (s, [])
  | op :: ops => let '(s1, r) := exec op s in let '(s2, rs) := exec_all ops s1 in (s2, r :: rs)
  end.
End exec.

Section laws.
Context {R : Type} `{CL : CephLaws R} (c : ceph_config).
Implicit Types (s : CephHelper R).

Lemma same_refl (r : R) : same r r.
Proof. done. Qed.
Lemma same_trans (r1 r2 r3 : R) : same r1 r2 → same r2 r3 → same r1 r3.
Proof.
  intros (H1 & H2 & H3) (H4 & H5 & H6). split_and!; [by rewrite H4|intros k; by rewrite H5|].
  intros k. by rewrite H6.
Qed.

(** [agrees s s']: the helper lives on, with the same files and locks. *)
Definition agrees s s' : Prop := ch_alive s' = ch_alive s ∧ same (ch_lib s) (ch_lib s').

Lemma agrees_trans s1 s2 s3 : agrees s1 s2 → agrees s2 s3 → agrees s1 s3.
Proof. intros [H1 H2] [H3 H4]. split; [by rewrite H3|by eapply same_trans]. Qed.

Lemma lib_run {A} (call : ceph_call A) s :
  lib call s = (mk_CephHelper (ceph_run call (ch_lib s)).1 (m_connected s) (ch_alive s),
                Value (ceph_run call (ch_lib s)).2).
Proof. unfold lib. by destruct (ceph_run call (ch_lib s)). Qed.

(** A call that changes nothing, retried or not. *)
Lemma lib_agrees {A} (call : ceph_call A) (Q : A → Prop) s :
  (∀ r, same (ch_lib s) r → same r (ceph_run call r).1 ∧ Q (ceph_run call r).2) →
  (∃ s' a, lib call s = (s', Value a) ∧ agrees s s' ∧ Q a) ∧
  (∀ code, ∃ s' a, lib_retry call code s = (s', Value a) ∧ agrees s s' ∧ Q a).
Proof.
  intros Hcall. assert (∀ s0, agrees s s0 → ∃ s' a, lib call s0 = (s', Value a) ∧ agrees s s' ∧ Q a) as Hone.
  { intros s0 [Ha Hs]. destruct (Hcall (ch_lib s0) Hs) as [Hs' HQ]. rewrite lib_run.
    eexists _, _. split; [done|]. split; [|done]. split; [done|]. by eapply same_trans. }
  split; [by apply Hone|]. intros code. apply (retry_ind _ _ _ (agrees s) (λ _, Q)); [|done].
  intros s0 Hs0. destruct (Hone s0 Hs0) as (s' & a & ? & ? & ?). eauto.
Qed.

(** A call that succeeds at once is not retried. *)
Lemma lib_retry_done {A} (call : ceph_call A) (code : A → Z) s :
  code (ceph_run call (ch_lib s)).2 = 0 → lib_retry call code s = lib call s.
Proof. intros Hc. unfold lib_retry. rewrite lib_run. apply retry_done; [apply lib_run|by rewrite Hc]. Qed.

Lemma fail_if_ok (ret : Z) s : 0 <= ret → fail_if ret s = (s, Value tt).
Proof. intros Hr. unfold fail_if. by rewrite (proj2 (Z.ltb_ge ret 0)). Qed.
Lemma close_if_ok (ret : Z) s : 0 <= ret → close_if ret s = (s, Value tt).
Proof. intros Hr. unfold close_if. by rewrite (proj2 (Z.ltb_ge ret 0)). Qed.

Lemma setup_call (call : ceph_call Z) s :
  setup_result call = Some (λ ret, 0 <= ret) →
  (∃ s' ret, lib call s = (s', Value ret) ∧ agrees s s' ∧ 0 <= ret) ∧
  (∃ s' ret, lib_retry call id s = (s', Value ret) ∧ agrees s s' ∧ 0 <= ret).
Proof.
  intros Hset. destruct (lib_agrees call (λ ret, 0 <= ret) s) as [H1 H2]; [|by split].
  intros r _. by destruct (run_setup r call _ Hset).
Qed.

(** One step of [connect] and the test of its result. *)
Lemma setup_then {A} (m : ST (CephHelper R) Z) (test : Z → ST (CephHelper R) unit)
    (k : ST (CephHelper R) A) (P : CephHelper R * Try A → Prop) s0 s :
  agrees s0 s → (∃ s' ret, m s = (s', Value ret) ∧ agrees s s' ∧ 0 <= ret) →
  (∀ ret s, 0 <= ret → test ret s = (s, Value tt)) →
  (∀ s', agrees s0 s' → P (k s')) → P ((ret ← m; _ ← test ret; k) s).
Proof.
  intros H0 (s1 & ret & Hm & Ha & Hr) Htest Hk. rewrite (st_bind_value _ _ _ _ _ Hm).
  rewrite (st_bind_value (test ret) _ s1 s1 tt) by by apply Htest. apply Hk. by eapply agrees_trans.
Qed.

Lemma unit_then {A} (call : ceph_call unit) (k : ST (CephHelper R) A) (P : CephHelper R * Try A → Prop) s0 s :
  agrees s0 s → setup_result call = Some (λ _, True) → (∀ s', agrees s0 s' → P (k s')) →
  P ((_ ← lib call; k) s).
Proof.
  intros H0 Hset Hk. rewrite (st_bind_value _ _ _ _ _ (lib_run call s)). apply Hk.
  eapply agrees_trans; [exact H0|]. split; [done|]. by apply (run_setup (ch_lib s) call _ Hset).
Qed.

Lemma lock_self_ok s : ch_alive s = true → lock_self s = (s, Value tt).
Proof. unfold lock_self. by intros ->. Qed.

Lemma ceph_connect_ok s : ch_alive s = true → ∃ s', connect c s = (s', Value tt) ∧ agrees s s'.
Proof.
  intros Hal. unfold connect. rewrite (st_bind_value _ _ _ _ _ (lock_self_ok s Hal)).
  rewrite (st_bind_value get_connected _ s s (m_connected s) eq_refl).
  destruct (m_connected s); [by exists s|].
  set (P := λ p : CephHelper R * Try (), ∃ s', p = (s', Value tt) ∧ agrees s s').
  assert (agrees s s) as Hs by done.
  do 5 (eapply (setup_then _ fail_if _ P s); [eassumption|by apply setup_call|apply fail_if_ok|];
    clear Hs; intros ? Hs).
  do 2 (eapply (setup_then _ close_if _ P s); [eassumption|by apply setup_call|apply close_if_ok|];
    clear Hs; intros ? Hs).
  do 3 (eapply (unit_then _ _ P s); [eassumption|done|]; clear Hs; intros ? Hs).
  eexists. split; [done|]. exact Hs.
Qed.

(** What begins an operation does not change files or locks. *)
Lemma connected_op_ok {A} (body : ST (CephHelper R) A) s :
  ch_alive s = true →
  ∃ s', connected_op c body s = body s' ∧ handle_op c true body s = body s' ∧ agrees s s'.
Proof.
  intros Hal. destruct (ceph_connect_ok s Hal) as (s' & Hc & Ha). exists s'. unfold connected_op, handle_op.
  rewrite !(st_bind_value _ _ _ _ _ Hc). rewrite (st_bind_value lock_self _ s' s' tt); [done|].
  apply lock_self_ok. destruct Ha as [-> _]. done.
Qed.

(** ** Locks *)

Lemma break_locks_ok (k : string) (ls : list locker_t) s :
  lockers (ch_lib s) k = ls →
  ∃ s', break_locks (String.append k CEPH_STRIPER_FIRST_OBJECT_SUFFIX) ls s = (s', Value 0) ∧
    ch_alive s' = ch_alive s ∧ files (ch_lib s') = files (ch_lib s) ∧ lockers (ch_lib s') k = [] ∧
    ∀ k', k' ≠ k → exclusive (ch_lib s') k' = exclusive (ch_lib s) k'.
Proof.
  revert s. induction ls as [|l ls IH]; intros s Hl; cbn [break_locks]; [by exists s|].
  pose proof (run_break_lock (ch_lib s) k l ls Hl) as Hb.
  rewrite (st_bind_value _ _ _ _ _ (lib_run _ s)).
  destruct (ceph_run (ioctx_break_lock _ _ _ _) (ch_lib s)) as [r n]. destruct Hb as (-> & Hf & Hl' & He).
  simpl. destruct (IH (mk_CephHelper r (m_connected s) (ch_alive s)) Hl') as (s' & Hrun & Ha & Hf' & Hl'' & He').
  exists s'. split_and!; [done|done|by rewrite Hf'|done|]. intros k' Hne. by rewrite He', <-He.
Qed.

(** The locks go, and the call is made on the same files without them. *)
Lemma without_locks_ok (k : string) (ret : Z) (call : ceph_call Z) s :
  ∃ s', without_locks k ret call s = lib call s' ∧ ch_alive s' = ch_alive s ∧
    files (ch_lib s') = files (ch_lib s) ∧ lockers (ch_lib s') k = [] ∧
    ∀ k', k' ≠ k → exclusive (ch_lib s') k' = exclusive (ch_lib s) k'.
Proof.
  unfold without_locks, removeStriperLocks.
  pose proof (run_list_lockers (ch_lib s) k) as Hl.
  destruct (ceph_run (ioctx_list_lockers _ _) (ch_lib s)) as [r [n ls]] eqn:Hrun.
  destruct Hl as (Hn & -> & Hf & Hls & He). set (s1 := mk_CephHelper r (m_connected s) (ch_alive s)).
  destruct (break_locks_ok k (lockers (ch_lib s) k) s1) as (s2 & Hb & Ha & Hf2 & Hl2 & He2); [by rewrite <-Hls|].
  exists s2. split; [|split_and!; [done|by rewrite Hf2|done|intros k' Hne; by rewrite He2, <-He]].
  rewrite (st_bind_value _ _ s s2 0); [done|].
  rewrite (st_bind_value _ _ s s1 (n, lockers (ch_lib s) k)) by (by rewrite lib_run, Hrun).
  by rewrite (proj2 (Z.ltb_ge n 0)).
Qed.

(** ** The operations *)

(** The cluster has the files and the exclusive locks [st]. *)
Definition shows (r : R) (st : file_state) : Prop :=
  files r = st.1 ∧ ∀ k, exclusive r k = bool_decide (k ∈ st.2).
Definition does s s' (st : file_state) : Prop := ch_alive s' = ch_alive s ∧ shows (ch_lib s') st.

Lemma shows_same (r r' : R) (st : file_state) : shows r st → same r r' → shows r' st.
Proof. intros [H1 H2] (H3 & _ & H4). split; [by rewrite H3|]. intros k. by rewrite H4. Qed.

(** Without locks on [k], and those of the others unchanged. *)
Lemma shows_unlocked (r : R) (k : string) (m : gmap string bytes) (locked : gset string) :
  files r = m → exclusive r k = false → (∀ k', k' ≠ k → exclusive r k' = bool_decide (k' ∈ locked)) →
  shows r (m, locked ∖ {[k]}).
Proof.
  intros Hf Hk He. split; [done|]. simpl. intros k'. destruct (decide (k' = k)) as [->|Hne].
  - rewrite Hk. symmetry. apply bool_decide_eq_false_2. set_solver.
  - rewrite He by done. apply bool_decide_ext. set_solver.
Qed.

(** An operation that only looks, and that may be made again. *)
Lemma looks {A} (call : ceph_call A) (Q : A → Prop) (st : file_state) s :
  shows (ch_lib s) st → (∀ r, shows r st → same r (ceph_run call r).1 ∧ Q (ceph_run call r).2) →
  ∀ code, ∃ s' a, lib_retry call code s = (s', Value a) ∧ does s s' st ∧ Q a.
Proof.
  intros Hst Hcall code. destruct (lib_agrees call Q s) as [_ Hr].
  { intros r Hr. apply Hcall. by eapply shows_same. }
  destruct (Hr code) as (s' & a & Hrun & [Ha Hs] & HQ). exists s', a. split_and!; [done| |done].
  split; [done|]. by eapply shows_same.
Qed.

Lemma ceph_read_ok (k : string) (off n : Z) (m : gmap string bytes) (locked : gset string) s :
  ch_alive s = true → shows (ch_lib s) (m, locked) → 0 <= off → 0 <= n →
  ∃ s', read c true k off n s
        = (s', match m !! k with
               | Some f => if bool_decide (k ∈ locked) then busy_file else Value (pread f off n)
               | None => missing_file
               end) ∧ does s s' (m, locked).
Proof.
  intros Hal Hst Hoff Hn. unfold read.
  destruct (connected_op_ok ('(ret, data) ← lib_retry (striper_read k n off) fst;
    _ ← fail_if ret; mret (take (Z.to_nat ret) data)) s Hal) as (s1 & _ & -> & [Ha1 Hs1]).
  destruct (looks (striper_read k n off) (λ a, match m !! k with
    | Some f => if bool_decide (k ∈ locked) then a.1 = - EBUSY else a = (chainLength (pread f off n), pread f off n)
    | None => a.1 = - ENOENT end) (m, locked) s1) with (code := @fst Z bytes)
    as (s2 & [ret data] & Hrun & [Ha2 Hst2] & HQ); [by eapply shows_same| |].
  { intros r [Hf He]. pose proof (run_read r k n off Hoff Hn) as Hr.
    destruct (ceph_run (striper_read k n off) r) as [r' [ret data]]. destruct Hr as [Hs Hd]. split; [done|].
    simpl in *. rewrite Hf, He in Hd. destruct (m !! k); [|done]. case_bool_decide; [done|].
    by destruct Hd as [-> ->]. }
  exists s2. split; [|split; [by rewrite Ha2|done]].
  rewrite (st_bind_value _ _ _ _ _ Hrun). destruct (m !! k) as [f|]; [case_bool_decide|].
  - simpl in HQ. by subst ret.
  - simplify_eq. rewrite (st_bind_value _ _ _ _ _ (fail_if_ok _ s2 (chainLength_nonneg _))).
    unfold mret, ST_ret, chainLength. by rewrite Nat2Z.id, take_ge by done.
  - simpl in HQ. by subst ret.
Qed.

Lemma ceph_write_ok (k : string) (off : Z) (b : bytes) (m : gmap string bytes) (locked : gset string) s :
  ch_alive s = true → shows (ch_lib s) (m, locked) → 0 <= off → b ≠ [] →
  ∃ s', write c true k off b s
        = (s', if bool_decide (k ∈ locked) then busy_file else Value (chainLength b)) ∧
    does s s' (if bool_decide (k ∈ locked) then m else <[k := pwrite (default [] (m !! k)) off b]> m, locked).
Proof.
  intros Hal Hst Hoff Hb. unfold write. rewrite bool_decide_eq_false_2 by done.
  destruct (connected_op_ok (ret ← lib_retry (striper_write k b (chainLength b) off) id;
    _ ← fail_if ret; mret (chainLength b)) s Hal) as (s1 & _ & -> & [Ha1 Hs1]).
  assert (shows (ch_lib s1) (m, locked)) as Hst1 by (by eapply shows_same). case_bool_decide as Hk.
  - destruct (looks (striper_write k b (chainLength b) off) (λ ret, ret = - EBUSY) (m, locked) s1 Hst1) with (code := @id Z)
      as (s2 & ret & Hrun & [Ha2 Hst2] & ->).
    { intros r [Hf He]. pose proof (run_write r k b off Hb Hoff) as Hw. simpl in He.
      rewrite He, bool_decide_eq_true_2 in Hw by done.
      destruct (ceph_run (striper_write k b (chainLength b) off) r). naive_solver. }
    exists s2. rewrite (st_bind_value _ _ _ _ _ Hrun). split; [done|]. split; [by rewrite Ha2|done].
  - pose proof (run_write (ch_lib s1) k b off Hb Hoff) as Hw. destruct Hst1 as [Hf1 He1]. simpl in Hf1, He1.
    destruct (ceph_run (striper_write k b (chainLength b) off) (ch_lib s1)) as [r ret] eqn:Hrun.
    rewrite He1, bool_decide_eq_false_2 in Hw by done. destruct Hw as (-> & Hf & He). rewrite Hf1 in Hf.
    exists (mk_CephHelper r (m_connected s1) (ch_alive s1)). split.
    + rewrite (st_bind_value _ _ s1 (mk_CephHelper r (m_connected s1) (ch_alive s1)) 0); [done|].
      rewrite lib_retry_done by (by rewrite Hrun). by rewrite lib_run, Hrun.
    + split; [done|]. split; [done|]. simpl. intros k'. by rewrite He.
Qed.

(** A call of the striper that is made again without the locks: on a file
    without locks it does what [m'] says. *)
Lemma locked_call (k : string) (call : ceph_call Z) (m m' : gmap string bytes) (locked : gset string) s :
  shows (ch_lib s) (m, locked) →
  (∀ r, files r = m → lockers r k = [] →
        (ceph_run call r).2 = 0 ∧ files (ceph_run call r).1 = m' ∧
        ∀ k', exclusive (ceph_run call r).1 k' = exclusive r k') →
  (∀ r, files r = m → lockers r k ≠ [] → (ceph_run call r).2 = - EBUSY ∧ same r (ceph_run call r).1) →
  ∃ s1 ret, lib_retry call id s = (s1, Value ret) ∧ ret ≠ - ENOENT ∧
    ∃ s2, (if ret =? - EBUSY then without_locks k ret call else mret ret) s1 = (s2, Value 0) ∧
      does s s2 (m', locked ∖ {[k]}).
Proof.
  intros [Hfs Hes] Hfree Hlocked. simpl in Hfs, Hes. destruct (decide (lockers (ch_lib s) k = [])) as [Hl|Hl].
  - destruct (Hfree (ch_lib s) Hfs Hl) as (Hret & Hm & He).
    eexists _, 0. split; [rewrite lib_retry_done by done; rewrite lib_run; by rewrite Hret|].
    split; [done|]. eexists. split; [done|]. split; [done|]. simpl.
    apply shows_unlocked; [done|by rewrite He, exclusive_locks|]. intros k' _. by rewrite He.
  - destruct (lib_agrees call (λ ret, ret = - EBUSY) s) as [_ Hr].
    { intros r (Hf & Hls & _). destruct (Hlocked r) as [? ?]; [by rewrite Hf|by rewrite Hls|done]. }
    destruct (Hr id) as (s1 & ret & Hrun & [Ha1 (Hf1 & _ & He1)] & ->). eexists s1, _. split; [done|]. split; [done|].
    rewrite Z.eqb_refl. destruct (without_locks_ok k (- EBUSY) call s1) as (s2 & -> & Ha2 & Hf2 & Hl2 & He2).
    destruct (Hfree (ch_lib s2)) as (Hret & Hm & He); [by rewrite Hf2, Hf1|done|]. rewrite lib_run, Hret.
    eexists. split; [done|]. split; [simpl; by rewrite Ha2|]. simpl.
    apply shows_unlocked; [done|by rewrite He, exclusive_locks|]. intros k' Hne. by rewrite He, He2, He1.
Qed.

(** No lock is on a file that is not there. *)
Lemma missing_unlocked (r : R) (m : gmap string bytes) (locked : gset string) (k : string) :
  shows r (m, locked) → m !! k = None → locked ∖ {[k]} = locked.
Proof.
  intros [Hf He] Hk. simpl in *. pose proof (lockers_exist r k) as Hl. rewrite Hf in Hl.
  pose proof (exclusive_locks r k (Hl Hk)) as Hno. rewrite He in Hno. apply bool_decide_eq_false_1 in Hno. set_solver.
Qed.

Lemma ceph_unlink_ok (k : string) (currentSize : Z) (m : gmap string bytes) (locked : gset string) s :
  ch_alive s = true → shows (ch_lib s) (m, locked) →
  ∃ s', unlink c k currentSize s = (s', match m !! k with Some _ => Value tt | None => missing_file end) ∧
    does s s' (match m !! k with Some _ => (delete k m, locked ∖ {[k]}) | None => (m, locked) end).
Proof.
  intros Hal Hst. unfold unlink.
  destruct (connected_op_ok (ret ← lib_retry (striper_remove k) id;
    ret ← (if ret =? - EBUSY then without_locks k ret (striper_remove k) else mret ret);
    fail_if ret) s Hal) as (s1 & -> & _ & [Ha1 Hs1]).
  assert (shows (ch_lib s1) (m, locked)) as Hst1 by (by eapply shows_same).
  destruct (m !! k) as [f|] eqn:Hk.
  - destruct (locked_call k (striper_remove k) m (delete k m) locked s1 Hst1)
      as (s2 & ret & Hrun & _ & s3 & Hrun3 & Ha3 & Hf3).
    + intros r Hf Hl. pose proof (run_remove r k) as Hr. rewrite Hf, Hk, Hl in Hr.
      by destruct (ceph_run (striper_remove k) r).
    + intros r Hf Hl. pose proof (run_remove r k) as Hr. rewrite Hf, Hk in Hr.
      destruct (ceph_run (striper_remove k) r). by destruct (lockers r k).
    + exists s3. rewrite (st_bind_value _ _ _ _ _ Hrun), (st_bind_value _ _ _ _ _ Hrun3).
      split; [done|]. split; [by rewrite Ha3|done].
  - destruct (looks (striper_remove k) (λ ret, ret = - ENOENT) (m, locked) s1 Hst1) with (code := @id Z)
      as (s2 & ret & Hrun & [Ha2 Hst2] & ->).
    { intros r [Hf _]. pose proof (run_remove r k) as Hr. simpl in Hf. rewrite Hf, Hk in Hr.
      destruct (ceph_run (striper_remove k) r). naive_solver. }
    exists s2. rewrite (st_bind_value _ _ _ _ _ Hrun). split; [done|]. split; [by rewrite Ha2|done].
Qed.

(** A file that does not exist is created first. *)
Lemma ceph_truncate_missing (k : string) (size : Z) (m : gmap string bytes) (locked : gset string) s :
  0 <= size → shows (ch_lib s) (m, locked) → m !! k = None →
  ∃ s', (_ ← lib (striper_write_full k []); lib (striper_trunc k size)) s = (s', Value 0) ∧
    does s s' (<[k := resize [] size]> m, locked ∖ {[k]}).
Proof.
  intros Hsz Hst Hk. rewrite (missing_unlocked _ m locked k Hst Hk). destruct Hst as [Hf He]. simpl in Hf, He.
  pose proof (run_write_full (ch_lib s) k []) as Hw. rewrite Hf in Hw.
  destruct (ceph_run (striper_write_full k []) (ch_lib s)) as [r ret] eqn:Hrunw.
  destruct Hw as (Hfw & Hlw & Hew); [apply lockers_exist; by rewrite Hf|].
  pose proof (run_trunc r k size Hsz) as Ht. rewrite Hlw, Hfw, lookup_insert_eq in Ht.
  destruct (ceph_run (striper_trunc k size) r) as [r' ret'] eqn:Hrunt. destruct Ht as (-> & Hft & Het).
  exists (mk_CephHelper r' (m_connected s) (ch_alive s)). split.
  - rewrite (st_bind_value _ _ _ _ _ (lib_run _ s)). rewrite lib_run, Hrunw. simpl. by rewrite Hrunt.
  - split; [done|]. split; simpl; [by rewrite Hft, insert_insert_eq|]. intros k'. by rewrite Het, Hew.
Qed.

Lemma ceph_truncate_ok (k : string) (size currentSize : Z) (m : gmap string bytes) (locked : gset string) s :
  ch_alive s = true → shows (ch_lib s) (m, locked) → 0 <= size →
  ∃ s', truncate c k size currentSize s = (s', Value tt) ∧
    does s s' (<[k := resize (default [] (m !! k)) size]> m, locked ∖ {[k]}).
Proof.
  intros Hal Hst Hsz. unfold truncate.
  destruct (connected_op_ok (ret ← lib_retry (striper_trunc k size) id;
    ret ← (if ret =? - ENOENT
           then _ ← lib (striper_write_full k []); lib (striper_trunc k size)
           else if ret =? - EBUSY then without_locks k ret (striper_trunc k size) else mret ret);
    fail_if ret) s Hal) as (s1 & -> & _ & [Ha1 Hs1]).
  assert (shows (ch_lib s1) (m, locked)) as Hst1 by (by eapply shows_same).
  destruct (m !! k) as [f|] eqn:Hk; simpl.
  - destruct (locked_call k (striper_trunc k size) m (<[k := resize f size]> m) locked s1 Hst1)
      as (s2 & ret & Hrun & Hne & s3 & Hrun3 & Ha3 & Hf3).
    + intros r Hf Hl. pose proof (run_trunc r k size Hsz) as Hr. rewrite Hf, Hk, Hl in Hr.
      by destruct (ceph_run (striper_trunc k size) r).
    + intros r Hf Hl. pose proof (run_trunc r k size Hsz) as Hr. rewrite Hf, Hk in Hr.
      destruct (ceph_run (striper_trunc k size) r). by destruct (lockers r k).
    + exists s3. rewrite (st_bind_value _ _ _ _ _ Hrun). rewrite (proj2 (Z.eqb_neq ret (- ENOENT))) by done.
      rewrite (st_bind_value _ _ _ _ _ Hrun3). split; [done|]. split; [by rewrite Ha3|done].
  - destruct (looks (striper_trunc k size) (λ ret, ret = - ENOENT) (m, locked) s1 Hst1) with (code := @id Z)
      as (s2 & ret & Hrun & [Ha2 Hst2] & ->).
    { intros r [Hf _]. pose proof (run_trunc r k size Hsz) as Hr. simpl in Hf. rewrite Hf, Hk in Hr.
      destruct (ceph_run (striper_trunc k size) r). naive_solver. }
    rewrite (st_bind_value _ _ _ _ _ Hrun), Z.eqb_refl.
    destruct (ceph_truncate_missing k size m locked s2 Hsz Hst2 Hk) as (s3 & Hrun3 & Ha3 & Hf3).
    exists s3. rewrite (st_bind_value _ _ _ _ _ Hrun3). split; [done|]. split; [by rewrite Ha3, Ha2|done].
Qed.

Lemma ceph_op_ok (op : ceph_op) (st : file_state) s :
  ch_alive s = true → shows (ch_lib s) st → op_in_range op →
  ∃ s', exec c op s = (s', (file_op st op).2) ∧ does s s' (file_op st op).1.
Proof.
  intros Hal Hst Hop. destruct st as [m locked], op as [k off n|k off b|k n cur|k cur]; simpl in *.
  - destruct (ceph_read_ok k off n m locked s) as (s1 & Hr & Hd); [tauto..|]. exists s1. split; [|done].
    unfold mbind, ST_bind. rewrite Hr. destruct (m !! k); [|done]. by case_bool_decide.
  - destruct (ceph_write_ok k off b m locked s) as (s1 & Hr & Hd); [tauto..|]. exists s1.
    unfold mbind, ST_bind. rewrite Hr. by case_bool_decide.
  - destruct (ceph_truncate_ok k n cur m locked s) as (s1 & Hr & Hd); [done..|]. exists s1. split; [|done].
    by rewrite (st_bind_value _ _ _ _ _ Hr).
  - destruct (ceph_unlink_ok k cur m locked s) as (s1 & Hr & Hd); [done..|]. exists s1.
    unfold mbind, ST_bind. rewrite Hr. by destruct (m !! k).
Qed.
End laws.

(** C27: on a cluster that is up, any sequence of reads, writes of at least one
    byte, truncations and unlinks returns what the same sequence does to a map
    of files, and leaves that map; whether the helper was connected before or
    not, whether a truncated file existed or not, and whether clients left
    locks or not.  A lock keeps a truncation or an unlink from nothing: it is
    removed.  An exclusive one keeps reads and writes out with EBUSY until
    then. *)
Theorem ceph_files_refine {R : Type} `{CL : CephLaws R} (c : ceph_config) (ops : list ceph_op)
    (s : CephHelper R) (st : file_state) :
  ch_alive s = true → shows (ch_lib s) st → Forall op_in_range ops →
  ∃ s', exec_all c ops s = (s', (file_ops st ops).2) ∧ shows (ch_lib s') (file_ops st ops).1.
Proof.
  revert s st. induction ops as [|op ops IH]; intros s st Hal Hst Hops; [by exists s|].
  apply Forall_cons in Hops as [Hop Hops].
  destruct (ceph_op_ok c op st s Hal Hst Hop) as (s1 & Hrun & Ha & Hst1).
  destruct (file_op st op) as [st1 r] eqn:Hop1. simpl in *.
  destruct (IH s1 st1) as (s2 & Hrun2 & Hst2); [by rewrite Ha|done..|].
  rewrite Hrun, Hrun2, Hop1. exists s2. by destruct (file_ops st1 ops) as [m' rs].
Qed.

(** [setxattr] with [create] takes every failure to read the attribute as its
    absence: after an error that is not retried, such as EPERM, an attribute
    that exists is overwritten. *)
Lemma ceph_create_overwrites {R : Type} `{Ceph R} (c : ceph_config) (k name value old : string) (e : Z)
    (r1 r2 : R) (s : CephHelper R) :
  ch_alive s = true → m_connected s = true → 0 < e → CephRetryCondition (- e) = true →
  ceph_run (striper_getxattr k name) (ch_lib s) = (r1, (- e, old)) →
  ceph_run (striper_setxattr k name value) r1 = (r2, 0) →
  setxattr c k name value true false s = (mk_CephHelper r2 true true, Value tt).
Proof.
  intros Hal Hcon He Hcond Hget Hset. destruct s as [r b a]. simpl in *. subst.
  unfold setxattr, connected_op, connect.
  rewrite (st_bind_value _ _ (mk_CephHelper r true true) (mk_CephHelper r true true) tt) by done.
  rewrite (st_bind_value lock_self _ (mk_CephHelper r true true) (mk_CephHelper r true true) tt) by done. simpl.
  rewrite (st_bind_value _ _ _ (mk_CephHelper r1 true true) tt).
  - rewrite (st_bind_value _ _ _ (mk_CephHelper r2 true true) 0); [done|].
    apply retry_done; [|done]. unfold lib. simpl. by rewrite Hset.
  - rewrite (st_bind_value _ _ _ (mk_CephHelper r1 true true) (- e, old)).
    + by rewrite (proj2 (Z.leb_gt 0 (- e))) by lia.
    + apply retry_done; [|done]. unfold lib. simpl. by rewrite Hget.
Qed.

(** ** A cluster in memory *)

(** Contents, lockers, and whether the lock is exclusive. *)
Abbreviation ceph_memory := (gmap string (bytes * list locker_t * bool)).
Definition no_file : bytes * list locker_t * bool := ([], [], false).
Definition lockers_of (m : ceph_memory) (k : string) : list locker_t := (default no_file (m !! k)).1.2.
Definition contents_of (m : ceph_memory) (k : string) : bytes := (default no_file (m !! k)).1.1.
Definition exclusive_of (m : ceph_memory) (k : string) : bool :=
  (default no_file (m !! k)).2 && negb (bool_decide (lockers_of m k = [])).

(** The file of a first object. *)
Definition first_object_file (oid : string) : string :=
  String.substring 0 (String.length oid - String.length CEPH_STRIPER_FIRST_OBJECT_SUFFIX) oid.

Lemma first_object_file_append (k : string) :
  first_object_file (String.append k CEPH_STRIPER_FIRST_OBJECT_SUFFIX) = k.
Proof.
  unfold first_object_file. generalize CEPH_STRIPER_FIRST_OBJECT_SUFFIX. intros t.
  assert (∀ k, String.length (String.append k t) = (String.length k + String.length t)%nat) as Hlen.
  { clear k. intros k. induction k as [|a k IH]; [done|]. change (S (String.length (String.append k t)) =
      S (String.length k + String.length t)). by rewrite IH. }
  rewrite Hlen, Nat.add_sub. clear Hlen. induction k as [|a k IH]; [by destruct t|].
  change (String a (String.substring 0 (String.length k) (String.append k t)) = String a k). by rewrite IH.
Qed.

(** The cluster checks and changes one file. *)
Definition on_unlocked (k : string) (m : ceph_memory) (change : bytes → ceph_memory) : ceph_memory * Z :=
  match m !! k with
  | None => (m, - ENOENT)
  | Some (f, [], _) => (change f, 0)
  | Some (f, _, _) => (m, - EBUSY)
  end.

Definition memory_ceph_run {A} (call : ceph_call A) (m : ceph_memory) : ceph_memory * A :=
  match call in ceph_call A return ceph_memory * A with
  | cluster_init2 _ _ | cluster_conf_set _ _ | cluster_connect | cluster_ioctx_create _
  | ioctx_pool_required_alignment2 | striper_create => (m, 0)
  | cluster_shutdown | ioctx_close | striper_set_object_layout_stripe_unit _
  | striper_set_object_layout_stripe_count _ | striper_set_object_layout_object_size _ => (m, tt)
  | ioctx_list_lockers oid _ => (m, (0, lockers_of m (first_object_file oid)))
  | ioctx_break_lock oid _ _ _ =>
      let k := first_object_file oid in (<[k := (contents_of m k, tail (lockers_of m k), false)]> m, 0)
  | striper_read k len off =>
      (m, match m !! k with
          | Some (f, _, _) =>
              if exclusive_of m k then (- EBUSY, []) else (chainLength (pread f off len), pread f off len)
          | None => (- ENOENT, [])
          end)
  | striper_write k data _ off =>
      if exclusive_of m k then (m, - EBUSY)
      else (<[k := (pwrite (contents_of m k) off data, lockers_of m k, false)]> m, 0)
  | striper_write_full k data => (<[k := (data, lockers_of m k, false)]> m, 0)
  | striper_trunc k size => on_unlocked k m (λ f, <[k := (resize f size, [], false)]> m)
  | striper_remove k => on_unlocked k m (λ f, delete k m)
  | striper_getxattr _ _ => (m, (- ENODATA, EmptyString))
  | striper_setxattr _ _ _ => (m, 0)
  | striper_rmxattr _ _ => (m, 0)
  | striper_getxattrs _ => (m, (0, []))
  end.

#[export] Instance memory_ceph : Ceph ceph_memory := {| ceph_run := @memory_ceph_run |}.

(** One entry is replaced by one without an exclusive lock. *)
Lemma exclusive_insert (m : ceph_memory) (k k' : string) (f : bytes) (ls : list locker_t) :
  exclusive_of (<[k := (f, ls, false)]> m) k' = if decide (k = k') then false else exclusive_of m k'.
Proof.
  unfold exclusive_of, lockers_of. case_decide as Hk.
  - subst. by rewrite lookup_insert_eq.
  - by rewrite lookup_insert_ne.
Qed.
Lemma exclusive_unlocked (m : ceph_memory) (k : string) : lockers_of m k = [] → exclusive_of m k = false.
Proof. unfold exclusive_of. intros ->. by rewrite andb_false_r. Qed.

Lemma files_lookup (m : ceph_memory) (k : string) :
  default [] (((λ e : bytes * list locker_t * bool, e.1.1) <$> m) !! k) = contents_of m k.
Proof. unfold contents_of. rewrite lookup_fmap. by destruct (m !! k). Qed.

#[export] Instance memory_ceph_laws : CephLaws ceph_memory.
Proof.
  refine {| files := λ m, (λ e : bytes * list locker_t * bool, e.1.1) <$> m; lockers := lockers_of;
            exclusive := exclusive_of |}; simpl.
  - intros m k Hk. unfold lockers_of. rewrite lookup_fmap in Hk. by destruct (m !! k).
  - apply exclusive_unlocked.
  - intros A m call ok. destruct call; intros; simplify_eq/=; done.
  - intros m k. by rewrite first_object_file_append.
  - intros m k l ls Hl. rewrite first_object_file_append. split; [done|].
    assert (is_Some (m !! k)) as [e He].
    { unfold lockers_of in Hl. destruct (m !! k); [eauto|done]. }
    split_and!.
    + rewrite fmap_insert. simpl. apply insert_id. rewrite lookup_fmap. unfold contents_of. by rewrite He.
    + unfold lockers_of in *. rewrite lookup_insert_eq. simpl. by rewrite Hl.
    + intros k' Hne. by rewrite exclusive_insert, decide_False.
  - intros m k n off _ _. rewrite lookup_fmap. destruct (m !! k) as [[[f ls] b]|]; simpl; [|done].
    by destruct (exclusive_of m k).
  - intros m k b off _ _. destruct (exclusive_of m k) eqn:He; [done|].
    rewrite files_lookup, fmap_insert. split_and!; [done..|].
    intros k'. rewrite exclusive_insert. case_decide; [by subst|done].
  - intros m k b Hl. rewrite fmap_insert. split_and!; [done| |].
    + unfold lockers_of at 1. by rewrite lookup_insert_eq.
    + intros k'. rewrite exclusive_insert. case_decide; [|done]. subst. by rewrite exclusive_unlocked.
  - intros m k n _. unfold on_unlocked, lockers_of at 1. rewrite lookup_fmap.
    destruct (m !! k) as [[[f []] b]|] eqn:Hk; simpl; try done. rewrite fmap_insert. split_and!; [done..|].
    intros k'. rewrite exclusive_insert. case_decide; [|done]. subst.
    symmetry. apply exclusive_unlocked. unfold lockers_of. by rewrite Hk.
  - intros m k. unfold on_unlocked, lockers_of at 1. rewrite lookup_fmap.
    destruct (m !! k) as [[[f []] b]|] eqn:Hk; simpl; try done. rewrite fmap_delete. split_and!; [done..|].
    intros k'. destruct (decide (k = k')) as [<-|Hne].
    + rewrite !exclusive_unlocked; [done|unfold lockers_of; by rewrite ?Hk, ?lookup_delete_eq..].
    + unfold exclusive_of, lockers_of. by rewrite lookup_delete_ne.
Defined.

(** Clients died with a shared lock on [a] and an exclusive one on [d]; [b] does
    not exist. *)
Definition sample_cluster : ceph_memory :=
  {[ "a"%string := ([x61; x62; x63], [mk_locker_t "client.1" "cookie"], false);
     "d"%string := ([x64], [mk_locker_t "client.2" "cookie"], true) ]}.
Definition sample_config : ceph_config := mk_ceph_config "cluster" "host" "pool" "user" "key".
Definition sample_ops : list ceph_op :=
  [op_read "a" 0 1; op_truncate "a" 2 3; op_write "b" 1 [x62]; op_read "b" 0 4; op_truncate "c" 1 0;
   op_unlink "a" 2; op_read "a" 0 1; op_write "d" 0 [x61]; op_truncate "d" 2 1; op_read "d" 0 4].
Definition sample_state : file_state := ({[ "a" := [x61; x62; x63]; "d" := [x64] ]}, {[ "d"%string ]}).

Lemma ceph_files_refine_witness :
  (file_ops sample_state sample_ops).2 =
    [Value (r_data [x61]); Value r_unit; Value (r_size 1); Value (r_data [x00; x62]); Value r_unit;
     Value r_unit; missing_file; busy_file; Value r_unit; Value (r_data [x64; x00])] ∧
  ∃ s', exec_all sample_config sample_ops (mk_CephHelper sample_cluster false true)
        = (s', (file_ops sample_state sample_ops).2) ∧
    shows (ch_lib s') (file_ops sample_state sample_ops).1.
Proof.
  split; [vm_compute; reflexivity|].
  apply (ceph_files_refine sample_config sample_ops (mk_CephHelper sample_cluster false true) sample_state).
  - done.
  - split; [vm_compute; reflexivity|]. intros k. unfold exclusive, sample_cluster, sample_state. simpl.
    unfold exclusive_of, lockers_of. destruct (decide (k = "d"%string)) as [->|Hd]; [vm_compute; reflexivity|].
    rewrite (bool_decide_eq_false_2 (k ∈ _)) by set_solver. rewrite lookup_insert.
    case_decide; [done|]. by rewrite lookup_singleton_ne.
  - repeat constructor; simpl; done || lia.
Defined.
