(* ===== verification/SwiftHelper.v ===== *)
(** * The Swift storage (src/src/swiftHelper.cc, src/src/swiftHelper.h)

    [SwiftHelper] implements the key-value interface, without random access, by
    calls of the Swift SDK.  The SDK is the class [Swift]; [SwiftLaws] states
    the documented behaviour that the helper relies on, and the instance
    [swift_laws] shows that the helper keeps the promises of the interface, so
    that the theorems about block-stored files hold for Swift: with failures that
    pass within the retries, files are written and read back.  A deletion that
    is retried may have lost its keys: see [swift_retried_delete_lost]. *)

From stdpp Require Import base numbers list gmap strings.
From Stdlib Require Import ZArith Lia Strings.Byte.
From S2P Require Import Prelude StdStrings Storage KeyValueHelper KeyValueAdapter KeyValueSpec.
Local Open Scope Z_scope.

(** ** Statuses and errors *)

(** [Poco::Net::HTTPResponse::HTTPStatus] *)
Definition HTTP_UNAUTHORIZED : Z := 401.
Definition HTTP_NOT_FOUND : Z := 404.
Definition HTTP_REQUEST_TIMEOUT : Z := 408.
Definition HTTP_GONE : Z := 410.
Definition HTTP_LENGTH_REQUIRED : Z := 411.
Definition HTTP_REQUESTED_RANGE_NOT_SATISFIABLE : Z := 416.
Definition HTTP_INTERNAL_SERVER_ERROR : Z := 500.
Definition HTTP_BAD_GATEWAY : Z := 502.
Definition HTTP_SERVICE_UNAVAILABLE : Z := 503.
Definition HTTP_GATEWAY_TIMEOUT : Z := 504.

(** [Swift::SwiftError::SWIFT_OK] *)
Definition SWIFT_OK : Z := 0.

Definition ETIMEDOUT : Z := 110.

Definition errors : list (Z * Z) :=
  [(HTTP_NOT_FOUND, ENOENT); (HTTP_REQUESTED_RANGE_NOT_SATISFIABLE, ENOENT);
   (HTTP_REQUEST_TIMEOUT, ETIMEDOUT); (HTTP_LENGTH_REQUIRED, EINVAL); (HTTP_UNAUTHORIZED, EACCES)].

Definition SWIFT_RETRY_ERRORS : list Z :=
  [HTTP_REQUEST_TIMEOUT; HTTP_GONE; HTTP_INTERNAL_SERVER_ERROR; HTTP_BAD_GATEWAY;
   HTTP_SERVICE_UNAVAILABLE; HTTP_GATEWAY_TIMEOUT].

(** A [SwiftResult]: the status of the response, the code of the error and the
    payload. *)
Record SwiftResult (A : Type) := mk_SwiftResult {
  sr_status : Z;
  sr_error : Z;
  sr_payload : A
}.
Arguments mk_SwiftResult {A} _ _ _.
Arguments sr_status {A} _.
Arguments sr_error {A} _.
Arguments sr_payload {A} _.

Definition getReturnCode {A} (outcome : SwiftResult A) : error_code :=
  let error := match list_find (λ e, e.1 = sr_status outcome) errors with
               | Some (_, e) => e.2
               | None => EIO
               end in
  mk_error_code error system_category.

Definition throwOnError {A} (outcome : SwiftResult A) : Try unit :=
  if sr_error outcome =? SWIFT_OK then Value tt
  else Exception (system_error (getReturnCode outcome)).

(** The status of the response is compared with a code of the SDK. *)
Definition SWIFTRetryCondition {A} (outcome : SwiftResult A) : bool :=
  let statusCode := sr_status outcome in
  (statusCode =? SWIFT_OK) || negb (bool_decide (statusCode ∈ SWIFT_RETRY_ERRORS)).

(** ** The SDK *)

Record AuthenticationInfo := mk_AuthenticationInfo {
  ai_username : string; ai_password : string; ai_authUrl : string; ai_tenantName : string
}.

(** [moved_from] is what the vector of keys holds after it was passed to
    [swiftDeleteObjects] as an rvalue. *)
Class Swift (W : Type) := {
  authenticate : AuthenticationInfo → W → W * SwiftResult unit;
  swiftGetObjectContent : string → string → string → W → W * SwiftResult bytes;
  swiftCreateReplaceObject : string → string → bytes → W → W * SwiftResult unit;
  swiftDeleteObjects : string → list string → W → W * SwiftResult unit;
  moved_from : list string → list string
}.

(** The status says that there is no object, or no byte of it in the range. *)
Definition not_found (status : Z) : Prop :=
  status = HTTP_NOT_FOUND ∨ status = HTTP_REQUESTED_RANGE_NOT_SATISFIABLE.

(** What the service documents, for the objects of one container. *)
Class SwiftLaws (W : Type) `{Swift W} (container : string) := {
  container_objects : W → gmap string bytes;
  authenticate_objects : ∀ s i, container_objects (authenticate i s).1 = container_objects s;
  get_objects : ∀ s k r, container_objects (swiftGetObjectContent container k r s).1 = container_objects s;
  get_success : ∀ s k off n,
    0 <= off → 0 < n → off + n <= OFF_MAX →
    sr_error (swiftGetObjectContent container k (rangeToString off (off + n - 1)) s).2 = SWIFT_OK →
    sr_payload (swiftGetObjectContent container k (rangeToString off (off + n - 1)) s).2
    = pread (default [] (container_objects s !! k)) off n;
  get_missing : ∀ s k off n,
    0 <= off → 0 < n → off + n <= OFF_MAX →
    sr_error (swiftGetObjectContent container k (rangeToString off (off + n - 1)) s).2 ≠ SWIFT_OK →
    not_found (sr_status (swiftGetObjectContent container k (rangeToString off (off + n - 1)) s).2) →
    pread (default [] (container_objects s !! k)) off n = [];
  create_success : ∀ s k b,
    sr_error (swiftCreateReplaceObject container k b s).2 = SWIFT_OK →
    container_objects (swiftCreateReplaceObject container k b s).1 !! k = Some b;
  create_others : ∀ s k b k',
    k ≠ k' → container_objects (swiftCreateReplaceObject container k b s).1 !! k' = container_objects s !! k';
  delete_success : ∀ s ks k,
    sr_error (swiftDeleteObjects container ks s).2 = SWIFT_OK → k ∈ ks →
    container_objects (swiftDeleteObjects container ks s).1 !! k = None;
  delete_others : ∀ s ks k,
    k ∉ ks → container_objects (swiftDeleteObjects container ks s).1 !! k = container_objects s !! k;
  moved_from_keys : ∀ ks k, k ∈ moved_from ks → k ∈ ks
}.

(** Authentication never fails with a status that the adapter takes for a
    missing block. *)
Class SwiftAccountExists (W : Type) `{Swift W} := {
  authenticate_exists : ∀ s i,
    sr_error (authenticate i s).2 ≠ SWIFT_OK → ¬ not_found (sr_status (authenticate i s).2)
}.

(** Keys survive the call, or a deletion is not retried. *)
Class SwiftDeletesOnce (W : Type) `{Swift W} := {
  delete_once : (∀ ks, moved_from ks = ks) ∨
    (∀ s c ks, SWIFTRetryCondition (swiftDeleteObjects c ks s).2 = true)
}.

(** ** SwiftHelper *)

(** The SDK and whether [m_account] is set. *)
Record swift_state (W : Type) := mk_swift_state { sw_sdk : W; m_account : bool }.
Arguments mk_swift_state {W} _ _.
Arguments sw_sdk {W} _.
Arguments m_account {W} _.

Section swift.
Context {W : Type} `{Swift W} (m_authInfo : AuthenticationInfo) (m_containerName : string).

Definition sdk {A} (call : W → W * SwiftResult A) : ST (swift_state W) (SwiftResult A) := λ s,
  let '(w, r) := call (sw_sdk s) in (mk_swift_state w (m_account s), Value r).
Definition sdk_retry {A} (call : W → W * SwiftResult A) : ST (swift_state W) (SwiftResult A) :=
  retry (sdk call) SWIFTRetryCondition IO_RETRY_COUNT.

Definition set_account : ST (swift_state W) unit := λ s, (mk_swift_state (sw_sdk s) true, Value tt).

Definition getAccount : ST (swift_state W) unit := λ s,
  if m_account s then (s, Value tt)
  else (authResponse ← sdk (authenticate m_authInfo);
        _ ← st_lift (throwOnError authResponse);
        set_account) s.

(** The payload is copied into a buffer of [size] bytes. *)
Definition get_with_account (key : string) (offset size : Z) : ST (swift_state W) bytes :=
  getResponse ← sdk_retry (swiftGetObjectContent m_containerName key
                             (rangeToString offset (i64 (u64 (offset + size - 1)))));
  _ ← st_lift (throwOnError getResponse);
  if size <? chainLength (sr_payload getResponse) then st_throw undefined_behaviour
  else mret (sr_payload getResponse).
Definition swift_getObject (key : string) (offset size : Z) : ST (swift_state W) bytes :=
  getAccount ≫= λ _, get_with_account key offset size.

(** The offset is asserted to be 0 and not used. *)
Definition put_with_account (key : string) (buf : bytes) : ST (swift_state W) Z :=
  createResponse ← sdk_retry (swiftCreateReplaceObject m_containerName key buf);
  _ ← st_lift (throwOnError createResponse);
  mret (chainLength buf).
Definition swift_putObject (key : string) (buf : bytes) (offset : Z) : ST (swift_state W) Z :=
  getAccount ≫= λ _, put_with_account key buf.

(** The retried function moves [keyBatch] at every call: the first call has the
    keys, the next ones what is left of them. *)
Definition delete_call : ST (swift_state W * list string) (SwiftResult unit) := λ s,
  let '(st, r) := sdk (swiftDeleteObjects m_containerName s.2) s.1 in ((st, moved_from s.2), r).
Definition delete_retry (keyBatch : list string) : ST (swift_state W) (SwiftResult unit) := λ s,
  let '(s', r) := retry delete_call SWIFTRetryCondition IO_RETRY_COUNT (s, keyBatch) in (s'.1, r).

Fixpoint delete_loop (batches : list (list string)) : ST (swift_state W) unit :=
  match batches with
  | [] => mret tt
  | keyBatch :: batches =>
      deleteResponse ← delete_retry keyBatch;
      _ ← st_lift (throwOnError deleteResponse);
      delete_loop batches
  end.
Definition swift_deleteObjects (keys : list string) : ST (swift_state W) unit :=
  getAccount ≫= λ _, delete_loop (delete_batches keys).

Definition swift_helper : KeyValueHelper (swift_state W) := {|
  hasRandomAccess := false;
  getObject := swift_getObject;
  putObject := swift_putObject;
  deleteObjects := swift_deleteObjects
|}.
End swift.

(** ** The promises of the interface *)

Section laws.
Context {W : Type} (m_authInfo : AuthenticationInfo) (m_containerName : string)
  `{SL : SwiftLaws W m_containerName}.
Implicit Types (s : swift_state W).

Definition state_objects s : gmap string bytes := container_objects (sw_sdk s).

Lemma enoent_status {A} (r : SwiftResult A) :
  is_enoent (system_error (getReturnCode r)) = true → not_found (sr_status r).
Proof.
  unfold getReturnCode, not_found. simpl. intros H0.
  repeat (case_decide; [by auto|simpl in H0]). done.
Qed.

Lemma throwOnError_cases {A} (r : SwiftResult A) :
  (sr_error r = SWIFT_OK ∧ throwOnError r = Value tt) ∨
  (sr_error r ≠ SWIFT_OK ∧ throwOnError r = Exception (system_error (getReturnCode r))).
Proof. unfold throwOnError. destruct (Z.eqb_spec (sr_error r) SWIFT_OK); auto. Qed.

(** Every operation gets the account first: it fails there and touches
    nothing, or it goes on with the same objects. *)
Lemma account_first {A} (k : ST (swift_state W) A) s :
  (∃ s' e, (getAccount m_authInfo ≫= λ _, k) s = (s', Exception e) ∧ state_objects s' = state_objects s ∧
           (SwiftAccountExists W → is_enoent e = false)) ∨
  (∃ s', (getAccount m_authInfo ≫= λ _, k) s = k s' ∧ state_objects s' = state_objects s).
Proof.
  unfold getAccount at 1 2, mbind, ST_bind, sdk. destruct (m_account s); [right; by exists s|].
  pose proof (authenticate_objects (sw_sdk s) m_authInfo) as Ho.
  destruct (authenticate m_authInfo (sw_sdk s)) as [w r] eqn:Ha. simpl in Ho.
  destruct (throwOnError_cases r) as [[Hok Hr]|[Hok Hr]]; unfold st_lift, set_account; rewrite Hr.
  - right. by eexists.
  - left. eexists _, _. split; [done|]. split; [done|]. intros Hex. apply not_true_iff_false.
    intros He%enoent_status. apply (authenticate_exists (sw_sdk s) m_authInfo); by rewrite Ha.
Qed.

Lemma sdk_retry_ind {A} (call : W → W * SwiftResult A) (P : W → Prop) (Q : W → SwiftResult A → Prop) s :
  (∀ w, P w → P (call w).1 ∧ Q (call w).1 (call w).2) → P (sw_sdk s) →
  ∃ s' r, sdk_retry call s = (s', Value r) ∧ P (sw_sdk s') ∧ Q (sw_sdk s') r.
Proof.
  intros Hcall. apply (retry_ind _ _ _ (λ s, P (sw_sdk s)) (λ s r, Q (sw_sdk s) r)).
  intros s0 HP. destruct (Hcall (sw_sdk s0) HP) as [HP' HQ']. unfold sdk.
  destruct (call (sw_sdk s0)) as [w r]. eauto.
Qed.

Lemma swift_getObject_spec `{!SwiftAccountExists W} s (k : string) (off n : Z) :
  state_objects (swift_getObject m_authInfo m_containerName k off n s).1 = state_objects s ∧
  (0 <= off → 0 < n → off + n <= OFF_MAX →
   match (swift_getObject m_authInfo m_containerName k off n s).2 with
   | Value b => b = pread (default [] (state_objects s !! k)) off n
   | Exception e => is_enoent e = true → pread (default [] (state_objects s !! k)) off n = []
   end).
Proof.
  unfold swift_getObject.
  destruct (account_first (get_with_account m_containerName k off n) s)
    as [(s' & e & -> & Ho & He)|(s1 & -> & <-)].
  { split; [done|]. intros _ _ _ Hno. simpl in Hno. by rewrite (He _) in Hno. }
  unfold get_with_account. set (r := rangeToString off (i64 (u64 (off + n - 1)))).
  destruct (sdk_retry_ind (swiftGetObjectContent m_containerName k r)
    (λ w, container_objects w = state_objects s1)
    (λ _ o, 0 <= off → 0 < n → off + n <= OFF_MAX →
       (sr_error o = SWIFT_OK → sr_payload o = pread (default [] (state_objects s1 !! k)) off n) ∧
       (sr_error o ≠ SWIFT_OK → not_found (sr_status o) →
        pread (default [] (state_objects s1 !! k)) off n = [])) s1)
    as (s2 & o & Hrun & Ho2 & Hq); [|done|].
  { intros w Hw. split; [by rewrite get_objects|]. intros Hoff Hn Hmax. rewrite <-Hw.
    assert (r = rangeToString off (off + n - 1)) as ->.
    { unfold r, OFF_MAX in *. by rewrite u64_small, i64_small by lia. }
    split; [by apply get_success|by apply get_missing]. }
  rewrite (st_bind_value _ _ _ _ _ Hrun). clear Hrun.
  destruct (throwOnError_cases o) as [[Hok ->]|[Hok ->]].
  - rewrite (st_bind_value (st_lift (Value tt)) _ s2 s2 tt eq_refl).
    destruct (Z.ltb_spec n (chainLength (sr_payload o))) as [Hlt|Hge]; simpl; (split; [done|]);
      intros Hoff Hn Hmax; [done|by apply Hq].
  - rewrite (st_bind_exception (st_lift _) _ s2 s2 _ eq_refl). simpl. split; [done|].
    intros Hoff Hn Hmax Hno. by apply Hq, (enoent_status o).
Qed.

Lemma swift_putObject_spec s (k : string) (b : bytes) (off : Z) :
  (∀ k', k ≠ k' →
     state_objects (swift_putObject m_authInfo m_containerName k b off s).1 !! k' = state_objects s !! k') ∧
  (∀ n, (swift_putObject m_authInfo m_containerName k b off s).2 = Value n →
        state_objects (swift_putObject m_authInfo m_containerName k b off s).1 !! k = Some b).
Proof.
  unfold swift_putObject.
  destruct (account_first (put_with_account m_containerName k b) s) as [(s' & e & -> & <- & _)|(s1 & -> & <-)];
    [done|]. unfold put_with_account.
  destruct (sdk_retry_ind (swiftCreateReplaceObject m_containerName k b)
    (λ w, ∀ k', k ≠ k' → container_objects w !! k' = state_objects s1 !! k')
    (λ w o, sr_error o = SWIFT_OK → container_objects w !! k = Some b) s1)
    as (s2 & o & Hrun & Hobj & Hq); [|done|].
  { intros w Hw. split; [|apply create_success]. intros k' Hne. rewrite create_others by done. by apply Hw. }
  rewrite (st_bind_value _ _ _ _ _ Hrun). clear Hrun.
  destruct (throwOnError_cases o) as [[Hok ->]|[Hok ->]]; simpl; split; try done.
  intros _ _. by apply Hq.
Qed.

Lemma delete_retry_others (batch : list string) s (k : string) :
  k ∉ batch → ∃ s' r, delete_retry m_containerName batch s = (s', Value r) ∧
    state_objects s' !! k = state_objects s !! k.
Proof.
  intros Hk. unfold delete_retry.
  destruct (retry_ind (delete_call m_containerName) SWIFTRetryCondition IO_RETRY_COUNT
    (λ p, (k ∉ p.2) ∧ state_objects p.1 !! k = state_objects s !! k) (λ _ _, True) (s, batch))
    as ([s' left] & r & -> & [_ Ho] & _); [|done|by eauto].
  intros [s0 ks] [Hks Hs0]. unfold delete_call, sdk. simpl in *.
  pose proof (delete_others (sw_sdk s0) ks k Hks) as Hd.
  destruct (swiftDeleteObjects m_containerName ks (sw_sdk s0)) as [w r]. simpl in Hd.
  eexists _, _. split; [done|]. split; [|done]. split; [by intros ?%moved_from_keys|]. simpl.
  unfold state_objects in *. simpl. by rewrite Hd.
Qed.

Lemma delete_retry_value `{!SwiftDeletesOnce W} (batch : list string) s (k : string) :
  k ∈ batch → ∃ s' r, delete_retry m_containerName batch s = (s', Value r) ∧
    (sr_error r = SWIFT_OK → state_objects s' !! k = None).
Proof.
  intros Hk. unfold delete_retry.
  assert (∀ s0, ∃ s1 r, delete_call m_containerName (s0, batch) = ((s1, moved_from batch), Value r) ∧
    (sr_error r = SWIFT_OK → state_objects s1 !! k = None) ∧
    r = (swiftDeleteObjects m_containerName batch (sw_sdk s0)).2) as Hcall.
  { intros s0. unfold delete_call, sdk. simpl. pose proof (delete_success (sw_sdk s0) batch k) as Hd.
    destruct (swiftDeleteObjects m_containerName batch (sw_sdk s0)) as [w r]. simpl in Hd. eauto 10. }
  destruct delete_once as [Hmoved|Hnever].
  - destruct (retry_ind (delete_call m_containerName) SWIFTRetryCondition IO_RETRY_COUNT
      (λ p, p.2 = batch) (λ p r, sr_error r = SWIFT_OK → state_objects p.1 !! k = None) (s, batch))
      as ([s' left] & r & -> & _ & Hr); [|done|by eauto].
    intros [s0 ks] Heq. simpl in Heq. subst ks. destruct (Hcall s0) as (s1 & r & -> & Hr & _).
    eexists _, _. split; [done|]. split; [apply Hmoved|done].
  - destruct (Hcall s) as (s1 & r & Hc & Hr & Heq). unfold retry.
    rewrite (st_bind_value _ _ _ _ _ Hc).
    assert (SWIFTRetryCondition r = true) as Hcond by (rewrite Heq; apply Hnever).
    assert (retry_loop (delete_call m_containerName) SWIFTRetryCondition (Z.to_nat IO_RETRY_COUNT) r
      (s1, moved_from batch) = ((s1, moved_from batch), Value r)) as ->
      by (destruct (Z.to_nat IO_RETRY_COUNT); simpl; [done|by rewrite Hcond]).
    by eauto.
Qed.

Lemma swift_delete_loop_others (batches : list (list string)) s (k : string) :
  (∀ batch, batch ∈ batches → k ∉ batch) →
  state_objects (delete_loop m_containerName batches s).1 !! k = state_objects s !! k.
Proof.
  revert s. induction batches as [|batch batches IH]; intros s Hk; simpl; [done|].
  destruct (delete_retry_others batch s k) as (s1 & r & Hrun & <-); [apply Hk; left|].
  rewrite (st_bind_value _ _ _ _ _ Hrun). destruct (throwOnError_cases r) as [[_ ->]|[_ ->]]; [|done].
  rewrite (st_bind_value (st_lift (Value tt)) _ s1 s1 tt eq_refl). apply IH. intros b Hb. apply Hk. by right.
Qed.

Lemma swift_delete_loop_one `{!SwiftDeletesOnce W} (batch : list string) s (k : string) (u : unit) :
  (delete_loop m_containerName [batch] s).2 = Value u → k ∈ batch →
  state_objects (delete_loop m_containerName [batch] s).1 !! k = None.
Proof.
  intros Hu Hk. revert Hu. simpl. destruct (delete_retry_value batch s k Hk) as (s1 & r & Hrun & Hr).
  rewrite (st_bind_value _ _ _ _ _ Hrun). destruct (throwOnError_cases r) as [[Hok ->]|[_ ->]]; [|done].
  intros _. by apply Hr.
Qed.

#[export] Instance swift_laws `{!SwiftAccountExists W, !SwiftDeletesOnce W} :
  @KeyValueLaws (swift_state W) (swift_helper m_authInfo m_containerName).
Proof.
  refine {| objects := state_objects |}; simpl.
  - intros s k off n. apply swift_getObject_spec.
  - intros s k off n b Hoff Hn Hmax Hb. destruct (swift_getObject_spec s k off n) as [_ Hs].
    specialize (Hs Hoff Hn Hmax). by rewrite Hb in Hs.
  - intros s k off n e Hoff Hn Hmax He Hno. destruct (swift_getObject_spec s k off n) as [_ Hs].
    specialize (Hs Hoff Hn Hmax). rewrite He in Hs. by apply Hs.
  - intros s k b off n _ _ _ Hn. destruct (swift_putObject_spec s k b off) as [Ho Hv].
    apply map_eq. intros k'. destruct (decide (k = k')) as [<-|Hne].
    + rewrite lookup_insert_eq. by apply (Hv n).
    + rewrite lookup_insert_ne by done. by apply Ho.
  - intros s k b off k' Hne. by apply swift_putObject_spec.
  - intros s ks u k Hlen. unfold swift_deleteObjects.
    destruct (account_first (delete_loop m_containerName (delete_batches ks)) s)
      as [(s' & e & -> & _ & _)|(s1 & -> & <-)]; [done|].
    rewrite (delete_batches_small ks Hlen). intros Hu. destruct (decide (ks = [])) as [->|Hks].
    { by rewrite decide_False by apply not_elem_of_nil. }
    destruct (decide (k ∈ ks)) as [Hin|Hout]; [by apply (swift_delete_loop_one ks s1 k u)|].
    apply swift_delete_loop_others. intros b Hb. apply list_elem_of_singleton in Hb as ->. done.
  - intros s ks k Hk. unfold swift_deleteObjects.
    destruct (account_first (delete_loop m_containerName (delete_batches ks)) s)
      as [(s' & e & -> & <- & _)|(s1 & -> & <-)]; [done|].
    apply swift_delete_loop_others. intros b Hb Hkb. apply Hk. eapply elem_of_prefix; [by eapply delete_batches_first|].
    exists (drop (Z.to_nat MAX_DELETE_OBJECTS) ks). by rewrite take_drop.
Defined.
End laws.

(** The keys of a deletion are moved at the first attempt.  When that leaves
    the vector empty and the service is busy at the first attempt only, the
    retry deletes no key and [deleteObjects] reports success: every object is
    still there. *)
Lemma swift_retried_delete_lost {W : Type} (m_authInfo : AuthenticationInfo) (m_containerName : string)
    `{SL : SwiftLaws W m_containerName} (keys : list string) (w1 w2 : W) (busy ok : SwiftResult unit) (w : W) :
  keys ≠ [] → Z.of_nat (length keys) <= MAX_DELETE_OBJECTS → moved_from keys = [] →
  swiftDeleteObjects m_containerName keys w = (w1, busy) → SWIFTRetryCondition busy = false →
  container_objects w1 = container_objects w →
  swiftDeleteObjects m_containerName [] w1 = (w2, ok) → SWIFTRetryCondition ok = true →
  sr_error ok = SWIFT_OK →
  ∃ s', swift_deleteObjects m_authInfo m_containerName keys (mk_swift_state w true) = (s', Value tt) ∧
    ∀ k, container_objects (sw_sdk s') !! k = container_objects w !! k.
Proof.
  intros Hne Hlen Hmoved H1 Hbusy Hsame H2 Hdone Hok.
  assert (delete_retry m_containerName keys (mk_swift_state w true) = (mk_swift_state w2 true, Value ok))
    as Hrun.
  { unfold delete_retry, retry, mbind, ST_bind. unfold delete_call at 1, sdk. simpl. rewrite H1, Hmoved.
    change (Z.to_nat IO_RETRY_COUNT) with 4%nat. simpl. rewrite Hbusy. simpl.
    unfold mbind, ST_bind. unfold delete_call at 1, sdk. simpl. rewrite H2. simpl. by rewrite Hdone. }
  exists (mk_swift_state w2 true). split.
  - unfold swift_deleteObjects. rewrite (delete_batches_small keys Hlen), decide_False by done.
    rewrite (st_bind_value (getAccount m_authInfo) _ _ (mk_swift_state w true) tt) by done. simpl.
    rewrite (st_bind_value _ _ _ _ _ Hrun). unfold throwOnError. by rewrite Hok.
  - intros k. simpl. rewrite <-Hsame. replace w2 with (swiftDeleteObjects m_containerName [] w1).1
      by by rewrite H2. apply delete_others. apply not_elem_of_nil.
Qed.

(** ** A service with passing failures *)

Definition served {A} (r : SwiftResult A) : Prop := sr_error r = SWIFT_OK.
(** A read says that nothing is there, or gives no more than was asked for. *)
Definition read_served (n : Z) (r : SwiftResult bytes) : Prop :=
  if sr_error r =? SWIFT_OK then chainLength (sr_payload r) <= n else not_found (sr_status r).

(** A deletion with what is left of its keys. *)
Definition delete_again {W} `{Swift W} (c : string) (p : W * list string) : (W * list string) * SwiftResult unit :=
  let '(w, r) := swiftDeleteObjects c p.2 p.1 in ((w, moved_from p.2), r).

Class SwiftSettles (W : Type) `{Swift W} := {
  authenticate_succeeds : ∀ s i, served (authenticate i s).2;
  get_settles : ∀ s c k off n, 0 <= off → 0 < n → off + n <= OFF_MAX →
    settles (swiftGetObjectContent c k (rangeToString off (off + n - 1))) SWIFTRetryCondition (read_served n)
      (Z.to_nat IO_RETRY_COUNT) s;
  create_settles : ∀ s c k b,
    settles (swiftCreateReplaceObject c k b) SWIFTRetryCondition served (Z.to_nat IO_RETRY_COUNT) s;
  delete_settles : ∀ s c ks,
    settles (delete_again c) SWIFTRetryCondition served (Z.to_nat IO_RETRY_COUNT) (s, ks)
}.

#[export] Instance settles_account_exists {W : Type} `{SwiftSettles W} : SwiftAccountExists W.
Proof. split. intros s i Hne. by destruct Hne; apply authenticate_succeeds. Qed.

Section settling.
Context {W : Type} `{SS : SwiftSettles W} (m_authInfo : AuthenticationInfo) (m_containerName : string).

Lemma throwOnError_served {A} (r : SwiftResult A) : served r → throwOnError r = Value tt.
Proof. intros Hr. unfold throwOnError. by rewrite Hr. Qed.

Lemma getAccount_settles (s : swift_state W) : ∃ s', getAccount m_authInfo s = (s', Value tt).
Proof using SS.
  unfold getAccount. destruct (m_account s); [by eexists|]. unfold sdk, mbind, ST_bind.
  pose proof (authenticate_succeeds (sw_sdk s) m_authInfo) as Ha.
  destruct (authenticate m_authInfo (sw_sdk s)) as [w r]. simpl in *. rewrite (throwOnError_served r Ha). by eexists.
Qed.

Lemma sdk_retry_settles {A} (call : W → W * SwiftResult A) (good : SwiftResult A → Prop) (s : swift_state W) :
  settles call SWIFTRetryCondition good (Z.to_nat IO_RETRY_COUNT) (sw_sdk s) →
  ∃ s' r, sdk_retry call s = (s', Value r) ∧ good r.
Proof.
  apply (retry_settles sw_sdk). intros s0. unfold sdk. destruct (call (sw_sdk s0)) as [w r]. by eexists.
Qed.

Lemma delete_retry_settles (ks : list string) (s : swift_state W) :
  ∃ s' r, delete_retry m_containerName ks s = (s', Value r) ∧ served r.
Proof using SS.
  unfold delete_retry.
  destruct (retry_settles (λ p : swift_state W * list string, (sw_sdk p.1, p.2)) (delete_call m_containerName)
    (delete_again m_containerName) SWIFTRetryCondition served IO_RETRY_COUNT (s, ks)) as (s' & r & -> & Hr).
  - intros [s0 ks0]. unfold delete_call, delete_again, sdk. simpl.
    destruct (swiftDeleteObjects m_containerName ks0 (sw_sdk s0)) as [w r]. by eexists.
  - apply delete_settles.
  - by exists s'.1, r.
Qed.

#[export] Instance swift_reliable : @KeyValueReliable (swift_state W) (swift_helper m_authInfo m_containerName).
Proof using SS.
  split; simpl.
  - intros s k off n e Hoff Hn Hmax. unfold swift_getObject, get_with_account.
    destruct (getAccount_settles s) as [s1 Hs1]. rewrite (st_bind_value _ _ _ _ _ Hs1).
    unfold OFF_MAX in Hmax. rewrite u64_small, i64_small by lia.
    destruct (sdk_retry_settles _ (read_served n) s1
      (get_settles (sw_sdk s1) m_containerName k off n Hoff Hn Hmax)) as (s2 & r & Hrun & Hr).
    rewrite (st_bind_value _ _ _ _ _ Hrun). unfold read_served in Hr. unfold throwOnError.
    destruct (sr_error r =? SWIFT_OK); simpl.
    + by rewrite (proj2 (Z.ltb_ge n _)).
    + intros [= <-]. simpl. unfold getReturnCode. by destruct Hr as [-> | ->].
  - intros s k b off _. unfold swift_putObject, put_with_account.
    destruct (getAccount_settles s) as [s1 Hs1]. rewrite (st_bind_value _ _ _ _ _ Hs1).
    destruct (sdk_retry_settles _ served s1 (create_settles (sw_sdk s1) m_containerName k b)) as (s2 & r & Hrun & Hr).
    rewrite (st_bind_value _ _ _ _ _ Hrun), (throwOnError_served r Hr). by eexists.
  - intros s ks. unfold swift_deleteObjects. destruct (getAccount_settles s) as [s1 Hs1].
    rewrite (st_bind_value _ _ _ _ _ Hs1). exists tt. generalize s1 as s0.
    induction (delete_batches ks) as [|batch batches IH]; intros s0; simpl; [done|].
    destruct (delete_retry_settles batch s0) as (s2 & r & Hrun & Hr).
    rewrite (st_bind_value _ _ _ _ _ Hrun), (throwOnError_served r Hr). apply IH.
Qed.
End settling.

(** Files on Swift.  When the failures of the service pass within the
    retries of a call, and keys survive a retried deletion, a write through the
    adapter succeeds, and a read after it returns the written bytes where it
    meets them and the former bytes elsewhere; for every block size, range and
    order of the block tasks. *)
Lemma swift_file_write_read {W : Type} (m_authInfo : AuthenticationInfo) (m_containerName : string)
    `{SL : SwiftLaws W m_containerName} `{!SwiftSettles W} `{!SwiftDeletesOnce W} (fileId : string) (bs : Z)
    (st : kv_state (swift_state W)) (worder rorder : list nat) (offset roffset rsize : Z) (buf : bytes) :
  valid_fileId fileId = true → 0 < bs <= OFF_MAX →
  0 <= offset → offset + chainLength buf <= OFF_MAX → 0 <= roffset → 0 <= rsize →
  roffset + rsize <= OFF_MAX →
  worder ≡ₚ seq 0 (length (block_ranges bs offset (chainLength buf))) →
  rorder ≡ₚ seq 0 (length (block_ranges bs roffset rsize)) →
  ∃ st1 st2,
    @write _ (swift_helper m_authInfo m_containerName) fileId bs worder offset buf st
    = (st1, Value (chainLength buf)) ∧
    @read _ (swift_helper m_authInfo m_containerName) fileId bs rorder roffset rsize st1
    = (st2, Value (map (λ p, if decide (offset <= p < offset + chainLength buf)
                             then byte_at buf (p - offset)
                             else kv_byte fileId bs (container_objects (sw_sdk (store st))) p) (seqZ roffset rsize))).
Proof.
  intros. by apply (@write_read_aux _ _ (swift_laws m_authInfo m_containerName) fileId bs
    (swift_reliable m_authInfo m_containerName)).
Qed.

(** ** A service in memory

    It is busy on every second request. *)

Abbreviation swift_memory := (gmap string bytes * bool)%type.

Definition busy_or {A} (nothing : A) (answer : gmap string bytes → gmap string bytes * SwiftResult A)
    (s : swift_memory) : swift_memory * SwiftResult A :=
  if s.2 then ((s.1, false), mk_SwiftResult HTTP_SERVICE_UNAVAILABLE 1 nothing)
  else let '(m, o) := answer s.1 in ((m, true), o).

(** [rest] is what a call leaves of a vector of keys. *)
Definition swift_in_memory (rest : list string → list string) : Swift swift_memory := {|
  authenticate := λ i s, (s, mk_SwiftResult 200 SWIFT_OK tt);
  swiftGetObjectContent := λ container k r, busy_or [] (λ m,
    (m, match m !! k, parse_range r with
        | Some o, Some (x, y) => mk_SwiftResult 206 SWIFT_OK (pread o x (y - x + 1))
        | Some o, None => mk_SwiftResult 200 SWIFT_OK o
        | None, _ => mk_SwiftResult HTTP_NOT_FOUND 1 []
        end));
  swiftCreateReplaceObject := λ container k b, busy_or tt (λ m, (<[k := b]> m, mk_SwiftResult 201 SWIFT_OK tt));
  swiftDeleteObjects := λ container ks, busy_or tt (λ m, (foldr delete m ks, mk_SwiftResult 200 SWIFT_OK tt));
  moved_from := rest
|}.

Lemma swift_in_memory_laws (rest : list string → list string) :
  (∀ ks k, k ∈ rest ks → k ∈ ks) → @SwiftLaws swift_memory (swift_in_memory rest) "c".
Proof.
  intros Hrest. refine {| container_objects := λ s : swift_memory, s.1 |}; unfold busy_or; simpl.
  - done.
  - by intros [m []] k r.
  - intros [m []] k off n Hoff Hn Hmax; simpl; [done|]. rewrite parse_range_to_string by lia.
    destruct (m !! k); simpl; [|done]. intros _. f_equal. lia.
  - intros [m []] k off n Hoff Hn Hmax; simpl; [by intros _ [|]|].
    rewrite parse_range_to_string by lia. destruct (m !! k); simpl; [done|].
    intros _ _. unfold pread. by rewrite drop_nil, take_nil.
  - intros [m []] k b; simpl; [done|]. intros _. by rewrite lookup_insert_eq.
  - intros [m []] k b k' Hne; simpl; [done|]. by rewrite lookup_insert_ne.
  - intros [m []] ks k; simpl; [done|]. intros _ Hk. by rewrite lookup_foldr_delete, decide_True.
  - intros [m []] ks k Hk; simpl; [done|]. by apply lookup_foldr_delete_not_elem_of.
  - exact Hrest.
Defined.

#[export] Instance memory_swift : Swift swift_memory := swift_in_memory (λ _, []).
#[export] Instance memory_swift_laws : SwiftLaws swift_memory "c".
Proof. apply swift_in_memory_laws. intros ks k Hk. by apply not_elem_of_nil in Hk. Defined.

Definition swift_account : AuthenticationInfo := mk_AuthenticationInfo "u" "p" "url" "t".

Lemma sample_delete_lost :
  ∃ s', swift_deleteObjects swift_account "c" ["k"%string]
          (mk_swift_state ({[ "k"%string := [x61] ]}, true) true) = (s', Value tt) ∧
    ∀ k, container_objects (sw_sdk s') !! k
         = container_objects (({[ "k"%string := [x61] ]}, true) : swift_memory) !! k.
Proof.
  apply (swift_retried_delete_lost swift_account "c" ["k"%string]
    ({[ "k"%string := [x61] ]}, false) ({[ "k"%string := [x61] ]}, true)
    (mk_SwiftResult HTTP_SERVICE_UNAVAILABLE 1 tt) (mk_SwiftResult 200 SWIFT_OK tt)
    ({[ "k"%string := [x61] ]}, true)); try done; by vm_compute.
Defined.

(** ** Files in memory *)

(** A service that leaves the keys. *)
Definition keeping_swift : Swift swift_memory := swift_in_memory id.

Lemma keeping_swift_once : @SwiftDeletesOnce swift_memory keeping_swift.
Proof. split. by left. Qed.

Lemma pread_bound (f : bytes) (off n : Z) : 0 <= n → chainLength (pread f off n) <= n.
Proof. intros Hn. unfold chainLength, pread. rewrite length_take. lia. Qed.

Lemma keeping_swift_settles : @SwiftSettles swift_memory keeping_swift.
Proof.
  assert (∀ m k off n, 0 <= off → 0 < n → off + n <= OFF_MAX →
    let r := (swiftGetObjectContent (Swift := keeping_swift) "c" k (rangeToString off (off + n - 1)) (m, false)).2 in
    SWIFTRetryCondition r = true ∧ read_served n r) as Hget.
  { intros m k off n Hoff Hn Hmax. simpl. rewrite parse_range_to_string by lia.
    destruct (m !! k) as [o|]; (split; [done|]); unfold read_served; simpl; [|by left].
    replace (off + n - 1 - off + 1) with n by lia. apply pread_bound. lia. }
  split.
  - done.
  - intros [m []] c k off n Hoff Hn Hmax; [right; split; [done|]|]; left; by apply Hget.
  - intros [m []] c k b; [right; split; [done|]|]; by left.
  - intros [m []] c ks; [right; split; [done|]|]; by left.
Qed.

Definition sample_swift : kv_state (swift_state swift_memory) := mk_kv_state (mk_swift_state (∅, true) false) ∅.

