(* ===== verification/NullDevice.v ===== *)
(** * The null device (src/src/nullDeviceHelper.h, src/src/nullDeviceHelper.cc)

    A storage that accepts every operation, can be slow, can time out and can
    pretend to hold a tree of files.  The random generators are sequences of
    draws, the clock is part of the state and moves when an operation sleeps.
    File handles run their operations through the scheduler of
    FlatOpScheduler.v. *)

From stdpp Require Import base numbers list gmap strings relations.
From Stdlib Require Import ZArith Lia Ascii Strings.Byte Floats.SpecFloat.
From S2P Require Import Prelude StdStrings Storage FlatOpScheduler.
Local Open Scope Z_scope.

Definition NULL_DEVICE_HELPER_CHAR : byte := x78.
Definition NULL_DEVICE_HELPER_ASCII : ascii := "x".
Definition NULL_DEVICE_HELPER_READ_PREALLOC_SIZE : Z := 150 * 1024 * 1024.
Definition NULL_DEVICE_HELPER_READLINK_SIZE : nat := 10.
Definition NULL_DEVICE_HELPER_READXATTR_SIZE : nat := 10.

(** ** Doubles *)

Definition double_of_Z (z : Z) : spec_float := binary_normalize 53 1024 z 0 false.
Definition double_div (x y : spec_float) : spec_float := SFdiv 53 1024 x y.
Definition double_zero : spec_float := S754_zero false.

(** [static_cast<int64_t>] drops the fraction; it is undefined when the number
    does not fit. *)
Definition double_to_int64 (x : spec_float) : Try Z :=
  match x with
  | S754_zero _ => Value 0
  | S754_finite sign m e =>
      let n := if 0 <=? e then Z.pos m * 2 ^ e else Z.pos m / 2 ^ (- e) in
      let n := if (sign : bool) then - n else n in
      if (n <? - OFF_MAX - 1) || (OFF_MAX <? n) then Exception undefined_behaviour else Value n
  | _ => Exception undefined_behaviour
  end.

(** ** Times in nanoseconds *)

Definition NANOS : Z := 1000000000.
Definition to_time_t (t : Z) : Z := Z.quot t NANOS.

(** ** NullDeviceHelper *)

(** The members that do not change after construction. *)
Record NullDeviceConfig := mk_NullDeviceConfig {
  m_latencyGenerator : nat → Z;
  m_timeoutGenerator : nat → spec_float;
  m_timeoutProbability : spec_float;
  m_applyToAllOperations : bool;
  m_filter : list string;
  m_simulatedFilesystemParameters : list (Z * Z);
  m_simulatedFilesystemGrowSpeed : spec_float;
  m_mountTime : Z
}.

Record NullDeviceHelper := mk_NullDeviceHelper {
  latencyDraws : nat;
  timeoutDraws : nat;
  m_simulatedFilesystemLevelEntryCountReady : bool;
  m_simulatedFilesystemLevelEntryCount : list Z;
  m_simulatedFilesystemEntryCountReady : bool;
  m_simulatedFilesystemEntryCount : Z;
  nd_clock : Z
}.

(** The filter: empty or a star for all operations, or their names. *)
Definition configure (latency : nat → Z) (timeouts : nat → spec_float) (timeoutProbability : spec_float)
    (filter : string) (params : list (Z * Z)) (growSpeed : spec_float) (mountTime : Z) : NullDeviceConfig :=
  let all := String.eqb filter "" || String.eqb filter "*" in
  mk_NullDeviceConfig latency timeouts timeoutProbability all
    (if all then [] else map (λ t, to_lower (trim t)) (split_string "," filter))
    params growSpeed mountTime.

Section helper.
Context (c : NullDeviceConfig).

Abbreviation params := (m_simulatedFilesystemParameters c).

Definition randomLatency : ST NullDeviceHelper Z := λ s,
  (mk_NullDeviceHelper (S (latencyDraws s)) (timeoutDraws s)
     (m_simulatedFilesystemLevelEntryCountReady s) (m_simulatedFilesystemLevelEntryCount s)
     (m_simulatedFilesystemEntryCountReady s) (m_simulatedFilesystemEntryCount s) (nd_clock s),
   Value (m_latencyGenerator c (latencyDraws s))).

Definition randomTimeout : ST NullDeviceHelper bool := λ s,
  (mk_NullDeviceHelper (latencyDraws s) (S (timeoutDraws s))
     (m_simulatedFilesystemLevelEntryCountReady s) (m_simulatedFilesystemLevelEntryCount s)
     (m_simulatedFilesystemEntryCountReady s) (m_simulatedFilesystemEntryCount s) (nd_clock s),
   Value (SFltb (m_timeoutGenerator c (timeoutDraws s)) (m_timeoutProbability c))).

Definition applies (operationName : string) : bool :=
  m_applyToAllOperations c || bool_decide (operationName ∈ m_filter c).

Definition simulateTimeout (operationName : string) : ST NullDeviceHelper bool :=
  if applies operationName then randomTimeout else mret false.

(** [sleep_for]: at least the latency, in milliseconds. *)
Definition sleep_for (ms : Z) : ST NullDeviceHelper unit := λ s,
  (mk_NullDeviceHelper (latencyDraws s) (timeoutDraws s)
     (m_simulatedFilesystemLevelEntryCountReady s) (m_simulatedFilesystemLevelEntryCount s)
     (m_simulatedFilesystemEntryCountReady s) (m_simulatedFilesystemEntryCount s)
     (nd_clock s + Z.max 0 ms * 1000000), Value tt).

Definition simulateLatency (operationName : string) : ST NullDeviceHelper unit :=
  if applies operationName then l ← randomLatency; sleep_for l else mret tt.

(** The macro [SIMULATE_STORAGE_ISSUES]. *)
Definition simulate_storage_issues (operationName : string) : ST NullDeviceHelper unit :=
  t ← simulateTimeout operationName;
  if (t : bool) then st_throw (makePosixException EAGAIN) else simulateLatency operationName.

Definition isSimulatedFilesystem : bool := negb (bool_decide (params = [])).

(** ** The simulated tree *)

(** What one pass of the loop appends: on level [l] there are the
    directories of the levels above, each with all entries of the level. *)
Definition directoryProduct (l : nat) : Z :=
  foldl (λ p e, u64 (p * e.1)) 1 (take l params).
Definition level_entries : list Z :=
  imap (λ l e, u64 (directoryProduct l * (e.1 + e.2))) params.

(** The flag is never set, so each call appends once more. *)
Definition simulatedFilesystemLevelEntryCount (level : Z) : ST NullDeviceHelper Z := λ s,
  let vec := if m_simulatedFilesystemLevelEntryCountReady s
             then m_simulatedFilesystemLevelEntryCount s
             else m_simulatedFilesystemLevelEntryCount s ++ level_entries in
  let n := Z.of_nat (length params) in
  let level := if n <=? level then u64 (n - 1) else level in
  (mk_NullDeviceHelper (latencyDraws s) (timeoutDraws s)
     (m_simulatedFilesystemLevelEntryCountReady s) vec
     (m_simulatedFilesystemEntryCountReady s) (m_simulatedFilesystemEntryCount s) (nd_clock s),
   match vec !! Z.to_nat level with Some k => Value k | None => Exception undefined_behaviour end).

Definition set_entry_count (n : Z) : ST NullDeviceHelper unit := λ s,
  (mk_NullDeviceHelper (latencyDraws s) (timeoutDraws s)
     (m_simulatedFilesystemLevelEntryCountReady s) (m_simulatedFilesystemLevelEntryCount s)
     (m_simulatedFilesystemEntryCountReady s) n (nd_clock s), Value tt).

(** The sum of the entries of the first levels, added to [acc]. *)
Fixpoint sum_levels (acc : Z) (levels : list nat) : ST NullDeviceHelper Z :=
  match levels with
  | [] => mret acc
  | l :: ls => n ← simulatedFilesystemLevelEntryCount (Z.of_nat l); sum_levels (u64 (acc + n)) ls
  end.

Definition simulatedFilesystemEntryCount : ST NullDeviceHelper Z := λ s,
  if m_simulatedFilesystemEntryCountReady s then (s, Value (m_simulatedFilesystemEntryCount s))
  else (n ← sum_levels 0 (seq 0 (length params)); _ ← set_entry_count n; mret n) s.

Fixpoint stol_all (path : list string) : Try (list Z) :=
  match path with
  | [] => Value []
  | t :: ts => match stol t with
               | Value v => match stol_all ts with
                            | Value vs => Value (u64 v :: vs)
                            | Exception e => Exception e
                            end
               | Exception e => Exception e
               end
  end.

(** [std::accumulate] with the [int] 1: each product is cut to an [int]. *)
Definition pathDirProduct (parentPath : list Z) : Z :=
  u64 (foldl (λ acc x, i32 (u64 (acc * x))) 1 parentPath).

Definition simulatedFilesystemFileDist (path : list string) : ST NullDeviceHelper Z :=
  match path with
  | [] => mret 0
  | _ =>
      let level := (length path - 1)%nat in
      distance ← sum_levels 0 (seq 0 level);
      parentPath ← st_lift (stol_all (take level path));
      levelParams ← st_lift (match params !! level with
                             | Some e => Value e
                             | None => Exception undefined_behaviour
                             end);
      leaf ← st_lift (stol (default EmptyString (last path)));
      let distance := u64 (distance + ((levelParams.1 + levelParams.2)
                             * (pathDirProduct parentPath - 1) + leaf + 1)) in
      mret (u64 (distance - 1))
  end.

Definition now : ST NullDeviceHelper Z := λ s, (s, Value (nd_clock s)).
Definition entry_count : ST NullDeviceHelper Z := λ s, (s, Value (m_simulatedFilesystemEntryCount s)).

Definition ST_MODE_MASK : Z := 511.
Definition ST_SIZE_KB : Z := 1024.

(** Mode and size of an entry of the tree. *)
Definition entry_mode_size (pathTokens : list string) : Try (Z * Z) :=
  match last pathTokens with
  | None => Value (Z.lor ST_MODE_MASK S_IFDIR, 0)
  | Some t =>
      pathLeaf ← stol t;
      match params !! (length pathTokens - 1)%nat with
      | None => Exception undefined_behaviour
      | Some e =>
          if pathLeaf <? e.1 then Value (Z.lor ST_MODE_MASK S_IFDIR, 0)
          else Value (Z.lor ST_MODE_MASK S_IFREG, i64 (pathLeaf * ST_SIZE_KB))
      end
  end.

Definition entry_mtime (mode ino : Z) : ST NullDeviceHelper Z :=
  if SFeqb (m_simulatedFilesystemGrowSpeed c) double_zero then mret (to_time_t (m_mountTime c))
  else if negb (Z.land mode S_IFDIR =? 0) then
    n ← now;
    count ← entry_count;
    secs ← st_lift (double_to_int64 (double_div (double_of_Z count) (m_simulatedFilesystemGrowSpeed c)));
    let mtimeMax := i64 (m_mountTime c + secs * NANOS) in
    mret (if n <? mtimeMax then to_time_t n else to_time_t mtimeMax)
  else
    secs ← st_lift (double_to_int64 (double_div (double_of_Z ino) (m_simulatedFilesystemGrowSpeed c)));
    mret (to_time_t (i64 (m_mountTime c + secs * NANOS))).

Definition getattr (fileId : string) : ST NullDeviceHelper stat :=
  _ ← simulate_storage_issues "getattr";
  if isSimulatedFilesystem then
    let pathTokens := split_string "/" fileId in
    '(mode, size) ← st_lift (entry_mode_size pathTokens);
    dist ← simulatedFilesystemFileDist pathTokens;
    let ino := u64 (dist + 2) in
    mtime ← entry_mtime mode ino;
    mret (mk_stat ino mode 0 0 size (to_time_t (m_mountTime c)) mtime)
  else mret (mk_stat 1 (Z.lor ST_MODE_MASK S_IFREG) 0 0 0 0 0).

(** [boost::filesystem::path] joined with one name. *)
Fixpoint last_char (s : string) : option ascii :=
  match s with
  | EmptyString => None
  | String ch EmptyString => Some ch
  | String _ s' => last_char s'
  end.
Definition path_append (path name : string) : string :=
  if bool_decide (path = EmptyString) || bool_decide (last_char path = Some "/"%char)
  then (path ++ name)%string else (path ++ String "/" name)%string.

(** Whether the growing tree already has an entry: a duration in doubles of
    nanoseconds is added to the mount time. *)
Definition entry_grown (pathTokens : list string) : ST NullDeviceHelper bool :=
  if SFeqb (m_simulatedFilesystemGrowSpeed c) double_zero then mret true
  else
    dist ← simulatedFilesystemFileDist pathTokens;
    n ← now;
    let secs := double_div (double_of_Z (i64 dist)) (m_simulatedFilesystemGrowSpeed c) in
    mret (SFltb (SFadd 53 1024 (SFmul 53 1024 secs (double_of_Z NANOS)) (double_of_Z (m_mountTime c)))
                (double_of_Z n)).

(** The loop over the entries [ids] of the directory. *)
Fixpoint list_entries (fileId : string) (ids : list Z) : ST NullDeviceHelper (list string) :=
  match ids with
  | [] => mret []
  | i :: ids =>
      let entryId := to_string i in
      grown ← entry_grown (split_string "/" (path_append fileId entryId));
      rest ← list_entries fileId ids;
      mret (if (grown : bool) then entryId :: rest else rest)
  end.

Definition readdir (fileId : string) (offset count : Z) : ST NullDeviceHelper (list string) :=
  _ ← simulate_storage_issues "readdir";
  if isSimulatedFilesystem then
    match params !! length (split_string "/" fileId) with
    | None => mret []
    | Some e =>
        let first := u64 offset in
        let last := Z.min (u64 (offset + count)) (u64 (e.1 + e.2)) in
        list_entries fileId (seqZ first (last - first))
    end
  else mret (map (λ i, to_string (u64 (i + offset))) (seqZ 0 count)).

Definition x_string (n : nat) : string := fill n NULL_DEVICE_HELPER_ASCII.

Definition access (fileId : string) (mask : Z) := simulate_storage_issues "access".
Definition readlink (fileId : string) : ST NullDeviceHelper string :=
  _ ← simulate_storage_issues "readlink"; mret (x_string NULL_DEVICE_HELPER_READLINK_SIZE).
Definition mknod (fileId : string) (unmaskedMode : Z) (flags : FlagsSet) (rdev : Z) :=
  simulate_storage_issues "mknod".
Definition mkdir (fileId : string) (mode : Z) := simulate_storage_issues "mkdir".
Definition unlink (fileId : string) (currentSize : Z) := simulate_storage_issues "unlink".
Definition rmdir (fileId : string) := simulate_storage_issues "rmdir".
Definition symlink (from to : string) := simulate_storage_issues "symlink".
Definition rename (from to : string) := simulate_storage_issues "rename".
Definition link (from to : string) := simulate_storage_issues "link".
Definition chmod (fileId : string) (mode : Z) := simulate_storage_issues "chmod".
Definition chown (fileId : string) (uid gid : Z) := simulate_storage_issues "chown".
Definition truncate (fileId : string) (size currentSize : Z) := simulate_storage_issues "truncate".
Definition getxattr (fileId name : string) : ST NullDeviceHelper string :=
  _ ← simulate_storage_issues "getxattr"; mret (x_string NULL_DEVICE_HELPER_READXATTR_SIZE).
Definition setxattr (fileId name value : string) (create replace : bool) : ST NullDeviceHelper unit :=
  _ ← simulate_storage_issues "setxattr";
  if create && replace then st_throw (makePosixException EINVAL) else mret tt.
Definition removexattr (fileId name : string) := simulate_storage_issues "removexattr".
Definition listxattr (fileId : string) : ST NullDeviceHelper (list string) :=
  _ ← simulate_storage_issues "listxattr"; mret (map x_string (seq 1 NULL_DEVICE_HELPER_READXATTR_SIZE)).

(** ** NullDeviceFileHandle *)

Record NullDeviceFileHandle := mk_NullDeviceFileHandle {
  m_fileId : string;
  m_readBytes : Z;
  m_writtenBytes : Z
}.

Definition create_handle (fileId : string) : NullDeviceFileHandle := mk_NullDeviceFileHandle fileId 0 0.

Definition open (fileId : string) (flags : Z) (openParams : Params) : ST NullDeviceHelper NullDeviceFileHandle :=
  _ ← simulate_storage_issues "open"; mret (create_handle fileId).

Definition null_device : StorageHelper NullDeviceHelper NullDeviceFileHandle := {|
  sh_getattr := getattr; sh_access := access; sh_readlink := readlink; sh_readdir := readdir;
  sh_mknod := mknod; sh_mkdir := mkdir; sh_unlink := unlink; sh_rmdir := rmdir;
  sh_symlink := symlink; sh_rename := rename; sh_link := link; sh_chmod := chmod;
  sh_chown := chown; sh_truncate := truncate; sh_open := open; sh_getxattr := getxattr;
  sh_setxattr := setxattr; sh_removexattr := removexattr; sh_listxattr := listxattr
|}.

(** An operation carries the number of its promise. *)
Inductive HandleOp :=
| ReadOp (promise : nat) (offset size : Z)
| WriteOp (promise : nat) (offset : Z) (buf : bytes)
| FsyncOp (promise : nat)
| FlushOp (promise : nat)
| ReleaseOp (promise : nat).

Inductive op_result :=
| ReadResult (buf : bytes)
| WriteResult (size : Z)
| UnitResult.

(** The visitor: the handle while it is alive, the helper, the promises. *)
Record OpExec := mk_OpExec {
  m_handle : option NullDeviceFileHandle;
  m_helper : NullDeviceHelper;
  op_promises : gmap nat (Try op_result)
}.

Definition startDrain (v : OpExec) : OpExec := v.
Definition endDrain (v : OpExec) : OpExec := v.

Definition set_promise (p : nat) (r : Try op_result) (v : OpExec) : OpExec :=
  mk_OpExec (m_handle v) (m_helper v) (<[p := r]> (op_promises v)).

(** The macro [SIMULATE_HANDLE_STORAGE_ISSUES] fails the promise; [k] is what
    follows it. *)
Definition handle_storage_issues (operationName : string) (p : nat)
    (k : NullDeviceFileHandle → NullDeviceFileHandle * op_result) : ST OpExec unit := λ v,
  match m_handle v with
  | None => (set_promise p (Exception (makePosixException ECANCELED)) v, Value tt)
  | Some h =>
      match simulate_storage_issues operationName (m_helper v) with
      | (helper, Exception e) =>
          (set_promise p (Exception e) (mk_OpExec (m_handle v) helper (op_promises v)), Value tt)
      | (helper, Value _) =>
          let '(h, r) := k h in
          (set_promise p (Value r) (mk_OpExec (Some h) helper (op_promises v)), Value tt)
      end
  end.

(** The macro [SIMULATE_STORAGE_ISSUES] in a visitor: the exception leaves the
    visitor and the promise is not touched. *)
Definition throwing_storage_issues (operationName : string) (p : nat) : ST OpExec unit := λ v,
  match m_handle v with
  | None => (set_promise p (Exception (makePosixException ECANCELED)) v, Value tt)
  | Some h =>
      match simulate_storage_issues operationName (m_helper v) with
      | (helper, Exception e) => (mk_OpExec (m_handle v) helper (op_promises v), Exception e)
      | (helper, Value _) =>
          (set_promise p (Value UnitResult) (mk_OpExec (m_handle v) helper (op_promises v)), Value tt)
      end
  end.

(** A small read takes the prepared buffer, a large one fills its own. *)
Definition null_buffer (size : Z) : bytes :=
  if size <? NULL_DEVICE_HELPER_READ_PREALLOC_SIZE
  then replicate (Z.to_nat size) NULL_DEVICE_HELPER_CHAR
  else replicate (Z.to_nat size) NULL_DEVICE_HELPER_CHAR.

Definition visit (op : HandleOp) : ST OpExec unit :=
  match op with
  | ReadOp p offset size =>
      handle_storage_issues "read" p (λ h,
        (mk_NullDeviceFileHandle (m_fileId h) (u64 (m_readBytes h + size)) (m_writtenBytes h),
         ReadResult (null_buffer size)))
  | WriteOp p offset buf =>
      handle_storage_issues "write" p (λ h,
        (mk_NullDeviceFileHandle (m_fileId h) (m_readBytes h) (u64 (m_writtenBytes h + chainLength buf)),
         WriteResult (chainLength buf)))
  | FsyncOp p => throwing_storage_issues "fsync" p
  | FlushOp p => throwing_storage_issues "flush" p
  | ReleaseOp p => throwing_storage_issues "release" p
  end.

(** The methods of the handle give their operation to the scheduler. *)
Definition handle_read (p : nat) (offset size : Z) : scheduler HandleOp OpExec → scheduler HandleOp OpExec :=
  schedule (ReadOp p offset size).
Definition handle_write (p : nat) (offset : Z) (buf : bytes)
  : scheduler HandleOp OpExec → scheduler HandleOp OpExec :=
  schedule (WriteOp p offset buf).
Definition handle_release (p : nat) : scheduler HandleOp OpExec → scheduler HandleOp OpExec :=
  schedule (ReleaseOp p).
Definition handle_flush (p : nat) : scheduler HandleOp OpExec → scheduler HandleOp OpExec :=
  schedule (FlushOp p).
Definition handle_fsync (p : nat) (isDataSync : bool)
  : scheduler HandleOp OpExec → scheduler HandleOp OpExec :=
  schedule (FsyncOp p).

Definition new_NullDeviceHelper (clock : Z) : NullDeviceHelper :=
  (simulatedFilesystemEntryCount (mk_NullDeviceHelper 0 0 false [] false 0 clock)).1.
End helper.

(** ** NullDeviceHelperFactory *)

Fixpoint parse_levels (levels : list string) : Try (list (Z * Z)) :=
  match levels with
  | [] => Value []
  | level :: levels =>
      match split_string "-" level with
      | [a; b] =>
          x ← stol a; y ← stol b;
          rest ← parse_levels levels;
          Value ((x, y) :: rest)
      | _ => Exception invalid_argument
      end
  end.
Definition parseSimulatedFilesystemParameters (params : string) : Try (list (Z * Z)) :=
  if String.eqb params "" then Value [] else parse_levels (split_string ":" params).

(** [createStorageHelper]: the conversions of parameters and the generators
    made from the latencies are arguments; the result is the configuration,
    the helper and its timeout. *)
Definition createStorageHelper (cast_int : string → option Z) (cast_double : string → option spec_float)
    (cast_size : string → option Z) (uniform_int : Z → Z → nat → Z) (uniform_real : nat → spec_float)
    (async_ops_timeout mountTime clock : Z) (parameters : Params)
  : Try (NullDeviceConfig * NullDeviceHelper * Z) :=
  latencyMin ← getParam_def cast_int parameters "latencyMin" 0;
  latencyMax ← getParam_def cast_int parameters "latencyMax" 0;
  timeoutProbability ← getParam_def cast_double parameters "timeoutProbability" double_zero;
  let filter := getParam_string_def parameters "filter" "*" in
  let simulatedFilesystemParameters := getParam_string_def parameters "simulatedFilesystemParameters" "" in
  growSpeed ← getParam_def cast_double parameters "simulatedFilesystemGrowSpeed" double_zero;
  timeout ← getParam_def cast_size parameters "timeout" async_ops_timeout;
  parsed ← parseSimulatedFilesystemParameters simulatedFilesystemParameters;
  let c := configure (uniform_int latencyMin latencyMax) uniform_real timeoutProbability filter
             parsed growSpeed mountTime in
  Value (c, new_NullDeviceHelper c clock, timeout).

(** ** Paths *)

Lemma digit_not_slash (ch : ascii) : is_digit ch = true → ch ≠ "/"%char.
Proof. intros Hc ->. done. Qed.

Lemma last_char_app (path : string) (ch : ascii) :
  last_char path = Some ch → ∃ p, path = (p ++ String ch EmptyString)%string.
Proof.
  induction path as [|a path IH]; intros Hl; [done|]. destruct path as [|b path].
  - simpl in Hl. injection Hl as ->. by exists EmptyString.
  - destruct (IH Hl) as [p Hp]. exists (String a p). by rewrite Hp.
Qed.

Lemma split_tokens_trailing (delim : ascii) (word s : string) :
  split_tokens delim word (s ++ String delim EmptyString)%string = split_tokens delim word s.
Proof.
  revert word. induction s as [|ch s IH]; intros word.
  - change (split_tokens delim word (String delim EmptyString) = split_tokens delim word EmptyString).
    simpl. by rewrite Ascii.eqb_refl, app_nil_r.
  - change (split_tokens delim word (String ch (s ++ String delim EmptyString)) =
            split_tokens delim word (String ch s)).
    simpl. destruct (Ascii.eqb ch delim); [by rewrite IH|apply IH].
Qed.

(** Joining a name to a path adds it to the path's parts. *)
Lemma path_append_tokens (fileId name : string) :
  all_digits name = true → name ≠ EmptyString →
  split_string "/" (path_append fileId name) = split_string "/" fileId ++ [name].
Proof.
  intros Hd Hne. unfold path_append, split_string.
  case_bool_decide as He; simpl.
  { subst fileId. change (EmptyString ++ name)%string with name.
    by apply (split_tokens_word _ EmptyString), Hne; [apply digit_not_slash|]. }
  case_bool_decide as Hl; [|by apply split_tokens_snoc; [apply digit_not_slash|..]].
  apply last_char_app in Hl as [p ->]. rewrite split_tokens_trailing, string_app_assoc'.
  change (String "/" EmptyString ++ name)%string with (String "/" name).
  by apply split_tokens_snoc; [apply digit_not_slash|..].
Qed.

(** ** The tree *)

Section tree.
Context (c : NullDeviceConfig).
Abbreviation params := (m_simulatedFilesystemParameters c).

Lemma no_issues (op : string) (s : NullDeviceHelper) :
  applies c op = false → simulate_storage_issues c op s = (s, Value tt).
Proof.
  intros Ha. unfold simulate_storage_issues, simulateTimeout, simulateLatency. by rewrite Ha.
Qed.

(** Helpers that differ in the vector of level sizes only. *)
Definition same_helper (s s' : NullDeviceHelper) : Prop :=
  m_simulatedFilesystemLevelEntryCountReady s' = m_simulatedFilesystemLevelEntryCountReady s ∧
  nd_clock s' = nd_clock s ∧ m_simulatedFilesystemEntryCount s' = m_simulatedFilesystemEntryCount s.

(** The vector is some number of copies of the level sizes. *)
Definition levels_ok (s : NullDeviceHelper) : Prop :=
  m_simulatedFilesystemLevelEntryCountReady s = false ∧
  ∃ k, m_simulatedFilesystemLevelEntryCount s = concat (replicate k (level_entries c)).

Lemma length_level_entries : length (level_entries c) = length params.
Proof. unfold level_entries. by rewrite length_imap. Qed.

Lemma level_entry_count_spec (l : nat) (n : Z) (s : NullDeviceHelper) :
  levels_ok s → level_entries c !! l = Some n →
  ∃ s', simulatedFilesystemLevelEntryCount c (Z.of_nat l) s = (s', Value n) ∧
        levels_ok s' ∧ same_helper s s'.
Proof.
  intros [Hr [k Hk]] Hl. pose proof (lookup_lt_Some _ _ _ Hl) as Hlt.
  rewrite length_level_entries in Hlt. unfold simulatedFilesystemLevelEntryCount.
  rewrite Hr, (proj2 (Z.leb_gt (Z.of_nat (length params)) (Z.of_nat l))) by lia.
  rewrite Hk, Nat2Z.id.
  assert (concat (replicate k (level_entries c)) ++ level_entries c
          = concat (replicate (S k) (level_entries c))) as ->.
  { rewrite replicate_S_end, concat_app. simpl. by rewrite app_nil_r. }
  simpl concat. rewrite lookup_app_l by (by rewrite length_level_entries). rewrite Hl.
  eexists. split; [done|]. split; [|done]. split; [done|]. by exists (S k).
Qed.

Lemma sum_levels_spec (ls : list nat) (acc : Z) (s : NullDeviceHelper) :
  levels_ok s → Forall (λ l, (l < length params)%nat) ls →
  ∃ s', sum_levels c acc ls s
        = (s', Value (foldl (λ a l, u64 (a + default 0 (level_entries c !! l))) acc ls)) ∧
        levels_ok s' ∧ same_helper s s'.
Proof.
  revert acc s. induction ls as [|l ls IH]; intros acc s Hok Hls; simpl; [by exists s|].
  apply Forall_cons in Hls as [Hl Hls].
  destruct (lookup_lt_is_Some_2 (level_entries c) l) as [n Hn]; [by rewrite length_level_entries|].
  destruct (level_entry_count_spec l n s Hok Hn) as (s1 & Hs1 & Hok1 & Hsame1).
  destruct (IH (u64 (acc + n)) s1 Hok1 Hls) as (s2 & Hs2 & Hok2 & Hsame2).
  exists s2. rewrite (st_bind_value _ _ _ _ _ Hs1), Hs2, Hn. split_and!; [done..|].
  unfold same_helper in *. intuition congruence.
Qed.

Definition parses (t : string) : Prop := ∃ v, stol t = Value v.

Lemma stol_all_spec (path : list string) : Forall parses path → ∃ vs, stol_all path = Value vs.
Proof.
  induction 1 as [|t path [v Hv] _ [vs IH]]; [by exists []|]. exists (u64 v :: vs). simpl. by rewrite Hv, IH.
Qed.

(** The distance of an entry: the entries of the levels above, and those
    before it on its level by the product of the parents' numbers. *)
Lemma file_dist_spec (path : list string) (leaf : string) (v : Z) (vs : list Z) (e : Z * Z)
    (s : NullDeviceHelper) :
  levels_ok s → stol_all path = Value vs → stol leaf = Value v → params !! length path = Some e →
  ∃ s', simulatedFilesystemFileDist c (path ++ [leaf]) s
    = (s', Value (u64 (foldl (λ a l, u64 (a + default 0 (level_entries c !! l))) 0 (seq 0 (length path))
                       + (e.1 + e.2) * (pathDirProduct vs - 1) + v))) ∧ levels_ok s' ∧ same_helper s s'.
Proof.
  intros Hok Hvs Hv He. pose proof (lookup_lt_Some _ _ _ He) as Hlt.
  destruct (sum_levels_spec (seq 0 (length path)) 0 s Hok) as (s1 & Hs1 & Hok1 & Hsame1).
  { apply Forall_seq. lia. }
  unfold simulatedFilesystemFileDist. destruct (path ++ [leaf]) as [|t ts] eqn:Hp; [by destruct path|].
  rewrite <-Hp, length_app. simpl length. rewrite Nat.add_sub.
  rewrite (st_bind_value _ _ _ _ _ Hs1), take_app_length, Hvs, He, last_snoc. simpl. rewrite Hv.
  unfold mbind, ST_bind, st_lift, mret, ST_ret. simpl.
  eexists. split; [|done]. do 2 f_equal. unfold u64. rewrite Zminus_mod_idemp_l. f_equal. lia.
Qed.

Lemma list_entries_spec (fileId : string) (ids : list Z) (s : NullDeviceHelper) :
  SFeqb (m_simulatedFilesystemGrowSpeed c) double_zero = true →
  list_entries c fileId ids s = (s, Value (map to_string ids)).
Proof.
  intros Hg. revert s. induction ids as [|i ids IH]; intros s; simpl; [done|].
  unfold entry_grown. rewrite Hg. unfold mbind, ST_bind in *. unfold mret, ST_ret in *. by rewrite IH.
Qed.

Lemma simulated_lookup (n : nat) (e : Z * Z) : params !! n = Some e → isSimulatedFilesystem c = true.
Proof.
  intros He. unfold isSimulatedFilesystem. rewrite bool_decide_eq_false_2; [done|].
  intros Hnil. by rewrite Hnil in He.
Qed.

Lemma readdir_spec (fileId : string) (offset count : Z) (e : Z * Z) (s : NullDeviceHelper) :
  applies c "readdir" = false → SFeqb (m_simulatedFilesystemGrowSpeed c) double_zero = true →
  params !! length (split_string "/" fileId) = Some e → 0 <= e.1 + e.2 <= OFF_MAX →
  0 <= offset → 0 <= count → offset + count <= UINT64_MAX →
  readdir c fileId offset count s
  = (s, Value (map to_string (seqZ offset (Z.min (offset + count) (e.1 + e.2) - offset)))).
Proof.
  intros Ha Hg He Hn Hoff Hcount Hmax. unfold readdir.
  rewrite (st_bind_value _ _ _ _ _ (no_issues "readdir" s Ha)), (simulated_lookup _ _ He), He.
  unfold UINT64_MAX, OFF_MAX in *. rewrite !u64_small by lia. by apply list_entries_spec.
Qed.

Definition entry_mode (e : Z * Z) (i : Z) : Z :=
  Z.lor ST_MODE_MASK (if i <? e.1 then S_IFDIR else S_IFREG).
Definition entry_size (e : Z * Z) (i : Z) : Z := if i <? e.1 then 0 else i * ST_SIZE_KB.

Lemma getattr_spec (fileId : string) (i : Z) (e : Z * Z) (s : NullDeviceHelper) :
  applies c "getattr" = false → SFeqb (m_simulatedFilesystemGrowSpeed c) double_zero = true →
  levels_ok s → Forall parses (split_string "/" fileId) →
  params !! length (split_string "/" fileId) = Some e → 0 <= i → i * ST_SIZE_KB <= OFF_MAX →
  ∃ s' st, getattr c (path_append fileId (to_string i)) s = (s', Value st) ∧
    st_mode st = entry_mode e i ∧ st_size st = entry_size e i.
Proof.
  intros Ha Hg Hok Hp He Hi Hmax. unfold ST_SIZE_KB, OFF_MAX in *.
  destruct (to_string_digits i) as (Hd & _ & Hne); [lia|].
  assert (stol (to_string i) = Value i) as Hst by (apply stol_to_string; unfold OFF_MAX; lia).
  destruct (stol_all_spec _ Hp) as [vs Hvs].
  destruct (file_dist_spec _ (to_string i) i vs e s Hok Hvs Hst He) as (s1 & Hs1 & _).
  unfold getattr. rewrite (st_bind_value _ _ _ _ _ (no_issues "getattr" s Ha)), (simulated_lookup _ _ He).
  rewrite path_append_tokens by done.
  assert (entry_mode_size c (split_string "/" fileId ++ [to_string i]) = Value (entry_mode e i, entry_size e i))
    as ->.
  { unfold entry_mode_size, entry_mode, entry_size. rewrite last_snoc, length_app, Nat.add_sub, Hst. simpl.
    rewrite He. destruct (i <? e.1); [done|]. unfold ST_SIZE_KB. by rewrite i64_small by lia. }
  rewrite (st_bind_value (st_lift _) _ s s (entry_mode e i, entry_size e i) eq_refl).
  rewrite (st_bind_value _ _ _ _ _ Hs1). unfold entry_mtime. rewrite Hg.
  by eexists _, _.
Qed.

Lemma dist_collision (d0 f0 d1 f1 k : Z) (rest : list (Z * Z)) (s : NullDeviceHelper) :
  params = (d0, f0) :: (d1, f1) :: rest → d0 + f0 = d1 + f1 → d0 + f0 <= OFF_MAX → 0 <= k < d0 + f0 →
  levels_ok s →
  (simulatedFilesystemFileDist c [to_string k] s).2 = Value k ∧
  (simulatedFilesystemFileDist c ["0"; to_string k] s).2 = Value k.
Proof.
  intros Hparams Heq Hmax Hk Hok. unfold OFF_MAX in *.
  assert (stol (to_string k) = Value k) as Hst by (apply stol_to_string; unfold OFF_MAX; lia).
  assert (level_entries c !! 0%nat = Some (d0 + f0)) as Hl.
  { unfold level_entries. rewrite Hparams. simpl. unfold directoryProduct. simpl.
    rewrite Z.mul_1_l. by rewrite u64_small by lia. }
  split.
  - destruct (file_dist_spec [] (to_string k) k [] (d0, f0) s Hok) as (s1 & Hs1 & _);
      [done..|by rewrite Hparams|].
    change ([] ++ [to_string k]) with [to_string k] in Hs1. rewrite Hs1.
    change (pathDirProduct []) with 1. rewrite Z.sub_diag, Z.mul_0_r. simpl. f_equal. apply u64_small. lia.
  - destruct (file_dist_spec ["0"%string] (to_string k) k [0] (d1, f1) s Hok) as (s1 & Hs1 & _);
      [done..|by rewrite Hparams|].
    change (["0"%string] ++ [to_string k]) with ["0"%string; to_string k] in Hs1. rewrite Hs1.
    cbn [length seq foldl snd fst]. rewrite Hl. change (pathDirProduct [0]) with 0.
    cbn [default id]. rewrite (u64_small (0 + (d0 + f0))) by lia. f_equal. rewrite u64_small; lia.
Qed.

(** The release of a handle that times out: the drain ends with the
    exception. *)
Lemma release_stuck (p : nat) (h : NullDeviceFileHandle) (s : NullDeviceHelper)
    (promises : gmap nat (Try op_result)) :
  (simulateTimeout c "release" s).2 = Value true →
  ∃ st, run_drains startDrain endDrain (visit c) 3 (handle_release p (create (mk_OpExec (Some h) s promises)))
        = Some (st, []) ∧ stuck st ∧ op_promises (m_opVisitor st) = promises.
Proof.
  intros Ht. destruct (simulateTimeout c "release" s) as [s' r] eqn:Hs. simpl in Ht. subst r.
  assert (simulate_storage_issues c "release" s = (s', Exception (makePosixException EAGAIN))) as Hi.
  { unfold simulate_storage_issues. by rewrite (st_bind_value _ _ _ _ _ Hs). }
  cbn -[simulate_storage_issues]. unfold throwing_storage_issues. cbn -[simulate_storage_issues].
  rewrite Hi. eexists. split; [done|]. done.
Qed.
End tree.

(** The simulated tree is consistent.  A page of a directory's listing is
    the names from its offset up to its end, and each name has attributes:
    the first ones are directories, the others files of that many KiB. *)
Lemma null_tree_consistent (c : NullDeviceConfig) (s : NullDeviceHelper) (fileId : string)
    (dirs files offset count : Z) :
  applies c "readdir" = false → applies c "getattr" = false →
  SFeqb (m_simulatedFilesystemGrowSpeed c) double_zero = true → levels_ok c s →
  m_simulatedFilesystemParameters c !! length (split_string "/" fileId) = Some (dirs, files) →
  Forall parses (split_string "/" fileId) →
  0 <= dirs → 0 <= files → (dirs + files) * ST_SIZE_KB <= OFF_MAX →
  0 <= offset → 0 <= count → offset + count <= UINT64_MAX →
  readdir c fileId offset count s
  = (s, Value (map to_string (seqZ offset (Z.min (offset + count) (dirs + files) - offset)))) ∧
  ∀ i, 0 <= i < dirs + files →
    ∃ s' st, getattr c (path_append fileId (to_string i)) s = (s', Value st) ∧
      st_mode st = Z.lor ST_MODE_MASK (if i <? dirs then S_IFDIR else S_IFREG) ∧
      st_size st = (if i <? dirs then 0 else i * ST_SIZE_KB).
Proof.
  intros Hr Ha Hg Hok He Hp Hd Hf Hmax Hoff Hcount Hend. split.
  - apply (readdir_spec c fileId offset count (dirs, files)); try done. simpl. unfold ST_SIZE_KB in *. lia.
  - intros i Hi. apply (getattr_spec c fileId i (dirs, files)); try done; unfold ST_SIZE_KB in *; lia.
Qed.

(** The distance that numbers the files of the tree is not unique: when
    the first two levels have as many entries, entry [k] of the root and entry
    [k] of directory 0 have the same one. *)
Lemma null_dist_not_unique (c : NullDeviceConfig) (s : NullDeviceHelper) (d0 f0 d1 f1 k : Z)
    (rest : list (Z * Z)) :
  m_simulatedFilesystemParameters c = (d0, f0) :: (d1, f1) :: rest →
  d0 + f0 = d1 + f1 → d0 + f0 <= OFF_MAX → 0 <= k < d0 + f0 → levels_ok c s →
  (simulatedFilesystemFileDist c [to_string k] s).2
  = (simulatedFilesystemFileDist c ["0"; to_string k] s).2 ∧
  (simulatedFilesystemFileDist c [to_string k] s).2 = Value k.
Proof.
  intros Hparams Heq Hmax Hk Hok.
  by destruct (dist_collision c d0 f0 d1 f1 k rest s Hparams Heq Hmax Hk Hok) as [-> ->].
Qed.

(** A release that hits the simulated timeout throws out of the drain: its
    promise is never fulfilled, the scheduler keeps believing that a drain is
    in progress, and no later operation of the handle is ever performed. *)
Lemma null_release_timeout_stuck (c : NullDeviceConfig) (p : nat) (h : NullDeviceFileHandle)
    (s : NullDeviceHelper) :
  (simulateTimeout c "release" s).2 = Value true →
  ∃ st, run_drains startDrain endDrain (visit c) 3 (handle_release p (create (mk_OpExec (Some h) s ∅)))
        = Some (st, []) ∧ op_promises (m_opVisitor st) !! p = None ∧
    ∀ st' sch exe, rtc (history_step startDrain endDrain (visit c)) (st, [ReleaseOp p], []) (st', sch, exe) → exe = [].
Proof.
  intros Ht. destruct (release_stuck c p h s ∅ Ht) as (st & Hrun & Hst & Hp). exists st.
  split; [done|]. split; [by rewrite Hp|]. intros st' sch exe Hrtc.
  by apply (stuck_forever _ _ _ _ _ Hrtc) in Hst as [_ He].
Qed.

(** The tree of the documentation, 2-2:2-2:0-1, on a device that only delays
    writes. *)
Definition sample_device : NullDeviceConfig :=
  configure (λ _, 0) (λ _, double_zero) double_zero "write"
    [(2, 2); (2, 2); (0, 1)] double_zero 0.

Lemma sample_levels : levels_ok sample_device (new_NullDeviceHelper sample_device 0).
Proof. split; [done|]. by exists 3%nat. Qed.

