(* ===== verification/GlusterFS.v ===== *)
(** * The GlusterFS helper (src/src/glusterfsHelper.cc, src/src/glusterfsHelper.h)

    The calls of libgfapi are the type [glfs_call], indexed by their results,
    and the library is the class [Gluster] that runs them.  Helpers share the
    static table of volume connections; the references that keep a context of
    the library alive are counted as [std::shared_ptr] does.  Proved: however
    the operations of several helpers interleave, what an operation finds as
    its context is initialised and not finalised; the operations of a handle
    are those of a file; translator options survive printing and parsing. *)

From stdpp Require Import base numbers list gmap strings relations.
From Stdlib Require Import ZArith Lia Strings.Byte Strings.Ascii.
From S2P Require Import Prelude StdStrings Storage Posix PosixHelper PosixHandle.
Local Open Scope Z_scope.

(** ** The library *)

(** Pointers are numbers, a null pointer is [None]; [fs] is a context. *)
Abbreviation ptr := (option Z).

(** A call returns its result, and what it stores through its pointers. *)
Inductive glfs_call : Type → Type :=
| glfs_new (volname : string) : glfs_call ptr
| glfs_fini (fs : ptr) : glfs_call Z
| glfs_set_volfile_server (fs : ptr) (transport host : string) (port : Z) : glfs_call Z
| glfs_set_xlator_option (fs : ptr) (xlator key value : string) : glfs_call Z
| glfs_init (fs : ptr) : glfs_call Z
| glfs_setfsuid (uid : Z) : glfs_call Z
| glfs_setfsgid (gid : Z) : glfs_call Z
| glfs_creat (fs : ptr) (path : string) (flags mode : Z) : glfs_call ptr
| glfs_open (fs : ptr) (path : string) (flags : Z) : glfs_call ptr
| glfs_close (fd : ptr) : glfs_call Z
| glfs_pread (fd : ptr) (count offset : Z) : glfs_call (Z * bytes)
| glfs_pwritev (fd : ptr) (iov : list bytes) (offset : Z) : glfs_call Z
| glfs_fsync (fd : ptr) : glfs_call Z
| glfs_fdatasync (fd : ptr) : glfs_call Z
| glfs_lstat (fs : ptr) (path : string) : glfs_call (Z * stat)
| glfs_access (fs : ptr) (path : string) (mask : Z) : glfs_call Z
| glfs_opendir (fs : ptr) (path : string) : glfs_call ptr
| glfs_readdir (dir : ptr) : glfs_call (option string)
| glfs_closedir (dir : ptr) : glfs_call Z
| glfs_readlink (fs : ptr) (path : string) (size : Z) : glfs_call (Z * string)
| glfs_mknod (fs : ptr) (path : string) (mode rdev : Z) : glfs_call Z
| glfs_mkdir (fs : ptr) (path : string) (mode : Z) : glfs_call Z
| glfs_unlink (fs : ptr) (path : string) : glfs_call Z
| glfs_rmdir (fs : ptr) (path : string) : glfs_call Z
| glfs_symlink (fs : ptr) (from to : string) : glfs_call Z
| glfs_rename (fs : ptr) (from to : string) : glfs_call Z
| glfs_link (fs : ptr) (from to : string) : glfs_call Z
| glfs_chmod (fs : ptr) (path : string) (mode : Z) : glfs_call Z
| glfs_chown (fs : ptr) (path : string) (uid gid : Z) : glfs_call Z
| glfs_truncate (fs : ptr) (path : string) (size : Z) : glfs_call Z
| glfs_getxattr (fs : ptr) (path name : string) (size : Z) : glfs_call (Z * string)
| glfs_setxattr (fs : ptr) (path name value : string) (flags : Z) : glfs_call Z
| glfs_removexattr (fs : ptr) (path name : string) : glfs_call Z
| glfs_listxattr (fs : ptr) (path : string) (size : Z) : glfs_call (Z * string).

Class Gluster (G : Type) := {
  glfs_run : ∀ {A}, glfs_call A → G → G * A;
  glfs_errno : G → Z;
  (** A bound on the names a directory stream still has. *)
  glfs_dir_bound : G → ptr → nat
}.

(** ** Paths *)

(** The loops of [makeRelative] over the elements of the paths: the common
    beginning is skipped, then the elements that are left are appended. *)
Fixpoint skip_common (parent child : list string) : list string :=
  match parent, child with
  | p :: parent', c :: child' => if String.eqb p c then skip_common parent' child' else child
  | _, _ => child
  end.

Fixpoint append_elements (ret child : list string) : list string :=
  match child with
  | [] => ret
  | c :: child' =>
      if String.eqb c ".." then append_elements (removelast ret) child'
      else if String.eqb c "." then append_elements ret child'
      else append_elements (ret ++ [c]) child'
  end.

(** The arguments and the result as the elements of their relative paths. *)
Definition makeRelative (parent child : list string) : list string :=
  match parent with
  | [] => child
  | _ => append_elements [] (skip_common parent child)
  end.

(** ** Translator options *)

Abbreviation GlusterFSXlatorOptions := (list (string * string)).

Fixpoint parse_pairs (optionPairs : list string) : Try GlusterFSXlatorOptions :=
  match optionPairs with
  | [] => Value []
  | optionPair :: optionPairs' =>
      if String.eqb optionPair "" then parse_pairs optionPairs'
      else
        match split_keep "=" optionPair with
        | [name; value] =>
            if String.eqb name "" || String.eqb value "" then Exception runtime_error
            else result ← parse_pairs optionPairs'; Value ((name, value) :: result)
        | _ => Exception runtime_error
        end
  end.

Definition parseXlatorOptions (options : string) : Try GlusterFSXlatorOptions :=
  if String.eqb options "" then Value [] else parse_pairs (split_keep ";" options).

(** ** Retrying *)

(** EINTR, EIO, EAGAIN, EACCES, EBUSY, EMFILE, ETXTBSY, ESPIPE, EMLINK, EPIPE,
    EDEADLK, EWOULDBLOCK, ENOLINK, EADDRINUSE, EADDRNOTAVAIL, ENETDOWN,
    ENETUNREACH, ECONNABORTED, ECONNRESET, ENOTCONN, EHOSTUNREACH, ECANCELED,
    ENONET, EHOSTDOWN, EREMOTEIO, ENOMEDIUM (Linux). *)
Definition GLUSTERFS_RETRY_ERRORS : list Z :=
  [4; 5; 11; 13; 16; 24; 26; 29; 31; 32; 35; 11; 67; 98; 99; 100; 101; 103; 104; 107; 113; 125;
   64; 112; 121; 123].

(** The result is narrowed to [int]; [e] is [errno] after the call. *)
Definition GlusterFSRetryCondition (result e : Z) : bool :=
  (0 <=? i32 result) || negb (bool_decide (e ∈ GLUSTERFS_RETRY_ERRORS)).
Definition GlusterFSRetryHandleCondition (result : ptr) (e : Z) : bool :=
  bool_decide (result ≠ None) || negb (bool_decide (e ∈ GLUSTERFS_RETRY_ERRORS)).

(** ** State *)

(** The members of a helper but its context; a helper is known by its number. *)
Record gluster_config := mk_gluster_config {
  gc_mountPoint : string; gc_uid : Z; gc_gid : Z; gc_hostname : string; gc_port : Z;
  gc_volume : string; gc_transport : string; gc_xlatorOptions : string
}.

Record GlusterFSConnection := mk_GlusterFSConnection { glfsCtx : ptr; connected : bool }.

Definition generateCtxId (hostname : string) (port : Z) (volume : string) : string :=
  (hostname ++ "::" ++ to_string port ++ "::" ++ volume)%string.

(** The library, the static table, and of each living helper [m_glfsCtx]. *)
Record gluster (G : Type) := mk_gluster {
  gs_lib : G;
  glusterFSConnections : gmap string GlusterFSConnection;
  m_glfsCtx : gmap nat ptr
}.
Arguments mk_gluster {G} _ _ _.
Arguments gs_lib {G} _.
Arguments glusterFSConnections {G} _.
Arguments m_glfsCtx {G} _.

Section helper.
Context {G : Type} `{Gluster G}.
Abbreviation GS := (gluster G).

Definition lib {A} (c : glfs_call A) : ST GS A := λ s,
  let '(g, a) := glfs_run c (gs_lib s) in
  (mk_gluster g (glusterFSConnections s) (m_glfsCtx s), Value a).

(** A call, with the [errno] it leaves. *)
Definition call {A} (c : glfs_call A) : ST GS (A * Z) := λ s,
  let '(g, a) := glfs_run c (gs_lib s) in
  (mk_gluster g (glusterFSConnections s) (m_glfsCtx s), Value (a, glfs_errno g)).

Definition retry_call (c : glfs_call Z) : ST GS (Z * Z) :=
  retry (call c) (λ r, GlusterFSRetryCondition r.1 r.2) IO_RETRY_COUNT.
(** A call that also fills a buffer. *)
Definition retry_call_out {A} (c : glfs_call (Z * A)) : ST GS (Z * A * Z) :=
  retry (call c) (λ r, GlusterFSRetryCondition r.1.1 r.2) IO_RETRY_COUNT.
(** A call that returns a pointer. *)
Definition retry_call_ptr (c : glfs_call ptr) : ST GS (ptr * Z) :=
  retry (call c) (λ r, GlusterFSRetryHandleCondition r.1 r.2) IO_RETRY_COUNT.

(** [setHandleResult] and [setContextResult]. *)
Definition setResult (c : glfs_call Z) : ST GS unit :=
  '(ret, e) ← retry_call c;
  if ret <? 0 then st_throw (makePosixException e) else mret tt.

(** ** Shared contexts *)

(** Whether a [shared_ptr] to the context [p] is left. *)
Definition referenced (p : Z) (s : GS) : bool :=
  bool_decide (map_Exists (λ _ c, glfsCtx c = Some p) (glusterFSConnections s)) ||
  bool_decide (map_Exists (λ _ q, q = Some p) (m_glfsCtx s)).

(** The end of a reference; the deleter of the last one finalises the context. *)
Definition drop_ctx (p : ptr) : ST GS unit := λ s,
  match p with
  | Some q => if referenced q s then (s, Value tt) else (_ ← lib (glfs_fini (Some q)); mret tt) s
  | None => (s, Value tt)
  end.

Definition find_connection (ctxId : string) : ST GS (option GlusterFSConnection) := λ s,
  (s, Value (glusterFSConnections s !! ctxId)).
Definition set_connection (ctxId : string) (c : GlusterFSConnection) : ST GS unit := λ s,
  (mk_gluster (gs_lib s) (<[ctxId := c]> (glusterFSConnections s)) (m_glfsCtx s), Value tt).

(** [s.lock()] in [connect]: the helper's own context if the helper lives. *)
Definition lock_helper (id : nat) : ST GS ptr := λ s,
  match m_glfsCtx s !! id with
  | Some p => (s, Value p)
  | None => (s, Exception (makePosixException ECANCELED))
  end.
Definition set_ctx (id : nat) (p : ptr) : ST GS unit := λ s,
  (mk_gluster (gs_lib s) (glusterFSConnections s) (<[id := p]> (m_glfsCtx s)), Value tt).

(** [m_glfsCtx = gfsConnection.glfsCtx] in a helper that holds [old]. *)
Definition assign_ctx (id : nat) (old p : ptr) : ST GS unit := _ ← set_ctx id p; drop_ctx old.

(** [m_glfsCtx.get()] through a captured [this], which may be gone. *)
Definition get_ctx (id : nat) : ST GS ptr := λ s,
  match m_glfsCtx s !! id with
  | Some p => (s, Value p)
  | None => (s, Exception undefined_behaviour)
  end.

Fixpoint set_xlator_options (fs : ptr) (volume : string) (xlatorOpts : GlusterFSXlatorOptions) : ST GS unit :=
  match xlatorOpts with
  | [] => mret tt
  | (key, value) :: xlatorOpts' =>
      ret ← lib (glfs_set_xlator_option fs volume key value);
      if ret <? 0 then st_throw (makePosixException EINVAL) else set_xlator_options fs volume xlatorOpts'
  end.

Definition ENOMEM : Z := 12.

(** A new context in the connection [ctxId] and in the helper, which holds [old]. *)
Definition prepare_connection (id : nat) (volume ctxId : string) (old : ptr)
    (gfsConnection : GlusterFSConnection) : ST GS ptr :=
  fs ← lib (glfs_new volume);
  _ ← set_connection ctxId (mk_GlusterFSConnection fs (connected gfsConnection));
  _ ← drop_ctx (glfsCtx gfsConnection);
  _ ← assign_ctx id old fs;
  mret fs.

(** The connection [ctxId] has no context that is initialised. *)
Definition new_connection (id : nat) (c : gluster_config) (ctxId : string) (old : ptr)
    (gfsConnection : GlusterFSConnection) : ST GS unit :=
  fs ← prepare_connection id (gc_volume c) ctxId old gfsConnection;
  if bool_decide (fs = None) then st_throw (makePosixException ENOMEM)
  else
    '(ret, e) ← call (glfs_set_volfile_server fs (gc_transport c) (gc_hostname c) (gc_port c));
    if negb (ret =? 0) then st_throw (makePosixException e)
    else
      xlatorOpts ← st_lift (parseXlatorOptions (gc_xlatorOptions c));
      _ ← set_xlator_options fs (gc_volume c) xlatorOpts;
      '(ret, e) ← retry_call (glfs_init fs);
      if ret <? 0 then st_throw (makePosixException e)
      else set_connection ctxId (mk_GlusterFSConnection fs true).

Definition ctx_id (c : gluster_config) : string := generateCtxId (gc_hostname c) (gc_port c) (gc_volume c).

Definition connect (id : nat) (c : gluster_config) : ST GS unit :=
  old ← lock_helper id;
  let ctxId := ctx_id c in
  found ← find_connection ctxId;
  _ ← (match found with
       | None => set_connection ctxId (mk_GlusterFSConnection None false)
       | Some _ => mret tt
       end);
  let gfsConnection := default (mk_GlusterFSConnection None false) found in
  if connected gfsConnection then assign_ctx id old (glfsCtx gfsConnection)
  else new_connection id c ctxId old gfsConnection.

(** [~GlusterFSHelper] of the member [m_glfsCtx]. *)
Definition delete_helper (id : nat) : ST GS unit := λ s,
  match m_glfsCtx s !! id with
  | Some p => drop_ctx p (mk_gluster (gs_lib s) (glusterFSConnections s) (delete id (m_glfsCtx s)))
  | None => (s, Value tt)
  end.
Definition new_helper (id : nat) (s : GS) : GS :=
  mk_gluster (gs_lib s) (glusterFSConnections s) (<[id := None]> (m_glfsCtx s)).

(** ** The operations *)

(** [operator/] of boost::filesystem::path; the helper. *)
Context (path_append : string → string → string) (id : nat) (c : gluster_config).

Definition root (fileId : string) : string := path_append (gc_mountPoint c) fileId.

(** [elements] are those of the relative path of a path. *)
Definition relative (elements : string → list string) (fileId : string) : list string :=
  makeRelative (elements (gc_mountPoint c)) (elements fileId).

(** What the continuations of an operation begin with. *)
Definition as_user {A} (body : ptr → ST GS A) : ST GS A :=
  _ ← lib (glfs_setfsuid (gc_uid c));
  _ ← lib (glfs_setfsgid (gc_gid c));
  fs ← get_ctx id;
  body fs.

(** The members of a handle but [m_needsRelease]. *)
Record GlusterFSFileHandle := mk_GlusterFSFileHandle {
  gf_fileId : string; gf_helper : nat; m_glfsFd : ptr; gf_uid : Z; gf_gid : Z
}.

Definition S_IRWXU : Z := 448.
Definition S_IRWXG : Z := 56.
Definition S_IRWXO : Z := 7.

(** The mode of a file that [open] creates. *)
Definition creat_mode (flags : Z) : Z :=
  Z.lor (Z.lor (Z.land flags S_IRWXU) (Z.land flags S_IRWXG)) (Z.land flags S_IRWXO).

(** The continuation of each operation, after [connect]. *)
Definition open_body (fileId : string) (flags : Z) (openParams : Params) : ST GS GlusterFSFileHandle :=
  let filePath := root fileId in as_user (λ fs,
    '(glfsFd, e) ← (if negb (Z.land flags O_CREAT =? 0)
                    then retry_call_ptr (glfs_creat fs filePath flags (creat_mode flags))
                    else retry_call_ptr (glfs_open fs filePath flags));
    if bool_decide (glfsFd = None) then st_throw (makePosixException e)
    else mret (mk_GlusterFSFileHandle filePath id glfsFd (gc_uid c) (gc_gid c))).

Definition getattr_body (fileId : string) : ST GS stat :=
  let filePath := root fileId in as_user (λ fs,
    '(ret, stbuf, e) ← retry_call_out (glfs_lstat fs filePath);
    if ret <? 0 then st_throw (makePosixException e) else mret stbuf).

Definition access_body (fileId : string) (mask : Z) : ST GS unit :=
  let filePath := root fileId in as_user (λ fs, setResult (glfs_access fs filePath mask)).

(** How many names the stream [d] can still give. *)
Definition names_left (d : ptr) : ST GS nat := λ s, (s, Value (glfs_dir_bound (gs_lib s) d)).

(** The loop over the stream [d]; [fuel] bounds the names it has left. *)
Fixpoint readdir_loop (fuel : nat) (d : ptr) (offset_ count_ : Z) (ret : list string) : ST GS (list string) :=
  dp ← lib (glfs_readdir d);
  match dp with
  | None => mret ret
  | Some name =>
      if 0 <? count_ then
        match fuel with
        | O => st_throw runtime_error
        | S fuel' =>
            if negb (String.eqb name ".") && negb (String.eqb name "..") then
              if 0 <? offset_ then readdir_loop fuel' d (offset_ - 1) count_ ret
              else readdir_loop fuel' d offset_ (count_ - 1) (ret ++ [name])
            else readdir_loop fuel' d offset_ count_ ret
        end
      else mret ret
  end.

Definition readdir_body (fileId : string) (offset count : Z) : ST GS (list string) :=
  let filePath := root fileId in as_user (λ fs,
    '(dir, e) ← retry_call_ptr (glfs_opendir fs filePath);
    if bool_decide (dir = None) then st_throw (makePosixException e)
    else
      bound ← names_left dir;
      ret ← readdir_loop bound dir (i32 offset) (i32 count) [];
      _ ← lib (glfs_closedir dir);
      mret ret).

Definition readlink_body (fileId : string) : ST GS string :=
  let filePath := root fileId in as_user (λ fs,
    '(res, target, e) ← retry_call_out (glfs_readlink fs filePath 1023);
    if res <? 0 then st_throw (makePosixException e) else mret target).

Definition mknod_body (fileId : string) (unmaskedMode : Z) (flags : FlagsSet) (rdev : Z) : ST GS unit :=
  let mode := Z.lor unmaskedMode (flagsToMask flags) in
  let filePath := root fileId in as_user (λ fs, setResult (glfs_mknod fs filePath mode rdev)).
Definition mkdir_body (fileId : string) (mode : Z) : ST GS unit :=
  let filePath := root fileId in as_user (λ fs, setResult (glfs_mkdir fs filePath mode)).
Definition unlink_body (fileId : string) (currentSize : Z) : ST GS unit :=
  let filePath := root fileId in as_user (λ fs, setResult (glfs_unlink fs filePath)).
Definition rmdir_body (fileId : string) : ST GS unit :=
  let filePath := root fileId in as_user (λ fs, setResult (glfs_rmdir fs filePath)).
Definition symlink_body (from to : string) : ST GS unit :=
  let from := root from in let to := root to in as_user (λ fs, setResult (glfs_symlink fs from to)).
Definition rename_body (from to : string) : ST GS unit :=
  let from := root from in let to := root to in as_user (λ fs, setResult (glfs_rename fs from to)).
Definition link_body (from to : string) : ST GS unit :=
  let from := root from in let to := root to in as_user (λ fs, setResult (glfs_link fs from to)).
Definition chmod_body (fileId : string) (mode : Z) : ST GS unit :=
  let filePath := root fileId in as_user (λ fs, setResult (glfs_chmod fs filePath mode)).
Definition chown_body (fileId : string) (uid gid : Z) : ST GS unit :=
  let filePath := root fileId in as_user (λ fs, setResult (glfs_chown fs filePath uid gid)).
Definition truncate_body (fileId : string) (size currentSize : Z) : ST GS unit :=
  let filePath := root fileId in as_user (λ fs, setResult (glfs_truncate fs filePath size)).

Definition getxattr_body (fileId name : string) : ST GS string :=
  let filePath := root fileId in as_user (λ fs,
    let initialMaxSize := 1024 in
    '(res, buf, e) ← retry_call_out (glfs_getxattr fs filePath name (initialMaxSize - 1));
    '(res, buf, e) ← (if (res =? -1) && (e =? ERANGE)
                      then retry_call_out (glfs_getxattr fs filePath name (XATTR_SIZE_MAX - 1))
                      else mret (res, buf, e));
    if res =? -1 then st_throw (makePosixException e) else mret buf).

Definition setxattr_body (fileId name value : string) (create replace : bool) : ST GS unit :=
  let filePath := root fileId in
  if create && replace then st_throw (makePosixException EINVAL)
  else
    let flags := if create then XATTR_CREATE else if replace then XATTR_REPLACE else 0 in
    as_user (λ fs, setResult (glfs_setxattr fs filePath name value flags)).

Definition removexattr_body (fileId name : string) : ST GS unit :=
  let filePath := root fileId in as_user (λ fs, setResult (glfs_removexattr fs filePath name)).

Definition listxattr_body (fileId : string) : ST GS (list string) :=
  let filePath := root fileId in as_user (λ fs,
    '(buflen, _, e) ← retry_call_out (glfs_listxattr fs filePath 0);
    if buflen =? -1 then st_throw (makePosixException e)
    else if buflen =? 0 then mret []
    else
      '(buflen', buf, e') ← retry_call_out (glfs_listxattr fs filePath buflen);
      if buflen' =? -1 then st_throw (makePosixException e')
      else st_lift (xattr_names (String.length buf) buf)).

(** The continuations by the method they belong to. *)
Definition bodies : StorageHelper GS GlusterFSFileHandle := {|
  sh_getattr := getattr_body; sh_access := access_body; sh_readlink := readlink_body;
  sh_readdir := readdir_body; sh_mknod := mknod_body; sh_mkdir := mkdir_body;
  sh_unlink := unlink_body; sh_rmdir := rmdir_body; sh_symlink := symlink_body;
  sh_rename := rename_body; sh_link := link_body; sh_chmod := chmod_body; sh_chown := chown_body;
  sh_truncate := truncate_body; sh_open := open_body; sh_getxattr := getxattr_body;
  sh_setxattr := setxattr_body; sh_removexattr := removexattr_body; sh_listxattr := listxattr_body
|}.

(** A method: [connect], then its continuation. *)
Definition gluster_op {A} (call : helper_call GlusterFSFileHandle A) : ST GS A :=
  _ ← connect id c; perform bodies call.

End helper.

(** ** GlusterFSFileHandle *)

Section handle.
Context {G : Type} `{Gluster G} (c : gluster_config) (fh : GlusterFSFileHandle).

(** [gh_alive]: the handle was not destroyed, so that its continuations can lock
    it; a handle keeps its helper alive. *)
Record gluster_handle := mk_gluster_handle {
  gh_store : gluster G; m_needsRelease : bool; gh_alive : bool
}.

Definition on_store {A} (m : ST (gluster G) A) : ST gluster_handle A := λ h,
  let '(s, r) := m (gh_store h) in (mk_gluster_handle s (m_needsRelease h) (gh_alive h), r).

Definition lock_handle : ST gluster_handle unit := λ h,
  if gh_alive h then (h, Value tt) else (h, Exception (makePosixException ECANCELED)).

(** The continuations of the operations, after [connect] and the lock. *)
Definition as_handle_user {A} (body : ST (gluster G) A) : ST (gluster G) A :=
  _ ← lib (glfs_setfsuid (gf_uid fh));
  _ ← lib (glfs_setfsgid (gf_gid fh));
  body.

(** The number of bytes, not [errno], becomes the error of a failed read. *)
Definition read_body (offset size : Z) : ST (gluster G) bytes := as_handle_user (
  '(readBytesCount, raw, e) ← retry_call_out (glfs_pread (m_glfsFd fh) size offset);
  if readBytesCount <? 0 then st_throw (makePosixException readBytesCount)
  else mret (take (Z.to_nat readBytesCount) raw)).

Definition write_body (offset : Z) (buf : list bytes) : ST (gluster G) Z := as_handle_user (
  if bool_decide (concat buf = []) then mret 0
  else
    let iov := getIov buf in
    '(res, e) ← retry_call (glfs_pwritev (m_glfsFd fh) iov offset);
    if res =? -1 then st_throw (makePosixException e) else mret (u64 res)).

Definition release_body : ST (gluster G) unit := as_handle_user (setResult (glfs_close (m_glfsFd fh))).

Definition fsync_body (isDataSync : bool) : ST (gluster G) unit := as_handle_user (
  if isDataSync then setResult (glfs_fdatasync (m_glfsFd fh)) else setResult (glfs_fsync (m_glfsFd fh))).

(** What the destructor does for a handle that was not released. *)
Definition close_body : ST (gluster G) unit := as_handle_user (_ ← lib (glfs_close (m_glfsFd fh)); mret tt).

Definition handle_op {A} (body : ST (gluster G) A) : ST gluster_handle A :=
  _ ← on_store (connect (gf_helper fh) c);
  _ ← lock_handle;
  on_store body.

Definition read (offset size : Z) : ST gluster_handle bytes := handle_op (read_body offset size).
Definition write (offset : Z) (buf : list bytes) : ST gluster_handle Z := handle_op (write_body offset buf).

(** [m_needsRelease.exchange(false)] *)
Definition exchange_needsRelease : ST gluster_handle bool := λ h,
  (mk_gluster_handle (gh_store h) false (gh_alive h), Value (m_needsRelease h)).

Definition release : ST gluster_handle unit :=
  needsRelease ← exchange_needsRelease;
  if negb needsRelease then mret tt else handle_op release_body.

Definition flush : ST gluster_handle unit := on_store (connect (gf_helper fh) c).

Definition fsync (isDataSync : bool) : ST gluster_handle unit := handle_op (fsync_body isDataSync).

(** [~GlusterFSFileHandle] *)
Definition delete_handle : ST gluster_handle unit :=
  needsRelease ← exchange_needsRelease;
  if (needsRelease : bool) then on_store close_body else mret tt.

(** An operation of PosixHandle.v on this handle. *)
Definition handle_run (op : HandleOp) : ST gluster_handle op_result :=
  match op with
  | ReadOp _ offset size => b ← read offset size; mret (read_result b)
  | WriteOp _ offset buf => n ← write offset buf; mret (write_result n)
  | FsyncOp _ => _ ← fsync false; mret unit_result
  | FlushOp _ => _ ← flush; mret unit_result
  | ReleaseOp _ => _ ← release; mret unit_result
  end.

(** Operations one after another. *)
Fixpoint handle_runs (ops : list HandleOp) (h : gluster_handle)
  : gluster_handle * list (HandleOp * Try op_result) :=
  match ops with
  | [] => (h, [])
  | op :: ops' =>
      let '(h1, r) := handle_run op h in
      let '(h2, l) := handle_runs ops' h1 in (h2, (op, r) :: l)
  end.
End handle.
Arguments gluster_handle : clear implicits.

(** ** What the library promises *)

(** Contexts that were made and not finalised are [fresh] or [initialised]. *)
Inductive ctx_phase := not_a_context | fresh | initialised.

Definition glfs_lifecycle {A} (c : glfs_call A) : bool :=
  match c with glfs_new _ | glfs_fini _ | glfs_init _ => true | _ => false end.

Class GlusterCtxLaws (G : Type) `{Gluster G} := {
  phase : G → Z → ctx_phase;
  new_phase : ∀ g volname,
    let '(g', p) := glfs_run (glfs_new volname) g in
    match p with
    | Some p => phase g p = not_a_context ∧ phase g' p = fresh ∧ ∀ q, q ≠ p → phase g' q = phase g q
    | None => ∀ q, phase g' q = phase g q
    end;
  init_phase : ∀ g p, phase g p = fresh →
    let '(g', r) := glfs_run (glfs_init (Some p)) g in
    (r = 0 ∧ phase g' p = initialised ∨ r = -1 ∧ phase g' p = fresh) ∧
    ∀ q, q ≠ p → phase g' q = phase g q;
  fini_phase : ∀ g p q, q ≠ p → phase (glfs_run (glfs_fini (Some p)) g).1 q = phase g q;
  call_phase : ∀ A (c : glfs_call A) g q, glfs_lifecycle c = false → phase (glfs_run c g).1 q = phase g q
}.

(** Regular files behind descriptors. *)
Class GlusterFileLaws (G : Type) `{Gluster G} := {
  glfs_file : G → ptr → option bytes;
  glfs_setfsuid_file : ∀ g uid, glfs_file (glfs_run (glfs_setfsuid uid) g).1 = glfs_file g;
  glfs_setfsgid_file : ∀ g gid, glfs_file (glfs_run (glfs_setfsgid gid) g).1 = glfs_file g;
  glfs_pread_file : ∀ g fd f count offset, glfs_file g fd = Some f → 0 <= offset <= OFF_MAX → 0 <= count →
    ∃ g' r b, glfs_run (glfs_pread fd count offset) g = (g', (r, b)) ∧ glfs_file g' fd = Some f ∧
      (r = -1 ∨ b `prefix_of` pread f offset count ∧ r = chainLength b);
  glfs_pwritev_file : ∀ g fd f iov offset, glfs_file g fd = Some f → 0 <= offset <= OFF_MAX →
    ∃ g' r, glfs_run (glfs_pwritev fd iov offset) g = (g', r) ∧
      (r = -1 ∧ glfs_file g' fd = Some f ∨
       0 <= r <= chainLength (concat iov) ∧
       glfs_file g' fd = Some (pwrite f offset (take (Z.to_nat r) (concat iov))));
  glfs_sync_file : ∀ g fd f (data : bool), glfs_file g fd = Some f →
    glfs_file (glfs_run (if data then glfs_fdatasync fd else glfs_fsync fd) g).1 fd = Some f
}.

(** ** Contexts of interleaved operations *)

Section contexts.
Context {G : Type} `{GG : Gluster G} (path_append : string → string → string) (config : nat → gluster_config).
Abbreviation GS := (gluster G).

(** The continuation of an operation of a helper, or of one of its handles. *)
Inductive continuation : Type :=
| helper_body (A : Type) (call : helper_call GlusterFSFileHandle A)
| read_cont (fh : GlusterFSFileHandle) (offset size : Z)
| write_cont (fh : GlusterFSFileHandle) (offset : Z) (buf : list bytes)
| release_cont (fh : GlusterFSFileHandle)
| fsync_cont (fh : GlusterFSFileHandle) (isDataSync : bool).

Definition run_continuation (id : nat) (k : continuation) (s : GS) : GS :=
  match k with
  | helper_body A call => (perform (bodies path_append id (config id)) call s).1
  | read_cont fh offset size => (read_body fh offset size s).1
  | write_cont fh offset buf => (write_body fh offset buf s).1
  | release_cont fh => (release_body fh s).1
  | fsync_cont fh isDataSync => (fsync_body fh isDataSync s).1
  end.

(** Helpers are made and destroyed and operations connect, each under the mutex
    of the table; [connected_ops] lists, by helper, the operations that wait to
    continue.  A handle that is destroyed closes its descriptor. *)
Inductive gluster_step : GS * list nat → GS * list nat → Prop :=
| step_new id s ops : m_glfsCtx s !! id = None → id ∉ ops → gluster_step (s, ops) (new_helper id s, ops)
| step_delete id s ops : gluster_step (s, ops) ((delete_helper id s).1, ops)
| step_connect id s s' ops :
    connect id (config id) s = (s', Value tt) → gluster_step (s, ops) (s', id :: ops)
| step_refused id s s' e ops :
    connect id (config id) s = (s', Exception e) → gluster_step (s, ops) (s', ops)
| step_continue id k s ops1 ops2 :
    gluster_step (s, ops1 ++ id :: ops2) (run_continuation id k s, ops1 ++ ops2)
| step_close fh s ops : gluster_step (s, ops) ((close_body fh s).1, ops).

Context `{!GlusterCtxLaws G}.

(** The state but what the library does besides contexts. *)
Definition same_contexts (s0 s : GS) : Prop :=
  glusterFSConnections s = glusterFSConnections s0 ∧ m_glfsCtx s = m_glfsCtx s0 ∧
  ∀ q, phase (gs_lib s) q = phase (gs_lib s0) q.

Lemma keeps_lib {A} (s0 : GS) (c : glfs_call A) :
  glfs_lifecycle c = false → st_keeps (same_contexts s0) (lib c) ∧ st_keeps (same_contexts s0) (call c).
Proof.
  intros Hc. split; intros s (H1 & H2 & H3); unfold lib, call;
    pose proof (λ q, call_phase A c (gs_lib s) q Hc) as Hp; destruct (glfs_run c (gs_lib s)) as [g a];
    (split_and!; [done..|]); intros q; simpl in *; by rewrite Hp.
Qed.

Lemma keeps_get_ctx (s0 : GS) (id : nat) : st_keeps (same_contexts s0) (get_ctx id).
Proof. intros s Hs. unfold get_ctx. by destruct (m_glfsCtx s !! id). Qed.

Lemma keeps_names_left (s0 : GS) (d : ptr) : st_keeps (same_contexts s0) (names_left d).
Proof. by intros s Hs. Qed.

Hint Resolve keeps_get_ctx keeps_names_left : keeps.
Hint Extern 1 (st_keeps _ (lib _)) => apply keeps_lib; reflexivity : keeps.
Hint Extern 1 (st_keeps _ (call _)) => apply keeps_lib; reflexivity : keeps.

Lemma keeps_readdir_loop (s0 : GS) (fuel : nat) (d : ptr) (offset_ count_ : Z) (ret : list string) :
  st_keeps (same_contexts s0) (readdir_loop fuel d offset_ count_ ret).
Proof.
  revert offset_ count_ ret. induction fuel as [|fuel IH]; intros; simpl; st_keeps_steps; apply IH.
Qed.
Hint Resolve keeps_readdir_loop : keeps.

Ltac body_keeps :=
  unfold as_user, as_handle_user, setResult, retry_call, retry_call_out, retry_call_ptr; st_keeps_steps.

Lemma bodies_keep {A} (s0 : GS) (id : nat) (call : helper_call GlusterFSFileHandle A) :
  st_keeps (same_contexts s0) (perform (bodies path_append id (config id)) call).
Proof.
  destruct call; simpl;
    unfold getattr_body, access_body, readlink_body, readdir_body, mknod_body, mkdir_body, unlink_body,
      rmdir_body, symlink_body, rename_body, link_body, chmod_body, chown_body, truncate_body, open_body,
      getxattr_body, setxattr_body, removexattr_body, listxattr_body; body_keeps.
Qed.

Lemma continuation_keeps (id : nat) (k : continuation) (s : GS) : same_contexts s (run_continuation id k s).
Proof.
  destruct k; simpl; [by apply bodies_keep|..];
    unfold read_body, write_body, release_body, fsync_body;
    (match goal with |- same_contexts s (?m s).1 => assert (st_keeps (same_contexts s) m) as Hk; [|by apply Hk] end);
    body_keeps.
Qed.

Lemma close_keeps (fh : GlusterFSFileHandle) (s : GS) : same_contexts s (close_body fh s).1.
Proof.
  assert (st_keeps (same_contexts s) (close_body fh)) as Hk; [|by apply Hk].
  unfold close_body. body_keeps.
Qed.

(** Contexts of connections that are marked as connected. *)
Definition contexts_ok (s : GS) : Prop :=
  ∀ k conn, glusterFSConnections s !! k = Some conn → connected conn = true →
  ∃ p, glfsCtx conn = Some p ∧ phase (gs_lib s) p = initialised.

(** What waits to continue has the context of its connection. *)
Definition waiting_ok (s : GS) (ops : list nat) : Prop :=
  ∀ id q, id ∈ ops → m_glfsCtx s !! id = Some q →
  glusterFSConnections s !! ctx_id (config id) = Some (mk_GlusterFSConnection q true).

Definition keeps_connected (s s' : GS) : Prop :=
  ∀ k conn, glusterFSConnections s !! k = Some conn → connected conn = true →
  glusterFSConnections s' !! k = Some conn.

Lemma referenced_connection (s : GS) (k : string) (conn : GlusterFSConnection) (p : Z) :
  glusterFSConnections s !! k = Some conn → glfsCtx conn = Some p → referenced p s = true.
Proof.
  intros Hk Hp. unfold referenced. rewrite (bool_decide_eq_true_2 (map_Exists _ (glusterFSConnections s))); [done|].
  by exists k, conn.
Qed.

Lemma drop_ctx_spec (p : ptr) (s : GS) :
  ∃ s', drop_ctx p s = (s', Value tt) ∧ glusterFSConnections s' = glusterFSConnections s ∧
    m_glfsCtx s' = m_glfsCtx s ∧
    ∀ k conn q, glusterFSConnections s !! k = Some conn → glfsCtx conn = Some q →
      phase (gs_lib s') q = phase (gs_lib s) q.
Proof.
  unfold drop_ctx. destruct p as [p|]; [|by exists s]. destruct (referenced p s) eqn:Hp; [by exists s|].
  unfold lib, mbind, ST_bind. pose proof (fini_phase (gs_lib s) p) as Hfini.
  destruct (glfs_run (glfs_fini (Some p)) (gs_lib s)) as [g r]. eexists. split_and!; [done..|].
  intros k conn q Hk Hq. simpl in *. apply Hfini. intros ->.
  by rewrite (referenced_connection s k conn p Hk Hq) in Hp.
Qed.

Lemma contexts_ok_drop (p : ptr) (s : GS) : contexts_ok s → contexts_ok (drop_ctx p s).1.
Proof.
  intros Hs. destruct (drop_ctx_spec p s) as (s' & -> & Hc & _ & Hp). intros k conn Hk Hconn. simpl in *.
  rewrite Hc in Hk. destruct (Hs k conn Hk Hconn) as (q & Hq & Hph). exists q. split; [done|].
  by rewrite (Hp k conn q).
Qed.

(** [m_glfsCtx = gfsConnection.glfsCtx] *)
Lemma assign_ctx_spec (id : nat) (old p : ptr) (s : GS) :
  ∃ s', assign_ctx id old p s = (s', Value tt) ∧ glusterFSConnections s' = glusterFSConnections s ∧
    m_glfsCtx s' = <[id := p]> (m_glfsCtx s) ∧
    ∀ k conn q, glusterFSConnections s !! k = Some conn → glfsCtx conn = Some q →
      phase (gs_lib s') q = phase (gs_lib s) q.
Proof.
  unfold assign_ctx, set_ctx, mbind, ST_bind.
  destruct (drop_ctx_spec old (mk_gluster (gs_lib s) (glusterFSConnections s) (<[id:=p]> (m_glfsCtx s))))
    as (s' & -> & Hc & Hx & Hp). by exists s'.
Qed.

Lemma connect_connected (id : nat) (c : gluster_config) (old : ptr) (conn : GlusterFSConnection) (s : GS) :
  m_glfsCtx s !! id = Some old → glusterFSConnections s !! ctx_id c = Some conn → connected conn = true →
  connect id c s = assign_ctx id old (glfsCtx conn) s.
Proof.
  intros Hid Hk Hc. unfold connect, lock_helper, find_connection, mbind, ST_bind.
  rewrite Hid, Hk. simpl. by rewrite Hc.
Qed.

(** The context that a connection is to get: nobody else has it. *)
Definition prepared (s s1 : GS) (id : nat) (ctxId : string) (fs : ptr) : Prop :=
  glusterFSConnections s1 = <[ctxId := mk_GlusterFSConnection fs false]> (glusterFSConnections s) ∧
  m_glfsCtx s1 = <[id := fs]> (m_glfsCtx s) ∧ contexts_ok s1 ∧
  ∀ f, fs = Some f → phase (gs_lib s1) f = fresh.

Lemma prepare_spec (id : nat) (volume ctxId : string) (old : ptr) (conn : GlusterFSConnection) (s : GS) :
  contexts_ok s → glusterFSConnections s !! ctxId = Some conn → connected conn = false →
  ∃ s1 fs, prepare_connection id volume ctxId old conn s = (s1, Value fs) ∧ prepared s s1 id ctxId fs.
Proof.
  intros Hok Hk Hc. unfold prepare_connection. unfold lib at 1, set_connection, mbind, ST_bind. rewrite Hc.
  pose proof (new_phase (gs_lib s) volume) as Hnew. destruct (glfs_run (glfs_new volume) (gs_lib s)) as [g fs].
  simpl. match goal with |- context [drop_ctx _ ?st] => set (s2 := st) end.
  destruct (drop_ctx_spec (glfsCtx conn) s2) as (s3 & -> & Hc3 & Hx3 & Hp3).
  destruct (assign_ctx_spec id old fs s3) as (s4 & -> & Hc4 & Hx4 & Hp4).
  exists s4, fs. split; [done|]. unfold prepared. rewrite Hc4, Hx4, Hc3, Hx3. split_and!; [done..| |].
  - intros k conn' Hk' Hconn'. rewrite Hc4, Hc3 in Hk'. unfold s2 in Hk'. simpl in Hk'.
    destruct (decide (k = ctxId)) as [->|Hne]; [rewrite lookup_insert_eq in Hk'; by simplify_eq|].
    rewrite lookup_insert_ne in Hk' by done. destruct (Hok k conn' Hk' Hconn') as (p & Hp & Hph).
    exists p. split; [done|]. rewrite (Hp4 k conn' p), (Hp3 k conn' p);
      rewrite ?Hc3; try (by unfold s2; simpl; rewrite lookup_insert_ne); [|done..].
    unfold s2. simpl. destruct fs as [f|]; [|by rewrite Hnew]. destruct Hnew as (Hf & _ & Hother).
    rewrite Hother; [done|]. intros ->. congruence.
  - intros f ->. destruct Hnew as (_ & Hf & _).
    rewrite (Hp4 ctxId (mk_GlusterFSConnection (Some f) false) f), (Hp3 ctxId (mk_GlusterFSConnection (Some f) false) f);
      rewrite ?Hc3; unfold s2; simpl; by rewrite ?lookup_insert_eq.
Qed.

(** Calls of the library that make, initialise or finalise no context. *)
Lemma prepared_same (s s1 s2 : GS) (id : nat) (ctxId : string) (fs : ptr) :
  prepared s s1 id ctxId fs → same_contexts s1 s2 → prepared s s2 id ctxId fs.
Proof.
  intros (Hc & Hx & Hok & Hf) (Hc2 & Hx2 & Hp2). unfold prepared. rewrite Hc2, Hx2. split_and!; [done..| |].
  - intros k conn Hk Hconn. rewrite Hc2 in Hk. destruct (Hok k conn Hk Hconn) as (p & ? & ?). exists p. by rewrite Hp2.
  - intros f Hfs. rewrite Hp2. by apply Hf.
Qed.

Lemma init_spec (s s1 : GS) (id : nat) (ctxId : string) (f : Z) :
  prepared s s1 id ctxId (Some f) →
  ∃ s2 r e, retry_call (glfs_init (Some f)) s1 = (s2, Value (r, e)) ∧
    (prepared s s2 id ctxId (Some f) ∧ r = -1 ∨
     glusterFSConnections s2 = glusterFSConnections s1 ∧ m_glfsCtx s2 = m_glfsCtx s1 ∧ contexts_ok s2 ∧
     phase (gs_lib s2) f = initialised ∧ r = 0).
Proof.
  intros Hprep. set (Q := λ s2 r, glusterFSConnections s2 = glusterFSConnections s1 ∧
    m_glfsCtx s2 = m_glfsCtx s1 ∧ contexts_ok s2 ∧ phase (gs_lib s2) f = initialised ∧ r = 0).
  destruct (retry_until (call (glfs_init (Some f))) (λ r, GlusterFSRetryCondition r.1 r.2) IO_RETRY_COUNT
    (λ s2, prepared s s2 id ctxId (Some f))
    (λ s2 r, prepared s s2 id ctxId (Some f) ∧ r.1 = -1 ∨ Q s2 r.1) (λ _ r, r.1 = -1) s1)
    as (s2 & [r e] & Hr & Hres); [|done|].
  - intros s2 Hs2. pose proof Hs2 as (Hc2 & Hx2 & Hok2 & Hf2).
    unfold call. pose proof (init_phase (gs_lib s2) f (Hf2 f eq_refl)) as Hinit.
    destruct (glfs_run (glfs_init (Some f)) (gs_lib s2)) as [g r]. destruct Hinit as [Hr Hother].
    eexists _, _. split; [done|]. simpl.
    assert (contexts_ok (mk_gluster g (glusterFSConnections s2) (m_glfsCtx s2))) as Hok3.
    { intros k conn Hk Hconn. destruct (Hok2 k conn Hk Hconn) as (p & Hp & Hph). exists p. split; [done|].
      simpl. rewrite Hother; [done|]. intros ->. rewrite Hf2 in Hph; done. }
    destruct Hr as [[-> Hph]|[-> Hph]].
    + right. destruct Hprep as (Hc1 & Hx1 & _). unfold Q. simpl. rewrite Hc1, Hx1. split_and!; done.
    + assert (prepared s (mk_gluster g (glusterFSConnections s2) (m_glfsCtx s2)) id ctxId (Some f)).
      { split_and!; [done..|]. intros f' [= <-]. done. }
      destruct (GlusterFSRetryCondition _ _); [left|]; done.
  - exists s2, r, e. split; [done|]. simpl in Hres.
    destruct (GlusterFSRetryCondition r e); [|left; done]. destruct Hres as [Hres|Hres]; [by left|by right].
Qed.

Lemma keeps_set_xlator_options (s0 : GS) (fs : ptr) (volume : string) (opts : GlusterFSXlatorOptions) :
  st_keeps (same_contexts s0) (set_xlator_options fs volume opts).
Proof. induction opts as [|[key value] opts IH]; simpl; st_keeps_steps; apply IH. Qed.

Lemma same_contexts_refl (s : GS) : same_contexts s s.
Proof. done. Qed.

(** What [connect] of the helper [id] does with the connection [ctxId]. *)
Definition connect_post (s s' : GS) (id : nat) (ctxId : string) (r : Try unit) : Prop :=
  contexts_ok s' ∧ keeps_connected s s' ∧
  ∃ q, m_glfsCtx s' = <[id := q]> (m_glfsCtx s) ∧
    (r = Value tt → glusterFSConnections s' !! ctxId = Some (mk_GlusterFSConnection q true)).

Lemma prepared_post (s s1 : GS) (id : nat) (ctxId : string) (fs : ptr) (conn : GlusterFSConnection) (e : exc) :
  glusterFSConnections s !! ctxId = Some conn → connected conn = false →
  prepared s s1 id ctxId fs → connect_post s s1 id ctxId (Exception e).
Proof.
  intros Hk Hc (Hc1 & Hx1 & Hok & _). split; [done|]. split; [|by exists fs].
  intros k conn' Hk' Hconn'. rewrite Hc1. rewrite lookup_insert_ne; [done|]. intros ->. congruence.
Qed.

Lemma new_connection_spec (id : nat) (c : gluster_config) (ctxId : string) (old : ptr)
    (conn : GlusterFSConnection) (s : GS) :
  contexts_ok s → glusterFSConnections s !! ctxId = Some conn → connected conn = false →
  ∃ s' r, new_connection id c ctxId old conn s = (s', r) ∧ connect_post s s' id ctxId r.
Proof.
  intros Hok Hk Hc. unfold new_connection.
  destruct (prepare_spec id (gc_volume c) ctxId old conn s Hok Hk Hc) as (s1 & fs & Hprep & H1).
  rewrite (st_bind_value _ _ _ _ _ Hprep). pose proof (λ s' e, prepared_post s s' id ctxId fs conn e Hk Hc) as Hpost.
  destruct fs as [f|]; [|by eauto]. rewrite bool_decide_eq_false_2 by done.
  set (set_server := glfs_set_volfile_server _ _ _ _).
  pose proof (proj2 (keeps_lib s1 set_server eq_refl) s1 (same_contexts_refl s1)) as Hs2.
  destruct (call set_server s1) as [s2 r2] eqn:H2.
  apply (prepared_same _ _ _ _ _ _ H1) in Hs2. unfold mbind at 1, ST_bind at 1. rewrite H2.
  destruct r2 as [[ret e]|e]; [|by eauto]. destruct (negb (ret =? 0)); [by eauto|].
  unfold mbind at 1, ST_bind at 1, st_lift. destruct (parseXlatorOptions _) as [opts|e']; [|by eauto].
  destruct (set_xlator_options (Some f) (gc_volume c) opts s2) as [s3 r3] eqn:H3.
  pose proof (keeps_set_xlator_options s2 (Some f) (gc_volume c) opts s2 (same_contexts_refl s2)) as Hs3.
  rewrite H3 in Hs3. apply (prepared_same _ _ _ _ _ _ Hs2) in Hs3. unfold mbind at 1, ST_bind at 1. rewrite H3.
  destruct r3 as [[]|e']; [|by eauto].
  destruct (init_spec s s3 id ctxId f Hs3) as (s4 & r & e' & H4 & Hres). unfold mbind, ST_bind. rewrite H4.
  destruct Hres as [[Hs4 ->]|(Hc4 & Hx4 & Hok4 & Hph & ->)]; [by eauto|].
  simpl in Hs3. destruct Hs3 as (Hc3 & Hx3 & _). eexists _, _. split; [done|]. split_and!; simpl.
  - intros k conn' Hk' Hconn'. simpl in Hk'. destruct (decide (k = ctxId)) as [->|Hne].
    + rewrite lookup_insert_eq in Hk'. simplify_eq. by exists f.
    + rewrite lookup_insert_ne in Hk' by done. by apply (Hok4 k).
  - intros k conn' Hk' Hconn'. simpl. rewrite Hc4, Hc3, insert_insert_eq, lookup_insert_ne; [done|]. congruence.
  - exists (Some f). rewrite Hx4, Hx3, lookup_insert_eq. done.
Qed.

Lemma connect_spec (id : nat) (s : GS) (old : ptr) :
  contexts_ok s → m_glfsCtx s !! id = Some old →
  ∃ s' r, connect id (config id) s = (s', r) ∧ connect_post s s' id (ctx_id (config id)) r.
Proof.
  intros Hok Hid. set (ctxId := ctx_id (config id)).
  destruct (glusterFSConnections s !! ctxId) as [conn|] eqn:Hk.
  - destruct (connected conn) eqn:Hc.
    + rewrite (connect_connected id (config id) old conn s Hid Hk Hc).
      destruct (assign_ctx_spec id old (glfsCtx conn) s) as (s' & -> & Hc' & Hx' & Hp'). eexists _, _.
      split; [done|]. split_and!.
      * intros k conn' Hk' Hconn'. rewrite Hc' in Hk'. destruct (Hok k conn' Hk' Hconn') as (p & ? & ?).
        exists p. split; [done|]. by rewrite (Hp' k conn' p).
      * intros k conn' Hk' Hconn'. by rewrite Hc'.
      * exists (glfsCtx conn). split; [done|]. intros _. rewrite Hc', Hk. by destruct conn; simplify_eq/=.
    + unfold connect, lock_helper, find_connection. unfold mbind, ST_bind. rewrite Hid. fold ctxId. rewrite Hk.
      simpl. rewrite Hc. by apply new_connection_spec.
  - unfold connect, lock_helper, find_connection. unfold mbind, ST_bind. rewrite Hid. fold ctxId. rewrite Hk. simpl.
    set (s1 := mk_gluster _ _ _).
    assert (contexts_ok s1) as Hok1.
    { intros k conn Hk' Hconn. unfold s1 in Hk'. simpl in Hk'. destruct (decide (k = ctxId)) as [->|Hne];
        [rewrite lookup_insert_eq in Hk'; by simplify_eq|]. rewrite lookup_insert_ne in Hk' by done.
      by apply (Hok k). }
    destruct (new_connection_spec id (config id) ctxId old (mk_GlusterFSConnection None false) s1 Hok1)
      as (s' & r & Hr & Hok' & Hkeep & Hq); [unfold s1; simpl; by rewrite lookup_insert_eq|done|].
    exists s', r. split; [exact Hr|]. split; [done|]. split; [|done].
    intros k conn Hk' Hconn. apply (Hkeep k conn); [|done]. unfold s1. simpl.
    rewrite lookup_insert_ne; [done|]. congruence.
Qed.

Lemma contexts_same (s s' : GS) (ops : list nat) :
  same_contexts s s' → contexts_ok s ∧ waiting_ok s ops → contexts_ok s' ∧ waiting_ok s' ops.
Proof.
  intros (Hc & Hx & Hp) [Hok Hw]. split.
  - intros k conn Hk Hconn. rewrite Hc in Hk. destruct (Hok k conn Hk Hconn) as (p & ? & ?). exists p. by rewrite Hp.
  - intros id q Hin Hq. rewrite Hx in Hq. rewrite Hc. by apply Hw.
Qed.

Lemma waiting_connect (s s' : GS) (id : nat) (r : Try unit) (ops : list nat) (old : ptr) :
  contexts_ok s → waiting_ok s ops → m_glfsCtx s !! id = Some old →
  connect id (config id) s = (s', r) → connect_post s s' id (ctx_id (config id)) r →
  waiting_ok s' (if hasException r then ops else id :: ops).
Proof.
  intros Hok Hw Hid Hcon (Hok' & Hkeep & q & Hx & Hq) id' q' Hin Hq'. rewrite Hx in Hq'.
  destruct (decide (id' = id)) as [->|Hne].
  - rewrite lookup_insert_eq in Hq'. injection Hq' as <-.
    destruct r as [[]|e]; [by apply Hq|]. simpl in Hin. pose proof (Hw id old Hin Hid) as Hk.
    rewrite (connect_connected id _ old _ s Hid Hk eq_refl) in Hcon.
    destruct (assign_ctx_spec id old old s) as (s2 & Hs2 & _). simpl in Hcon. congruence.
  - rewrite lookup_insert_ne in Hq' by done. apply (Hkeep _ (mk_GlusterFSConnection q' true)); [|done].
    apply Hw; [|done]. destruct r as [[]|e]; simpl in Hin; [|done]. by apply elem_of_cons in Hin as [->|].
Qed.

(** A helper that is destroyed. *)
Lemma contexts_delete (s : GS) (id : nat) (ops : list nat) :
  contexts_ok s → waiting_ok s ops →
  contexts_ok (delete_helper id s).1 ∧ waiting_ok (delete_helper id s).1 ops.
Proof.
  intros Hok Hw. unfold delete_helper. destruct (m_glfsCtx s !! id) as [p|]; [|done].
  set (s1 := mk_gluster _ _ _). split; [by apply contexts_ok_drop|].
  destruct (drop_ctx_spec p s1) as (s' & -> & Hc & Hx & _). intros id' q Hin Hq. simpl in *.
  rewrite Hx in Hq. rewrite Hc. apply Hw; [done|]. unfold s1 in Hq. simpl in Hq.
  by apply lookup_delete_Some in Hq as [_ Hq].
Qed.

Lemma gluster_step_ok (w w' : GS * list nat) :
  gluster_step w w' →
  contexts_ok w.1 ∧ waiting_ok w.1 w.2 → contexts_ok w'.1 ∧ waiting_ok w'.1 w'.2.
Proof.
  intros Hstep [Hok Hw]. destruct Hstep as [id s ops Hid Hops|id s ops|id s s' ops Hcon|id s s' e ops Hcon
    |id k s ops1 ops2|fh s ops]; simpl in *.
  - split; [done|]. intros id' q Hin Hq. apply Hw; [done|]. unfold new_helper in Hq. simpl in Hq.
    rewrite lookup_insert_ne in Hq; [done|]. by intros ->.
  - by apply contexts_delete.
  - destruct (m_glfsCtx s !! id) as [old|] eqn:Hid.
    2: { by unfold connect, lock_helper, mbind, ST_bind in Hcon; rewrite Hid in Hcon. }
    destruct (connect_spec id s old Hok Hid) as (s2 & r & Hr & Hpost). rewrite Hcon in Hr. injection Hr as <- <-.
    split; [apply Hpost|]. by apply (waiting_connect s s' id (Value tt) ops old).
  - destruct (m_glfsCtx s !! id) as [old|] eqn:Hid.
    2: { unfold connect, lock_helper, mbind, ST_bind in Hcon. rewrite Hid in Hcon. by injection Hcon as <- <-. }
    destruct (connect_spec id s old Hok Hid) as (s2 & r & Hr & Hpost). rewrite Hcon in Hr. injection Hr as <- <-.
    split; [apply Hpost|]. by apply (waiting_connect s s' id (Exception e) ops old).
  - apply (contexts_same s); [apply continuation_keeps|]. split; [done|].
    intros id' q Hin. apply Hw. apply elem_of_app in Hin as [?|?]; apply elem_of_app; [by left|right; by right].
  - apply (contexts_same s); [apply close_keeps|done].
Qed.

(** C29: contexts are used while they live.  However helpers are made and
    destroyed and their operations and those of their handles interleave, also
    when connecting fails and is tried again, an operation that was connected
    and waits to continue finds in its helper, as long as that exists, a context
    of the library that is initialised and not finalised. *)
Theorem gluster_contexts_live (g : G) (s : GS) (ops : list nat) (id : nat) (p : ptr) :
  rtc gluster_step (mk_gluster g ∅ ∅, []) (s, ops) →
  id ∈ ops → m_glfsCtx s !! id = Some p →
  ∃ q, p = Some q ∧ phase (gs_lib s) q = initialised.
Proof.
  intros Hrtc Hin Hp.
  assert (contexts_ok s ∧ waiting_ok s ops) as [Hok Hw].
  { apply (rtc_ind_r (R := gluster_step) (λ w, contexts_ok w.1 ∧ waiting_ok w.1 w.2)
      (mk_gluster g ∅ ∅, []) ) with (z := (s, ops)); [|intros w w' _ Hstep; by apply gluster_step_ok|done].
    split; [by intros k conn|]. intros id' q Hn. by apply not_elem_of_nil in Hn. }
  destruct (Hok _ _ (Hw id p Hin Hp) eq_refl) as (q & Hq & Hph). by exists q.
Qed.

(** The continuations of a helper go through a plain pointer to it: when it was
    destroyed in the meantime they use what is gone. *)
Lemma gluster_continuation_after_destruction (s : GS) (id : nat) (fileId : string) :
  m_glfsCtx s !! id = None →
  (getattr_body path_append id (config id) fileId s).2 = Exception undefined_behaviour.
Proof.
  intros Hid. unfold getattr_body, as_user, lib, mbind, ST_bind.
  destruct (glfs_run (glfs_setfsuid _) _) as [g1 a1]. simpl.
  destruct (glfs_run (glfs_setfsgid _) _) as [g2 a2]. unfold get_ctx. simpl. by rewrite Hid.
Qed.
End contexts.

(** ** Files *)

Section files.
Context {G : Type} `{GG : Gluster G} `{!GlusterFileLaws G} (c : gluster_config) (fh : GlusterFSFileHandle).
Abbreviation GS := (gluster G).

(** The helper of the handle is connected and the descriptor is of the file [f]. *)
Definition opened (s : GS) (f : bytes) : Prop :=
  glfs_file (gs_lib s) (m_glfsFd fh) = Some f ∧
  ∃ p, m_glfsCtx s !! gf_helper fh = Some p ∧
    glusterFSConnections s !! ctx_id c = Some (mk_GlusterFSConnection p true).

Lemma connect_opened (s : GS) (f : bytes) : opened s f → connect (gf_helper fh) c s = (s, Value tt).
Proof.
  intros (_ & p & Hp & Hk).
  rewrite (connect_connected (gf_helper fh) c p _ s Hp Hk eq_refl). unfold assign_ctx, set_ctx, mbind, ST_bind.
  simpl. rewrite insert_id by done. destruct s as [g conns ctxs]. simpl in *. unfold drop_ctx.
  destruct p as [p|]; [|done].
  by rewrite (referenced_connection (mk_gluster g conns ctxs) (ctx_id c) _ p Hk eq_refl).
Qed.

(** A library call that leaves the file, and one that changes it. *)
Lemma opened_lib (s : GS) (f f' : bytes) (g : G) :
  opened s f → glfs_file g (m_glfsFd fh) = Some f' →
  opened (mk_gluster g (glusterFSConnections s) (m_glfsCtx s)) f'.
Proof. by intros [_ Hp] Hf. Qed.

Lemma as_handle_user_opened {A} (body : ST GS A) (s : GS) (f : bytes) :
  opened s f → ∃ s1, as_handle_user fh body s = body s1 ∧ opened s1 f.
Proof.
  intros Hs. unfold as_handle_user, lib, mbind, ST_bind.
  pose proof (glfs_setfsuid_file (gs_lib s) (gf_uid fh)) as Hu.
  destruct (glfs_run (glfs_setfsuid _) _) as [g1 a1]. simpl in *.
  pose proof (glfs_setfsgid_file g1 (gf_gid fh)) as Hg.
  destruct (glfs_run (glfs_setfsgid _) _) as [g2 a2]. simpl in *. eexists. split; [done|].
  apply (opened_lib s f); [done|]. rewrite Hg, Hu. apply Hs.
Qed.

Lemma read_body_step (p : nat) (offset size : Z) (s : GS) (f : bytes) :
  opened s f → op_ok (ReadOp p offset size) →
  ∃ s' r, read_body fh offset size s = (s', r) ∧ opened s' f ∧
    file_step (ReadOp p offset size) f f (read_result <$> r).
Proof.
  intros Hs [Hoff Hsize]. unfold read_body.
  match goal with |- context [as_handle_user fh ?body s] =>
    destruct (as_handle_user_opened body s f Hs) as (s1 & -> & Hs1) end.
  destruct (retry_ind (call (glfs_pread (m_glfsFd fh) size offset))
    (λ r, GlusterFSRetryCondition r.1.1 r.2) IO_RETRY_COUNT (λ s, opened s f)
    (λ _ r, r.1.1 = -1 ∨ r.1.2 `prefix_of` pread f offset size ∧ r.1.1 = chainLength r.1.2) s1)
    as (s2 & [[n raw] e] & Hr & Hs2 & Hres); [|done|].
  { intros s2 Hs2. unfold call. pose proof Hs2 as [Hf _].
    destruct (glfs_pread_file (gs_lib s2) _ f size offset Hf Hoff Hsize) as (g & r & b & Hr & Hg & Hres).
    rewrite Hr. eexists _, _. split; [done|]. split; [by apply (opened_lib s2 f)|done]. }
  unfold retry_call_out. rewrite (st_bind_value _ _ _ _ _ Hr). simpl in Hres.
  destruct Hres as [->|[Hpre ->]]; [eexists _, _; split; [done|]; split; [done|]; constructor|].
  pose proof (chainLength_nonneg raw). rewrite (proj2 (Z.ltb_ge _ 0)) by done.
  eexists _, _. split; [done|]. split; [done|]. unfold chainLength. rewrite Nat2Z.id, take_ge by done.
  by constructor.
Qed.

Lemma write_body_step (p : nat) (offset : Z) (buf : list bytes) (s : GS) (f : bytes) :
  opened s f → 0 <= offset <= OFF_MAX → chainLength (concat buf) < 2147483648 →
  ∃ s' r f', write_body fh offset buf s = (s', r) ∧ opened s' f' ∧
    file_step (WriteOp p offset buf) f f' (write_result <$> r).
Proof.
  intros Hs Hoff Hlen. unfold write_body.
  match goal with |- context [as_handle_user fh ?body s] =>
    destruct (as_handle_user_opened body s f Hs) as (s1 & -> & Hs1) end.
  case_bool_decide as Hempty.
  { eexists _, _, _. split; [done|]. split; [done|]. apply (step_write p offset buf f 0). by rewrite Hempty. }
  destruct (retry_until (call (glfs_pwritev (m_glfsFd fh) (getIov buf) offset))
    (λ r, GlusterFSRetryCondition r.1 r.2) IO_RETRY_COUNT (λ s, opened s f)
    (λ s' r, r.1 = -1 ∧ opened s' f ∨ 0 <= r.1 <= chainLength (concat buf) ∧
             opened s' (pwrite f offset (take (Z.to_nat r.1) (concat buf)))) (λ _ r, r.1 = -1) s1)
    as (s2 & [r e] & Hr & Hres); [|done|].
  { intros s2 Hs2. unfold call. pose proof Hs2 as [Hf _].
    destruct (glfs_pwritev_file (gs_lib s2) _ f (getIov buf) offset Hf Hoff) as (g & r & Hr & Hres).
    rewrite Hr. rewrite concat_getIov in Hres. eexists _, _. split; [done|]. simpl.
    destruct Hres as [[-> Hg]|[Hr2 Hg]].
    - pose proof (opened_lib s2 f f g Hs2 Hg). destruct (GlusterFSRetryCondition _ _); [by left|done].
    - unfold GlusterFSRetryCondition. rewrite i32_small by lia. rewrite (proj2 (Z.leb_le 0 r)) by lia.
      right. split; [done|]. by apply (opened_lib s2 f). }
  unfold retry_call. rewrite (st_bind_value _ _ _ _ _ Hr). simpl in Hres.
  assert (r = -1 ∧ opened s2 f ∨ 0 <= r <= chainLength (concat buf) ∧
          opened s2 (pwrite f offset (take (Z.to_nat r) (concat buf)))) as [[-> Hs2]|[Hr2 Hs2]].
  { destruct (GlusterFSRetryCondition r e); [done|]. left. by destruct Hres. }
  - eexists _, _, _. split; [done|]. split; [done|]. constructor.
  - rewrite (proj2 (Z.eqb_neq r (-1))) by lia. eexists _, _, _. split; [done|]. split; [done|].
    rewrite u64_small by lia. by constructor.
Qed.

Lemma fsync_body_step (p : nat) (data : bool) (s : GS) (f : bytes) :
  opened s f →
  ∃ s' r, fsync_body fh data s = (s', r) ∧ opened s' f ∧
    file_step (FsyncOp p) f f ((λ _, unit_result) <$> r).
Proof.
  intros Hs. unfold fsync_body.
  match goal with |- context [as_handle_user fh ?body s] =>
    destruct (as_handle_user_opened body s f Hs) as (s1 & -> & Hs1) end.
  set (sync := if data then glfs_fdatasync (m_glfsFd fh) else glfs_fsync (m_glfsFd fh)).
  replace (if data then _ else _) with (setResult sync) by (unfold sync; by destruct data).
  destruct (retry_ind (call sync) (λ r, GlusterFSRetryCondition r.1 r.2) IO_RETRY_COUNT (λ s, opened s f)
    (λ _ _, True) s1) as (s2 & [r e] & Hr & Hs2 & _); [|done|].
  { intros s2 Hs2. unfold call. pose proof (glfs_sync_file (gs_lib s2) _ f data (proj1 Hs2)) as Hg.
    fold sync in Hg. destruct (glfs_run sync (gs_lib s2)) as [g r]. eexists _, _. split; [done|].
    split; [by apply (opened_lib s2 f)|done]. }
  unfold setResult, retry_call. rewrite (st_bind_value _ _ _ _ _ Hr).
  destruct (r <? 0); (eexists _, _; split; [done|]; split; [done|]; constructor).
Qed.

(** A read, write or sync of the handle is its continuation, or is refused when
    the handle was destroyed. *)
Lemma handle_op_opened {A} (body : ST GS A) (h : gluster_handle G) (f : bytes) :
  opened (gh_store h) f →
  handle_op c fh body h
  = if gh_alive h then on_store body h else (h, Exception (makePosixException ECANCELED)).
Proof.
  intros Hs. unfold handle_op, mbind, ST_bind. unfold on_store at 1. rewrite (connect_opened _ f Hs).
  destruct h as [s nr al]. unfold lock_handle. simpl. by destruct al.
Qed.

Lemma handle_run_step (op : HandleOp) (h : gluster_handle G) (f : bytes) :
  opened (gh_store h) f → op_ok op →
  ∃ h' r f', handle_run c fh op h = (h', r) ∧ opened (gh_store h') f' ∧ file_step op f f' r.
Proof.
  intros Hs Hop. destruct op as [p offset size|p offset buf|p|p|p]; simpl; [..|done].
  - unfold read, mbind, ST_bind. rewrite (handle_op_opened _ h f Hs). destruct (gh_alive h).
    2: { eexists _, _, _. split; [done|]. split; [done|]. constructor. }
    destruct (read_body_step p offset size (gh_store h) f Hs Hop) as (s' & r & Hr & Hs' & Hstep).
    unfold on_store. rewrite Hr. destruct r; (eexists _, _, _; split; [done|]; by split).
  - unfold write, mbind, ST_bind. rewrite (handle_op_opened _ h f Hs). destruct (gh_alive h).
    2: { eexists _, _, _. split; [done|]. split; [done|]. constructor. }
    destruct Hop as [Hoff Hlen].
    destruct (write_body_step p offset buf (gh_store h) f Hs Hoff Hlen) as (s' & r & f' & Hr & Hs' & Hstep).
    unfold on_store. rewrite Hr. destruct r; (eexists _, _, _; split; [done|]; by split).
  - unfold fsync, mbind, ST_bind. rewrite (handle_op_opened _ h f Hs). destruct (gh_alive h).
    2: { eexists _, _, _. split; [done|]. split; [done|]. constructor. }
    destruct (fsync_body_step p false (gh_store h) f Hs) as (s' & r & Hr & Hs' & Hstep).
    unfold on_store. rewrite Hr. destruct r; (eexists _, _, _; split; [done|]; by split).
  - unfold flush, on_store, mbind, ST_bind. rewrite (connect_opened _ f Hs).
    eexists _, _, _. split; [done|]. split; [done|]. constructor.
Qed.

Lemma file_run_cons (f f1 f2 : bytes) (op : HandleOp) (r : Try op_result) (l : list (HandleOp * Try op_result)) :
  file_step op f f1 r → file_run f1 l f2 → file_run f ((op, r) :: l) f2.
Proof.
  intros Hstep Hrun. induction Hrun as [|l' op' r' g g' _ IH Hstep'].
  - apply (run_snoc f [] op r f f1); [constructor|done].
  - change ((op, r) :: l' ++ [(op', r')]) with (((op, r) :: l') ++ [(op', r')]). by eapply run_snoc.
Qed.

(** C30: the operations of a handle are those of a file: one after another, each
    starts with the file as the one before left it, and what they return are
    the results of a file that is read and written, errors of the library,
    short reads and writes and a destroyed handle included. *)
Theorem gluster_handle_refines (ops : list HandleOp) (h : gluster_handle G) (f : bytes) :
  opened (gh_store h) f → Forall op_ok ops →
  ∃ h' l f', handle_runs c fh ops h = (h', l) ∧ map fst l = ops ∧ file_run f l f' ∧ opened (gh_store h') f'.
Proof.
  revert h f. induction ops as [|op ops IH]; intros h f Hs Hok.
  { exists h, [], f. split_and!; [done..|constructor|done]. }
  apply Forall_cons in Hok as [Hop Hok].
  destruct (handle_run_step op h f Hs Hop) as (h1 & r & f1 & Hr & Hs1 & Hstep).
  destruct (IH h1 f1 Hs1 Hok) as (h2 & l & f2 & Hrun & Hl & Hfile & Hs2).
  exists h2, ((op, r) :: l), f2. simpl. rewrite Hr, Hrun. split_and!; [done|simpl; by rewrite Hl| |done].
  by apply (file_run_cons f f1).
Qed.
End files.

(** ** Options *)

(** The format of the documentation. *)
Definition print_option (o : string * string) : string := (o.1 ++ "=" ++ o.2)%string.
Fixpoint print_options (opts : GlusterFSXlatorOptions) : string :=
  match opts with
  | [] => ""
  | [o] => print_option o
  | o :: opts' => (print_option o ++ ";" ++ print_options opts')%string
  end.

(** A name or a value that the format can carry. *)
Definition option_word (w : string) : Prop :=
  w ≠ ""%string ∧ free_of "=" w = true ∧ free_of ";" w = true.
Definition option_ok (o : string * string) : Prop := option_word o.1 ∧ option_word o.2.

Lemma print_option_free (o : string * string) : option_ok o → free_of ";" (print_option o) = true.
Proof.
  intros [(_ & _ & H1) (_ & _ & H2)]. unfold print_option.
  by rewrite !free_of_app, H1, H2.
Qed.

Lemma parse_pairs_cons (o : string * string) (ws : list string) :
  option_ok o → parse_pairs (print_option o :: ws) = (result ← parse_pairs ws; Value (o :: result)).
Proof.
  destruct o as [k v]. intros [(Hk & Hk1 & _) (Hv & Hv1 & _)]. simpl in *. unfold print_option. simpl.
  destruct (String.eqb_spec (k ++ "=" ++ v)%string "") as [He|_]; [by destruct k|].
  change ("=" ++ v)%string with (String "=" v). rewrite split_keep_app by done. rewrite split_keep_free by done.
  destruct (String.eqb_spec k ""); [done|]. by destruct (String.eqb_spec v "").
Qed.

Lemma split_print_options (o : string * string) (opts : GlusterFSXlatorOptions) :
  Forall option_ok (o :: opts) →
  split_keep ";" (print_options (o :: opts)) = map print_option (o :: opts).
Proof.
  revert o. induction opts as [|o' opts IH]; intros o Hok; apply Forall_cons in Hok as [Ho Hok].
  - simpl. by rewrite split_keep_free by by apply print_option_free.
  - change (print_options (o :: o' :: opts)) with (print_option o ++ String ";" (print_options (o' :: opts)))%string.
    rewrite split_keep_app by by apply print_option_free. by rewrite IH.
Qed.

Lemma parse_print_options (opts : GlusterFSXlatorOptions) :
  Forall option_ok opts → parseXlatorOptions (print_options opts) = Value opts.
Proof.
  intros Hok. destruct opts as [|o opts]; [done|]. unfold parseXlatorOptions.
  destruct (String.eqb_spec (print_options (o :: opts)) "") as [He|_].
  { pose proof (split_print_options o opts Hok) as Hsplit. rewrite He in Hsplit. simpl in Hsplit.
    apply Forall_cons in Hok as [[(Hk & _) _] _]. injection Hsplit as Hp _. unfold print_option in Hp.
    by destruct o as [[] v]. }
  rewrite split_print_options by done. revert Hok. generalize (o :: opts). clear o opts.
  intros opts. induction opts as [|o opts IH]; intros Hok; [done|]. apply Forall_cons in Hok as [Ho Hok].
  rewrite map_cons, parse_pairs_cons by done. by rewrite IH.
Qed.

Lemma parse_pairs_ok (ws : list string) (opts : GlusterFSXlatorOptions) :
  Forall (λ w, free_of ";" w = true) ws → parse_pairs ws = Value opts → Forall option_ok opts.
Proof.
  revert opts. induction ws as [|w ws IH]; intros opts Hws; simpl; [by intros [= <-]|].
  apply Forall_cons in Hws as [Hw Hws]. destruct (String.eqb w ""); [by apply IH|].
  pose proof (split_keep_tokens "=" w) as Heq. pose proof (split_keep_free_of "=" ";" w Hw) as Hsemi.
  destruct (split_keep "=" w) as [|name [|value [|]]]; try done.
  destruct (String.eqb_spec name ""); [done|]. destruct (String.eqb_spec value ""); [done|]. simpl.
  destruct (parse_pairs ws) as [opts'|]; [|done]. intros [= <-].
  apply Forall_cons in Heq as [? Heq]. apply Forall_cons in Hsemi as [? Hsemi].
  apply Forall_inv in Heq. apply Forall_inv in Hsemi.
  constructor; [|by apply IH]. unfold option_ok, option_word. simpl. by split_and!.
Qed.

(** Translator options survive their text.  What a text is parsed to can be
    printed and parsed back, and the lists of options that come from a text are
    exactly those with names and values that are not empty and have no '=' or
    ';' in them. *)
Lemma gluster_options_roundtrip (opts : GlusterFSXlatorOptions) :
  (∃ text, parseXlatorOptions text = Value opts) ↔
  Forall option_ok opts ∧ parseXlatorOptions (print_options opts) = Value opts.
Proof.
  split.
  - intros [text Htext]. assert (Forall option_ok opts) as Hok; [|by split; [|apply parse_print_options]].
    unfold parseXlatorOptions in Htext. destruct (String.eqb text ""); [by injection Htext as <-|].
    apply (parse_pairs_ok (split_keep ";" text)); [apply split_keep_tokens|done].
  - intros [_ Hp]. by eexists.
Qed.

(** ** Paths below the mount point *)

Lemma skip_common_app (parent rest : list string) : skip_common parent (parent ++ rest) = rest.
Proof.
  induction parent as [|p parent IH]; [by destruct rest|]. simpl. by rewrite String.eqb_refl.
Qed.

Lemma append_elements_plain (ret child : list string) :
  Forall (λ e, e ≠ ".."%string ∧ e ≠ "."%string) child → append_elements ret child = ret ++ child.
Proof.
  revert ret. induction child as [|e child IH]; intros ret Hc; simpl; [by rewrite app_nil_r|].
  apply Forall_cons in Hc as [[H1 H2] Hc]. destruct (String.eqb_spec e ".."); [done|].
  destruct (String.eqb_spec e "."); [done|]. rewrite IH by done. by rewrite <-app_assoc.
Qed.

(** A path below the parent becomes what follows the parent in it. *)
Lemma makeRelative_below (parent rest : list string) :
  Forall (λ e, e ≠ ".."%string ∧ e ≠ "."%string) rest → makeRelative parent (parent ++ rest) = rest.
Proof.
  intros Hrest. destruct parent as [|p parent]; [done|]. unfold makeRelative.
  rewrite skip_common_app. by rewrite append_elements_plain.
Qed.

(** ** Findings *)

(** A file that [open] creates gets the flags as its mode: executable by its
    user, because that is the bit of O_CREAT, and readable by the user only if a
    flag has the bit of S_IRUSR, which O_CREAT, O_EXCL and the access modes have
    not. *)
Lemma creat_mode_flags (flags : Z) : creat_mode flags = Z.land flags 511.
Proof.
  unfold creat_mode. rewrite <-!Z.land_lor_distr_r. reflexivity.
Qed.
Lemma creat_mode_unreadable :
  Forall (λ access, Z.land (creat_mode (Z.lor (Z.lor O_CREAT O_EXCL) access)) 256 = 0 ∧
                    Z.land (creat_mode (Z.lor O_CREAT access)) 64 = 64) [O_RDONLY; O_WRONLY; O_RDWR].
Proof. repeat constructor. Qed.

(** Helpers of one volume share a connection whatever their transport and their
    options are: those of the first one stay. *)
Lemma connection_ignores_options (c : gluster_config) (transport options : string) :
  ctx_id (mk_gluster_config (gc_mountPoint c) (gc_uid c) (gc_gid c) (gc_hostname c) (gc_port c) (gc_volume c)
            transport options) = ctx_id c.
Proof. done. Qed.

(** ** A library in memory *)

(** Contexts get rising numbers; descriptors are of files that can be read and
    written. *)
Record memory_gluster := mk_memory_gluster {
  mg_next : Z; mg_phase : gmap Z ctx_phase; mg_files : gmap ptr bytes; mg_errno : Z
}.

Definition mg_set_phase (g : memory_gluster) (p : Z) (ph : ctx_phase) : memory_gluster :=
  mk_memory_gluster (mg_next g) (<[p := ph]> (mg_phase g)) (mg_files g) (mg_errno g).
Definition mg_set_file (g : memory_gluster) (fd : ptr) (f : bytes) : memory_gluster :=
  mk_memory_gluster (mg_next g) (mg_phase g) (<[fd := f]> (mg_files g)) (mg_errno g).
Definition mg_get_phase (g : memory_gluster) (p : Z) : ctx_phase :=
  if mg_next g <=? p then not_a_context else default not_a_context (mg_phase g !! p).

Definition mg_run {A} (c : glfs_call A) (g : memory_gluster) : memory_gluster * A :=
  match c in glfs_call A return memory_gluster * A with
  | glfs_new _ =>
      (mk_memory_gluster (mg_next g + 1) (<[mg_next g := fresh]> (mg_phase g)) (mg_files g) (mg_errno g),
       Some (mg_next g))
  | glfs_fini (Some p) => (mg_set_phase g p not_a_context, 0)
  | glfs_init (Some p) => (mg_set_phase g p initialised, 0)
  | glfs_pread fd count offset =>
      match mg_files g !! fd with
      | Some f => (g, (chainLength (pread f offset count), pread f offset count))
      | None => (g, (-1, []))
      end
  | glfs_pwritev fd iov offset =>
      match mg_files g !! fd with
      | Some f => (mg_set_file g fd (pwrite f offset (concat iov)), chainLength (concat iov))
      | None => (g, -1)
      end
  | glfs_creat _ _ _ _ | glfs_open _ _ _ => (mg_set_file g (Some 3) [], Some 3)
  | glfs_opendir _ _ => (g, None)
  | glfs_readdir _ => (g, None)
  | glfs_lstat _ _ => (g, (0, mk_stat 0 0 0 0 0 0 0))
  | glfs_readlink _ _ _ | glfs_getxattr _ _ _ _ | glfs_listxattr _ _ _ => (g, (0, ""%string))
  | _ => (g, 0)
  end.

#[export] Instance memory_gluster_lib : Gluster memory_gluster := {|
  glfs_run := λ A, mg_run; glfs_errno := mg_errno; glfs_dir_bound := λ _ _, O
|}.

Lemma mg_get_set_phase (g : memory_gluster) (p q : Z) (ph : ctx_phase) :
  q ≠ p → mg_get_phase (mg_set_phase g p ph) q = mg_get_phase g q.
Proof. intros Hne. unfold mg_get_phase. simpl. by rewrite lookup_insert_ne. Qed.

#[export] Instance memory_gluster_ctx_laws : GlusterCtxLaws memory_gluster.
Proof.
  refine {| phase := mg_get_phase |}; simpl.
  - intros g volname. unfold mg_get_phase. simpl. rewrite lookup_insert_eq. split_and!.
    + by rewrite (proj2 (Z.leb_le _ _)).
    + by rewrite (proj2 (Z.leb_gt _ _)) by lia.
    + intros q Hq. rewrite lookup_insert_ne by done.
      destruct (Z.leb_spec (mg_next g) q); [by rewrite (proj2 (Z.leb_le _ _)) by lia|].
      by rewrite (proj2 (Z.leb_gt _ _)) by lia.
  - intros g p Hp. split; [left|by intros q; apply mg_get_set_phase]. split; [done|].
    unfold mg_get_phase in *. simpl. rewrite lookup_insert_eq. by destruct (mg_next g <=? p).
  - intros g p q Hq. by apply mg_get_set_phase.
  - intros A c g q Hc.
    destruct c as [| |fs t h pt|fs x k v| | | | | | |fd n o|fd iov o| | | | | | | | | | | | | | | | | | | | | |];
      try done; simpl; by destruct (mg_files g !! fd).
Defined.

#[export] Instance memory_gluster_file_laws : GlusterFileLaws memory_gluster.
Proof.
  refine {| glfs_file := λ g fd, mg_files g !! fd |}; simpl; try done.
  - intros g fd f count offset Hf Hoff Hcount. rewrite Hf. eexists _, _, _. split; [done|]. split; [done|]. by right.
  - intros g fd f iov offset Hf Hoff. rewrite Hf. eexists _, _. split; [done|]. right. simpl.
    pose proof (chainLength_nonneg (concat iov)). split; [lia|]. rewrite lookup_insert_eq.
    unfold chainLength. by rewrite Nat2Z.id, take_ge.
  - intros g fd f data Hf. by destruct data.
Defined.

(** ** Witnesses *)

Definition sample_gluster : gluster_config :=
  mk_gluster_config "/" 1000 1000 "gluster" 24007 "vol" "tcp" "cache.size=64;io.threads=4".
Definition sample_lib : memory_gluster := mk_memory_gluster 1 ∅ ∅ 0.
Definition sample_config (id : nat) : gluster_config := sample_gluster.

(** Two helpers of one volume; the second finds the connection of the first. *)
Definition two_helpers : gluster memory_gluster :=
  new_helper 1 (new_helper 0 (mk_gluster sample_lib ∅ ∅)).
Definition first_connected : gluster memory_gluster := (connect 0 sample_gluster two_helpers).1.
Definition both_connected : gluster memory_gluster := (connect 1 sample_gluster first_connected).1.

Lemma gluster_contexts_live_witness :
  ∃ q, Some 1 = Some q ∧ phase (gs_lib both_connected) q = initialised.
Proof.
  apply (gluster_contexts_live String.append sample_config sample_lib both_connected [1; 0]%nat 1%nat (Some 1)).
  - eapply rtc_l; [by apply (step_new _ _ 0%nat); [vm_compute; reflexivity|apply not_elem_of_nil]|].
    eapply rtc_l; [by apply (step_new _ _ 1%nat); [vm_compute; reflexivity|apply not_elem_of_nil]|].
    eapply rtc_l; [apply (step_connect _ _ 0%nat _ first_connected); vm_compute; reflexivity|].
    apply rtc_once. apply (step_connect _ _ 1%nat _ both_connected); vm_compute; reflexivity.
  - left.
  - vm_compute. reflexivity.
Defined.

Definition sample_gluster_fh : GlusterFSFileHandle := mk_GlusterFSFileHandle "/f" 1 (Some 3) 1000 1000.
Definition opened_handle : gluster_handle memory_gluster :=
  mk_gluster_handle
    ((perform (bodies String.append 1 sample_gluster) (call_open "f" O_RDWR ∅) both_connected).1) true true.

Lemma gluster_handle_refines_witness :
  ∃ h' l f', handle_runs sample_gluster sample_gluster_fh sample_ops opened_handle = (h', l) ∧
    map fst l = sample_ops ∧ file_run [] l f' ∧ opened sample_gluster sample_gluster_fh (gh_store h') f'.
Proof.
  apply (gluster_handle_refines sample_gluster sample_gluster_fh sample_ops opened_handle []).
  - split; [vm_compute; reflexivity|]. exists (Some 1). vm_compute. done.
  - apply Forall_cons. split; [vm_compute; intuition congruence|].
    apply Forall_singleton. vm_compute. intuition congruence.
Defined.

(** The error of a failed read is 1 whatever the library reported. *)
Lemma gluster_read_error :
  let s := gh_store opened_handle in
  (read_body (mk_GlusterFSFileHandle "/f" 1 None 1000 1000) 0 8
     (mk_gluster (mk_memory_gluster 1 ∅ ∅ ENOENT) (glusterFSConnections s) (m_glfsCtx s))).2
  = Exception (makePosixException EPERM).
Proof. vm_compute. reflexivity. Qed.
