(* ===== verification/DHuS.v ===== *)
(** * The DHuS OData helper (src/src/dhusodataHelper.cc, src/src/dhusodataHelper.h)

    Files of a data hub, read only.  The hub of the OData library is the class
    [DataHub].  Proved: a listing is the asked page of the names of a directory
    followed by "." and "..", and the pages of a walk are the whole listing. *)

From stdpp Require Import base numbers list gmap strings.
From Stdlib Require Import ZArith Lia Strings.Byte Strings.Ascii.
From S2P Require Import Prelude StdStrings Storage.
Local Open Scope Z_scope.

Definition ENOTDIR : Z := 20.
Definition EISDIR : Z := 21.
Definition ENOTSUP : Z := 95.

(** ** The library *)

(** [OData::FileSystemNode] *)
Record FileSystemNode := mk_FileSystemNode {
  isDirectory : bool; getSize : Z; readDir : list string
}.

(** [OData::DataHub]: a lookup, which may fill caches, and reading of a range. *)
Class DataHub (D : Type) := {
  getFile : string → D → D * option FileSystemNode;
  getFile_range : string → Z → Z → D → D * bytes
}.

(** ** The helper *)

Definition parseMissions (missions : string) : list string := split_keep "," missions.

Section dhus.
Context {D : Type} `{DataHub D} (getuid getgid : Z).

Definition m_data_hub_getFile (fileId : string) : ST D (option FileSystemNode) := λ d,
  let '(d', file) := getFile fileId d in (d', Value file).

Definition read (m_fileId : string) (offset size : Z) : ST D bytes := λ d,
  let '(d', content) := getFile_range m_fileId offset size d in (d', Value content).

Definition write (offset : Z) (buf : bytes) : ST D Z := function_not_supported.

Definition getattr (fileId : string) : ST D stat :=
  file ← m_data_hub_getFile fileId;
  match file with
  | None => st_throw (system_error (make_error_code ENOENT))
  | Some file =>
      mret (mk_stat 0 (if isDirectory file then 365 else 292) getuid getgid (getSize file) 0 0)
  end.

Definition access (fileId : string) (mask : Z) : ST D unit :=
  file ← m_data_hub_getFile fileId;
  match file with
  | None => st_throw (system_error (make_error_code ENOENT))
  | Some _ => mret tt
  end.

(** The loop of [readdir] from the index [i] up to [bound]; an index below the
    size is at most [fuel] steps from it. *)
Fixpoint readdir_loop (fuel : nat) (dir_content : list string) (i bound : Z) : list string :=
  match fuel with
  | O => []
  | S fuel' =>
      if (i <? Z.of_nat (length dir_content)) && (i <? bound)
      then default ""%string (dir_content !! Z.to_nat i) :: readdir_loop fuel' dir_content (i + 1) bound
      else []
  end.

(** [offset] becomes a [size_t], and the sum with [count] is one. *)
Definition list_page (dir_content : list string) (offset count : Z) : list string :=
  readdir_loop (length dir_content) dir_content (u64 offset) (u64 (offset + count)).

Definition readdir (fileId : string) (offset count : Z) : ST D (list string) :=
  directory ← m_data_hub_getFile fileId;
  match directory with
  | None => st_throw (system_error (make_error_code ENOENT))
  | Some directory =>
      if isDirectory directory
      then mret (list_page (readDir directory ++ ["."; ".."]%string) offset count)
      else st_throw (system_error (make_error_code ENOTDIR))
  end.

Definition open (fileId : string) (flags : Z) (openParams : Params) : ST D string :=
  file ← m_data_hub_getFile fileId;
  match file with
  | None => st_throw (system_error (make_error_code ENOENT))
  | Some file => if isDirectory file then st_throw (system_error (make_error_code EISDIR)) else mret fileId
  end.

Definition getxattr (uuid name : string) : ST D string := st_throw (makePosixException ENOTSUP).

(** The methods that the class overrides; the others are those of the base. *)
Definition dhus_helper : StorageHelper D string :=
  let base := default_StorageHelper open in {|
  sh_getattr := getattr;
  sh_access := access;
  sh_readlink := sh_readlink base;
  sh_readdir := readdir;
  sh_mknod := sh_mknod base;
  sh_mkdir := sh_mkdir base;
  sh_unlink := sh_unlink base;
  sh_rmdir := sh_rmdir base;
  sh_symlink := sh_symlink base;
  sh_rename := sh_rename base;
  sh_link := sh_link base;
  sh_chmod := sh_chmod base;
  sh_chown := sh_chown base;
  sh_truncate := sh_truncate base;
  sh_open := open;
  sh_getxattr := getxattr;
  sh_setxattr := sh_setxattr base;
  sh_removexattr := sh_removexattr base;
  sh_listxattr := sh_listxattr base
|}.
End dhus.

(** ** The factory *)

Record dhus_config := mk_dhus_config {
  dh_url : string; dh_username : string; dh_password : string; dh_missions : list string;
  dh_db_path : string; dh_tmp_path : string; dh_tmp_size : Z
}.

(** The size is read as an [int] and passed as a [uint32_t]. *)
Definition create_dhusodata (parameters : Params) : Try dhus_config :=
  url ← getParam_string parameters "datahubUrl";
  username ← getParam_string parameters "username";
  password ← getParam_string parameters "password";
  missions ← getParam_string parameters "missions";
  db_path ← getParam_string parameters "databasePath";
  tmp_path ← getParam_string parameters "tmpPath";
  tmp_size ← getParam_string parameters "tmpSize";
  size ← stoi tmp_size;
  Value (mk_dhus_config url username password (parseMissions missions) db_path tmp_path (u32 size)).

(** ** Listings *)

Lemma dhus_loop_page (fuel : nat) (l : list string) (i bound : Z) :
  0 <= i → Z.of_nat (length l) - i <= Z.of_nat fuel →
  readdir_loop fuel l i bound = take (Z.to_nat (bound - i)) (drop (Z.to_nat i) l).
Proof.
  revert i. induction fuel as [|fuel IH]; intros i Hi Hfuel; simpl.
  { rewrite drop_ge by lia. by rewrite take_nil. }
  destruct (Z.ltb_spec i (Z.of_nat (length l))) as [Hlt|Hge]; simpl.
  2: { rewrite drop_ge by lia. by rewrite take_nil. }
  destruct (Z.ltb_spec i bound) as [Hb|Hb]; [|by rewrite (Z2Nat.nonpos (bound - i)) by lia].
  destruct (lookup_lt_is_Some_2 l (Z.to_nat i)) as [x Hx]; [lia|]. rewrite Hx. simpl.
  rewrite (drop_S _ _ _ Hx), IH by lia.
  replace (Z.to_nat (bound - i)) with (S (Z.to_nat (bound - (i + 1)))) by lia.
  by replace (Z.to_nat (i + 1)) with (S (Z.to_nat i)) by lia.
Qed.

Lemma list_page_page (l : list string) (offset count : Z) :
  0 <= offset → 0 <= count → offset + count <= UINT64_MAX →
  list_page l offset count = take (Z.to_nat count) (drop (Z.to_nat offset) l).
Proof.
  unfold UINT64_MAX, list_page. intros Ho Hc Hsum. rewrite !u64_small by lia.
  rewrite dhus_loop_page by lia. by replace (offset + count - offset) with count by lia.
Qed.

(** A count that takes the sum past 64 bits gives an empty page. *)
Lemma dhus_readdir_wraps (l : list string) (offset : Z) :
  1 <= offset <= OFF_MAX → list_page l offset UINT64_MAX = [].
Proof.
  unfold UINT64_MAX, OFF_MAX, list_page. intros Ho. rewrite u64_small by lia.
  replace (u64 (offset + 18446744073709551615)) with (offset - 1).
  - destruct (length l) as [|n]; [done|]. simpl. rewrite (proj2 (Z.ltb_ge offset (offset - 1))) by lia.
    by rewrite andb_false_r.
  - unfold u64. zlia.
Qed.

Section listing.
Context {D : Type} `{DataHub D} (getuid getgid : Z).

(** A hub whose lookups do not depend on what was looked up before. *)
Context (stable : ∀ fileId fileId' d, (getFile fileId (getFile fileId' d).1).2 = (getFile fileId d).2).

(** The pages of [n] calls with rising offsets. *)
Fixpoint walk (fileId : string) (n : nat) (offset count : Z) : ST D (list string) :=
  match n with
  | O => mret []
  | S n' =>
      page ← readdir fileId offset count;
      rest ← walk fileId n' (offset + count) count;
      mret (page ++ rest)
  end.

Lemma walk_from (fileId : string) (n : nat) (offset count : Z) (dir : FileSystemNode) (d : D) :
  (getFile fileId d).2 = Some dir → isDirectory dir = true →
  0 <= offset → 0 <= count → offset + Z.of_nat n * count <= UINT64_MAX →
  (walk fileId n offset count d).2
  = Value (take (n * Z.to_nat count) (drop (Z.to_nat offset) (readDir dir ++ ["."; ".."]%string))).
Proof using stable.
  revert offset d. induction n as [|n IH]; intros offset d Hfile Hdir Ho Hc Hmax; [done|].
  simpl walk. unfold readdir, m_data_hub_getFile, mbind, ST_bind.
  pose proof (stable fileId fileId d) as Hst. destruct (getFile fileId d) as [d1 node]. simpl in *. subst node.
  rewrite Hdir. simpl. assert (Z.of_nat (S n) * count = count + Z.of_nat n * count) as Heq by lia.
  specialize (IH (offset + count) d1). rewrite Hst in IH.
  specialize (IH eq_refl Hdir ltac:(lia) Hc ltac:(lia)).
  destruct (walk fileId n (offset + count) count d1) as [d2 r]. simpl in IH. subst r. simpl.
  rewrite list_page_page by lia. f_equal.
  replace (Z.to_nat (offset + count)) with (Z.to_nat offset + Z.to_nat count)%nat by lia.
  rewrite <-drop_drop. by rewrite take_take_drop.
Qed.

(** Walking through a directory with pages of any size lists every name of
    the directory in its order, then "." and "..", each once, as soon as the
    pages cover the listing. *)
Lemma dhus_walk_complete (fileId : string) (n : nat) (count : Z) (dir : FileSystemNode) (d : D) :
  (getFile fileId d).2 = Some dir → isDirectory dir = true → 0 <= count →
  Z.of_nat (length (readDir dir)) + 2 <= Z.of_nat n * count <= UINT64_MAX →
  (walk fileId n 0 count d).2 = Value (readDir dir ++ ["."; ".."]%string).
Proof using stable.
  intros Hfile Hdir Hc Hn. rewrite (walk_from fileId n 0 count dir d) by (done || lia).
  rewrite drop_0, take_ge; [done|]. rewrite length_app. simpl. lia.
Qed.
End listing.

(** ** A hub in memory *)

#[export] Instance memory_hub : DataHub (gmap string FileSystemNode) := {|
  getFile := λ fileId d, (d, d !! fileId); getFile_range := λ fileId offset size d, (d, [])
|}.

Definition sample_directory : FileSystemNode := mk_FileSystemNode true 0 ["a"; "b"; "c"]%string.

(** The modes of directories and files carry no file type. *)
Lemma dhus_mode_without_type (d : gmap string FileSystemNode) (fileId : string) (s : stat) :
  (getattr 0 0 fileId d).2 = Value s → Z.land (st_mode s) 61440 = 0.
Proof.
  unfold getattr, m_data_hub_getFile, mbind, ST_bind. simpl. destruct (d !! fileId) as [file|]; [|done].
  simpl. intros [= <-]. simpl. by destruct (isDirectory file).
Qed.
