(* ===== verification/WebDAVSessions.v ===== *)
(** * The session pool of the WebDAV helper (src/src/webDAVHelper.cc, src/src/webDAVHelper.h)

    [WebDAVHelper] takes a session from the queue of idle ones for each
    operation, connects it when it has to, and the request gives it back.  The
    events of the HTTP library (connected, failed to connect, headers, end of a
    transaction, connection closed) are steps that may come in any order.
    Proved: a session is idle, being connected, in use by one operation or lost
    by a write that sends no request, and only one of these; a session whose
    connection the server closed between requests never answers again. *)

From stdpp Require Import base numbers list gmap sets relations.
From Stdlib Require Import ZArith Lia.
From S2P Require Import Prelude Storage.

(** ** Sessions *)

(** [session] is the number of the HTTP session of the library; [connecting]:
    the connector is busy. *)
Record WebDAVSession := mk_WebDAVSession {
  session : option nat;
  connecting : bool;
  closedByRemote : bool;
  sessionValid : bool
}.

Definition new_WebDAVSession : WebDAVSession := mk_WebDAVSession None false false false.

(** The new promise of [reset] is in the step that calls it. *)
Definition reset (s : WebDAVSession) : WebDAVSession := mk_WebDAVSession (session s) (connecting s) false false.

(** [onIngressError], [onIngressEOF] and [onDestroy]. *)
Definition connection_gone (s : WebDAVSession) : WebDAVSession :=
  mk_WebDAVSession (session s) (connecting s) (closedByRemote s) false.

(** [dropConnection] of the HTTP session that is there: the library closes it
    and says so with [onDestroy]. *)
Definition dropConnection (s : WebDAVSession) : WebDAVSession :=
  if bool_decide (session s ≠ None) then connection_gone s else s.

Definition connectSuccess (reconnectedSession : nat) (s : WebDAVSession) : WebDAVSession :=
  let s := dropConnection s in
  mk_WebDAVSession (Some reconnectedSession) false (closedByRemote s) true.

(** The header "Connection: close" in a response. *)
Definition headers_close (close : bool) (s : WebDAVSession) : WebDAVSession :=
  mk_WebDAVSession (session s) (connecting s) (close || closedByRemote s) (sessionValid s).

(** ** The pool *)

(** The capacity of [m_idleSessionPool]. *)
Definition IDLE_CAPACITY : nat := 100.

Record pool := mk_pool { m_sessionPool : gmap nat WebDAVSession; m_idleSessionPool : list nat }.

(** [write] of the queue gives up when it is full. *)
Definition releaseSession (sid : nat) (p : pool) : pool :=
  mk_pool (m_sessionPool p)
    (if decide (length (m_idleSessionPool p) < IDLE_CAPACITY) then m_idleSessionPool p ++ [sid]
     else m_idleSessionPool p).

Definition set_session (sid : nat) (s : WebDAVSession) (p : pool) : pool :=
  mk_pool (<[sid := s]> (m_sessionPool p)) (m_idleSessionPool p).

(** The constructor: [connectionPoolSize] sessions. *)
Fixpoint new_sessions (i n : nat) (p : pool) : pool :=
  match n with
  | O => p
  | S n' => new_sessions (S i) n' (releaseSession i (set_session i new_WebDAVSession p))
  end.
Definition new_pool (connectionPoolSize : nat) : pool := new_sessions 0 connectionPoolSize (mk_pool ∅ []).

(** What [connect] does with the session it took. *)
Inductive connect_outcome := use_session | start_connecting | wait_for_connection.

Definition connect_session (s : WebDAVSession) : WebDAVSession * connect_outcome :=
  if negb (closedByRemote s) && bool_decide (session s ≠ None) then (s, use_session)
  else if negb (connecting s) then
    let s := reset s in (mk_WebDAVSession (session s) true (closedByRemote s) (sessionValid s), start_connecting)
  else (s, wait_for_connection).

(** The test of [startTransaction]; [closing] and [refused] are answers of the
    library: [isClosing], and no new transaction. *)
Definition startTransaction (closing refused : bool) (s : WebDAVSession) : bool :=
  negb (closedByRemote s || negb (sessionValid s) || bool_decide (session s = None) || closing) && negb refused.

(** ** Operations and events *)

(** How an operation ended: with an answer of the server, without a request, or
    with an error. *)
Inductive op_end := answered | not_sent | ended_with (e : exc).

(** An operation waits for its session to be connected, has it, has a
    transaction on it, or is over. *)
Inductive op_state :=
| op_waiting (sid : nat)
| op_ready (sid : nat)
| op_running (sid : nat)
| op_done (sid : nat) (r : op_end).

(** The sessions in [lost] were taken and not given back. *)
Record system := mk_system { sy_pool : pool; sy_ops : gmap nat op_state; sy_lost : list nat }.

Definition on_session (sid : nat) (f : WebDAVSession → WebDAVSession) (p : pool) : pool :=
  match m_sessionPool p !! sid with Some s => set_session sid (f s) p | None => p end.

(** The promise of [sid] is fulfilled, or replaced by a new one. *)
Definition wake (sid : nat) (o : op_state) : op_state :=
  match o with op_waiting sid' => if decide (sid' = sid) then op_ready sid else o | _ => o end.
Definition break (sid : nat) (o : op_state) : op_state :=
  match o with
  | op_waiting sid' => if decide (sid' = sid) then op_done sid (ended_with broken_promise) else o
  | _ => o
  end.

Definition start_connect (o sid : nat) (s : WebDAVSession) (rest : list nat) (sys : system) : system :=
  let '(s', outcome) := connect_session s in
  let p := mk_pool (<[sid := s']> (m_sessionPool (sy_pool sys))) rest in
  match outcome with
  | use_session => mk_system p (<[o := op_ready sid]> (sy_ops sys)) (sy_lost sys)
  | start_connecting => mk_system p (<[o := op_waiting sid]> (break sid <$> sy_ops sys)) (sy_lost sys)
  | wait_for_connection => mk_system p (<[o := op_waiting sid]> (sy_ops sys)) (sy_lost sys)
  end.

Definition finish (o sid : nat) (r : op_end) (sys : system) : system :=
  mk_system (releaseSession sid (sy_pool sys)) (<[o := op_done sid r]> (sy_ops sys)) (sy_lost sys).

Inductive step : system → system → Prop :=
(** An operation takes the first idle session. *)
| step_connect o sid s rest sys :
    sy_ops sys !! o = None → m_idleSessionPool (sy_pool sys) = sid :: rest →
    m_sessionPool (sy_pool sys) !! sid = Some s →
    step sys (start_connect o sid s rest sys)
(** [connectSuccess] and [connectError]. *)
| step_connected sid s n sys :
    m_sessionPool (sy_pool sys) !! sid = Some s → connecting s = true →
    step sys (mk_system (set_session sid (connectSuccess n s) (sy_pool sys)) (wake sid <$> sy_ops sys) (sy_lost sys))
| step_connect_error sid s sys :
    m_sessionPool (sy_pool sys) !! sid = Some s → connecting s = true →
    step sys (mk_system (releaseSession sid (set_session sid
                (mk_WebDAVSession (session s) false (closedByRemote s) (sessionValid s)) (sy_pool sys)))
              (sy_ops sys) (sy_lost sys))
(** [startTransaction] begins a transaction, or gives the session back. *)
| step_start o sid s closing refused sys :
    sy_ops sys !! o = Some (op_ready sid) → m_sessionPool (sy_pool sys) !! sid = Some s →
    step sys (if startTransaction closing refused s
              then mk_system (sy_pool sys) (<[o := op_running sid]> (sy_ops sys)) (sy_lost sys)
              else finish o sid (ended_with (makePosixException EAGAIN)) sys)
(** A request that has nothing to send is destroyed with its session. *)
| step_no_request o sid sys :
    sy_ops sys !! o = Some (op_ready sid) → step sys (finish o sid not_sent sys)
(** A write to a storage without range writes, or of a handle that is gone:
    nothing gives the session back. *)
| step_unsupported o sid e sys :
    sy_ops sys !! o = Some (op_ready sid) →
    step sys (mk_system (sy_pool sys) (<[o := op_done sid (ended_with e)]> (sy_ops sys)) (sid :: sy_lost sys))
| step_headers o sid s close sys :
    sy_ops sys !! o = Some (op_running sid) → m_sessionPool (sy_pool sys) !! sid = Some s →
    step sys (mk_system (set_session sid (headers_close close s) (sy_pool sys)) (sy_ops sys) (sy_lost sys))
(** [detachTransaction], after an answer or an error. *)
| step_detach o sid r sys :
    sy_ops sys !! o = Some (op_running sid) → step sys (finish o sid r sys)
(** The connection is closed or fails. *)
| step_gone sid s sys :
    m_sessionPool (sy_pool sys) !! sid = Some s →
    step sys (mk_system (set_session sid (connection_gone s) (sy_pool sys)) (sy_ops sys) (sy_lost sys)).

Definition new_system (connectionPoolSize : nat) : system := mk_system (new_pool connectionPoolSize) ∅ [].

Lemma connectSuccess_fields (n : nat) (s : WebDAVSession) :
  connectSuccess n s = mk_WebDAVSession (Some n) false (closedByRemote s) true.
Proof. unfold connectSuccess, dropConnection. by case_bool_decide. Qed.

(** ** Where a session is *)

Inductive place := Idle | Conn (o : nat) | Held (o : nat) | Lost | Nowhere.

Definition holds (ops : gmap nat op_state) (o sid : nat) : Prop :=
  ops !! o = Some (op_ready sid) ∨ ops !! o = Some (op_running sid).
Definition is_connecting (p : pool) (sid : nat) : Prop :=
  ∃ s, m_sessionPool p !! sid = Some s ∧ connecting s = true.

(** [pl] says where each session is; there are [m] in the queue at first. *)
Record placed (m : nat) (sys : system) (pl : nat → place) : Prop := mk_placed {
  pl_nodup : NoDup (m_idleSessionPool (sy_pool sys));
  pl_idle : ∀ sid, sid ∈ m_idleSessionPool (sy_pool sys) ↔ pl sid = Idle;
  pl_held : ∀ sid o, holds (sy_ops sys) o sid ↔ pl sid = Held o;
  pl_conn : ∀ sid, is_connecting (sy_pool sys) sid ↔ ∃ o, pl sid = Conn o;
  pl_wait : ∀ sid o, pl sid = Conn o → ∀ o', sy_ops sys !! o' = Some (op_waiting sid) ↔ o' = o;
  pl_lost : ∀ sid, sid ∈ sy_lost sys ↔ pl sid = Lost;
  pl_range : ∀ sid, pl sid = Nowhere ↔ m ≤ sid
}.

Definition put (sid : nat) (k : place) (pl : nat → place) : nat → place :=
  λ x, if decide (x = sid) then k else pl x.

Lemma put_eq (sid : nat) (k : place) (pl : nat → place) : put sid k pl sid = k.
Proof. unfold put. by rewrite decide_True. Qed.
Lemma put_ne (sid x : nat) (k : place) (pl : nat → place) : x ≠ sid → put sid k pl x = pl x.
Proof. intros Hne. unfold put. by rewrite decide_False. Qed.

(** The queue has room for a session that is not in it. *)
Lemma idle_room (m : nat) (sys : system) (pl : nat → place) (sid : nat) :
  m ≤ IDLE_CAPACITY → placed m sys pl → pl sid ≠ Idle → pl sid ≠ Nowhere →
  length (m_idleSessionPool (sy_pool sys)) < IDLE_CAPACITY.
Proof.
  intros Hm Hp Hi Hn. set (idle := m_idleSessionPool (sy_pool sys)).
  assert (NoDup (sid :: idle)) as Hnd.
  { constructor; [|apply (pl_nodup m sys pl Hp)]. intros Hx. by apply Hi, (pl_idle m sys pl Hp). }
  assert (sid :: idle ⊆ seq 0 m) as Hsub.
  { intros x Hx. apply elem_of_seq. split; [lia|]. simpl.
    assert (pl x ≠ Nowhere) as Hx'; [|rewrite (pl_range m sys pl Hp) in Hx'; lia].
    apply elem_of_cons in Hx as [->|Hx]; [done|]. apply (pl_idle m sys pl Hp) in Hx. by rewrite Hx. }
  pose proof (submseteq_length _ _ (NoDup_submseteq _ _ Hnd Hsub)) as Hlen. simpl in Hlen.
  rewrite length_seq in Hlen. lia.
Qed.

(** A session that is given back. *)
Lemma releaseSession_idle (m : nat) (sys : system) (pl : nat → place) (sid : nat) (p : pool) :
  m ≤ IDLE_CAPACITY → placed m sys pl → pl sid ≠ Idle → pl sid ≠ Nowhere →
  m_idleSessionPool p = m_idleSessionPool (sy_pool sys) →
  m_idleSessionPool (releaseSession sid p) = m_idleSessionPool (sy_pool sys) ++ [sid].
Proof.
  intros Hm Hp Hi Hn Heq. unfold releaseSession. rewrite Heq. simpl.
  rewrite decide_True; [done|]. by apply (idle_room m sys pl sid).
Qed.

Lemma break_lookup (sid : nat) (ops : gmap nat op_state) (o x : nat) :
  (holds (break sid <$> ops) o x ↔ holds ops o x) ∧
  ((break sid <$> ops) !! o = Some (op_waiting x) ↔ ops !! o = Some (op_waiting x) ∧ x ≠ sid).
Proof.
  unfold holds. rewrite !lookup_fmap. destruct (ops !! o) as [[y|y|y|y r]|]; simpl;
    repeat case_decide; split; naive_solver.
Qed.

Lemma wake_lookup (sid : nat) (ops : gmap nat op_state) (o x : nat) :
  (holds (wake sid <$> ops) o x ↔ holds ops o x ∨ x = sid ∧ ops !! o = Some (op_waiting sid)) ∧
  ((wake sid <$> ops) !! o = Some (op_waiting x) ↔ ops !! o = Some (op_waiting x) ∧ x ≠ sid).
Proof.
  unfold holds. rewrite !lookup_fmap. destruct (ops !! o) as [[y|y|y|y r]|]; simpl;
    repeat case_decide; split; naive_solver.
Qed.

(** ** The steps move sessions *)

Section moves.
Context (m : nat) (sys : system) (pl : nat → place) (Hp : placed m sys pl).

Lemma is_connecting_insert (p : pool) (sid x : nat) (s : WebDAVSession) (idle : list nat) :
  is_connecting (mk_pool (<[sid := s]> (m_sessionPool p)) idle) x ↔
  if decide (x = sid) then connecting s = true else is_connecting p x.
Proof.
  unfold is_connecting. simpl. case_decide as Hx.
  - subst x. setoid_rewrite lookup_insert_eq. naive_solver.
  - by setoid_rewrite lookup_insert_ne; [|done].
Qed.

(** Only one state of an operation changes, and it did not wait. *)
Lemma wait_insert (o o' x : nat) (st : op_state) :
  sy_ops sys !! o ≠ Some (op_waiting x) → st ≠ op_waiting x →
  <[o := st]> (sy_ops sys) !! o' = Some (op_waiting x) ↔ sy_ops sys !! o' = Some (op_waiting x).
Proof.
  intros Ho Hst. destruct (decide (o' = o)) as [->|]; [rewrite lookup_insert_eq|by rewrite lookup_insert_ne].
  naive_solver.
Qed.

Lemma holds_insert (o o' x : nat) (st : op_state) (ops : gmap nat op_state) :
  holds (<[o := st]> ops) o' x ↔
  if decide (o' = o) then st = op_ready x ∨ st = op_running x else holds ops o' x.
Proof.
  unfold holds. case_decide as Ho; [subst; rewrite lookup_insert_eq|by rewrite lookup_insert_ne]. naive_solver.
Qed.

(** Where an operation that holds a session is not. *)
Lemma held_not_waiting (o sid x : nat) : pl sid = Held o → sy_ops sys !! o ≠ Some (op_waiting x).
Proof. intros Hs Hw. apply (pl_held m sys pl Hp) in Hs as [Hs|Hs]; congruence. Qed.
Lemma held_once (o sid x : nat) : pl sid = Held o → holds (sy_ops sys) o x → x = sid.
Proof.
  intros Hs Hx. apply (pl_held m sys pl Hp) in Hs as [Hs|Hs]; destruct Hx as [Hx|Hx]; congruence.
Qed.

Ltac place_cases sid x :=
  unfold put; destruct (decide (x = sid)) as [->|Hx].

(** A session that is in use is given back. *)
Lemma move_finish (o sid : nat) (r : op_end) :
  m ≤ IDLE_CAPACITY → pl sid = Held o → placed m (finish o sid r sys) (put sid Idle pl).
Proof using Hp.
  intros Hm Hs. destruct (Hp) as [Hnd Hidle Hheld Hconn Hwait Hlost Hrange].
  assert (m_idleSessionPool (releaseSession sid (sy_pool sys)) = m_idleSessionPool (sy_pool sys) ++ [sid])
    as Hrel by (apply (releaseSession_idle m sys pl); [done..|congruence|congruence|done]).
  constructor; cbn [finish sy_pool sy_ops sy_lost]; rewrite ?Hrel.
  - apply NoDup_app. split_and!; [done| |apply NoDup_singleton].
    intros x Hx Hx'. apply list_elem_of_singleton in Hx' as ->. apply Hidle in Hx. congruence.
  - intros x. rewrite elem_of_app, list_elem_of_singleton, Hidle. place_cases sid x; naive_solver.
  - intros x o'. rewrite holds_insert. case_decide as Ho.
    + subst o'. place_cases sid x; [naive_solver|]. rewrite <-Hheld. split; [naive_solver|].
      intros Hh. by destruct Hx; apply (held_once o).
    + place_cases sid x; rewrite Hheld; [|done]. rewrite Hs. naive_solver.
  - intros x. place_cases sid x; [|apply Hconn]. unfold releaseSession, is_connecting. simpl.
    fold (is_connecting (sy_pool sys) sid). rewrite Hconn, Hs. naive_solver.
  - intros x o'. place_cases sid x; [done|]. intros Hc o''.
    rewrite wait_insert; [by apply Hwait|by apply (held_not_waiting o sid)|done].
  - intros x. rewrite Hlost. place_cases sid x; [rewrite Hs|]; naive_solver.
  - intros x. rewrite <-Hrange. place_cases sid x; [rewrite Hs|]; naive_solver.
Qed.

(** A session in use is lost. *)
Lemma move_lost (o sid : nat) (r : op_end) :
  pl sid = Held o →
  placed m (mk_system (sy_pool sys) (<[o := op_done sid r]> (sy_ops sys)) (sid :: sy_lost sys)) (put sid Lost pl).
Proof using Hp.
  intros Hs. destruct (Hp) as [Hnd Hidle Hheld Hconn Hwait Hlost Hrange].
  constructor; cbn [sy_pool sy_ops sy_lost]; [done|..].
  - intros x. rewrite Hidle. place_cases sid x; [rewrite Hs|]; naive_solver.
  - intros x o'. rewrite holds_insert. case_decide as Ho.
    + subst o'. place_cases sid x; [naive_solver|]. rewrite <-Hheld. split; [naive_solver|].
      intros Hh. by destruct Hx; apply (held_once o).
    + place_cases sid x; rewrite Hheld; [|done]. rewrite Hs. naive_solver.
  - intros x. rewrite Hconn. place_cases sid x; [rewrite Hs|]; naive_solver.
  - intros x o'. place_cases sid x; [done|]. intros Hc o''.
    rewrite wait_insert; [by apply Hwait|by apply (held_not_waiting o sid)|done].
  - intros x. rewrite elem_of_cons, Hlost. place_cases sid x; naive_solver.
  - intros x. rewrite <-Hrange. place_cases sid x; [rewrite Hs|]; naive_solver.
Qed.

(** A transaction begins. *)
Lemma move_running (o sid : nat) :
  pl sid = Held o →
  placed m (mk_system (sy_pool sys) (<[o := op_running sid]> (sy_ops sys)) (sy_lost sys)) pl.
Proof using Hp.
  intros Hs. destruct (Hp) as [Hnd Hidle Hheld Hconn Hwait Hlost Hrange].
  constructor; cbn [sy_pool sy_ops sy_lost]; try done.
  - intros x o'. rewrite holds_insert. case_decide as Ho; [|done]. subst o'. rewrite <-Hheld. split.
    + intros [?|[= ->]]; [done|]. by apply Hheld.
    + intros Hh. rewrite (held_once o sid x Hs Hh). by right.
  - intros x o' Hc o''. rewrite wait_insert; [by apply Hwait|by apply (held_not_waiting o sid)|done].
Qed.

(** A session changes but for its connector. *)
Lemma move_session (sid : nat) (s s' : WebDAVSession) :
  m_sessionPool (sy_pool sys) !! sid = Some s → connecting s' = connecting s →
  placed m (mk_system (set_session sid s' (sy_pool sys)) (sy_ops sys) (sy_lost sys)) pl.
Proof using Hp.
  intros Hs Hc. destruct (Hp) as [Hnd Hidle Hheld Hconn Hwait Hlost Hrange].
  constructor; cbn [sy_pool sy_ops sy_lost]; try done.
  intros x. unfold set_session. rewrite is_connecting_insert, <-Hconn. case_decide; [subst|done].
  unfold is_connecting. rewrite Hs, Hc. naive_solver.
Qed.

(** The connector is done. *)
Lemma move_connected (o sid n : nat) (s : WebDAVSession) :
  pl sid = Conn o →
  placed m (mk_system (set_session sid (connectSuccess n s) (sy_pool sys)) (wake sid <$> sy_ops sys)
              (sy_lost sys)) (put sid (Held o) pl).
Proof using Hp.
  intros Hs. destruct (Hp) as [Hnd Hidle Hheld Hconn Hwait Hlost Hrange].
  constructor; cbn [sy_pool sy_ops sy_lost]; [done|..].
  - intros x. simpl. rewrite Hidle. place_cases sid x; [rewrite Hs|]; naive_solver.
  - intros x o'. destruct (wake_lookup sid (sy_ops sys) o' x) as [-> _]. rewrite Hheld. place_cases sid x.
    + rewrite Hs, (Hwait sid o Hs o'). naive_solver.
    + naive_solver.
  - intros x. unfold set_session. rewrite is_connecting_insert. place_cases sid x; [simpl; naive_solver|apply Hconn].
  - intros x o'. place_cases sid x; [done|]. intros Hc o''.
    destruct (wake_lookup sid (sy_ops sys) o'' x) as [_ ->]. rewrite (Hwait x o' Hc o''). naive_solver.
  - intros x. rewrite Hlost. place_cases sid x; [rewrite Hs|]; naive_solver.
  - intros x. rewrite <-Hrange. place_cases sid x; [rewrite Hs|]; naive_solver.
Qed.

Lemma move_connect_error (o sid : nat) (s' : WebDAVSession) :
  m ≤ IDLE_CAPACITY → pl sid = Conn o → connecting s' = false →
  placed m (mk_system (releaseSession sid (set_session sid s' (sy_pool sys))) (sy_ops sys) (sy_lost sys))
    (put sid Idle pl).
Proof using Hp.
  intros Hm Hs Hs'. destruct (Hp) as [Hnd Hidle Hheld Hconn Hwait Hlost Hrange].
  assert (m_idleSessionPool (releaseSession sid (set_session sid s' (sy_pool sys)))
          = m_idleSessionPool (sy_pool sys) ++ [sid])
    as Hrel by (apply (releaseSession_idle m sys pl); [done..|congruence|congruence|done]).
  constructor; cbn [sy_pool sy_ops sy_lost]; rewrite ?Hrel.
  - apply NoDup_app. split_and!; [done| |apply NoDup_singleton].
    intros x Hx Hx'. apply list_elem_of_singleton in Hx' as ->. apply Hidle in Hx. congruence.
  - intros x. rewrite elem_of_app, list_elem_of_singleton, Hidle. place_cases sid x; naive_solver.
  - intros x o'. rewrite Hheld. place_cases sid x; [rewrite Hs|]; naive_solver.
  - intros x. unfold releaseSession, set_session. simpl. rewrite is_connecting_insert.
    place_cases sid x; [|apply Hconn]. rewrite Hs'. naive_solver.
  - intros x o'. place_cases sid x; [done|]. apply Hwait.
  - intros x. rewrite Hlost. place_cases sid x; [rewrite Hs|]; naive_solver.
  - intros x. rewrite <-Hrange. place_cases sid x; [rewrite Hs|]; naive_solver.
Qed.

(** An operation takes the first idle session and has it, or connects it. *)
Section take.
Context (o sid : nat) (s : WebDAVSession) (rest : list nat).
Context (Ho : sy_ops sys !! o = None) (Hidle0 : m_idleSessionPool (sy_pool sys) = sid :: rest).
Context (Hsid : m_sessionPool (sy_pool sys) !! sid = Some s).

Lemma take_idle (x : nat) : x ∈ rest ↔ pl x = Idle ∧ x ≠ sid.
Proof using Hp Hidle0.
  pose proof (pl_nodup m sys pl Hp) as Hnd. rewrite Hidle0 in Hnd. apply NoDup_cons in Hnd as [Hs Hnd].
  rewrite <-(pl_idle m sys pl Hp), Hidle0, elem_of_cons. naive_solver.
Qed.

Lemma take_not_connecting : connecting s = false.
Proof using Hp Hidle0 Hsid.
  assert (pl sid = Idle) as Hs by (apply (pl_idle m sys pl Hp); rewrite Hidle0; by left).
  destruct (connecting s) eqn:Hc; [|done].
  assert (is_connecting (sy_pool sys) sid) as Hconn by (by exists s).
  apply (pl_conn m sys pl Hp) in Hconn as [? ?]. congruence.
Qed.

Lemma take_place : pl sid = Idle.
Proof using Hp Hidle0. apply (pl_idle m sys pl Hp). rewrite Hidle0. by left. Qed.

Lemma take_free (x : nat) : ¬ holds (sy_ops sys) o x.
Proof using Ho. unfold holds. rewrite Ho. by intros [?|?]. Qed.

Lemma take_nodup : NoDup rest.
Proof using Hp Hidle0.
  pose proof (pl_nodup m sys pl Hp) as Hnd. rewrite Hidle0 in Hnd. by apply NoDup_cons in Hnd as [_ Hnd].
Qed.

Lemma move_take_use (s' : WebDAVSession) :
  connecting s' = false →
  placed m (mk_system (mk_pool (<[sid := s']> (m_sessionPool (sy_pool sys))) rest)
              (<[o := op_ready sid]> (sy_ops sys)) (sy_lost sys)) (put sid (Held o) pl).
Proof using Hp Ho Hidle0 Hsid.
  intros Hs'. pose proof take_place as Hs. pose proof take_free as Hfree.
  destruct (Hp) as [Hnd Hidle Hheld Hconn Hwait Hlost Hrange].
  constructor; cbn [sy_pool sy_ops sy_lost m_idleSessionPool]; [apply take_nodup|..].
  - intros x. rewrite take_idle. place_cases sid x; naive_solver.
  - intros x o'. rewrite holds_insert. clear Hwait. case_decide as Ho'.
    + subst o'. place_cases sid x; [naive_solver|]. rewrite <-Hheld. split; [naive_solver|by intros ?%Hfree].
    + rewrite Hheld. place_cases sid x; [rewrite Hs|done]. naive_solver.
  - intros x. rewrite is_connecting_insert. place_cases sid x; [|apply Hconn]. rewrite Hs'. naive_solver.
  - intros x o'. place_cases sid x; [done|]. intros Hc o''.
    rewrite wait_insert; [by apply Hwait|by rewrite Ho|done].
  - intros x. rewrite Hlost. place_cases sid x; [rewrite Hs|]; naive_solver.
  - intros x. rewrite <-Hrange. place_cases sid x; [rewrite Hs|]; naive_solver.
Qed.

Lemma move_take_connect (s' : WebDAVSession) :
  connecting s' = true →
  placed m (mk_system (mk_pool (<[sid := s']> (m_sessionPool (sy_pool sys))) rest)
              (<[o := op_waiting sid]> (break sid <$> sy_ops sys)) (sy_lost sys)) (put sid (Conn o) pl).
Proof using Hp Ho Hidle0 Hsid.
  intros Hs'. pose proof take_place as Hs. pose proof take_free as Hfree.
  destruct (Hp) as [Hnd Hidle Hheld Hconn Hwait Hlost Hrange].
  constructor; cbn [sy_pool sy_ops sy_lost m_idleSessionPool]; [apply take_nodup|..].
  - intros x. rewrite take_idle. place_cases sid x; naive_solver.
  - intros x o'. rewrite holds_insert. clear Hwait. case_decide as Ho'.
    + subst o'. place_cases sid x; [naive_solver|]. rewrite <-Hheld. split; [naive_solver|by intros ?%Hfree].
    + destruct (break_lookup sid (sy_ops sys) o' x) as [-> _]. rewrite Hheld.
      place_cases sid x; [rewrite Hs|done]. naive_solver.
  - intros x. rewrite is_connecting_insert. place_cases sid x; [|apply Hconn]. rewrite Hs'. naive_solver.
  - intros x o'. place_cases sid x.
    + intros [= <-] o''. destruct (decide (o'' = o)) as [->|Hne]; [by rewrite lookup_insert_eq|].
      rewrite lookup_insert_ne by done. destruct (break_lookup sid (sy_ops sys) o'' sid) as [_ ->]. naive_solver.
    + intros Hc o''. rewrite <-(Hwait x o' Hc o''). destruct (decide (o'' = o)) as [->|Hne].
      * rewrite lookup_insert_eq, Ho. split; [|done]. by intros [= ->].
      * rewrite lookup_insert_ne by done. destruct (break_lookup sid (sy_ops sys) o'' x) as [_ ->].
        split; [by intros [? _]|done].
  - intros x. rewrite Hlost. place_cases sid x; [rewrite Hs|]; naive_solver.
  - intros x. rewrite <-Hrange. place_cases sid x; [rewrite Hs|]; naive_solver.
Qed.

Lemma move_start_connect : ∃ k, placed m (start_connect o sid s rest sys) (put sid k pl).
Proof using Hp Ho Hidle0 Hsid.
  unfold start_connect, connect_session. rewrite take_not_connecting.
  destruct (negb (closedByRemote s) && bool_decide (session s ≠ None)); simpl.
  - exists (Held o). apply move_take_use, take_not_connecting.
  - exists (Conn o). by apply move_take_connect.
Qed.
End take.
End moves.

Lemma step_placed (m : nat) (sys sys' : system) (pl : nat → place) :
  m ≤ IDLE_CAPACITY → placed m sys pl → step sys sys' → ∃ pl', placed m sys' pl'.
Proof.
  intros Hm Hp Hstep. destruct Hstep as [o sid s rest sys Ho Hidle Hs|sid s n sys Hs Hc|sid s sys Hs Hc
    |o sid s closing refused sys Ho Hs|o sid sys Ho|o sid e sys Ho|o sid s close sys Ho Hs|o sid r sys Ho|sid s sys Hs].
  - destruct (move_start_connect m sys pl Hp o sid s rest Ho Hidle Hs) as [k Hk]. by eexists.
  - assert (is_connecting (sy_pool sys) sid) as Hconn by (by exists s).
    apply (pl_conn m sys pl Hp) in Hconn as [o Hconn]. eexists. by apply (move_connected m sys pl Hp o).
  - assert (is_connecting (sy_pool sys) sid) as Hconn by (by exists s).
    apply (pl_conn m sys pl Hp) in Hconn as [o Hconn]. eexists. by apply (move_connect_error m sys pl Hp o).
  - assert (pl sid = Held o) as Hh by (apply (pl_held m sys pl Hp); by left).
    destruct (startTransaction closing refused s); eexists; [by apply (move_running m sys pl Hp o)|].
    by apply move_finish.
  - eexists. apply move_finish; [done..|]. apply (pl_held m sys pl Hp). by left.
  - eexists. apply (move_lost m sys pl Hp). apply (pl_held m sys pl Hp). by left.
  - eexists. by apply (move_session m sys pl Hp sid s).
  - eexists. apply move_finish; [done..|]. apply (pl_held m sys pl Hp). by right.
  - eexists. by apply (move_session m sys pl Hp sid s).
Qed.

(** ** The first state *)

Lemma new_sessions_spec (n i : nat) (p : pool) :
  m_idleSessionPool p = seq 0 (Nat.min i IDLE_CAPACITY) →
  (∀ sid s, m_sessionPool p !! sid = Some s → s = new_WebDAVSession) →
  m_idleSessionPool (new_sessions i n p) = seq 0 (Nat.min (i + n) IDLE_CAPACITY) ∧
  ∀ sid s, m_sessionPool (new_sessions i n p) !! sid = Some s → s = new_WebDAVSession.
Proof.
  revert i p. induction n as [|n IH]; intros i p Hidle Hs; simpl; [by rewrite Nat.add_0_r|].
  replace (i + S n) with (S i + n) by lia. apply IH.
  - unfold releaseSession, set_session. cbn [m_idleSessionPool]. rewrite Hidle, length_seq.
    case_decide as Hlt.
    + replace (Nat.min (S i) IDLE_CAPACITY) with (S i) by lia.
      replace (Nat.min i IDLE_CAPACITY) with i by lia. by rewrite seq_S.
    + replace (Nat.min (S i) IDLE_CAPACITY) with (Nat.min i IDLE_CAPACITY) by lia. done.
  - intros sid s. unfold releaseSession, set_session. simpl. intros [[_ <-]|[_ Hsid]]%lookup_insert_Some; [done|].
    by apply (Hs sid).
Qed.

Lemma new_system_placed (n : nat) :
  let m := Nat.min n IDLE_CAPACITY in
  placed m (new_system n) (λ sid, if decide (sid < m) then Idle else Nowhere).
Proof.
  intros m. destruct (new_sessions_spec n 0 (mk_pool ∅ [])) as [Hidle Hs]; [done| |].
  { intros sid s. simpl. by rewrite lookup_empty. }
  constructor; simpl; unfold new_pool; rewrite ?Hidle.
  - apply NoDup_seq.
  - intros sid. rewrite elem_of_seq. simpl. fold m. case_decide; split; (done || lia).
  - intros sid o. unfold holds. rewrite lookup_empty. case_decide; naive_solver.
  - intros sid. split; [|case_decide; naive_solver]. intros (s & Hsid & Hc). apply Hs in Hsid. by subst s.
  - intros sid o. by case_decide.
  - intros sid. rewrite elem_of_nil. case_decide; naive_solver.
  - intros sid. case_decide; split; (done || lia).
Qed.

Lemma reachable_placed (n : nat) (sys : system) :
  rtc step (new_system n) sys → ∃ pl, placed (Nat.min n IDLE_CAPACITY) sys pl.
Proof.
  intros Hrtc. apply (rtc_ind_r (R := step) (λ sys, ∃ pl, placed (Nat.min n IDLE_CAPACITY) sys pl) (new_system n))
    with (z := sys); [|intros s1 s2 _ Hstep [pl Hpl]; by eapply step_placed, Hstep; [lia|]|done].
  eexists. apply new_system_placed.
Qed.

(** C24: a session is in one place.  However operations, answers and events of
    connections interleave, each of the sessions of the queue, which are all of
    the pool but no more than the queue can hold, is exactly one of: in the
    queue, once; being connected for one operation; in the hands of one
    operation; lost by a write that sent no request. *)
Theorem webdav_sessions_exclusive (n : nat) (sys : system) (sid : nat) :
  rtc step (new_system n) sys → sid < Nat.min n IDLE_CAPACITY →
  NoDup (m_idleSessionPool (sy_pool sys)) ∧
  ∃ k, (sid ∈ m_idleSessionPool (sy_pool sys) ↔ k = Idle) ∧
       (is_connecting (sy_pool sys) sid ↔ ∃ o, k = Conn o) ∧
       (∀ o, holds (sy_ops sys) o sid ↔ k = Held o) ∧
       (sid ∈ sy_lost sys ↔ k = Lost) ∧ k ≠ Nowhere.
Proof.
  intros Hrtc Hsid. destruct (reachable_placed n sys Hrtc) as [pl Hp]. split; [apply (pl_nodup _ _ _ Hp)|].
  exists (pl sid). split_and!.
  - apply (pl_idle _ _ _ Hp).
  - apply (pl_conn _ _ _ Hp).
  - intros o. apply (pl_held _ _ _ Hp).
  - apply (pl_lost _ _ _ Hp).
  - rewrite (pl_range _ _ _ Hp). lia.
Qed.

(** ** Sessions that the server closed *)

(** There is an HTTP session that is not valid, and nothing will replace it. *)
Definition stuck (sid : nat) (sys : system) : Prop :=
  ∃ s, m_sessionPool (sy_pool sys) !! sid = Some s ∧ session s ≠ None ∧ closedByRemote s = false ∧
    sessionValid s = false ∧ connecting s = false ∧ ∀ o, sy_ops sys !! o ≠ Some (op_running sid).

(** Whoever has it gets EAGAIN. *)
Lemma stuck_refuses (closing refused : bool) (s : WebDAVSession) :
  sessionValid s = false → startTransaction closing refused s = false.
Proof. intros Hv. unfold startTransaction. rewrite Hv. by destruct (closedByRemote s). Qed.

Lemma running_break (sid x : nat) (ops : gmap nat op_state) (o : nat) :
  (break x <$> ops) !! o = Some (op_running sid) ↔ ops !! o = Some (op_running sid).
Proof. rewrite lookup_fmap. destruct (ops !! o) as [[]|]; simpl; repeat case_decide; naive_solver. Qed.
Lemma running_wake (sid x : nat) (ops : gmap nat op_state) (o : nat) :
  (wake x <$> ops) !! o = Some (op_running sid) ↔ ops !! o = Some (op_running sid).
Proof. rewrite lookup_fmap. destruct (ops !! o) as [[]|]; simpl; repeat case_decide; naive_solver. Qed.
(** A new state of one operation. *)
Lemma insert_not_running (sid o : nat) (st : op_state) (ops : gmap nat op_state) :
  st ≠ op_running sid → (∀ o, ops !! o ≠ Some (op_running sid)) →
  ∀ o', <[o := st]> ops !! o' ≠ Some (op_running sid).
Proof. intros Hst Hops o' [[_ ?]|[_ Ho]]%lookup_insert_Some; [congruence|by apply (Hops o')]. Qed.

(** A step of another session, or one that leaves this one. *)
Lemma stuck_other (sid : nat) (sys sys' : system) :
  stuck sid sys → m_sessionPool (sy_pool sys') !! sid = m_sessionPool (sy_pool sys) !! sid →
  (∀ o, sy_ops sys' !! o ≠ Some (op_running sid)) → stuck sid sys'.
Proof. intros (s & Hs & Hrest) Heq Hrun. exists s. rewrite Heq. naive_solver. Qed.

Lemma stuck_connect (sid o x : nat) (s : WebDAVSession) (rest : list nat) (sys : system) :
  stuck sid sys → m_sessionPool (sy_pool sys) !! x = Some s → stuck sid (start_connect o x s rest sys).
Proof.
  intros Hstuck Hs. pose proof Hstuck as (t & Ht & Hsn & Hc & Hv & Hcn & Hrun).
  assert (∀ o', (break x <$> sy_ops sys) !! o' ≠ Some (op_running sid)) as Hrun'.
  { intros o' Ho'. by apply running_break, Hrun in Ho'. }
  unfold start_connect. destruct (decide (x = sid)) as [->|Hne].
  - rewrite Ht in Hs. injection Hs as ->. unfold connect_session. rewrite Hc, bool_decide_eq_true_2 by done. simpl.
    exists s. simpl. rewrite lookup_insert_eq. split_and!; try done. by apply insert_not_running.
  - destruct (connect_session s) as [s' []]; simpl;
      (apply (stuck_other sid sys); [done|by simpl; rewrite lookup_insert_ne|by apply insert_not_running]).
Qed.

Lemma closed_session_step (sid : nat) (sys sys' : system) : stuck sid sys → step sys sys' → stuck sid sys'.
Proof.
  intros Hstuck Hstep. pose proof Hstuck as (t & Ht & Hsn & Hc & Hv & Hcn & Hrun).
  destruct Hstep as [o x s rest sys Ho Hidle Hs|x s n sys Hs Hx|x s sys Hs Hx
    |o x s closing refused sys Ho Hs|o x sys Ho|o x e sys Ho|o x s close sys Ho Hs|o x r sys Ho|x s sys Hs]; simpl.
  - by apply stuck_connect.
  - apply (stuck_other sid sys); [done|simpl|].
    + rewrite lookup_insert_ne; [done|]. congruence.
    + intros o Ho. by apply running_wake, Hrun in Ho.
  - apply (stuck_other sid sys); [done| |done]. simpl. rewrite lookup_insert_ne; [done|]. congruence.
  - destruct (startTransaction closing refused s) eqn:Hst; simpl.
    + assert (x ≠ sid) by (intros ->; assert (s = t) as -> by congruence; by rewrite (stuck_refuses _ _ t Hv) in Hst).
      apply (stuck_other sid sys); [done..|]. apply insert_not_running; [congruence|done].
    + apply (stuck_other sid sys); [done..|]. by apply insert_not_running.
  - apply (stuck_other sid sys); [done..|]. by apply insert_not_running.
  - apply (stuck_other sid sys); [done..|]. by apply insert_not_running.
  - apply (stuck_other sid sys); [done| |done]. simpl. rewrite lookup_insert_ne; [done|].
    intros ->. by apply (Hrun o).
  - apply (stuck_other sid sys); [done..|]. by apply insert_not_running.
  - destruct (decide (x = sid)) as [->|Hne].
    + exists (connection_gone t). assert (s = t) as -> by congruence. simpl. by rewrite lookup_insert_eq.
    + apply (stuck_other sid sys); [done| |done]. simpl. by rewrite lookup_insert_ne.
Qed.

(** ** What becomes of the operations on such a session *)

Definition touches (sid : nat) (st : op_state) : Prop :=
  match st with op_waiting x | op_ready x | op_running x | op_done x _ => x = sid end.

(** It was given the session, and ended without a request: because it had
    nothing to send, because no transaction could begin, or because it lost the
    session. *)
Definition no_answer (sid : nat) (sys : system) (st : op_state) : Prop :=
  st = op_ready sid ∨ st = op_done sid not_sent ∨
  st = op_done sid (ended_with (makePosixException EAGAIN)) ∨
  (sid ∈ sy_lost sys ∧ ∃ e, st = op_done sid (ended_with e)).

(** The operations [ops'] on the session are those of [ops], or have no answer. *)
Definition only_unanswered (sid : nat) (sys : system) (ops ops' : gmap nat op_state) : Prop :=
  ∀ o st, ops' !! o = Some st → touches sid st → ops !! o = Some st ∨ no_answer sid sys st.

Lemma unanswered_refl (sid : nat) (sys : system) (ops : gmap nat op_state) : only_unanswered sid sys ops ops.
Proof. intros o st Ho _. by left. Qed.

Lemma unanswered_insert (sid o : nat) (st : op_state) (sys : system) (ops ops' : gmap nat op_state) :
  (touches sid st → no_answer sid sys st) → only_unanswered sid sys ops ops' →
  only_unanswered sid sys ops (<[o := st]> ops').
Proof. intros Hst Hops o' st' [[_ <-]|[_ Ho]]%lookup_insert_Some Ht; [right; by apply Hst|by apply (Hops o')]. Qed.

(** Waking and breaking the operations that wait for another session. *)
Lemma unanswered_fmap (f : nat → op_state → op_state) (sid x : nat) (sys : system) (ops : gmap nat op_state) :
  (∀ st, touches sid (f x st) → f x st = st) → only_unanswered sid sys ops (f x <$> ops).
Proof.
  intros Hf o st Ho Ht. left. rewrite lookup_fmap in Ho. destruct (ops !! o) as [st'|]; [|done].
  injection Ho as <-. by rewrite (Hf st' Ht).
Qed.
Lemma touches_break (sid x : nat) (st : op_state) : x ≠ sid → touches sid (break x st) → break x st = st.
Proof. intros Hne. destruct st; simpl; try case_decide; simpl; congruence. Qed.
Lemma touches_wake (sid x : nat) (st : op_state) : x ≠ sid → touches sid (wake x st) → wake x st = st.
Proof. intros Hne. destruct st; simpl; try case_decide; simpl; congruence. Qed.

Lemma unanswered_connect (sid o x : nat) (s : WebDAVSession) (rest : list nat) (sys : system) :
  stuck sid sys → m_sessionPool (sy_pool sys) !! x = Some s →
  let sys' := start_connect o x s rest sys in only_unanswered sid sys' (sy_ops sys) (sy_ops sys').
Proof.
  intros (t & Ht & Hsn & Hc & _) Hs. simpl. unfold start_connect. destruct (decide (x = sid)) as [->|Hne].
  - rewrite Ht in Hs. injection Hs as ->. unfold connect_session. rewrite Hc, bool_decide_eq_true_2 by done. simpl.
    apply unanswered_insert; [by left|apply unanswered_refl].
  - destruct (connect_session s) as [s' []]; simpl; (apply unanswered_insert; [by intros ->|]);
      [apply unanswered_refl| |apply unanswered_refl].
    apply (unanswered_fmap break). intros st. by apply touches_break.
Qed.

Lemma unanswered_step (sid : nat) (sys sys' : system) :
  stuck sid sys → step sys sys' →
  only_unanswered sid sys' (sy_ops sys) (sy_ops sys') ∧ sy_lost sys ⊆ sy_lost sys'.
Proof.
  intros Hstuck Hstep. pose proof Hstuck as (t & Ht & _ & _ & Hv & Hcn & Hrun).
  destruct Hstep as [o x s rest sys Ho Hidle Hs|x s n sys Hs Hx|x s sys Hs Hx
    |o x s closing refused sys Ho Hs|o x sys Ho|o x e sys Ho|o x s close sys Ho Hs|o x r sys Ho|x s sys Hs]; simpl;
    try (split; [apply unanswered_refl|done]).
  - split; [by apply unanswered_connect|]. unfold start_connect. by destruct (connect_session s) as [s' []].
  - split; [|done]. apply (unanswered_fmap wake). intros st. apply touches_wake. congruence.
  - destruct (startTransaction closing refused s) eqn:Hst; (split; [|done]); simpl;
      (apply unanswered_insert; [|apply unanswered_refl]); simpl; intros ->.
    + assert (s = t) as -> by congruence. by rewrite (stuck_refuses _ _ t Hv) in Hst.
    + by right; right; left.
  - split; [|done]. apply unanswered_insert; [|apply unanswered_refl]. intros <-. by right; left.
  - split; [|set_solver]. apply unanswered_insert; [|apply unanswered_refl]. intros <-. right; right; right.
    split; [by left|eauto].
  - split; [|done]. apply unanswered_insert; [|apply unanswered_refl]. simpl. intros ->. by destruct (Hrun o).
Qed.

Lemma unanswered_run (sid : nat) (sys sys' : system) :
  stuck sid sys → rtc step sys sys' → stuck sid sys' ∧ only_unanswered sid sys' (sy_ops sys) (sy_ops sys').
Proof.
  intros Hstuck Hrun. apply (rtc_ind_r (R := step)
    (λ s, stuck sid s ∧ only_unanswered sid s (sy_ops sys) (sy_ops s)) sys) with (z := sys');
    [split; [done|apply unanswered_refl]| |done].
  intros s1 s2 _ Hs [H1 H2]. destruct (unanswered_step sid s1 s2 H1 Hs) as [Hnew Hlost].
  split; [by eapply closed_session_step|]. intros o st Ho Ht. destruct (Hnew o st Ho Ht) as [Ho1|?]; [|by right].
  destruct (H2 o st Ho1 Ht) as [?|[?|[?|[?|[Hl He]]]]]; unfold no_answer; auto 10.
Qed.

(** The server closes the connection of [sid]. *)
Definition close_session (sid : nat) (s : WebDAVSession) (sys : system) : system :=
  mk_system (set_session sid (connection_gone s) (sy_pool sys)) (sy_ops sys) (sy_lost sys).

(** C35: a connection that the server closes while its session is idle is never
    replaced.  Whatever happens afterwards, an operation that is given this
    session later is never answered: it has the session and no transaction on
    it, or has ended without sending a request (it had nothing to send), or with
    EAGAIN, or with the error of a write that lost the session.  One that has
    the session and sends a request gets no transaction, whatever the library
    says, and ends with EAGAIN. *)
Theorem webdav_closed_session_is_final (n : nat) (sys sys' : system) (sid : nat) (s : WebDAVSession) :
  rtc step (new_system n) sys → sid ∈ m_idleSessionPool (sy_pool sys) →
  m_sessionPool (sy_pool sys) !! sid = Some s → session s ≠ None → closedByRemote s = false →
  rtc step (close_session sid s sys) sys' →
  (∀ o st, sy_ops sys' !! o = Some st → touches sid st →
     sy_ops sys !! o = Some st ∨ no_answer sid sys' st) ∧
  (∀ o, sy_ops sys' !! o = Some (op_ready sid) →
     (∀ closing refused t, m_sessionPool (sy_pool sys') !! sid = Some t →
        startTransaction closing refused t = false) ∧
     step sys' (finish o sid (ended_with (makePosixException EAGAIN)) sys')).
Proof.
  intros Hrtc Hidle Hs Hsn Hc Hrtc'.
  destruct (reachable_placed n sys Hrtc) as [pl Hp]. apply (pl_idle _ _ _ Hp) in Hidle.
  assert (stuck sid (close_session sid s sys)) as Hstuck.
  { exists (connection_gone s). simpl. rewrite lookup_insert_eq. split_and!; try done.
    - destruct (connecting s) eqn:Hcn; [|done]. assert (is_connecting (sy_pool sys) sid) as Hconn by (by exists s).
      apply (pl_conn _ _ _ Hp) in Hconn as [? ?]. congruence.
    - intros o' Ho'. assert (pl sid = Held o') by (apply (pl_held _ _ _ Hp); by right). congruence. }
  destruct (unanswered_run _ _ _ Hstuck Hrtc') as [(t & Ht & _ & _ & Hv & _) Hops]. split; [done|].
  intros o Ho. assert (∀ closing refused, startTransaction closing refused t = false) as Href
    by (intros; by apply stuck_refuses).
  split; [intros; by simplify_eq|]. pose proof (step_start o sid t false false sys' Ho Ht) as Hstep.
  by rewrite Href in Hstep.
Qed.

(** ** Witnesses *)

(** A pool of one session: an operation connects it and is answered, the server
    closes the connection, the next operation gets EAGAIN. *)
Definition busy_session : WebDAVSession := (connect_session new_WebDAVSession).1.
Definition open_session : WebDAVSession := connectSuccess 7 busy_session.
Definition run1 : system := start_connect 0 0 new_WebDAVSession [] (new_system 1).
Definition run2 : system :=
  mk_system (set_session 0 open_session (sy_pool run1)) (wake 0 <$> sy_ops run1) (sy_lost run1).
Definition run3 : system := mk_system (sy_pool run2) (<[0 := op_running 0]> (sy_ops run2)) (sy_lost run2).
Definition run4 : system := finish 0 0 answered run3.
Definition run5 : system := start_connect 1 0 (connection_gone open_session) [] (close_session 0 open_session run4).
Definition run6 : system := finish 1 0 (ended_with (makePosixException EAGAIN)) run5.

Lemma run4_reachable : rtc step (new_system 1) run4.
Proof.
  eapply rtc_l; [by apply (step_connect 0 0 new_WebDAVSession []); vm_compute|].
  eapply rtc_l; [by apply (step_connected 0 busy_session 7); vm_compute|].
  eapply rtc_l; [by apply (step_start 0 0 open_session false false); vm_compute|].
  apply rtc_once. by apply (step_detach 0 0 answered); vm_compute.
Qed.

Lemma webdav_sessions_exclusive_witness :
  NoDup (m_idleSessionPool (sy_pool run4)) ∧
  ∃ k, (0 ∈ m_idleSessionPool (sy_pool run4) ↔ k = Idle) ∧
       (is_connecting (sy_pool run4) 0 ↔ ∃ o, k = Conn o) ∧
       (∀ o, holds (sy_ops run4) o 0 ↔ k = Held o) ∧
       (0 ∈ sy_lost run4 ↔ k = Lost) ∧ k ≠ Nowhere.
Proof. apply (webdav_sessions_exclusive 1 run4 0); [apply run4_reachable|vm_compute; lia]. Defined.

Lemma webdav_closed_session_is_final_witness :
  sy_ops run6 !! 1 = Some (op_done 0 (ended_with (makePosixException EAGAIN))) ∧
  (∀ o st, sy_ops run6 !! o = Some st → touches 0 st →
     sy_ops run4 !! o = Some st ∨ no_answer 0 run6 st) ∧
  (∀ o, sy_ops run6 !! o = Some (op_ready 0) →
     (∀ closing refused t, m_sessionPool (sy_pool run6) !! 0 = Some t →
        startTransaction closing refused t = false) ∧
     step run6 (finish o 0 (ended_with (makePosixException EAGAIN)) run6)).
Proof.
  split; [vm_compute; reflexivity|].
  apply (webdav_closed_session_is_final 1 run4 run6 0 open_session); try done.
  - apply run4_reachable.
  - apply list_elem_of_singleton. reflexivity.
  - eapply rtc_l; [by apply (step_connect 1 0 (connection_gone open_session) []); vm_compute|].
    apply rtc_once. by apply (step_start 1 0 (connection_gone open_session) false false); vm_compute.
Defined.

(** The server answers with "Connection: close" and the library destroys the
    HTTP session.  The next operation connects again: the new connection drops
    the HTTP session that is gone. *)
Definition closing_session : WebDAVSession := connection_gone (headers_close true open_session).
Definition closing_run : system :=
  mk_system (mk_pool (<[0 := closing_session]> (m_sessionPool (sy_pool run4))) [0]) (sy_ops run4) [].

Lemma webdav_drops_destroyed_session :
  rtc step (new_system 1) closing_run ∧
  ∃ s, m_sessionPool (sy_pool (start_connect 1 0 closing_session [] closing_run)) !! 0 = Some s ∧
       connecting s = true ∧ session s = Some 7.
Proof.
  split; [|eexists; by split_and!; [vm_compute; reflexivity|..]].
  eapply rtc_l; [by apply (step_connect 0 0 new_WebDAVSession []); vm_compute|].
  eapply rtc_l; [by apply (step_connected 0 busy_session 7); vm_compute|].
  eapply rtc_l; [by apply (step_start 0 0 open_session false false); vm_compute|].
  eapply rtc_l; [by apply (step_headers 0 0 open_session true); vm_compute|].
  eapply rtc_l; [by apply (step_detach 0 0 answered); vm_compute|].
  apply rtc_once. by apply (step_gone 0 (headers_close true open_session)); vm_compute.
Qed.
