(* ===== verification/WebDAV.v ===== *)
(** * The WebDAV helper (src/src/webDAVHelper.cc, src/src/webDAVHelper.h)

    Files of a WebDAV server.  An operation takes a session of the pool of
    WebDAVSessions.v, builds an HTTP request and reads the response; one
    operation runs at a time here.  The server with the HTTP library is the
    class [WebDAVServer], the XML library the class [Xml], base64, the formatting
    of the authorization header and the escaping of names are parameters.
    Proved here: what an operation does to the pool of a server that is up, and
    which statuses are errors; WebDAVFiles.v and WebDAVProps.v have the files
    and the extended attributes. *)

From stdpp Require Import base numbers list gmap strings.
From Stdlib Require Import ZArith Lia Strings.Byte Strings.Ascii.
From S2P Require Import Prelude StdStrings Storage WebDAVSessions.
Local Open Scope Z_scope.

Definition ENXIO : Z := 6.
Definition EFBIG : Z := 27.
Definition ENODATA : Z := 61.
Definition EBADMSG : Z := 74.
Definition ENOTSUP : Z := 95.

(** ** Status codes *)

Definition httpStatusToPosixError (httpStatus : Z) : Z :=
  if httpStatus / 100 =? 2 then 0
  else if httpStatus / 100 <? 4 then EIO
  else match httpStatus with
       | 400 => EBADMSG
       | 401 | 403 => EPERM
       | 404 => ENOENT
       | 405 => ENOTSUP
       | 406 => EACCES
       | 407 => EACCES
       | 408 => EAGAIN
       | 409 => EBADMSG
       | 410 => ENXIO
       | 411 => EINVAL
       | 412 => EINVAL
       | 413 => EFBIG
       | 414 => EINVAL
       | 415 => EINVAL
       | 416 => ERANGE
       | 417 => EINVAL
       | 426 => EINVAL
       | 428 => EINVAL
       | 429 => EBUSY
       | 431 => EFBIG
       | 451 => EPERM
       | 500 => EIO
       | 501 => ENOTSUP
       | 502 => ENXIO
       | 503 => ENXIO
       | 504 => EAGAIN
       | 505 => EINVAL
       | 511 => EACCES
       | _ => EIO
       end.

(** EINTR, EIO, EAGAIN, EACCES, EBUSY, EMFILE, ETXTBSY, ESPIPE, EMLINK, EPIPE,
    EDEADLK, EWOULDBLOCK, ENONET, ENOLINK, EADDRINUSE, EADDRNOTAVAIL, ENETDOWN,
    ENETUNREACH, ECONNABORTED, ECONNRESET, ENOTCONN, EHOSTDOWN, EHOSTUNREACH,
    EREMOTEIO, ENOMEDIUM, ECANCELED.  Nothing calls the condition. *)
Definition WebDAV_RETRY_ERRORS : list Z :=
  [4; 5; 11; 13; 16; 24; 26; 29; 31; 32; 35; 11; 64; 67; 98; 99; 100; 101; 103; 104; 107; 112; 113;
   121; 123; 125].
Definition WebDAVRetryCondition (result : Z) : bool := negb (bool_decide (- result ∈ WebDAV_RETRY_ERRORS)).

(** ** Paths *)

(** [folly::trimWhitespace] *)
Definition is_blank (c : ascii) : bool :=
  let n := Z.of_N (N_of_ascii c) in (n =? 32) || (n =? 10) || (n =? 9) || (n =? 13).
Fixpoint ltrim (s : string) : string :=
  match s with String c s' => if is_blank c then ltrim s' else s | EmptyString => s end.
Fixpoint rtrim (s : string) : string :=
  match s with
  | EmptyString => EmptyString
  | String c s' =>
      match rtrim s' with
      | EmptyString => if is_blank c then EmptyString else String c EmptyString
      | t => String c t
      end
  end.
Definition trimWhitespace (s : string) : string := rtrim (ltrim s).

Definition starts_with_slash (s : string) : bool :=
  match s with String c _ => Ascii.eqb c "/" | EmptyString => false end.

(** Of a blank path the character behind its end is compared with '/'. *)
Definition ensureHttpPath (path : string) : string :=
  if String.eqb path "" then "/"
  else
    let result := trimWhitespace path in
    if negb (starts_with_slash result) then ("/" ++ result)%string else result.

Fixpoint last_char (s : string) : option ascii :=
  match s with
  | EmptyString => None
  | String c EmptyString => Some c
  | String _ s' => last_char s'
  end.

Definition ensureCollectionPath (path : string) : string :=
  let result := ensureHttpPath path in
  if bool_decide (last_char result = Some "/"%char) then result else (result ++ "/")%string.

(** ** Requests and responses *)

Abbreviation header := (string * string)%type.

Record http_request := mk_http_request {
  rq_method : string; rq_url : string; rq_headers : list header; rq_body : bytes
}.

(** [rs_connection] is the header "Connection"; the body comes in buffers. *)
Record http_response := mk_http_response {
  rs_status : Z; rs_connection : option string; rs_body : list bytes
}.

Inductive WebDAVCredentialsType := CREDENTIALS_NONE | BASIC | TOKEN.
Inductive WebDAVRangeWriteSupport := NONE | SABREDAV_PARTIALUPDATE | MODDAV_PUTRANGE.

(** The members of a helper but its pool; the endpoint as its parts. *)
Record webdav_config := mk_webdav_config {
  wc_scheme : string; wc_host : string; wc_port : Z; wc_path : string;
  m_verifyServerCertificate : bool;
  m_credentialsType : WebDAVCredentialsType; m_credentials : string; m_authorizationHeader : string;
  m_rangeWriteSupport : WebDAVRangeWriteSupport;
  m_connectionPoolSize : Z; m_maximumUploadSize : Z
}.

(** The server behind the HTTP library: a connection to it, if one can be made,
    with the address of the peer; whether a session is being closed or takes no
    more transactions; a request and its response, or an error in between. *)
Class WebDAVServer (W : Type) := {
  dav_connect : W → W * option string;
  dav_isClosing : W → bool;
  dav_newTransaction_fails : W → bool;
  dav_exchange : http_request → W → W * option http_response
}.

(** ** XML *)

(** A node of a document: an element with its namespace, local name, attributes
    and children, or a text. *)
Inductive dom :=
| Element (ns localName : string) (attributes : list (string * string)) (children : list dom)
| TextNode (data : string).

Definition childNodes (n : dom) : list dom := match n with Element _ _ _ l => l | TextNode _ => [] end.
Definition hasChildNodes (n : dom) : bool := negb (bool_decide (length (childNodes n) = 0%nat)).
Definition is_text (n : dom) : bool := match n with TextNode _ => true | _ => false end.
Definition namespaceURI (n : dom) : string := match n with Element ns _ _ _ => ns | TextNode _ => "" end.
Definition local_name (n : dom) : string := match n with Element _ name _ _ => name | TextNode _ => "" end.

Fixpoint innerText (n : dom) : string :=
  match n with
  | TextNode data => data
  | Element _ _ _ l => (fix texts l := match l with [] => ""%string | n :: l' => (innerText n ++ texts l')%string end) l
  end.

(** A name with its namespace; a path of them below a node. *)
Abbreviation qname := (string * string)%type.

(** The parser, which fails on text that is not XML, the writer, the search of a
    first node by its path and the elements of a name in document order. *)
Class Xml := {
  parseMemory : bytes → option dom;
  writeNode : dom → string;
  getNodeByPathNS : dom → list qname → option dom;
  getElementsByTagNameNS : dom → qname → list dom
}.

Definition kNSDAV : string := "DAV:".
Definition kNSOnedata : string := "http://onedata.org/metadata".
Definition d (name : string) : qname := (kNSDAV, name).
Definition prop_path : list qname := [d "multistatus"; d "response"; d "propstat"; d "prop"].

(** ** The state of a helper *)

(** The server, the pool, and of each session the address of its peer. *)
Record webdav (W : Type) := mk_webdav { wd_server : W; wd_pool : pool; wd_hosts : gmap nat string }.
Arguments mk_webdav {W} _ _ _.
Arguments wd_server {W} _.
Arguments wd_pool {W} _.
Arguments wd_hosts {W} _.

Section helper.
Context {W : Type} `{WebDAVServer W} `{Xml}.
(** [Poco::Base64Encoder]; [folly::sformat] of a format and one argument;
    [Poco::URI::encode]; [Poco::DateTimeParser::parse] of RFC 1123 dates. *)
Context (base64 : string → string) (sformat : string → string → option string)
  (uri_encode : string → string) (parse_date : string → option Z).
Context (c : webdav_config).
Abbreviation WS := (webdav W).

(** *** Sessions *)

Definition set_pool (p : pool) (s : WS) : WS := mk_webdav (wd_server s) p (wd_hosts s).

(** [blockingRead]: with no idle session and nothing under way it blocks. *)
Definition take_session : ST WS nat := λ s,
  match m_idleSessionPool (wd_pool s) with
  | sid :: rest => (set_pool (mk_pool (m_sessionPool (wd_pool s)) rest) s, Value sid)
  | [] => (s, Exception no_return)
  end.

Definition release (sid : nat) : ST WS unit := λ s, (set_pool (releaseSession sid (wd_pool s)) s, Value tt).

Definition get_session (sid : nat) : ST WS WebDAVSession := λ s,
  match m_sessionPool (wd_pool s) !! sid with
  | Some x => (s, Value x)
  | None => (s, Exception undefined_behaviour)
  end.
Definition put_session (sid : nat) (x : WebDAVSession) : ST WS unit := λ s,
  (set_pool (set_session sid x (wd_pool s)) s, Value tt).
Definition set_host (sid : nat) (host : string) : ST WS unit := λ s,
  (mk_webdav (wd_server s) (wd_pool s) (<[sid := host]> (wd_hosts s)), Value tt).
Definition get_host (sid : nat) : ST WS string := λ s, (s, Value (default ""%string (wd_hosts s !! sid))).

Definition server {A} (f : W → W * A) : ST WS A := λ s,
  let '(w, a) := f (wd_server s) in (mk_webdav w (wd_pool s) (wd_hosts s), Value a).

(** When connecting fails the session is given back and the future of the
    operation stays open. *)
Definition connect : ST WS nat :=
  sid ← take_session;
  x ← get_session sid;
  let '(x', outcome) := connect_session x in
  _ ← put_session sid x';
  match outcome with
  | use_session => mret sid
  | start_connecting =>
      peer ← server dav_connect;
      match peer with
      | Some host => _ ← put_session sid (connectSuccess 0 x'); _ ← set_host sid host; mret sid
      | None =>
          _ ← put_session sid (mk_WebDAVSession (session x') false (closedByRemote x') (sessionValid x'));
          _ ← release sid; st_throw no_return
      end
  | wait_for_connection => st_throw no_return
  end.

(** *** Requests *)

(** The headers of the constructor of a request. *)
Definition authorization : Try (list header) :=
  match m_credentialsType c with
  | BASIC => Value [("Authorization", "Basic " ++ base64 (m_credentials c))%string]
  | TOKEN =>
      match split_keep ":" (m_authorizationHeader c) with
      | [name] => Value [(trimWhitespace name, m_credentials c)]
      | [name; format] =>
          match sformat format (m_credentials c) with
          | Some value => Value [(name, value)]
          | None => Exception bad_format
          end
      | _ => Value []
      end
  | CREDENTIALS_NONE => Value []
  end.

Definition new_request (sid : nat) : ST WS (list header) :=
  host ← get_host sid;
  auth ← st_lift authorization;
  mret ([("User-Agent", "Onedata"); ("Accept", "*/*"); ("Connection", "Keep-Alive"); ("Host", host)]%string ++ auth).

Definition url_of (resource : string) : string := ensureHttpPath (wc_path c ++ "/" ++ resource)%string.

(** A transaction from [startTransaction] to [detachTransaction], which gives
    the session back, as a refused one does. *)
Definition transact (sid : nat) (rq : http_request) : ST WS http_response :=
  x ← get_session sid;
  closing ← server (λ w, (w, dav_isClosing w));
  refused ← server (λ w, (w, dav_newTransaction_fails w));
  if startTransaction closing refused x then
    response ← server (dav_exchange rq);
    match response with
    | Some rs =>
        x ← get_session sid;
        _ ← put_session sid (headers_close (bool_decide (rs_connection rs = Some "close"%string)) x);
        _ ← release sid; mret rs
    | None => _ ← release sid; st_throw http_exception
    end
  else _ ← release sid; st_throw (makePosixException EAGAIN).

(** The status of a response as the result of a request. *)
Definition check_status (rs : http_response) : Try unit :=
  let result := httpStatusToPosixError (rs_status rs) in
  if result =? 0 then Value tt else Exception (makePosixException result).

Definition range_text (first last : Z) : string :=
  ("bytes=" ++ to_string first ++ "-" ++ to_string last)%string.

(** A second byte is asked for when only the first is wanted. *)
Definition first_byte_request (offset size : Z) : bool := (offset =? 0) && (size =? 1).
Definition get_range (offset size : Z) : string :=
  if first_byte_request offset size then "bytes=0-1"
  else range_text offset (u64 (offset + size - 1)).

(** [onEOM] of a GET: of a first byte only the beginning of the first buffer. *)
Definition get_result (first : bool) (rs : http_response) : Try bytes :=
  _ ← check_status rs;
  if first then
    match rs_body rs with
    | b :: _ => Value [default x00 (head b)]
    | [] => Exception undefined_behaviour
    end
  else Value (concat (rs_body rs)).

Definition webdav_GET (sid : nat) (resource : string) (offset size : Z) : ST WS bytes :=
  headers ← new_request sid;
  if size =? 0 then _ ← release sid; mret []
  else
    rs ← transact sid (mk_http_request "GET" (url_of resource)
                         (headers ++ [("Range"%string, get_range offset size)]) []);
    st_lift (get_result (first_byte_request offset size) rs).

Definition content_length (b : bytes) : header := ("Content-length"%string, to_string (chainLength b)).

Definition put_headers (offset : Z) (buf : bytes) : list header :=
  (if 0 <? chainLength buf
   then [("Content-Range", "bytes " ++ to_string offset ++ "-" ++
            to_string (u64 (offset + chainLength buf - 1)) ++ "/*")%string]
   else []) ++ [content_length buf].

Definition webdav_PUT (sid : nat) (resource : string) (offset : Z) (buf : bytes) : ST WS unit :=
  headers ← new_request sid;
  rs ← transact sid (mk_http_request "PUT" (url_of resource) (headers ++ put_headers offset buf) buf);
  st_lift (check_status rs).

Definition patch_headers (offset : Z) (buf : bytes) : list header :=
  [("X-Update-Range"%string, range_text offset (u64 (offset + chainLength buf - 1)));
   ("Content-type", "application/x-sabredav-partialupdate")%string; content_length buf].

Definition webdav_PATCH (sid : nat) (resource : string) (offset : Z) (buf : bytes) : ST WS unit :=
  headers ← new_request sid;
  if chainLength buf =? 0 then release sid
  else
    rs ← transact sid (mk_http_request "PATCH" (url_of resource) (headers ++ patch_headers offset buf) buf);
    st_lift (check_status rs).

(** MKCOL, DELETE, and MOVE and COPY with their destination. *)
Definition simple_request (sid : nat) (method resource : string) (more : list header) : ST WS unit :=
  headers ← new_request sid;
  rs ← transact sid (mk_http_request method (url_of resource) (headers ++ more) []);
  st_lift (check_status rs).
Definition webdav_MKCOL (sid : nat) (resource : string) : ST WS unit := simple_request sid "MKCOL" resource [].
Definition webdav_DELETE (sid : nat) (resource : string) : ST WS unit := simple_request sid "DELETE" resource [].
Definition webdav_MOVE (sid : nat) (resource destination : string) : ST WS unit :=
  simple_request sid "MOVE" resource [("Destination"%string, destination)].
Definition webdav_COPY (sid : nat) (resource destination : string) : ST WS unit :=
  simple_request sid "COPY" resource [("Destination"%string, destination)].

Definition depth_text (depth : Z) : string := if 0 <=? depth then to_string depth else "infinity".

Definition propfind_result (rs : http_response) : Try dom :=
  _ ← check_status rs;
  match parseMemory (concat (rs_body rs)) with
  | Some xml => Value xml
  | None => Exception (makePosixException EIO)
  end.

Definition webdav_PROPFIND (sid : nat) (resource : string) (depth : Z) : ST WS dom :=
  headers ← new_request sid;
  rs ← transact sid (mk_http_request "PROPFIND" (url_of resource)
                       (headers ++ [("Depth"%string, depth_text depth)]) []);
  st_lift (propfind_result rs).

(** The document of a PROPPATCH.  An empty value is an element, and what is
    removed is in the namespace "o:". *)
Definition plain (name : string) (children : list dom) : dom := Element "" name [] children.
Definition propertyUpdate (content : dom) : dom :=
  Element "" "propertyupdate" [("xmlns"%string, kNSDAV); ("xmlns:o"%string, kNSOnedata)] [content].
Definition value_node (value : string) : dom :=
  if String.eqb value "" then Element kNSOnedata "Null" [] [] else TextNode value.
Definition set_document (name value : string) : dom :=
  propertyUpdate (plain "set" [plain "prop" [Element kNSOnedata (uri_encode name) [] [value_node value]]]).
Definition remove_document (name : string) : dom :=
  propertyUpdate (plain "remove" [plain "prop" [Element "o:" (uri_encode name) [] []]]).

(** The exceptions of the body of the [try] all become EIO. *)
Definition proppatch_result (rs : http_response) : Try unit :=
  _ ← check_status rs;
  match parseMemory (concat (rs_body rs)) with
  | None => Exception (makePosixException EIO)
  | Some xml =>
      match getNodeByPathNS xml [d "multistatus"; d "response"; d "propstat"; d "status"] with
      | None => Exception (makePosixException EIO)
      | Some status =>
          if String.eqb "HTTP/1.1 200 OK" (innerText status) ||
             String.eqb "HTTP/1.1 204 No Content" (innerText status)
          then Value tt
          else Exception (makePosixException EIO)
      end
  end.

Definition webdav_PROPPATCH (sid : nat) (resource property value : string) (remove : bool) : ST WS unit :=
  headers ← new_request sid;
  let body := String.list_byte_of_string (writeNode (if remove then remove_document property
                                              else set_document property value)) in
  rs ← transact sid (mk_http_request "PROPPATCH" (url_of resource)
                       (headers ++ [("Content-type", "application/x-www-form-urlencoded")%string;
                                    content_length body]) body);
  st_lift (proppatch_result rs).

(** *** The operations *)

Definition read (m_fileId : string) (offset size : Z) : ST WS bytes :=
  sid ← connect; webdav_GET sid m_fileId offset size.

(** [self]: the handle still exists.  What is not supported keeps the session. *)
Definition write (self : bool) (m_fileId : string) (offset : Z) (buf : bytes) : ST WS Z :=
  sid ← connect;
  if negb self then st_throw (makePosixException ECANCELED)
  else
    match m_rangeWriteSupport c with
    | SABREDAV_PARTIALUPDATE => _ ← webdav_PATCH sid m_fileId offset buf; mret (chainLength buf)
    | MODDAV_PUTRANGE => _ ← webdav_PUT sid m_fileId offset buf; mret (chainLength buf)
    | NONE => st_throw (makePosixException ENOTSUP)
    end.

Definition open (fileId : string) (flags : Z) (openParams : Params) : ST WS string := mret fileId.

Definition access (fileId : string) (mask : Z) : ST WS unit :=
  sid ← connect; _ ← webdav_PROPFIND sid fileId 0; mret tt.

(** The [stat] of a document; a missing resource type is dereferenced. *)
Definition stat_of (multistatus : dom) : Try stat :=
  match getNodeByPathNS multistatus (prop_path ++ [d "resourcetype"]) with
  | None => Exception undefined_behaviour
  | Some resourceType =>
      let mode := if hasChildNodes resourceType then S_IFDIR else S_IFREG in
      time ← (match getNodeByPathNS multistatus (prop_path ++ [d "getlastmodified"]) with
              | Some n => match parse_date (innerText n) with
                          | Some t => Value t
                          | None => Exception runtime_error
                          end
              | None => Value 0
              end);
      size ← (match getNodeByPathNS multistatus (prop_path ++ [d "getcontentlength"]) with
              | Some n => stoi (innerText n)
              | None => Value 0
              end);
      Value (mk_stat 0 mode 0 0 size time time)
  end.

Definition getattr (fileId : string) : ST WS stat :=
  sid ← connect; multistatus ← webdav_PROPFIND sid fileId 0; st_lift (stat_of multistatus).

Definition unlink (fileId : string) (currentSize : Z) : ST WS unit := sid ← connect; webdav_DELETE sid fileId.
Definition rmdir (fileId : string) : ST WS unit := sid ← connect; webdav_DELETE sid fileId.

(** [folly::IOBuf::create]: a buffer with room and no data. *)
Definition IOBuf_create (capacity : Z) : bytes := [].

(** The index of the loop that fills the buffer has 32 bits; the buffer is taken
    to be allocated. *)
Definition truncate (fileId : string) (size currentSize : Z) : ST WS unit :=
  if (0 <? size) && (u64 size =? currentSize) then mret tt
  else if (0 <? size) && (u64 size <? currentSize) then st_throw (makePosixException ERANGE)
  else
    sid ← connect;
    if size =? 0 then webdav_PUT sid fileId size (IOBuf_create 0)
    else
      let fill := u64 (size - currentSize) in
      if 4294967296 <=? fill then st_throw no_return
      else webdav_PUT sid fileId size (IOBuf_create fill).

Definition mknod (fileId : string) (mode : Z) (flags : FlagsSet) (rdev : Z) : ST WS unit :=
  sid ← connect; webdav_PUT sid fileId 0 [].
Definition mkdir (fileId : string) (mode : Z) : ST WS unit := sid ← connect; webdav_MKCOL sid fileId.
Definition rename (from to : string) : ST WS unit := sid ← connect; webdav_MOVE sid from to.

(** The name a response of a listing gives, if any. *)
Definition entry_name (directoryPath : string) (response : dom) : option string :=
  if negb (hasChildNodes response) then None
  else
    href ← getNodeByPathNS response [d "href"];
    if String.eqb directoryPath (innerText href) then None else last (split_keep "/" (innerText href)).

(** The offset and the count are not used. *)
Definition readdir (fileId : string) (offset count : Z) : ST WS (list string) :=
  sid ← connect;
  multistatus ← webdav_PROPFIND sid fileId 1;
  mret (omap (entry_name (ensureCollectionPath fileId)) (getElementsByTagNameNS multistatus (d "response"))).

Definition xattr_of (name : string) (multistatus : dom) : Try string :=
  match getNodeByPathNS multistatus (prop_path ++ [(kNSOnedata, uri_encode name)]) with
  | Some attributeNode =>
      match childNodes attributeNode with
      | [attributeValueNode] => Value (if is_text attributeValueNode then innerText attributeNode else ""%string)
      | _ => Exception (makePosixException ENODATA)
      end
  | None => Exception (makePosixException ENODATA)
  end.

Definition getxattr (fileId name : string) : ST WS string :=
  sid ← connect; multistatus ← webdav_PROPFIND sid fileId 0; st_lift (xattr_of name multistatus).
Definition setxattr (fileId name value : string) (create replace : bool) : ST WS unit :=
  sid ← connect; webdav_PROPPATCH sid fileId name value false.
Definition removexattr (fileId name : string) : ST WS unit :=
  sid ← connect; webdav_PROPPATCH sid fileId name "" true.

Definition xattr_names_of (multistatus : dom) : list string :=
  match getNodeByPathNS multistatus prop_path with
  | Some prop => map local_name (filter (λ n, namespaceURI n = kNSOnedata) (childNodes prop))
  | None => []
  end.
Definition listxattr (fileId : string) : ST WS (list string) :=
  sid ← connect; multistatus ← webdav_PROPFIND sid fileId 0; mret (xattr_names_of multistatus).

(** The methods that the class overrides; the others are those of the base. *)
Definition webdav_helper : StorageHelper WS string :=
  let base := default_StorageHelper open in {|
  sh_getattr := getattr; sh_access := access; sh_readlink := sh_readlink base; sh_readdir := readdir;
  sh_mknod := mknod; sh_mkdir := mkdir; sh_unlink := unlink; sh_rmdir := rmdir;
  sh_symlink := sh_symlink base; sh_rename := rename; sh_link := sh_link base;
  sh_chmod := λ fileId mode, mret tt; sh_chown := sh_chown base; sh_truncate := truncate;
  sh_open := open; sh_getxattr := getxattr; sh_setxattr := setxattr;
  sh_removexattr := removexattr; sh_listxattr := listxattr
|}.

Definition new_webdav (w : W) : WS := mk_webdav w (new_pool (Z.to_nat (m_connectionPoolSize c))) ∅.

End helper.

(** ** The factory *)

Definition find (sub s : string) : option nat := String.index 0 sub s.
Definition erase_last (s : string) : string := String.substring 0 (String.length s - 1) s.

(** [Poco::URI]: scheme, host, the port or that of the scheme or 0, and path. *)
Record uri := mk_uri { u_scheme : string; u_host : string; u_port : Z; u_path : string }.

Section factory.
(** [boost::lexical_cast] to size_t, uint32_t and strings; the parser of URIs,
    which fails with a syntax exception; the default timeout. *)
Context (cast_size cast_uint32 : string → option Z) (cast_string : string → option string)
  (parse_uri : string → option uri) (ASYNC_OPS_TIMEOUT : Z).

(** The end of an empty endpoint is dereferenced. *)
Definition endpoint_url (endpoint : string) : Try uri :=
  let scheme :=
    if bool_decide (find ":" endpoint = None) then "http://"%string
    else if bool_decide (find "http" endpoint ≠ Some 0%nat) then
      if bool_decide (find ":443" endpoint = None) then "http://"%string else "https://"%string
    else ""%string in
  match last_char endpoint with
  | None => Exception undefined_behaviour
  | Some last =>
      let normalizedEndpoint := if Ascii.eqb last "/" then erase_last endpoint else endpoint in
      match parse_uri (scheme ++ normalizedEndpoint)%string with
      | Some u => Value u
      | None => Exception invalid_argument
      end
  end.

Definition normalize_endpoint (u : uri) : Try uri :=
  if String.eqb (u_host u) "" then Exception invalid_argument
  else
    u ← (if String.eqb (u_scheme u) "" then
           Value (if u_port u =? 0 then mk_uri "http" (u_host u) 80 (u_path u)
                  else if u_port u =? 443 then mk_uri "https" (u_host u) (u_port u) (u_path u)
                  else mk_uri "http" (u_host u) (u_port u) (u_path u))
         else if negb (String.eqb (u_scheme u) "http") && negb (String.eqb (u_scheme u) "https")
              then Exception invalid_argument
              else Value u);
    Value (if u_port u =? 0
           then mk_uri (u_scheme u) (u_host u) (if String.eqb (u_scheme u) "https" then 443 else 80) (u_path u)
           else u).

Definition parse_credentialsType (s : string) : Try WebDAVCredentialsType :=
  if String.eqb s "none" then Value CREDENTIALS_NONE
  else if String.eqb s "basic" then Value BASIC
  else if String.eqb s "token" then Value TOKEN
  else Exception invalid_argument.

Definition parse_rangeWriteSupport (s : string) : Try WebDAVRangeWriteSupport :=
  if String.eqb s "" || String.eqb s "none" then Value NONE
  else if String.eqb s "sabredav" then Value SABREDAV_PARTIALUPDATE
  else if String.eqb s "moddav" then Value MODDAV_PUTRANGE
  else Exception invalid_argument.

Definition kDefaultAuthorizationHeader : string := "Authorization: Bearer {}".

Definition create_webdav (parameters : Params) : Try (webdav_config * Z) :=
  endpoint ← getParam_string parameters "endpoint";
  verifyServerCertificateStr ← getParam_def cast_string parameters "verifyServerCertificate" "true"%string;
  credentialsTypeStr ← getParam_def cast_string parameters "credentialsType" "basic"%string;
  credentials ← getParam_string parameters "credentials";
  authorizationHeader ← getParam_def cast_string parameters "authorizationHeader" kDefaultAuthorizationHeader;
  rangeWriteSupportStr ← getParam_def cast_string parameters "rangeWriteSupport" "none"%string;
  connectionPoolSize ← getParam_def cast_uint32 parameters "connectionPoolSize" 10;
  maximumUploadSize ← getParam_def cast_size parameters "maximumUploadSize" 0;
  let authorizationHeader :=
    if String.eqb authorizationHeader "" then kDefaultAuthorizationHeader else authorizationHeader in
  timeout ← getParam_def cast_size parameters "timeout" ASYNC_OPS_TIMEOUT;
  endpointUrl ← endpoint_url endpoint;
  endpointUrl ← normalize_endpoint endpointUrl;
  let verifyServerCertificate := String.eqb verifyServerCertificateStr "true" in
  credentialsType ← parse_credentialsType credentialsTypeStr;
  rangeWriteSupport ← parse_rangeWriteSupport rangeWriteSupportStr;
  Value (mk_webdav_config (u_scheme endpointUrl) (u_host endpointUrl) (u_port endpointUrl) (u_path endpointUrl)
           verifyServerCertificate credentialsType credentials authorizationHeader rangeWriteSupport
           connectionPoolSize maximumUploadSize, timeout).

Lemma normalize_endpoint_valid (u u' : uri) :
  normalize_endpoint u = Value u' →
  u_host u' = u_host u ∧ u_host u' ≠ ""%string ∧ u_port u' ≠ 0 ∧ u_path u' = u_path u ∧
  (u_scheme u' = "http"%string ∨ u_scheme u' = "https"%string) ∧ (u_port u ≠ 0 → u_port u' = u_port u).
Proof.
  unfold normalize_endpoint. destruct u as [scheme host port path]. simpl.
  destruct (String.eqb_spec host "") as [|Hh]; [done|]. destruct (String.eqb_spec scheme "") as [->|_].
  - destruct (Z.eqb_spec port 0); [|destruct (Z.eqb_spec port 443)]; simpl;
      try (rewrite (proj2 (Z.eqb_neq port 0)) by done); intros [= <-]; simpl; split_and!; auto; lia.
  - destruct (String.eqb_spec scheme "http") as [->|_]; [|destruct (String.eqb_spec scheme "https") as [->|_]; [|done]];
      simpl; destruct (Z.eqb_spec port 0); intros [= <-]; simpl; split_and!; auto; done.
Qed.

(** A helper that is built has a host, an HTTP scheme, a port and a header. *)
Lemma create_webdav_valid (parameters : Params) (c : webdav_config) (timeout : Z) :
  create_webdav parameters = Value (c, timeout) →
  wc_host c ≠ ""%string ∧ wc_port c ≠ 0 ∧ (wc_scheme c = "http"%string ∨ wc_scheme c = "https"%string) ∧
  m_authorizationHeader c ≠ ""%string.
Proof.
  unfold create_webdav, mbind, Try_bind. intros Hcreate.
  repeat (case_match; try discriminate); simplify_eq; simpl;
    match goal with Hn : normalize_endpoint _ = Value _ |- _ =>
      apply normalize_endpoint_valid in Hn as (_ & Hh & Hp & _ & Hs & _) end;
    split_and!; try done; by apply String.eqb_neq.
Qed.
End factory.

(** ** Requests as a server sees them *)

Definition header_values (name : string) (rq : http_request) : list string :=
  map snd (filter (λ h, h.1 = name) (rq_headers rq)).

Definition success (rs : http_response) : Prop := 200 <= rs_status rs < 300.

(** ** Status codes *)

Lemma status_success (status : Z) : httpStatusToPosixError status = 0 ↔ 200 <= status < 300.
Proof.
  unfold httpStatusToPosixError. destruct (Z.eqb_spec (status / 100) 2) as [H2|H2].
  - split; [intros _; zlia|done].
  - split; [|intros Hs; destruct H2; zlia].
    destruct (status / 100 <? 4); [done|].
    destruct status as [|p|p]; try done; do 9 (destruct p as [p|p|]; try done).
Qed.

Lemma check_status_success (rs : http_response) : success rs → check_status rs = Value tt.
Proof.
  intros Hs. unfold check_status. apply status_success in Hs. by rewrite Hs.
Qed.

(** ** Listings *)

(** A response of a listing gives the part of its path behind the last '/': the
    name of a file, and "" for a collection whose path ends in '/'. *)
Lemma webdav_entry_name `{Xml} (directoryPath base name : string) (response href : dom) :
  hasChildNodes response = true → getNodeByPathNS response [d "href"] = Some href →
  innerText href = (base ++ String "/" name)%string → free_of "/" name = true → innerText href ≠ directoryPath →
  entry_name directoryPath response = Some name.
Proof.
  intros Hc Hh Ht Hname Hdir. unfold entry_name. rewrite Hc, Hh. simpl.
  destruct (String.eqb_spec directoryPath (innerText href)) as [Heq|_]; [by destruct Hdir|].
  rewrite Ht, split_keep_delim, (split_keep_free _ name) by done. by rewrite last_snoc.
Qed.

(** ** Sessions of sequential operations *)

(** A session that can be used again, at once or after connecting. *)
Definition usable (x : WebDAVSession) : Prop :=
  connecting x = false ∧ (closedByRemote x = false → session x ≠ None → sessionValid x = true).
Definition valid_session (x : WebDAVSession) : Prop :=
  connecting x = false ∧ closedByRemote x = false ∧ session x ≠ None ∧ sessionValid x = true.

Definition usable_idle (p : pool) : Prop :=
  ∀ sid, sid ∈ m_idleSessionPool p → ∃ x, m_sessionPool p !! sid = Some x ∧ usable x.
Definition pool_ready (p : pool) : Prop :=
  m_idleSessionPool p ≠ [] ∧ (length (m_idleSessionPool p) ≤ IDLE_CAPACITY)%nat ∧ usable_idle p.

(** The session [sid] is in the hands of an operation. *)
Definition taken (p : pool) (sid : nat) (x : WebDAVSession) : Prop :=
  m_sessionPool p !! sid = Some x ∧ usable x ∧ (length (m_idleSessionPool p) < IDLE_CAPACITY)%nat ∧ usable_idle p.

Lemma usable_set (p : pool) (sid : nat) (x : WebDAVSession) :
  usable x → usable_idle p → usable_idle (set_session sid x p).
Proof.
  intros Hx Hp sid' Hin. simpl in *. destruct (decide (sid' = sid)) as [->|Hne].
  - rewrite lookup_insert_eq. by exists x.
  - rewrite lookup_insert_ne by done. by apply Hp.
Qed.

Lemma taken_set (p : pool) (sid : nat) (x x' : WebDAVSession) :
  taken p sid x → usable x' → taken (set_session sid x' p) sid x'.
Proof.
  intros (_ & _ & Hlen & Hp) Hx'. split_and!; [by simpl; rewrite lookup_insert_eq|done|done|by apply usable_set].
Qed.

Lemma taken_set_twice (p : pool) (sid : nat) (x y x' : WebDAVSession) :
  taken p sid x → usable x' → taken (set_session sid x' (set_session sid y p)) sid x'.
Proof.
  intros Hp Hx'. pose proof (taken_set p sid x x' Hp Hx') as Ht. unfold set_session in *. simpl in *.
  by rewrite insert_insert_eq.
Qed.

Lemma release_taken (p : pool) (sid : nat) (x : WebDAVSession) :
  taken p sid x → pool_ready (releaseSession sid p).
Proof.
  intros (Hs & Hx & Hlen & Hp). unfold releaseSession. rewrite decide_True by done. split_and!; simpl.
  - by destruct (m_idleSessionPool p).
  - rewrite length_app. simpl. lia.
  - intros sid' Hin. simpl in *. apply elem_of_app in Hin as [Hin|Hin]; [by apply Hp|].
    apply list_elem_of_singleton in Hin as ->. by exists x.
Qed.

Section sessions.
Context {W : Type} `{WebDAVServer W}.
Abbreviation WS := (webdav W).

(** Connecting succeeds and does not change what is seen of the server, and no
    transaction is refused. *)
Context {V : Type} (view : W → V).
Context (connects : ∀ w, ∃ w' peer, dav_connect w = (w', Some peer) ∧ view w' = view w).
Context (accepts : ∀ w, dav_isClosing w = false ∧ dav_newTransaction_fails w = false).

Lemma take_ready (s : WS) :
  pool_ready (wd_pool s) →
  ∃ s' sid x, take_session s = (s', Value sid) ∧ taken (wd_pool s') sid x ∧ wd_server s' = wd_server s.
Proof.
  intros (Hne & Hlen & Hp). unfold take_session.
  destruct (m_idleSessionPool (wd_pool s)) as [|sid rest] eqn:Hidle; [done|].
  destruct (Hp sid) as (x & Hx & Hu); [rewrite Hidle; by left|].
  eexists _, sid, x. split; [done|]. split; [|done]. split_and!; [done..|simpl in *; lia|].
  intros sid' Hin. apply Hp. rewrite Hidle. by right.
Qed.

Lemma connect_ready (s : WS) :
  pool_ready (wd_pool s) →
  ∃ s' sid x, connect s = (s', Value sid) ∧ taken (wd_pool s') sid x ∧ valid_session x ∧
    view (wd_server s') = view (wd_server s).
Proof using connects.
  intros Hready. destruct (take_ready s Hready) as (s1 & sid & x & Htake & Hx & Hw1).
  unfold connect. rewrite (st_bind_value _ _ _ _ _ Htake). unfold get_session, mbind, ST_bind.
  pose proof Hx as (Hs & [Hc Hu] & _). rewrite Hs. unfold connect_session. rewrite Hc.
  destruct (closedByRemote x) eqn:Hcl; [|case_bool_decide as Hn]; simpl.
  1, 3: destruct (connects (wd_server s1)) as (w' & peer & Hcon & Hf); unfold server; simpl; rewrite Hcon;
    simpl; rewrite connectSuccess_fields; eexists _, sid, _; (split; [done|]); simpl; rewrite Hf, Hw1;
    (split; [by apply (taken_set_twice _ sid x); [|by split]|]); (split; [|done]); by split_and!.
  eexists _, sid, x. split; [done|]. simpl. rewrite Hw1.
  split; [by apply (taken_set _ sid x), Hx|]. split; [|done]. split_and!; auto.
Qed.

Lemma transact_ready (s : WS) (sid : nat) (x : WebDAVSession) (rq : http_request) (w : W) (rs : http_response) :
  taken (wd_pool s) sid x → valid_session x → dav_exchange rq (wd_server s) = (w, Some rs) →
  ∃ s', transact sid rq s = (s', Value rs) ∧ pool_ready (wd_pool s') ∧ wd_server s' = w.
Proof using accepts.
  intros Hx (Hc & Hcl & Hn & Hv) Hex. unfold transact, get_session, server, mbind, ST_bind.
  pose proof Hx as (Hs & _). rewrite Hs. destruct (accepts (wd_server s)) as [-> Hnt]. simpl. rewrite Hnt.
  unfold startTransaction. rewrite Hcl, Hv, bool_decide_eq_false_2 by done. simpl. rewrite Hex. simpl.
  rewrite Hs. eexists. split; [done|]. simpl. split; [|done].
  eapply (release_taken _ sid), (taken_set _ sid x); [exact Hx|]. split; [done|]. simpl. by destruct (bool_decide _).
Qed.

Context (base64 : string → string) (sformat : string → string → option string) (c : webdav_config).

(** The headers of a request: the credentials use no name that the requests use. *)
Definition request_names : list string :=
  ["Range"; "Content-Range"; "X-Update-Range"; "Content-type"; "Content-length"; "Depth"; "Destination"]%string.
Definition plain_authorization (auth : list header) : Prop :=
  authorization base64 sformat c = Value auth ∧ Forall (λ h, h.1 ∉ request_names) auth.

Context (auth : list header) (Hauth : plain_authorization auth).

Definition base_headers (host : string) : list header :=
  [("User-Agent", "Onedata"); ("Accept", "*/*"); ("Connection", "Keep-Alive"); ("Host", host)]%string ++ auth.

Lemma new_request_ready (s : WS) (sid : nat) :
  ∃ host, new_request base64 sformat c sid s = (s, Value (base_headers host)).
Proof using Hauth.
  unfold new_request, get_host, mbind, ST_bind, st_lift. destruct Hauth as [-> _]. by eexists.
Qed.

Lemma filter_none {A} (P : A → Prop) `{∀ x, Decision (P x)} (l : list A) :
  Forall (λ x, ¬ P x) l → filter P l = [].
Proof. induction 1 as [|x l Hx _ IH]; [done|]. by rewrite filter_cons_False. Qed.

Lemma header_values_base (name method url host : string) (more : list header) (body : bytes) :
  name ∈ request_names →
  header_values name (mk_http_request method url (base_headers host ++ more) body)
  = map snd (filter (λ h, h.1 = name) more).
Proof using Hauth.
  intros Hname. unfold header_values. cbn [rq_headers]. rewrite filter_app, map_app.
  assert (filter (λ h : header, h.1 = name) (base_headers host) = []) as ->; [|done].
  apply filter_none. unfold base_headers. apply Forall_app. split.
  - assert (∀ n, n ∉ request_names → n ≠ name) as Hne by (by intros n Hn ->).
    rewrite !Forall_cons. split_and!; [..|by constructor]; apply Hne; apply (bool_decide_unpack _);
      vm_compute; exact I.
  - destruct Hauth as [_ Ha]. eapply Forall_impl; [exact Ha|]. intros h Hh <-. done.
Qed.

(** A request with the headers [more]: it is answered, and the pool is as before. *)
Lemma request_ready {B} (s : WS) (sid : nat) (x : WebDAVSession) (method resource : string) (more : list header)
    (body : bytes) (k : http_response → Try B) (Post : W → http_response → Prop) :
  taken (wd_pool s) sid x → valid_session x →
  (∀ host, ∃ w rs, dav_exchange (mk_http_request method (url_of c resource) (base_headers host ++ more) body)
                     (wd_server s) = (w, Some rs) ∧ Post w rs) →
  ∃ s' rs, (headers ← new_request base64 sformat c sid;
            rs ← transact sid (mk_http_request method (url_of c resource) (headers ++ more) body);
            st_lift (k rs)) s = (s', k rs) ∧ pool_ready (wd_pool s') ∧ Post (wd_server s') rs.
Proof using Hauth accepts.
  intros Hx Hv Hex. destruct (new_request_ready s sid) as [host Hnew].
  rewrite (st_bind_value _ _ _ _ _ Hnew). destruct (Hex host) as (w & rs & Hrs & Hpost).
  destruct (transact_ready s sid x _ w rs Hx Hv Hrs) as (s' & Ht & Hready & <-).
  rewrite (st_bind_value _ _ _ _ _ Ht). by exists s', rs.
Qed.

Lemma release_ready (s : WS) (sid : nat) (x : WebDAVSession) :
  taken (wd_pool s) sid x →
  ∃ s', release sid s = (s', Value tt) ∧ pool_ready (wd_pool s') ∧ wd_server s' = wd_server s.
Proof. intros Hx. eexists. split; [done|]. split; [|done]. by apply (release_taken _ sid x). Qed.
End sessions.
