(* ===== verification/WebDAVFiles.v ===== *)
(** * Files over WebDAV

    What a server promises about its files, and the proof that the helper of
    WebDAV.v makes reads, writes, truncations, creations and removals of a map
    from URLs to contents, also when the server closes connections; where the
    helper is not a file system; a server in memory. *)

From stdpp Require Import base numbers list gmap strings.
From Stdlib Require Import ZArith Lia Strings.Byte Strings.Ascii.
From S2P Require Import Prelude StdStrings Storage WebDAVSessions WebDAV.
Local Open Scope Z_scope.

(** ** What a server promises *)

Definition content_range (first last : Z) : string :=
  ("bytes " ++ to_string first ++ "-" ++ to_string last ++ "/*")%string.

(** The files of a server by URL.  It is up and answers every request, and may
    ask to close the connection.  [dav_mode] is the way it takes range writes;
    they begin inside the file or at its end. *)
Class DavFiles (W : Type) `{WebDAVServer W} := {
  dav_mode : WebDAVRangeWriteSupport;
  dav_files : W → gmap string bytes;
  dav_connects : ∀ w, ∃ w' peer, dav_connect w = (w', Some peer) ∧ dav_files w' = dav_files w;
  dav_open : ∀ w, dav_isClosing w = false ∧ dav_newTransaction_fails w = false;
  dav_get : ∀ w rq first last, rq_method rq = "GET"%string →
    header_values "Range" rq = [range_text first last] → 0 <= first <= last → last <= UINT64_MAX →
    ∃ w' rs, dav_exchange rq w = (w', Some rs) ∧ dav_files w' = dav_files w ∧
      match dav_files w !! rq_url rq with
      | Some f => if first <? chainLength f
                  then success rs ∧ concat (rs_body rs) = pread f first (last - first + 1) ∧
                       Forall (λ b, b ≠ []) (rs_body rs)
                  else rs_status rs = 416
      | None => rs_status rs = 404
      end;
  dav_put : ∀ w rq, rq_method rq = "PUT"%string → header_values "Content-Range" rq = [] →
    ∃ w' rs, dav_exchange rq w = (w', Some rs) ∧ success rs ∧
      dav_files w' = <[rq_url rq := rq_body rq]> (dav_files w);
  dav_delete : ∀ w rq, rq_method rq = "DELETE"%string →
    ∃ w' rs, dav_exchange rq w = (w', Some rs) ∧ dav_files w' = delete (rq_url rq) (dav_files w) ∧
      if bool_decide (is_Some (dav_files w !! rq_url rq)) then success rs else rs_status rs = 404;
  dav_patch : ∀ w rq first, dav_mode = SABREDAV_PARTIALUPDATE → rq_method rq = "PATCH"%string →
    header_values "X-Update-Range" rq = [range_text first (first + chainLength (rq_body rq) - 1)] →
    header_values "Content-type" rq = ["application/x-sabredav-partialupdate"%string] →
    0 <= first → first + chainLength (rq_body rq) <= UINT64_MAX → rq_body rq ≠ [] →
    ∃ w' rs, dav_exchange rq w = (w', Some rs) ∧
      match dav_files w !! rq_url rq with
      | Some f => first <= chainLength f → success rs ∧
                  dav_files w' = <[rq_url rq := pwrite f first (rq_body rq)]> (dav_files w)
      | None => rs_status rs = 404 ∧ dav_files w' = dav_files w
      end;
  dav_put_range : ∀ w rq first f, dav_mode = MODDAV_PUTRANGE → rq_method rq = "PUT"%string →
    header_values "Content-Range" rq = [content_range first (first + chainLength (rq_body rq) - 1)] →
    rq_body rq ≠ [] → dav_files w !! rq_url rq = Some f → 0 <= first <= chainLength f →
    first + chainLength (rq_body rq) <= UINT64_MAX →
    ∃ w' rs, dav_exchange rq w = (w', Some rs) ∧ success rs ∧
      dav_files w' = <[rq_url rq := pwrite f first (rq_body rq)]> (dav_files w)
}.

(** ** Files as their callers see them *)

Inductive dav_op :=
| op_read (fileId : string) (offset size : Z)
| op_write (fileId : string) (offset : Z) (buf : bytes)
| op_truncate (fileId : string) (size currentSize : Z)
| op_mknod (fileId : string)
| op_unlink (fileId : string).

Inductive dav_result :=
| r_data (b : bytes)
| r_size (n : Z)
| r_unit.

Definition posix_error {A} (e : Z) : Try A := Exception (makePosixException e).

(** The operation on a map of files by URL, as the helper performs it.  A read
    that begins at the end of the file or behind it is an error; a write of no
    bytes does nothing where ranges are written by PATCH and empties or creates
    the file where they are written by PUT; a file is never cut short, and
    growing it empties it. *)
Definition dav_file_op (mode : WebDAVRangeWriteSupport) (url : string → string) (m : gmap string bytes) (op : dav_op)
  : gmap string bytes * Try dav_result :=
  match op with
  | op_read k offset size =>
      (m, if size =? 0 then Value (r_data [])
          else match m !! url k with
               | Some f => if offset <? chainLength f then Value (r_data (pread f offset size)) else posix_error ERANGE
               | None => posix_error ENOENT
               end)
  | op_write k offset buf =>
      if bool_decide (buf = [])
      then (match mode with MODDAV_PUTRANGE => <[url k := []]> m | _ => m end, Value (r_size 0))
      else match m !! url k with
           | Some f => (<[url k := pwrite f offset buf]> m, Value (r_size (chainLength buf)))
           | None => (m, posix_error ENOENT)
           end
  | op_truncate k size currentSize =>
      if size =? 0 then (<[url k := []]> m, Value r_unit)
      else if size =? currentSize then (m, Value r_unit)
      else if size <? currentSize then (m, posix_error ERANGE)
      else (<[url k := []]> m, Value r_unit)
  | op_mknod k => (<[url k := []]> m, Value r_unit)
  | op_unlink k => (delete (url k) m, if bool_decide (is_Some (m !! url k)) then Value r_unit else posix_error ENOENT)
  end.

(** Ranges of 64-bit offsets.  A write that is not empty begins in an existing
    file or at its end, or goes to no file where ranges are written by PATCH: a
    server may do as it likes with the others.  A file grows by less than 4 GiB:
    the loop of [truncate] does not end otherwise. *)
Definition op_in_range (mode : WebDAVRangeWriteSupport) (url : string → string) (m : gmap string bytes)
    (op : dav_op) : Prop :=
  match op with
  | op_read _ offset size => 0 <= offset ∧ 0 <= size ∧ offset + size <= UINT64_MAX
  | op_write k offset buf =>
      0 <= offset ∧ offset + chainLength buf <= UINT64_MAX ∧
      (buf ≠ [] → match m !! url k with
                  | Some f => offset <= chainLength f
                  | None => mode = SABREDAV_PARTIALUPDATE
                  end)
  | op_truncate _ size currentSize =>
      0 <= size <= OFF_MAX ∧ 0 <= currentSize <= UINT64_MAX ∧ size - currentSize < 4294967296
  | op_mknod _ | op_unlink _ => True
  end.

Lemma chainLength_pos (b : bytes) : b ≠ [] → 0 < chainLength b.
Proof. destruct b; [done|]. unfold chainLength. simpl. lia. Qed.

Section refinement.
Context {W : Type} `{WebDAVServer W} `{DF : !DavFiles W}.
Context (base64 : string → string) (sformat : string → string → option string) (c : webdav_config).
Context (auth : list header) (Hauth : plain_authorization base64 sformat c auth).
Abbreviation WS := (webdav W).

Definition files (s : WS) : gmap string bytes := dav_files (wd_server s).

Lemma connect_files (s : WS) :
  pool_ready (wd_pool s) →
  ∃ s' sid x, connect s = (s', Value sid) ∧ taken (wd_pool s') sid x ∧ valid_session x ∧ files s' = files s.
Proof using DF. exact (connect_ready dav_files dav_connects s). Qed.

Lemma first_byte_result (f : bytes) (rs : http_response) :
  success rs → concat (rs_body rs) = pread f 0 2 → Forall (λ b, b ≠ []) (rs_body rs) → 0 < chainLength f →
  get_result true rs = Value (pread f 0 1).
Proof.
  intros Hs Hb Hne Hlen. unfold get_result. rewrite (check_status_success rs Hs). simpl.
  destruct f as [|y f]; [done|]. destruct (rs_body rs) as [|b bs]; [by destruct f|].
  apply Forall_cons in Hne as [Hb1 _]. destruct b as [|z b]; [done|]. simpl in Hb. injection Hb as -> _. done.
Qed.

Lemma get_ready (s : WS) (sid : nat) (x : WebDAVSession) (k : string) (offset size : Z) :
  taken (wd_pool s) sid x → valid_session x → 0 <= offset → 0 <= size → offset + size <= UINT64_MAX →
  ∃ s', webdav_GET base64 sformat c sid k offset size s
        = (s', b ← (dav_file_op dav_mode (url_of c) (files s) (op_read k offset size)).2;
               match b with r_data b => Value b | _ => Exception undefined_behaviour end) ∧
    pool_ready (wd_pool s') ∧ files s' = files s.
Proof using Hauth DF.
  intros Hx Hv Ho Hsz Hmax. unfold webdav_GET. destruct (Z.eqb_spec size 0) as [->|Hsize].
  { destruct (new_request_ready base64 sformat c auth Hauth s sid) as [host Hnew]. rewrite (st_bind_value _ _ _ _ _ Hnew).
    destruct (release_ready s sid x Hx) as (s' & Hr & Hready & Hf). rewrite (st_bind_value _ _ _ _ _ Hr).
    exists s'. unfold files. by rewrite Hf. }
  set (first := first_byte_request offset size). set (last := if first then 1 else offset + size - 1).
  assert (get_range offset size = range_text offset last ∧ 0 <= offset <= last ∧ last <= UINT64_MAX)
    as (Hrange & Hlast & Hlast_max).
  { unfold UINT64_MAX in *. unfold get_range, last. fold first. destruct first eqn:Hfirst.
    - unfold first, first_byte_request in Hfirst. reflect_bools. by subst offset.
    - rewrite u64_small by lia. split; [done|lia]. }
  destruct (request_ready dav_open base64 sformat c auth Hauth s sid x "GET" k [("Range"%string, get_range offset size)] [] (get_result first)
    (λ w rs, dav_files w = files s ∧
       match files s !! url_of c k with
       | Some f => if offset <? chainLength f
                   then success rs ∧ concat (rs_body rs) = pread f offset (last - offset + 1) ∧
                        Forall (λ b, b ≠ []) (rs_body rs)
                   else rs_status rs = 416
       | None => rs_status rs = 404
       end) Hx Hv) as (s' & rs & Hr & Hready & Hf & Hres).
  { intros host. apply (dav_get (wd_server s) (mk_http_request _ _ _ _) offset last); [done| |done..].
    rewrite (header_values_base base64 sformat c auth Hauth) by (apply (bool_decide_unpack _); vm_compute; exact I). simpl. by rewrite Hrange. }
  exists s'. split; [|done]. rewrite Hr. f_equal. simpl. rewrite (proj2 (Z.eqb_neq size 0) Hsize).
  destruct (files s !! url_of c k) as [f|]; [|unfold get_result, check_status; by rewrite Hres].
  destruct (Z.ltb_spec offset (chainLength f)) as [Hlt|Hge]; [|unfold get_result, check_status; by rewrite Hres].
  destruct Hres as (Hs & Hb & Hne). simpl. unfold last in Hb. destruct first eqn:Hfirst.
  - unfold first, first_byte_request in Hfirst. reflect_bools. subst offset size.
    apply first_byte_result; done || lia.
  - unfold get_result. rewrite (check_status_success rs Hs). simpl. rewrite Hb. do 2 f_equal. lia.
Qed.

Ltac in_request_names := apply (bool_decide_unpack _); vm_compute; exact I.

(** A PUT of the whole contents. *)
Lemma put_ready (s : WS) (sid : nat) (x : WebDAVSession) (k : string) (offset : Z) :
  taken (wd_pool s) sid x → valid_session x →
  ∃ s', webdav_PUT base64 sformat c sid k offset [] s = (s', Value tt) ∧
    pool_ready (wd_pool s') ∧ files s' = <[url_of c k := []]> (files s).
Proof using Hauth DF.
  intros Hx Hv. destruct (request_ready dav_open base64 sformat c auth Hauth s sid x "PUT" k (put_headers offset []) [] check_status
    (λ w rs, success rs ∧ dav_files w = <[url_of c k := []]> (files s)) Hx Hv) as (s' & rs & Hr & Hready & Hs & Hf).
  { intros host. apply (dav_put (wd_server s) (mk_http_request _ _ _ _)); [done|].
    by rewrite (header_values_base base64 sformat c auth Hauth) by in_request_names. }
  exists s'. unfold webdav_PUT. rewrite Hr, (check_status_success rs Hs). done.
Qed.

Lemma delete_ready (s : WS) (sid : nat) (x : WebDAVSession) (k : string) :
  taken (wd_pool s) sid x → valid_session x →
  ∃ s', webdav_DELETE base64 sformat c sid k s
        = (s', if bool_decide (is_Some (files s !! url_of c k)) then Value tt else posix_error ENOENT) ∧
    pool_ready (wd_pool s') ∧ files s' = delete (url_of c k) (files s).
Proof using Hauth DF.
  intros Hx Hv. destruct (request_ready dav_open base64 sformat c auth Hauth s sid x "DELETE" k [] [] check_status
    (λ w rs, dav_files w = delete (url_of c k) (files s) ∧
       if bool_decide (is_Some (files s !! url_of c k)) then success rs else rs_status rs = 404) Hx Hv)
    as (s' & rs & Hr & Hready & Hf & Hres).
  { intros host. by apply (dav_delete (wd_server s) (mk_http_request _ _ _ _)). }
  exists s'. split; [|done]. unfold webdav_DELETE, simple_request. rewrite Hr. f_equal.
  destruct (bool_decide _); [by apply check_status_success|]. unfold check_status. by rewrite Hres.
Qed.

Lemma patch_ready (s : WS) (sid : nat) (x : WebDAVSession) (k : string) (offset : Z) (buf : bytes) :
  dav_mode = SABREDAV_PARTIALUPDATE →
  taken (wd_pool s) sid x → valid_session x → buf ≠ [] →
  op_in_range dav_mode (url_of c) (files s) (op_write k offset buf) →
  ∃ s', webdav_PATCH base64 sformat c sid k offset buf s
        = (s', if bool_decide (is_Some (files s !! url_of c k)) then Value tt else posix_error ENOENT) ∧
    pool_ready (wd_pool s') ∧ files s' = (dav_file_op dav_mode (url_of c) (files s) (op_write k offset buf)).1.
Proof using Hauth DF.
  intros Hmode Hx Hv Hne (Ho & Hmax & Hfile). specialize (Hfile Hne). unfold UINT64_MAX in Hmax.
  pose proof (chainLength_pos buf Hne) as Hlen.
  destruct (request_ready dav_open base64 sformat c auth Hauth s sid x "PATCH" k (patch_headers offset buf) buf check_status
    (λ w rs, match files s !! url_of c k with
             | Some f => success rs ∧ dav_files w = <[url_of c k := pwrite f offset buf]> (files s)
             | None => rs_status rs = 404 ∧ dav_files w = files s
             end) Hx Hv) as (s' & rs & Hr & Hready & Hres).
  { intros host. destruct (dav_patch (wd_server s) (mk_http_request "PATCH" (url_of c k)
      (base_headers auth host ++ patch_headers offset buf) buf) offset Hmode) as (w & rs & Hex & Hres); try done.
    - rewrite (header_values_base base64 sformat c auth Hauth) by in_request_names. unfold patch_headers. simpl. rewrite u64_small by lia. done.
    - rewrite (header_values_base base64 sformat c auth Hauth) by in_request_names. done.
    - exists w, rs. split; [done|]. simpl in Hres. unfold files in *.
      destruct (dav_files (wd_server s) !! url_of c k) as [f|]; [by apply Hres|done]. }
  exists s'. unfold webdav_PATCH. rewrite (proj2 (Z.eqb_neq (chainLength buf) 0)) by lia. rewrite Hr.
  unfold dav_file_op. rewrite (bool_decide_eq_false_2 (buf = [])) by done. unfold files in *.
  destruct (dav_files (wd_server s) !! url_of c k) as [f|].
  - destruct Hres as [Hs Hf]. rewrite (check_status_success rs Hs). done.
  - destruct Hres as [Hs Hf]. unfold check_status. rewrite Hs. done.
Qed.

Lemma put_range_ready (s : WS) (sid : nat) (x : WebDAVSession) (k : string) (offset : Z) (buf f : bytes) :
  dav_mode = MODDAV_PUTRANGE →
  taken (wd_pool s) sid x → valid_session x → buf ≠ [] → files s !! url_of c k = Some f →
  0 <= offset <= chainLength f → offset + chainLength buf <= UINT64_MAX →
  ∃ s', webdav_PUT base64 sformat c sid k offset buf s = (s', Value tt) ∧
    pool_ready (wd_pool s') ∧ files s' = <[url_of c k := pwrite f offset buf]> (files s).
Proof using Hauth DF.
  intros Hmode Hx Hv Hne Hfile Ho Hmax. unfold UINT64_MAX in Hmax.
  pose proof (chainLength_pos buf Hne) as Hlen.
  destruct (request_ready dav_open base64 sformat c auth Hauth s sid x "PUT" k (put_headers offset buf) buf check_status
    (λ w rs, success rs ∧ dav_files w = <[url_of c k := pwrite f offset buf]> (files s)) Hx Hv)
    as (s' & rs & Hr & Hready & Hs & Hf).
  { intros host. apply (dav_put_range (wd_server s) (mk_http_request "PUT" (url_of c k)
      (base_headers auth host ++ put_headers offset buf) buf) offset f Hmode); try done.
    rewrite (header_values_base base64 sformat c auth Hauth) by in_request_names. unfold put_headers. rewrite (proj2 (Z.ltb_lt 0 _) Hlen).
    simpl. by rewrite u64_small by lia. }
  exists s'. unfold webdav_PUT. rewrite Hr, (check_status_success rs Hs). done.
Qed.

(** The operations through the helper, one after another. *)
Definition dav_run (op : dav_op) : ST WS dav_result :=
  match op with
  | op_read k offset size => b ← read base64 sformat c k offset size; mret (r_data b)
  | op_write k offset buf => n ← write base64 sformat c true k offset buf; mret (r_size n)
  | op_truncate k size currentSize => _ ← truncate base64 sformat c k size currentSize; mret r_unit
  | op_mknod k => _ ← mknod base64 sformat c k 0 ∅ 0; mret r_unit
  | op_unlink k => _ ← unlink base64 sformat c k 0; mret r_unit
  end.

Fixpoint dav_runs (ops : list dav_op) (s : WS) : WS * list (Try dav_result) :=
  match ops with
  | [] => (s, [])
  | op :: ops => let '(s1, r) := dav_run op s in let '(s2, rs) := dav_runs ops s1 in (s2, r :: rs)
  end.

Context (Hmode : m_rangeWriteSupport c = dav_mode) (Hranges : dav_mode ≠ NONE).

Lemma read_ready (s : WS) (k : string) (offset size : Z) :
  pool_ready (wd_pool s) → op_in_range dav_mode (url_of c) (files s) (op_read k offset size) →
  ∃ s', dav_run (op_read k offset size) s = (s', (dav_file_op dav_mode (url_of c) (files s) (op_read k offset size)).2) ∧
    pool_ready (wd_pool s') ∧ files s' = files s.
Proof using Hauth DF.
  intros Hready (Ho & Hs & Hmax). unfold dav_run, read.
  destruct (connect_files s Hready) as (s1 & sid & x & Hc & Hx & Hv & Hf1).
  destruct (get_ready s1 sid x k offset size Hx Hv Ho Hs Hmax) as (s2 & Hg & Hready2 & Hf2). rewrite Hf1 in *.
  exists s2. split; [|done]. unfold mbind, ST_bind. rewrite Hc, Hg. unfold dav_file_op.
  destruct (size =? 0); [done|]. destruct (files s !! url_of c k) as [f|]; [|done]. by destruct (offset <? _).
Qed.

Lemma write_ready (s : WS) (k : string) (offset : Z) (buf : bytes) :
  pool_ready (wd_pool s) → op_in_range dav_mode (url_of c) (files s) (op_write k offset buf) →
  ∃ s', dav_run (op_write k offset buf) s = (s', (dav_file_op dav_mode (url_of c) (files s) (op_write k offset buf)).2) ∧
    pool_ready (wd_pool s') ∧ files s' = (dav_file_op dav_mode (url_of c) (files s) (op_write k offset buf)).1.
Proof using Hauth DF Hmode Hranges.
  intros Hready Hop. unfold dav_run, write.
  destruct (connect_files s Hready) as (s1 & sid & x & Hc & Hx & Hv & Hf1). rewrite <-Hf1 in *.
  unfold mbind, ST_bind. rewrite Hc, Hmode. pose proof Hop as (Ho & Hmax & Hfile). cbv beta iota delta [negb].
  destruct dav_mode eqn:Hm; [done|..].
  - destruct (decide (buf = [])) as [->|Hne].
    + destruct (new_request_ready base64 sformat c auth Hauth s1 sid) as [host Hnew].
      destruct (release_ready s1 sid x Hx) as (s2 & Hr & Hready2 & Hf2).
      unfold webdav_PATCH, mbind, ST_bind. rewrite Hnew. change (chainLength [] =? 0) with true. cbv beta iota.
      rewrite Hr. exists s2. unfold files. by rewrite Hf2.
    + rewrite <-Hm in Hop. destruct (patch_ready s1 sid x k offset buf Hm Hx Hv Hne Hop) as (s2 & Hp & Hready2 & Hf2).
      rewrite Hm in Hf2.
      exists s2. split; [|done]. cbv beta. rewrite Hp. unfold dav_file_op.
      rewrite (bool_decide_eq_false_2 (buf = [])) by done.
      by destruct (files s1 !! url_of c k).
  - destruct (decide (buf = [])) as [->|Hne].
    { destruct (put_ready s1 sid x k offset Hx Hv) as (s2 & Hp & Hready2 & Hf2). exists s2. cbv beta. by rewrite Hp. }
    specialize (Hfile Hne). destruct (files s1 !! url_of c k) as [f|] eqn:Hf; [|done].
    destruct (put_range_ready s1 sid x k offset buf f Hm Hx Hv Hne Hf) as (s2 & Hp & Hready2 & Hf2); [lia|done|].
    exists s2. cbv beta. rewrite Hp. unfold dav_file_op. rewrite bool_decide_eq_false_2 by done. by rewrite Hf.
Qed.

(** Growing a file succeeds and leaves it empty. *)
Lemma webdav_truncate_grow_empties (s : WS) (k : string) (size currentSize : Z) :
  pool_ready (wd_pool s) → 0 <= currentSize < size → size <= OFF_MAX → size - currentSize < 4294967296 →
  ∃ s', truncate base64 sformat c k size currentSize s = (s', Value tt) ∧ pool_ready (wd_pool s') ∧
    files s' = <[url_of c k := []]> (files s).
Proof using Hauth DF.
  intros Hready Hcur Hmax Hfill. unfold OFF_MAX in Hmax. unfold truncate.
  rewrite (proj2 (Z.ltb_lt 0 size)), (u64_small size) by lia.
  rewrite (proj2 (Z.eqb_neq size currentSize)), (proj2 (Z.ltb_ge size currentSize)) by lia. simpl.
  destruct (connect_files s Hready) as (s1 & sid & x & Hc & Hx & Hv & Hf1). rewrite (st_bind_value _ _ _ _ _ Hc).
  rewrite (proj2 (Z.eqb_neq size 0)), u64_small, (proj2 (Z.leb_gt 4294967296 (size - currentSize))) by lia.
  destruct (put_ready s1 sid x k size Hx Hv) as (s2 & Hp & Hready2 & Hf2).
  exists s2. unfold IOBuf_create. by rewrite Hp, Hf2, Hf1.
Qed.

Lemma truncate_ready (s : WS) (k : string) (size currentSize : Z) :
  pool_ready (wd_pool s) → op_in_range dav_mode (url_of c) (files s) (op_truncate k size currentSize) →
  let r := dav_file_op dav_mode (url_of c) (files s) (op_truncate k size currentSize) in
  ∃ s', dav_run (op_truncate k size currentSize) s = (s', r.2) ∧ pool_ready (wd_pool s') ∧ files s' = r.1.
Proof using Hauth DF.
  intros Hready (Hs & Hcur & Hfill) r. unfold r, dav_run, dav_file_op. clear r. destruct (Z.eqb_spec size 0) as [->|Hpos].
  { destruct (connect_files s Hready) as (s1 & sid & x & Hc & Hx & Hv & Hf1).
    destruct (put_ready s1 sid x k 0 Hx Hv) as (s2 & Hp & Hready2 & Hf2).
    unfold truncate. simpl. unfold mbind, ST_bind. rewrite Hc. unfold IOBuf_create. rewrite Hp. exists s2. by rewrite Hf2, Hf1. }
  destruct (Z.le_gt_cases size currentSize) as [Hle|Hgrow].
  - unfold truncate. unfold OFF_MAX in Hs. rewrite (proj2 (Z.ltb_lt 0 size)), u64_small by lia. simpl.
    destruct (Z.eqb_spec size currentSize); [by exists s|].
    rewrite (proj2 (Z.ltb_lt size currentSize)) by lia. by exists s.
  - destruct (webdav_truncate_grow_empties s k size currentSize) as (s' & Hrun & Hready' & Hf); [done|lia|lia|done|].
    exists s'. unfold mbind, ST_bind. rewrite Hrun, (proj2 (Z.eqb_neq size currentSize)), (proj2 (Z.ltb_ge size currentSize)) by lia.
    done.
Qed.

Lemma dav_run_ready (s : WS) (op : dav_op) :
  pool_ready (wd_pool s) → op_in_range dav_mode (url_of c) (files s) op →
  ∃ s', dav_run op s = (s', (dav_file_op dav_mode (url_of c) (files s) op).2) ∧
    pool_ready (wd_pool s') ∧ files s' = (dav_file_op dav_mode (url_of c) (files s) op).1.
Proof using Hauth DF Hmode Hranges.
  intros Hready Hop. destruct op as [k offset size|k offset buf|k size currentSize|k|k].
  - by apply read_ready.
  - by apply write_ready.
  - by apply truncate_ready.
  - unfold dav_run, mknod. destruct (connect_files s Hready) as (s1 & sid & x & Hc & Hx & Hv & Hf1).
    destruct (put_ready s1 sid x k 0 Hx Hv) as (s2 & Hp & Hready2 & Hf2).
    unfold mbind, ST_bind. rewrite Hc, Hp. exists s2. rewrite Hf2, Hf1. done.
  - unfold dav_run, unlink. destruct (connect_files s Hready) as (s1 & sid & x & Hc & Hx & Hv & Hf1).
    destruct (delete_ready s1 sid x k Hx Hv) as (s2 & Hp & Hready2 & Hf2). rewrite Hf1 in *.
    unfold mbind, ST_bind. rewrite Hc, Hp. exists s2. unfold dav_file_op.
    by destruct (bool_decide (is_Some (files s !! url_of c k))).
Qed.

(** With PUT requests a write of no bytes empties the file. *)
Lemma webdav_empty_write_empties (s : WS) (k : string) (offset : Z) :
  m_rangeWriteSupport c = MODDAV_PUTRANGE → pool_ready (wd_pool s) →
  ∃ s', write base64 sformat c true k offset [] s = (s', Value 0) ∧ files s' = <[url_of c k := []]> (files s).
Proof using Hauth DF.
  intros Hm Hready. unfold write.
  destruct (connect_files s Hready) as (s1 & sid & x & Hc & Hx & Hv & Hf1). rewrite (st_bind_value _ _ _ _ _ Hc).
  rewrite Hm. cbv beta iota delta [negb]. destruct (put_ready s1 sid x k offset Hx Hv) as (s2 & Hp & _ & Hf2).
  exists s2. rewrite (st_bind_value _ _ _ _ _ Hp), Hf2, Hf1. done.
Qed.
End refinement.

(** Operations on a map of files, and their ranges along the way. *)
Fixpoint dav_file_ops (mode : WebDAVRangeWriteSupport) (url : string → string) (m : gmap string bytes) (ops : list dav_op)
  : gmap string bytes * list (Try dav_result) :=
  match ops with
  | [] => (m, [])
  | op :: ops => let '(m1, r) := dav_file_op mode url m op in let '(m2, rs) := dav_file_ops mode url m1 ops in (m2, r :: rs)
  end.
Fixpoint ops_in_range (mode : WebDAVRangeWriteSupport) (url : string → string) (m : gmap string bytes)
    (ops : list dav_op) : Prop :=
  match ops with
  | [] => True
  | op :: ops => op_in_range mode url m op ∧ ops_in_range mode url (dav_file_op mode url m op).1 ops
  end.

(** C19: on a server that is up, in either mode of range writes, any sequence of
    reads, writes, truncations, creations and removals gives the results of the
    same operations on a map from URLs to file contents and leaves the files of
    that map, also when the server asks to close connections, and every operation
    gives its session back.  The operations on the map are those of
    [dav_file_op]: cutting a file short is ERANGE, growing it leaves it empty, and
    so does a write of no bytes by PUT.  Left out are writes that begin past the
    end of the file, writes by PUT to a file that is not there, and growth by
    4 GiB or more. *)
Theorem webdav_files_refine {W : Type} `{DavFiles W} (base64 : string → string)
    (sformat : string → string → option string) (c : webdav_config) (auth : list header) (ops : list dav_op)
    (s : webdav W) :
  plain_authorization base64 sformat c auth → m_rangeWriteSupport c = dav_mode → dav_mode ≠ NONE →
  pool_ready (wd_pool s) → ops_in_range dav_mode (url_of c) (files s) ops →
  let spec := dav_file_ops dav_mode (url_of c) (files s) ops in
  ∃ s', dav_runs base64 sformat c ops s = (s', spec.2) ∧ files s' = spec.1 ∧ pool_ready (wd_pool s').
Proof.
  intros Hauth Hmode Hranges. revert s. induction ops as [|op ops IH]; intros s Hready Hops; simpl; [by exists s|].
  destruct Hops as [Hop Hops].
  destruct (dav_run_ready base64 sformat c auth Hauth Hmode Hranges s op Hready Hop) as (s1 & Hrun & Hready1 & Hf1).
  rewrite Hrun. rewrite <-Hf1 in Hops. destruct (IH s1 Hready1 Hops) as (s2 & Hruns & Hf2 & Hready2).
  exists s2. rewrite Hruns. rewrite Hf1 in Hf2 |- *. rewrite Hf2.
  destruct (dav_file_op dav_mode (url_of c) (files s) op) as [m r]. simpl in *.
  by destruct (dav_file_ops dav_mode (url_of c) m ops).
Qed.

(** ** A server in memory *)

(** Every second response asks to close the connection. *)
Record memory_dav := mk_memory_dav { md_files : gmap string bytes; md_requests : nat }.

(** The numbers of "bytes=first-last" and of "bytes first-last/*". *)
Definition range_numbers (s : string) : Z * Z :=
  match split_keep "-" (String.substring 6 (String.length s - 6) s) with
  | [first; last] => (parse_digits 0 first, parse_digits 0 last)
  | _ => (0, 0)
  end.

Definition memory_answer (rq : http_request) (m : gmap string bytes)
  : gmap string bytes * Z * list bytes :=
  let k := rq_url rq in
  if String.eqb (rq_method rq) "GET" then
    match m !! k, header_values "Range" rq with
    | Some f, [range] =>
        let '(first, last) := range_numbers range in
        if first <? chainLength f then (m, 206, [pread f first (last - first + 1)]) else (m, 416, [])
    | Some f, _ => (m, 200, [f])
    | None, _ => (m, 404, [])
    end
  else if String.eqb (rq_method rq) "PUT" then
    match m !! k, header_values "Content-Range" rq with
    | Some f, [range] => (<[k := pwrite f (range_numbers range).1 (rq_body rq)]> m, 204, [])
    | _, _ => (<[k := rq_body rq]> m, 201, [])
    end
  else if String.eqb (rq_method rq) "PATCH" then
    match m !! k, header_values "X-Update-Range" rq with
    | Some f, [range] => (<[k := pwrite f (range_numbers range).1 (rq_body rq)]> m, 204, [])
    | _, _ => (m, 404, [])
    end
  else if String.eqb (rq_method rq) "DELETE" then
    (delete k m, if bool_decide (is_Some (m !! k)) then 204 else 404, [])
  else (m, 405, []).

Definition memory_exchange (rq : http_request) (w : memory_dav)
  : memory_dav * option http_response :=
  let '(m, status, body) := memory_answer rq (md_files w) in
  (mk_memory_dav m (S (md_requests w)),
   Some (mk_http_response status (if Nat.even (md_requests w) then Some "close"%string else None) body)).

#[local] Instance memory_webdav : WebDAVServer memory_dav := {|
  dav_connect := λ w, (w, Some "192.0.2.1"%string);
  dav_isClosing := λ _, false;
  dav_newTransaction_fails := λ _, false;
  dav_exchange := memory_exchange
|}.

Lemma digits_free_of_dash (s : string) : all_digits s = true → free_of "-" s = true.
Proof.
  induction s as [|a s IH]; simpl; [done|]. intros [Ha Hs]%andb_true_iff.
  destruct (digit_not_sign a Ha) as (_ & Hm & _). rewrite IH by done.
  by destruct (Ascii.eqb_spec a "-").
Qed.

(** The two numbers are read back, whatever follows them. *)
Lemma split_range (first last : Z) (suffix : string) :
  0 <= first <= last → last <= UINT64_MAX → suffix = ""%string ∨ suffix = "/*"%string →
  match split_keep "-" (to_string first ++ "-" ++ to_string last ++ suffix)%string with
  | [a; b] => (parse_digits 0 a, parse_digits 0 b)
  | _ => (0, 0)
  end = (first, last).
Proof.
  intros Hf Hl Hsuffix. unfold UINT64_MAX in Hl.
  destruct (to_string_digits first) as (Hd1 & Hp1 & _); [lia|].
  destruct (to_string_digits last) as (Hd2 & Hp2 & _); [lia|].
  change ("-" ++ to_string last ++ suffix)%string with (String "-" (to_string last ++ suffix)).
  rewrite split_keep_app by by apply digits_free_of_dash.
  rewrite split_keep_free.
  - by rewrite Hp1, parse_digits_app, Hp2 by done; destruct Hsuffix as [-> | ->].
  - rewrite free_of_app, digits_free_of_dash by done. by destruct Hsuffix as [-> | ->].
Qed.

Lemma range_numbers_text (first last : Z) :
  0 <= first <= last → last <= UINT64_MAX → range_numbers (range_text first last) = (first, last).
Proof.
  intros Hf Hl. unfold range_numbers, range_text. rewrite <-(split_range first last "") by auto.
  change (String.substring 6 (String.length ("bytes=" ++ ?t) - 6) ("bytes=" ++ ?t))
    with (String.substring 0 (String.length t - 0) t).
  rewrite substring_all by lia. by rewrite string_app_nil.
Qed.

Lemma range_numbers_content (first last : Z) :
  0 <= first <= last → last <= UINT64_MAX → range_numbers (content_range first last) = (first, last).
Proof.
  intros Hf Hl. unfold range_numbers, content_range. rewrite <-(split_range first last "/*") by auto.
  change (String.substring 6 (String.length ("bytes " ++ ?t) - 6) ("bytes " ++ ?t))
    with (String.substring 0 (String.length t - 0) t).
  by rewrite substring_all by lia.
Qed.

Lemma pread_nonempty (f : bytes) (first size : Z) :
  0 <= first < chainLength f → 0 < size → pread f first size ≠ [].
Proof.
  unfold chainLength, pread. intros Hf Hs Hnil. apply (f_equal length) in Hnil.
  rewrite length_take, length_drop in Hnil. simpl in Hnil. lia.
Qed.

#[local] Instance memory_dav_files (mode : WebDAVRangeWriteSupport) : DavFiles memory_dav.
Proof.
  refine {| dav_mode := mode; dav_files := md_files |}.
  - intros w. by eexists w, _.
  - done.
  - intros w [method url headers body] first last Hm Hr Hf Hl. simpl in Hm. subst method.
    simpl. unfold memory_exchange, memory_answer. simpl. rewrite Hr, range_numbers_text by done.
    destruct (md_files w !! url) as [f|]; [|by eexists _, _].
    destruct (Z.ltb_spec first (chainLength f)); eexists _, _; (split; [done|]); (split; [done|]); [|done].
    split_and!; [by unfold success|by simpl; rewrite app_nil_r|].
    constructor; [|by constructor]. apply pread_nonempty; lia.
  - intros w [method url headers body] Hm Hr. simpl in Hm. subst method.
    simpl. unfold memory_exchange, memory_answer. simpl. rewrite Hr.
    destruct (md_files w !! url); by eexists _, _.
  - intros w [method url headers body] Hm. simpl in Hm. subst method.
    simpl. unfold memory_exchange, memory_answer. simpl. eexists _, _. split; [done|]. split; [done|].
    by destruct (bool_decide _).
  - intros w [method url headers body] first -> Hm Hr Ht Hf Hmax Hb. simpl in Hm, Hb, Hmax. subst method.
    simpl in *. unfold memory_exchange, memory_answer. simpl. pose proof (chainLength_pos body Hb).
    rewrite Hr, range_numbers_text by lia.
    destruct (md_files w !! url) as [f|]; eexists _, _; (split; [done|]); [|done]. by intros.
  - intros w [method url headers body] first f -> Hm Hr Hb Hfile Hf Hmax. simpl in Hm, Hb, Hmax. subst method.
    simpl in *. unfold memory_exchange, memory_answer. simpl. pose proof (chainLength_pos body Hb).
    rewrite Hr, range_numbers_content by lia. rewrite Hfile. by eexists _, _.
Defined.

Definition example_config (mode : WebDAVRangeWriteSupport) : webdav_config :=
  mk_webdav_config "https" "dav.example.org" 443 "/dav" true BASIC "user:secret" "" mode 2 0.
Definition example_ops : list dav_op :=
  [op_mknod "a"; op_write "a" 0 [x61; x62; x63]; op_read "a" 0 1; op_write "a" 2 [x64; x65]; op_read "a" 1 9;
   op_read "a" 4 1; op_truncate "a" 2 4; op_truncate "a" 4 4; op_write "a" 9 []; op_read "a" 0 1;
   op_truncate "a" 6 4; op_read "a" 0 1; op_truncate "a" 0 4; op_unlink "a"; op_read "a" 0 1].

Lemma new_pool_ready (c : webdav_config) (w : memory_dav) :
  m_connectionPoolSize c = 2 → pool_ready (wd_pool (new_webdav c w)).
Proof.
  intros Hc. unfold new_webdav. rewrite Hc. simpl. split_and!; [done|vm_compute; lia|].
  intros sid Hin. simpl in Hin. assert (sid = 0%nat ∨ sid = 1%nat) as [-> | ->] by set_solver;
    by exists (mk_WebDAVSession None false false false).
Qed.

Lemma webdav_files_refine_witness :
  let run mode := dav_runs id (λ _ _, None) (example_config mode) example_ops
                    (new_webdav (example_config mode) (mk_memory_dav ∅ 0)) in
  let spec mode := dav_file_ops mode (url_of (example_config mode)) ∅ example_ops in
  (∃ s, run SABREDAV_PARTIALUPDATE = (s, (spec SABREDAV_PARTIALUPDATE).2)
        ∧ files (DF := memory_dav_files SABREDAV_PARTIALUPDATE) s = (spec SABREDAV_PARTIALUPDATE).1
        ∧ pool_ready (wd_pool s)) ∧
  (∃ s, run MODDAV_PUTRANGE = (s, (spec MODDAV_PUTRANGE).2)
        ∧ files (DF := memory_dav_files MODDAV_PUTRANGE) s = (spec MODDAV_PUTRANGE).1
        ∧ pool_ready (wd_pool s)) ∧
  (spec MODDAV_PUTRANGE).2
  = [Value r_unit; Value (r_size 3); Value (r_data [x61]); Value (r_size 2); Value (r_data [x62; x64; x65]);
     posix_error ERANGE; posix_error ERANGE; Value r_unit; Value (r_size 0); posix_error ERANGE;
     Value r_unit; posix_error ERANGE; Value r_unit; Value r_unit; posix_error ENOENT] ∧
  nth 9 (spec SABREDAV_PARTIALUPDATE).2 (posix_error EIO) = Value (r_data [x61]).
Proof.
  split_and!.
  - apply (webdav_files_refine (H0 := memory_dav_files SABREDAV_PARTIALUPDATE) id (λ _ _, None)
      (example_config SABREDAV_PARTIALUPDATE) [("Authorization", "Basic user:secret")%string] example_ops
      (new_webdav (example_config SABREDAV_PARTIALUPDATE) (mk_memory_dav ∅ 0))); try done.
    + split; [done|]. by repeat constructor; vm_compute; intros ?; set_solver.
    + by apply new_pool_ready.
    + vm_compute. intuition congruence.
  - apply (webdav_files_refine (H0 := memory_dav_files MODDAV_PUTRANGE) id (λ _ _, None)
      (example_config MODDAV_PUTRANGE) [("Authorization", "Basic user:secret")%string] example_ops
      (new_webdav (example_config MODDAV_PUTRANGE) (mk_memory_dav ∅ 0))); try done.
    + split; [done|]. by repeat constructor; vm_compute; intros ?; set_solver.
    + by apply new_pool_ready.
    + vm_compute. intuition congruence.
  - vm_compute. reflexivity.
  - vm_compute. reflexivity.
Defined.
