(* ===== verification/WebDAVProps.v ===== *)
(** * Extended attributes over WebDAV

    The helper of WebDAV.v keeps extended attributes as properties of the
    resources, in a namespace of its own and with escaped names.  What a server
    promises about properties, the proof that attributes are read back and
    listed, empty values included, that removing one does not remove it, and a
    server with an XML library in memory. *)

From stdpp Require Import base numbers list gmap strings countable.
From Stdlib Require Import ZArith Lia Strings.Byte Strings.Ascii.
From S2P Require Import Prelude StdStrings Storage WebDAVSessions WebDAV.
Local Open Scope Z_scope.

(** ** What a server promises *)

Definition prop_node (p : qname * list dom) : dom := Element p.1.1 p.1.2 [] p.2.
Definition status_path : list qname := [d "multistatus"; d "response"; d "propstat"; d "status"].

(** The answer to a PROPPATCH that was carried out. *)
Definition patched `{Xml} (rs : http_response) : Prop :=
  success rs ∧ ∃ xml status, parseMemory (concat (rs_body rs)) = Some xml ∧
    getNodeByPathNS xml status_path = Some status ∧ innerText status = "HTTP/1.1 200 OK"%string.

(** The answer to a PROPFIND: the properties [m] of one resource. *)
Definition properties_in `{Xml} (xml : dom) (m : gmap qname (list dom)) : Prop :=
  (∃ prop l, getNodeByPathNS xml prop_path = Some prop ∧ childNodes prop = map prop_node l ∧
             NoDup l.*1 ∧ m = list_to_map l) ∧
  ∀ q, childNodes <$> getNodeByPathNS xml (prop_path ++ [q]) = m !! q.
Definition found `{Xml} (m : gmap qname (list dom)) (rs : http_response) : Prop :=
  success rs ∧ ∃ xml, parseMemory (concat (rs_body rs)) = Some xml ∧ properties_in xml m.

Definition body_of `{Xml} (document : dom) : bytes := String.list_byte_of_string (writeNode document).
Definition set_property (q : qname) (l : list dom) : dom :=
  propertyUpdate (plain "set" [plain "prop" [prop_node (q, l)]]).
Definition remove_property (q : qname) : dom := propertyUpdate (plain "remove" [plain "prop" [prop_node (q, [])]]).

(** The properties of the resources by URL.  [xml_name] and [xml_text] are the
    names and texts that XML carries; a property is removed whether it exists
    or not. *)
Class DavProps (W : Type) `{WebDAVServer W} `{Xml} := {
  xml_name : string → Prop;
  xml_text : string → Prop;
  dav_props : W → gmap string (gmap qname (list dom));
  props_connects : ∀ w, ∃ w' peer, dav_connect w = (w', Some peer) ∧ dav_props w' = dav_props w;
  props_open : ∀ w, dav_isClosing w = false ∧ dav_newTransaction_fails w = false;
  props_find : ∀ w rq, rq_method rq = "PROPFIND"%string → header_values "Depth" rq = ["0"%string] →
    ∃ w' rs, dav_exchange rq w = (w', Some rs) ∧ dav_props w' = dav_props w ∧
      match dav_props w !! rq_url rq with
      | Some m => found m rs
      | None => rs_status rs = 404
      end;
  props_set : ∀ w rq q v, rq_method rq = "PROPPATCH"%string →
    rq_body rq = body_of (set_property q [v]) → xml_name q.2 →
    (∃ text, v = TextNode text ∧ xml_text text) ∨ v = Element kNSOnedata "Null" [] [] →
    ∃ w' rs, dav_exchange rq w = (w', Some rs) ∧
      match dav_props w !! rq_url rq with
      | Some m => patched rs ∧ dav_props w' = <[rq_url rq := <[q := [v]]> m]> (dav_props w)
      | None => rs_status rs = 404 ∧ dav_props w' = dav_props w
      end;
  props_remove : ∀ w rq q, rq_method rq = "PROPPATCH"%string →
    rq_body rq = body_of (remove_property q) → xml_name q.2 →
    ∃ w' rs, dav_exchange rq w = (w', Some rs) ∧
      match dav_props w !! rq_url rq with
      | Some m => patched rs ∧ dav_props w' = <[rq_url rq := delete q m]> (dav_props w)
      | None => rs_status rs = 404 ∧ dav_props w' = dav_props w
      end
}.

(** ** Attributes as their callers see them *)

(** The attribute of an escaped name: a text, or "" for one other element. *)
Definition attribute_value (m : gmap qname (list dom)) (key : string) : Try string :=
  match m !! (kNSOnedata, key) with
  | Some [TextNode text] => Value text
  | Some [_] => Value ""%string
  | _ => Exception (makePosixException ENODATA)
  end.

Section attributes.
Context {W : Type} `{WebDAVServer W} `{Xml} `{DP : !DavProps W}.
Context (base64 : string → string) (sformat : string → string → option string) (uri_encode : string → string)
  (c : webdav_config).
Context (auth : list header) (Hauth : plain_authorization base64 sformat c auth).
Abbreviation WS := (webdav W).

Definition props (s : WS) : gmap string (gmap qname (list dom)) := dav_props (wd_server s).

Lemma connect_props (s : WS) :
  pool_ready (wd_pool s) →
  ∃ s' sid x, connect s = (s', Value sid) ∧ taken (wd_pool s') sid x ∧ valid_session x ∧ props s' = props s.
Proof using DP. exact (connect_ready dav_props props_connects s). Qed.

Lemma propfind_ready (s : WS) (sid : nat) (x : WebDAVSession) (fileId : string) :
  taken (wd_pool s) sid x → valid_session x →
  ∃ s' res, webdav_PROPFIND base64 sformat c sid fileId 0 s = (s', res) ∧ pool_ready (wd_pool s') ∧
    props s' = props s ∧
    match props s !! url_of c fileId with
    | Some m => ∃ xml, res = Value xml ∧ properties_in xml m
    | None => res = Exception (makePosixException ENOENT)
    end.
Proof using Hauth DP.
  intros Hx Hv. destruct (request_ready props_open base64 sformat c auth Hauth s sid x "PROPFIND" fileId
    [("Depth"%string, depth_text 0)] [] propfind_result
    (λ w rs, dav_props w = props s ∧ match props s !! url_of c fileId with
                                      | Some m => found m rs
                                      | None => rs_status rs = 404
                                      end) Hx Hv) as (s' & rs & Hr & Hready & Hp & Hres).
  { intros host. apply (props_find (wd_server s) (mk_http_request _ _ _ _)); [done|].
    by rewrite (header_values_base base64 sformat c auth Hauth) by (apply (bool_decide_unpack _); vm_compute; exact I). }
  exists s', (propfind_result rs). split; [exact Hr|]. split; [done|]. split; [done|].
  unfold propfind_result. destruct (props s !! url_of c fileId) as [m|].
  - destruct Hres as (Hs & xml & Hxml & Hm). exists xml. rewrite (check_status_success rs Hs). simpl. by rewrite Hxml.
  - unfold check_status. by rewrite Hres.
Qed.

(** What an operation that looks up properties gives. *)
Lemma lookup_ready {B} (s : WS) (fileId : string) (k : dom → Try B) :
  pool_ready (wd_pool s) →
  ∃ s' res, (sid ← connect; multistatus ← webdav_PROPFIND base64 sformat c sid fileId 0; st_lift (k multistatus)) s
      = (s', res) ∧ pool_ready (wd_pool s') ∧ props s' = props s ∧
    match props s !! url_of c fileId with
    | Some m => ∃ xml, res = k xml ∧ properties_in xml m
    | None => res = Exception (makePosixException ENOENT)
    end.
Proof using Hauth DP.
  intros Hready. destruct (connect_props s Hready) as (s1 & sid & x & Hc & Hx & Hv & Hp1).
  destruct (propfind_ready s1 sid x fileId Hx Hv) as (s2 & res & Hf & Hready2 & Hp2 & Hres). rewrite Hp1 in *.
  exists s2. unfold mbind, ST_bind. rewrite Hc, Hf. destruct (props s !! url_of c fileId) as [m|].
  - destruct Hres as (xml & -> & Hm). exists (k xml). split_and!; [done..|]. by exists xml.
  - rewrite Hres. by eexists.
Qed.

Lemma getxattr_ready (s : WS) (fileId name : string) :
  pool_ready (wd_pool s) →
  ∃ s', getxattr base64 sformat uri_encode c fileId name s
        = (s', match props s !! url_of c fileId with
               | Some m => attribute_value m (uri_encode name)
               | None => Exception (makePosixException ENOENT)
               end) ∧ pool_ready (wd_pool s') ∧ props s' = props s.
Proof using Hauth DP.
  intros Hready. destruct (lookup_ready s fileId (xattr_of uri_encode name) Hready) as (s' & res & Hg & Hr & Hp & Hres).
  exists s'. unfold getxattr. rewrite Hg. split; [|done]. f_equal.
  destruct (props s !! url_of c fileId) as [m|]; [|done]. destruct Hres as (xml & -> & _ & Hm).
  specialize (Hm (kNSOnedata, uri_encode name)). unfold xattr_of, attribute_value. rewrite <-Hm.
  destruct (getNodeByPathNS xml _) as [n|]; [|done]. simpl.
  destruct n as [ns nm attrs l|]; [|done]. simpl. destruct l as [|v [|v' l]]; [done| |by destruct v].
  destruct v as [|text]; [done|]. simpl. by rewrite string_app_nil.
Qed.

Definition attribute_names (m : gmap qname (list dom)) (names : list string) : Prop :=
  NoDup names ∧ ∀ key, key ∈ names ↔ is_Some (m !! (kNSOnedata, key)).

Lemma names_of_nodes (l : list (qname * list dom)) :
  map local_name (filter (λ n, namespaceURI n = kNSOnedata) (map prop_node l))
  = omap (λ p, if decide (p.1.1 = kNSOnedata) then Some p.1.2 else None) l.
Proof.
  induction l as [|[[ns name] v] l IH]; [done|]. simpl. rewrite filter_cons. simpl.
  destruct (decide (ns = kNSOnedata)); simpl; by rewrite IH.
Qed.

Lemma names_listed (l : list (qname * list dom)) :
  NoDup l.*1 →
  attribute_names (list_to_map l) (omap (λ p, if decide (p.1.1 = kNSOnedata) then Some p.1.2 else None) l).
Proof.
  intros Hl. split.
  - induction l as [|[[ns name] v] l IH]; [constructor|]. simpl in *. pose proof (NoDup_cons_1_1 _ _ Hl) as Hnot. apply NoDup_cons_1_2 in Hl.
    destruct (decide (ns = kNSOnedata)) as [->|]; [|by apply IH]. constructor; [|by apply IH].
    intros ([[ns' name'] v'] & Hin & Hname)%list_elem_of_omap. simpl in Hname. case_decide; [|done].
    apply Hnot. apply list_elem_of_fmap. exists (ns', name', v'). split; [|done]. simpl. by simplify_eq.
  - intros key. rewrite list_elem_of_omap. split.
    + intros ([[ns name] v] & Hin & Hname). simpl in Hname. case_decide; [|done]. simplify_eq.
      exists v. by apply elem_of_list_to_map_1.
    + intros [v Hv]. apply elem_of_list_to_map_2 in Hv. exists (kNSOnedata, key, v). by split.
Qed.

Lemma listxattr_ready (s : WS) (fileId : string) (m : gmap qname (list dom)) :
  pool_ready (wd_pool s) → props s !! url_of c fileId = Some m →
  ∃ s' names, listxattr base64 sformat c fileId s = (s', Value names) ∧ attribute_names m names.
Proof using Hauth DP.
  intros Hready Hm.
  destruct (lookup_ready s fileId (λ xml, Value (xattr_names_of xml)) Hready) as (s' & res & Hg & Hr & Hp & Hres).
  rewrite Hm in Hres. destruct Hres as (xml & -> & (prop & l & Hprop & Hl & Hnodup & ->) & _).
  exists s', (xattr_names_of xml). split; [exact Hg|]. unfold xattr_names_of. rewrite Hprop, Hl, names_of_nodes.
  by apply names_listed.
Qed.

Lemma patched_result (rs : http_response) : patched rs → proppatch_result rs = Value tt.
Proof.
  intros (Hs & xml & status & Hxml & Hstatus & Htext). unfold proppatch_result.
  rewrite (check_status_success rs Hs). simpl. fold status_path. by rewrite Hxml, Hstatus, Htext.
Qed.

(** A PROPPATCH that changes the properties of a resource by [f]. *)
Lemma proppatch_ready (s : WS) (fileId property value : string) (remove : bool) (m : gmap qname (list dom))
    (f : gmap qname (list dom) → gmap qname (list dom)) :
  pool_ready (wd_pool s) → props s !! url_of c fileId = Some m →
  (∀ w rq, rq_method rq = "PROPPATCH"%string → rq_url rq = url_of c fileId →
     rq_body rq = body_of (if remove then remove_document uri_encode property
                           else set_document uri_encode property value) → dav_props w = props s →
     ∃ w' rs, dav_exchange rq w = (w', Some rs) ∧ patched rs ∧ dav_props w' = <[url_of c fileId := f m]> (props s)) →
  ∃ s', (sid ← connect; webdav_PROPPATCH base64 sformat uri_encode c sid fileId property value remove) s
        = (s', Value tt) ∧ pool_ready (wd_pool s') ∧ props s' = <[url_of c fileId := f m]> (props s).
Proof using Hauth DP.
  intros Hready Hm Hpatch. destruct (connect_props s Hready) as (s1 & sid & x & Hc & Hx & Hv & Hp1).
  rewrite (st_bind_value _ _ _ _ _ Hc). unfold webdav_PROPPATCH. cbv zeta.
  fold (body_of (if remove then remove_document uri_encode property else set_document uri_encode property value)).
  set (body := body_of _).
  destruct (request_ready props_open base64 sformat c auth Hauth s1 sid x "PROPPATCH" fileId
    [("Content-type", "application/x-www-form-urlencoded")%string; content_length body] body proppatch_result
    (λ w rs, patched rs ∧ dav_props w = <[url_of c fileId := f m]> (props s)) Hx Hv)
    as (s2 & rs & Hr & Hready2 & Hs & Hp2).
  { intros host. by apply Hpatch. }
  exists s2. rewrite Hr, (patched_result rs Hs). done.
Qed.

Lemma setxattr_ready (s : WS) (fileId name value : string) (create replace : bool) (m : gmap qname (list dom)) :
  pool_ready (wd_pool s) → props s !! url_of c fileId = Some m → xml_name (uri_encode name) → xml_text value →
  ∃ s', setxattr base64 sformat uri_encode c fileId name value create replace s = (s', Value tt) ∧
    pool_ready (wd_pool s') ∧
    props s' = <[url_of c fileId := <[(kNSOnedata, uri_encode name) := [value_node value]]> m]> (props s).
Proof using Hauth DP.
  intros Hready Hm Hname Hvalue.
  apply (proppatch_ready s fileId name value false m (λ m, <[_ := _]> m) Hready Hm).
  intros w [method url headers body] Hmethod Hurl Hbody Hw. simpl in Hurl. subst url.
  destruct (props_set w (mk_http_request method (url_of c fileId) headers body) (kNSOnedata, uri_encode name)
    (value_node value) Hmethod Hbody Hname) as (w' & rs & Hex & Hres).
  { unfold value_node. destruct (String.eqb value ""); [by right|]. left. by exists value. }
  simpl in Hres. rewrite Hw, Hm in Hres. by exists w', rs.
Qed.

(** Removing an attribute removes the property of the namespace "o:". *)
Lemma removexattr_ready (s : WS) (fileId name : string) (m : gmap qname (list dom)) :
  pool_ready (wd_pool s) → props s !! url_of c fileId = Some m → xml_name (uri_encode name) →
  ∃ s', removexattr base64 sformat uri_encode c fileId name s = (s', Value tt) ∧ pool_ready (wd_pool s') ∧
    props s' = <[url_of c fileId := delete ("o:"%string, uri_encode name) m]> (props s).
Proof using Hauth DP.
  intros Hready Hm Hname. apply (proppatch_ready s fileId name "" true m (delete _) Hready Hm).
  intros w [method url headers body] Hmethod Hurl Hbody Hw. simpl in Hurl. subst url.
  destruct (props_remove w (mk_http_request method (url_of c fileId) headers body) ("o:"%string, uri_encode name)
    Hmethod Hbody Hname) as (w' & rs & Hex & Hres).
  simpl in Hres. rewrite Hw, Hm in Hres. by exists w', rs.
Qed.

Lemma value_node_value (value : string) :
  attribute_value {[(kNSOnedata, ""%string) := [value_node value]]} "" = Value value.
Proof.
  unfold attribute_value, value_node. rewrite lookup_singleton_eq.
  by destruct (String.eqb_spec value "") as [->|].
Qed.

(** Removing an attribute succeeds and its value is read as before. *)
Lemma webdav_removexattr_keeps (s : WS) (fileId name : string) (m : gmap qname (list dom)) :
  pool_ready (wd_pool s) → props s !! url_of c fileId = Some m → xml_name (uri_encode name) →
  ∃ s', removexattr base64 sformat uri_encode c fileId name s = (s', Value tt) ∧
    ∀ fileId' name', (getxattr base64 sformat uri_encode c fileId' name' s').2
                     = (getxattr base64 sformat uri_encode c fileId' name' s).2.
Proof using Hauth DP.
  intros Hready Hm Hname. destruct (removexattr_ready s fileId name m Hready Hm Hname) as (s' & Hr & Hready' & Hp).
  exists s'. split; [done|]. intros fileId' name'.
  destruct (getxattr_ready s fileId' name' Hready) as (t & -> & _).
  destruct (getxattr_ready s' fileId' name' Hready') as (t' & -> & _). simpl. rewrite Hp.
  destruct (decide (url_of c fileId' = url_of c fileId)) as [->|Hne]; [|by rewrite lookup_insert_ne by done].
  rewrite lookup_insert_eq, Hm. unfold attribute_value. by rewrite lookup_delete_ne by done.
Qed.
End attributes.

(** C36: an extended attribute that was set over WebDAV, of any value that XML
    carries and also of the empty one, is read back, attributes under other
    escaped names and of other resources read as before, and the list of the
    attributes of the resource is the former one and the escaped name. *)
Theorem webdav_xattr_roundtrip {W : Type} `{DavProps W} (base64 : string → string)
    (sformat : string → string → option string) (uri_encode : string → string) (c : webdav_config)
    (auth : list header) (s : webdav W) (fileId name value : string) (create replace : bool) :
  plain_authorization base64 sformat c auth → pool_ready (wd_pool s) →
  is_Some (props s !! url_of c fileId) → xml_name (uri_encode name) → xml_text value →
  ∃ s', setxattr base64 sformat uri_encode c fileId name value create replace s = (s', Value tt) ∧
    pool_ready (wd_pool s') ∧
    (∀ fileId' name',
       (getxattr base64 sformat uri_encode c fileId' name' s').2
       = if decide (url_of c fileId' = url_of c fileId ∧ uri_encode name' = uri_encode name) then Value value
         else (getxattr base64 sformat uri_encode c fileId' name' s).2) ∧
    ∃ before after, (listxattr base64 sformat c fileId s).2 = Value before ∧
      (listxattr base64 sformat c fileId s').2 = Value after ∧ NoDup after ∧
      ∀ key, key ∈ after ↔ key = uri_encode name ∨ key ∈ before.
Proof.
  intros Hauth Hready [m Hm] Hname Hvalue.
  destruct (setxattr_ready base64 sformat uri_encode c auth Hauth s fileId name value create replace m Hready Hm
    Hname Hvalue) as (s' & Hset & Hready' & Hp).
  exists s'. split; [done|]. split; [done|]. split.
  - intros fileId' name'.
    destruct (getxattr_ready base64 sformat uri_encode c auth Hauth s fileId' name' Hready) as (t & -> & _).
    destruct (getxattr_ready base64 sformat uri_encode c auth Hauth s' fileId' name' Hready') as (t' & -> & _).
    simpl. rewrite Hp. destruct (decide (url_of c fileId' = url_of c fileId)) as [->|Hne].
    + rewrite lookup_insert_eq, Hm. unfold attribute_value.
      destruct (decide (uri_encode name' = uri_encode name)) as [->|Hne].
      * rewrite decide_True by done. rewrite lookup_insert_eq. pose proof (value_node_value value) as Hv.
        unfold attribute_value in Hv. by rewrite lookup_singleton_eq in Hv.
      * rewrite decide_False by tauto. by rewrite lookup_insert_ne by congruence.
    + rewrite decide_False by tauto. by rewrite lookup_insert_ne by done.
  - destruct (listxattr_ready base64 sformat c auth Hauth s fileId m Hready Hm) as (t & before & -> & _ & Hb).
    destruct (listxattr_ready base64 sformat c auth Hauth s' fileId _ Hready'
      ltac:(rewrite Hp; apply lookup_insert_eq)) as (t' & after & -> & Hnodup & Ha).
    exists before, after. split_and!; [done..|]. intros key. rewrite Ha, Hb.
    destruct (decide (key = uri_encode name)) as [->|Hkey].
    + rewrite lookup_insert_eq. split; [by left|done].
    + rewrite lookup_insert_ne by congruence. split; [by right|]. by intros [Hk|Hk].
Qed.

(** ** A server and an XML library in memory *)

Fixpoint dom_tree (n : dom) : gen_tree string :=
  match n with
  | TextNode text => GenLeaf text
  | Element ns name attributes l =>
      GenNode 0 (GenLeaf ns :: GenLeaf name ::
                 GenNode 0 (map (λ a, GenNode 0 [GenLeaf a.1; GenLeaf a.2]) attributes) :: map dom_tree l)
  end.

Definition tree_attribute (t : gen_tree string) : string * string :=
  match t with GenNode _ [GenLeaf name; GenLeaf value] => (name, value) | _ => (""%string, ""%string) end.
Fixpoint tree_dom (t : gen_tree string) : dom :=
  match t with
  | GenLeaf text => TextNode text
  | GenNode _ (GenLeaf ns :: GenLeaf name :: GenNode _ attributes :: l) =>
      Element ns name (map tree_attribute attributes) (map tree_dom l)
  | GenNode _ _ => TextNode ""
  end.

Fixpoint bits (p : positive) : string :=
  match p with xH => "" | xO p => String "0" (bits p) | xI p => String "1" (bits p) end.
Fixpoint unbits (s : string) : positive :=
  match s with
  | EmptyString => 1
  | String a s => if Ascii.eqb a "0" then xO (unbits s) else xI (unbits s)
  end.

Definition memory_write (n : dom) : string := bits (encode (dom_tree n)).
Definition memory_parse (b : bytes) : option dom :=
  tree_dom <$> decode (unbits (String.string_of_list_byte b)).

Definition find_child (q : qname) (l : list dom) : option dom :=
  snd <$> list_find (λ n, (namespaceURI n, local_name n) = q) l.
Fixpoint find_path (n : dom) (path : list qname) : option dom :=
  match path with
  | [] => Some n
  | q :: path => child ← find_child q (childNodes n); find_path child path
  end.

#[local] Instance memory_xml : Xml := {|
  parseMemory := memory_parse;
  writeNode := memory_write;
  getNodeByPathNS := find_path;
  getElementsByTagNameNS := λ n q, filter (λ n, (namespaceURI n, local_name n) = q) (childNodes n)
|}.

Definition dav (name : string) (l : list dom) : dom := Element kNSDAV name [] l.
Definition multistatus_of (prop : list dom) : dom :=
  Element "" "" [] [dav "multistatus" [dav "response" [dav "propstat"
    [dav "prop" prop; dav "status" [TextNode "HTTP/1.1 200 OK"]]]]].

Abbreviation memory_props := (gmap string (gmap qname (list dom))).

Definition memory_patch (document : dom) (m : gmap qname (list dom)) : gmap qname (list dom) :=
  match document with
  | Element _ _ _ [Element _ what _ [Element _ _ _ [Element ns name _ l]]] =>
      if String.eqb what "set" then <[(ns, name) := l]> m else delete (ns, name) m
  | _ => m
  end.

Definition memory_props_exchange (rq : http_request) (w : memory_props) : memory_props * option http_response :=
  let answer status document := Some (mk_http_response status None [body_of document]) in
  match w !! rq_url rq with
  | None => (w, answer 404 (dav "error" []))
  | Some m =>
      if String.eqb (rq_method rq) "PROPFIND"
      then (w, answer 207 (multistatus_of (map prop_node (map_to_list m))))
      else match parseMemory (rq_body rq) with
           | Some document => (<[rq_url rq := memory_patch document m]> w, answer 207 (multistatus_of []))
           | None => (w, answer 400 (dav "error" []))
           end
  end.

#[local] Instance memory_props_server : WebDAVServer memory_props := {|
  dav_connect := λ w, (w, Some "192.0.2.1"%string);
  dav_isClosing := λ _, false;
  dav_newTransaction_fails := λ _, false;
  dav_exchange := memory_props_exchange
|}.

Lemma tree_dom_tree (n : dom) : tree_dom (dom_tree n) = n.
Proof.
  revert n. fix IH 1. intros [ns name attributes l|text]; [|done]. simpl. f_equal.
  - rewrite map_map. induction attributes as [|[a b] attributes IHa]; simpl; [done|]. f_equal. exact IHa.
  - induction l as [|n l IHl]; simpl; [done|]. by rewrite IH, IHl.
Qed.

Lemma unbits_bits (p : positive) : unbits (bits p) = p.
Proof. induction p as [p IH|p IH|]; simpl; by rewrite ?IH. Qed.

Lemma memory_parse_body (n : dom) : parseMemory (body_of n) = Some n.
Proof.
  simpl. unfold memory_parse, body_of. simpl. unfold memory_write.
  by rewrite String.string_of_list_byte_of_string, unbits_bits, decode_encode; simpl; rewrite tree_dom_tree.
Qed.

Lemma find_child_map (q : qname) (l : list (qname * list dom)) :
  find_child q (map prop_node l) = (λ v, prop_node (q, v)) <$> (list_to_map l : gmap qname (list dom)) !! q.
Proof.
  unfold find_child. induction l as [|[[ns name] v] l IH]; [done|]. simpl.
  destruct (decide ((ns, name) = q)) as [<-|Hne]; [by rewrite lookup_insert_eq|].
  rewrite lookup_insert_ne by done. rewrite <-IH. by destruct (list_find _ _) as [[]|].
Qed.

Lemma found_memory (m : gmap qname (list dom)) (close : option string) :
  found m (mk_http_response 207 close [body_of (multistatus_of (map prop_node (map_to_list m)))]).
Proof.
  split; [by unfold success|]. exists (multistatus_of (map prop_node (map_to_list m))).
  split; [simpl rs_body; rewrite concat_cons, app_nil_r; apply memory_parse_body|]. split.
  - exists (dav "prop" (map prop_node (map_to_list m))), (map_to_list m).
    split_and!; [done|done|apply NoDup_fst_map_to_list|by rewrite list_to_map_to_list].
  - intros q. change (getNodeByPathNS _ _) with (child ← find_child q (map prop_node (map_to_list m)); Some child).
    rewrite find_child_map, list_to_map_to_list. by destruct (m !! q).
Qed.

Lemma patched_memory (close : option string) :
  patched (mk_http_response 207 close [body_of (multistatus_of [])]).
Proof.
  split; [by unfold success|]. exists (multistatus_of []), (dav "status" [TextNode "HTTP/1.1 200 OK"]).
  split; [|done]. simpl rs_body. rewrite concat_cons, app_nil_r. apply memory_parse_body.
Qed.

#[local] Instance memory_dav_props : DavProps memory_props.
Proof.
  refine {| xml_name := λ _, True; xml_text := λ _, True; dav_props := id |}.
  - intros w. by eexists w, _.
  - done.
  - intros w [method url headers body] Hm Hd. simpl in Hm. subst method. simpl. unfold memory_props_exchange. simpl.
    unfold id. destruct (w !! url) as [m|]; eexists _, _; (split; [done|]); (split; [done|]); [|done].
    apply found_memory.
  - intros w [method url headers body] q v Hm Hbody _ _. simpl in Hm, Hbody. subst method body. simpl.
    unfold memory_props_exchange. cbn [rq_url rq_method rq_body]. rewrite memory_parse_body. simpl.
    unfold id. destruct (w !! url) as [m|]; eexists _, _; (split; [done|]); [|done].
    split; [apply patched_memory|by destruct q].
  - intros w [method url headers body] q Hm Hbody _. simpl in Hm, Hbody. subst method body. simpl.
    unfold memory_props_exchange. cbn [rq_url rq_method rq_body]. rewrite memory_parse_body. simpl.
    unfold id. destruct (w !! url) as [m|]; eexists _, _; (split; [done|]); [|done].
    split; [apply patched_memory|by destruct q].
Defined.

Definition xattr_config : webdav_config :=
  mk_webdav_config "http" "dav.example.org" 80 "" true TOKEN "secret" "X-Auth-Token: {}" NONE 1 0.
Definition xattr_start : webdav memory_props :=
  new_webdav xattr_config {[ "/f"%string := {[ (kNSOnedata, "colour"%string) := [TextNode "red"] ]} ]}.

Lemma webdav_xattr_roundtrip_witness :
  ∃ s', setxattr id (λ _ value, Some value) id xattr_config "f" "size" "" false false xattr_start = (s', Value tt) ∧
    pool_ready (wd_pool s') ∧
    (∀ fileId name, (getxattr id (λ _ value, Some value) id xattr_config fileId name s').2
       = if decide (url_of xattr_config fileId = "/f"%string ∧ name = "size"%string) then Value ""%string
         else (getxattr id (λ _ value, Some value) id xattr_config fileId name xattr_start).2) ∧
    ∃ before after, (listxattr id (λ _ value, Some value) xattr_config "f" xattr_start).2 = Value before ∧
      (listxattr id (λ _ value, Some value) xattr_config "f" s').2 = Value after ∧ NoDup after ∧
      ∀ key, key ∈ after ↔ key = "size"%string ∨ key ∈ before.
Proof.
  apply (webdav_xattr_roundtrip (W := memory_props) id (λ _ value, Some value) id xattr_config
    [("X-Auth-Token", "secret")%string] xattr_start "f" "size" "" false false).
  - split; [done|]. repeat constructor; apply (bool_decide_unpack _); vm_compute; exact I.
  - split_and!; [done|vm_compute; lia|]. intros sid Hin. simpl in Hin. apply list_elem_of_singleton in Hin as ->.
    by exists (mk_WebDAVSession None false false false).
  - by eexists.
  - exact I.
  - exact I.
Defined.
