(* ===== verification/HelperCreator.v ===== *)
(** * Creating helpers (src/src/storageHelperCreator.cc and the factories)

    [getStorageHelper] chooses a factory by name, the factory reads its
    parameters and builds the helper, and the result may be wrapped by a buffer
    agent.  The conditional parts of the build are the record [build]. *)

From stdpp Require Import base numbers list gmap strings.
From Stdlib Require Import ZArith Lia Floats.SpecFloat.
From S2P Require Import Prelude Storage PosixHelper BufferAgent KeyValueAdapter CephRados SwiftHelper ProxyHelper.
From S2P Require Import NullDevice GlusterFS DHuS WebDAV.
Local Open Scope Z_scope.

(** Milliseconds. *)
Definition ASYNC_OPS_TIMEOUT : Z := 120000.

Definition POSIX_HELPER_NAME : string := "posix".
Definition CEPH_HELPER_NAME : string := "ceph".
Definition CEPHRADOS_HELPER_NAME : string := "cephrados".
Definition PROXY_HELPER_NAME : string := "proxy".
Definition S3_HELPER_NAME : string := "s3".
Definition SWIFT_HELPER_NAME : string := "swift".
Definition GLUSTERFS_HELPER_NAME : string := "glusterfs".
Definition WEBDAV_HELPER_NAME : string := "webdav".
Definition DHUSODATA_HELPER_NAME : string := "dhusodata".
Definition NULL_DEVICE_HELPER_NAME : string := "nulldevice".

(** ** What the factories build *)

Record s3_config := mk_s3_config {
  s3_hostname : string; s3_bucketName : string; s3_accessKey : string; s3_secretKey : string;
  s3_useHttps : bool
}.
Record swift_config := mk_swift_config { sc_containerName : string; sc_auth : AuthenticationInfo }.

(** A helper as its constructor's arguments; key-value helpers come with the
    block size of their adapter. *)
Inductive helper :=
| a_PosixHelper (h : PosixHelper)
| a_CephHelper (c : ceph_config) (timeout : Z)
| a_CephRadosHelper (c : ceph_config) (timeout blockSize : Z)
| a_ProxyHelper (h : ProxyHelper)
| a_S3Helper (c : s3_config) (timeout blockSize : Z)
| a_SwiftHelper (c : swift_config) (timeout blockSize : Z)
| a_GlusterFSHelper (c : gluster_config) (timeout : Z)
| a_WebDAVHelper (c : webdav_config) (timeout : Z)
| a_DHUSODataHelper (c : dhus_config)
| a_NullDeviceHelper (c : NullDeviceConfig) (h : NullDeviceHelper) (timeout : Z).

(** The helper, or the buffer agent around it. *)
Inductive created :=
| plain (h : helper)
| a_BufferAgent (bl : BufferLimits) (h : helper).

(** WITH_CEPH, BUILD_PROXY_IO, WITH_S3, WITH_SWIFT, WITH_GLUSTERFS, WITH_WEBDAV,
    WITH_DHUSODATA *)
Record build := mk_build {
  with_ceph : bool; with_proxy : bool; with_s3 : bool; with_swift : bool; with_glusterfs : bool;
  with_webdav : bool; with_dhusodata : bool
}.

Section creator.
(** [boost::lexical_cast] to int, size_t, uint32_t, double and strings; the parser
    of URIs; the generators and the clock of the null device. *)
Context (cast_int cast_size cast_uint32 : string → option Z) (parse_uri : string → option uri)
  (cast_double : string → option spec_float)
  (cast_string : string → option string)
  (uniform_int : Z → Z → nat → Z) (uniform_real : nat → spec_float) (mountTime clock : Z).

Definition get_timeout (parameters : Params) : Try Z :=
  getParam_def cast_size parameters "timeout" ASYNC_OPS_TIMEOUT.
Definition get_blockSize (parameters : Params) : Try Z :=
  getParam_def cast_size parameters "blockSize" DEFAULT_BLOCK_SIZE.

Definition create_posix (parameters : Params) : Try helper :=
  mountPoint ← getParam_string parameters "mountPoint";
  uid ← getParam_def cast_int parameters "uid" (-1);
  gid ← getParam_def cast_int parameters "gid" (-1);
  timeout ← get_timeout parameters;
  Value (a_PosixHelper (mk_PosixHelper mountPoint (u32 uid) (u32 gid) timeout)).

(** The parameters that both Ceph helpers read first. *)
Definition get_ceph (parameters : Params) : Try (ceph_config * Z) :=
  clusterName ← getParam_string parameters "clusterName";
  monHost ← getParam_string parameters "monitorHostname";
  poolName ← getParam_string parameters "poolName";
  userName ← getParam_string parameters "username";
  key ← getParam_string parameters "key";
  timeout ← get_timeout parameters;
  Value (mk_ceph_config clusterName monHost poolName userName key, timeout).

Definition create_ceph (parameters : Params) : Try helper :=
  '(c, timeout) ← get_ceph parameters;
  Value (a_CephHelper c timeout).

Definition create_cephrados (parameters : Params) : Try helper :=
  '(c, timeout) ← get_ceph parameters;
  blockSize ← get_blockSize parameters;
  Value (a_CephRadosHelper c timeout blockSize).

Definition create_proxy (parameters : Params) : Try helper :=
  storageId ← getParam_string parameters "storageId";
  timeout ← get_timeout parameters;
  Value (a_ProxyHelper (mk_ProxyHelper storageId timeout)).

(** A default that is a string literal selects the general template. *)
Definition create_s3 (parameters : Params) : Try helper :=
  scheme ← getParam_def cast_string parameters "scheme" "https"%string;
  hostname ← getParam_string parameters "hostname";
  bucketName ← getParam_string parameters "bucketName";
  accessKey ← getParam_string parameters "accessKey";
  secretKey ← getParam_string parameters "secretKey";
  version ← getParam_def cast_int parameters "signatureVersion" 4;
  timeout ← get_timeout parameters;
  blockSize ← get_blockSize parameters;
  if negb (version =? 4) then Exception invalid_argument
  else Value (a_S3Helper (mk_s3_config hostname bucketName accessKey secretKey (String.eqb scheme "https"))
                timeout blockSize).

Definition create_swift (parameters : Params) : Try helper :=
  authUrl ← getParam_string parameters "authUrl";
  containerName ← getParam_string parameters "containerName";
  tenantName ← getParam_string parameters "tenantName";
  userName ← getParam_string parameters "username";
  password ← getParam_string parameters "password";
  timeout ← get_timeout parameters;
  blockSize ← get_blockSize parameters;
  Value (a_SwiftHelper (mk_swift_config containerName
           (mk_AuthenticationInfo userName password authUrl tenantName)) timeout blockSize).

Definition create_glusterfs (parameters : Params) : Try helper :=
  mountPoint ← getParam_def cast_string parameters "mountPoint" ""%string;
  uid ← getParam_def cast_int parameters "uid" (-1);
  gid ← getParam_def cast_int parameters "gid" (-1);
  hostname ← getParam cast_string parameters "hostname";
  port ← getParam_def cast_int parameters "port" 24007;
  volume ← getParam cast_string parameters "volume";
  transport ← getParam_def cast_string parameters "transport" "tcp"%string;
  xlatorOptions ← getParam_def cast_string parameters "xlatorOptions" ""%string;
  timeout ← get_timeout parameters;
  Value (a_GlusterFSHelper
           (mk_gluster_config mountPoint (u32 uid) (u32 gid) hostname port volume transport xlatorOptions) timeout).

Definition create_webdav_helper (parameters : Params) : Try helper :=
  '(c, timeout) ← create_webdav cast_size cast_uint32 cast_string parse_uri ASYNC_OPS_TIMEOUT parameters;
  Value (a_WebDAVHelper c timeout).

Definition create_dhus (parameters : Params) : Try helper :=
  c ← create_dhusodata parameters;
  Value (a_DHUSODataHelper c).

Definition create_null (parameters : Params) : Try helper :=
  '(c, h, timeout) ← NullDevice.createStorageHelper cast_int cast_double cast_size uniform_int uniform_real
                       ASYNC_OPS_TIMEOUT mountTime clock parameters;
  Value (a_NullDeviceHelper c h timeout).

(** One test of the name: the helper so far is replaced. *)
Definition when (present : bool) (name helper_name : string) (create : Try helper) (so_far : option helper)
  : Try (option helper) :=
  if present && String.eqb name helper_name then h ← create; Value (Some h) else Value so_far.

Definition getStorageHelper (b : build) (m_bufferLimits : BufferLimits) (name : string) (args : Params)
    (buffered : bool) : Try created :=
  h ← when true name POSIX_HELPER_NAME (create_posix args) None;
  h ← when (with_ceph b) name CEPH_HELPER_NAME (create_ceph args) h;
  h ← when (with_ceph b) name CEPHRADOS_HELPER_NAME (create_cephrados args) h;
  h ← when (with_proxy b) name PROXY_HELPER_NAME (create_proxy args) h;
  h ← when (with_s3 b) name S3_HELPER_NAME (create_s3 args) h;
  h ← when (with_swift b) name SWIFT_HELPER_NAME (create_swift args) h;
  h ← when (with_glusterfs b) name GLUSTERFS_HELPER_NAME (create_glusterfs args) h;
  h ← when (with_webdav b) name WEBDAV_HELPER_NAME (create_webdav_helper args) h;
  h ← when (with_dhusodata b) name DHUSODATA_HELPER_NAME (create_dhus args) h;
  h ← when true name NULL_DEVICE_HELPER_NAME (create_null args) h;
  match h with
  | None => Exception (system_error (make_error_code EINVAL))
  | Some h => Value (if buffered then a_BufferAgent m_bufferLimits h else plain h)
  end.

(** ** The table of factories *)

(** The names of a build and their factories. *)
Definition entry (present : bool) (name : string) (create : Params → Try helper) : list (string * (Params → Try helper)) :=
  if present then [(name, create)] else [].
Definition factories (b : build) : list (string * (Params → Try helper)) :=
  entry true POSIX_HELPER_NAME create_posix ++
  entry (with_ceph b) CEPH_HELPER_NAME create_ceph ++
  entry (with_ceph b) CEPHRADOS_HELPER_NAME create_cephrados ++
  entry (with_proxy b) PROXY_HELPER_NAME create_proxy ++
  entry (with_s3 b) S3_HELPER_NAME create_s3 ++
  entry (with_swift b) SWIFT_HELPER_NAME create_swift ++
  entry (with_glusterfs b) GLUSTERFS_HELPER_NAME create_glusterfs ++
  entry (with_webdav b) WEBDAV_HELPER_NAME create_webdav_helper ++
  entry (with_dhusodata b) DHUSODATA_HELPER_NAME create_dhus ++
  entry true NULL_DEVICE_HELPER_NAME create_null ++ [].

Fixpoint find_factory (name : string) (l : list (string * (Params → Try helper))) : option (Params → Try helper) :=
  match l with
  | [] => None
  | (name', create) :: l => if decide (name = name') then Some create else find_factory name l
  end.

Definition wrap (buffered : bool) (bl : BufferLimits) (h : helper) : created :=
  if buffered then a_BufferAgent bl h else plain h.

(** A test of another name leaves the helper; a test of this name creates it. *)
Lemma when_other (present : bool) (name other : string) (create : Try helper) (so_far : option helper) :
  name ≠ other → when present name other create so_far = Value so_far.
Proof. intros Hne. unfold when. destruct (String.eqb_spec name other); [done|]. by rewrite andb_false_r. Qed.

Lemma when_same (present : bool) (name : string) (create : Try helper) (so_far : option helper) :
  when present name name create so_far = if present then h ← create; Value (Some h) else Value so_far.
Proof. unfold when. by rewrite String.eqb_refl, andb_true_r. Qed.

Ltac skip_tests := repeat (rewrite when_other by done; cbn [mbind Try_bind]).

Lemma find_other (present : bool) (name other : string) (create : Params → Try helper)
    (l : list (string * (Params → Try helper))) :
  name ≠ other → find_factory name (entry present other create ++ l) = find_factory name l.
Proof. intros Hne. destruct present; [|done]. simpl. by rewrite decide_False. Qed.

Lemma find_same (present : bool) (name : string) (create : Params → Try helper)
    (l : list (string * (Params → Try helper))) :
  find_factory name (entry present name create ++ l) = if present then Some create else find_factory name l.
Proof. destruct present; [|done]. simpl. by rewrite decide_True. Qed.

(** C38: the sequence of tests is a lookup in the table of the build: an unknown
    or absent name is refused as an invalid argument, a known one gives the
    helper of its own factory or that factory's exception, wrapped by a buffer
    agent with the limits of the creator exactly when asked for. *)
Theorem creator_is_table (b : build) (bl : BufferLimits) (name : string) (args : Params) (buffered : bool) :
  getStorageHelper b bl name args buffered
  = match find_factory name (factories b) with
    | None => Exception (system_error (make_error_code EINVAL))
    | Some create => wrap buffered bl <$> create args
    end.
Proof.
  unfold getStorageHelper, factories.
  destruct (decide (name ∈ [POSIX_HELPER_NAME; CEPH_HELPER_NAME; CEPHRADOS_HELPER_NAME; PROXY_HELPER_NAME;
    S3_HELPER_NAME; SWIFT_HELPER_NAME; GLUSTERFS_HELPER_NAME; WEBDAV_HELPER_NAME; DHUSODATA_HELPER_NAME;
    NULL_DEVICE_HELPER_NAME])) as [Hin|Hout].
  - repeat (apply elem_of_cons in Hin as [->|Hin];
      [rewrite ?find_other, find_same, ?find_other by done; skip_tests; rewrite when_same;
       try match goal with |- context [if ?present then Some _ else _] => destruct present end;
       try match goal with |- context [wrap buffered bl <$> ?result] => destruct result end;
       cbn [mbind Try_bind]; skip_tests; reflexivity|]).
    by apply not_elem_of_nil in Hin.
  - rewrite !not_elem_of_cons in Hout. destruct_and? Hout. rewrite !find_other by done.
    skip_tests. reflexivity.
Qed.
End creator.
